(* ===== verification/_CoqProject ===== *)
-Q . S2P
Prelude.v
GoString.v
GoFloat.v
FloatValue.v
GoTime.v
GoUrl.v
Sha256.v
Geth.v
Config.v
Types.v
Policy.v
Units.v
Hmac.v
Fleet.v
Prog.v
Store.v
MemStore.v
Nonce.v
RateLimit.v
TokenBucket.v
Steady.v
Request.v
Service.v
Custody.v
Exec.v
Sends.v
Broadcast.v
Settlement.v
Treasury.v
Scenarios.v
Handlers.v
AtMostOnce.v
PgStore.v
TreasuryExact.v
Schema.v
SchemaUse.v
PgRace.v
Main.v
Trace.v
Concurrent.v
Restart.v
Termination.v
StoresAgree.v
PgTables.v
FleetTyped.v
FleetSteps.v
FleetRanked.v
ServiceRate.v
NonceUse.v
PgService.v
PgNonce.v
PgLocks.v
Healthy.v
Monitor.v
