(* ===== verification/Prelude.v ===== *)
(** * Verification of the transaction signer

    The repository is a Go service that signs and broadcasts EVM transactions on
    behalf of clients that share an HMAC secret with it. This development models
    the service as it is written under [src/] and proves what it promises; where
    it does not keep a promise, a theorem exhibits the run.

    ** How a request goes through the service, and which file models what

    - [Config] ([config.go]): the environment is a function from names to values;
      [LoadSignerConfig] and [ValidateProduction].
    - [Hmac], [Nonce], [RateLimit], [Request] ([internal/security/], and
      [setupSecurity] of [main.go]): signatures over [Sha256], nonces, rate
      limits, and the middleware that combines them. [Handler] either answers a
      request or hands it on with the context it attached.
    - [Handlers] (the routes of [main.go]): lockdown check, nonce, decoding,
      claim of the idempotency key, execution, save or release.
    - [Policy], [Units], [Exec] ([policy.go], [main.go]): validation of a
      transfer, contract call or settlement, amounts and call data, the treasury
      limits, the loop over the endpoints, signing, sending and recording; the
      monitor of submitted transactions.
    - [Fleet] ([rpc_fleet.go]): scores, reservations and cool-downs of endpoints.
    - [Custody] ([custody_guard.go]): the guard that scans blocks for EIP-7702
      delegations of protected wallets and locks the signer.
    - [Store], [MemStore], [PgStore], [Schema] ([store.go]): the interface, its
      in-memory implementation, its PostgreSQL implementation, and the migration of
      the database.
    - [Main] ([main], [openSignerStore]): the start-up and the multiplexer, which
      redirects a path that is not clean and matches one that is.
    - [Types], [GoString], [GoFloat], [GoTime], [GoUrl], [Sha256], [Geth]: the structs;
      what the source uses of Go's strings, 64-bit floats, time, paths and SHA-256;
      go-ethereum as parameters with the properties the code relies on. [FloatValue]
      relates a float to the rational number it stands for and bounds what an
      operation rounds.

    Every function keeps its name in the source; methods of the two stores are
    prefixed [mem_] and [pg_], those of the rate limiters [tb_] and [sw_], those of
    the nonce stores [inmem_] and [redis_].

    ** How state and effects are modelled

    A function of the source that touches nothing shared is a Rocq function;
    [error] is [Err] with its text. A Go integer is a [Z] with its wrap-around
    ([u32], [u64], [i64]) where it can leave its width, a float a [spec_float].
    A goroutine is a [prog] ([Prog]): a tree of atomic operations. An operation is
    a method under its mutex, a remote call, a reading of the clock, an atomic
    flag ([eff] in [Service]; [sec_op] in [Request]; a SQL statement, [pg_op], in
    [PgStore]). [execute] runs a goroutine alone over a [world]; [pool_step] lets
    any goroutine of a pool do its next operation, and the theorems on
    interleavings quantify over its runs. What the process does not control (the
    clock, the answers of the network, the order of a [range] over a map, why a
    SQL statement fails and whether it took effect all the same) is an argument of
    the definitions.

    A store is a type class ([SignerStore]) with four contracts: [KeySpec] for
    idempotency keys, [IncidentSpec] for custody incidents, [ChainSpec] for chain
    nonces, [OutflowSpec] for the outflow of the day. The routes, the treasury limits
    and the guard are proved against the contracts; both stores are instances of all.

    The same goroutines run at two grains. [lower] and [lower_serve] replace each
    store call by its SQL statements ([interp] of [Prog]), and [past] ([Trace])
    reads a history of statements back as one of calls, so what holds of a goroutine
    whatever it is answered is proved once and holds at both. The instance
    [pg_store] of the interface, used at the coarse grain, runs the statements of a
    method one after the other; only the fine grain ([PgRace], [PgTables],
    [PgService], [PgNonce], [PgLocks], the second half of [Healthy]) lets other
    goroutines in between. In the same way the choice of endpoints is one operation
    in [Service], and [FleetSteps] splits it at the lock of each endpoint.

    ** What the theorems show

    - The whole service under any interleaving of requests, guard and monitor
      ([Concurrent]): [every_broadcast_authorised], no transaction is handed over
      that no signed, fresh, claimed request outside a lockdown asked for;
      [service_pays_once], one key, one payment, over a store with an atomic
      claim. Both rest on [Trace] (histories of operations) and [AtMostOnce] (a
      typestate per key). [Termination]: [request_work_bounded]. [NonceUse]:
      [nonces_never_reused], every transaction has a reservation of its own, which
      the store gave to its goroutine before it sent, for the wallet that signs
      it. [AtMostOnce]: [taken_key_replays], a key that is done is answered with
      its response and one that is held with 409, and neither executes anything.
      [Healthy]: [healthy_request_is_paid], a request that meets with no failure
      is paid, once; [pg_healthy_request_is_paid], also between statements, in
      terms of the tables. [Monitor]: [monitor_settles], what the monitor of
      transactions settles, and how soon. [FleetTyped]: no counter leaves its Go
      type; [FleetSteps]: [fleet_counts_failures], the counters of an endpoint are
      backed by its failures; [FleetRanked]: no score is NaN, and the endpoints
      offered are the best two. [Main]: one request from start to end, and what a
      start in production guarantees.
    - What an accepted request broadcasts ([Sends], [Broadcast], [Settlement],
      [Policy], [Units]): exactly the transfer or payout asked for, at most one
      transaction per endpoint; the operation id binds every field of a
      settlement; amounts are the floor of what is written.
    - The treasury limits ([Treasury]), over either store in exact amounts up to
      the rounding of the sum ([TreasuryExact]), and where they fail
      ([Scenarios]).
    - The middleware ([Request], [Hmac], [Nonce], [RateLimit]): what a request
      that is handed on has proved; signatures bind their parts; a nonce is used
      once; the sliding window keeps its limit; the token bucket ([TokenBucket])
      keeps its rate, up to the rounding of its floats; [Steady]:
      [steady_key_let_through], either lets every request of a client that keeps
      the rate through; [ServiceRate]: [requests_rate_limited], so do the requests
      of a key in the interleaved service.
    - The lockdown ([Custody], [Handlers]): outside shadow mode a scan that reads
      a bad delegation in either block locks; after a restart the guard restores
      the lock ([Restart]: [restart_keeps_lockdown], from its look at the store
      on; before it requests are served, [restart_pays_before_lock]); an unlock
      waits for the cool-down, and no signing route runs meanwhile.
    - The stores: [mem_store_refines_keys] and the instances of the contracts
      ([MemStore], [PgStore]); [StoresAgree], both implement one abstract store;
      [PgRace], the SQL statements of a method, run alone, implement it;
      [PgTables], under any interleaving of statements the tables stay consistent;
      [PgService], the whole service interleaved between statements still
      broadcasts only what was authorised, after its goroutine put the rows of the
      nonce and of the lock there, and reuses no nonce; [PgNonce], a request that
      is sent again within the time to live of its nonce is paid once; [PgLocks],
      the payments of one key never overlap; [Schema], the migration keeps every
      relation, can be run again wherever it broke off, and then does nothing;
      [SchemaUse], the schema it leaves has the tables, columns, keys and index
      that every statement of the store names.
    - Runs in which the code does not do what it means to ([Scenarios],
      [Treasury], [PgRace], [PgStore], [Units], [Hmac], [Main], [Restart]): each
      is closed, or holds of every configuration its hypotheses describe. In
      particular [service_pays_once] needs a store whose [ClaimResult] is atomic,
      as the contract [KeySpec] says: the in-memory one is; the PostgreSQL one
      sends two statements, and [claim_race_pays_twice] is the run between them,
      for any two executions that succeed. The lock of the key still holds there:
      of two payments one is over before the other starts
      ([pg_payments_exclusive]).

    ** Bounds

    Recursion is structural throughout, on a list, on the digits of a string or
    on the number of ticks of a background loop, so no function needs fuel. The
    background loops of the source do not end; the theorems hold of every number
    of ticks. [request_work_bounded] bounds a request by 46 operations, 12 of them remote:
    9 of the middleware, 5 of the route, 2 of the treasury limits, 2 for the choice
    of endpoints and 14 for each of the two it offers, six of those remote.

    ** What is not modelled

    - Logging; the effect of the HTTP server's timeouts and of the contexts that
      carry them (a remote call or statement that is cut off is one that answers an
      error); the headers of a response, the location of a redirect among them.
    - JSON decoding, ABI types, addresses, keys, Keccak, RLP and ECDSA: go-ethereum
      and [encoding/json] are parameters, with a concrete instance for the examples.
    - The clients of Redis and PostgreSQL; the types of the columns, beyond the width
      of a BIGINT; the microsecond precision of the database's timestamps and the text
      encodings it refuses.
    - Panics other than those of the fleet and of the call data; memory exhaustion.
*)
From stdpp Require Export base tactics numbers option list strings gmap fin_maps sorting.
From Stdlib Require Export ZArith Lia.
#[export] Set Warnings "-notation-for-abbreviation".
#[global] Open Scope Z_scope.

(** ** Fallible computations

    A Go function [func f(..) (T, error)] becomes a function into [result T];
    an [error] value is its [Error()] text, because [classifyRPCFailure] and
    the HTTP responses read nothing else of it. *)

Inductive result (A : Type) : Type :=
| Ok (a : A)
| Err (e : string).
Arguments Ok {A} a.
Arguments Err {A} e.

#[export] Instance result_ret : MRet result := @Ok.
#[export] Instance result_bind : MBind result := fun A B f m =>
  match m with Ok a => f a | Err e => Err e end.
#[export] Instance result_fmap : FMap result := fun A B f m =>
  match m with Ok a => Ok (f a) | Err e => Err e end.

#[export] Instance result_eq_dec {A} `{EqDecision A} : EqDecision (result A).
Proof. solve_decision. Defined.
#[export] Instance Ok_inj {A} : Inj (=) (=) (@Ok A).
Proof. by intros a b [= ->]. Qed.

(** [if bad then return err]: the guard that opens most of the validators. *)
Definition guard_err (bad : bool) (e : string) : result unit :=
  if bad then Err e else Ok tt.

Definition is_ok {A} (r : result A) : bool :=
  match r with Ok _ => true | Err _ => false end.

Lemma guard_err_bind {B} (bad : bool) e (k : unit -> result B) b :
  (x ← guard_err bad e; k x) = Ok b <-> bad = false /\ k tt = Ok b.
Proof. destruct bad; cbn; naive_solver. Qed.

Lemma result_bind_ok {A B} (m : result A) (k : A -> result B) b :
  (x ← m; k x) = Ok b <-> exists a, m = Ok a /\ k a = Ok b.
Proof. destruct m; cbn; naive_solver. Qed.

(** ** Machine integers

    A Go integer of width [w] is a [Z] in its range; arithmetic that can leave
    the range is followed by one of these. *)

Definition wrap_u (w z : Z) : Z := z mod 2 ^ w.
Definition wrap_s (w z : Z) : Z := (z + 2 ^ (w - 1)) mod 2 ^ w - 2 ^ (w - 1).

Abbreviation u32 := (wrap_u 32).
Abbreviation u64 := (wrap_u 64).
Abbreviation i64 := (wrap_s 64).

Definition max_i64 : Z := 2 ^ 63 - 1.
Definition min_i64 : Z := - 2 ^ 63.

Lemma wrap_u_small w z : 0 <= w -> 0 <= z < 2 ^ w -> wrap_u w z = z.
Proof. intros ??. unfold wrap_u. by apply Z.mod_small. Qed.

Lemma wrap_u_range w z : 0 <= w -> 0 <= wrap_u w z < 2 ^ w.
Proof. intros ?. unfold wrap_u. apply Z.mod_pos_bound. lia. Qed.

Lemma i64_small z : min_i64 <= z <= max_i64 -> i64 z = z.
Proof.
  unfold min_i64, max_i64, wrap_s. intros ?.
  change (64 - 1) with 63. rewrite Z.mod_small; lia.
Qed.

Lemma i64_range z : min_i64 <= i64 z <= max_i64.
Proof.
  unfold min_i64, max_i64, wrap_s. change (64 - 1) with 63.
  pose proof (Z.mod_pos_bound (z + 2 ^ 63) (2 ^ 64)). lia.
Qed.

(** ** Tactics *)

(** Case on every [match]/[if] the goal or a hypothesis is stuck on. *)
Ltac case_goal := repeat (case_match; simplify_eq/=; try done).

(** Turn the boolean tests of the code into propositions. *)
Ltac unbool :=
  repeat match goal with
  | H : _ && _ = true |- _ => apply andb_true_iff in H; destruct H
  | H : _ || _ = false |- _ => apply orb_false_iff in H; destruct H
  | H : negb _ = true |- _ => apply negb_true_iff in H
  | H : negb _ = false |- _ => apply negb_false_iff in H
  | H : bool_decide _ = true |- _ => apply bool_decide_eq_true in H
  | H : bool_decide _ = false |- _ => apply bool_decide_eq_false in H
  | H : (_ =? _)%Z = true |- _ => apply Z.eqb_eq in H
  | H : (_ =? _)%Z = false |- _ => apply Z.eqb_neq in H
  | H : (_ <? _)%Z = true |- _ => apply Z.ltb_lt in H
  | H : (_ <? _)%Z = false |- _ => apply Z.ltb_ge in H
  | H : (_ <=? _)%Z = true |- _ => apply Z.leb_le in H
  | H : (_ <=? _)%Z = false |- _ => apply Z.leb_gt in H
  | H : String.eqb _ _ = true |- _ => apply String.eqb_eq in H
  | H : String.eqb _ _ = false |- _ => apply String.eqb_neq in H
  end.

(** Walk down a validator that returned [Ok]. *)
Ltac invert_ok :=
  repeat match goal with
  | H : mbind _ (guard_err _ _) = Ok _ |- _ => apply guard_err_bind in H; destruct H
  | H : mbind _ _ = Ok _ |- _ =>
      apply result_bind_ok in H; destruct H as (? & ? & ?)
  | H : guard_err ?b _ = Ok _ |- _ => destruct b eqn:?; simpl in H; [discriminate H|]
  end.

(** ** Sums *)

Lemma sum_list_insert l i (a b : nat) :
  l !! i = Some a -> (sum_list (<[i := b]> l) + a = sum_list l + b)%nat.
Proof.
  revert i. induction l as [|x l IH]; intros [|i] Hi; [done..| |].
  - injection Hi as ->. change (<[0%nat := b]> (a :: l)) with (b :: l). cbn [sum_list_with id]. lia.
  - change (<[S i := b]> (x :: l)) with (x :: <[i := b]> l). specialize (IH i Hi).
    cbn [sum_list_with id]. lia.
Qed.

Lemma sum_list_two l i j (a b : nat) :
  l !! i = Some a -> l !! j = Some b -> i <> j -> (a + b <= sum_list l)%nat.
Proof.
  intros Hi Hj Hij. pose proof (sum_list_insert l i a 0 Hi).
  assert (<[i := 0%nat]> l !! j = Some b) as Hj' by by rewrite list_lookup_insert_ne.
  pose proof (sum_list_insert _ j b 0 Hj'). lia.
Qed.

Lemma filter_bool_perm {A} (f : A -> bool) l l' :
  l ≡ₚ l' -> List.filter f l ≡ₚ List.filter f l'.
Proof.
  induction 1 as [|x l l' _ IH|x y l|l1 l2 l3 _ IH1 _ IH2]; cbn.
  - done.
  - destruct (f x); [by constructor|done].
  - destruct (f x), (f y); [apply perm_swap|reflexivity..].
  - by transitivity (List.filter f l2).
Qed.

Lemma Forall2_and_r {A B} (R : A -> B -> Prop) (P : B -> Prop) l k :
  Forall2 R l k -> Forall P k -> Forall2 (fun a b => R a b /\ P b) l k.
Proof. induction 1; inversion 1; by constructor; auto. Qed.
