(* ===== verification/GoString.v ===== *)
(** * The parts of Go's [strings], [strconv], [encoding/hex] and [math/big]
    the signer uses, on byte strings.

    A Go string is a byte sequence: here Rocq's [string], one [ascii] per byte.
    Case mapping of text outside ASCII needs the Unicode tables of the Go
    runtime; they are the class [GoUnicode], consulted exactly where Go leaves
    its ASCII fast path. *)
From S2P Require Export Prelude.
From Stdlib Require Export Ascii.
From Stdlib Require String DecimalString DecimalZ.

Create Rewrite HintDb go_string.

(** ** Bytes *)

Definition byte_of (c : ascii) : Z := Z.of_N (N_of_ascii c).
Definition char_of (b : Z) : ascii := ascii_of_N (Z.to_N b).

Fixpoint bytes_of (s : string) : list Z :=
  match s with
  | EmptyString => []
  | String c s' => byte_of c :: bytes_of s'
  end.

Fixpoint string_of_bytes (l : list Z) : string :=
  match l with
  | [] => EmptyString
  | b :: l' => String (char_of b) (string_of_bytes l')
  end.

Definition len (s : string) : Z := Z.of_nat (String.length s).

(** [s[:n]] and [s[n:]] for an in-range [n]. *)
Definition take_str (n : nat) (s : string) : string :=
  string_of_bytes (take n (bytes_of s)).
Definition drop_str (n : nat) (s : string) : string :=
  string_of_bytes (drop n (bytes_of s)).

Fixpoint has_char (c : ascii) (s : string) : bool :=
  match s with
  | EmptyString => false
  | String d s' => Ascii.eqb c d || has_char c s'
  end.

(** ** Case *)

Definition is_ascii (s : string) : bool := forallb (fun b => b <? 128) (bytes_of s).

Definition upper_char (c : ascii) : ascii :=
  let b := byte_of c in
  if (97 <=? b) && (b <=? 122) then char_of (b - 32) else c.
Definition lower_char (c : ascii) : ascii :=
  let b := byte_of c in
  if (65 <=? b) && (b <=? 90) then char_of (b + 32) else c.

Fixpoint map_str (f : ascii -> ascii) (s : string) : string :=
  match s with
  | EmptyString => EmptyString
  | String c s' => String (f c) (map_str f s')
  end.

Class GoUnicode := {
  unicode_to_upper : string -> string;
  unicode_to_lower : string -> string;
  unicode_equal_fold : string -> string -> bool;
  (** [strconv.Quote], which escapes what Unicode calls unprintable. *)
  strconv_quote : string -> string;
}.

Section Case.
Context `{GoUnicode}.

Definition ToUpper (s : string) : string :=
  if is_ascii s then map_str upper_char s else unicode_to_upper s.
Definition ToLower (s : string) : string :=
  if is_ascii s then map_str lower_char s else unicode_to_lower s.
Definition EqualFold (s t : string) : bool :=
  if is_ascii s && is_ascii t
  then String.eqb (map_str lower_char s) (map_str lower_char t)
  else unicode_equal_fold s t.
End Case.

(** ** [strings.TrimSpace]

    White space is what [unicode.IsSpace] says: six ASCII bytes and the UTF-8
    encodings of U+0085, U+00A0, U+1680, U+2000..U+200A, U+2028, U+2029,
    U+202F, U+205F and U+3000. *)

Definition ascii_space (b : Z) : bool :=
  ((9 <=? b) && (b <=? 13)) || (b =? 32).

(** The last byte of a three-byte white space rune that starts E2 80. *)
Definition e280_space (c : Z) : bool :=
  ((128 <=? c) && (c <=? 138)) || (c =? 168) || (c =? 169) || (c =? 175).

Fixpoint trim_left (l : list Z) : list Z :=
  match l with
  | [] => []
  | b :: r =>
      if ascii_space b then trim_left r else
      match r with
      | c :: r1 =>
          if (b =? 194) && ((c =? 133) || (c =? 160)) then trim_left r1 else
          match r1 with
          | d :: r2 =>
              if ((b =? 225) && (c =? 154) && (d =? 128))
                 || ((b =? 226) && (c =? 128) && e280_space d)
                 || ((b =? 226) && (c =? 129) && (d =? 159))
                 || ((b =? 227) && (c =? 128) && (d =? 128))
              then trim_left r2 else l
          | [] => l
          end
      | [] => l
      end
  end.

(** The same on the reversed bytes: the rune's last byte comes first. *)
Fixpoint trim_right_rev (l : list Z) : list Z :=
  match l with
  | [] => []
  | d :: r =>
      if ascii_space d then trim_right_rev r else
      match r with
      | c :: r1 =>
          if (c =? 194) && ((d =? 133) || (d =? 160)) then trim_right_rev r1 else
          match r1 with
          | b :: r2 =>
              if ((b =? 225) && (c =? 154) && (d =? 128))
                 || ((b =? 226) && (c =? 128) && e280_space d)
                 || ((b =? 226) && (c =? 129) && (d =? 159))
                 || ((b =? 227) && (c =? 128) && (d =? 128))
              then trim_right_rev r2 else l
          | [] => l
          end
      | [] => l
      end
  end.

Definition TrimSpace (s : string) : string :=
  string_of_bytes (rev (trim_right_rev (rev (trim_left (bytes_of s))))).

(** ** Prefixes, splitting, searching *)

Fixpoint strip_prefix (p s : string) : option string :=
  match p, s with
  | EmptyString, _ => Some s
  | String a p', String b s' => if Ascii.eqb a b then strip_prefix p' s' else None
  | String _ _, EmptyString => None
  end.

Definition TrimPrefix (s p : string) : string := default s (strip_prefix p s).

(** [strings.Split] for a one-byte separator; never empty. *)
Fixpoint Split (sep : ascii) (s : string) : list string :=
  match s with
  | EmptyString => [EmptyString]
  | String c s' =>
      if Ascii.eqb c sep then EmptyString :: Split sep s' else
      match Split sep s' with
      | [] => [String c EmptyString]
      | x :: xs => String c x :: xs
      end
  end.

Fixpoint Contains (s sub : string) : bool :=
  bool_decide (is_Some (strip_prefix sub s)) ||
  match s with
  | EmptyString => false
  | String _ s' => Contains s' sub
  end.

(** ** Numbers *)

Definition is_digit (b : Z) : bool := (48 <=? b) && (b <=? 57).

(** A non-empty run of decimal digits. *)
Definition all_digits (l : list Z) : bool :=
  forallb is_digit l && negb (bool_decide (l = [])).

Definition digits_value (l : list Z) : Z :=
  fold_left (fun acc b => acc * 10 + (b - 48)) l 0.

(** An optional sign and the bytes after it. *)
Definition split_sign (l : list Z) : bool * list Z :=
  match l with
  | b :: r => if b =? 45 then (true, r) else if b =? 43 then (false, r) else (false, l)
  | [] => (false, l)
  end.

(** [new(big.Int).SetString(s, 10)]: a sign and decimal digits, nothing else. *)
Definition big_SetString (s : string) : option Z :=
  let (neg, r) := split_sign (bytes_of s) in
  if all_digits r then Some (if neg then - digits_value r else digits_value r)
  else None.

Inductive num_error := ErrSyntax | ErrRange.

(** [strconv.ParseInt(s, 10, 64)]: the value comes with the error, clamped to
    the range when the error is [ErrRange]. *)
Definition ParseInt64 (s : string) : Z * option num_error :=
  match big_SetString s with
  | None => (0, Some ErrSyntax)
  | Some z =>
      if max_i64 <? z then (max_i64, Some ErrRange)
      else if z <? min_i64 then (min_i64, Some ErrRange)
      else (z, None)
  end.

Definition num_error_text `{GoUnicode} (fn s : string) (e : num_error) : string :=
  "strconv." +:+ fn +:+ ": parsing " +:+ strconv_quote s +:+ ": " +:+
  match e with ErrSyntax => "invalid syntax" | ErrRange => "value out of range" end.

(** [strconv.ParseBool]; [None] is its error. *)
Definition ParseBool (s : string) : option bool :=
  if bool_decide (s ∈ ["1"; "t"; "T"; "TRUE"; "true"; "True"]%string) then Some true
  else if bool_decide (s ∈ ["0"; "f"; "F"; "FALSE"; "false"; "False"]%string)
  then Some false else None.

(** [%d] *)
Definition itoa (z : Z) : string := DecimalString.NilZero.string_of_int (Z.to_int z).

(** ** [big.Int.Bytes]: big-endian magnitude *)

(** The low [n] bytes of [z], most significant first. *)
Fixpoint be_bytes (n : nat) (z : Z) : list Z :=
  match n with
  | O => []
  | S n' => (be_bytes n' (z / 256) ++ [z mod 256])%list
  end.

Definition be_value (l : list Z) : Z := fold_left (fun acc b => acc * 256 + b) l 0.

(** How many bytes the magnitude of [z] takes. *)
Definition byte_count (z : Z) : nat :=
  if z =? 0 then O else Z.to_nat (Z.log2 (Z.abs z) / 8 + 1).

Definition big_Bytes (z : Z) : list Z := be_bytes (byte_count z) (Z.abs z).

(** ** [encoding/hex] *)

Definition hex_digit (n : Z) : Z := if n <? 10 then 48 + n else 87 + n.

Fixpoint hex_bytes (l : list Z) : list Z :=
  match l with
  | [] => []
  | b :: r => hex_digit (b / 16) :: hex_digit (b mod 16) :: hex_bytes r
  end.

Definition hex_EncodeToString (l : list Z) : string := string_of_bytes (hex_bytes l).

Definition hex_val (b : Z) : option Z :=
  if is_digit b then Some (b - 48)
  else if (97 <=? b) && (b <=? 102) then Some (b - 87)
  else if (65 <=? b) && (b <=? 70) then Some (b - 55)
  else None.

Fixpoint hex_decode_bytes (l : list Z) : option (list Z) :=
  match l with
  | [] => Some []
  | a :: b :: r =>
      x ← hex_val a; y ← hex_val b; rest ← hex_decode_bytes r;
      Some (x * 16 + y :: rest)
  | [_] => None
  end.

(** [hex.DecodeString]; [None] is its error. *)
Definition hex_DecodeString (s : string) : option (list Z) :=
  hex_decode_bytes (bytes_of s).

(** ** Lemmas *)

Lemma byte_of_range c : 0 <= byte_of c < 256.
Proof.
  unfold byte_of. pose proof (N_ascii_bounded c). lia.
Qed.

Lemma char_of_byte_of c : char_of (byte_of c) = c.
Proof. unfold char_of, byte_of. rewrite N2Z.id. apply ascii_N_embedding. Qed.

Lemma byte_of_char_of b : 0 <= b < 256 -> byte_of (char_of b) = b.
Proof.
  intros ?. unfold byte_of, char_of. rewrite N_ascii_embedding; lia.
Qed.

Lemma string_of_bytes_of s : string_of_bytes (bytes_of s) = s.
Proof. induction s as [|c s IH]; simpl; [done|]. by rewrite char_of_byte_of, IH. Qed.

Lemma bytes_of_string_of l :
  Forall (fun b => 0 <= b < 256) l -> bytes_of (string_of_bytes l) = l.
Proof. induction 1; simpl; [done|]. by rewrite byte_of_char_of, IHForall by done. Qed.

Lemma bytes_of_inj s t : bytes_of s = bytes_of t -> s = t.
Proof. intros E. by rewrite <- (string_of_bytes_of s), E, string_of_bytes_of. Qed.

Lemma string_nil_app t : EmptyString +:+ t = t.
Proof. reflexivity. Qed.

Lemma string_cons_app c s t : String c s +:+ t = String c (s +:+ t).
Proof. reflexivity. Qed.

#[export] Hint Rewrite string_nil_app string_cons_app : go_string.

(** Induction on a string, pushing [+:+] through the constructors. *)
Ltac string_ind s :=
  induction s as [|?c s ?IH]; intros;
  autorewrite with go_string in *; simpl in *; [try done|].

Lemma bytes_of_app s t : bytes_of (s +:+ t) = (bytes_of s ++ bytes_of t)%list.
Proof. string_ind s. by rewrite IH. Qed.

Lemma length_bytes_of s : length (bytes_of s) = String.length s.
Proof. string_ind s. congruence. Qed.

Lemma length_string_of_bytes l : String.length (string_of_bytes l) = length l.
Proof. induction l; simpl; congruence. Qed.

Lemma length_take_str n s : String.length (take_str n s) = Nat.min n (String.length s).
Proof.
  unfold take_str. by rewrite length_string_of_bytes, length_take, length_bytes_of.
Qed.

Lemma string_app_nil_r s : s +:+ "" = s.
Proof. string_ind s. by rewrite IH. Qed.

Lemma string_app_assoc (s t u : string) : s +:+ (t +:+ u) = (s +:+ t) +:+ u.
Proof. string_ind s. by rewrite IH. Qed.

Lemma string_app_inj_l (s t u : string) : s +:+ t = s +:+ u -> t = u.
Proof. string_ind s. simplify_eq. auto. Qed.

Lemma has_char_app c s t : has_char c (s +:+ t) = has_char c s || has_char c t.
Proof. string_ind s. by rewrite IH, orb_assoc. Qed.

(** Splitting at the first separator is unambiguous. *)
Lemma first_sep_inj c (a1 a2 b1 b2 : string) :
  has_char c a1 = false -> has_char c a2 = false ->
  a1 +:+ String c b1 = a2 +:+ String c b2 -> a1 = a2 /\ b1 = b2.
Proof.
  revert a2. induction a1 as [|x a1 IH]; intros [|y a2]; simpl;
    autorewrite with go_string; intros H1 H2 E; simplify_eq; unbool.
  - done.
  - by rewrite Ascii.eqb_refl in *.
  - by rewrite Ascii.eqb_refl in *.
  - destruct (IH a2) as [-> ->]; auto.
Qed.

(** And so is splitting off a suffix of known length. *)
Lemma suffix_length_inj (a1 a2 b1 b2 : string) :
  String.length b1 = String.length b2 ->
  a1 +:+ b1 = a2 +:+ b2 -> a1 = a2 /\ b1 = b2.
Proof.
  intros Hl E. apply (f_equal bytes_of) in E. rewrite !bytes_of_app in E.
  apply app_inj_2 in E as [E1 E2]; [|by rewrite !length_bytes_of].
  split; by apply bytes_of_inj.
Qed.

Lemma strip_prefix_app p s : strip_prefix p (p +:+ s) = Some s.
Proof. string_ind p. by rewrite Ascii.eqb_refl. Qed.

Lemma Split_no_sep c s : has_char c s = false -> Split c s = [s].
Proof.
  induction s as [|d s IH]; simpl; intros; [done|]. unbool.
  rewrite Ascii.eqb_sym, IH by done. by rewrite H.
Qed.

Lemma Split_app c s t :
  has_char c s = false -> Split c (s +:+ String c t) = s :: Split c t.
Proof.
  induction s as [|d s IH]; intros; autorewrite with go_string; simpl in *.
  - by rewrite Ascii.eqb_refl.
  - unbool. by rewrite Ascii.eqb_sym, IH, H by done.
Qed.

Lemma length_be_bytes n z : length (be_bytes n z) = n.
Proof.
  revert z. induction n as [|n IH]; intros z; simpl; [done|].
  rewrite length_app, IH. simpl. lia.
Qed.

Lemma be_bytes_range n z : Forall (fun b => 0 <= b < 256) (be_bytes n z).
Proof.
  revert z. induction n as [|n IH]; intros z; simpl; [constructor|].
  apply Forall_app. split; [done|]. repeat constructor; apply Z.mod_pos_bound; lia.
Qed.

Lemma be_value_app l b : be_value (l ++ [b])%list = be_value l * 256 + b.
Proof. unfold be_value. by rewrite fold_left_app. Qed.

(** [be_bytes] keeps the low [8 n] bits. *)
Lemma be_value_bytes n z : be_value (be_bytes n z) = z mod 2 ^ (8 * Z.of_nat n).
Proof.
  revert z. induction n as [|n IH]; intros z.
  - simpl. by rewrite Z.mod_1_r.
  - cbn [be_bytes]. rewrite be_value_app, IH.
    replace (8 * Z.of_nat (S n)) with (8 + 8 * Z.of_nat n) by lia.
    rewrite Z.pow_add_r, Z.rem_mul_r by lia. change (2 ^ 8) with 256. lia.
Qed.

(** Dropping the high bytes reduces the value. *)
Lemma be_value_drop n k z :
  (k <= n)%nat -> be_value (drop (n - k) (be_bytes n z)) = z mod 2 ^ (8 * Z.of_nat k).
Proof.
  revert n z. induction k as [|k IH]; intros n z Hk.
  - rewrite Nat.sub_0_r, drop_ge by (by rewrite length_be_bytes). simpl. by rewrite Z.mod_1_r.
  - destruct n as [|n]; [lia|]. cbn [be_bytes Nat.sub].
    rewrite drop_app_le by (rewrite length_be_bytes; lia).
    rewrite be_value_app, IH by lia.
    replace (8 * Z.of_nat (S k)) with (8 + 8 * Z.of_nat k) by lia.
    rewrite Z.pow_add_r, Z.rem_mul_r by lia. change (2 ^ 8) with 256. lia.
Qed.

Lemma byte_count_bound z : Z.abs z < 2 ^ (8 * Z.of_nat (byte_count z)).
Proof.
  unfold byte_count. destruct (Z.eqb_spec z 0) as [->|]; [simpl; lia|].
  pose proof (Z.log2_nonneg (Z.abs z)).
  assert (0 <= Z.log2 (Z.abs z) / 8) by (apply Z.div_pos; lia).
  rewrite Z2Nat.id by lia.
  destruct (Z.log2_spec (Z.abs z)) as [_ Hlt]; [lia|].
  eapply Z.lt_le_trans; [exact Hlt|]. apply Z.pow_le_mono_r; [lia|].
  pose proof (Z.mul_succ_div_gt (Z.log2 (Z.abs z)) 8). lia.
Qed.

Lemma be_value_big_Bytes z : be_value (big_Bytes z) = Z.abs z.
Proof.
  unfold big_Bytes. rewrite be_value_bytes. apply Z.mod_small.
  pose proof (byte_count_bound z). lia.
Qed.

Lemma byte_count_le z n :
  Z.abs z < 2 ^ (8 * Z.of_nat n) -> (byte_count z <= n)%nat.
Proof.
  intros Hz. unfold byte_count. destruct (Z.eqb_spec z 0); [lia|].
  assert (Z.log2 (Z.abs z) < 8 * Z.of_nat n) by (apply Z.log2_lt_pow2; lia).
  assert (Z.log2 (Z.abs z) / 8 < Z.of_nat n) by (apply Z.div_lt_upper_bound; lia).
  lia.
Qed.

(** Leading zero bytes of a small number. *)
Lemma be_bytes_pad k n z :
  0 <= z < 2 ^ (8 * Z.of_nat n) -> be_bytes (k + n) z = (replicate k 0 ++ be_bytes n z)%list.
Proof.
  revert z. induction n as [|n IH]; intros z Hz.
  - assert (z = 0) as -> by (simpl in Hz; lia). rewrite Nat.add_0_r. simpl.
    rewrite app_nil_r. clear. induction k as [|k IH]; simpl; [done|].
    rewrite Z.mod_0_l, Z.div_0_l, IH by lia. by rewrite <- replicate_cons_app.
  - rewrite Nat.add_succ_r. cbn [be_bytes]. rewrite IH, app_assoc; [done|].
    split; [apply Z.div_pos; lia|].
    apply Z.div_lt_upper_bound; [lia|].
    replace (8 * Z.of_nat (S n)) with (8 + 8 * Z.of_nat n) in Hz by lia.
    rewrite Z.pow_add_r in Hz by lia. lia.
Qed.

Lemma digits_value_snoc l b : digits_value (l ++ [b])%list = digits_value l * 10 + (b - 48).
Proof. unfold digits_value. by rewrite fold_left_app. Qed.

Lemma digits_value_app l1 l2 :
  digits_value (l1 ++ l2)%list =
  digits_value l1 * 10 ^ Z.of_nat (length l2) + digits_value l2.
Proof.
  induction l2 as [|b l2 IH] using rev_ind.
  - rewrite app_nil_r. change (digits_value []) with 0. simpl. lia.
  - rewrite app_assoc, !digits_value_snoc, IH, length_app. simpl.
    replace (Z.of_nat (length l2 + 1)) with (Z.of_nat (length l2) + 1) by lia.
    rewrite Z.pow_add_r by lia. lia.
Qed.

Lemma digits_value_bounds l :
  forallb is_digit l = true -> 0 <= digits_value l < 10 ^ Z.of_nat (length l).
Proof.
  induction l as [|b l IH] using rev_ind; [done|].
  rewrite forallb_app, digits_value_snoc, length_app. simpl. intros H. unbool.
  unfold is_digit in *. unbool. specialize (IH ltac:(done)).
  replace (Z.of_nat (length l + 1)) with (Z.of_nat (length l) + 1) by lia.
  rewrite Z.pow_add_r by lia. lia.
Qed.

Lemma digits_value_zeros n : digits_value (replicate n 48) = 0.
Proof.
  induction n as [|n IH]; [done|].
  rewrite replicate_S_end, digits_value_snoc, IH. done.
Qed.

Lemma split_sign_digit l : forallb is_digit l = true -> split_sign l = (false, l).
Proof.
  destruct l as [|b l]; [done|]. simpl. unfold is_digit. intros H. unbool.
  by rewrite (proj2 (Z.eqb_neq b 45)), (proj2 (Z.eqb_neq b 43)) by lia.
Qed.

Lemma big_SetString_digits s :
  all_digits (bytes_of s) = true -> big_SetString s = Some (digits_value (bytes_of s)).
Proof.
  intros H. unfold big_SetString. pose proof H as H'. unfold all_digits in H'. unbool.
  by rewrite split_sign_digit, H.
Qed.

(** ** [TrimSpace] leaves printable ASCII alone *)

Definition plain (b : Z) : Prop := 33 <= b < 127.

Lemma plain_not_space b : plain b -> ascii_space b = false.
Proof. unfold plain, ascii_space. intros. apply not_true_iff_false. intros ?.
  destruct (orb_prop _ _ H0); unbool; lia. Qed.

Lemma trim_left_plain b l : plain b -> trim_left (b :: l) = b :: l.
Proof.
  intros Hb. simpl. rewrite plain_not_space by done. unfold plain in Hb.
  assert ((b =? 194) = false /\ (b =? 225) = false /\ (b =? 226) = false /\ (b =? 227) = false)
    as (H1 & H2 & H3 & H4) by (rewrite !Z.eqb_neq; lia).
  rewrite H1, H2, H3, H4. simpl. by destruct l as [|? []].
Qed.

Lemma trim_right_rev_plain b l : plain b -> trim_right_rev (b :: l) = b :: l.
Proof.
  intros Hb. simpl. rewrite plain_not_space by done. unfold plain in Hb.
  assert ((b =? 133) = false /\ (b =? 160) = false /\ (b =? 128) = false /\ (b =? 159) = false)
    as (H1 & H2 & H3 & H4) by (rewrite !Z.eqb_neq; lia).
  assert (e280_space b = false) as H5.
  { unfold e280_space. apply not_true_iff_false. intros ?.
    repeat match goal with H : _ || _ = true |- _ => apply orb_prop in H as [H|H] end;
      unbool; lia. }
  rewrite H1, H2, H3, H4, H5. destruct l as [|c [|d l]]; [done|..];
    simpl; by rewrite !andb_false_r.
Qed.

Lemma TrimSpace_plain s : Forall plain (bytes_of s) -> TrimSpace s = s.
Proof.
  intros H. unfold TrimSpace.
  assert (trim_left (bytes_of s) = bytes_of s) as ->
    by (destruct H; [done | by apply trim_left_plain]).
  assert (trim_right_rev (rev (bytes_of s)) = rev (bytes_of s)) as ->.
  { apply List.Forall_rev in H. destruct H; [done | by apply trim_right_rev_plain]. }
  by rewrite rev_involutive, string_of_bytes_of.
Qed.

Lemma digits_plain l : forallb is_digit l = true -> Forall plain l.
Proof.
  induction l as [|b l IH]; simpl; [constructor|]. intros H. unbool.
  constructor; [|auto]. unfold is_digit, plain in *. unbool. lia.
Qed.

Lemma has_char_bytes c s : has_char c s = existsb (Z.eqb (byte_of c)) (bytes_of s).
Proof.
  induction s as [|d s IH]; simpl; [done|]. rewrite IH. f_equal.
  destruct (Ascii.eqb_spec c d) as [->|Hne]; [by rewrite Z.eqb_refl|].
  symmetry. apply Z.eqb_neq. intros E. apply Hne.
  by rewrite <- (char_of_byte_of c), E, char_of_byte_of.
Qed.

Lemma digits_no_char c s :
  is_digit (byte_of c) = false -> forallb is_digit (bytes_of s) = true ->
  has_char c s = false.
Proof.
  intros Hc. rewrite has_char_bytes. induction (bytes_of s) as [|b l IH]; simpl; [done|].
  intros H. unbool. rewrite IH by done. apply orb_false_iff. split; [|done].
  apply Z.eqb_neq. intros E. congruence.
Qed.

Lemma hex_digit_range n : 0 <= n < 16 -> 0 <= hex_digit n < 256.
Proof. unfold hex_digit. case_match; lia. Qed.

Lemma hex_val_digit n : 0 <= n < 16 -> hex_val (hex_digit n) = Some n.
Proof.
  intros ?.
  assert (Forall (fun n => hex_val (hex_digit n) = Some n) (seqZ 0 16)) as Hall
    by (vm_compute; repeat constructor).
  rewrite Forall_forall in Hall. apply Hall, elem_of_seqZ. lia.
Qed.

Lemma hex_bytes_range l :
  Forall (fun b => 0 <= b < 256) l -> Forall (fun b => 0 <= b < 256) (hex_bytes l).
Proof.
  induction 1 as [|b l Hb _ IH]; simpl; [constructor|].
  assert (0 <= b / 16 < 16) by (split; [apply Z.div_pos | apply Z.div_lt_upper_bound]; lia).
  pose proof (Z.mod_pos_bound b 16).
  repeat constructor; try apply hex_digit_range; auto; lia.
Qed.

(** [hex.DecodeString] undoes [hex.EncodeToString]. *)
Lemma hex_roundtrip l :
  Forall (fun b => 0 <= b < 256) l ->
  hex_DecodeString (hex_EncodeToString l) = Some l.
Proof.
  intros Hl. unfold hex_DecodeString, hex_EncodeToString.
  rewrite bytes_of_string_of by by apply hex_bytes_range.
  induction Hl as [|b l Hb _ IH]; simpl; [done|].
  assert (0 <= b / 16 < 16) by (split; [apply Z.div_pos | apply Z.div_lt_upper_bound]; lia).
  pose proof (Z.mod_pos_bound b 16).
  rewrite !hex_val_digit by lia. simpl. rewrite IH. simpl.
  f_equal. f_equal. pose proof (Z.div_mod b 16). lia.
Qed.

Lemma length_hex_encode l : String.length (hex_EncodeToString l) = (2 * length l)%nat.
Proof.
  unfold hex_EncodeToString. induction l as [|b l IH]; simpl; [done|].
  unfold hex_EncodeToString in IH. rewrite IH. lia.
Qed.

#[export] Hint Rewrite string_app_nil_r bytes_of_app : go_string.

(** ** Case mapping and search *)

Lemma map_str_app f s t : map_str f (s +:+ t) = map_str f s +:+ map_str f t.
Proof. string_ind s. by rewrite IH, string_cons_app. Qed.

Lemma is_ascii_app s t : is_ascii (s +:+ t) = is_ascii s && is_ascii t.
Proof. unfold is_ascii. by rewrite bytes_of_app, forallb_app. Qed.

Lemma ToLower_ascii `{GoUnicode} s : is_ascii s = true -> ToLower s = map_str lower_char s.
Proof. unfold ToLower. by intros ->. Qed.

Lemma Contains_app a sub b : Contains (a +:+ (sub +:+ b)) sub = true.
Proof.
  induction a as [|c a IH].
  - rewrite string_nil_app. pose proof (strip_prefix_app sub b) as Hp.
    destruct (sub +:+ b); cbn; by rewrite Hp.
  - rewrite string_cons_app. cbn. by rewrite IH, orb_true_r.
Qed.

(** ** [%d] and [ParseInt] *)

Lemma digits_value_uint_acc d : forall acc,
  fold_left (fun a b => a * 10 + (b - 48)) (bytes_of (DecimalString.NilEmpty.string_of_uint d))
    (Zpos acc) = Zpos (Pos.of_uint_acc d acc).
Proof.
  induction d as [|d IH|d IH|d IH|d IH|d IH|d IH|d IH|d IH|d IH|d IH]; intros acc; [done|..];
    cbn [DecimalString.NilEmpty.string_of_uint bytes_of fold_left Pos.of_uint_acc];
    rewrite <- IH; f_equal; unfold byte_of; cbn -[Z.mul Z.add Z.sub Pos.mul Pos.add]; lia.
Qed.

Lemma digits_value_uint d :
  digits_value (bytes_of (DecimalString.NilEmpty.string_of_uint d)) = Z.of_uint d.
Proof.
  unfold digits_value, Z.of_uint. induction d; [done|assumption|..];
    cbn [DecimalString.NilEmpty.string_of_uint bytes_of fold_left Pos.of_uint Z.of_N];
    exact (digits_value_uint_acc _ _).
Qed.

Lemma string_of_uint_digits d :
  forallb is_digit (bytes_of (DecimalString.NilEmpty.string_of_uint d)) = true.
Proof. by induction d. Qed.

Lemma string_of_uint_all_digits d :
  all_digits (bytes_of (DecimalString.NilZero.string_of_uint d)) = true /\
  digits_value (bytes_of (DecimalString.NilZero.string_of_uint d)) = Z.of_uint d.
Proof.
  split.
  - unfold all_digits. pose proof (string_of_uint_digits d) as Hd.
    destruct d; [reflexivity|..]; apply andb_true_intro; (split; [exact Hd|reflexivity]).
  - pose proof (digits_value_uint d). by destruct d.
Qed.

Lemma big_SetString_itoa z : big_SetString (itoa z) = Some z.
Proof.
  unfold itoa. rewrite <- (DecimalZ.of_to z) at 2.
  destruct (Z.to_int z) as [d|d]; cbn [DecimalString.NilZero.string_of_int Z.of_int].
  all: destruct (string_of_uint_all_digits d) as [Hd Hv].
  - by rewrite big_SetString_digits, Hv.
  - unfold big_SetString. change (bytes_of (String "-" ?s)) with (45 :: bytes_of s).
    cbn [bytes_of]. change (byte_of "-") with 45. cbn. by rewrite Hd, Hv.
Qed.

Lemma ParseInt64_itoa z : min_i64 <= z <= max_i64 -> ParseInt64 (itoa z) = (z, None).
Proof.
  intros Hz. unfold ParseInt64. rewrite big_SetString_itoa.
  destruct (Z.ltb_spec max_i64 z), (Z.ltb_spec z min_i64); lia || done.
Qed.

(** A number has no dot in it. *)
Lemma big_SetString_no_dot s z : big_SetString s = Some z -> has_char "." s = false.
Proof.
  unfold big_SetString, all_digits. rewrite has_char_bytes. change (byte_of ".") with 46.
  assert (forall l, forallb is_digit l = true -> existsb (Z.eqb 46) l = false) as Hdig.
  { induction l as [|b l IH]; cbn [existsb forallb]; [done|]. intros Hb. unbool.
    rewrite IH by done. unfold is_digit in *. unbool.
    by rewrite (proj2 (Z.eqb_neq 46 b)) by lia. }
  destruct (bytes_of s) as [|b l]; [done|]. cbn [split_sign].
  destruct (Z.eqb_spec b 45) as [->|]; [|destruct (Z.eqb_spec b 43) as [->|]];
    case_match eqn:Hd; try done; intros _; unbool.
  - change (existsb (Z.eqb 46) l = false). auto.
  - change (existsb (Z.eqb 46) l = false). auto.
  - auto.
Qed.

Lemma ParseInt64_no_dot s z : ParseInt64 s = (z, None) -> has_char "." s = false.
Proof.
  unfold ParseInt64. destruct (big_SetString s) eqn:Hs; [|done]. intros _.
  by eapply big_SetString_no_dot.
Qed.
