(* ===== verification/GoFloat.v ===== *)
(** * Go's [float64], bit for bit.

    A [float64] is IEEE binary64: the executable specification of
    [Floats.SpecFloat] at 53 bits of precision and exponent bound 1024, which
    has signed zeros, infinities and NaN. [ParseFloat] is the grammar of
    [strconv] followed by one correct rounding. *)
From S2P Require Export GoString.
From Stdlib Require Export SpecFloat.

Abbreviation f64 := spec_float.

Definition fadd : f64 -> f64 -> f64 := SFadd 53 1024.
Definition fsub : f64 -> f64 -> f64 := SFsub 53 1024.
Definition fmul : f64 -> f64 -> f64 := SFmul 53 1024.
Definition fdiv : f64 -> f64 -> f64 := SFdiv 53 1024.

(** [x < y] and [x <= y]; both are false on NaN. [x > y] is [fltb y x]. *)
Definition fltb (x y : f64) : bool := SFltb x y.
Definition fleb (x y : f64) : bool := SFleb x y.

Definition fzero : f64 := S754_zero false.
Definition is_nan (x : f64) : bool :=
  match x with S754_nan => true | _ => false end.

(** [float64(z)]: the integer rounded once. *)
Definition f_of_Z (z : Z) : f64 := binary_normalize 53 1024 z 0 false.

(** The float nearest to [n/d]. *)
Definition f_of_ratio (neg : bool) (n d : positive) : f64 :=
  let '(q, e, l) := SFdiv_core_binary 53 1024 (Zpos n) 0 (Zpos d) 0 in
  binary_round_aux 53 1024 neg q e l.

(** Truncation to [int64] as amd64's CVTTSD2SQ does it: NaN and values out of
    range give the smallest integer. *)
Definition f_to_i64 (x : f64) : Z :=
  match x with
  | S754_zero _ => 0
  | S754_finite s m e =>
      let t := if 0 <=? e then Zpos m * 2 ^ e else Zpos m / 2 ^ (- e) in
      let z := if s then - t else t in
      if (min_i64 <=? z) && (z <=? max_i64) then z else min_i64
  | _ => min_i64
  end.

(** ** [strconv.ParseFloat(s, 64)] *)

Record mantissa := {
  mant_value : Z;     (** the digits, the point left out *)
  mant_frac : Z;      (** how many of them follow the point *)
  mant_digits : bool; (** at least one digit was read *)
  mant_rest : list Z;
}.

Definition base_digit (hex : bool) (b : Z) : option Z :=
  if is_digit b then Some (b - 48)
  else if hex then hex_val b else None.

(** The digit loop of [readFloat]: digits, underscores and one point. *)
Fixpoint scan_mantissa (hex sawdot sawdigits : bool) (v frac : Z) (l : list Z) : mantissa :=
  let stop := {| mant_value := v; mant_frac := frac;
                 mant_digits := sawdigits; mant_rest := l |} in
  match l with
  | [] => stop
  | b :: r =>
      if b =? 95 then scan_mantissa hex sawdot sawdigits v frac r
      else if b =? 46 then
        if sawdot then stop else scan_mantissa hex true sawdigits v frac r
      else
        match base_digit hex b with
        | Some d =>
            scan_mantissa hex sawdot true (v * (if hex then 16 else 10) + d)
              (if sawdot then frac + 1 else frac) r
        | None => stop
        end
  end.

(** The exponent's digits and underscores; [e < 10000] caps the accumulation. *)
Fixpoint scan_exponent (e : Z) (l : list Z) : Z * list Z :=
  match l with
  | b :: r =>
      if b =? 95 then scan_exponent e r
      else if is_digit b
      then scan_exponent (if e <? 10000 then e * 10 + (b - 48) else e) r
      else (e, l)
  | [] => (e, l)
  end.

Definition lower_byte (b : Z) : Z := Z.lor b 32.

(** [underscoreOK]: an underscore stands between digits, or after the base
    prefix. [saw] is the class of the last byte: [0] a digit, [1] an
    underscore, [2] anything else. *)
Fixpoint underscore_scan (hex : bool) (saw : Z) (l : list Z) : bool :=
  match l with
  | [] => negb (saw =? 1)
  | b :: r =>
      if bool_decide (is_Some (base_digit hex b)) then underscore_scan hex 0 r
      else if b =? 95 then (saw =? 0) && underscore_scan hex 1 r
      else negb (saw =? 1) && underscore_scan hex 2 r
  end.

Definition underscoreOK (l : list Z) : bool :=
  let (_, l) := split_sign l in
  match l with
  | 48 :: c :: r =>
      if bool_decide (lower_byte c ∈ [98; 111; 120])
      then underscore_scan (lower_byte c =? 120) 0 r
      else underscore_scan false 2 l
  | _ => underscore_scan false 2 l
  end.

Definition has_underscore (l : list Z) : bool := existsb (Z.eqb 95) l.

(** The whole number: sign, optional [0x], mantissa, exponent, and nothing
    after it. The value is [mantissa * base ^ exponent], [base] 10 or 2. *)
Definition read_float (l : list Z) : option (bool * bool * Z * Z) :=
  let (neg, r) := split_sign l in
  let '(hex, r) :=
    match r with
    | 48 :: x :: d :: r' => if lower_byte x =? 120 then (true, d :: r') else (false, r)
    | _ => (false, r)
    end in
  let m := scan_mantissa hex false false 0 0 r in
  if negb (mant_digits m) then None else
  let frac := if hex then 4 * mant_frac m else mant_frac m in
  let finish (e : Z) :=
    if has_underscore l && negb (underscoreOK l) then None
    else Some (neg, hex, mant_value m, e - frac) in
  match mant_rest m with
  | [] => if hex then None else finish 0
  | b :: r' =>
      if lower_byte b =? (if hex then 112 else 101) then
        let (eneg, r'') := split_sign r' in
        match r'' with
        | d :: _ =>
            if is_digit d then
              let (e, rest) := scan_exponent 0 r'' in
              if bool_decide (rest = []) then finish (if eneg then - e else e) else None
            else None
        | [] => None
        end
      else None
  end.

Definition round_float (neg hex : bool) (m e : Z) : f64 :=
  let base := if hex then 2 else 10 in
  match m with
  | Zpos p =>
      if 0 <=? e
      then binary_normalize 53 1024 ((if neg then -1 else 1) * Zpos p * base ^ e) 0 neg
      else f_of_ratio neg p (Z.to_pos (base ^ (- e)))
  | _ => S754_zero neg
  end.

Definition lower_ascii (s : string) : string := map_str lower_char s.

(** [None] is any error: bad syntax, or a magnitude that rounds to infinity. *)
Definition ParseFloat (s : string) : option f64 :=
  let low := lower_ascii s in
  if bool_decide (low ∈ ["inf"; "+inf"; "infinity"; "+infinity"]%string)
  then Some (S754_infinity false)
  else if bool_decide (low ∈ ["-inf"; "-infinity"]%string)
  then Some (S754_infinity true)
  else if String.eqb low "nan" then Some S754_nan
  else
    '(neg, hex, m, e) ← read_float (bytes_of s);
    match round_float neg hex m e with
    | S754_infinity _ => None
    | x => Some x
    end.

(** ** [fmt]'s [%.8f] *)

Definition round_half_even (n d : Z) : Z :=
  let q := n / d in
  match (2 * (n mod d)) ?= d with
  | Lt => q
  | Gt => q + 1
  | Eq => if Z.even q then q else q + 1
  end.

Fixpoint zeros (n : nat) : string :=
  match n with O => EmptyString | S n' => String "0" (zeros n') end.

Definition pad_left (width : nat) (s : string) : string :=
  zeros (width - String.length s) +:+ s.

Definition fmt_f8 (x : f64) : string :=
  let fixed (s : bool) (scaled : Z) :=
    (if s then "-"%string else ""%string) +:+ itoa (scaled / 10 ^ 8) +:+ "." +:+
    pad_left 8 (itoa (scaled mod 10 ^ 8)) in
  match x with
  | S754_nan => "NaN"
  | S754_infinity s => if s then "-Inf" else "+Inf"
  | S754_zero s => fixed s 0
  | S754_finite s m e =>
      fixed s (if 0 <=? e then Zpos m * 2 ^ e * 10 ^ 8
               else round_half_even (Zpos m * 10 ^ 8) (2 ^ (- e)))
  end.

(** ** Checks against [strconv]'s documented behaviour *)

Example parse_float_tests :
  ParseFloat "1" = Some (f_of_Z 1) /\
  ParseFloat "1e3" = Some (f_of_Z 1000) /\
  ParseFloat "0.1" = Some (S754_finite false 7205759403792794 (-56)) /\
  ParseFloat "-2.5" = Some (fdiv (f_of_Z (-5)) (f_of_Z 2)) /\
  ParseFloat "1_23.50_0_0e+1_2" = Some (f_of_Z (1235 * 10 ^ 11)) /\
  ParseFloat "0x_1_2.3_4_5p+1_2" = Some (f_of_Z 74565) /\
  ParseFloat "0x1p-2" = Some (fdiv (f_of_Z 1) (f_of_Z 4)) /\
  ParseFloat "iNf" = Some (S754_infinity false) /\
  ParseFloat "NaN" = Some S754_nan /\
  ParseFloat ".5e1" = Some (f_of_Z 5) /\
  ParseFloat "5." = Some (f_of_Z 5) /\
  ParseFloat "1__2" = None /\ ParseFloat "_1" = None /\ ParseFloat "0x10" = None /\
  ParseFloat "" = None /\ ParseFloat "." = None /\ ParseFloat "1e" = None /\
  ParseFloat "1 " = None /\ ParseFloat "+nan" = None /\ ParseFloat "1e400" = None /\
  ParseFloat "4.9e-324" = Some (S754_finite false 1 (-1074)) /\
  ParseFloat "1e-400" = Some (S754_zero false).
Proof. vm_compute. repeat split. Qed.

Example fmt_f8_tests :
  fmt_f8 (f_of_Z 10000) = "10000.00000000"%string /\
  option_map fmt_f8 (ParseFloat "10.01") = Some "10.01000000"%string /\
  option_map fmt_f8 (ParseFloat "-0.000000005") = Some "-0.00000001"%string.
Proof. vm_compute. repeat split. Qed.

(** ** Order

    Away from NaN, [SFcompare] is the lexicographic order of a key, so [fltb]
    is a strict weak order there. *)

Definition f_key (x : f64) : Z * Z * Z :=
  match x with
  | S754_nan => (0, 0, 0)
  | S754_zero _ => (0, 0, 0)
  | S754_infinity s => (if s then -2 else 2, 0, 0)
  | S754_finite true m e => (-1, - e, - Zpos m)
  | S754_finite false m e => (1, e, Zpos m)
  end.

Definition key_lt (a b : Z * Z * Z) : Prop :=
  a.1.1 < b.1.1 \/ a.1.1 = b.1.1 /\ (a.1.2 < b.1.2 \/ a.1.2 = b.1.2 /\ a.2 < b.2).

Lemma fltb_key x y :
  is_nan x = false -> is_nan y = false -> fltb x y = true <-> key_lt (f_key x) (f_key y).
Proof.
  unfold fltb, SFltb, SFcompare, key_lt.
  destruct x as [[]|[]| |[] m e], y as [[]|[]| |[] m' e']; simpl; intros ??;
    try done; try (split; [done|lia]); try (split; [lia|done]).
  - change (Pos.compare_cont Eq m m') with (m ?= m')%positive.
    destruct (Z.compare_spec e e'), (Pos.compare_spec m m'); simpl; split; try done; try lia.
  - change (Pos.compare_cont Eq m m') with (m ?= m')%positive.
    destruct (Z.compare_spec e e'), (Pos.compare_spec m m'); simpl; split; try done; try lia.
Qed.

Lemma fleb_key x y :
  is_nan x = false -> is_nan y = false -> fleb x y = true <-> ~ key_lt (f_key y) (f_key x).
Proof.
  unfold fleb, SFleb, SFcompare, key_lt.
  destruct x as [[]|[]| |[] m e], y as [[]|[]| |[] m' e']; simpl; intros ??;
    try done; try (split; [done|lia]); try (split; [lia|done]).
  - change (Pos.compare_cont Eq m m') with (m ?= m')%positive.
    destruct (Z.compare_spec e e'), (Pos.compare_spec m m'); simpl; split; try done; try lia.
  - change (Pos.compare_cont Eq m m') with (m ?= m')%positive.
    destruct (Z.compare_spec e e'), (Pos.compare_spec m m'); simpl; split; try done; try lia.
Qed.

Lemma fltb_nan_l x : fltb S754_nan x = false.
Proof. by destruct x. Qed.
Lemma fltb_nan_r x : fltb x S754_nan = false.
Proof. by destruct x. Qed.
Lemma fleb_nan_l x : fleb S754_nan x = false.
Proof. by destruct x. Qed.
Lemma fadd_nan_l x : fadd S754_nan x = S754_nan.
Proof. by destruct x. Qed.
Lemma fadd_nan_r x : fadd x S754_nan = S754_nan.
Proof. by destruct x. Qed.

Create Rewrite HintDb go_float.
#[export] Hint Rewrite fltb_nan_l fltb_nan_r fleb_nan_l fadd_nan_l fadd_nan_r : go_float.

Lemma fltb_not_fleb x y :
  is_nan x = false -> is_nan y = false -> fleb y x = negb (fltb x y).
Proof.
  intros Hx Hy. apply eq_true_iff_eq. rewrite negb_true_iff, fleb_key by done.
  rewrite <- fltb_key by done. by rewrite not_true_iff_false.
Qed.

Lemma fltb_irrefl x : fltb x x = false.
Proof.
  destruct (is_nan x) eqn:Hx; [by destruct x|].
  apply not_true_iff_false. rewrite fltb_key by done. unfold key_lt. lia.
Qed.

Lemma fleb_trans x y z : fleb x y = true -> fleb y z = true -> fleb x z = true.
Proof.
  intros H1 H2.
  assert (is_nan x = false) by (by destruct x).
  assert (is_nan y = false) by (by destruct x as [| | |[]], y as [| | |[]]).
  assert (is_nan z = false) by (by destruct y as [| | |[]], z as [| | |[]]).
  apply fleb_key in H1, H2; try done. apply fleb_key; [done..|].
  unfold key_lt in *. lia.
Qed.

(** A strict comparison that holds is between numbers. *)
Lemma fltb_not_nan x y : fltb x y = true -> is_nan x = false /\ is_nan y = false.
Proof. destruct x, y; try done; by destruct s. Qed.

Lemma fltb_trans x y z : fltb x y = true -> fltb y z = true -> fltb x z = true.
Proof.
  intros H1 H2. destruct (fltb_not_nan _ _ H1) as [? ?], (fltb_not_nan _ _ H2) as [_ ?].
  apply fltb_key in H1, H2; try done. apply fltb_key; [done..|].
  unfold key_lt in *. lia.
Qed.

Lemma fltb_asym x y : fltb x y = true -> fltb y x = false.
Proof.
  intros H1. apply not_true_iff_false. intros H2.
  pose proof (fltb_trans _ _ _ H1 H2) as H3. by rewrite fltb_irrefl in H3.
Qed.

(** ** Sums of non-negative floats are never NaN *)

Definition f_nonneg (x : f64) : bool :=
  match x with
  | S754_nan => false
  | S754_zero _ => true
  | S754_infinity s | S754_finite s _ _ => negb s
  end.

Lemma f_nonneg_not_nan x : f_nonneg x = true -> is_nan x = false.
Proof. by destruct x. Qed.

Lemma shr_1_nonneg r : 0 <= shr_m r -> 0 <= shr_m (shr_1 r).
Proof. destruct r as [[|[]|[]] ??]; simpl; lia. Qed.

Lemma iter_shr_1_nonneg p : forall r, 0 <= shr_m r -> 0 <= shr_m (iter_pos shr_1 p r).
Proof. induction p; simpl; auto using shr_1_nonneg. Qed.

Lemma shr_fexp_nonneg m e l :
  0 <= m -> 0 <= shr_m (shr_fexp 53 1024 m e l).1.
Proof.
  intros ?. unfold shr_fexp, shr.
  assert (0 <= shr_m (shr_record_of_loc m l)) by (by destruct l as [|[]]).
  case_match; simpl; auto using iter_shr_1_nonneg.
Qed.

Lemma round_nearest_even_nonneg m l : 0 <= m -> 0 <= round_nearest_even m l.
Proof. unfold round_nearest_even. intros. repeat case_match; lia. Qed.

Lemma binary_round_aux_nonneg m e l :
  0 <= m -> f_nonneg (binary_round_aux 53 1024 false m e l) = true.
Proof.
  intros Hm. unfold binary_round_aux.
  pose proof (shr_fexp_nonneg m e l Hm) as H1.
  destruct (shr_fexp 53 1024 m e l) as [r1 e1]; simpl in *.
  pose proof (shr_fexp_nonneg _ e1 loc_Exact
    (round_nearest_even_nonneg (shr_m r1) (loc_of_shr_record r1) H1)) as H2.
  destruct (shr_fexp _ _ _ e1 loc_Exact) as [r2 e2]; simpl in *.
  case_match; [done| |lia]. by case_match.
Qed.

Lemma binary_normalize_nonneg m e :
  0 <= m -> f_nonneg (binary_normalize 53 1024 m e false) = true.
Proof.
  intros ?. destruct m; simpl; [done| |lia].
  unfold binary_round. destruct (shl_align _ _ _). by apply binary_round_aux_nonneg.
Qed.

Lemma f_of_Z_nonneg z : 0 <= z -> f_nonneg (f_of_Z z) = true.
Proof. apply binary_normalize_nonneg. Qed.

Lemma fadd_nonneg x y :
  f_nonneg x = true -> f_nonneg y = true -> f_nonneg (fadd x y) = true.
Proof.
  destruct x as [[]|[]| |[] m e], y as [[]|[]| |[] m' e']; simpl; try done.
  intros _ _. unfold fadd, SFadd, cond_Zopp.
  by apply (binary_normalize_nonneg (Zpos _)).
Qed.

Lemma fmul_nonneg x y :
  f_nonneg x = true -> f_nonneg y = true -> is_nan (fmul x y) = false ->
  f_nonneg (fmul x y) = true.
Proof.
  destruct x as [[]|[]| |[] m e], y as [[]|[]| |[] m' e']; simpl; try done.
  intros _ _ _. unfold fmul, SFmul. apply binary_round_aux_nonneg. lia.
Qed.

Create HintDb go_float_resolve.
#[export] Hint Resolve f_nonneg_not_nan f_of_Z_nonneg fadd_nonneg : go_float_resolve.
