(* ===== verification/FloatValue.v ===== *)
(** * The value of a float, and how far an operation rounds.

    [GoFloat] computes Go's floats bit for bit; this file relates them to the
    rational numbers they stand for. On finite floats that are not negative,
    comparison is comparison of values, and a sum, difference, product or quotient
    is off by at most [ulp1] of itself, the last place of 1 (and by [tiny] where it
    may underflow). *)
From S2P Require Export GoFloat.
From Stdlib Require Export QArith Qpower Qabs Lqa.

#[global] Open Scope Z_scope.

(** ** Powers of two *)

Definition pow2 (e : Z) : Q := Qpower 2 e.

Lemma pow2_pos e : (0 < pow2 e)%Q.
Proof. by apply Qpower_0_lt. Qed.

Lemma pow2_plus a b : (pow2 (a + b) == pow2 a * pow2 b)%Q.
Proof. by apply Qpower_plus. Qed.

Lemma pow2_Z n : 0 <= n -> (pow2 n == inject_Z (2 ^ n))%Q.
Proof. intros Hn. unfold pow2. by rewrite Zpower_Qpower. Qed.

Lemma pow2_mono a b : a <= b -> (pow2 a <= pow2 b)%Q.
Proof.
  intros Hab. replace b with (a + (b - a)) by lia. rewrite pow2_plus, (pow2_Z (b - a)) by lia.
  assert (inject_Z 1 <= inject_Z (2 ^ (b - a)))%Q as H1 by (rewrite <- Zle_Qle; lia).
  change (inject_Z 1) with 1%Q in H1. pose proof (pow2_pos a). nra.
Qed.

Lemma pow2_lt_inv a b : (pow2 a < pow2 b)%Q -> a < b.
Proof.
  intros Hlt. destruct (Z_lt_le_dec a b) as [|Hle]; [done|].
  apply pow2_mono in Hle. lra.
Qed.

(** A mantissa scaled: [m * 2 ^ e]. *)
Definition scaled (m e : Z) : Q := (inject_Z m * pow2 e)%Q.

Lemma scaled_le m m' e : m <= m' -> (scaled m e <= scaled m' e)%Q.
Proof.
  intros Hm. unfold scaled. rewrite Zle_Qle in Hm. pose proof (pow2_pos e). nra.
Qed.

Lemma scaled_lt m m' e : m < m' -> (scaled m e < scaled m' e)%Q.
Proof.
  intros Hm. unfold scaled. rewrite Zlt_Qlt in Hm. pose proof (pow2_pos e). nra.
Qed.

Lemma scaled_shift m e n : 0 <= n -> (scaled (m * 2 ^ n) e == scaled m (e + n))%Q.
Proof.
  intros Hn. unfold scaled. rewrite inject_Z_mult, pow2_plus, (pow2_Z n) by done. ring.
Qed.

Lemma scaled_plus m m' e : (scaled (m + m') e == scaled m e + scaled m' e)%Q.
Proof. unfold scaled. rewrite inject_Z_plus. ring. Qed.

Lemma scaled_mult m m' e e' : (scaled m e * scaled m' e' == scaled (m * m') (e + e'))%Q.
Proof. unfold scaled. rewrite inject_Z_mult, pow2_plus. ring. Qed.

Lemma scaled_nonneg m e : 0 <= m -> (0 <= scaled m e)%Q.
Proof.
  intros Hm. unfold scaled. rewrite Zle_Qle in Hm. change (inject_Z 0) with 0%Q in Hm.
  pose proof (pow2_pos e). nra.
Qed.

Lemma scaled_pow n e : 0 <= n -> (scaled (2 ^ n) e == pow2 (n + e))%Q.
Proof. intros Hn. unfold scaled. by rewrite <- pow2_Z, pow2_plus. Qed.

(** ** Digits *)

Lemma digits2_log2 p : Zpos (digits2_pos p) = Z.log2 (Zpos p) + 1.
Proof.
  induction p as [p IH|p IH|]; [| |done]; cbn [digits2_pos]; rewrite Pos2Z.inj_succ, IH.
  - rewrite Pos2Z.inj_xI, Z.log2_succ_double; lia.
  - rewrite Pos2Z.inj_xO, Z.log2_double; lia.
Qed.

Lemma Zdigits2_log2 m : 0 < m -> Zdigits2 m = Z.log2 m + 1.
Proof. destruct m; [lia| |lia]. intros _. apply digits2_log2. Qed.

Lemma scaled_top m e : 0 < m -> (pow2 (Z.log2 m + e) <= scaled m e)%Q.
Proof.
  intros Hm. rewrite <- scaled_pow by apply Z.log2_nonneg. apply scaled_le.
  by apply Z.log2_spec.
Qed.

Lemma scaled_below m e n : 0 < m -> (scaled m e < pow2 n)%Q -> Z.log2 m + e < n.
Proof. intros Hm Hlt. apply pow2_lt_inv. pose proof (scaled_top m e Hm). lra. Qed.

(** ** The value of a float *)

Definition fval (x : f64) : Q :=
  match x with
  | S754_finite s m e => scaled (if s then Zneg m else Zpos m) e
  | _ => 0
  end.

(** Finite, canonical and not negative. *)
Definition f_real (x : f64) : bool :=
  valid_binary 53 1024 x &&
  match x with
  | S754_zero _ => true
  | S754_finite s _ _ => negb s
  | _ => false
  end.

Definition ulp1 : Q := pow2 (-52).
Definition tiny : Q := pow2 (-1074).

Lemma ulp1_eq : (ulp1 == 1 # 4503599627370496)%Q.
Proof. reflexivity. Qed.

Lemma tiny_pos : (0 < tiny)%Q.
Proof. apply pow2_pos. Qed.

Lemma fval_nonneg x : f_real x = true -> (0 <= fval x)%Q.
Proof.
  destruct x as [s|s| |s m e]; try (intros; cbn; lra).
  unfold f_real. intros [_ Hs]%andb_true_iff. apply negb_true_iff in Hs as ->. cbn [fval].
  apply scaled_nonneg. lia.
Qed.

Abbreviation fexp64 := (SpecFloat.fexp 53 1024).

Lemma fexp64_eq e : fexp64 e = Z.max (e - 53) (-1074).
Proof. reflexivity. Qed.

Lemma f_real_finite m e :
  fexp64 (Z.log2 (Zpos m) + 1 + e) = e -> e <= 971 -> f_real (S754_finite false m e) = true.
Proof.
  intros Hc He. unfold f_real, valid_binary, bounded, canonical_mantissa.
  rewrite digits2_log2, Hc, Z.eqb_refl, (proj2 (Z.leb_le _ _)) by (simpl; lia). done.
Qed.

Lemma f_real_inv m e :
  f_real (S754_finite false m e) = true -> fexp64 (Z.log2 (Zpos m) + 1 + e) = e /\ e <= 971.
Proof.
  unfold f_real, valid_binary, bounded, canonical_mantissa.
  rewrite digits2_log2, !andb_true_iff, Z.eqb_eq, Z.leb_le. simpl. tauto.
Qed.

(** ** Rounding *)

Lemma shr_1_div r : 0 <= shr_m r -> shr_m (shr_1 r) = shr_m r / 2.
Proof.
  destruct r as [[|[p|p|]|p] rr rs]; simpl; intros Hm; try done; try lia.
  - apply (Z.div_unique_pos _ _ _ 1); lia.
  - apply (Z.div_unique_pos _ _ _ 0); lia.
Qed.

Lemma iter_shr_1_div p r : 0 <= shr_m r -> shr_m (SpecFloat.iter_pos shr_1 p r) = shr_m r / 2 ^ Zpos p.
Proof.
  revert r. induction p as [p IH|p IH|]; intros r Hr; cbn [SpecFloat.iter_pos].
  - pose proof (shr_1_nonneg r Hr). pose proof (iter_shr_1_nonneg p _ H).
    rewrite !IH, shr_1_div, !Z.div_div by (done || lia). f_equal.
    replace (Zpos p~1) with (1 + (Zpos p + Zpos p)) by lia.
    rewrite !Z.pow_add_r by lia. ring.
  - pose proof (iter_shr_1_nonneg p _ Hr). rewrite !IH, !Z.div_div by (done || lia). f_equal.
    replace (Zpos p~0) with (Zpos p + Zpos p) by lia.
    by rewrite Z.pow_add_r.
  - by rewrite shr_1_div.
Qed.

(** What is left of a mantissa once its exponent is [fexp64]. *)
Lemma shr_fexp_div m e l :
  0 <= m -> e <= fexp64 (Zdigits2 m + e) ->
  shr_m (shr_fexp 53 1024 m e l).1 = m / 2 ^ (fexp64 (Zdigits2 m + e) - e) /\
  (shr_fexp 53 1024 m e l).2 = fexp64 (Zdigits2 m + e).
Proof.
  intros Hm He. unfold shr_fexp, shr.
  assert (shr_m (shr_record_of_loc m l) = m) as Hr by (by destruct l as [|[]]).
  destruct (fexp64 (Zdigits2 m + e) - e) as [|p|p] eqn:Hn; simpl; [|rewrite iter_shr_1_div by (by rewrite Hr)|lia].
  - rewrite Hr, Z.div_1_r. split; [done|lia].
  - rewrite Hr. split; [done|lia].
Qed.

Lemma shr_fexp_stays m e l :
  fexp64 (Zdigits2 m + e) <= e -> shr_fexp 53 1024 m e l = (shr_record_of_loc m l, e).
Proof.
  intros He. unfold shr_fexp, shr. destruct (_ - e) eqn:Hn; [done|lia|done].
Qed.

(** The second half of [binary_round_aux], from a rounded mantissa. *)
Definition finish (M e : Z) : f64 :=
  let '(r, e') := shr_fexp 53 1024 M e loc_Exact in
  match shr_m r with
  | Z0 => S754_zero false
  | Zpos m => if e' <=? 971 then S754_finite false m e' else S754_infinity false
  | Zneg _ => S754_nan
  end.

Lemma finish_carry e :
  -1074 <= e -> shr_fexp 53 1024 (2 ^ 53) e loc_Exact = (Build_shr_record (2 ^ 52) false false, e + 1).
Proof.
  intros He. unfold shr_fexp. change (Zdigits2 (2 ^ 53)) with 54.
  rewrite fexp64_eq. replace (Z.max (54 + e - 53) (-1074) - e) with 1 by lia. reflexivity.
Qed.

Lemma finish_spec M e :
  0 <= M <= 2 ^ 53 -> -1074 <= e <= 960 -> e = -1074 \/ 2 ^ 52 <= M ->
  f_real (finish M e) = true /\ (fval (finish M e) == scaled M e)%Q.
Proof.
  intros HM He Hnorm. unfold finish.
  destruct (Z.eq_dec M (2 ^ 53)) as [->|Hne].
  - rewrite finish_carry by lia. cbn [shr_m]. change (2 ^ 52) with (Zpos 4503599627370496).
    cbv iota. rewrite (proj2 (Z.leb_le _ _)) by lia. split.
    + apply f_real_finite; [|lia]. change (Z.log2 _) with 52. rewrite fexp64_eq. lia.
    + cbn [fval]. symmetry. apply (scaled_shift (2 ^ 52) e 1). lia.
  - destruct (Z.eq_dec M 0) as [->|Hpos].
    { rewrite shr_fexp_stays by (rewrite fexp64_eq; cbn; lia). cbn.
      split; [done|]. unfold scaled. change (inject_Z 0) with 0%Q. ring. }
    assert (Z.log2 M < 53) as Hlog by (apply Z.log2_lt_pow2; lia).
    rewrite shr_fexp_stays by (rewrite Zdigits2_log2, fexp64_eq; lia). cbn [shr_record_of_loc shr_m].
    destruct M as [|m|m]; [lia| |lia]. rewrite (proj2 (Z.leb_le _ _)) by lia. split; [|done].
    apply f_real_finite; [|lia]. rewrite fexp64_eq. destruct Hnorm as [->|Hm]; [lia|].
    assert (Z.log2 (Zpos m) = 52) by (apply Z.log2_unique; lia). lia.
Qed.

Lemma round_nearest_even_bounds m l :
  m <= round_nearest_even m l <= m + 1 /\ round_nearest_even m loc_Exact = m.
Proof. unfold round_nearest_even. repeat case_match; lia. Qed.

(** The mantissa that is left, [m / 2 ^ n], where [n] bits are cut off. *)
Lemma cut_bounds m e :
  0 < m -> e <= fexp64 (Z.log2 m + 1 + e) ->
  let x := fexp64 (Z.log2 m + 1 + e) in
  let M := m / 2 ^ (x - e) in
  0 <= M < 2 ^ 53 /\ (x = -1074 \/ 2 ^ 52 <= M) /\
  (scaled M x <= scaled m e)%Q /\ (scaled (m + 1) e <= scaled (M + 1) x)%Q.
Proof.
  intros Hm He x M. pose proof (fexp64_eq (Z.log2 m + 1 + e)) as Hx. fold x in Hx, He.
  assert (0 < 2 ^ (x - e)) as Hpow by (apply Z.pow_pos_nonneg; lia).
  pose proof (Z.log2_spec m Hm) as [Hlo Hhi].
  pose proof (Z.div_mod m (2 ^ (x - e)) ltac:(lia)) as Hdm. fold M in Hdm.
  pose proof (Z.mod_pos_bound m (2 ^ (x - e)) Hpow).
  repeat split.
  - apply Z.div_pos; lia.
  - apply Z.div_lt_upper_bound; [done|]. rewrite <- Z.pow_add_r by lia.
    eapply Z.lt_le_trans; [exact Hhi|]. apply Z.pow_le_mono_r; lia.
  - destruct (Z.eq_dec x (-1074)); [by left|right]. apply Z.div_le_lower_bound; [done|].
    rewrite <- Z.pow_add_r by lia. etrans; [|exact Hlo]. apply Z.pow_le_mono_r; lia.
  - replace x with (e + (x - e)) at 1 by lia. rewrite <- scaled_shift by lia.
    apply scaled_le. nia.
  - replace x with (e + (x - e)) at 1 by lia. rewrite <- scaled_shift by lia.
    apply scaled_le. nia.
Qed.

(** One rounding of a value between [m * 2 ^ e] and [(m + 1) * 2 ^ e]: at most a
    last place away, and not at all when nothing is cut off. *)
Lemma round_aux_spec m e l v :
  0 < m -> e <= fexp64 (Z.log2 m + 1 + e) -> Z.log2 m + e <= 900 ->
  (scaled m e <= v)%Q -> (v <= scaled (m + 1) e)%Q ->
  let r := binary_round_aux 53 1024 false m e l in
  f_real r = true /\
  (Qabs (fval r - v) <= pow2 (fexp64 (Z.log2 m + 1 + e)))%Q /\
  (l = loc_Exact -> fexp64 (Z.log2 m + 1 + e) = e -> (fval r == scaled m e)%Q).
Proof.
  intros Hm He Hbig Hlo Hhi. unfold binary_round_aux.
  pose proof (shr_fexp_div m e l ltac:(lia)) as [Hdiv Hexp];
    rewrite Zdigits2_log2 in * by done; [done|].
  pose proof (cut_bounds m e Hm He) as (HM & Hnorm & Hcutlo & Hcuthi).
  set (x := fexp64 (Z.log2 m + 1 + e)) in *. cbn zeta in *.
  destruct (shr_fexp 53 1024 m e l) as [r1 e1] eqn:Hr1; cbn [fst snd] in *. subst e1.
  set (M0 := m / 2 ^ (x - e)) in *.
  set (M := round_nearest_even (shr_m r1) (loc_of_shr_record r1)).
  assert (M0 <= M <= M0 + 1) as HMM
    by (unfold M; rewrite Hdiv; apply round_nearest_even_bounds).
  change (f_real (finish M x) = true /\ (Qabs (fval (finish M x) - v) <= pow2 x)%Q /\
    (l = loc_Exact -> x = e -> (fval (finish M x) == scaled m e)%Q)).
  destruct (finish_spec M x) as [Hreal Hval]; [lia|unfold x; rewrite fexp64_eq; lia|lia|].
  split_and!; [done| |].
  - rewrite Hval. apply Qabs_Qle_condition.
    pose proof (scaled_le _ _ x (proj1 HMM)). pose proof (scaled_le _ _ x (proj2 HMM)).
    rewrite !scaled_plus in *. assert (scaled 1 x == pow2 x)%Q by (unfold scaled; ring).
    lra.
  - intros -> Hxe. rewrite Hval. rewrite shr_fexp_stays in Hr1
      by (rewrite Zdigits2_log2; fold x; lia).
    injection Hr1 as <- _. unfold M. cbn [shr_record_of_loc loc_of_shr_record shr_m].
    by rewrite (proj2 (round_nearest_even_bounds m loc_Exact)), Hxe.
Qed.

(** The last place is within [ulp1] of the value, or the value is subnormal. *)
Lemma ulp_bound m e :
  0 < m -> (pow2 (fexp64 (Z.log2 m + 1 + e)) <= ulp1 * scaled m e + tiny)%Q.
Proof.
  intros Hm. rewrite fexp64_eq. pose proof (scaled_top m e Hm) as Htop. pose proof tiny_pos.
  assert (0 < ulp1)%Q by apply pow2_pos.
  pose proof (scaled_nonneg m e ltac:(lia)).
  destruct (Z.max_spec (Z.log2 m + 1 + e - 53) (-1074)) as [[_ ->]|[_ ->]].
  - change (pow2 (-1074)) with tiny. nra.
  - replace (Z.log2 m + 1 + e - 53) with (-52 + (Z.log2 m + e)) by lia.
    rewrite pow2_plus. change (pow2 (-52)) with ulp1. nra.
Qed.

Lemma shl_align_spec p e x :
  Zpos (shl_align p e x).1 = Zpos p * 2 ^ (e - Z.min e x) /\ (shl_align p e x).2 = Z.min e x.
Proof.
  unfold shl_align. destruct (x - e) as [|d|d] eqn:Hd; cbn [fst snd].
  - rewrite Z.min_l, Z.sub_diag by lia. lia.
  - rewrite Z.min_l, Z.sub_diag by lia. lia.
  - rewrite Z.min_r by lia. replace (e - x) with (Zpos d) by lia. split; [|done].
    clear Hd. induction d as [|d IH] using Pos.peano_ind; [cbn; lia|].
    rewrite Pos.iter_succ, Pos2Z.inj_succ, Z.pow_succ_r by lia. lia.
Qed.

Lemma log2_shift p k : 0 <= k -> Z.log2 (Zpos p * 2 ^ k) = Z.log2 (Zpos p) + k.
Proof. intros Hk. rewrite Z.log2_mul_pow2 by lia. lia. Qed.

(** A positive value [p * 2 ^ e] rounded once: by [ulp1] of itself and, below the
    normal range, [tiny]; a multiple of [tiny] never underflows; 53 bits are kept. *)
Lemma binary_round_spec p e :
  Z.log2 (Zpos p) + e <= 900 ->
  let v := scaled (Zpos p) e in
  let r := binary_round 53 1024 false p e in
  f_real r = true /\
  (Qabs (fval r - v) <= ulp1 * v + tiny)%Q /\
  (-1074 <= e -> (Qabs (fval r - v) <= ulp1 * v)%Q) /\
  (-1074 <= e -> Z.log2 (Zpos p) < 53 -> (fval r == v)%Q).
Proof.
  intros Hbig v r. unfold r, binary_round. rewrite digits2_log2.
  set (x := fexp64 (Z.log2 (Zpos p) + 1 + e)).
  destruct (shl_align_spec p e x) as [Hmz Hez].
  destruct (shl_align p e x) as [mz ez]; cbn [fst snd] in *. subst ez.
  assert (Z.log2 (Zpos mz) = Z.log2 (Zpos p) + (e - Z.min e x)) as Hlog
    by (rewrite Hmz; apply log2_shift; lia).
  assert (Z.log2 (Zpos mz) + 1 + Z.min e x = Z.log2 (Zpos p) + 1 + e) as Hsame by lia.
  assert (scaled (Zpos mz) (Z.min e x) == v)%Q as Hv.
  { rewrite Hmz, scaled_shift by lia. unfold v. by replace (Z.min e x + (e - Z.min e x)) with e by lia. }
  pose proof (ulp_bound (Zpos p) e ltac:(lia)) as Hulp. fold x v in Hulp.
  destruct (round_aux_spec (Zpos mz) (Z.min e x) loc_Exact v) as (Hreal & Herr & Hexact);
    rewrite ?Hsame; fold x; [lia|lia|lia|lra| |].
  { pose proof (scaled_le (Zpos mz) (Zpos mz + 1) (Z.min e x) ltac:(lia)). lra. }
  rewrite Hsame in *. fold x in Herr, Hexact. rewrite Hv in Hexact.
  assert (x <= e -> (fval (binary_round_aux 53 1024 false (Zpos mz) (Z.min e x) loc_Exact) == v)%Q)
    as Hstay by (intros; apply Hexact; [done|lia]).
  pose proof (scaled_nonneg (Zpos p) e ltac:(lia)) as Hv0. fold v in Hv0.
  assert (0 < ulp1)%Q by apply pow2_pos.
  split_and!; [done|lra| |].
  - intros He. destruct (Z_le_gt_dec x e) as [Hle|Hgt].
    + rewrite Hstay by done. assert (v - v == 0)%Q as -> by ring. change (Qabs 0) with 0%Q. nra.
    + assert (x = -52 + (Z.log2 (Zpos p) + e)) as Hx
        by (unfold x in *; rewrite fexp64_eq in *; lia).
      eapply Qle_trans; [exact Herr|]. rewrite Hx, pow2_plus. change (pow2 (-52)) with ulp1.
      pose proof (scaled_top (Zpos p) e ltac:(lia)) as Htop. fold v in Htop. nra.
  - intros He Hp. apply Hstay. unfold x. rewrite fexp64_eq. lia.
Qed.

(** ** The operations *)

Lemma f_real_cases x :
  f_real x = true ->
  (exists s, x = S754_zero s) \/
  (exists m e, x = S754_finite false m e /\ -1074 <= e <= 971 /\ Z.log2 (Zpos m) < 53 /\
    (e = -1074 \/ Z.log2 (Zpos m) = 52)).
Proof.
  intros Hx. destruct x as [s|s| |[] m e]; try (unfold f_real in Hx; simpl in Hx; congruence).
  - by left; exists s.
  - unfold f_real in Hx. by rewrite andb_false_r in Hx.
  - right. apply f_real_inv in Hx as [Hc He]. rewrite fexp64_eq in Hc.
    exists m, e. split_and!; [done|lia|lia|lia|lia].
Qed.

Lemma fval_zero s : (fval (S754_zero s) == 0)%Q.
Proof. reflexivity. Qed.

Lemma Qabs_same a b err : (a == b -> 0 <= err -> Qabs (a - b) <= err)%Q.
Proof. intros Hab Herr. apply Qabs_Qle_condition. lra. Qed.

Lemma ulp1_pos : (0 < ulp1)%Q.
Proof. apply pow2_pos. Qed.

Lemma ulp1_scale v : (0 <= v -> 0 <= ulp1 * v)%Q.
Proof. pose proof ulp1_pos. intros. nra. Qed.

Lemma scaled_align m e ez :
  ez <= e -> (scaled (Zpos (shl_align m e ez).1) ez == scaled (Zpos m) e)%Q.
Proof.
  intros He. rewrite (proj1 (shl_align_spec m e ez)), Z.min_r, scaled_shift by lia.
  by replace (ez + (e - ez)) with e by lia.
Qed.

Lemma binary_round_small p e :
  -1074 <= e -> (scaled (Zpos p) e < pow2 900)%Q ->
  f_real (binary_round 53 1024 false p e) = true /\
  (Qabs (fval (binary_round 53 1024 false p e) - scaled (Zpos p) e) <= ulp1 * scaled (Zpos p) e)%Q.
Proof.
  intros He Hbig%scaled_below; [|lia].
  destruct (binary_round_spec p e) as (? & _ & ? & _); [lia|]. auto.
Qed.

Lemma fadd_spec x y :
  f_real x = true -> f_real y = true -> (fval x + fval y < pow2 900)%Q ->
  f_real (fadd x y) = true /\
  (Qabs (fval (fadd x y) - (fval x + fval y)) <= ulp1 * (fval x + fval y))%Q.
Proof.
  intros Hx Hy Hbig. pose proof (fval_nonneg x Hx) as H0x. pose proof (fval_nonneg y Hy) as H0y.
  pose proof (ulp1_scale (fval x + fval y) ltac:(lra)) as Herr.
  destruct (f_real_cases x Hx) as [[s ->]|(m & e & -> & He & Hm & _)],
    (f_real_cases y Hy) as [[s' ->]|(m' & e' & -> & He' & Hm' & _)].
  - by destruct s, s'.
  - split; [done|]. apply Qabs_same; [|done]. cbn. ring.
  - split; [done|]. apply Qabs_same; [|done]. cbn. ring.
  - unfold fadd, SFadd, cond_Zopp, binary_normalize. rewrite <- Pos2Z.inj_add.
    set (p := ((shl_align m e (Z.min e e')).1 + (shl_align m' e' (Z.min e e')).1)%positive).
    assert (scaled (Zpos p) (Z.min e e') == scaled (Zpos m) e + scaled (Zpos m') e')%Q as Hv.
    { unfold p. rewrite Pos2Z.inj_add, scaled_plus, !scaled_align by lia. reflexivity. }
    cbn [fval] in *. rewrite <- Hv in *. apply binary_round_small; [lia|done].
Qed.

Lemma scaled_pos_inv m e : (0 <= scaled m e)%Q -> 0 <= m.
Proof.
  intros Hm. destruct (Z_le_gt_dec 0 m) as [|Hneg]; [done|].
  pose proof (scaled_lt m 0 e ltac:(lia)) as Hlt. unfold scaled at 2 in Hlt.
  change (inject_Z 0) with 0%Q in Hlt. lra.
Qed.

Lemma fsub_spec x y :
  f_real x = true -> f_real y = true -> (fval y <= fval x)%Q -> (fval x < pow2 900)%Q ->
  f_real (fsub x y) = true /\
  (Qabs (fval (fsub x y) - (fval x - fval y)) <= ulp1 * (fval x - fval y))%Q.
Proof.
  intros Hx Hy Hle Hbig. pose proof (fval_nonneg y Hy) as H0y.
  pose proof (ulp1_scale (fval x - fval y) ltac:(lra)) as Herr.
  destruct (f_real_cases x Hx) as [[s ->]|(m & e & -> & He & Hm & _)],
    (f_real_cases y Hy) as [[s' ->]|(m' & e' & -> & He' & Hm' & _)].
  - by destruct s, s'.
  - exfalso. pose proof (scaled_lt 0 (Zpos m') e' ltac:(lia)) as Hlt. unfold scaled at 1 in Hlt.
    change (inject_Z 0) with 0%Q in Hlt. cbn [fval] in *. lra.
  - split; [done|]. apply Qabs_same; [|done]. cbn. ring.
  - unfold fsub, SFsub, cond_Zopp.
    set (d := Zpos (shl_align m e (Z.min e e')).1 - Zpos (shl_align m' e' (Z.min e e')).1).
    assert (scaled d (Z.min e e') == scaled (Zpos m) e - scaled (Zpos m') e')%Q as Hv.
    { unfold d. rewrite <- (scaled_align m e (Z.min e e')), <- (scaled_align m' e' (Z.min e e')) by lia.
      unfold scaled, Z.sub. rewrite inject_Z_plus, inject_Z_opp. ring. }
    cbn [fval] in *. rewrite <- Hv in *.
    assert (0 <= d) as Hd.
    { apply (scaled_pos_inv _ (Z.min e e')). rewrite Hv. lra. }
    destruct d as [|p|p]; [|apply binary_round_small; [lia|lra]|lia].
    split; [done|]. apply Qabs_same; [|done]. unfold scaled. cbn. ring.
Qed.

Lemma f_of_Z_spec z :
  0 <= z < 2 ^ 53 -> f_real (f_of_Z z) = true /\ (fval (f_of_Z z) == inject_Z z)%Q.
Proof.
  intros Hz. destruct z as [|p|p]; [done| |lia]. unfold f_of_Z, binary_normalize.
  assert (Z.log2 (Zpos p) < 53) by (apply Z.log2_lt_pow2; lia).
  destruct (binary_round_spec p 0) as (Hreal & _ & _ & Hval); [lia|]. split; [done|].
  rewrite Hval by lia. unfold scaled. change (pow2 0) with 1%Q. ring.
Qed.

Lemma log2_prod p q :
  Z.log2 (Zpos p) + Z.log2 (Zpos q) <= Z.log2 (Zpos (p * q)) <= Z.log2 (Zpos p) + Z.log2 (Zpos q) + 1.
Proof.
  rewrite Pos2Z.inj_mul. split; [apply Z.log2_mul_below; lia|apply Z.log2_mul_above; lia].
Qed.

Lemma fmul_spec x y :
  f_real x = true -> f_real y = true -> (fval x * fval y < pow2 900)%Q ->
  f_real (fmul x y) = true /\
  (Qabs (fval (fmul x y) - fval x * fval y) <= ulp1 * (fval x * fval y) + tiny)%Q.
Proof.
  intros Hx Hy Hbig. pose proof tiny_pos.
  destruct (f_real_cases x Hx) as [[s ->]|(m & e & -> & He & Hm & Hn)],
    (f_real_cases y Hy) as [[s' ->]|(m' & e' & -> & He' & Hm' & Hn')].
  1-3: split; [by try destruct s; try destruct s'|];
    apply Qabs_Qle_condition; unfold fmul; cbn [SFmul fval]; lra.
  unfold fmul, SFmul. cbn [fval xorb] in *. rewrite scaled_mult in *.
  rewrite <- Pos2Z.inj_mul in *. pose proof (log2_prod m m').
  pose proof (Z.log2_nonneg (Zpos m)). pose proof (Z.log2_nonneg (Zpos m')).
  apply scaled_below in Hbig; [|lia].
  pose proof (ulp_bound (Zpos (m * m')) (e + e') ltac:(lia)).
  pose proof (scaled_le (Zpos (m * m')) (Zpos (m * m') + 1) (e + e') ltac:(lia)).
  destruct (round_aux_spec (Zpos (m * m')) (e + e') loc_Exact (scaled (Zpos (m * m')) (e + e')))
    as (Hreal & Herr & _); [lia|rewrite fexp64_eq; lia|lia|lra|lra|].
  split; [done|]. eapply Qle_trans; [exact Herr|done].
Qed.

Lemma digits_div m m' k :
  0 <= k -> let q := Zpos m * 2 ^ k / Zpos m' in
  Z.log2 (Zpos m) + k <= Z.log2 (Zpos m') + Z.log2 q + 1 \/ q = 0.
Proof.
  intros Hk q. assert (0 <= q) as Hq by (apply Z.div_pos; lia).
  destruct (Z.eq_dec q 0) as [|Hne]; [by right|left].
  rewrite <- log2_shift by done.
  assert (Zpos m * 2 ^ k < (q + 1) * Zpos m') as Hlt.
  { pose proof (Z.mul_succ_div_gt (Zpos m * 2 ^ k) (Zpos m') ltac:(lia)). fold q in H. lia. }
  apply Z.lt_succ_r. apply Z.log2_lt_pow2; [lia|].
  pose proof (Z.log2_spec q ltac:(lia)) as [_ H1]. pose proof (Z.log2_spec (Zpos m') ltac:(lia)) as [_ H2].
  eapply Z.lt_le_trans; [exact Hlt|].
  transitivity (2 ^ Z.succ (Z.log2 q) * 2 ^ Z.succ (Z.log2 (Zpos m'))); [nia|].
  pose proof (Z.log2_nonneg q). pose proof (Z.log2_nonneg (Zpos m')).
  rewrite <- Z.pow_add_r by lia. apply Z.pow_le_mono_r; lia.
Qed.

Lemma div_core_eq m e m' e' k :
  0 < k -> fexp64 (Z.log2 (Zpos m) + e - (Z.log2 (Zpos m') + e')) = e - e' - k ->
  exists l, SFdiv_core_binary 53 1024 (Zpos m) e (Zpos m') e' =
    (Zpos m * 2 ^ k / Zpos m', e - e' - k, l).
Proof.
  intros Hk Hexp. unfold SFdiv_core_binary, Zdigits2. rewrite !digits2_log2.
  replace (Z.log2 (Zpos m) + 1 + e - (Z.log2 (Zpos m') + 1 + e'))
    with (Z.log2 (Zpos m) + e - (Z.log2 (Zpos m') + e')) by lia.
  rewrite Hexp, Z.min_l by lia. replace (e - e' - (e - e' - k)) with k by lia.
  destruct k as [|k|k]; [lia| |lia]. rewrite Z.shiftl_mul_pow2 by lia.
  unfold Z.div. destruct (Z.div_eucl _ _) as [q r]. by eexists.
Qed.

Lemma scaled_pos m e : 0 < m -> (0 < scaled m e)%Q.
Proof. intros Hm. pose proof (scaled_top m e Hm). pose proof (pow2_pos (Z.log2 m + e)). lra. Qed.

Lemma scaled_div_bounds m e m' e' k :
  0 <= k -> let q := Zpos m * 2 ^ k / Zpos m' in
  (scaled q (e - e' - k) <= scaled (Zpos m) e / scaled (Zpos m') e')%Q /\
  (scaled (Zpos m) e / scaled (Zpos m') e' <= scaled (q + 1) (e - e' - k))%Q.
Proof.
  intros Hk q. pose proof (scaled_pos (Zpos m') e' ltac:(lia)) as Hpos.
  pose proof (Z.mul_div_le (Zpos m * 2 ^ k) (Zpos m') ltac:(lia)).
  pose proof (Z.mul_succ_div_gt (Zpos m * 2 ^ k) (Zpos m') ltac:(lia)).
  fold q in H, H0.
  assert (scaled (Zpos m) e == scaled (Zpos m * 2 ^ k) (e - k))%Q as Hm
    by (rewrite scaled_shift by done; by replace (e - k + k) with e by lia).
  split; [apply Qle_shift_div_l|apply Qle_shift_div_r]; try done;
    rewrite scaled_mult, Hm; replace (e - e' - k + e') with (e - k) by lia; apply scaled_le; lia.
Qed.

Lemma fdiv_spec x y :
  f_real x = true -> f_real y = true -> (0 < fval y)%Q ->
  (pow2 (-1000) * fval y <= fval x)%Q -> (fval x / fval y < pow2 900)%Q ->
  f_real (fdiv x y) = true /\
  (Qabs (fval (fdiv x y) - fval x / fval y) <= ulp1 * (fval x / fval y) + tiny)%Q.
Proof.
  intros Hx Hy Hpos Hlow Hbig. pose proof (pow2_pos (-1000)).
  destruct (f_real_cases y Hy) as [[s' ->]|(m' & e' & -> & He' & Hm' & Hn')]; [cbn in Hpos; lra|].
  destruct (f_real_cases x Hx) as [[s ->]|(m & e & -> & He & Hm & Hn)];
    [rewrite fval_zero in Hlow; nra|].
  cbn [fval] in *.
  pose proof (Z.log2_nonneg (Zpos m)). pose proof (Z.log2_nonneg (Zpos m')).
  assert (-1000 + (Z.log2 (Zpos m') + e') <= Z.log2 (Zpos m) + e) as Hlog.
  { assert (pow2 (-1000 + (Z.log2 (Zpos m') + e')) < pow2 (Z.log2 (Zpos m) + 1 + e))%Q.
    { rewrite pow2_plus. pose proof (scaled_top (Zpos m') e' ltac:(lia)).
      assert (scaled (Zpos m) e < pow2 (Z.log2 (Zpos m) + 1 + e))%Q; [|nra].
      rewrite <- scaled_pow by lia. apply scaled_lt, Z.log2_spec. lia. }
    apply pow2_lt_inv in H2. lia. }
  set (k := 53 + Z.log2 (Zpos m') - Z.log2 (Zpos m)).
  assert (fexp64 (Z.log2 (Zpos m) + e - (Z.log2 (Zpos m') + e')) = e - e' - k) as Hexp
    by (rewrite fexp64_eq; lia).
  destruct (div_core_eq m e m' e' k ltac:(lia) Hexp) as [l Hcore].
  unfold fdiv, SFdiv. rewrite Hcore. cbn [xorb].
  destruct (scaled_div_bounds m e m' e' k ltac:(lia)) as [Hlo Hhi].
  destruct (digits_div m m' k ltac:(lia)) as [Hq|Hq]; cbn zeta in *;
    set (q := Zpos m * 2 ^ k / Zpos m') in *; cycle 1.
  { exfalso. assert (0 < q); [|lia]. apply Z.div_str_pos. split; [lia|].
    pose proof (Z.log2_spec (Zpos m) ltac:(lia)) as [Hmlo _].
    pose proof (Z.log2_spec (Zpos m') ltac:(lia)) as [_ Hmhi].
    transitivity (2 ^ Z.log2 (Zpos m) * 2 ^ k); [|apply Z.mul_le_mono_nonneg_r; lia].
    rewrite <- Z.pow_add_r by lia. apply Z.lt_le_incl. eapply Z.lt_le_trans; [exact Hmhi|].
    apply Z.pow_le_mono_r; lia. }
  assert (0 < q) as Hqpos.
  { destruct (Z_lt_le_dec 0 q) as [|Hneg]; [done|]. apply Z.log2_nonpos in Hneg. lia. }
  assert (Z.log2 q + (e - e' - k) < 900) by (apply scaled_below; [done|lra]).
  pose proof (ulp_bound q (e - e' - k) Hqpos).
  destruct (round_aux_spec q (e - e' - k) l (scaled (Zpos m) e / scaled (Zpos m') e'))
    as (Hreal & Herr & _); [done|rewrite fexp64_eq; lia|lia|done|done|].
  split; [done|]. pose proof ulp1_pos. eapply Qle_trans; [exact Herr|]. nra.
Qed.

(** ** Comparison *)

Lemma scaled_lex m e m' e' :
  Z.log2 (Zpos m) < 53 -> -1074 <= e -> (e' = -1074 \/ Z.log2 (Zpos m') = 52) -> e < e' ->
  (scaled (Zpos m) e < scaled (Zpos m') e')%Q.
Proof.
  intros Hm He Hn Hlt. pose proof (Z.log2_nonneg (Zpos m)).
  assert (scaled (Zpos m) e < pow2 (Z.log2 (Zpos m) + 1 + e))%Q.
  { rewrite <- scaled_pow by lia. apply scaled_lt, Z.log2_spec. lia. }
  pose proof (scaled_top (Zpos m') e' ltac:(lia)).
  pose proof (pow2_mono (Z.log2 (Zpos m) + 1 + e) (Z.log2 (Zpos m') + e') ltac:(lia)). lra.
Qed.

Lemma fval_key x y :
  f_real x = true -> f_real y = true -> (fval x < fval y)%Q <-> key_lt (f_key x) (f_key y).
Proof.
  intros Hx Hy.
  destruct (f_real_cases x Hx) as [[s ->]|(m & e & -> & He & Hm & Hn)],
    (f_real_cases y Hy) as [[s' ->]|(m' & e' & -> & He' & Hm' & Hn')];
    unfold key_lt; cbn [fval f_key fst snd].
  - split; [lra|lia].
  - split; [lia|intros _]. apply scaled_pos. lia.
  - split; [|lia]. pose proof (scaled_pos (Zpos m) e ltac:(lia)). lra.
  - destruct (Z.lt_trichotomy e e') as [Hlt|[->|Hgt]].
    + split; [lia|intros _]. apply scaled_lex; lia.
    + split; [|intros Hkey; apply scaled_lt; lia]. intros Hval.
      destruct (Z_lt_le_dec (Zpos m) (Zpos m')) as [|Hle]; [lia|].
      apply (scaled_le _ _ e') in Hle. lra.
    + split; [|lia]. pose proof (scaled_lex m' e' m e ltac:(lia) ltac:(lia) Hn Hgt). lra.
Qed.

Lemma f_real_not_nan x : f_real x = true -> is_nan x = false.
Proof. by destruct x. Qed.

Lemma fltb_spec x y :
  f_real x = true -> f_real y = true -> fltb x y = true <-> (fval x < fval y)%Q.
Proof.
  intros Hx Hy. rewrite fval_key by done. apply fltb_key; by apply f_real_not_nan.
Qed.

Lemma fleb_spec x y :
  f_real x = true -> f_real y = true -> fleb x y = true <-> (fval x <= fval y)%Q.
Proof.
  intros Hx Hy. rewrite fleb_key by (by apply f_real_not_nan).
  rewrite <- fval_key by done. split; [apply Qnot_lt_le|apply Qle_not_lt].
Qed.
