(* ===== verification/GoTime.v ===== *)
(** * Go's [time.Time] and [time.Duration].

    A [Time] is the number of nanoseconds since Go's zero time (1 January of
    year 1), so [0] is [time.Time{}]; a [Duration] is an [int64] of
    nanoseconds. *)
From S2P Require Export GoFloat.

Abbreviation Time := Z.
Abbreviation Duration := Z.

Definition Nanosecond : Duration := 1.
Definition Millisecond : Duration := 10 ^ 6.
Definition Second : Duration := 10 ^ 9.
Definition Minute : Duration := 60 * Second.
Definition Hour : Duration := 60 * Minute.

Definition IsZero (t : Time) : bool := t =? 0.
Definition time_Add (t : Time) (d : Duration) : Time := t + d.
Definition After (t u : Time) : bool := u <? t.
Definition Before (t u : Time) : bool := t <? u.

(** [t.Sub(u)] saturates at the bounds of [Duration]. *)
Definition time_Sub (t u : Time) : Duration :=
  Z.max min_i64 (Z.min max_i64 (t - u)).

(** [t.Unix()]: 62135596800 seconds separate year 1 from 1970. *)
Definition Unix (t : Time) : Z := t / Second - 62135596800.

Definition Seconds (d : Duration) : f64 :=
  fadd (f_of_Z (Z.quot d Second))
       (fdiv (f_of_Z (Z.rem d Second)) (f_of_Z Second)).

Definition Milliseconds (d : Duration) : Z := Z.quot d Millisecond.

(** [time.Duration(n) * unit]: the product wraps. *)
Definition mul_duration (n unit : Z) : Duration := i64 (n * unit).

Lemma time_Sub_small t u :
  min_i64 <= t - u <= max_i64 -> time_Sub t u = t - u.
Proof. unfold time_Sub. lia. Qed.

Lemma time_Sub_le t u d :
  0 <= d < max_i64 -> (time_Sub t u <=? d) = (t - u <=? d).
Proof.
  unfold time_Sub, max_i64, min_i64. intros ?.
  destruct (Z.leb_spec (t - u) d); [apply Z.leb_le | apply Z.leb_gt]; lia.
Qed.

Lemma mul_duration_small n unit :
  min_i64 <= n * unit <= max_i64 -> mul_duration n unit = n * unit.
Proof. apply i64_small. Qed.
