(* ===== verification/GoUrl.v ===== *)
(** * The parts of Go's [net/url], [path] and [net/http] that route a request:
    percent-decoding, [path.Clean] and the matching of a path against a pattern
    without wildcards, as [http.ServeMux] does it since Go 1.22. *)
From S2P Require Export GoString.

Create Rewrite HintDb go_url.

Definition slash : ascii := "/"%char.

(** The byte an escape [%ab] stands for. *)
Definition escape (c a b : ascii) : option ascii :=
  if Ascii.eqb c "%" then
    x ← hex_val (byte_of a); y ← hex_val (byte_of b); Some (char_of (16 * x + y))
  else None.

(** [url.PathUnescape] on a valid encoding; a [%] that is not followed by two
    hexadecimal digits does not occur there and is kept. *)
Fixpoint PathUnescape (s : string) : string :=
  match s with
  | EmptyString => EmptyString
  | String c s' =>
      match s' with
      | String a (String b s'') =>
          match escape c a b with
          | Some d => String d (PathUnescape s'')
          | None => String c (PathUnescape s')
          end
      | _ => String c (PathUnescape s')
      end
  end.

(** [strings.Join] with a one-byte separator. *)
Fixpoint Join (sep : ascii) (l : list string) : string :=
  match l with
  | [] => EmptyString
  | [s] => s
  | s :: l' => s +:+ String sep (Join sep l')
  end.

(** [path.Clean] of a rooted path: the elements between slashes, without the
    empty ones and the dots, where a double dot takes back the element before. *)
Definition clean_step (stack : list string) (element : string) : list string :=
  if String.eqb element "" || String.eqb element "." then stack else
  if String.eqb element ".." then tail stack else element :: stack.

Definition path_Clean (p : string) : string :=
  String slash (Join slash (rev (fold_left clean_step (Split slash p) []))).

(** [cleanPath] of [net/http]: [path.Clean] with the last slash kept. *)
Definition ends_with_slash (p : string) : bool :=
  match rev (bytes_of p) with b :: _ => b =? byte_of slash | [] => false end.

Definition cleanPath (p : string) : string :=
  match p with
  | EmptyString => "/"
  | String c _ =>
      let p' := if Ascii.eqb c slash then p else String slash p in
      let np := path_Clean p' in
      if ends_with_slash p' && negb (String.eqb np "/") then np +:+ "/" else np
  end.

(** The elements of a path as [firstSegment] takes them off, one after the
    other: between slashes, each decoded on its own. *)
Definition segments (p : string) : list string := PathUnescape <$> Split slash p.

(** A pattern of literal elements, such as [/hd/transfer]. *)
Definition matches (pattern p : string) : bool :=
  bool_decide (segments p = Split slash pattern).

(** ** Lemmas *)

Lemma escape_slash_l c b : escape c slash b = None.
Proof. unfold escape. destruct (Ascii.eqb c "%"); reflexivity. Qed.

Lemma escape_slash_r c a : escape c a slash = None.
Proof. unfold escape. destruct (Ascii.eqb c "%"), (hex_val (byte_of a)); reflexivity. Qed.

#[export] Hint Rewrite escape_slash_l escape_slash_r : go_url.

Lemma PathUnescape_rooted t : PathUnescape (String slash t) = String slash (PathUnescape t).
Proof. by destruct t as [|a [|b t]]. Qed.

(** Decoding does not look across a slash. *)
Lemma PathUnescape_slash s t :
  PathUnescape (s +:+ String slash t) = PathUnescape s +:+ String slash (PathUnescape t).
Proof.
  induction s as [s IH] using (induction_ltof1 _ String.length). unfold ltof in IH.
  destruct s as [|c [|a [|b s]]].
  - apply PathUnescape_rooted.
  - rewrite string_cons_app, string_nil_app. rewrite <- PathUnescape_rooted.
    destruct t as [|d t]; [done|]. cbn [PathUnescape]. by rewrite escape_slash_l.
  - pose proof (IH (String a "")) as Ha. cbn [String.length] in Ha. specialize (Ha ltac:(lia)).
    rewrite !string_cons_app, string_nil_app in *. cbn [PathUnescape] in Ha |- *.
    rewrite escape_slash_r, Ha. done.
  - pose proof (IH s) as Hs. pose proof (IH (String a (String b s))) as Ha.
    cbn [String.length] in Hs, Ha. specialize (Hs ltac:(lia)). specialize (Ha ltac:(lia)).
    rewrite !string_cons_app in *. cbn [PathUnescape].
    destruct (escape c a b); [by rewrite Hs|]. cbn [PathUnescape] in Ha. by rewrite Ha.
Qed.

(** A string has no [c], or splits at its first one. *)
Lemma first_char c s : has_char c s = true ->
  exists a t, s = a +:+ String c t /\ has_char c a = false.
Proof.
  induction s as [|d s IH]; [done|]. cbn. destruct (Ascii.eqb_spec c d) as [->|Hne]; cbn.
  - intros _. by exists EmptyString, s.
  - intros (a & t & -> & Ha)%IH. exists (String d a), t. split; [done|]. cbn.
    by rewrite (proj2 (Ascii.eqb_neq c d) Hne).
Qed.

Lemma split_ind c (P : string -> Prop) :
  (forall s, has_char c s = false -> P s) ->
  (forall a t, has_char c a = false -> P t -> P (a +:+ String c t)) -> forall s, P s.
Proof.
  intros Hnone Hsep s. induction s as [s IH] using (induction_ltof1 _ String.length).
  destruct (has_char c s) eqn:Hs; [|by apply Hnone].
  destruct (first_char c s Hs) as (a & t & -> & Ha). apply Hsep, IH; [done|].
  unfold ltof. rewrite <- !length_bytes_of, bytes_of_app, length_app. cbn. lia.
Qed.

Lemma Split_nonempty c s : Split c s <> [].
Proof.
  destruct s as [|d s]; [done|]. cbn. destruct (Ascii.eqb d c); [discriminate|].
  by destruct (Split c s).
Qed.

Lemma Join_cons c s l : l <> [] -> Join c (s :: l) = s +:+ String c (Join c l).
Proof. by destruct l. Qed.

Lemma Join_Split c s : Join c (Split c s) = s.
Proof.
  induction s as [s Hs|a t Ha IH] using (split_ind c); [by rewrite Split_no_sep|].
  rewrite Split_app, Join_cons, IH by auto using Split_nonempty. done.
Qed.

Lemma segments_unescape p : PathUnescape p = Join slash (segments p).
Proof.
  unfold segments. induction p as [s Hs|a t Ha IH] using (split_ind slash).
  - by rewrite Split_no_sep.
  - rewrite Split_app by done. rewrite fmap_cons, Join_cons, PathUnescape_slash, IH; [done|].
    intros Hnil%fmap_nil_inv. by eapply Split_nonempty.
Qed.

(** A path that matches a pattern decodes to it. *)
Lemma matches_path pattern p : matches pattern p = true -> PathUnescape p = pattern.
Proof.
  unfold matches. intros Hseg%bool_decide_eq_true. by rewrite segments_unescape, Hseg, Join_Split.
Qed.

(** *** A cleaned path is clean *)

(** An element [path.Clean] keeps. *)
Definition plain_element (e : string) : Prop :=
  has_char slash e = false /\ clean_step [] e = [e].

Lemma plain_step e stack : plain_element e -> clean_step stack e = e :: stack.
Proof.
  intros [_ He]. unfold clean_step in *.
  destruct (String.eqb e "" || String.eqb e "."); [done|]. by destruct (String.eqb e "..").
Qed.

Lemma clean_steps l stack : Forall plain_element l -> fold_left clean_step l stack = (rev l ++ stack)%list.
Proof.
  intros Hl. revert stack. induction Hl as [|e l He Hl IH]; intros stack; [done|].
  cbn. by rewrite plain_step, IH, <- (assoc_L (++)) by done.
Qed.

Lemma Split_elements c s : Forall (fun e => has_char c e = false) (Split c s).
Proof.
  induction s as [s Hs|a t Ha IH] using (split_ind c).
  - rewrite Split_no_sep by done. by repeat constructor.
  - rewrite Split_app by done. by constructor.
Qed.

Lemma clean_plain l stack :
  Forall (fun e => has_char slash e = false) l -> Forall plain_element stack ->
  Forall plain_element (fold_left clean_step l stack).
Proof.
  intros Hl. revert stack. induction Hl as [|e l He Hl IH]; intros stack Hstack; [done|].
  cbn. apply IH. unfold clean_step.
  destruct (String.eqb e "" || String.eqb e ".") eqn:H1; [done|].
  destruct (String.eqb e "..") eqn:H2; [by apply Forall_tail|].
  constructor; [|done]. split; [done|]. unfold clean_step. by rewrite H1, H2.
Qed.

Lemma Split_Join l : l <> [] -> Forall (fun e => has_char slash e = false) l ->
  Split slash (Join slash l) = l.
Proof.
  intros Hne Hl. induction Hl as [|e l He Hl IH]; [done|].
  destruct (decide (l = [])) as [->|Hl']; [by apply Split_no_sep|].
  rewrite Join_cons, Split_app, IH by done. done.
Qed.

(** [path.Clean] changes nothing about a path it returned, with a slash at its
    end or without. *)
Lemma Clean_plain l : Forall plain_element l ->
  path_Clean (String slash (Join slash l)) = String slash (Join slash l) /\
  path_Clean (String slash (Join slash l) +:+ "/") = String slash (Join slash l).
Proof.
  intros Hl. assert (Forall (fun e => has_char slash e = false) l) as Hno.
  { eapply Forall_impl; [exact Hl|]. by intros e []. }
  unfold path_Clean.
  destruct (decide (l = [])) as [->|Hne]; [done|]. split; do 2 f_equal.
  - change (String slash (Join slash l)) with (EmptyString +:+ String slash (Join slash l)).
    rewrite Split_app, Split_Join by done. cbn [fold_left]. change (clean_step [] "") with (@nil string).
    by rewrite clean_steps, (right_id_L [] (++)), rev_involutive.
  - assert (Join slash l +:+ "/" = Join slash (l ++ [EmptyString])) as Hjoin.
    { clear - Hne. induction l as [|e l IH]; [done|]. destruct (decide (l = [])) as [->|Hl]; [done|].
      rewrite Join_cons by done. cbn [app]. rewrite Join_cons by (by destruct l).
      rewrite <- IH by done. by rewrite <- string_app_assoc. }
    rewrite string_cons_app, Hjoin.
    change (String slash (Join slash ?x)) with (EmptyString +:+ String slash (Join slash x)).
    rewrite Split_app by done.
    rewrite Split_Join; [|by destruct l|apply Forall_app; split; [done|by repeat constructor]].
    cbn [fold_left]. change (clean_step [] "") with (@nil string).
    rewrite fold_left_app, (clean_steps l) by done. cbn [fold_left].
    change (clean_step ?x "") with x. by rewrite (right_id_L [] (++)), rev_involutive.
Qed.

Lemma ends_with_slash_app s : ends_with_slash (s +:+ "/") = true.
Proof. unfold ends_with_slash. by rewrite bytes_of_app, rev_app_distr. Qed.

(** The last byte of a string is that of its last element. *)
Lemma ends_with_slash_last e s : e <> "" -> ends_with_slash (s +:+ e) = ends_with_slash e.
Proof.
  intros He. unfold ends_with_slash. rewrite bytes_of_app, rev_app_distr.
  destruct (rev (bytes_of e)) as [|b l] eqn:Hb; [|done].
  destruct e as [|c e]; [done|]. cbn in Hb. by destruct (rev (bytes_of e)).
Qed.

Lemma ends_with_slash_plain e : has_char slash e = false -> ends_with_slash e = false.
Proof.
  rewrite has_char_bytes. intros He. unfold ends_with_slash.
  destruct (rev (bytes_of e)) as [|b l] eqn:Hb; [done|].
  apply not_true_is_false. intros Hb'%Z.eqb_eq. revert He.
  apply eq_true_false_abs, existsb_exists. exists b. rewrite Z.eqb_eq. split; [|done].
  apply in_rev. rewrite Hb. by left.
Qed.

Lemma ends_with_slash_Join l : Forall plain_element l -> l <> [] ->
  ends_with_slash (String slash (Join slash l)) = false.
Proof.
  intros Hl. induction Hl as [|e l [He Hstep] Hl IH]; [done|]. intros _.
  change (String slash ?x) with ("/" +:+ x).
  destruct (decide (l = [])) as [->|Hne].
  - cbn [Join]. rewrite ends_with_slash_last; [by apply ends_with_slash_plain|by intros ->].
  - by rewrite Join_cons, string_app_assoc, ends_with_slash_last by done; apply IH.
Qed.

Lemma cleanPath_form p : exists l, Forall plain_element l /\
  (cleanPath p = String slash (Join slash l) \/
   l <> [] /\ cleanPath p = String slash (Join slash l) +:+ "/").
Proof.
  destruct p as [|c p]; [exists []; by auto|]. cbn [cleanPath].
  set (p' := if Ascii.eqb c slash then String c p else String slash (String c p)).
  unfold path_Clean. set (l := rev _). exists l. split.
  - unfold l. apply Forall_rev, clean_plain; [apply Split_elements|constructor].
  - destruct (ends_with_slash p' && _) eqn:Hend; [right|by left].
    apply andb_true_iff in Hend as [_ Hroot]. split; [|done]. by intros ->.
Qed.

(** A redirect leads to a path that is served, or not found, but not redirected. *)
Lemma cleanPath_idem p : cleanPath (cleanPath p) = cleanPath p.
Proof.
  destruct (cleanPath_form p) as (l & Hl & Hform). destruct (Clean_plain l Hl) as [Hclean Hslash].
  set (np := String slash (Join slash l)) in *.
  assert (forall s, cleanPath (np +:+ s) =
    if ends_with_slash (np +:+ s) && negb (String.eqb (path_Clean (np +:+ s)) "/")
    then path_Clean (np +:+ s) +:+ "/" else path_Clean (np +:+ s)) as Hunfold by done.
  destruct Hform as [->|[Hne ->]].
  - specialize (Hunfold ""). rewrite string_app_nil_r in Hunfold. rewrite Hunfold, Hclean.
    destruct (decide (l = [])) as [Hnil|Hne]; [by unfold np; rewrite Hnil|].
    unfold np at 1. by rewrite ends_with_slash_Join.
  - rewrite Hunfold, Hslash, ends_with_slash_last by done.
    destruct (String.eqb_spec np "/") as [[= Hnil]|_]; [|done].
    destruct l as [|e l]; [done|]. exfalso. apply Forall_cons_1 in Hl as [[_ He] _].
    destruct l; cbn in Hnil; destruct e; done.
Qed.

Example clean_dots : cleanPath "//hd/./x/..//transfer" = "/hd/transfer".
Proof. reflexivity. Qed.

Example clean_above_root : cleanPath "/../hd/transfer/" = "/hd/transfer/".
Proof. reflexivity. Qed.

Example matches_escaped : matches "/healthz" "/%68ealthz" = true.
Proof. reflexivity. Qed.

(** An escaped slash does not separate elements, though it decodes to one. *)
Example escaped_slash_matches_not :
  PathUnescape "/hd%2Ftransfer" = "/hd/transfer" /\ matches "/hd/transfer" "/hd%2Ftransfer" = false.
Proof. by split. Qed.
