(* ===== verification/Sha256.v ===== *)
(** * SHA-256 and HMAC-SHA-256, as Go's [crypto/sha256] and [crypto/hmac]
    compute them (FIPS 180-4, RFC 2104). Words are integers below [2^32], a
    message is a list of bytes. *)
From S2P Require Export GoString.

Definition mask32 : Z := 4294967295.
Definition add32 (x y : Z) : Z := Z.land (x + y) mask32.
Definition rotr (x n : Z) : Z :=
  Z.lor (Z.shiftr x n) (Z.land (Z.shiftl x (32 - n)) mask32).

Definition Ch (x y z : Z) : Z := Z.lxor (Z.land x y) (Z.land (Z.lxor x mask32) z).
Definition Maj (x y z : Z) : Z :=
  Z.lxor (Z.lxor (Z.land x y) (Z.land x z)) (Z.land y z).
Definition Sigma0 (x : Z) : Z := Z.lxor (Z.lxor (rotr x 2) (rotr x 13)) (rotr x 22).
Definition Sigma1 (x : Z) : Z := Z.lxor (Z.lxor (rotr x 6) (rotr x 11)) (rotr x 25).
Definition sigma0 (x : Z) : Z := Z.lxor (Z.lxor (rotr x 7) (rotr x 18)) (Z.shiftr x 3).
Definition sigma1 (x : Z) : Z := Z.lxor (Z.lxor (rotr x 17) (rotr x 19)) (Z.shiftr x 10).

(** The constants, as the standard defines them: the first 32 bits of the
    fractional parts of the cube roots of the first 64 primes, and of the square
    roots of the first eight. *)
Definition cube_root (n : Z) : Z :=
  foldl (fun r i => if (r + 2 ^ i) ^ 3 <=? n then r + 2 ^ i else r) 0
    (reverse (seqZ 0 40)).

Definition primes : list Z :=
  filter (fun n => Forall (fun d => n mod d <> 0) (seqZ 2 (n - 2))) (seqZ 2 310).

Definition sha_K : list Z :=
  Eval vm_compute in ((fun p => cube_root (p * 2 ^ 96) mod 2 ^ 32) <$> primes).

Definition sha_H0 : list Z :=
  Eval vm_compute in ((fun p => Z.sqrt (p * 2 ^ 64) mod 2 ^ 32) <$> take 8 primes).

(** One round per constant; [w] holds the sixteen schedule words to come. *)
Fixpoint sha_rounds (ks w st : list Z) : list Z :=
  match ks, st with
  | k :: ks', [a; b; c; d; e; f; g; h] =>
      let w0 := nth 0 w 0 in
      let t1 := add32 (add32 (add32 h (Sigma1 e)) (add32 (Ch e f g) k)) w0 in
      let t2 := add32 (Sigma0 a) (Maj a b c) in
      let wn := add32 (add32 (sigma1 (nth 14 w 0)) (nth 9 w 0))
                      (add32 (sigma0 (nth 1 w 0)) w0) in
      sha_rounds ks' (tail w ++ [wn]) [add32 t1 t2; a; b; c; add32 d t1; e; f; g]
  | _, _ => st
  end.

Fixpoint be_words (n : nat) (l : list Z) : list Z :=
  match n, l with
  | S n', a :: b :: c :: d :: r =>
      (a * 2 ^ 24 + b * 2 ^ 16 + c * 2 ^ 8 + d) :: be_words n' r
  | _, _ => []
  end.

Definition be_bytes4 (w : Z) : list Z :=
  [w / 2 ^ 24 mod 256; w / 2 ^ 16 mod 256; w / 2 ^ 8 mod 256; w mod 256].

(** The padded length is a multiple of 64, and [n] its number of blocks. *)
Fixpoint sha_blocks (n : nat) (l st : list Z) : list Z :=
  match n with
  | O => st
  | S n' =>
      sha_blocks n' (drop 64 l)
        (zip_with add32 st (sha_rounds sha_K (be_words 16 (take 64 l)) st))
  end.

Definition sha_pad (msg : list Z) : list Z :=
  let n := length msg in
  let z := ((119 - n mod 64) mod 64)%nat in
  let bits := Z.of_nat n * 8 in
  (msg ++ [128] ++ replicate z 0 ++
   be_bytes4 (bits / 2 ^ 32) ++ be_bytes4 (bits mod 2 ^ 32))%list.

(** [sha256.Sum256] *)
Definition sha256 (msg : list Z) : list Z :=
  let p := sha_pad msg in
  sha_blocks (length p / 64) p sha_H0 ≫= be_bytes4.

(** [hmac.New(sha256.New, key)], written and summed. *)
Definition hmac_sha256 (key msg : list Z) : list Z :=
  let k := if (64 <? length key)%nat then sha256 key else key in
  let k := (k ++ replicate (64 - length k) 0)%list in
  sha256 (map (Z.lxor 92) k ++ sha256 (map (Z.lxor 54) k ++ msg)).

Example sha256_abc :
  hex_EncodeToString (sha256 (bytes_of "abc")) =
  "ba7816bf8f01cfea414140de5dae2223b00361a396177a9cb410ff61f20015ad"%string.
Proof. vm_compute. reflexivity. Qed.

Example sha256_two_blocks :
  hex_EncodeToString
    (sha256 (bytes_of "abcdbcdecdefdefgefghfghighijhijkijkljklmklmnlmnomnopnopq")) =
  "248d6a61d20638b8e5c026930c3e6039a33ce45964ff2167f6ecedd419db06c1"%string.
Proof. vm_compute. reflexivity. Qed.

Example hmac_rfc4231 :
  hex_EncodeToString
    (hmac_sha256 (bytes_of "Jefe") (bytes_of "what do ya want for nothing?")) =
  "5bdcc146bf60754e6a042426089575c75a003f089d2739839dec58b964ec3843"%string.
Proof. vm_compute. reflexivity. Qed.

Lemma be_bytes4_range w : Forall (fun b => 0 <= b < 256) (be_bytes4 w).
Proof. repeat constructor; apply Z.mod_pos_bound; lia. Qed.

Lemma sha256_bytes msg : Forall (fun b => 0 <= b < 256) (sha256 msg).
Proof.
  unfold sha256. generalize (sha_blocks (length (sha_pad msg) / 64) (sha_pad msg) sha_H0).
  intros l. apply Forall_bind, Forall_true. intros; apply be_bytes4_range.
Qed.

Lemma sha_rounds_length ks w st : length st = 8%nat -> length (sha_rounds ks w st) = 8%nat.
Proof.
  revert w st. induction ks as [|k ks IH]; intros w st Hst; [done|].
  destruct st as [|?[|?[|?[|?[|?[|?[|?[|?[|]]]]]]]]]; try discriminate Hst.
  cbn [sha_rounds]. by apply IH.
Qed.

Lemma sha_blocks_length n l st : length st = 8%nat -> length (sha_blocks n l st) = 8%nat.
Proof.
  revert l st. induction n as [|n IH]; intros l st Hst; [exact Hst|].
  cbn [sha_blocks]. apply IH. rewrite length_zip_with, sha_rounds_length by done. lia.
Qed.

(** A digest is 32 bytes, so its hex form is 64 characters. *)
Lemma sha256_length msg : length (sha256 msg) = 32%nat.
Proof.
  unfold sha256. pose proof (sha_blocks_length (length (sha_pad msg) / 64)
    (sha_pad msg) sha_H0 eq_refl) as Hl.
  destruct (sha_blocks _ _ _) as [|?[|?[|?[|?[|?[|?[|?[|?[|]]]]]]]]];
    try discriminate Hl. reflexivity.
Qed.
