(* ===== verification/Geth.v ===== *)
(** * The go-ethereum operations the signer calls.

    go-ethereum is not part of the repository: its functions are the fields of
    [Geth], and a theorem that needs one of their documented laws takes it as a
    hypothesis from [GethLaws]. [ref_geth] is a concrete instance with the
    documented address and hex syntax; its digest is SHA-256 in place of
    Keccak-256. *)
From S2P Require Export GoString Sha256.

Abbreviation bytes := (list Z).
Abbreviation Address := (list Z).
Abbreviation Hash := (list Z).

Definition address_zero : Address := replicate 20 0.
Definition hash_zero : Hash := replicate 32 0.

Inductive abi_value :=
| AbiUint256 (z : Z)
| AbiAddress (a : Address)
| AbiBytes32 (h : Hash).

(** [types.NewTransaction(nonce, to, value, gas, gasPrice, data)] *)
Record Transaction := {
  tx_nonce : Z;
  tx_to : Address;
  tx_value : Z;
  tx_gas : Z;
  tx_gasPrice : Z;
  tx_data : bytes;
}.

Record SignedTransaction := {
  st_tx : Transaction;
  st_chainID : Z;
  st_hash : Hash;
}.

#[export] Instance Transaction_eq_dec : EqDecision Transaction.
Proof. solve_decision. Defined.
#[export] Instance SignedTransaction_eq_dec : EqDecision SignedTransaction.
Proof. solve_decision. Defined.

Class Geth := {
  (** [common] *)
  IsHexAddress : string -> bool;
  HexToAddress : string -> Address;
  HexToHash : string -> Hash;
  BytesToAddress : bytes -> Address;
  address_Hex : Address -> string;
  hash_Hex : Hash -> string;
  (** [common/hexutil] *)
  hexutil_Encode : bytes -> string;
  hexutil_Decode : string -> option bytes;
  (** [crypto] *)
  Keccak256 : bytes -> Hash;
  PrivateKey : Type;
  HexToECDSA : string -> result PrivateKey;
  PubkeyToAddress : PrivateKey -> Address;
  (** [accounts/abi] *)
  abi_NewType : string -> result unit;
  abi_Pack : list abi_value -> result bytes;
  (** [core/types]: the hash of the transaction signed for a chain. *)
  tx_signature : Transaction -> Z -> PrivateKey -> result Hash;
}.

(** The low [n] bytes, padded with zeros on the left. *)
Definition fit_bytes (n : nat) (l : bytes) : bytes :=
  let l := drop (length l - n) l in (replicate (n - length l) 0 ++ l)%list.

(** The word of a static argument in the ABI: 32 bytes, integers taken modulo
    [2^256]. *)
Definition abi_word (v : abi_value) : bytes :=
  match v with
  | AbiUint256 z => be_bytes 32 z
  | AbiAddress a => fit_bytes 32 a
  | AbiBytes32 h => fit_bytes 32 h
  end.

Class GethLaws (G : Geth) := {
  HexToAddress_length s : length (HexToAddress s) = 20%nat;
  HexToAddress_bytes s : Forall (fun b => 0 <= b < 256) (HexToAddress s);
  BytesToAddress_20 l : length l = 20%nat -> BytesToAddress l = l;
  hexutil_Encode_spec l : hexutil_Encode l = "0x" +:+ hex_EncodeToString l;
  Keccak256_length l : length (Keccak256 l) = 32%nat;
  abi_Pack_words vs : abi_Pack vs = Ok (vs ≫= abi_word);
}.

Definition SignTx `{Geth} (tx : Transaction) (chainID : Z) (key : PrivateKey) :
    result SignedTransaction :=
  h ← tx_signature tx chainID key;
  Ok {| st_tx := tx; st_chainID := chainID; st_hash := h |}.

(** ** A concrete instance *)

Definition strip_0x (s : string) : string :=
  match s with
  | String "0" (String x s') =>
      if Ascii.eqb x "x" || Ascii.eqb x "X" then s' else s
  | _ => s
  end.

Definition all_hex (s : string) : bool :=
  forallb (fun b => bool_decide (is_Some (hex_val b))) (bytes_of s).

Definition from_hex (s : string) : bytes :=
  let s := strip_0x s in
  let s := if Z.odd (len s) then String "0" s else s in
  default [] (hex_DecodeString s).

Definition ref_geth : Geth := {|
  IsHexAddress s := let s := strip_0x s in (len s =? 40) && all_hex s;
  HexToAddress s := fit_bytes 20 (from_hex s);
  HexToHash s := fit_bytes 32 (from_hex s);
  BytesToAddress l := fit_bytes 20 l;
  address_Hex a := "0x" +:+ hex_EncodeToString a;
  hash_Hex h := "0x" +:+ hex_EncodeToString h;
  hexutil_Encode l := "0x" +:+ hex_EncodeToString l;
  hexutil_Decode s := hex_DecodeString (strip_0x s);
  Keccak256 := sha256;
  PrivateKey := bytes;
  HexToECDSA s :=
    if (len s =? 64) && all_hex s then Ok (from_hex s)
    else Err "invalid hex data for private key";
  PubkeyToAddress k := drop 12 (sha256 k);
  abi_NewType _ := Ok tt;
  abi_Pack vs := Ok (vs ≫= abi_word);
  tx_signature tx chainID key :=
    Ok (sha256 (key ++ be_bytes 32 chainID ++ be_bytes 8 (tx_nonce tx) ++ tx_to tx ++
                be_bytes 32 (tx_value tx) ++ tx_data tx))%list;
|}.

Lemma length_fit_bytes n l : length (fit_bytes n l) = n.
Proof.
  unfold fit_bytes. rewrite length_app, length_replicate, !length_drop.
  generalize (length l). lia.
Qed.

Lemma hex_val_range b x : hex_val b = Some x -> 0 <= x < 16.
Proof. unfold hex_val, is_digit. intros. repeat case_match; simplify_eq; unbool; lia. Qed.

Lemma hex_decode_range l bs :
  hex_decode_bytes l = Some bs -> Forall (fun b => 0 <= b < 256) bs.
Proof.
  revert l bs. fix IH 1. intros [|a [|b l]] bs H; simpl in H; simplify_eq; [constructor|].
  destruct (hex_val a) as [x|] eqn:Ha; simplify_eq/=.
  destruct (hex_val b) as [y|] eqn:Hb; simplify_eq/=.
  destruct (hex_decode_bytes l) as [r|] eqn:Hr; simplify_eq/=.
  apply hex_val_range in Ha, Hb. constructor; [lia|]. by apply (IH l).
Qed.

Lemma from_hex_range s : Forall (fun b => 0 <= b < 256) (from_hex s).
Proof.
  unfold from_hex, hex_DecodeString.
  destruct (hex_decode_bytes _) eqn:E; simpl; [by eapply hex_decode_range|constructor].
Qed.

#[export] Instance ref_geth_laws : GethLaws ref_geth.
Proof.
  split; intros.
  - apply length_fit_bytes.
  - cbn [HexToAddress ref_geth]. unfold fit_bytes.
    apply Forall_app. split; [apply Forall_replicate; lia|].
    apply Forall_drop, from_hex_range.
  - change (fit_bytes 20 l = l). unfold fit_bytes.
    rewrite H, Nat.sub_diag, drop_0, H. reflexivity.
  - reflexivity.
  - apply sha256_length.
  - reflexivity.
Qed.
