(* ===== verification/Config.v ===== *)
(** * Configuration: [config.go].

    The environment is a partial function from variable names to values, taken
    after [godotenv.Load()]. *)
From S2P Require Export GoTime.

Record SecurityConfig := {
  HMACSecret : string;
  HMACMaxSkewSec : Z;
  HMACOldSecret : string;
  NonceTTLSeconds : Z;
  NonceStoreType : string;
  RateLimitPerMin : Z;
  RateLimitBurst : Z;
  RateLimiterType : string;
  MaxBodySizeMB : Z;
  RequireHMAC : bool;
  RequireNonce : bool;
  RequireAPIKey : bool;
}.

Record SignerConfig := {
  AppEnv : string;
  Port : string;
  DatabaseURL : string;
  RedisURL : string;
  AllowSimulation : bool;
  DefaultNetwork : string;
  AllowedNetworks : gset string;
  AllowedTokenContracts : gset string;
  AllowedContractCalls : gset string;
  MaxTransferAmount : f64;
  TokenDecimals : Z;
  EVMPrivateKey : string;
  RPCURL : string;
  RPCURLs : list string;
  (** [RPCFleet != nil]; the fleet itself is shared state of the service. *)
  RPCFleet : bool;
  BSCUSDTContract : string;
  BSCTreasuryContract : string;
  BSCChainID : Z;
  Security : SecurityConfig;
  CustodyGuardEnabled : bool;
  CustodyGuardPollMs : Z;
  CustodyMode : string;
  CustodyUnlockCooldown : Z;
  CustodyProtectedRaw : string;
  CustodyTrustedRaw : string;
  CustodySelectorsRaw : string;
  TreasuryMinUSDT : f64;
  TreasuryTargetUSDT : f64;
  TreasuryMaxUSDT : f64;
  TreasuryMaxDailyOut : f64;
  TreasuryLockThreshold : f64;
}.

Section Config.
Context `{GoUnicode}.

Definition IsProduction (c : SignerConfig) : bool :=
  let env := ToLower (TrimSpace (AppEnv c)) in
  String.eqb env "production" || String.eqb env "prod".

Definition ValidateProduction (c : SignerConfig) : result unit :=
  if negb (IsProduction c) then Ok tt else
  guard_err (AllowSimulation c) "SIGNER_ALLOW_SIMULATION deve ser false em producao" ≫= λ _,
  guard_err (String.eqb (TrimSpace (DatabaseURL c)) "")
    "SIGNER_DATABASE_URL ou DATABASE_URL obrigatorio em producao" ≫= λ _,
  guard_err (Z.of_nat (size (AllowedTokenContracts c)) =? 0)
    "SIGNER_ALLOWED_TOKEN_CONTRACTS deve fixar contratos permitidos em producao" ≫= λ _,
  guard_err (len (TrimSpace (HMACSecret (Security c))) <? 32)
    "HMAC_SECRET deve ter pelo menos 32 caracteres em producao" ≫= λ _,
  guard_err (RequireHMAC (Security c) && String.eqb (HMACSecret (Security c)) "")
    "HMAC_SECRET obrigatorio quando RequireHMAC=true" ≫= λ _,
  guard_err (RequireNonce (Security c) && (NonceTTLSeconds (Security c) <=? 0))
    "NONCE_TTL_SECONDS deve ser > 0 quando RequireNonce=true" ≫= λ _,
  guard_err (RequireNonce (Security c)
             && EqualFold (TrimSpace (NonceStoreType (Security c))) "redis"
             && String.eqb (TrimSpace (RedisURL c)) "")
    "REDIS_URL obrigatorio quando NONCE_STORE_TYPE=redis".

Definition normalizeCustodyMode (value : string) : string :=
  let v := ToLower (TrimSpace value) in
  if bool_decide (v ∈ ["shadow"; "paper"; "live"]%string) then v else "paper"%string.

(** ** Environment readers *)

Section Env.
Variable LookupEnv : string -> option string.

Definition getEnv (key defaultValue : string) : string :=
  default defaultValue (LookupEnv key).

(** [strconv.Atoi] and [ParseInt(_, 10, 64)] agree on a 64-bit platform. *)
Definition getEnvAsInt (key : string) (defaultValue : Z) : Z :=
  match ParseInt64 (getEnv key "") with
  | (value, None) => value
  | (_, Some _) => defaultValue
  end.

Definition getEnvAsInt64 (key : string) (defaultValue : Z) : Z :=
  match ParseInt64 (getEnv key "") with
  | (value, None) => value
  | (_, Some _) => defaultValue
  end.

Definition getEnvAsFloat (key : string) (defaultValue : f64) : f64 :=
  default defaultValue (ParseFloat (getEnv key "")).

Definition getEnvAsBool (key : string) (defaultValue : bool) : bool :=
  let valueStr := getEnv key "" in
  if String.eqb valueStr "" then defaultValue
  else default defaultValue (ParseBool valueStr).

Fixpoint firstNonEmptyEnv (keys : list string) : string :=
  match keys with
  | [] => ""
  | key :: keys' =>
      let value := TrimSpace (getEnv key "") in
      if String.eqb value "" then firstNonEmptyEnv keys' else value
  end.

Definition parseSet (raw : string) : gset string :=
  foldl (fun out part =>
    let item := ToUpper (TrimSpace part) in
    if String.eqb item "" then out else {[item]} ∪ out) ∅ (Split "," raw).

Definition nonempty_trimmed (s : string) : list string :=
  let url := TrimSpace s in if String.eqb url "" then [] else [url].

Definition parseRPCURLs : list string :=
  let raw := firstNonEmptyEnv ["BSC_RPC_URLS"; "RPC_URLS"; "RPC_URL"]%string in
  let urls :=
    ((Split "," raw ≫= nonempty_trimmed) ++
     (["ALCHEMY_BSC_RPC_URL_1"; "ALCHEMY_BSC_RPC_URL_2"; "ALCHEMY_BSC_RPC_URL";
       "ALCHEMY_BSC_FALLBACK_RPC_URL"]%string
        ≫= fun key => nonempty_trimmed (getEnv key "")))%list in
  if bool_decide (urls = []) then ["https://bsc-dataseed.binance.org/"%string] else urls.

Definition LoadSecurityConfig : SecurityConfig := {|
  HMACSecret := firstNonEmptyEnv ["HMAC_SECRET"; "SIGNER_HMAC_SECRET"]%string;
  HMACMaxSkewSec := getEnvAsInt64 "HMAC_MAX_SKEW_SEC" 300;
  HMACOldSecret := getEnv "HMAC_OLD_SECRET" "";
  NonceTTLSeconds := getEnvAsInt64 "NONCE_TTL_SECONDS" 300;
  NonceStoreType := ToLower (TrimSpace (getEnv "NONCE_STORE_TYPE" "memory"));
  RateLimitPerMin := getEnvAsInt "RATE_LIMIT_PER_MIN" 100;
  RateLimitBurst := getEnvAsInt "RATE_LIMIT_BURST" 20;
  RateLimiterType := getEnv "RATE_LIMITER_TYPE" "token_bucket";
  MaxBodySizeMB := getEnvAsInt64 "MAX_BODY_SIZE_MB" 1;
  RequireHMAC := getEnvAsBool "REQUIRE_HMAC" true;
  RequireNonce := getEnvAsBool "REQUIRE_NONCE" true;
  RequireAPIKey := getEnvAsBool "REQUIRE_API_KEY" false;
|}.

Definition LoadSignerConfig : SignerConfig := {|
  AppEnv := ToLower (getEnv "APP_ENV" (getEnv "ENV" "development"));
  Port := getEnv "PORT_SIGNER" (getEnv "PORT" "4010");
  DatabaseURL := getEnv "SIGNER_DATABASE_URL" (getEnv "DATABASE_URL" "");
  RedisURL := getEnv "REDIS_URL" "";
  AllowSimulation := getEnvAsBool "SIGNER_ALLOW_SIMULATION" false;
  DefaultNetwork := ToUpper (getEnv "SIGNER_NETWORK" "BSC");
  AllowedNetworks := parseSet (getEnv "SIGNER_ALLOWED_NETWORKS" "BSC,EVM");
  AllowedTokenContracts := parseSet (getEnv "SIGNER_ALLOWED_TOKEN_CONTRACTS" "");
  AllowedContractCalls :=
    parseSet (getEnv "SIGNER_ALLOWED_CONTRACT_CALL_TARGETS"
                "0xcA11bde05977b3631167028862bE2a173976CA11");
  MaxTransferAmount := getEnvAsFloat "SIGNER_MAX_TRANSFER_AMOUNT" (f_of_Z 10000);
  TokenDecimals := getEnvAsInt "SIGNER_TOKEN_DECIMALS" 18;
  EVMPrivateKey := getEnv "EVM_PRIVATE_KEY" "";
  RPCURL := getEnv "RPC_URL" "https://bsc-dataseed.binance.org/";
  RPCURLs := parseRPCURLs;
  RPCFleet := true;
  BSCUSDTContract := getEnv "BSC_USDT_CONTRACT" (getEnv "BSC_TOKEN_CONTRACT" "");
  BSCTreasuryContract := getEnv "BSC_TREASURY_CONTRACT" "";
  BSCChainID := getEnvAsInt64 "BSC_CHAIN_ID" 56;
  Security := LoadSecurityConfig;
  CustodyGuardEnabled := getEnvAsBool "CUSTODY_GUARD_ENABLED" false;
  CustodyGuardPollMs := getEnvAsInt "CUSTODY_GUARD_POLL_MS" 1500;
  CustodyMode := normalizeCustodyMode (getEnv "CUSTODY_MODE" "paper");
  CustodyUnlockCooldown := getEnvAsInt "CUSTODY_UNLOCK_COOLDOWN_SEC" 900;
  CustodyProtectedRaw := getEnv "CUSTODY_PROTECTED_WALLETS" "";
  CustodyTrustedRaw := getEnv "CUSTODY_TRUSTED_DELEGATES" "";
  CustodySelectorsRaw := getEnv "CUSTODY_ALLOWED_SELECTORS" "";
  TreasuryMinUSDT := getEnvAsFloat "TREASURY_MIN_USDT" fzero;
  TreasuryTargetUSDT := getEnvAsFloat "TREASURY_TARGET_USDT" fzero;
  TreasuryMaxUSDT := getEnvAsFloat "TREASURY_MAX_USDT" fzero;
  TreasuryMaxDailyOut := getEnvAsFloat "TREASURY_MAX_DAILY_OUTFLOW" fzero;
  TreasuryLockThreshold := getEnvAsFloat "TREASURY_LOCKDOWN_THRESHOLD" fzero;
|}.
End Env.

(** ** Getters for the security package *)

Definition GetNonceTTL (c : SignerConfig) : Duration :=
  if NonceTTLSeconds (Security c) <=? 0 then 5 * Minute
  else mul_duration (NonceTTLSeconds (Security c)) Second.

Definition GetRateWindow (c : SignerConfig) : Duration := Minute.

Definition GetRateLimit (c : SignerConfig) : Z :=
  if RateLimitPerMin (Security c) <=? 0 then 100 else RateLimitPerMin (Security c).

Definition GetMaxBodySize (c : SignerConfig) : Z :=
  if MaxBodySizeMB (Security c) <=? 0 then 1024 * 1024
  else i64 (i64 (MaxBodySizeMB (Security c) * 1024) * 1024).

Definition GetRateLimiterType (c : SignerConfig) : string :=
  let t := ToLower (RateLimiterType (Security c)) in
  if bool_decide (t ∈ ["sliding_window"; "sliding"]%string)
  then "sliding_window" else "token_bucket".
End Config.

(** An instance for closed examples: text outside ASCII is left alone. *)
Definition ascii_unicode : GoUnicode := {|
  unicode_to_upper := map_str upper_char;
  unicode_to_lower := map_str lower_char;
  unicode_equal_fold s t := String.eqb (map_str lower_char s) (map_str lower_char t);
  strconv_quote s := String "034" (s +:+ String "034" EmptyString);
|}.
