(* ===== verification/Types.v ===== *)
(** * The data of the service: requests and responses ([main.go]) and what the
    store keeps ([store.go]). *)
From S2P Require Export Geth Config.

Record TransferRequest := {
  tr_To : string;
  tr_Amount : string;
  tr_TokenContract : string;
  tr_Network : string;
  tr_IdempotencyKey : string;
  tr_DerivationIndex : option Z;
}.

Record ContractCallRequest := {
  cc_To : string;
  cc_Data : string;
  cc_Network : string;
  cc_IdempotencyKey : string;
  cc_Amount : string;
  cc_TokenContract : string;
  cc_DerivationIndex : option Z;
}.

Record SettlementExecuteRequest := {
  se_OperationID : string;
  se_SettlementIntentID : string;
  se_OrderID : string;
  se_Side : string;
  se_Network : string;
  se_ChainID : Z;
  se_Vault : string;
  se_Token : string;
  se_Recipient : string;
  se_AmountRaw : string;
  se_SourceChannel : string;
  se_PolicyVersion : string;
  se_NetworkPolicy : string;
  se_RiskPolicy : string;
  se_ContractVersion : string;
  se_AuthorizedAt : string;
  se_ExpiresAt : string;
  se_IdempotencyKey : string;
}.

Definition settlementPolicyVersion : string := "settlement-policy-v1.0.0".

Record TransferResponse := {
  TxHash : string;
  From : string;
  Network : string;
}.

(** [TransferResponse{}] *)
Definition no_response : TransferResponse := {| TxHash := ""; From := ""; Network := "" |}.

(** The values the code puts in a [map[string]any]. *)
Inductive any :=
| AnyString (s : string)
| AnyUint (z : Z)
| AnyFloat (x : f64).

Record CustodyEvent := {
  ev_Kind : string;
  ev_Reason : string;
  ev_Mode : string;
  ev_TxHash : string;
  ev_Wallet : string;
  ev_Data : list (string * any);
}.

Record CustodyIncident := {
  inc_ID : Z;
  inc_Reason : string;
  inc_Mode : string;
  inc_CreatedAt : Time;
}.

Record SignerTransaction := {
  sx_IdempotencyKey : string;
  sx_WalletFrom : string;
  sx_WalletTo : string;
  sx_Token : string;
  sx_Amount : string;
  sx_Network : string;
  sx_Nonce : Z;
  sx_TxHash : string;
  sx_Status : string;
  sx_Reason : string;
  sx_Confirmations : Z;
}.

#[export] Instance TransferResponse_eq_dec : EqDecision TransferResponse.
Proof. solve_decision. Defined.

(** The statuses that count against the daily outflow, and those the lifecycle
    monitor still watches. *)
Definition counts_as_outflow (t : SignerTransaction) : bool :=
  String.eqb (sx_Status t) "submitted" || String.eqb (sx_Status t) "confirmed".
Definition is_open (t : SignerTransaction) : bool :=
  String.eqb (sx_Status t) "submitted" || String.eqb (sx_Status t) "signed".
