(* ===== verification/Policy.v ===== *)
(** * Request policy: [policy.go]. *)
From S2P Require Export Types.

Definition multicall3Aggregate3Selector : string := "82ad56cb".

(** [network == "BSC" || network == "EVM"], the [switch] that ends every
    validator. *)
Definition evm_network (network : string) : bool :=
  String.eqb network "BSC" || String.eqb network "EVM".

Section Policy.
Context `{GoUnicode, Geth}.
Variable cfg : SignerConfig.

Definition requestedNetwork (req : TransferRequest) : string :=
  let network := ToUpper (TrimSpace (tr_Network req)) in
  let network := if String.eqb network "" then DefaultNetwork cfg else network in
  if String.eqb network "BINANCE" || String.eqb network "BEP20" then "BSC"
  else if String.eqb network "ETHEREUM" then "EVM"
  else network.

Definition normalizedTokenContract (req : TransferRequest) (network : string) : string :=
  let token := TrimSpace (tr_TokenContract req) in
  if evm_network network && String.eqb token "" then BSCUSDTContract cfg else token.

(** [err != nil || amount <= 0], then the configured ceiling. *)
Definition check_amount (raw : string) : result unit :=
  match ParseFloat (TrimSpace raw) with
  | None => Err "amount invalido"
  | Some amount =>
      guard_err (fleb amount fzero) "amount invalido" ≫= λ _,
      guard_err (fltb fzero (MaxTransferAmount cfg) && fltb (MaxTransferAmount cfg) amount)
        ("amount acima do limite: " +:+ fmt_f8 amount +:+ " > " +:+
         fmt_f8 (MaxTransferAmount cfg))
  end.

Definition token_not_allowed (token : string) : bool :=
  (0 <? Z.of_nat (size (AllowedTokenContracts cfg)))
  && negb (String.eqb token "")
  && negb (bool_decide (ToUpper token ∈ AllowedTokenContracts cfg)).

Definition validateTransferPolicy (req : TransferRequest) (network : string) : result unit :=
  guard_err (negb (bool_decide (network ∈ AllowedNetworks cfg)))
    ("rede nao permitida: " +:+ network) ≫= λ _,
  check_amount (tr_Amount req) ≫= λ _,
  let token := normalizedTokenContract req network in
  guard_err (token_not_allowed token) "token contract nao permitido" ≫= λ _,
  if evm_network network then
    guard_err (negb (IsHexAddress (tr_To req))) "destinatario EVM invalido" ≫= λ _,
    guard_err (negb (String.eqb token "") && negb (IsHexAddress token))
      "token contract EVM invalido"
  else Err ("rede nao suportada: " +:+ network).

Definition validateContractCallPolicy (req : ContractCallRequest) (network : string) :
    result unit :=
  guard_err (negb (bool_decide (network ∈ AllowedNetworks cfg)))
    ("rede nao permitida: " +:+ network) ≫= λ _,
  guard_err (negb (IsHexAddress (cc_To req))) "contrato EVM invalido" ≫= λ _,
  let to := ToUpper (TrimSpace (cc_To req)) in
  guard_err ((0 <? Z.of_nat (size (AllowedContractCalls cfg)))
             && negb (bool_decide (to ∈ AllowedContractCalls cfg)))
    "contract-call target nao permitido" ≫= λ _,
  let data := TrimPrefix (TrimSpace (cc_Data req)) "0x" in
  guard_err (len data <? 8) "data hex invalido" ≫= λ _,
  guard_err (negb (String.eqb (ToLower (take_str 8 data)) multicall3Aggregate3Selector))
    "contract-call permitido apenas para Multicall3 aggregate3" ≫= λ _,
  (if negb (String.eqb (TrimSpace (cc_Amount req)) "")
   then check_amount (cc_Amount req) else Ok tt) ≫= λ _,
  let token := TrimSpace (cc_TokenContract req) in
  guard_err (token_not_allowed token) "token contract nao permitido" ≫= λ _,
  guard_err (negb (String.eqb token "") && negb (IsHexAddress token))
    "token contract EVM invalido" ≫= λ _,
  if evm_network network then Ok tt else Err ("rede nao suportada: " +:+ network).
End Policy.

(** ** What acceptance means *)

Lemma check_amount_ok cfg raw :
  check_amount cfg raw = Ok tt <->
  exists a, ParseFloat (TrimSpace raw) = Some a /\ fleb a fzero = false /\
    fltb fzero (MaxTransferAmount cfg) && fltb (MaxTransferAmount cfg) a = false.
Proof.
  unfold check_amount. destruct (ParseFloat _) as [a|].
  - rewrite guard_err_bind. split.
    + intros [H1 H2]. exists a. split_and!; [done..|]. by destruct (_ && _).
    + intros (a' & [= <-] & H1 & H2). by rewrite H1, H2.
  - split; [done|]. by intros (? & ? & _).
Qed.

(** The amounts [check_amount] lets through: NaN, or positive and under the
    ceiling. *)
Definition amount_in_policy (cfg : SignerConfig) (a : f64) : Prop :=
  is_nan a = true \/
  fltb fzero a = true /\
  (fltb fzero (MaxTransferAmount cfg) = true -> fleb a (MaxTransferAmount cfg) = true).

Lemma positive_not_nan x : fltb fzero x = true -> is_nan x = false.
Proof. by destruct x. Qed.

Lemma check_amount_bounds cfg raw :
  check_amount cfg raw = Ok tt ->
  exists a, ParseFloat (TrimSpace raw) = Some a /\ amount_in_policy cfg a.
Proof.
  intros (a & Hp & Hpos & Hmax)%check_amount_ok. exists a. split; [done|].
  destruct (is_nan a) eqn:Hn; [by left|right].
  pose proof (fltb_not_fleb fzero a eq_refl Hn) as E. rewrite Hpos in E.
  split; [by destruct (fltb fzero a)|].
  intros HM. rewrite HM in Hmax. simpl in Hmax.
  rewrite (fltb_not_fleb (MaxTransferAmount cfg) a) by auto using positive_not_nan.
  by rewrite Hmax.
Qed.

Lemma check_amount_nan cfg : check_amount cfg "NaN" = Ok tt.
Proof.
  apply check_amount_ok. exists S754_nan. split; [reflexivity|].
  split; [reflexivity|]. by rewrite fltb_nan_r, andb_false_r.
Qed.

Lemma evm_network_cases n :
  evm_network n = true <-> n = "BSC"%string \/ n = "EVM"%string.
Proof.
  unfold evm_network. rewrite orb_true_iff, !String.eqb_eq. done.
Qed.

Section PolicyProps.
Context `{GoUnicode, Geth}.
Implicit Types cfg : SignerConfig.

Lemma token_allowed cfg token :
  token_not_allowed cfg token = false ->
  AllowedTokenContracts cfg <> ∅ ->
  token = ""%string \/ ToUpper token ∈ AllowedTokenContracts cfg.
Proof.
  unfold token_not_allowed. intros Hf Hne.
  assert (0 < Z.of_nat (size (AllowedTokenContracts cfg))) as Hs.
  { assert (size (AllowedTokenContracts cfg) <> 0%nat); [|lia].
    intros E%size_empty_inv. by apply Hne, leibniz_equiv. }
  apply Z.ltb_lt in Hs. rewrite Hs in Hf. simpl in Hf.
  apply andb_false_iff in Hf as [Hf|Hf]; apply negb_false_iff in Hf.
  - left. by apply String.eqb_eq.
  - right. by apply bool_decide_eq_true in Hf.
Qed.

Lemma allowed_token cfg token :
  (AllowedTokenContracts cfg <> ∅ -> token = ""%string \/ ToUpper token ∈ AllowedTokenContracts cfg) ->
  token_not_allowed cfg token = false.
Proof.
  unfold token_not_allowed. intros Hlist. destruct (decide (AllowedTokenContracts cfg = ∅)) as [->|Hne]; [done|].
  destruct (Hlist Hne) as [->|Hin]; [by rewrite andb_false_r|].
  by rewrite (bool_decide_true _ Hin), andb_false_r.
Qed.

Lemma in_policy_accepted cfg raw a :
  ParseFloat (TrimSpace raw) = Some a -> amount_in_policy cfg a -> check_amount cfg raw = Ok tt.
Proof.
  unfold check_amount. intros -> Ha. destruct (is_nan a) eqn:Hn.
  - destruct a; try done. cbn. by rewrite fltb_nan_r, andb_false_r.
  - destruct Ha as [Ha|[Hpos Hmax]]; [by rewrite Ha in Hn|].
    pose proof (fltb_not_fleb fzero a eq_refl Hn) as E. rewrite Hpos in E.
    destruct (fleb a fzero); [done|]. cbn. destruct (fltb fzero (MaxTransferAmount cfg)) eqn:HM; [|done].
    specialize (Hmax eq_refl). rewrite (fltb_not_fleb (MaxTransferAmount cfg) a) in Hmax by auto using positive_not_nan.
    by destruct (fltb (MaxTransferAmount cfg) a).
Qed.

(** C27: the policy accepts a transfer exactly when its network is configured and
    of the EVM kind, its recipient is an address, its token is empty or an address
    and, when there is an allow-list, empty or on it, and its amount is a number
    that is positive and, where a ceiling is set, not above it. One amount is
    neither: the text NaN passes too, for no comparison holds of it. *)
Theorem transfer_policy_sound cfg req network :
  let token := normalizedTokenContract cfg req network in
  validateTransferPolicy cfg req network = Ok tt <->
  network ∈ AllowedNetworks cfg /\
  (network = "BSC"%string \/ network = "EVM"%string) /\
  IsHexAddress (tr_To req) = true /\
  (token = ""%string \/ IsHexAddress token = true) /\
  (AllowedTokenContracts cfg <> ∅ ->
   token = ""%string \/ ToUpper token ∈ AllowedTokenContracts cfg) /\
  exists a, ParseFloat (TrimSpace (tr_Amount req)) = Some a /\ amount_in_policy cfg a.
Proof.
  cbv zeta. unfold validateTransferPolicy. split.
  - intros Hok. apply guard_err_bind in Hok as [Hnet Hok]. unbool.
    apply result_bind_ok in Hok as ([] & Hamt & Hok).
    apply guard_err_bind in Hok as [Htok Hok].
    destruct (evm_network network) eqn:Hevm; [|done].
    apply guard_err_bind in Hok as [Hto Hok]. unbool. unfold guard_err in Hok.
    repeat split; auto using token_allowed, check_amount_bounds; [by apply evm_network_cases|].
    destruct (String.eqb_spec (normalizedTokenContract cfg req network) ""); [by left|].
    right. by destruct (IsHexAddress (normalizedTokenContract _ _ _)).
  - intros (Hnet & Hevm%evm_network_cases & Hto & Htoken & Hlist & a & Ha & Hin).
    rewrite bool_decide_true by done. cbn [negb guard_err mbind result_bind].
    rewrite (in_policy_accepted cfg _ a Ha Hin). cbn [mbind result_bind]. rewrite (allowed_token _ _ Hlist), Hevm, Hto.
    cbn [negb guard_err mbind result_bind]. destruct Htoken as [->| ->]; [done|]. by rewrite andb_false_r.
Qed.

Definition with_amount (amount : string) (req : TransferRequest) : TransferRequest :=
  {| tr_To := tr_To req; tr_Amount := amount; tr_TokenContract := tr_TokenContract req;
     tr_Network := tr_Network req; tr_IdempotencyKey := tr_IdempotencyKey req;
     tr_DerivationIndex := tr_DerivationIndex req |}.

(** The ceiling does not stop NaN: whatever the configured limit, the
    text "NaN" is accepted wherever some amount is. *)
Theorem transfer_policy_accepts_nan cfg req network :
  validateTransferPolicy cfg req network = Ok tt ->
  validateTransferPolicy cfg (with_amount "NaN" req) network = Ok tt.
Proof.
  unfold validateTransferPolicy. intros Hok.
  apply guard_err_bind in Hok as [Hnet Hok].
  apply result_bind_ok in Hok as ([] & _ & Hok).
  rewrite Hnet. cbn [guard_err mbind result_bind with_amount tr_Amount].
  rewrite check_amount_nan. exact Hok.
Qed.
End PolicyProps.

(** ** Examples *)

Definition example_security : SecurityConfig := {|
  HMACSecret := "0123456789abcdef0123456789abcdef"; HMACMaxSkewSec := 300;
  HMACOldSecret := ""; NonceTTLSeconds := 300; NonceStoreType := "memory";
  RateLimitPerMin := 100; RateLimitBurst := 20; RateLimiterType := "token_bucket";
  MaxBodySizeMB := 1; RequireHMAC := true; RequireNonce := true; RequireAPIKey := false |}.

(** The defaults of [LoadSignerConfig], with a token contract and a key. *)
Definition example_config : SignerConfig := {|
  AppEnv := "development"; Port := "4010"; DatabaseURL := ""; RedisURL := "";
  AllowSimulation := false; DefaultNetwork := "BSC";
  AllowedNetworks := {["BSC"%string; "EVM"%string]};
  AllowedTokenContracts := ∅;
  AllowedContractCalls := {["0XCA11BDE05977B3631167028862BE2A173976CA11"%string]};
  MaxTransferAmount := f_of_Z 10000; TokenDecimals := 18;
  EVMPrivateKey := "1111111111111111111111111111111111111111111111111111111111111111";
  RPCURL := "https://bsc-dataseed.binance.org/";
  RPCURLs := ["https://a.example"%string; "https://b.example"%string]; RPCFleet := true;
  BSCUSDTContract := "0x55d398326f99059fF775485246999027B3197955";
  BSCTreasuryContract := "0x1111111111111111111111111111111111111111"; BSCChainID := 56;
  Security := example_security;
  CustodyGuardEnabled := false; CustodyGuardPollMs := 1500; CustodyMode := "paper";
  CustodyUnlockCooldown := 900; CustodyProtectedRaw := ""; CustodyTrustedRaw := "";
  CustodySelectorsRaw := "";
  TreasuryMinUSDT := fzero; TreasuryTargetUSDT := fzero; TreasuryMaxUSDT := fzero;
  TreasuryMaxDailyOut := f_of_Z 100000; TreasuryLockThreshold := f_of_Z 200000 |}.

Definition example_transfer (amount : string) : TransferRequest := {|
  tr_To := "0x829829508824f81d939F8CFFdCac71dE47a808bE"; tr_Amount := amount;
  tr_TokenContract := ""; tr_Network := "bsc"; tr_IdempotencyKey := "buy-1";
  tr_DerivationIndex := None |}.

Lemma transfer_policy_sound_witness :
  let token := @normalizedTokenContract example_config (example_transfer "12.34") "BSC" in
  "BSC"%string ∈ AllowedNetworks example_config /\
  ("BSC"%string = "BSC"%string \/ "BSC"%string = "EVM"%string) /\
  @IsHexAddress ref_geth (tr_To (example_transfer "12.34")) = true /\
  (token = ""%string \/ @IsHexAddress ref_geth token = true) /\
  (AllowedTokenContracts example_config <> ∅ ->
   token = ""%string \/ @ToUpper ascii_unicode token ∈ AllowedTokenContracts example_config) /\
  exists a, ParseFloat (TrimSpace (tr_Amount (example_transfer "12.34"))) = Some a /\
    amount_in_policy example_config a.
Proof.
  apply (proj1 (@transfer_policy_sound ascii_unicode ref_geth example_config
           (example_transfer "12.34") "BSC")).
  vm_compute. reflexivity.
Defined.

Lemma transfer_policy_accepts_nan_witness :
  @validateTransferPolicy ascii_unicode ref_geth example_config
    (with_amount "NaN" (example_transfer "12.34")) "BSC" = Ok tt.
Proof. apply transfer_policy_accepts_nan. vm_compute. reflexivity. Defined.
