(* ===== verification/Units.v ===== *)
(** * Amounts and call data: [parseUnits], [erc20TransferData],
    [settlementOperationID], [vaultPayoutData], [decodeHexData] and the small
    helpers of [main.go]. *)
From S2P Require Export Policy.

(** [for len(fraction) < decimals { fraction += "0" }], [n] turns. *)
Fixpoint pad_zeros (n : nat) (s : string) : string :=
  match n with O => s | S n' => pad_zeros n' (s +:+ "0") end.

Definition parseUnits (value : string) (decimals : Z) : result Z :=
  guard_err ((decimals <? 0) || (30 <? decimals)) "decimais invalidos" ≫= λ _,
  let parts := Split "." (TrimSpace value) in
  let first := default ""%string (parts !! 0%nat) in
  guard_err ((2 <? Z.of_nat (length parts)) || String.eqb first "") "amount invalido" ≫= λ _,
  match big_SetString first with
  | None => Err "amount invalido"
  | Some whole =>
      let whole := whole * 10 ^ decimals in
      match parts !! 1%nat with
      | None => Ok whole
      | Some fraction =>
          let fraction :=
            if decimals <? len fraction then take_str (Z.to_nat decimals) fraction
            else fraction in
          let fraction := pad_zeros (Z.to_nat (decimals - len fraction)) fraction in
          if String.eqb fraction "" then Ok (whole + 0)
          else match big_SetString fraction with
               | None => Err "amount invalido"
               | Some frac => Ok (whole + frac)
               end
      end
  end.

(** [copy(dst[i:j], src)] *)
Definition copy_range (i j : nat) (src dst : bytes) : bytes :=
  let n := Nat.min (j - i) (length src) in
  (take i dst ++ take n src ++ drop (i + n) dst)%list.

(** [None] is the run-time panic of [data[68-len(amountBytes):]] when the
    amount takes more than 68 bytes. *)
Definition erc20TransferData (to : Address) (amount : Z) : option bytes :=
  let selector := default [] (hex_DecodeString "a9059cbb") in
  let data := replicate 68 0 in
  let data := copy_range 0 4 selector data in
  let data := copy_range 16 36 to data in
  let amountBytes := big_Bytes amount in
  if (68 <? length amountBytes)%nat then None
  else Some (copy_range (68 - length amountBytes) 68 amountBytes data).

Definition decodeHexData (value : string) : result bytes :=
  let trimmed := TrimPrefix (TrimSpace value) "0x" in
  guard_err (String.eqb trimmed "" || negb (len trimmed mod 2 =? 0)) "data hex invalido" ≫= λ _,
  match hex_DecodeString trimmed with
  | None => Err "data hex invalido"
  | Some data => Ok data
  end.

Definition shortValue (value : string) : string :=
  if len value <=? 12 then value
  else take_str 6 value +:+ "..." +:+ drop_str (String.length value - 4) value.

Fixpoint firstNonEmptySigner (values : list string) : string :=
  match values with
  | [] => ""
  | value :: values' =>
      if String.eqb (TrimSpace value) "" then firstNonEmptySigner values' else value
  end.

Section Units.
Context `{GoUnicode, Geth}.

Definition settlementOperationID (chainID : Z)
    (vaultAddress settlementIntentID tokenAddress recipientAddress : string)
    (amountRaw : Z) : result Hash :=
  guard_err (chainID <=? 0) "chainId invalido" ≫= λ _,
  guard_err (negb (IsHexAddress vaultAddress)) "vault EVM invalido" ≫= λ _,
  guard_err (negb (IsHexAddress tokenAddress)) "token EVM invalido" ≫= λ _,
  guard_err (negb (IsHexAddress recipientAddress)) "recipient EVM invalido" ≫= λ _,
  guard_err (amountRaw <=? 0) "amountRaw invalido" ≫= λ _,
  abi_NewType "uint256" ≫= λ _,
  abi_NewType "address" ≫= λ _,
  abi_NewType "bytes32" ≫= λ _,
  abi_Pack [AbiUint256 chainID;
            AbiAddress (HexToAddress vaultAddress);
            AbiBytes32 (Keccak256 (bytes_of settlementIntentID));
            AbiAddress (HexToAddress tokenAddress);
            AbiAddress (HexToAddress recipientAddress);
            AbiUint256 amountRaw] ≫= λ encoded,
  Ok (Keccak256 encoded).

Definition vaultPayoutData (operationID : Hash) (token recipient : Address) (amount : Z) :
    result bytes :=
  abi_NewType "bytes32" ≫= λ _,
  abi_NewType "address" ≫= λ _,
  abi_NewType "uint256" ≫= λ _,
  abi_Pack [AbiBytes32 operationID; AbiAddress token; AbiAddress recipient;
            AbiUint256 amount] ≫= λ encoded,
  let selector :=
    take 4 (Keccak256 (bytes_of "payout(bytes32,address,address,uint256)")) in
  Ok (selector ++ encoded)%list.

Definition requestedContractNetwork (cfg : SignerConfig) (req : ContractCallRequest) : string :=
  requestedNetwork cfg
    {| tr_To := ""; tr_Amount := ""; tr_TokenContract := ""; tr_Network := cc_Network req;
       tr_IdempotencyKey := ""; tr_DerivationIndex := None |}.

Definition parseFloatAmount (value : string) : result f64 :=
  let trimmed := TrimSpace value in
  guard_err (String.eqb trimmed "") "amount invalido" ≫= λ _,
  match ParseFloat trimmed with
  | None => Err "amount invalido"
  | Some out => guard_err (fleb out fzero) "amount invalido" ≫= λ _, Ok out
  end.
End Units.

Example parseUnits_tests :
  parseUnits "12.34" 18 = Ok (1234 * 10 ^ 16) /\
  parseUnits " 7 " 6 = Ok (7 * 10 ^ 6) /\
  parseUnits "1.23456789" 6 = Ok 1234567 /\
  parseUnits "5." 2 = Ok 500 /\
  parseUnits ".5" 2 = Err "amount invalido" /\
  parseUnits "1.2.3" 2 = Err "amount invalido" /\
  parseUnits "1e3" 18 = Err "amount invalido" /\
  parseUnits "NaN" 18 = Err "amount invalido" /\
  parseUnits "1" 31 = Err "decimais invalidos".
Proof. vm_compute. repeat split. Qed.

(** ** Exactness of [parseUnits] *)

Lemma pad_zeros_eq n s : pad_zeros n s = s +:+ string_of_bytes (replicate n 48).
Proof.
  revert s. induction n as [|n IH]; intros s; simpl; [by rewrite string_app_nil_r|].
  rewrite IH, <- string_app_assoc. reflexivity.
Qed.

Lemma decimal_split (w f : string) :
  forallb is_digit (bytes_of w) = true -> has_char "." f = false ->
  Forall plain (bytes_of f) ->
  Split "." (TrimSpace (w +:+ "." +:+ f)) = [w; f].
Proof.
  intros Hw Hf Hp. change ("." +:+ f) with (String "." f).
  rewrite TrimSpace_plain.
  - rewrite Split_app, Split_no_sep; auto. by apply digits_no_char.
  - rewrite bytes_of_app. apply Forall_app. split; [by apply digits_plain|].
    constructor; [by vm_compute | done].
Qed.

(** The digits of [whole.fraction] followed by the scale, as one division. *)
Lemma scale_fraction W F n d :
  0 <= F < 10 ^ n -> 0 <= d <= n ->
  (W * 10 ^ n + F) * 10 ^ d / 10 ^ n = W * 10 ^ d + F / 10 ^ (n - d).
Proof.
  intros HF Hd. assert (0 < 10 ^ n) by lia.
  replace ((W * 10 ^ n + F) * 10 ^ d) with (F * 10 ^ d + W * 10 ^ d * 10 ^ n) by ring.
  rewrite Z.div_add by lia.
  replace (10 ^ n) with (10 ^ (n - d) * 10 ^ d) by (rewrite <- Z.pow_add_r by lia; f_equal; lia).
  rewrite Z.div_mul_cancel_r; lia.
Qed.

Lemma digits_value_take n l :
  forallb is_digit l = true -> (n <= length l)%nat ->
  digits_value (take n l) = digits_value l / 10 ^ Z.of_nat (length l - n).
Proof.
  intros Hl Hn. rewrite <- (take_drop n l), forallb_app in Hl. unbool.
  rewrite <- (take_drop n l) at 2. rewrite digits_value_app, length_drop.
  pose proof (digits_value_bounds (drop n l) ltac:(done)) as Hb. rewrite length_drop in Hb.
  rewrite Z.div_add_l, Z.div_small by lia. lia.
Qed.

Lemma string_of_digits l :
  forallb is_digit l = true -> bytes_of (string_of_bytes l) = l.
Proof.
  intros H. apply bytes_of_string_of. eapply Forall_impl; [by apply digits_plain|].
  unfold plain. lia.
Qed.

Lemma zeros_digits n : forallb is_digit (replicate n 48) = true.
Proof. induction n; simpl; auto. Qed.

Lemma bytes_of_zeros n : bytes_of (string_of_bytes (replicate n 48)) = replicate n 48.
Proof. apply string_of_digits, zeros_digits. Qed.

(** [fraction] cut or padded to [d] digits, as bytes. *)
Definition fit_fraction (f : string) (d : Z) : string :=
  let fr := if d <? len f then take_str (Z.to_nat d) f else f in
  pad_zeros (Z.to_nat (d - len fr)) fr.

Lemma fit_fraction_bytes f d :
  0 <= d -> forallb is_digit (bytes_of f) = true ->
  bytes_of (fit_fraction f d) =
    (take (Z.to_nat d) (bytes_of f) ++
     replicate (Z.to_nat d - length (bytes_of f)) 48)%list.
Proof.
  intros Hd Hf. unfold fit_fraction, len.
  assert (bytes_of (if d <? Z.of_nat (String.length f) then take_str (Z.to_nat d) f else f)
          = take (Z.to_nat d) (bytes_of f)) as Efr.
  { rewrite <- length_bytes_of. destruct (Z.ltb_spec d (Z.of_nat (length (bytes_of f)))).
    - unfold take_str. apply string_of_digits.
      rewrite <- (take_drop (Z.to_nat d) (bytes_of f)), forallb_app in Hf. by unbool.
    - rewrite take_ge by lia. done. }
  rewrite pad_zeros_eq, bytes_of_app, Efr. f_equal.
  rewrite bytes_of_zeros.
  f_equal. rewrite <- length_bytes_of, Efr, length_take. lia.
Qed.

Lemma fit_fraction_value f d :
  0 <= d -> forallb is_digit (bytes_of f) = true ->
  digits_value (bytes_of (fit_fraction f d)) =
    digits_value (bytes_of f) * 10 ^ d / 10 ^ Z.of_nat (length (bytes_of f)).
Proof.
  intros Hd Hf. pose proof (digits_value_bounds _ Hf).
  rewrite fit_fraction_bytes, digits_value_app, digits_value_zeros, length_replicate,
    Z.add_0_r by done.
  destruct (decide (Z.to_nat d <= length (bytes_of f))%nat).
  - rewrite digits_value_take by done.
    replace (Z.to_nat d - length (bytes_of f))%nat with 0%nat by lia. rewrite Z.mul_1_r.
    pose proof (scale_fraction 0 (digits_value (bytes_of f))
      (Z.of_nat (length (bytes_of f))) d ltac:(lia) ltac:(lia)) as E.
    rewrite !Z.mul_0_l, !Z.add_0_l in E. rewrite E. do 2 f_equal. lia.
  - rewrite take_ge by lia. apply Z.div_unique_exact; [lia|].
    rewrite Z.mul_assoc, (Z.mul_comm (10 ^ _)), <- Z.mul_assoc, <- Z.pow_add_r by lia.
    do 2 f_equal. lia.
Qed.

Lemma fit_fraction_digits f d :
  0 <= d -> forallb is_digit (bytes_of f) = true ->
  forallb is_digit (bytes_of (fit_fraction f d)) = true.
Proof.
  intros Hd Hf. rewrite fit_fraction_bytes, forallb_app by done.
  apply andb_true_iff. split.
  - rewrite <- (take_drop (Z.to_nat d) (bytes_of f)), forallb_app in Hf. by unbool.
  - apply zeros_digits.
Qed.

Lemma fit_fraction_long f d :
  0 <= d <= len f -> fit_fraction f d = take_str (Z.to_nat d) f.
Proof.
  unfold fit_fraction, len. intros Hd.
  destruct (Z.ltb_spec d (Z.of_nat (String.length f))).
  - rewrite length_take_str. replace (Z.to_nat (d - _)) with 0%nat by lia. done.
  - replace (Z.to_nat (d - _)) with 0%nat by lia. simpl. unfold take_str.
    rewrite take_ge by (rewrite length_bytes_of; lia). by rewrite string_of_bytes_of.
Qed.

(** What [parseUnits] does with a two-part amount. *)
Lemma parseUnits_two_parts w f d :
  0 <= d <= 30 -> all_digits (bytes_of w) = true ->
  Split "." (TrimSpace (w +:+ "." +:+ f)) = [w; f] ->
  parseUnits (w +:+ "." +:+ f) d =
    (if String.eqb (fit_fraction f d) "" then Ok (digits_value (bytes_of w) * 10 ^ d + 0)
     else match big_SetString (fit_fraction f d) with
          | None => Err "amount invalido"
          | Some frac => Ok (digits_value (bytes_of w) * 10 ^ d + frac)
          end).
Proof.
  intros Hd Hw Hs. unfold parseUnits. rewrite Hs.
  replace ((d <? 0) || (30 <? d)) with false by (symmetry; apply orb_false_iff; lia).
  assert (String.eqb w "" = false) as Hne.
  { apply String.eqb_neq. intros ->. done. }
  cbn -[Z.pow fit_fraction big_SetString]. rewrite Hne. cbn -[Z.pow fit_fraction big_SetString].
  rewrite (big_SetString_digits w Hw). reflexivity.
Qed.

(** C33: on a plain decimal amount [parseUnits] is exact: the integer it returns
    is the decimal value scaled by [10^decimals] and rounded down. *)
Theorem parseUnits_floor (w f : string) (d : Z) :
  0 <= d <= 30 ->
  all_digits (bytes_of w) = true -> forallb is_digit (bytes_of f) = true ->
  parseUnits (w +:+ "." +:+ f) d =
    Ok (digits_value (bytes_of w ++ bytes_of f) * 10 ^ d
        / 10 ^ Z.of_nat (length (bytes_of f))).
Proof.
  intros Hd Hw Hf. pose proof Hw as Hw'. unfold all_digits in Hw'. unbool.
  rewrite parseUnits_two_parts; auto.
  2: { apply decimal_split; auto using digits_plain. by apply digits_no_char. }
  rewrite digits_value_app, Z.mul_add_distr_r.
  rewrite <- Z.mul_assoc, (Z.mul_comm (10 ^ Z.of_nat _) (10 ^ d)), Z.mul_assoc.
  rewrite Z.div_add_l by lia. rewrite <- fit_fraction_value by (lia || done).
  destruct (String.eqb_spec (fit_fraction f d) "") as [->|Hne].
  - reflexivity.
  - rewrite big_SetString_digits; [done|]. unfold all_digits.
    rewrite fit_fraction_digits by (lia || done). simpl.
    apply negb_true_iff, bool_decide_eq_false. intros E. by apply Hne, bytes_of_inj.
Qed.

Lemma parseUnits_floor_witness :
  parseUnits ("12" +:+ "." +:+ "345") 2 = Ok (12345 * 10 ^ 2 / 10 ^ 3).
Proof. apply (parseUnits_floor "12" "345" 2); [lia | reflexivity..]. Defined.

(** Once [decimals] digits of the fraction have been read, the rest of the
    amount is never looked at: with any printable tail, an exponent included,
    the whole part is transferred at full scale. *)
Theorem parseUnits_ignores_tail (w tail : string) (d : Z) :
  0 <= d <= 30 ->
  all_digits (bytes_of w) = true ->
  Forall plain (bytes_of tail) -> has_char "." tail = false ->
  parseUnits (w +:+ "." +:+ (string_of_bytes (replicate (Z.to_nat d) 48) +:+ tail)) d =
    Ok (digits_value (bytes_of w) * 10 ^ d).
Proof.
  intros Hd Hw Ht Hdot. pose proof Hw as Hw'. unfold all_digits in Hw'. unbool.
  rewrite parseUnits_two_parts; auto.
  2: { apply decimal_split; auto.
       - rewrite has_char_app, Hdot, orb_false_r.
         apply digits_no_char; [done|]. rewrite bytes_of_zeros. apply zeros_digits.
       - rewrite bytes_of_app, bytes_of_zeros. apply Forall_app. split; [|done].
         apply digits_plain, zeros_digits. }
  set (f := string_of_bytes (replicate (Z.to_nat d) 48) +:+ tail).
  assert (bytes_of f = replicate (Z.to_nat d) 48 ++ bytes_of tail)%list as Ef
    by (unfold f; by rewrite bytes_of_app, bytes_of_zeros).
  assert (fit_fraction f d = string_of_bytes (replicate (Z.to_nat d) 48)) as ->.
  { rewrite fit_fraction_long.
    - unfold take_str. by rewrite Ef, take_app_length' by (by rewrite length_replicate).
    - unfold len. rewrite <- length_bytes_of, Ef, length_app, length_replicate. lia. }
  destruct (Z.to_nat d) as [|n] eqn:En; [by rewrite Z.add_0_r|].
  rewrite <- En. replace (String.eqb _ "") with false by (by rewrite En).
  rewrite big_SetString_digits; rewrite bytes_of_zeros.
  - rewrite digits_value_zeros. by rewrite Z.add_0_r.
  - unfold all_digits. rewrite zeros_digits, En. done.
Qed.

(** A million tokens, written so that [ParseFloat] reads [1]. *)
Lemma parseUnits_ignores_tail_witness :
  parseUnits "1000000.000000000000000000e-6" 18 = Ok (10 ^ 24) /\
  ParseFloat "1000000.000000000000000000e-6" = Some (f_of_Z 1).
Proof.
  split; [|vm_compute; reflexivity].
  apply (parseUnits_ignores_tail "1000000" "e-6" 18); [lia|reflexivity| |reflexivity].
  vm_compute. repeat constructor; discriminate.
Defined.

(** ** The ERC-20 call data *)

Lemma length_copy_range i j src dst :
  (i <= j <= length dst)%nat -> length (copy_range i j src dst) = length dst.
Proof.
  intros ?. unfold copy_range. rewrite !length_app, !length_take, length_drop. lia.
Qed.

Definition erc20_head (to : Address) : bytes := ([169; 5; 156; 187] ++ replicate 12 0 ++ to)%list.

(** Inside a [uint256] the call data is the ABI encoding of
    [transfer(to, amount)]; beyond it, the amount's high bytes run over the
    recipient and then the selector. *)
Lemma erc20_data_bytes to amount :
  length to = 20%nat -> (byte_count amount <= 68)%nat ->
  erc20TransferData to amount =
    Some (take (68 - byte_count amount) (erc20_head to ++ replicate 32 0)
          ++ big_Bytes amount)%list.
Proof.
  intros Hto Hn. unfold erc20TransferData.
  assert (copy_range 16 36 to (copy_range 0 4 (default [] (hex_DecodeString "a9059cbb"))
            (replicate 68 0)) = erc20_head to ++ replicate 32 0)%list as ->.
  { do 20 (destruct to as [|? to]; [discriminate|]). destruct to; [reflexivity|discriminate]. }
  assert (length (big_Bytes amount) = byte_count amount) as Hl
    by (unfold big_Bytes; apply length_be_bytes).
  rewrite Hl. destruct (Nat.ltb_spec 68 (byte_count amount)); [lia|].
  unfold copy_range. rewrite Hl. f_equal. f_equal.
  rewrite Nat.min_r by lia. rewrite take_ge by lia.
  rewrite drop_ge, app_nil_r; [done|].
  unfold erc20_head. rewrite !length_app, !length_replicate, Hto. simpl. lia.
Qed.

(** For an amount that fits in 256 bits the call data is the selector, the
    recipient left-padded to 32 bytes and the amount as a 32-byte word, and it
    decodes back to the recipient and the amount. *)
Theorem erc20_layout (to : Address) (amount : Z) :
  length to = 20%nat -> 0 <= amount < 2 ^ 256 ->
  exists data,
    erc20TransferData to amount = Some data /\
    length data = 68%nat /\
    take 4 data = [169; 5; 156; 187] /\
    take 20 (drop 16 data) = to /\
    be_value (drop 36 data) = amount.
Proof.
  intros Hto Ha. pose proof (byte_count_le amount 32 ltac:(lia)) as Hn.
  rewrite erc20_data_bytes by lia. eexists; split; [done|].
  assert (take (68 - byte_count amount) (erc20_head to ++ replicate 32 0) ++ big_Bytes amount
          = erc20_head to ++ be_bytes 32 amount)%list as ->.
  { assert (length (erc20_head to) = 36%nat) as Hh
      by (unfold erc20_head; rewrite !length_app, length_replicate, Hto; done).
    rewrite take_app_ge by lia. rewrite Hh, <- app_assoc. f_equal.
    rewrite take_replicate. replace (68 - byte_count amount - 36)%nat
      with (32 - byte_count amount)%nat by lia. rewrite Nat.min_l by lia.
    unfold big_Bytes. rewrite Z.abs_eq by lia.
    rewrite <- be_bytes_pad by (pose proof (byte_count_bound amount); lia).
    f_equal. lia. }
  do 20 (destruct to as [|? to]; [discriminate|]). destruct to; [|discriminate].
  split; [by rewrite length_app, length_be_bytes|].
  split; [done|]. split; [done|]. cbn [erc20_head app replicate drop].
  rewrite drop_0, be_value_bytes. apply Z.mod_small. lia.
Qed.

Lemma erc20_layout_witness :
  exists data,
    erc20TransferData (replicate 20 7) 1000 = Some data /\
    length data = 68%nat /\
    take 4 data = [169; 5; 156; 187] /\
    take 20 (drop 16 data) = replicate 20 7 /\
    be_value (drop 36 data) = 1000.
Proof. apply (erc20_layout (replicate 20 7) 1000); [reflexivity | lia]. Defined.

(** An amount above [2^256] is not rejected: its bytes run over the
    recipient field, whose last byte becomes the 33rd byte of the amount. *)
Theorem erc20_overflow_rewrites_recipient (to : Address) (amount : Z) :
  length to = 20%nat -> 2 ^ 256 <= amount < 2 ^ 544 ->
  exists data,
    erc20TransferData to amount = Some data /\
    length data = 68%nat /\
    be_value (drop 35 data) = amount mod 2 ^ 264.
Proof.
  intros Hto Ha. pose proof (byte_count_le amount 68 ltac:(lia)) as Hn.
  assert (33 <= byte_count amount)%nat as Hlow.
  { destruct (decide (byte_count amount <= 32)%nat); [|lia].
    pose proof (byte_count_bound amount) as Hb.
    assert (2 ^ (8 * Z.of_nat (byte_count amount)) <= 2 ^ 256)
      by (apply Z.pow_le_mono_r; lia). lia. }
  assert (length (big_Bytes amount) = byte_count amount) as Hl
    by (unfold big_Bytes; apply length_be_bytes).
  rewrite erc20_data_bytes by lia. eexists; split; [done|]. split.
  - unfold erc20_head. rewrite length_app, length_take, !length_app, !length_replicate, Hl, Hto.
    simpl. lia.
  - rewrite drop_app_ge by (rewrite length_take; lia).
    assert (length (take (68 - byte_count amount) (erc20_head to ++ replicate 32 0)%list)
            = (68 - byte_count amount)%nat) as ->.
    { unfold erc20_head. rewrite length_take, !length_app, !length_replicate, Hto. simpl. lia. }
    replace (35 - (68 - byte_count amount))%nat with (byte_count amount - 33)%nat by lia.
    rewrite <- (Z.abs_eq amount) at 3 by lia. unfold big_Bytes.
    by rewrite be_value_drop by lia.
Qed.

(** The recipient [0x0707..07] is replaced by [0x07..0702]. *)
Lemma erc20_overflow_witness :
  (exists data,
    erc20TransferData (replicate 20 7) (2 ^ 257) = Some data /\
    length data = 68%nat /\
    be_value (drop 35 data) = 2 ^ 257 mod 2 ^ 264) /\
  option_map (fun d => take 20 (drop 16 d)) (erc20TransferData (replicate 20 7) (2 ^ 257))
    = Some (replicate 19 7 ++ [2])%list.
Proof.
  split; [|vm_compute; reflexivity].
  apply (erc20_overflow_rewrites_recipient (replicate 20 7)); [reflexivity | lia].
Defined.
