(* ===== verification/Hmac.v ===== *)
(** * Request signatures: [internal/security/hmac.go] and [hmac_compat.go].

    Bodies are Go byte slices, kept as strings of bytes. [now] is
    [time.Now().Unix()] where the code reads the clock. *)
From S2P Require Export Sha256 Config.

Record HMACValidator := { activeSecret : string; oldSecret : string; maxSkew : Z }.

Definition NewHMACValidator (active : string) (skew : Z) : HMACValidator :=
  {| activeSecret := active; oldSecret := ""; maxSkew := skew |}.

Definition SetOldSecret (old : string) (h : HMACValidator) : HMACValidator :=
  {| activeSecret := activeSecret h; oldSecret := old; maxSkew := maxSkew h |}.

Definition RotateSecret (new : string) (h : HMACValidator) : HMACValidator :=
  {| activeSecret := new; oldSecret := activeSecret h; maxSkew := maxSkew h |}.

(** [hex.EncodeToString(sha256.Sum256(body))] *)
Definition body_hash (body : string) : string := hex_EncodeToString (sha256 (bytes_of body)).

(** [fmt.Sprintf("%s.%s.%s", ..)] *)
Definition signatureRaw (tsStr nonce last : string) : string :=
  tsStr +:+ ("." +:+ (nonce +:+ ("." +:+ last))).

Definition mac_hex (secret payload : string) : string :=
  hex_EncodeToString (hmac_sha256 (bytes_of secret) (bytes_of payload)).

Definition GenerateHMAC (secret tsStr nonce body : string) : string :=
  mac_hex secret (signatureRaw tsStr nonce (body_hash body)).

Definition GenerateRawBodyHMAC (secret tsStr nonce body : string) : string :=
  mac_hex secret (signatureRaw tsStr nonce body).

Definition CanonicalRequest (method path body : string) : string :=
  method +:+ (" " +:+ (path +:+ (" " +:+ body_hash body))).

Definition validateWithSecret (secret tsStr nonce bodyHashHex hmacHeader : string) : bool :=
  String.eqb hmacHeader (mac_hex secret (signatureRaw tsStr nonce bodyHashHex)).

Definition validateRawWithSecret (secret tsStr nonce body hmacHeader : string) : bool :=
  String.eqb hmacHeader (mac_hex secret (signatureRaw tsStr nonce body)).

Section Hmac.
Context `{GoUnicode}.

(** The subtraction and the negation are on [int64]. *)
Definition skew (now ts : Z) : Z :=
  let diff := i64 (now - ts) in if diff <? 0 then i64 (- diff) else diff.

Definition validateTimestampInputs (now : Z) (tsStr nonce hmacHeader : string)
    (h : HMACValidator) : result unit :=
  guard_err (String.eqb (activeSecret h) "" || String.eqb hmacHeader ""
             || String.eqb tsStr "" || String.eqb nonce "")
    "credenciais de assinatura ausentes" ≫= λ _,
  match ParseInt64 tsStr with
  | (_, Some e) => Err ("timestamp invalido: " +:+ num_error_text "ParseInt" tsStr e)
  | (ts, None) =>
      guard_err (maxSkew h <? skew now ts)
        ("requisicao expirada (timestamp skew: " +:+ (itoa (skew now ts) +:+ " segundos)"))
  end.

Definition ValidateHMAC (now : Z) (tsStr nonce hmacHeader body : string)
    (h : HMACValidator) : result unit :=
  validateTimestampInputs now tsStr nonce hmacHeader h ≫= λ _,
  let bodyHashHex := body_hash body in
  if validateWithSecret (activeSecret h) tsStr nonce bodyHashHex hmacHeader then Ok tt
  else if negb (String.eqb (oldSecret h) "")
          && validateWithSecret (oldSecret h) tsStr nonce bodyHashHex hmacHeader then Ok tt
  else Err "assinatura HMAC invalida".

Definition ValidateRawBodyHMAC (now : Z) (tsStr nonce hmacHeader body : string)
    (h : HMACValidator) : result unit :=
  validateTimestampInputs now tsStr nonce hmacHeader h ≫= λ _,
  if validateRawWithSecret (activeSecret h) tsStr nonce body hmacHeader then Ok tt
  else if negb (String.eqb (oldSecret h) "")
          && validateRawWithSecret (oldSecret h) tsStr nonce body hmacHeader then Ok tt
  else Err "assinatura HMAC invalida".

(** [hmac_compat.go]: a validator made for one call. *)
Definition validateHMAC (now : Z) (secret : string) (maxSkew : Z)
    (tsStr nonce hmacHeader body : string) : result unit :=
  ValidateRawBodyHMAC now tsStr nonce hmacHeader body (NewHMACValidator secret maxSkew).

Definition ValidateHMACWrapper (now : Z) (secret : string) (maxSkew : Z)
    (tsStr nonce hmacHeader body : string) : result unit :=
  ValidateRawBodyHMAC now tsStr nonce hmacHeader body (NewHMACValidator secret maxSkew).

(** The headers [SignRawBodyHeaders] sets; [nonce] is what [GenerateNonce] drew. *)
Definition SignRawBodyHeaders (now : Z) (nonce secret body : string) : list (string * string) :=
  let ts := itoa now in
  [("X-Ts", ts); ("X-Nonce", nonce);
   ("X-Signer-Hmac", GenerateRawBodyHMAC secret ts nonce body)]%string.

(** ** Lemmas *)

(** A timestamp that is present, parses, and is within the skew. *)
Definition timely (now : Z) (tsStr nonce hmacHeader : string) (h : HMACValidator) : Prop :=
  activeSecret h <> ""%string /\ hmacHeader <> ""%string /\ nonce <> ""%string /\
  exists ts, ParseInt64 tsStr = (ts, None) /\ skew now ts <= maxSkew h.

Lemma ParseInt64_empty : ParseInt64 "" = (0, Some ErrSyntax).
Proof. reflexivity. Qed.

Lemma validateTimestampInputs_ok now tsStr nonce hmacHeader h :
  validateTimestampInputs now tsStr nonce hmacHeader h = Ok tt <->
  timely now tsStr nonce hmacHeader h.
Proof.
  unfold validateTimestampInputs, timely. rewrite guard_err_bind, !orb_false_iff, !String.eqb_neq.
  destruct (ParseInt64 tsStr) as [ts [e|]] eqn:Hts.
  - split; [by intros [_ ?]|]. by intros (_ & _ & _ & ? & ? & _).
  - unfold guard_err. destruct (Z.ltb_spec (maxSkew h) (skew now ts)).
    + split; [by intros [_ ?]|]. intros (_ & _ & _ & ? & [= <-] & ?). lia.
    + split; [naive_solver|]. intros (? & ? & ? & _). split; [|done]. repeat split; try done.
      intros ->. by rewrite ParseInt64_empty in Hts.
Qed.

(** Away from the ends of [int64] the skew is the distance. *)
Lemma skew_abs now ts : min_i64 < now - ts <= max_i64 -> skew now ts = Z.abs (now - ts).
Proof.
  intros Hr. unfold skew. rewrite i64_small by lia.
  destruct (Z.ltb_spec (now - ts) 0); [rewrite i64_small by (unfold min_i64, max_i64 in *; lia)|]; lia.
Qed.

Lemma ParseInt64_range s ts : ParseInt64 s = (ts, None) -> min_i64 <= ts <= max_i64.
Proof.
  unfold ParseInt64, min_i64, max_i64. repeat case_match; intros [= <-]; unbool; lia.
Qed.

(** The signatures the validator takes: under the active secret, or the old one
    when there is one. *)
Definition signed_by (sign : string -> string) (hmacHeader : string) (h : HMACValidator) : Prop :=
  hmacHeader = sign (activeSecret h) \/
  (oldSecret h <> ""%string /\ hmacHeader = sign (oldSecret h)).

Lemma secret_check sign hmacHeader h :
  ((if String.eqb hmacHeader (sign (activeSecret h)) then Ok tt
    else if negb (String.eqb (oldSecret h) "") && String.eqb hmacHeader (sign (oldSecret h))
    then Ok tt else Err "assinatura HMAC invalida") = Ok tt) <-> signed_by sign hmacHeader h.
Proof.
  unfold signed_by. destruct (String.eqb_spec hmacHeader (sign (activeSecret h))) as [->|Ha].
  - split; [by left|done].
  - destruct (String.eqb_spec (oldSecret h) "") as [->|Ho];
      destruct (String.eqb_spec hmacHeader (sign (oldSecret h))); cbn; naive_solver.
Qed.

Lemma ValidateHMAC_ok now tsStr nonce hmacHeader body h :
  ValidateHMAC now tsStr nonce hmacHeader body h = Ok tt <->
  timely now tsStr nonce hmacHeader h /\
  signed_by (fun s => GenerateHMAC s tsStr nonce body) hmacHeader h.
Proof.
  unfold ValidateHMAC. rewrite result_bind_ok, <- validateTimestampInputs_ok, <- secret_check.
  split; [intros ([] & ? & ?)|intros [? ?]; exists tt]; done.
Qed.

Lemma ValidateRawBodyHMAC_ok now tsStr nonce hmacHeader body h :
  ValidateRawBodyHMAC now tsStr nonce hmacHeader body h = Ok tt <->
  timely now tsStr nonce hmacHeader h /\
  signed_by (fun s => GenerateRawBodyHMAC s tsStr nonce body) hmacHeader h.
Proof.
  unfold ValidateRawBodyHMAC.
  rewrite result_bind_ok, <- validateTimestampInputs_ok, <- secret_check.
  split; [intros ([] & ? & ?)|intros [? ?]; exists tt]; done.
Qed.

Lemma mac_hex_nonempty secret payload : mac_hex secret payload <> ""%string.
Proof.
  intros He. apply (f_equal String.length) in He. unfold mac_hex, hmac_sha256 in He.
  rewrite length_hex_encode, sha256_length in He. done.
Qed.
End Hmac.

(** ** Theorems *)

(** C34: what a client signs with either signing function, the validator accepts
    while the clocks are within [maxSkew] seconds, also after the secret has
    been rotated once. *)
Theorem hmac_sign_validate `{GoUnicode} (t now : Z) (nonce secret new body : string) (k : Z) :
  0 <= t <= max_i64 -> 0 <= now <= max_i64 -> Z.abs (now - t) <= k ->
  secret <> ""%string -> new <> ""%string -> nonce <> ""%string ->
  forall h, In h [NewHMACValidator secret k; RotateSecret new (NewHMACValidator secret k)] ->
  ValidateHMAC now (itoa t) nonce (GenerateHMAC secret (itoa t) nonce body) body h = Ok tt /\
  ValidateRawBodyHMAC now (itoa t) nonce (GenerateRawBodyHMAC secret (itoa t) nonce body)
    body h = Ok tt.
Proof.
  intros Ht Hnow Hk Hs Hn Hnonce h Hh.
  assert (forall payload, timely now (itoa t) nonce (mac_hex secret payload) h) as Htimely.
  { intros payload. split; [|split; [apply mac_hex_nonempty|split; [done|]]].
    - by destruct Hh as [<-|[<-|[]]].
    - exists t. split; [apply ParseInt64_itoa; unfold min_i64; lia|].
      rewrite skew_abs by (unfold min_i64, max_i64 in *; lia).
      by destruct Hh as [<-|[<-|[]]]. }
  assert (forall sign, signed_by sign (sign secret) h) as Hsigned
    by (intros sign; destruct Hh as [<-|[<-|[]]]; [by left|by right]).
  split.
  - apply ValidateHMAC_ok. split; [unfold GenerateHMAC; apply Htimely|].
    exact (Hsigned (fun s => GenerateHMAC s (itoa t) nonce body)).
  - apply ValidateRawBodyHMAC_ok. split; [unfold GenerateRawBodyHMAC; apply Htimely|].
    exact (Hsigned (fun s => GenerateRawBodyHMAC s (itoa t) nonce body)).
Qed.

Lemma hmac_sign_validate_witness :
  @ValidateHMAC ascii_unicode 1700000100 (itoa 1700000000) "n1"
    (GenerateHMAC "k1" (itoa 1700000000) "n1" "{}") "{}"
    (RotateSecret "k2" (NewHMACValidator "k1" 300)) = Ok tt.
Proof.
  refine (proj1 (@hmac_sign_validate ascii_unicode 1700000000 1700000100 "n1" "k1" "k2" "{}" 300
                   _ _ _ _ _ _ _ (or_intror (or_introl eq_refl))));
    first [discriminate|unfold max_i64; lia].
Defined.

(** The payload of the hashed mode determines its parts. *)
Lemma signatureRaw_inj ts1 ts2 n1 n2 b1 b2 :
  has_char "." ts1 = false -> has_char "." ts2 = false ->
  String.length b1 = String.length b2 ->
  signatureRaw ts1 n1 b1 = signatureRaw ts2 n2 b2 -> ts1 = ts2 /\ n1 = n2 /\ b1 = b2.
Proof.
  intros H1 H2 Hlen. unfold signatureRaw.
  change ("." +:+ (n1 +:+ ("." +:+ b1))) with (String "." (n1 +:+ String "." b1)).
  change ("." +:+ (n2 +:+ ("." +:+ b2))) with (String "." (n2 +:+ String "." b2)).
  intros [-> E]%first_sep_inj; try done.
  apply suffix_length_inj in E as [-> E]; [|cbn; lia]. by injection E as ->.
Qed.

(** In the hashed mode a signature binds the timestamp, the nonce and the
    hash of the body. If two requests are accepted and the code authenticated
    the same payload for both, they agree on all three, dots in the nonce
    included. *)
Theorem hashed_payload_binds `{GoUnicode} now1 now2 ts1 ts2 n1 n2 hdr1 hdr2 body1 body2 h :
  ValidateHMAC now1 ts1 n1 hdr1 body1 h = Ok tt ->
  ValidateHMAC now2 ts2 n2 hdr2 body2 h = Ok tt ->
  signatureRaw ts1 n1 (body_hash body1) = signatureRaw ts2 n2 (body_hash body2) ->
  ts1 = ts2 /\ n1 = n2 /\ body_hash body1 = body_hash body2.
Proof.
  intros [(_ & _ & _ & z1 & Hz1 & _) _]%ValidateHMAC_ok
         [(_ & _ & _ & z2 & Hz2 & _) _]%ValidateHMAC_ok.
  apply signatureRaw_inj; [by eapply ParseInt64_no_dot..|].
  unfold body_hash. by rewrite !length_hex_encode, !sha256_length.
Qed.

Lemma hashed_payload_binds_witness :
  let hdr := GenerateHMAC "k1" "1700000000" "a.b" "{}" in
  @ValidateHMAC ascii_unicode 1700000100 "1700000000" "a.b" hdr "{}" (NewHMACValidator "k1" 300)
    = Ok tt /\
  ("1700000000" = "1700000000" /\ "a.b" = "a.b" /\ body_hash "{}" = body_hash "{}")%string.
Proof.
  assert (@ValidateHMAC ascii_unicode 1700000100 "1700000000" "a.b"
            (GenerateHMAC "k1" "1700000000" "a.b" "{}") "{}" (NewHMACValidator "k1" 300) = Ok tt)
    as Hok by (vm_compute; reflexivity).
  split; [exact Hok|]. exact (hashed_payload_binds _ _ _ _ _ _ _ _ _ _ _ Hok Hok eq_refl).
Defined.

(** In the raw mode, the one the service itself signs with, the dot between
    nonce and body is not bound. From a signed body that contains a dot anyone
    makes a second request, with a longer nonce and the rest of the body, that
    carries the same signature and is accepted as well. *)
Theorem raw_payload_ambiguous `{GoUnicode} now ts n p q hdr h :
  ValidateRawBodyHMAC now ts n hdr (p +:+ ("." +:+ q)) h = Ok tt ->
  ValidateRawBodyHMAC now ts (n +:+ ("." +:+ p)) hdr q h = Ok tt.
Proof.
  rewrite !ValidateRawBodyHMAC_ok. unfold GenerateRawBodyHMAC, signatureRaw, timely.
  intros [(? & ? & ? & ?) Hsig]. rewrite <- !string_app_assoc. split; [|done].
  split; [done|]. split; [done|]. split; [|done]. by destruct n.
Qed.

Lemma raw_payload_ambiguous_witness :
  @ValidateRawBodyHMAC ascii_unicode 1700000100 "1700000000" "n1.12"
    (GenerateRawBodyHMAC "k1" "1700000000" "n1" "12.34") "34" (NewHMACValidator "k1" 300) = Ok tt.
Proof.
  apply (@raw_payload_ambiguous ascii_unicode _ _ "n1" "12" "34"). vm_compute. reflexivity.
Defined.

(** The skew test wraps. A timestamp [2^63] seconds in the past has the skew
    [-2^63], which is below every [maxSkew]: such a signed request never
    expires. *)
Theorem skew_overflow `{GoUnicode} now nonce secret body k :
  0 <= now <= max_i64 -> 0 <= k -> secret <> ""%string -> nonce <> ""%string ->
  let ts := itoa (now - 2 ^ 63) in
  ValidateHMAC now ts nonce (GenerateHMAC secret ts nonce body) body (NewHMACValidator secret k)
    = Ok tt.
Proof.
  intros Hnow Hk Hs Hn ts. apply ValidateHMAC_ok. split; [|by left].
  split; [done|]. split; [apply mac_hex_nonempty|]. split; [done|].
  exists (now - 2 ^ 63). split; [apply ParseInt64_itoa; unfold min_i64, max_i64 in *; lia|].
  unfold skew. replace (now - (now - 2 ^ 63)) with (2 ^ 63) by lia.
  change (i64 (2 ^ 63)) with (- 2 ^ 63). change (i64 (- - 2 ^ 63)) with (- 2 ^ 63).
  change (- 2 ^ 63 <? 0) with true. cbn [maxSkew NewHMACValidator]. lia.
Qed.

Lemma skew_overflow_witness :
  let ts := itoa (1700000000 - 2 ^ 63) in
  @ValidateHMAC ascii_unicode 1700000000 ts "n" (GenerateHMAC "k" ts "n" "{}") "{}"
    (NewHMACValidator "k" 300) = Ok tt.
Proof.
  apply (@skew_overflow ascii_unicode 1700000000 "n" "k" "{}" 300);
    [unfold max_i64; lia|lia|discriminate|discriminate].
Defined.
