(* ===== verification/Fleet.v ===== *)
(** * The RPC fleet: [rpc_fleet.go].

    Endpoints are kept in a list; a scored candidate holds the position of its
    endpoint, as the code holds a pointer. Each method takes the reading of the
    clock it starts with; [None] is a run-time panic. The operations are those
    of one goroutine; the mutexes are per endpoint, so others come between the steps
    of [sendCandidates]: [FleetSteps] takes it apart. *)
From S2P Require Export Config.

Inductive rpcFailureKind :=
| rpcFailureRemote
| rpcFailureTimeout
| rpcFailureRateLimited
| rpcFailureCapacityExhausted
| rpcFailureTransport.

Record rpcReservation := { rs_at : Time; rs_units : Z }.

Record rpcEndpointState := {
  failures : Z;
  timeoutFailures : Z;
  rateLimitFailures : Z;
  disabled : bool;
  disabledReason : string;
  cooldownUntil : Time;
  avgLatency : Duration;
  lastFailureDecay : Time;
  recentReservations : list rpcReservation;
  lastSelectedAt : Time;
}.

Record rpcEndpoint := { ep_id : Z; ep_name : string; ep_url : string; ep_state : rpcEndpointState }.
Record rpcFleet := { endpoints : list rpcEndpoint; rotation : Z }.
Record rpcHandle := { h_id : Z; h_name : string; h_url : string }.

Definition rpcBurstWindow : Duration := 1200 * Millisecond.
Definition rpcFailureDecay : Duration := 20 * Second.
Definition rpcBurstCapacity : Z := 18.
Definition rpcSendBurstCost : Z := 7.

(** ** Field updates *)

Definition set_state (st : rpcEndpointState) (ep : rpcEndpoint) : rpcEndpoint :=
  {| ep_id := ep_id ep; ep_name := ep_name ep; ep_url := ep_url ep; ep_state := st |}.
Definition set_counts (f t r : Z) (st : rpcEndpointState) : rpcEndpointState := {|
  failures := f; timeoutFailures := t; rateLimitFailures := r; disabled := disabled st;
  disabledReason := disabledReason st; cooldownUntil := cooldownUntil st;
  avgLatency := avgLatency st; lastFailureDecay := lastFailureDecay st;
  recentReservations := recentReservations st; lastSelectedAt := lastSelectedAt st |}.
Definition set_disabled (reason : string) (st : rpcEndpointState) : rpcEndpointState := {|
  failures := failures st; timeoutFailures := timeoutFailures st;
  rateLimitFailures := rateLimitFailures st; disabled := true;
  disabledReason := reason; cooldownUntil := cooldownUntil st;
  avgLatency := avgLatency st; lastFailureDecay := lastFailureDecay st;
  recentReservations := recentReservations st; lastSelectedAt := lastSelectedAt st |}.
Definition set_cooldown (t : Time) (st : rpcEndpointState) : rpcEndpointState := {|
  failures := failures st; timeoutFailures := timeoutFailures st;
  rateLimitFailures := rateLimitFailures st; disabled := disabled st;
  disabledReason := disabledReason st; cooldownUntil := t;
  avgLatency := avgLatency st; lastFailureDecay := lastFailureDecay st;
  recentReservations := recentReservations st; lastSelectedAt := lastSelectedAt st |}.
Definition set_latency (d : Duration) (st : rpcEndpointState) : rpcEndpointState := {|
  failures := failures st; timeoutFailures := timeoutFailures st;
  rateLimitFailures := rateLimitFailures st; disabled := disabled st;
  disabledReason := disabledReason st; cooldownUntil := cooldownUntil st;
  avgLatency := d; lastFailureDecay := lastFailureDecay st;
  recentReservations := recentReservations st; lastSelectedAt := lastSelectedAt st |}.
Definition set_decay (t : Time) (st : rpcEndpointState) : rpcEndpointState := {|
  failures := failures st; timeoutFailures := timeoutFailures st;
  rateLimitFailures := rateLimitFailures st; disabled := disabled st;
  disabledReason := disabledReason st; cooldownUntil := cooldownUntil st;
  avgLatency := avgLatency st; lastFailureDecay := t;
  recentReservations := recentReservations st; lastSelectedAt := lastSelectedAt st |}.
Definition set_reservations (l : list rpcReservation) (t : Time) (st : rpcEndpointState) :
    rpcEndpointState := {|
  failures := failures st; timeoutFailures := timeoutFailures st;
  rateLimitFailures := rateLimitFailures st; disabled := disabled st;
  disabledReason := disabledReason st; cooldownUntil := cooldownUntil st;
  avgLatency := avgLatency st; lastFailureDecay := lastFailureDecay st;
  recentReservations := l; lastSelectedAt := t |}.

(** ** One endpoint *)

Definition subtractUint32 (value amount : Z) : Z :=
  if value <? amount then 0 else value - amount.

Definition minUint32 (value max : Z) : Z := if max <? value then max else value.

Definition prune (now : Time) (st : rpcEndpointState) : rpcEndpointState :=
  set_reservations
    (filter (fun item => time_Sub now (rs_at item) <= rpcBurstWindow) (recentReservations st))
    (lastSelectedAt st) st.

Definition decay (now : Time) (st : rpcEndpointState) : rpcEndpointState :=
  if IsZero (lastFailureDecay st) then set_decay now st else
  let steps := u32 (Z.quot (time_Sub now (lastFailureDecay st)) rpcFailureDecay) in
  if steps =? 0 then st else
  set_counts (subtractUint32 (failures st) (u32 (steps * 2)))
             (subtractUint32 (timeoutFailures st) (u32 (steps * 2)))
             (subtractUint32 (rateLimitFailures st) (u32 (steps * 4)))
    (set_decay (time_Add (lastFailureDecay st) (mul_duration steps rpcFailureDecay)) st).

Definition burstLoad (now : Time) (st : rpcEndpointState) : Z :=
  foldl (fun total item =>
    if time_Sub now (rs_at item) <=? rpcBurstWindow then u32 (total + rs_units item) else total)
    0 (recentReservations st).

(** [disabled || (!cooldownUntil.IsZero() && cooldownUntil.After(now))] *)
Definition unavailable (now : Time) (st : rpcEndpointState) : bool :=
  disabled st || (negb (IsZero (cooldownUntil st)) && After (cooldownUntil st) now).

Definition penalty (now : Time) (st : rpcEndpointState) : f64 :=
  let burstRatio := fdiv (f_of_Z (burstLoad now st)) (f_of_Z rpcBurstCapacity) in
  let latencyMs :=
    if 0 <? avgLatency st then f_of_Z (Milliseconds (avgLatency st)) else f_of_Z 120 in
  let elapsed := time_Sub now (lastSelectedAt st) in
  let recencyPenalty :=
    if negb (IsZero (lastSelectedAt st)) && (elapsed <? 180 * Millisecond)
    then fmul (f_of_Z (Milliseconds (i64 (180 * Millisecond - elapsed)))) (f_of_ratio false 24 10)
    else fzero in
  let burstPenalty :=
    if fleb (f_of_Z 1) burstRatio
    then fadd (f_of_Z 25000) (fmul (fsub burstRatio (f_of_Z 1)) (f_of_Z 8000))
    else fmul (fmul burstRatio burstRatio) (f_of_Z 2200) in
  fadd (fadd (fadd (fadd latencyMs (fmul (f_of_Z (failures st)) (f_of_Z 180)))
                   (fmul (f_of_Z (rateLimitFailures st)) (f_of_Z 900)))
             burstPenalty)
       recencyPenalty.

Definition score (now : Time) (ep : rpcEndpoint) : option f64 * rpcEndpoint :=
  let st := decay now (prune now (ep_state ep)) in
  (if unavailable now st then None else Some (penalty now st), set_state st ep).

Definition reserve (now : Time) (ep : rpcEndpoint) : rpcEndpoint :=
  let st := prune now (ep_state ep) in
  let st := set_reservations
              (recentReservations st ++ [{| rs_at := now; rs_units := rpcSendBurstCost |}])%list
              now st in
  set_state (if rpcBurstCapacity * 2 <=? burstLoad now st
             then set_cooldown (time_Add now (900 * Millisecond)) st else st) ep.

Definition record_success (now : Time) (latency : Duration) (st : rpcEndpointState) :
    rpcEndpointState :=
  let st := decay now (prune now st) in
  let st :=
    set_latency
      (if 0 <? avgLatency st
       then f_to_i64 (fadd (fmul (f_of_Z (avgLatency st)) (f_of_ratio false 72 100))
                           (fmul (f_of_Z latency) (f_of_ratio false 28 100)))
       else latency) st in
  let dec n := if 0 <? n then n - 1 else n in
  let st := set_counts (dec (failures st)) (dec (timeoutFailures st))
                       (dec (rateLimitFailures st)) st in
  if negb (IsZero (cooldownUntil st)) && Before (cooldownUntil st) now
  then set_cooldown 0 st else st.

(** The [switch] of [recordFailure]: the state and [cooldown]. *)
Definition failure_kind (kind : rpcFailureKind) (st : rpcEndpointState) :
    rpcEndpointState * Duration :=
  match kind with
  | rpcFailureRateLimited =>
      let r := u32 (rateLimitFailures st + 1) in
      (set_counts (failures st) (timeoutFailures st) r st,
       mul_duration (2 * Z.shiftl 1 (minUint32 r 4)) Second)
  | rpcFailureCapacityExhausted =>
      (set_disabled "provider capacity exhausted"
         (set_counts (failures st) (timeoutFailures st) (u32 (rateLimitFailures st + 10)) st),
       24 * Hour)
  | rpcFailureTimeout =>
      let t := u32 (timeoutFailures st + 1) in
      (set_counts (failures st) t (rateLimitFailures st) st,
       mul_duration (400 * Z.shiftl 1 (minUint32 t 5)) Millisecond)
  | rpcFailureTransport => (st, 700 * Millisecond)
  | rpcFailureRemote => (st, 500 * Millisecond)
  end.

Definition record_failure (now : Time) (kind : rpcFailureKind) (st : rpcEndpointState) :
    rpcEndpointState :=
  let st := decay now (prune now st) in
  let st := set_counts (u32 (failures st + 1)) (timeoutFailures st) (rateLimitFailures st) st in
  let (st, cooldown) := failure_kind kind st in
  let cooldown := if 45 * Second <? cooldown then 45 * Second else cooldown in
  let until := time_Add now cooldown in
  if Before (cooldownUntil st) until then set_cooldown until st else st.

(** ** The fleet *)

Section Fleet.
Context `{GoUnicode}.

(** [string(rune('0' + value))]: the UTF-8 encoding of one code point. *)
Definition string_of_rune (r : Z) : string :=
  string_of_bytes
    (if (r <? 0) || (1114111 <? r) || ((55296 <=? r) && (r <=? 57343)) then [239; 191; 189]
     else if r <? 128 then [r]
     else if r <? 2048 then [192 + r / 64; 128 + r mod 64]
     else if r <? 65536 then [224 + r / 4096; 128 + r / 64 mod 64; 128 + r mod 64]
     else [240 + r / 262144; 128 + r / 4096 mod 64; 128 + r / 64 mod 64; 128 + r mod 64]).

Definition itoaSmall (value : Z) : string := string_of_rune (wrap_s 32 (48 + value)).

Definition rpcEndpointName (id : Z) (url : string) : string :=
  let lower := ToLower url in
  if Contains lower "alchemy" then "alchemy-bsc-" +:+ itoaSmall id
  else if Contains lower "ankr" then "ankr-bsc-" +:+ itoaSmall id
  else if Contains lower "binance" then "binance-bsc-" +:+ itoaSmall id
  else "bsc-rpc-" +:+ itoaSmall id.

Definition new_state (now : Time) : rpcEndpointState := {|
  failures := 0; timeoutFailures := 0; rateLimitFailures := 0; disabled := false;
  disabledReason := ""; cooldownUntil := 0; avgLatency := 0; lastFailureDecay := now;
  recentReservations := []; lastSelectedAt := 0 |}.

(** [seen] holds the URLs of [endpoints]. *)
Fixpoint add_endpoints (now : Time) (eps : list rpcEndpoint) (urls : list string) :
    list rpcEndpoint :=
  match urls with
  | [] => eps
  | raw :: urls' =>
      let url := TrimSpace raw in
      if String.eqb url "" || bool_decide (url ∈ ep_url <$> eps)
      then add_endpoints now eps urls'
      else
        let id := Z.of_nat (length eps) in
        add_endpoints now
          (eps ++ [{| ep_id := id; ep_name := rpcEndpointName id url; ep_url := url;
                      ep_state := new_state now |}])%list urls'
  end.

Definition newRPCFleet (now : Time) (urls : list string) : rpcFleet :=
  let eps := add_endpoints now [] urls in
  {| endpoints :=
       if bool_decide (eps = [] :> list _) then
         [{| ep_id := 0; ep_name := "bsc-default-0";
             ep_url := "https://bsc-dataseed.binance.org/"; ep_state := new_state now |}]
       else eps;
     rotation := 0 |}.

Definition classifyRPCFailure (err : string) : rpcFailureKind :=
  let lower := ToLower err in
  let any_of l := existsb (Contains lower) l in
  if any_of ["402"; "payment required"; "out of cu"; "out of compute";
             "monthly capacity limit exceeded"; "capacity limit exceeded"; "quota exceeded";
             "billing"]%string
  then rpcFailureCapacityExhausted
  else if any_of ["429"; "rate limit"; "too many requests"; "throughput limit"]%string
  then rpcFailureRateLimited
  else if any_of ["timeout"; "timed out"; "deadline exceeded"]%string
  then rpcFailureTimeout
  else if any_of ["connection"; "socket"; "dns"; "econnreset"; "broken pipe"; "eof"]%string
  then rpcFailureTransport
  else rpcFailureRemote.
End Fleet.

(** [f.endpoint(id)], then the update of the endpoint found. *)
Fixpoint update_endpoint (id : Z) (g : rpcEndpointState -> rpcEndpointState)
    (eps : list rpcEndpoint) : list rpcEndpoint :=
  match eps with
  | [] => []
  | ep :: eps' =>
      if ep_id ep =? id then set_state (g (ep_state ep)) ep :: eps'
      else ep :: update_endpoint id g eps'
  end.

Definition with_endpoints (f : rpcFleet) (eps : list rpcEndpoint) : rpcFleet :=
  {| endpoints := eps; rotation := rotation f |}.

Definition recordSuccess (now : Time) (id : Z) (latency : Duration) (f : rpcFleet) : rpcFleet :=
  with_endpoints f (update_endpoint id (record_success now latency) (endpoints f)).

Definition recordFailure (now : Time) (id : Z) (kind : rpcFailureKind) (f : rpcFleet) : rpcFleet :=
  with_endpoints f (update_endpoint id (record_failure now kind) (endpoints f)).

Abbreviation candidate := (nat * f64)%type.

(** The loops that score every endpoint in order; [prep] is what the second
    loop does to an endpoint before scoring it. *)
Fixpoint score_all (prep : rpcEndpoint -> rpcEndpoint) (now : Time) (i : nat)
    (eps : list rpcEndpoint) : list rpcEndpoint * list candidate :=
  match eps with
  | [] => ([], [])
  | ep :: eps' =>
      let (s, ep1) := score now (prep ep) in
      let (eps1, cs) := score_all prep now (S i) eps' in
      (ep1 :: eps1, match s with Some x => (i, x) :: cs | None => cs end)
  end.

Definition clear_cooldown (ep : rpcEndpoint) : rpcEndpoint :=
  set_state (set_cooldown 0 (ep_state ep)) ep.

(** The exchange sort: for each [i], every later [j] whose score is smaller is
    swapped with the candidate at [i]. *)
Fixpoint exchange (x : candidate) (l : list candidate) : candidate * list candidate :=
  match l with
  | [] => (x, [])
  | y :: l' =>
      if fltb y.2 x.2
      then let (x', r) := exchange y l' in (x', x :: r)
      else let (x', r) := exchange x l' in (x', y :: r)
  end.

Fixpoint exchange_sort (n : nat) (l : list candidate) : list candidate :=
  match n, l with
  | S n', x :: l' => let (x', r) := exchange x l' in x' :: exchange_sort n' r
  | _, _ => l
  end.


(** The last loop: reserve each candidate and hand it out. *)
Fixpoint take_candidates (now : Time) (eps : list rpcEndpoint) (cs : list candidate) :
    list rpcEndpoint * list rpcHandle :=
  match cs with
  | [] => (eps, [])
  | (i, _) :: cs' =>
      match eps !! i with
      | None => take_candidates now eps cs'
      | Some ep =>
          let (eps', hs) := take_candidates now (alter (reserve now) i eps) cs' in
          (eps', {| h_id := ep_id ep; h_name := ep_name ep; h_url := ep_url ep |} :: hs)
      end
  end.

(** The rotation of the first [topN] candidates. [None]: the shift is negative
    once the counter has passed [2^63], and the slice expression panics. *)
Definition rotate (count : Z) (cs : list candidate) : option (list candidate) :=
  let topN := Nat.min (length cs) 2 in
  if (1 <? topN)%nat then
    let shift := Z.rem (i64 count) (Z.of_nat topN) in
    if shift <? 0 then None
    else Some (take (topN - Z.to_nat shift) (drop (Z.to_nat shift) cs)
               ++ take (Z.to_nat shift) cs)%list
  else Some cs.

Definition sendCandidates (now : Time) (limit : Z) (f : rpcFleet) :
    option (list rpcHandle * rpcFleet) :=
  let (eps, cs) := score_all id now 0 (endpoints f) in
  let (eps, cs) :=
    if (length cs =? 0)%nat then score_all clear_cooldown now 0 eps else (eps, cs) in
  let cs := exchange_sort (length cs) cs in
  let rotates := (1 <? Nat.min (length cs) 2)%nat in
  match rotate (rotation f) cs with
  | None => None
  | Some cs =>
      let n := Z.of_nat (length cs) in
      let limit := if (limit <=? 0) || (n <? limit) then n else limit in
      let (eps, hs) := take_candidates now eps (take (Z.to_nat limit) cs) in
      Some (hs, {| endpoints := eps;
                   rotation := if rotates then u64 (rotation f + 1) else rotation f |})
  end.

(** ** Lemmas: endpoints keep their identity *)

Definition is_disabled (ep : rpcEndpoint) : bool := disabled (ep_state ep).

(** What no operation changes, short of a capacity failure. *)
Definition same_endpoint (ep ep' : rpcEndpoint) : Prop :=
  ep_id ep' = ep_id ep /\ ep_name ep' = ep_name ep /\ ep_url ep' = ep_url ep /\
  is_disabled ep' = is_disabled ep.

#[export] Instance same_endpoint_preorder : PreOrder same_endpoint.
Proof. split; unfold same_endpoint; [done|]. intros x y z; intuition congruence. Qed.

Lemma decay_disabled now st : disabled (decay now st) = disabled st.
Proof. unfold decay. by repeat case_match. Qed.

Lemma score_same now ep : same_endpoint ep (score now ep).2.
Proof. unfold same_endpoint, is_disabled; cbn. by rewrite decay_disabled. Qed.

Lemma reserve_same now ep : same_endpoint ep (reserve now ep).
Proof. unfold same_endpoint, is_disabled, reserve; cbn. by case_match. Qed.

Lemma clear_cooldown_same ep : same_endpoint ep (clear_cooldown ep).
Proof. done. Qed.

Lemma score_none now ep : is_disabled ep = true -> (score now ep).1 = None.
Proof.
  unfold is_disabled, score, unavailable; cbn. rewrite decay_disabled; cbn. by intros ->.
Qed.

(** An endpoint without cooldown is scored unless it is disabled. *)
Lemma score_cleared now ep :
  is_disabled ep = false -> is_Some (score now (clear_cooldown ep)).1.
Proof.
  unfold is_disabled, score, unavailable; cbn. rewrite decay_disabled; cbn. intros ->.
  assert (cooldownUntil (decay now (prune now (set_cooldown 0 (ep_state ep)))) = 0) as ->.
  { unfold decay. by repeat case_match. }
  cbn. by eexists.
Qed.

(** ** Lemmas: scoring *)

Section Scoring.
Variable prep : rpcEndpoint -> rpcEndpoint.
Hypothesis prep_same : forall ep, same_endpoint ep (prep ep).

Lemma score_all_fst now i eps :
  (score_all prep now i eps).1 = (fun ep => (score now (prep ep)).2) <$> eps.
Proof.
  revert i. induction eps as [|ep eps IH]; intros i; [done|].
  cbn. specialize (IH (S i)). destruct (score_all prep now (S i) eps). cbn in *. by rewrite IH.
Qed.

Lemma score_all_elem now i eps j x :
  (j, x) ∈ (score_all prep now i eps).2 <->
  exists k ep, j = (i + k)%nat /\ eps !! k = Some ep /\ (score now (prep ep)).1 = Some x.
Proof.
  revert i. induction eps as [|ep eps IH]; intros i; cbn.
  - split; [by intros ?%not_elem_of_nil|]. by intros (k & ? & _ & ? & _).
  - specialize (IH (S i)). destruct (score_all prep now (S i) eps) as [eps1 cs]. cbn in *.
    transitivity ((i = j /\ (score now (prep ep)).1 = Some x) \/ (j, x) ∈ cs).
    + unfold score; cbn. case_match.
      * rewrite elem_of_cons. split; [intros [[= -> ->]|?]|intros [[-> [= ->]]|?]]; auto.
      * split; [by intros; right|]. by intros [[_ ?]|?].
    + rewrite IH. split.
      * intros [[<- Hs]|(k & ep' & -> & ? & ?)].
        -- exists 0%nat, ep. by rewrite Nat.add_0_r.
        -- exists (S k), ep'. split; [lia|done].
      * intros (k & ep' & -> & Hk & ?). destruct k as [|k]; [left|right].
        -- cbn in Hk. simplify_eq. split; [lia|done].
        -- exists k, ep'. split; [lia|done].
Qed.

Lemma score_all_nodup now i eps : NoDup (score_all prep now i eps).2.*1.
Proof.
  revert i. induction eps as [|ep eps IH]; intros i; [constructor|].
  pose proof (score_all_elem now (S i) eps) as Helem. specialize (IH (S i)).
  cbn. destruct (score_all prep now (S i) eps) as [eps1 cs]. cbn in *.
  unfold score; cbn. case_match; [|done]. cbn. constructor; [|done].
  intros ([j x] & Hj & Hin)%list_elem_of_fmap. apply Helem in Hin as (k & ? & ? & _).
  cbn in *. lia.
Qed.

Lemma score_all_same now i eps :
  Forall2 same_endpoint eps (score_all prep now i eps).1.
Proof.
  rewrite score_all_fst. apply Forall2_fmap_r, Forall_Forall2_diag.
  apply Forall_forall. intros ep _.
  change (same_endpoint ep (score now (prep ep)).2).
  transitivity (prep ep); [apply prep_same|apply score_same].
Qed.

(** A candidate is not disabled. *)
Lemma score_all_enabled now eps j x :
  (j, x) ∈ (score_all prep now 0 eps).2 ->
  exists ep, eps !! j = Some ep /\ is_disabled ep = false.
Proof.
  rewrite score_all_elem. intros (k & ep & -> & Hk & Hs). exists ep. split; [done|].
  destruct (is_disabled ep) eqn:Hd; [|done].
  rewrite score_none in Hs; [done|]. destruct (prep_same ep) as (_ & _ & _ & ->). done.
Qed.
End Scoring.

(** ** Lemmas: the exchange sort *)

Lemma exchange_perm x l x' r : exchange x l = (x', r) -> x' :: r ≡ₚ x :: l.
Proof.
  revert x x' r. induction l as [|y l IH]; intros x x' r; cbn; [by intros [= <- <-]|].
  destruct (fltb y.2 x.2).
  - destruct (exchange y l) as [z r'] eqn:He. intros [= <- <-]. apply IH in He.
    by rewrite (Permutation_swap x z), He.
  - destruct (exchange x l) as [z r'] eqn:He. intros [= <- <-]. apply IH in He.
    rewrite (Permutation_swap y z), He. apply Permutation_swap.
Qed.

(** The head ends as it was or strictly smaller, and nothing in the rest is
    smaller than it. *)
Lemma exchange_least x l x' r :
  exchange x l = (x', r) ->
  (x' = x \/ fltb x'.2 x.2 = true) /\ Forall (fun y => fltb y.2 x'.2 = false) r.
Proof.
  revert x x' r. induction l as [|y l IH]; intros x x' r; cbn.
  - intros [= <- <-]. auto.
  - destruct (fltb y.2 x.2) eqn:Hlt.
    + destruct (exchange y l) as [z r'] eqn:He. intros [= <- <-].
      apply IH in He as [Hz Hr]. assert (fltb z.2 x.2 = true).
      { destruct Hz as [->|Hz]; [done|]. by eapply fltb_trans. }
      split; [by right|]. constructor; [|done]. by apply fltb_asym.
    + destruct (exchange x l) as [z r'] eqn:He. intros [= <- <-].
      apply IH in He as [Hz Hr]. split; [done|]. constructor; [|done].
      destruct Hz as [->|Hz]; [done|].
      destruct (fltb y.2 z.2) eqn:Hyz; [|done].
      by rewrite (fltb_trans y.2 z.2 x.2) in Hlt.
Qed.

Lemma exchange_sort_perm n l : exchange_sort n l ≡ₚ l.
Proof.
  revert l. induction n as [|n IH]; intros [|x l]; cbn; try done.
  destruct (exchange x l) as [x' r] eqn:He. rewrite IH. by apply exchange_perm.
Qed.

Definition not_above (x y : candidate) : Prop := fltb y.2 x.2 = false.

Lemma exchange_sort_sorted n l :
  (length l <= n)%nat -> StronglySorted not_above (exchange_sort n l).
Proof.
  revert l. induction n as [|n IH]; intros [|x l] Hn; cbn in *; [constructor|lia|constructor|].
  destruct (exchange x l) as [x' r] eqn:He.
  pose proof (Permutation_length (exchange_perm _ _ _ _ He)) as Hlen. cbn in Hlen.
  constructor; [apply IH; lia|].
  apply exchange_least in He as [_ Hr]. by rewrite exchange_sort_perm.
Qed.

(** ** Lemmas: handing candidates out *)

Lemma alter_same (g : rpcEndpoint -> rpcEndpoint) i eps :
  (forall ep, same_endpoint ep (g ep)) -> Forall2 same_endpoint eps (alter g i eps).
Proof.
  intros Hg. apply Forall2_same_length_lookup_2; [by rewrite length_alter|].
  intros j x y Hx Hy. destruct (decide (i = j)) as [->|Hne].
  - rewrite list_lookup_alter_eq, Hx in Hy. cbn in Hy. by simplify_eq.
  - rewrite list_lookup_alter_ne in Hy by done. by simplify_eq.
Qed.

(** The endpoints of two fleets, one by one. *)
Lemma same_lookup eps eps' i ep :
  Forall2 same_endpoint eps eps' -> eps !! i = Some ep ->
  exists ep', eps' !! i = Some ep' /\ same_endpoint ep ep'.
Proof. intros H Hi. by apply (Forall2_lookup_l _ _ _ _ _ H). Qed.

Lemma same_lookup_r eps eps' i ep' :
  Forall2 same_endpoint eps eps' -> eps' !! i = Some ep' ->
  exists ep, eps !! i = Some ep /\ same_endpoint ep ep'.
Proof. intros H Hi. by apply (Forall2_lookup_r _ _ _ _ _ H). Qed.

(** The positions are ids: what [newRPCFleet] builds and all operations keep. *)
Definition ids_ok (eps : list rpcEndpoint) : Prop :=
  forall i ep, eps !! i = Some ep -> ep_id ep = Z.of_nat i.

Lemma ids_ok_same eps eps' : Forall2 same_endpoint eps eps' -> ids_ok eps -> ids_ok eps'.
Proof.
  intros Hs Hok i ep' Hi. destruct (same_lookup_r _ _ _ _ Hs Hi) as (ep & He & -> & _).
  by apply Hok.
Qed.

Lemma take_candidates_spec now eps cs eps' hs :
  ids_ok eps -> Forall (fun c => is_Some (eps !! c.1)) cs ->
  take_candidates now eps cs = (eps', hs) ->
  Forall2 same_endpoint eps eps' /\ h_id <$> hs = (fun c => Z.of_nat c.1) <$> cs.
Proof.
  revert eps eps' hs. induction cs as [|[i x] cs IH]; intros eps eps' hs Hok Hcs; cbn.
  - by intros [= <- <-].
  - apply Forall_cons in Hcs as [[ep Hep] Hcs]. cbn in Hep. rewrite Hep.
    destruct (take_candidates now (alter (reserve now) i eps) cs) as [eps1 hs1] eqn:Ht.
    intros [= <- <-].
    assert (Forall2 same_endpoint eps (alter (reserve now) i eps)) as Halt
      by (apply alter_same, reserve_same).
    apply IH in Ht as [Hs Hids].
    + split; [by etrans|]. cbn. by rewrite Hids, (Hok i ep Hep).
    + by eapply ids_ok_same.
    + eapply Forall_impl; [done|]. intros c [ep' Hc].
      destruct (same_lookup _ _ _ _ Halt Hc) as (? & -> & _). by eexists.
Qed.

(** ** Lemmas: one call of [sendCandidates] *)

(** The candidates the call ranks: those of the first loop, or of the second
    when the first finds none. *)
Definition ranked (now : Time) (f : rpcFleet) : list rpcEndpoint * list candidate :=
  let (eps, cs) := score_all id now 0 (endpoints f) in
  if (length cs =? 0)%nat then score_all clear_cooldown now 0 eps else (eps, cs).

Lemma ranked_spec now f eps cs :
  ranked now f = (eps, cs) ->
  Forall2 same_endpoint (endpoints f) eps /\ NoDup cs.*1 /\
  (forall j x, (j, x) ∈ cs -> exists ep, endpoints f !! j = Some ep /\ is_disabled ep = false) /\
  ((exists ep, ep ∈ endpoints f /\ is_disabled ep = false) -> cs <> []).
Proof.
  unfold ranked.
  pose proof (score_all_same id ltac:(reflexivity) now 0 (endpoints f)) as Hsame1.
  pose proof (score_all_enabled id ltac:(reflexivity) now (endpoints f)) as Hen1.
  pose proof (score_all_nodup id now 0 (endpoints f)) as Hnd1.
  destruct (score_all id now 0 (endpoints f)) as [eps1 cs1]. cbn in *.
  destruct cs1 as [|c cs1]; cbn; [|by intros [= <- <-]].
  pose proof (score_all_same clear_cooldown clear_cooldown_same now 0 eps1) as Hsame2.
  pose proof (score_all_enabled clear_cooldown clear_cooldown_same now eps1) as Hen2.
  pose proof (score_all_nodup clear_cooldown now 0 eps1) as Hnd2.
  pose proof (score_all_elem clear_cooldown now 0 eps1) as Helem2.
  intros Heq. rewrite Heq in *. cbn in *. split; [by etrans|]. split; [done|]. split.
  - intros j x Hin. apply Hen2 in Hin as (ep & Hj & Hd).
    destruct (same_lookup_r _ _ _ _ Hsame1 Hj) as (ep0 & ? & Hs). exists ep0.
    split; [done|]. destruct Hs as (_ & _ & _ & Hs). congruence.
  - intros (ep & [j Hj]%list_elem_of_lookup & Hd) ->.
    destruct (same_lookup _ _ _ _ Hsame1 Hj) as (ep1 & Hj1 & _ & _ & _ & Hs).
    destruct (score_cleared now ep1) as [x Hx]; [congruence|].
    apply (not_elem_of_nil (j, x)), Helem2. by exists j, ep1.
Qed.

Lemma rotate_perm count cs cs' : rotate count cs = Some cs' -> cs' ≡ₚ take 2 cs.
Proof.
  unfold rotate. destruct cs as [|a [|b cs]]; cbn -[Z.rem]; [by intros [= <-]..|].
  rewrite Nat.min_0_r. change (Z.of_nat 2) with 2.
  pose proof (Z.rem_bound_abs (i64 count) 2 ltac:(lia)).
  destruct (Z.ltb_spec (Z.rem (i64 count) 2) 0); [done|]. intros [= <-].
  assert (Z.rem (i64 count) 2 = 0 \/ Z.rem (i64 count) 2 = 1) as [-> | ->] by lia; cbn.
  - done.
  - apply Permutation_swap.
Qed.

Lemma rotate_defined count cs : 0 <= count < 2 ^ 63 -> is_Some (rotate count cs).
Proof.
  intros Hc. unfold rotate. rewrite i64_small by (unfold min_i64, max_i64; lia).
  destruct (Nat.ltb_spec 1 (Nat.min (length cs) 2)); [|by eexists].
  pose proof (Z.rem_bound_pos count (Z.of_nat (Nat.min (length cs) 2))).
  destruct (Z.ltb_spec (Z.rem count (Z.of_nat (Nat.min (length cs) 2))) 0); [lia|by eexists].
Qed.

(** What is handed out of [best], the two first in rank. *)
Definition handed_out (limit : Z) (best : list candidate) : list candidate :=
  if (limit <=? 0) || (Z.of_nat (length best) <? limit) then best
  else take (Z.to_nat limit) best.

Lemma sendCandidates_spec now limit f hs f' :
  ids_ok (endpoints f) -> sendCandidates now limit f = Some (hs, f') ->
  exists eps cs best,
    ranked now f = (eps, cs) /\
    best ≡ₚ take 2 (exchange_sort (length cs) cs) /\
    h_id <$> hs = (fun c => Z.of_nat c.1) <$> handed_out limit best /\
    Forall2 same_endpoint (endpoints f) (endpoints f').
Proof.
  intros Hok. destruct (ranked now f) as [eps cs] eqn:Hr.
  destruct (ranked_spec _ _ _ _ Hr) as (Hsame & _ & Hen & _).
  unfold sendCandidates. unfold ranked in Hr.
  destruct (score_all id now 0 (endpoints f)) as [eps1 cs1]. rewrite Hr.
  destruct (rotate (rotation f) (exchange_sort (length cs) cs)) as [best|] eqn:Hrot; [|done].
  apply rotate_perm in Hrot as Hbest.
  set (n := if (limit <=? 0) || _ then _ else limit).
  destruct (take_candidates now eps (take (Z.to_nat n) best)) as [eps' hs'] eqn:Ht.
  intros [= <- <-]. apply take_candidates_spec in Ht as [Hs' Hids].
  - exists eps, cs, best. split; [done|]. split; [done|]. split; [|cbn; by etrans].
    rewrite Hids. unfold handed_out, n. destruct ((limit <=? 0) || _); [|done].
    by rewrite Nat2Z.id, firstn_all.
  - by eapply ids_ok_same.
  - apply Forall_take, Forall_forall. intros [j x] Hin. cbn.
    assert ((j, x) ∈ cs) as Hj.
    { rewrite Hbest in Hin. apply elem_of_take in Hin as (? & Hin & _).
      rewrite <- (exchange_sort_perm (length cs)). by eapply list_elem_of_lookup_2. }
    apply Hen in Hj as (ep & Hj & _).
    destruct (same_lookup _ _ _ _ Hsame Hj) as (? & -> & _). by eexists.
Qed.

Lemma sendCandidates_defined now limit f :
  0 <= rotation f < 2 ^ 63 -> is_Some (sendCandidates now limit f).
Proof.
  intros Hrot. unfold sendCandidates.
  destruct (score_all id now 0 (endpoints f)) as [eps1 cs1].
  destruct (if (length cs1 =? 0)%nat then _ else _) as [eps cs].
  destruct (rotate_defined (rotation f) (exchange_sort (length cs) cs) Hrot) as [best ->].
  destruct (take_candidates _ _ _) as [eps' hs]. by eexists.
Qed.

(** The candidates are those handed out and those left. *)
Lemma handed_out_split limit best cs :
  best ≡ₚ take 2 (exchange_sort (length cs) cs) ->
  exists rest, cs ≡ₚ handed_out limit best ++ rest.
Proof.
  intros Hb. pose proof (exchange_sort_perm (length cs) cs) as Hsort.
  rewrite <- (take_drop 2 (exchange_sort _ _)), <- Hb in Hsort.
  enough (exists rest, best ≡ₚ handed_out limit best ++ rest) as [rest Hrest].
  { rewrite Hrest in Hsort. exists (rest ++ drop 2 (exchange_sort (length cs) cs))%list.
    by rewrite (assoc_L (++)). }
  unfold handed_out. case_match; [exists []; by rewrite (right_id_L [] (++))|].
  exists (drop (Z.to_nat limit) best). by rewrite take_drop.
Qed.

Lemma handed_out_nonempty limit best : best <> [] -> handed_out limit best <> [].
Proof.
  unfold handed_out. intros Hb. case_match; [done|].
  destruct best; [done|]. by destruct (Z.to_nat limit) eqn:?; [lia|].
Qed.

(** ** Reachable fleets *)

Inductive fleet_step : rpcFleet -> rpcFleet -> Prop :=
| fleet_send now limit f hs f' :
    sendCandidates now limit f = Some (hs, f') -> fleet_step f f'
| fleet_success now id latency f : fleet_step f (recordSuccess now id latency f)
| fleet_failure now id kind f : fleet_step f (recordFailure now id kind f).

(** What every step keeps: identities, and disabled endpoints stay so. *)
Definition later_endpoint (ep ep' : rpcEndpoint) : Prop :=
  ep_id ep' = ep_id ep /\ ep_url ep' = ep_url ep /\
  (is_disabled ep = true -> is_disabled ep' = true).

#[export] Instance later_endpoint_preorder : PreOrder later_endpoint.
Proof. split; unfold later_endpoint; [done|]. intros x y z; intuition congruence. Qed.

Lemma same_later eps eps' :
  Forall2 same_endpoint eps eps' -> Forall2 later_endpoint eps eps'.
Proof.
  intros Hs. eapply Forall2_impl; [done|]. unfold same_endpoint, later_endpoint.
  intuition congruence.
Qed.

Lemma record_success_disabled now latency st :
  disabled (record_success now latency st) = disabled st.
Proof.
  unfold record_success. case_match; cbn; by rewrite decay_disabled.
Qed.

Lemma record_failure_disabled now kind st :
  disabled (record_failure now kind st) =
  disabled st || match kind with rpcFailureCapacityExhausted => true | _ => false end.
Proof.
  unfold record_failure. destruct kind; cbn; case_match; cbn; rewrite ?decay_disabled; cbn;
    by destruct (disabled st).
Qed.

Lemma update_endpoint_later id g eps :
  (forall st, disabled st = true -> disabled (g st) = true) ->
  Forall2 later_endpoint eps (update_endpoint id g eps).
Proof.
  intros Hg. induction eps as [|ep eps IH]; cbn; [constructor|].
  case_match; constructor; [|reflexivity|reflexivity|done].
  unfold later_endpoint, is_disabled; cbn. auto.
Qed.

Lemma fleet_step_later f f' :
  ids_ok (endpoints f) -> fleet_step f f' ->
  Forall2 later_endpoint (endpoints f) (endpoints f').
Proof.
  intros Hok Hstep. destruct Hstep as [now limit f hs f' Hs|now id lat f|now id kind f].
  - destruct (sendCandidates_spec _ _ _ _ _ Hok Hs) as (? & ? & ? & _ & _ & _ & ?).
    by apply same_later.
  - apply update_endpoint_later. intros st. by rewrite record_success_disabled.
  - apply update_endpoint_later. intros st. rewrite record_failure_disabled. by intros ->.
Qed.

Lemma ids_ok_later eps eps' : Forall2 later_endpoint eps eps' -> ids_ok eps -> ids_ok eps'.
Proof.
  intros Hs Hok i ep' Hi. destruct (Forall2_lookup_r _ _ _ _ _ Hs Hi) as (ep & He & -> & _).
  by apply Hok.
Qed.

Lemma fleet_steps_later f f' :
  rtc fleet_step f f' -> ids_ok (endpoints f) ->
  ids_ok (endpoints f') /\ Forall2 later_endpoint (endpoints f) (endpoints f').
Proof.
  induction 1 as [f|f f1 f' Hstep _ IH]; intros Hok; [split; [done|reflexivity]|].
  pose proof (fleet_step_later _ _ Hok Hstep) as Hl.
  destruct IH as [? ?]; [by eapply ids_ok_later|]. split; [done|by etrans].
Qed.

(** ** New fleets *)

Section NewFleet.
Context `{GoUnicode}.

Definition fresh (eps : list rpcEndpoint) : Prop :=
  ids_ok eps /\ Forall (fun ep => is_disabled ep = false) eps /\ NoDup (ep_url <$> eps).

Lemma add_endpoints_fresh now urls eps : fresh eps -> fresh (add_endpoints now eps urls).
Proof.
  revert eps. induction urls as [|raw urls IH]; intros eps Hf; [done|].
  cbn. case_match eqn:Hskip; [by apply IH|]. apply IH. unbool.
  destruct Hf as (Hok & Hen & Hnd). split; [|split].
  - intros i ep Hi. apply lookup_app_Some in Hi as [Hi|[Hlen Hi]]; [by apply Hok|].
    apply list_lookup_singleton_Some in Hi as [? <-]. cbn. lia.
  - apply Forall_app. split; [done|]. by repeat constructor.
  - rewrite fmap_app. apply NoDup_app. split; [done|]. split; [|apply NoDup_singleton].
    intros u Hu ->%list_elem_of_singleton. contradiction.
Qed.

Lemma newRPCFleet_fresh now urls :
  fresh (endpoints (newRPCFleet now urls)) /\ endpoints (newRPCFleet now urls) <> [] /\
  rotation (newRPCFleet now urls) = 0.
Proof.
  unfold newRPCFleet; cbn. case_bool_decide as Hnil; (split; [|done]).
  - split; [|split].
    + intros i ep ?%list_lookup_singleton_Some. naive_solver.
    + by repeat constructor.
    + apply NoDup_singleton.
  - apply add_endpoints_fresh. split; [|split]; [done|constructor|constructor].
Qed.

(** A fleet the service can reach. *)
Definition reachable (f : rpcFleet) : Prop :=
  exists now urls, rtc fleet_step (newRPCFleet now urls) f.

Lemma reachable_ids f : reachable f -> ids_ok (endpoints f).
Proof.
  intros (now & urls & Hsteps). destruct (newRPCFleet_fresh now urls) as [(Hok & _ & _) _].
  by apply (fleet_steps_later _ _ Hsteps).
Qed.
End NewFleet.

(** ** What [sendCandidates] promises *)

(** While the rotation counter is below [2^63], a fleet with an enabled endpoint
    always offers one: one or two different enabled endpoints, cooling down or not. *)
Lemma sendCandidates_offers now limit f :
  ids_ok (endpoints f) -> rotation f < 2 ^ 63 -> 0 <= rotation f ->
  (exists ep, ep ∈ endpoints f /\ is_disabled ep = false) ->
  exists hs f',
    sendCandidates now limit f = Some (hs, f') /\ (1 <= length hs <= 2)%nat /\
    NoDup (h_id <$> hs) /\
    Forall (fun h => exists ep, ep ∈ endpoints f /\ ep_id ep = h_id h /\
                                is_disabled ep = false) hs.
Proof.
  intros Hreach Hr1 Hr2 Hep.
  destruct (sendCandidates_defined now limit f) as [[hs f'] Hsend]; [lia|].
  exists hs, f'. split; [done|].
  destruct (sendCandidates_spec _ _ _ _ _ Hreach Hsend) as (eps & cs & best & Hrk & Hb & Hids & _).
  destruct (ranked_spec _ _ _ _ Hrk) as (_ & Hnd & Hen & Hne). specialize (Hne Hep).
  destruct (handed_out_split limit best cs Hb) as [rest Hcs].
  apply (f_equal length) in Hids as Hlen. rewrite !length_fmap in Hlen.
  split; [split|split].
  - enough (handed_out limit best <> []) by (destruct (handed_out limit best); cbn in *; lia || done).
    apply handed_out_nonempty. intros ->. apply Permutation_length in Hb.
    rewrite length_take, (Permutation_length (exchange_sort_perm _ cs)) in Hb.
    destruct cs; [done|cbn in Hb; lia].
  - rewrite Hlen. apply Permutation_length in Hb. rewrite length_take in Hb.
    unfold handed_out. case_match; rewrite ?length_take; lia.
  - rewrite Hids. change (fun c : candidate => Z.of_nat c.1) with (Z.of_nat ∘ @fst nat f64).
    rewrite list_fmap_compose.
    apply NoDup_fmap_2; [by intros ?? ?%Nat2Z.inj|].
    rewrite Hcs, fmap_app in Hnd. by apply NoDup_app in Hnd as [? _].
  - apply Forall_forall. intros h Hh.
    assert (h_id h ∈ (fun c : candidate => Z.of_nat c.1) <$> handed_out limit best) as Hin
      by (rewrite <- Hids; by apply list_elem_of_fmap_2).
    apply list_elem_of_fmap in Hin as ([j x] & -> & Hin).
    destruct (Hen j x) as (ep & Hj & Hd); [rewrite Hcs; apply elem_of_app; by left|].
    exists ep. split; [by eapply list_elem_of_lookup_2|]. by rewrite (Hreach _ _ Hj).
Qed.

Definition example_fleet : rpcFleet :=
  @newRPCFleet ascii_unicode (100 * Second)
    ["https://a.example"; " https://b.example"; "https://a.example"; "https://c.example"]%string.

Lemma example_fleet_reachable : @reachable ascii_unicode example_fleet.
Proof. eexists _, _. constructor. Qed.

(** Nothing that is left out is strictly below one that is handed out. *)
Lemma best_two_ranked now limit f hs f' :
  ids_ok (endpoints f) -> limit <= 0 \/ 2 <= limit ->
  sendCandidates now limit f = Some (hs, f') ->
  exists best rest,
    (ranked now f).2 ≡ₚ best ++ rest /\
    length best = Nat.min 2 (length (ranked now f).2) /\
    (forall b r, b ∈ best -> r ∈ rest -> fltb r.2 b.2 = false) /\
    h_id <$> hs ≡ₚ (fun c => Z.of_nat c.1) <$> best.
Proof.
  intros Hreach Hlimit Hsend.
  destruct (sendCandidates_spec _ _ _ _ _ Hreach Hsend) as (eps & cs & best & Hrk & Hb & Hids & _).
  rewrite Hrk. cbn. set (order := exchange_sort (length cs) cs) in *.
  assert (order ≡ₚ cs) as Hperm by apply exchange_sort_perm.
  exists (take 2 order), (drop 2 order). rewrite take_drop. split; [done|]. split; [|split].
  - by rewrite length_take, (Permutation_length Hperm).
  - intros b r Hbest Hrest.
    pose proof (exchange_sort_sorted (length cs) cs ltac:(done)) as Hsorted.
    fold order in Hsorted. rewrite <- (take_drop 2 order) in Hsorted.
    exact (StronglySorted_app_1_elem_of not_above _ _ _ _ Hsorted Hbest Hrest).
  - rewrite Hids, <- Hb. unfold handed_out. apply Permutation_length in Hb as Hlen.
    rewrite length_take in Hlen. case_match; [done|]. unbool. by rewrite take_ge by lia.
Qed.

(** ** Failures *)

Lemma classify_402 `{GoUnicode} a b :
  is_ascii a = true -> is_ascii b = true ->
  classifyRPCFailure (a +:+ ("402" +:+ b)) = rpcFailureCapacityExhausted.
Proof.
  intros Ha Hb. unfold classifyRPCFailure.
  rewrite ToLower_ascii by (by rewrite !is_ascii_app, Ha, Hb).
  rewrite !map_str_app. cbn [existsb].
  change (map_str lower_char "402") with "402"%string. by rewrite Contains_app.
Qed.

Lemma update_endpoint_hit id g eps i ep :
  ids_ok eps -> eps !! i = Some ep -> ep_id ep = id ->
  update_endpoint id g eps !! i = Some (set_state (g (ep_state ep)) ep).
Proof.
  intros Hok Hi <-. assert (forall j e, (j < i)%nat -> eps !! j = Some e -> ep_id e <> ep_id ep)
    as Hne by (intros j e ? Hj; rewrite (Hok _ _ Hi), (Hok _ _ Hj); lia).
  clear Hok. revert i Hi Hne. induction eps as [|e eps IH]; intros [|i] Hi Hne; cbn in *; try done.
  - simplify_eq. by rewrite Z.eqb_refl.
  - destruct (Z.eqb_spec (ep_id e) (ep_id ep)) as [Heq|].
    + by destruct (Hne 0%nat e ltac:(lia) eq_refl).
    + cbn. apply IH; [done|]. intros j e' Hj Hlook. apply (Hne (S j)); [lia|done].
Qed.

(** An error text in which "402" occurs anywhere, in an amount or a hash for
    instance, takes the endpoint out of the fleet for the rest of the process:
    no later sequence of successes, failures and sends offers it again. *)
Theorem text_402_is_final `{GoUnicode} now id a b f f1 now' limit hs f2 :
  is_ascii a = true -> is_ascii b = true -> reachable f -> 0 <= id ->
  rtc fleet_step (recordFailure now id (classifyRPCFailure (a +:+ ("402" +:+ b))) f) f1 ->
  sendCandidates now' limit f1 = Some (hs, f2) ->
  ~ id ∈ (h_id <$> hs).
Proof.
  intros Ha Hb Hreach%reachable_ids Hid Hsteps Hsend Hin. rewrite classify_402 in Hsteps by done.
  pose proof (fleet_step_later _ _ Hreach (fleet_failure now id rpcFailureCapacityExhausted f))
    as Hl0.
  pose proof (ids_ok_later _ _ Hl0 Hreach) as Hok0.
  destruct (fleet_steps_later _ _ Hsteps Hok0) as [Hok1 Hl1].
  destruct (sendCandidates_spec _ _ _ _ _ Hok1 Hsend) as (eps & cs & best & Hrk & Hbest & Hids & _).
  destruct (ranked_spec _ _ _ _ Hrk) as (_ & _ & Hen & _).
  destruct (handed_out_split limit best cs Hbest) as [rest Hcs].
  rewrite Hids in Hin. apply list_elem_of_fmap in Hin as ([j x] & -> & Hin). cbn in *.
  destruct (Hen j x) as (ep1 & Hj1 & Hd1); [rewrite Hcs; apply elem_of_app; by left|].
  destruct (Forall2_lookup_r _ _ _ _ _ Hl1 Hj1) as (ep0 & Hj0 & _ & _ & Hd0).
  destruct (Forall2_lookup_r _ _ _ _ _ Hl0 Hj0) as (ep & Hj & _).
  assert (is_disabled ep0 = true) as Hdis; [|rewrite Hd0 in Hd1; done].
  cbn in Hj0. rewrite (update_endpoint_hit _ _ _ _ _ Hreach Hj) in Hj0 by (by apply Hreach).
  injection Hj0 as <-. unfold is_disabled; cbn [set_state ep_state].
  rewrite record_failure_disabled. by rewrite orb_true_r.
Qed.

Lemma text_402_is_final_witness :
  exists hs f2,
    sendCandidates (200 * Second) 0
      (@recordFailure (101 * Second) 1
         (@classifyRPCFailure ascii_unicode
            ("intrinsic gas too low: have 21402, " +:+ ("402" +:+ "00 wanted")))
         example_fleet) = Some (hs, f2) /\ ~ 1 ∈ (h_id <$> hs).
Proof.
  destruct (sendCandidates (200 * Second) 0 (recordFailure (101 * Second) 1
      (@classifyRPCFailure ascii_unicode
         ("intrinsic gas too low: have 21402, " +:+ ("402" +:+ "00 wanted"))) example_fleet))
    as [[hs f2]|] eqn:Hsend; [|vm_compute in Hsend; discriminate].
  exists hs, f2. split; [reflexivity|].
  refine (@text_402_is_final ascii_unicode (101 * Second) 1 "intrinsic gas too low: have 21402, "
            "00 wanted" example_fleet _ (200 * Second) 0 hs f2 eq_refl eq_refl
            example_fleet_reachable _ (rtc_refl _ _) Hsend); discriminate.
Defined.

Lemma shift_bound r k : 0 <= k <= 5 -> 1 <= Z.shiftl 1 (minUint32 (u32 r) k) <= 32.
Proof.
  intros Hk. pose proof (wrap_u_range 32 r ltac:(lia)) as Hr.
  assert (0 <= minUint32 (u32 r) k <= 5) as Hm
    by (unfold minUint32; destruct (Z.ltb_spec k (u32 r)); lia).
  rewrite Z.shiftl_mul_pow2 by lia.
  pose proof (Z.pow_le_mono_r 2 (minUint32 (u32 r) k) 5 ltac:(lia) ltac:(lia)).
  pose proof (Z.pow_pos_nonneg 2 (minUint32 (u32 r) k) ltac:(lia) ltac:(lia)). lia.
Qed.

Lemma failure_kind_cooldown kind st : 400 * Millisecond <= (failure_kind kind st).2.
Proof.
  destruct kind; cbn; try (unfold Hour, Minute, Second, Millisecond; lia).
  - pose proof (shift_bound (timeoutFailures st + 1) 5 ltac:(lia)).
    rewrite mul_duration_small; unfold min_i64, max_i64, Millisecond; lia.
  - pose proof (shift_bound (rateLimitFailures st + 1) 4 ltac:(lia)).
    rewrite mul_duration_small; unfold min_i64, max_i64, Millisecond, Second; lia.
Qed.

(** After a failure the endpoint is out for at least 400 ms; what was a
    longer cooldown is kept; and none reaches beyond 45 s from now. *)
Theorem failure_cooldown now kind st :
  cooldownUntil st <= cooldownUntil (record_failure now kind st)
    <= Z.max (cooldownUntil st) (now + 45 * Second) /\
  (forall t, 0 <= now <= t -> t < now + 400 * Millisecond ->
    unavailable t (record_failure now kind st) = true).
Proof.
  assert (exists st1 cooldown, cooldownUntil st1 = cooldownUntil st /\
            400 * Millisecond <= cooldown <= 45 * Second /\
            record_failure now kind st =
              if Before (cooldownUntil st1) (time_Add now cooldown)
              then set_cooldown (time_Add now cooldown) st1 else st1)
    as (st1 & cooldown & Hst1 & Hc & ->).
  { set (st0 := set_counts (u32 (failures (decay now (prune now st)) + 1))
                  (timeoutFailures (decay now (prune now st)))
                  (rateLimitFailures (decay now (prune now st))) (decay now (prune now st))).
    exists (failure_kind kind st0).1,
      (if 45 * Second <? (failure_kind kind st0).2 then 45 * Second else (failure_kind kind st0).2).
    split; [|split].
    - transitivity (cooldownUntil (decay now (prune now st))); [by destruct kind|].
      unfold decay. by repeat case_match.
    - pose proof (failure_kind_cooldown kind st0) as Hk.
      destruct (Z.ltb_spec (45 * Second) (failure_kind kind st0).2); [|lia].
      unfold Millisecond, Second. lia.
    - unfold record_failure. fold st0. by destruct (failure_kind kind st0). }
  unfold Before, time_Add. rewrite Hst1.
  destruct (Z.ltb_spec (cooldownUntil st) (now + cooldown)); cbn; (split; [lia|]);
    intros t Ht1 Ht2; unfold unavailable, After, IsZero; cbn; rewrite ?Hst1;
    unfold Millisecond in *; apply orb_true_intro; right; rewrite andb_true_iff, negb_true_iff;
    (split; [apply Z.eqb_neq|apply Z.ltb_lt]; lia).
Qed.

Lemma failure_cooldown_witness :
  unavailable (100 * Second + 1)
    (record_failure (100 * Second) rpcFailureTimeout (new_state 0)) = true.
Proof.
  destruct (failure_cooldown (100 * Second) rpcFailureTimeout (new_state 0)) as [_ Hout].
  apply Hout; unfold Second, Millisecond; lia.
Defined.
