(* ===== verification/Prog.v ===== *)
(** * Programs over atomic operations.

    A handler of the service is a [prog]: a tree whose nodes are the operations
    that other goroutines can interleave with (a store call under its mutex, a
    SQL statement, an RPC, a clock reading) and whose branches are their
    results. The same tree is run to completion by [run] and, one node at a
    time, by the thread pool of [pool_step]. *)
From S2P Require Export Prelude.

Inductive prog (E : Type -> Type) (A : Type) : Type :=
| Ret (a : A)
| Vis {X : Type} (e : E X) (k : X -> prog E A).
Arguments Ret {E A} a.
Arguments Vis {E A X} e k.

Section Prog.
Context {E : Type -> Type}.

Fixpoint prog_bind {A B} (f : A -> prog E B) (p : prog E A) : prog E B :=
  match p with
  | Ret a => f a
  | Vis e k => Vis e (fun x => prog_bind f (k x))
  end.

#[export] Instance prog_mret : MRet (prog E) := @Ret E.
#[export] Instance prog_mbind : MBind (prog E) := @prog_bind.

Definition perform {X} (e : E X) : prog E X := Vis e Ret.

(** [if err != nil { return .., err }] after a call that returns an error. *)
Definition try {A B} (p : prog E (result A)) (k : A -> prog E (result B)) :
    prog E (result B) :=
  r ← p; match r with Ok a => k a | Err e => Ret (Err e) end.
End Prog.

(** ** Sequential execution *)

Section Run.
Context {E : Type -> Type} {W : Type}.
Variable handle : forall X, E X -> W -> X * W.

Fixpoint run {A} (p : prog E A) (w : W) : A * W :=
  match p with
  | Ret a => (a, w)
  | Vis e k => let (x, w') := handle _ e w in run (k x) w'
  end.

Lemma run_bind {A B} (p : prog E A) (f : A -> prog E B) w :
  run (p ≫= f) w = let (a, w') := run p w in run (f a) w'.
Proof.
  revert w. induction p as [a|X e k IH]; intros w; [done|].
  cbn. destruct (handle X e w) as [x w']. apply IH.
Qed.

Lemma run_perform {X} (e : E X) w : run (perform e) w = handle X e w.
Proof. cbn. by destruct (handle X e w). Qed.

Lemma run_try {A B} (p : prog E (result A)) (k : A -> prog E (result B)) w :
  run (try p k) w =
    let (r, w') := run p w in
    match r with Ok a => run (k a) w' | Err e => (Err e, w') end.
Proof.
  unfold try. rewrite run_bind. destruct (run p w) as [[a|e] w']; done.
Qed.

(** A property of the world that every operation keeps, the program keeps. *)
Lemma run_preserves (P : W -> Prop) :
  (forall X (e : E X) w, P w -> P (handle X e w).2) ->
  forall A (p : prog E A) w, P w -> P (run p w).2.
Proof.
  intros Hstep A p. induction p as [a|X e k IH]; intros w Hw; [done|].
  cbn. specialize (Hstep X e w Hw). destruct (handle X e w) as [x w']. by apply IH.
Qed.

(** ** Interleaved execution

    A pool of goroutines that all end in a value of type [A]; a step lets any
    one of them perform its next operation. *)
Definition prog_step {A} (p : prog E A) (w : W) : option (prog E A * W) :=
  match p with
  | Ret _ => None
  | Vis e k => let (x, w') := handle _ e w in Some (k x, w')
  end.

Inductive pool_step {A} : list (prog E A) * W -> list (prog E A) * W -> Prop :=
| pool_step_thread ps w i p p' w' :
    ps !! i = Some p -> prog_step p w = Some (p', w') ->
    pool_step (ps, w) (<[i := p']> ps, w').

Definition pool_steps {A} : relation (list (prog E A) * W) := rtc (@pool_step A).

(** One thread is let run to its end. *)
Lemma pool_runs_alone {A} (p : prog E A) ps w i :
  ps !! i = Some p -> pool_steps (ps, w) (<[i := Ret (run p w).1]> ps, (run p w).2).
Proof.
  revert ps w. induction p as [a|X e k IH]; intros ps w Hi.
  - cbn. rewrite list_insert_id by done. apply rtc_refl.
  - cbn [run]. destruct (handle X e w) as [x w'] eqn:He.
    eapply rtc_l; [apply (pool_step_thread ps w i _ (k x) w' Hi); cbn; by rewrite He|].
    specialize (IH x (<[i := k x]> ps) w'). rewrite list_insert_insert_eq in IH.
    apply IH, list_lookup_insert_eq. by eapply lookup_lt_Some.
Qed.

(** The run that lets the threads perform an operation in the order listed; a
    thread that has ended is passed over. *)
Fixpoint run_schedule {A} (schedule : list nat) (c : list (prog E A) * W) :
    list (prog E A) * W :=
  match schedule with
  | [] => c
  | i :: schedule' =>
      match c.1 !! i ≫= fun p => prog_step p c.2 with
      | Some (p', w') => run_schedule schedule' (<[i := p']> c.1, w')
      | None => run_schedule schedule' c
      end
  end.

Lemma run_schedule_steps {A} schedule (c : list (prog E A) * W) :
  pool_steps c (run_schedule schedule c).
Proof.
  revert c. induction schedule as [|i schedule IH]; intros [ps w]; [apply rtc_refl|].
  cbn -[prog_step]. destruct (ps !! i) as [p|] eqn:Hp; cbn -[prog_step]; [|apply IH].
  destruct (prog_step p w) as [[p' w']|] eqn:Hstep; [|apply IH].
  eapply rtc_l; [by eapply pool_step_thread|apply IH].
Qed.
End Run.

Arguments run {E W} handle {A} p w.
Arguments run_schedule {E W} handle {A} schedule c.

(** ** Programs over finer operations

    [interp f p] replaces every operation of [p] by the program [f] gives it. *)
Section Interp.
Context {E F : Type -> Type}.
Variable f : forall X, E X -> prog F X.

Fixpoint interp {A} (p : prog E A) : prog F A :=
  match p with
  | Ret a => Ret a
  | Vis e k => f _ e ≫= fun x => interp (k x)
  end.

Lemma run_interp {W} (handleE : forall X, E X -> W -> X * W) (handleF : forall X, F X -> W -> X * W)
    {A} (p : prog E A) w :
  (forall X (e : E X) w, run handleF (f X e) w = handleE X e w) ->
  run handleF (interp p) w = run handleE p w.
Proof.
  intros Hf. revert w. induction p as [a|X e k IH]; intros w; [done|].
  cbn [interp]. rewrite run_bind, Hf. cbn. destruct (handleE X e w) as [x w']. apply IH.
Qed.
End Interp.

(** ** Programs restricted to some operations *)

Section Only.
Context {E : Type -> Type}.

(** Every operation the program can perform satisfies [P]. *)
Inductive only (P : forall X, E X -> Prop) {A} : prog E A -> Prop :=
| only_ret a : only P (Ret a)
| only_vis X (e : E X) k : P X e -> (forall x, only P (k x)) -> only P (Vis e k).

Lemma only_bind (P : forall X, E X -> Prop) {A B} (p : prog E A) (f : A -> prog E B) :
  only P p -> (forall a, only P (f a)) -> only P (p ≫= f).
Proof. induction 1; intros Hf; cbn; [done|]. constructor; auto. Qed.

Lemma only_perform (P : forall X, E X -> Prop) {X} (e : E X) :
  P X e -> only P (perform e).
Proof. intros. constructor; [done|]. constructor. Qed.

Lemma only_try (P : forall X, E X -> Prop) {A B} (p : prog E (result A))
    (k : A -> prog E (result B)) :
  only P p -> (forall a, only P (k a)) -> only P (try p k).
Proof.
  intros Hp Hk. apply only_bind; [done|]. intros []; [done|constructor].
Qed.

Lemma only_run {W} (P : forall X, E X -> Prop) (handle : forall X, E X -> W -> X * W)
    (Q : W -> Prop) :
  (forall X (e : E X) w, P X e -> Q w -> Q (handle X e w).2) ->
  forall A (p : prog E A), only P p -> forall w, Q w -> Q (run handle p w).2.
Proof.
  intros Hstep A p Hp. induction Hp as [|X e k He _ IH]; intros w Hw; [done|].
  cbn. specialize (Hstep X e w He Hw). destruct (handle X e w) as [x w']. by apply IH.
Qed.

(** Every operation of a pool of such programs keeps what each of them keeps. *)
Lemma only_pool {W A} (P : forall X, E X -> Prop) (handle : forall X, E X -> W -> X * W)
    (Q : W -> Prop) (c c' : list (prog E A) * W) :
  (forall X (e : E X) w, P X e -> Q w -> Q (handle X e w).2) ->
  pool_steps handle c c' -> Forall (only P) c.1 -> Q c.2 ->
  Forall (only P) c'.1 /\ Q c'.2.
Proof.
  intros Hstep. induction 1 as [c|c c1 c' Hc _ IH]; intros Hps Hw; [done|].
  destruct Hc as [ps w i p p' w' Hi Hp]. cbn in *.
  pose proof (Forall_lookup_1 _ _ _ _ Hps Hi) as Hone.
  destruct Hone as [|X e k He Hk]; [done|]. cbn in Hp.
  specialize (Hstep X e w He Hw). destruct (handle X e w) as [x w1]. injection Hp as <- <-.
  by apply IH; [apply Forall_insert|].
Qed.
End Only.

Lemma only_interp {E F : Type -> Type} (P : forall X, F X -> Prop) (f : forall X, E X -> prog F X) {A}
    (p : prog E A) :
  (forall X (e : E X), only P (f X e)) -> only P (interp f p).
Proof.
  intros Hf. induction p as [a|X e k IH]; cbn [interp]; [constructor|].
  by apply only_bind.
Qed.

Create HintDb prog.
#[export] Hint Resolve only_bind only_perform only_try : prog.
#[export] Hint Constructors only : prog.
