(* ===== verification/Store.v ===== *)
(** * The store's interface: [signerStore] of [store.go].

    [SignerStore S] is the Go interface over a store state [S]. A call comes
    with the moment it happens at: the clock reading, and a seed for what the
    runtime leaves unspecified (the order of a [range] over a map).

    [KeySpec] is the contract the handlers rely on for idempotency: each key is
    a three-state machine, and every other operation leaves it alone. *)
From S2P Require Export Types Prog.

Record call := { c_now : Time; c_seed : nat }.

(** What Go says of a [range] over a map: some order, each entry once. *)
Class GoMapOrder := {
  map_range : forall {A : Type}, nat -> list A -> list A;
  map_range_perm {A : Type} seed (l : list A) : map_range seed l ≡ₚ l;
}.

(** Map order as an insertion-ordered map would have it, for closed examples. *)
Definition list_map_order : GoMapOrder.
Proof. refine {| map_range := fun _ _ l => l |}. done. Defined.

(** [ClaimResult]'s results before the error: [resp, done, claimed]. *)
Abbreviation claim := (TransferResponse * bool * bool)%type.

Class SignerStore (S : Type) := {
  AcceptNonce : call -> string -> Duration -> S -> result bool * S;
  ClaimResult : call -> string -> S -> result claim * S;
  GetResult : call -> string -> S -> result (option TransferResponse) * S;
  SaveResult : call -> string -> TransferResponse -> S -> result unit * S;
  ReleaseClaim : call -> string -> S -> result unit * S;
  RecordCustodyEvent : call -> CustodyEvent -> S -> result unit * S;
  OpenCustodyIncident : call -> string -> string -> S -> result unit * S;
  ActiveCustodyIncident : call -> S -> result (option CustodyIncident) * S;
  ResolveCustodyIncident : call -> string -> S -> result unit * S;
  ReserveChainNonce : call -> string -> string -> Z -> S -> result Z * S;
  MarkChainNonceSubmitted : call -> string -> string -> Z -> string -> S -> result unit * S;
  MarkChainNonceFailed : call -> string -> string -> Z -> string -> S -> result unit * S;
  CreateSignerTransaction : call -> SignerTransaction -> S -> result unit * S;
  MarkSignerTransactionStatus :
    call -> string -> string -> string -> Z -> S -> result unit * S;
  ListOpenSignerTransactions : call -> Z -> S -> result (list SignerTransaction) * S;
  DailySubmittedOutflow : call -> string -> string -> S -> result f64 * S;
  Ready : call -> S -> result unit * S;
}.

(** ** The life of an idempotency key *)

Inductive key_state :=
| Free
| InProgress
| Done (resp : TransferResponse).

(** What a claim answers in each state, and the state after it. *)
Definition claim_answer (ks : key_state) : claim * key_state :=
  match ks with
  | Free => ((no_response, false, true), InProgress)
  | InProgress => ((no_response, false, false), InProgress)
  | Done r => ((r, true, false), Done r)
  end.

Definition release_key (ks : key_state) : key_state :=
  match ks with InProgress => Free | ks => ks end.

(** The other operations of the interface, as functions of the state alone. *)
Inductive other_op {S} `{SignerStore S} : call -> (S -> S) -> Prop :=
| op_AcceptNonce c n ttl : other_op c (fun s => (AcceptNonce c n ttl s).2)
| op_GetResult c k : other_op c (fun s => (GetResult c k s).2)
| op_RecordCustodyEvent c e : other_op c (fun s => (RecordCustodyEvent c e s).2)
| op_OpenCustodyIncident c r m : other_op c (fun s => (OpenCustodyIncident c r m s).2)
| op_ActiveCustodyIncident c : other_op c (fun s => (ActiveCustodyIncident c s).2)
| op_ResolveCustodyIncident c n : other_op c (fun s => (ResolveCustodyIncident c n s).2)
| op_ReserveChainNonce c w n p : other_op c (fun s => (ReserveChainNonce c w n p s).2)
| op_MarkChainNonceSubmitted c w n z h :
    other_op c (fun s => (MarkChainNonceSubmitted c w n z h s).2)
| op_MarkChainNonceFailed c w n z r :
    other_op c (fun s => (MarkChainNonceFailed c w n z r s).2)
| op_CreateSignerTransaction c t : other_op c (fun s => (CreateSignerTransaction c t s).2)
| op_MarkSignerTransactionStatus c h st r n :
    other_op c (fun s => (MarkSignerTransactionStatus c h st r n s).2)
| op_ListOpenSignerTransactions c n :
    other_op c (fun s => (ListOpenSignerTransactions c n s).2)
| op_DailySubmittedOutflow c t n : other_op c (fun s => (DailySubmittedOutflow c t n s).2)
| op_Ready c : other_op c (fun s => (Ready c s).2).

(** Any operation of the interface. *)
Inductive store_op {S} `{SignerStore S} : call -> (S -> S) -> Prop :=
| op_ClaimResult c k : store_op c (fun s => (ClaimResult c k s).2)
| op_SaveResult c k r : store_op c (fun s => (SaveResult c k r s).2)
| op_ReleaseClaim c k : store_op c (fun s => (ReleaseClaim c k s).2)
| op_other c f : other_op c f -> store_op c f.

(** A store keeps, for each non-empty key, one [key_state]. An operation that
    returns an error has left every key as it was, or has taken effect all the same
    (the connection may go after the commit). *)
Class KeySpec (S : Type) `{SignerStore S} := {
  key_of : S -> string -> key_state;
  claim_empty c s :
    ClaimResult c "" s = (Ok (no_response, false, true), s);
  claim_spec c k s s' r :
    k <> ""%string -> ClaimResult c k s = (r, s') ->
    match r with
    | Ok answer =>
        answer = (claim_answer (key_of s k)).1 /\
        key_of s' k = (claim_answer (key_of s k)).2
    | Err _ => key_of s' k = key_of s k \/ key_of s' k = (claim_answer (key_of s k)).2
    end /\ forall k', k' <> k -> key_of s' k' = key_of s k';
  save_empty c resp s : SaveResult c "" resp s = (Ok tt, s);
  save_spec c k resp s s' r :
    k <> ""%string -> key_of s k = InProgress -> SaveResult c k resp s = (r, s') ->
    key_of s' k = Done resp \/ is_ok r = false /\ key_of s' k = InProgress;
  save_frame c k resp s k' :
    k' <> k -> key_of (SaveResult c k resp s).2 k' = key_of s k';
  release_empty c s : ReleaseClaim c "" s = (Ok tt, s);
  release_spec c k s s' r :
    k <> ""%string -> ReleaseClaim c k s = (r, s') ->
    (key_of s' k = release_key (key_of s k) \/ is_ok r = false /\ key_of s' k = key_of s k) /\
    forall k', k' <> k -> key_of s' k' = key_of s k';
  other_spec c f s k : other_op c f -> key_of (f s) k = key_of s k;
}.

(** [total += value] when the amount parses. *)
Definition add_amount (total : f64) (raw : string) : f64 :=
  match ParseFloat raw with Some value => fadd total value | None => total end.

(** The contract of the treasury limits: the outflow a store tells is the sum, in
    some order, of the amounts of the records that count at that moment. *)
Class OutflowSpec (S : Type) `{SignerStore S} := {
  outflow_texts : call -> string -> string -> S -> list string;
  outflow_spec c token network s outflow :
    (DailySubmittedOutflow c token network s).1 = Ok outflow ->
    exists texts, texts ≡ₚ outflow_texts c token network s /\
      outflow = foldl add_amount fzero texts;
}.

(** ** Store calls as operations of a program *)

Inductive store_eff : Type -> Type :=
| SAcceptNonce (nonce : string) (ttl : Duration) : store_eff (result bool)
| SClaimResult (key : string) : store_eff (result claim)
| SGetResult (key : string) : store_eff (result (option TransferResponse))
| SSaveResult (key : string) (resp : TransferResponse) : store_eff (result unit)
| SReleaseClaim (key : string) : store_eff (result unit)
| SRecordCustodyEvent (event : CustodyEvent) : store_eff (result unit)
| SOpenCustodyIncident (reason mode : string) : store_eff (result unit)
| SActiveCustodyIncident : store_eff (result (option CustodyIncident))
| SResolveCustodyIncident (note : string) : store_eff (result unit)
| SReserveChainNonce (wallet network : string) (chainPending : Z) : store_eff (result Z)
| SMarkChainNonceSubmitted (wallet network : string) (nonce : Z) (txHash : string) :
    store_eff (result unit)
| SMarkChainNonceFailed (wallet network : string) (nonce : Z) (reason : string) :
    store_eff (result unit)
| SCreateSignerTransaction (item : SignerTransaction) : store_eff (result unit)
| SMarkSignerTransactionStatus (txHash status reason : string) (confirmations : Z) :
    store_eff (result unit)
| SListOpenSignerTransactions (limit : Z) : store_eff (result (list SignerTransaction))
| SDailySubmittedOutflow (token network : string) : store_eff (result f64)
| SReady : store_eff (result unit).

Definition handle_store {S} `{SignerStore S} (c : call) (X : Type) (e : store_eff X) : S -> X * S :=
  match e in store_eff X return S -> X * S with
  | SAcceptNonce n ttl => AcceptNonce c n ttl
  | SClaimResult k => ClaimResult c k
  | SGetResult k => GetResult c k
  | SSaveResult k r => SaveResult c k r
  | SReleaseClaim k => ReleaseClaim c k
  | SRecordCustodyEvent e => RecordCustodyEvent c e
  | SOpenCustodyIncident r m => OpenCustodyIncident c r m
  | SActiveCustodyIncident => ActiveCustodyIncident c
  | SResolveCustodyIncident n => ResolveCustodyIncident c n
  | SReserveChainNonce w n p => ReserveChainNonce c w n p
  | SMarkChainNonceSubmitted w n z h => MarkChainNonceSubmitted c w n z h
  | SMarkChainNonceFailed w n z r => MarkChainNonceFailed c w n z r
  | SCreateSignerTransaction t => CreateSignerTransaction c t
  | SMarkSignerTransactionStatus h st r n => MarkSignerTransactionStatus c h st r n
  | SListOpenSignerTransactions n => ListOpenSignerTransactions c n
  | SDailySubmittedOutflow t n => DailySubmittedOutflow c t n
  | SReady => Ready c
  end.

(** The calls that act on idempotency keys. *)
Definition key_call {X} (e : store_eff X) : bool :=
  match e with SClaimResult _ | SSaveResult _ _ | SReleaseClaim _ => true | _ => false end.

Lemma handle_store_other {S} `{KeySpec S} c X (e : store_eff X) s k :
  key_call e = false -> key_of (handle_store c X e s).2 k = key_of s k.
Proof.
  intros He. destruct e; try done; cbn [handle_store].
  - apply (other_spec c (fun s => (AcceptNonce c nonce ttl s).2)), op_AcceptNonce.
  - apply (other_spec c (fun s => (GetResult c key s).2)), op_GetResult.
  - apply (other_spec c (fun s => (RecordCustodyEvent c event s).2)), op_RecordCustodyEvent.
  - apply (other_spec c (fun s => (OpenCustodyIncident c reason mode s).2)), op_OpenCustodyIncident.
  - apply (other_spec c (fun s => (ActiveCustodyIncident c s).2)), op_ActiveCustodyIncident.
  - apply (other_spec c (fun s => (ResolveCustodyIncident c note s).2)), op_ResolveCustodyIncident.
  - apply (other_spec c (fun s => (ReserveChainNonce c wallet network chainPending s).2)),
      op_ReserveChainNonce.
  - apply (other_spec c (fun s => (MarkChainNonceSubmitted c wallet network nonce txHash s).2)),
      op_MarkChainNonceSubmitted.
  - apply (other_spec c (fun s => (MarkChainNonceFailed c wallet network nonce reason s).2)),
      op_MarkChainNonceFailed.
  - apply (other_spec c (fun s => (CreateSignerTransaction c item s).2)), op_CreateSignerTransaction.
  - apply (other_spec c (fun s =>
      (MarkSignerTransactionStatus c txHash status reason confirmations s).2)),
      op_MarkSignerTransactionStatus.
  - apply (other_spec c (fun s => (ListOpenSignerTransactions c limit s).2)),
      op_ListOpenSignerTransactions.
  - apply (other_spec c (fun s => (DailySubmittedOutflow c token network s).2)),
      op_DailySubmittedOutflow.
  - apply (other_spec c (fun s => (Ready c s).2)), op_Ready.
Qed.

(** ** The life of a custody incident

    At most one incident is active; opening a second keeps the first. The
    operations the guard uses otherwise leave it alone. *)
Class IncidentSpec (S : Type) `{SignerStore S} := {
  active_incident : S -> option CustodyIncident;
  active_spec c s :
    active_incident (ActiveCustodyIncident c s).2 = active_incident s /\
    match (ActiveCustodyIncident c s).1 with Ok i => i = active_incident s | Err _ => True end;
  open_spec c reason mode s :
    let (r, s') := OpenCustodyIncident c reason mode s in
    (is_ok r = false /\ active_incident s' = active_incident s) \/
    match active_incident s with
    | Some i => active_incident s' = Some i
    | None =>
        exists id, active_incident s' =
          Some {| inc_ID := id; inc_Reason := reason; inc_Mode := mode; inc_CreatedAt := c_now c |}
    end;
  resolve_spec c note s :
    let (r, s') := ResolveCustodyIncident c note s in
    active_incident s' = None \/ is_ok r = false /\ active_incident s' = active_incident s;
  record_spec c e s : active_incident (RecordCustodyEvent c e s).2 = active_incident s;
}.

(** ** Chain nonces

    A reservation is for a wallet and a network. While every nonce taken is below
    the last [uint64], where the counter would wrap, a reservation returns one
    that was not taken and takes it; nothing gives a nonce back. *)
Abbreviation reservation := (string * string * Z)%type.

Definition last_nonce : Z := 2 ^ 64 - 1.

Definition reserve_call {X} (e : store_eff X) : bool :=
  match e with SReserveChainNonce _ _ _ => true | _ => false end.

Class ChainSpec (S : Type) `{SignerStore S} := {
  nonce_taken : S -> reservation -> Prop;
  reserve_spec c wallet network p s :
    (forall u, nonce_taken s u -> u.2 < last_nonce) ->
    let (r, s') := ReserveChainNonce c wallet network p s in
    (forall u, nonce_taken s u -> nonce_taken s' u) /\
    match r with
    | Ok n =>
        ~ nonce_taken s (wallet, network, n) /\ nonce_taken s' (wallet, network, n) /\
        forall u, nonce_taken s' u -> nonce_taken s u \/ u.2 <= n
    | Err _ => forall u, nonce_taken s' u -> nonce_taken s u \/ u.2 < last_nonce
    end;
  chain_frame c X (e : store_eff X) s u :
    reserve_call e = false -> nonce_taken (handle_store c X e s).2 u <-> nonce_taken s u;
}.
