(* ===== verification/MemStore.v ===== *)
(** * The in-memory store: [memorySignerStore] of [store.go].

    Every method holds the mutex from its first line to its last, so each is
    one function of the whole state. *)
From S2P Require Export Store.

Record memorySignerStore := {
  nonces : gmap string Time;
  results : gmap string TransferResponse;
  locks : gset string;
  chainNonces : gmap string Z;
  transactions : gmap string SignerTransaction;
  activeIncident : option CustodyIncident;
  events : list CustodyEvent;
}.

Definition newMemorySignerStore : memorySignerStore := {|
  nonces := ∅; results := ∅; locks := ∅; chainNonces := ∅; transactions := ∅;
  activeIncident := None; events := [] |}.

Definition set_nonces n s := {|
  nonces := n; results := results s; locks := locks s; chainNonces := chainNonces s;
  transactions := transactions s; activeIncident := activeIncident s; events := events s |}.
Definition set_keys r l s := {|
  nonces := nonces s; results := r; locks := l; chainNonces := chainNonces s;
  transactions := transactions s; activeIncident := activeIncident s; events := events s |}.
Definition set_chainNonces n s := {|
  nonces := nonces s; results := results s; locks := locks s; chainNonces := n;
  transactions := transactions s; activeIncident := activeIncident s; events := events s |}.
Definition set_transactions t s := {|
  nonces := nonces s; results := results s; locks := locks s; chainNonces := chainNonces s;
  transactions := t; activeIncident := activeIncident s; events := events s |}.
Definition set_incident i s := {|
  nonces := nonces s; results := results s; locks := locks s; chainNonces := chainNonces s;
  transactions := transactions s; activeIncident := i; events := events s |}.
Definition set_events e s := {|
  nonces := nonces s; results := results s; locks := locks s; chainNonces := chainNonces s;
  transactions := transactions s; activeIncident := activeIncident s; events := e |}.

Section MemStore.
Context `{GoMapOrder}.
Implicit Types s : memorySignerStore.

Definition mem_AcceptNonce (c : call) (nonce : string) (ttl : Duration) s :
    result bool * memorySignerStore :=
  let now := c_now c in
  let live := filter (fun kv => After now kv.2 = false) (nonces s) in
  match live !! nonce with
  | Some _ => (Ok false, set_nonces live s)
  | None => (Ok true, set_nonces (<[nonce := time_Add now ttl]> live) s)
  end.

Definition mem_GetResult (c : call) (key : string) s :
    result (option TransferResponse) * memorySignerStore :=
  (Ok (results s !! key), s).

Definition mem_ClaimResult (c : call) (key : string) s : result claim * memorySignerStore :=
  if String.eqb key "" then (Ok (no_response, false, true), s) else
  match results s !! key with
  | Some resp => (Ok (resp, true, false), s)
  | None =>
      if bool_decide (key ∈ locks s) then (Ok (no_response, false, false), s)
      else (Ok (no_response, false, true), set_keys (results s) ({[key]} ∪ locks s) s)
  end.

Definition mem_SaveResult (c : call) (key : string) (resp : TransferResponse) s :
    result unit * memorySignerStore :=
  if String.eqb key "" then (Ok tt, s)
  else (Ok tt, set_keys (<[key := resp]> (results s)) (locks s ∖ {[key]}) s).

Definition mem_ReleaseClaim (c : call) (key : string) s : result unit * memorySignerStore :=
  if String.eqb key "" then (Ok tt, s)
  else (Ok tt, set_keys (results s) (locks s ∖ {[key]}) s).

Definition mem_RecordCustodyEvent (c : call) (event : CustodyEvent) s :
    result unit * memorySignerStore :=
  (Ok tt, set_events (events s ++ [event])%list s).

Definition mem_OpenCustodyIncident (c : call) (reason mode : string) s :
    result unit * memorySignerStore :=
  match activeIncident s with
  | Some _ => (Ok tt, s)
  | None =>
      (Ok tt, set_incident (Some {| inc_ID := 1; inc_Reason := reason; inc_Mode := mode;
                                    inc_CreatedAt := c_now c |}) s)
  end.

Definition mem_ActiveCustodyIncident (c : call) s :
    result (option CustodyIncident) * memorySignerStore :=
  (Ok (activeIncident s), s).

Definition mem_ResolveCustodyIncident (c : call) (note : string) s :
    result unit * memorySignerStore :=
  (Ok tt, set_incident None s).

Definition chain_key (wallet network : string) : string := wallet +:+ "|" +:+ network.

Definition mem_ReserveChainNonce (c : call) (wallet network : string) (chainPending : Z) s :
    result Z * memorySignerStore :=
  let key := chain_key wallet network in
  let next :=
    match chainNonces s !! key with
    | Some current =>
        if chainPending <? u64 (current + 1) then u64 (current + 1) else chainPending
    | None => chainPending
    end in
  (Ok next, set_chainNonces (<[key := next]> (chainNonces s)) s).

Definition mem_MarkChainNonceSubmitted (c : call) (wallet network : string) (nonce : Z)
    (txHash : string) s : result unit * memorySignerStore := (Ok tt, s).

Definition mem_MarkChainNonceFailed (c : call) (wallet network : string) (nonce : Z)
    (reason : string) s : result unit * memorySignerStore := (Ok tt, s).

Definition mem_CreateSignerTransaction (c : call) (item : SignerTransaction) s :
    result unit * memorySignerStore :=
  (Ok tt, set_transactions (<[sx_TxHash item := item]> (transactions s)) s).

Definition with_status (status reason : string) (confirmations : Z) (t : SignerTransaction) :
    SignerTransaction := {|
  sx_IdempotencyKey := sx_IdempotencyKey t; sx_WalletFrom := sx_WalletFrom t;
  sx_WalletTo := sx_WalletTo t; sx_Token := sx_Token t; sx_Amount := sx_Amount t;
  sx_Network := sx_Network t; sx_Nonce := sx_Nonce t; sx_TxHash := sx_TxHash t;
  sx_Status := status; sx_Reason := reason; sx_Confirmations := confirmations |}.

Definition mem_MarkSignerTransactionStatus (c : call) (txHash status reason : string)
    (confirmations : Z) s : result unit * memorySignerStore :=
  match transactions s !! txHash with
  | None => (Ok tt, s)
  | Some item =>
      (Ok tt, set_transactions
                (<[txHash := with_status status reason confirmations item]> (transactions s)) s)
  end.

(** The transactions in the order this call's [range] meets them. *)
Definition ranged (c : call) s : list SignerTransaction :=
  (map_range (c_seed c) (map_to_list (transactions s))).*2.

(** [append] then [if limit > 0 && len(out) >= limit { break }]. *)
Fixpoint collect_open (limit : Z) (out l : list SignerTransaction) : list SignerTransaction :=
  match l with
  | [] => out
  | item :: l' =>
      if is_open item then
        let out := (out ++ [item])%list in
        if (0 <? limit) && (limit <=? Z.of_nat (length out)) then out
        else collect_open limit out l'
      else collect_open limit out l'
  end.

Definition mem_ListOpenSignerTransactions (c : call) (limit : Z) s :
    result (list SignerTransaction) * memorySignerStore :=
  (Ok (collect_open limit [] (ranged c s)), s).

Definition outflow_step (token network : string) (total : f64) (item : SignerTransaction) : f64 :=
  if negb (String.eqb (sx_Token item) token) || negb (String.eqb (sx_Network item) network)
     || negb (counts_as_outflow item)
  then total else add_amount total (sx_Amount item).

Definition mem_DailySubmittedOutflow (c : call) (token network : string) s :
    result f64 * memorySignerStore :=
  (Ok (foldl (outflow_step token network) fzero (ranged c s)), s).

Definition mem_Ready (c : call) s : result unit * memorySignerStore := (Ok tt, s).

#[export] Instance mem_store : SignerStore memorySignerStore := {|
  AcceptNonce := mem_AcceptNonce;
  ClaimResult := mem_ClaimResult;
  GetResult := mem_GetResult;
  SaveResult := mem_SaveResult;
  ReleaseClaim := mem_ReleaseClaim;
  RecordCustodyEvent := mem_RecordCustodyEvent;
  OpenCustodyIncident := mem_OpenCustodyIncident;
  ActiveCustodyIncident := mem_ActiveCustodyIncident;
  ResolveCustodyIncident := mem_ResolveCustodyIncident;
  ReserveChainNonce := mem_ReserveChainNonce;
  MarkChainNonceSubmitted := mem_MarkChainNonceSubmitted;
  MarkChainNonceFailed := mem_MarkChainNonceFailed;
  CreateSignerTransaction := mem_CreateSignerTransaction;
  MarkSignerTransactionStatus := mem_MarkSignerTransactionStatus;
  ListOpenSignerTransactions := mem_ListOpenSignerTransactions;
  DailySubmittedOutflow := mem_DailySubmittedOutflow;
  Ready := mem_Ready;
|}.
End MemStore.

(** ** Lemmas *)

Section MemLemmas.
Context {O : GoMapOrder}.
Implicit Types s : memorySignerStore.

(** The part of the state an idempotency key lives in. *)
Definition mem_key_of s (k : string) : key_state :=
  match results s !! k with
  | Some r => Done r
  | None => if bool_decide (k ∈ locks s) then InProgress else Free
  end.

Lemma mem_other_keys c f s :
  other_op c f -> results (f s) = results s /\ locks (f s) = locks s.
Proof.
  intros Hop. destruct Hop; cbn; try done.
  - unfold mem_AcceptNonce. by case_match.
  - unfold mem_OpenCustodyIncident. by case_match.
  - unfold mem_MarkSignerTransactionStatus. by case_match.
Qed.

Lemma set_keys_other s r l k' :
  results s !! k' = r !! k' -> (k' ∈ l <-> k' ∈ locks s) ->
  mem_key_of (set_keys r l s) k' = mem_key_of s k'.
Proof.
  intros Hr Hl. unfold mem_key_of; cbn. rewrite Hr. case_match; [done|].
  by rewrite (bool_decide_ext _ _ Hl).
Qed.

(** The record is of the token and network and counts. *)
Definition counts_for (token network : string) (item : SignerTransaction) : bool :=
  negb (negb (String.eqb (sx_Token item) token) || negb (String.eqb (sx_Network item) network)
        || negb (counts_as_outflow item)).

Lemma outflow_amounts token network x l :
  foldl (outflow_step token network) x l =
    foldl add_amount x (sx_Amount <$> List.filter (counts_for token network) l).
Proof.
  revert x. induction l as [|item l IH]; intros x; [done|]. cbn [foldl List.filter].
  rewrite IH. unfold outflow_step at 1, counts_for at 2. by destruct (_ || _).
Qed.

(** All records under the spelling of the token. *)
#[export] Instance mem_outflow_spec : OutflowSpec memorySignerStore.
Proof.
  refine {| outflow_texts c token network s :=
    sx_Amount <$> List.filter (counts_for token network) (map_to_list (transactions s)).*2 |}.
  intros c token network s outflow [= <-]. eexists. split; [|apply outflow_amounts].
  apply fmap_Permutation, filter_bool_perm. unfold ranged. by rewrite map_range_perm.
Defined.

#[export] Instance mem_key_spec : KeySpec memorySignerStore.
Proof.
  refine {| key_of := mem_key_of |}; cbn.
  - done.
  - intros c k s s' r Hk. unfold mem_ClaimResult.
    rewrite (proj2 (String.eqb_neq k "") Hk). unfold mem_key_of at 1 2 3.
    destruct (results s !! k) as [resp|] eqn:Hr.
    + intros [= <- <-]. cbn. unfold mem_key_of. by rewrite Hr.
    + case_bool_decide as Hl; intros [= <- <-]; cbn; unfold mem_key_of; cbn; rewrite Hr.
      * by rewrite bool_decide_true.
      * rewrite bool_decide_true by set_solver. split; [done|]. intros k' Hne.
        by rewrite (bool_decide_ext (k' ∈ {[k]} ∪ locks s) (k' ∈ locks s)) by set_solver.
  - done.
  - intros c k resp s s' r Hk _. unfold mem_SaveResult.
    rewrite (proj2 (String.eqb_neq k "") Hk). intros [= <- <-]. left.
    unfold mem_key_of; cbn. by rewrite lookup_insert_eq.
  - intros c k resp s k' Hne. unfold mem_SaveResult. destruct (String.eqb k ""); [done|].
    cbn [snd]. apply set_keys_other; [by rewrite lookup_insert_ne|set_solver].
  - done.
  - intros c k s s' r Hk. unfold mem_ReleaseClaim.
    rewrite (proj2 (String.eqb_neq k "") Hk). intros [= <- <-]. split; [left|].
    + unfold mem_key_of; cbn. destruct (results s !! k); [done|].
      rewrite bool_decide_false by set_solver. by case_bool_decide.
    + intros k' Hne. apply set_keys_other; [done|set_solver].
  - intros c f s k Hop. destruct (mem_other_keys c f s Hop) as [Hr Hl].
    unfold mem_key_of. by rewrite Hr, Hl.
Defined.
End MemLemmas.

#[export] Instance mem_incident_spec `{GoMapOrder} : IncidentSpec memorySignerStore.
Proof.
  refine {| active_incident := activeIncident |}; cbn; try done.
  - intros c reason mode s. unfold mem_OpenCustodyIncident.
    destruct (activeIncident s) eqn:Hi; right; cbn; [done|]. by eexists.
  - intros c note s. by left.
Defined.

(** ** The store as a map of key states *)

Inductive key_op :=
| KClaim (k : string)
| KSave (k : string) (r : TransferResponse)
| KRelease (k : string).

Definition upd (m : string -> key_state) (k : string) (v : key_state) : string -> key_state :=
  fun k' => if bool_decide (k' = k) then v else m k'.

(** The abstract store: a claim answers from the key's state; a claim on the
    empty key is always granted and leaves no trace. *)
Definition abs_key_op (o : key_op) (m : string -> key_state) :
    option claim * (string -> key_state) :=
  match o with
  | KClaim k =>
      if String.eqb k "" then (Some (no_response, false, true), m)
      else ((Some (claim_answer (m k)).1), upd m k (claim_answer (m k)).2)
  | KSave k r => (None, if String.eqb k "" then m else upd m k (Done r))
  | KRelease k => (None, if String.eqb k "" then m else upd m k (release_key (m k)))
  end.

Definition mem_key_op (c : call) (o : key_op) (s : memorySignerStore) :
    option claim * memorySignerStore :=
  match o with
  | KClaim k =>
      let (r, s') := mem_ClaimResult c k s in
      (match r with Ok a => Some a | Err _ => None end, s')
  | KSave k r => (None, (mem_SaveResult c k r s).2)
  | KRelease k => (None, (mem_ReleaseClaim c k s).2)
  end.

Fixpoint run_key_ops {M} (step : key_op -> M -> option claim * M) (os : list key_op) (m : M) :
    list (option claim) * M :=
  match os with
  | [] => ([], m)
  | o :: os' =>
      let (a, m') := step o m in
      let (r, m'') := run_key_ops step os' m' in (a :: r, m'')
  end.

Lemma mem_key_op_refines c o s m :
  (forall k, m k = mem_key_of s k) ->
  (mem_key_op c o s).1 = (abs_key_op o m).1 /\
  (forall k, (abs_key_op o m).2 k = mem_key_of (mem_key_op c o s).2 k).
Proof.
  intros Hm. destruct o as [k|k r|k]; cbn;
    unfold mem_ClaimResult, mem_SaveResult, mem_ReleaseClaim;
    (destruct (String.eqb_spec k "") as [->|Hk]; [done|]).
  - rewrite Hm. unfold mem_key_of at 1 2. destruct (results s !! k) eqn:Hr; cbn.
    + split; [done|]. intros k'. unfold upd. case_bool_decide; subst; [|done].
      unfold mem_key_of. by rewrite Hr.
    + destruct (bool_decide (k ∈ locks s)) eqn:Hl;
        cbn; (split; [done|]); intros k'; unfold upd; destruct (bool_decide (k' = k)) eqn:Hk';
        apply bool_decide_eq_true_1 in Hk' || apply bool_decide_eq_false_1 in Hk'; subst.
      * unfold mem_key_of. by rewrite Hr, Hl.
      * by rewrite Hm.
      * unfold mem_key_of; cbn. rewrite Hr, Hl, bool_decide_true; [done|]. set_solver.
      * rewrite Hm. symmetry. apply set_keys_other; [done|set_solver].
  - split; [done|]. intros k'. unfold upd. case_bool_decide; subst; cbn.
    + unfold mem_key_of; cbn. by rewrite lookup_insert_eq.
    + rewrite Hm. symmetry. apply set_keys_other; [by rewrite lookup_insert_ne|set_solver].
  - split; [done|]. intros k'. unfold upd. case_bool_decide; subst; cbn.
    + rewrite Hm. unfold mem_key_of; cbn. destruct (results s !! k); [done|].
      rewrite (bool_decide_false (k ∈ locks s ∖ {[k]})) by set_solver.
      by destruct (bool_decide _).
    + rewrite Hm. symmetry. apply set_keys_other; [done|set_solver].
Qed.

(** C25: on any sequence of claims, saves and releases the in-memory store
    gives the answers of the three-state machine of each key. *)
Theorem mem_store_refines_keys (c : call) (os : list key_op) (s : memorySignerStore) :
  (run_key_ops (mem_key_op c) os s).1 = (run_key_ops abs_key_op os (mem_key_of s)).1.
Proof.
  assert (forall m, (forall k, m k = mem_key_of s k) ->
            (run_key_ops (mem_key_op c) os s).1 = (run_key_ops abs_key_op os m).1) as Hall;
    [|by apply Hall].
  revert s. induction os as [|o os IH]; intros s m Hm; [done|].
  cbn. destruct (mem_key_op_refines c o s m Hm) as [Ha Hs].
  destruct (mem_key_op c o s) as [a s'], (abs_key_op o m) as [a' m']. cbn in *. subst a'.
  specialize (IH s' m' Hs). destruct (run_key_ops _ os s'), (run_key_ops _ os m').
  cbn in *. congruence.
Qed.

(** ** Request nonces *)

(** Operations of the interface, each at a moment no later than [limit]. *)
Inductive step_until {S} `{SignerStore S} (limit : Time) : S -> S -> Prop :=
| step_until_op c f s : store_op c f -> c_now c <= limit -> step_until limit s (f s).

Section MemNonces.
Context {O : GoMapOrder}.

Lemma mem_AcceptNonce_live c nonce ttl s n e :
  nonces s !! n = Some e -> c_now c <= e ->
  nonces (mem_AcceptNonce c nonce ttl s).2 !! n = Some e.
Proof.
  intros Hn He. unfold mem_AcceptNonce.
  assert (filter (fun kv : string * Time => After (c_now c) kv.2 = false) (nonces s) !! n
          = Some e) as Hlive.
  { apply map_lookup_filter_Some. split; [done|]. unfold After; cbn. apply Z.ltb_ge. lia. }
  destruct (filter _ (nonces s) !! nonce) eqn:Hnonce; cbn; [done|].
  rewrite lookup_insert_ne; [done|]. intros ->. congruence.
Qed.

(** Only [AcceptNonce] touches the nonces. *)
Lemma mem_nonce_live c f s n e :
  store_op c f -> nonces s !! n = Some e -> c_now c <= e -> nonces (f s) !! n = Some e.
Proof.
  intros Hop Hn He.
  destruct Hop as [c k|c k r|c k|c f Hop]; [| | |destruct Hop]; cbn; try done.
  - unfold mem_ClaimResult. by repeat case_match.
  - unfold mem_SaveResult. by case_match.
  - unfold mem_ReleaseClaim. by case_match.
  - by apply mem_AcceptNonce_live.
  - unfold mem_OpenCustodyIncident. by case_match.
  - unfold mem_MarkSignerTransactionStatus. by case_match.
Qed.

Lemma mem_nonce_live_steps limit s s' n :
  rtc (step_until limit) s s' -> nonces s !! n = Some limit -> nonces s' !! n = Some limit.
Proof.
  induction 1 as [|s s1 s' Hstep _ IH]; [done|]. intros Hn. apply IH.
  destruct Hstep as [c f s Hop Hc]. by eapply mem_nonce_live.
Qed.

Lemma mem_AcceptNonce_known c nonce ttl s e :
  nonces s !! nonce = Some e -> c_now c <= e -> (mem_AcceptNonce c nonce ttl s).1 = Ok false.
Proof.
  intros Hn He. unfold mem_AcceptNonce.
  assert (filter (fun kv : string * Time => After (c_now c) kv.2 = false) (nonces s) !! nonce
          = Some e) as ->; [|done].
  apply map_lookup_filter_Some. split; [done|]. unfold After; cbn. apply Z.ltb_ge. lia.
Qed.

Lemma mem_AcceptNonce_stores c nonce ttl s s' :
  mem_AcceptNonce c nonce ttl s = (Ok true, s') ->
  nonces s' !! nonce = Some (time_Add (c_now c) ttl).
Proof.
  unfold mem_AcceptNonce. case_match; intros [= <-]. cbn. by rewrite lookup_insert_eq.
Qed.
End MemNonces.

(** A nonce the in-memory store accepted is refused until its time to live
    has passed, whatever the service does with the store in between. *)
Theorem mem_nonce_single_use `{GoMapOrder} (c c' : call) (nonce : string) (ttl ttl' : Duration)
    (s s1 s2 : memorySignerStore) :
  AcceptNonce c nonce ttl s = (Ok true, s1) ->
  rtc (step_until (time_Add (c_now c) ttl)) s1 s2 ->
  c_now c' <= time_Add (c_now c) ttl ->
  (AcceptNonce c' nonce ttl' s2).1 = Ok false.
Proof.
  intros Hacc Hsteps Hc'. apply mem_AcceptNonce_stores in Hacc.
  apply (mem_AcceptNonce_known _ _ _ _ (time_Add (c_now c) ttl)); [|done].
  by eapply mem_nonce_live_steps.
Qed.

Definition at_time (t : Time) : call := {| c_now := t; c_seed := 0%nat |}.

Lemma mem_nonce_single_use_witness :
  (@AcceptNonce _ (@mem_store list_map_order) (at_time 300) "n" 60
     (@AcceptNonce _ (@mem_store list_map_order) (at_time 250) "n" 60 newMemorySignerStore).2).1
  = Ok false.
Proof.
  assert (rtc (@step_until _ (@mem_store list_map_order) (time_Add 250 60))
            (@AcceptNonce _ (@mem_store list_map_order) (at_time 250) "n" 60
               newMemorySignerStore).2
            (@AcceptNonce _ (@mem_store list_map_order) (at_time 250) "n" 60
               newMemorySignerStore).2) as Hsteps by constructor.
  refine (@mem_nonce_single_use list_map_order (at_time 250) (at_time 300) "n" 60 60
            newMemorySignerStore _ _ _ Hsteps _); [reflexivity|].
  cbn. unfold time_Add. lia.
Defined.

(** ** Chain nonces *)

(** A reservation below [2^64], or an operation that leaves the counters. *)
Inductive counter_step `{GoMapOrder} (bound : Z) : memorySignerStore -> memorySignerStore -> Prop :=
| counter_reserve c wallet network p s :
    0 <= p <= bound -> counter_step bound s (ReserveChainNonce c wallet network p s).2
| counter_other c f s :
    store_op c f -> chainNonces (f s) = chainNonces s -> counter_step bound s (f s).

Section MemChainNonces.
Context {O : GoMapOrder}.

Definition counters_below (b : Z) (s : memorySignerStore) : Prop :=
  map_Forall (fun _ n => 0 <= n <= b) (chainNonces s).

Lemma mem_reserve_next c w n p b s :
  counters_below b s -> 0 <= p <= b -> b + 1 < 2 ^ 64 ->
  exists next, mem_ReserveChainNonce c w n p s
    = (Ok next, set_chainNonces (<[chain_key w n := next]> (chainNonces s)) s) /\
    p <= next <= b + 1 /\
    forall cur, chainNonces s !! chain_key w n = Some cur -> cur < next.
Proof.
  intros Hb Hp Hlt. unfold mem_ReserveChainNonce.
  destruct (chainNonces s !! chain_key w n) as [cur|] eqn:Hcur.
  - apply Hb in Hcur as Hc. unfold wrap_u. rewrite (Z.mod_small (cur + 1)) by lia.
    destruct (Z.ltb_spec p (cur + 1)); eexists; (split; [done|]); (split; [lia|]);
      intros ? [= <-]; lia.
  - eexists. split; [done|]. split; [lia|done].
Qed.

(** Counters never go down while they stay below [2^64]. *)
Lemma counter_step_mono bound b s s' :
  counter_step bound s s' -> counters_below b s -> bound <= b -> b + 1 < 2 ^ 64 ->
  counters_below (b + 1) s' /\
  forall key cur, chainNonces s !! key = Some cur ->
    exists cur', chainNonces s' !! key = Some cur' /\ cur <= cur'.
Proof.
  intros Hstep Hb Hle Hlt.
  assert (counters_below (b + 1) s) as Hb1.
  { intros k v Hk. apply Hb in Hk. lia. }
  destruct Hstep as [c w n p s Hp|c f s Hop Hf].
  - destruct (mem_reserve_next c w n p b s Hb ltac:(lia) Hlt) as (next & Hnext & Hr & Hcur).
    change (ReserveChainNonce c w n p s) with (mem_ReserveChainNonce c w n p s).
    rewrite Hnext. cbn. split.
    + apply map_Forall_insert_2; [lia|done].
    + intros key cur Hkey. destruct (decide (key = chain_key w n)) as [->|Hne].
      * exists next. rewrite lookup_insert_eq. split; [done|]. specialize (Hcur cur Hkey). lia.
      * exists cur. rewrite lookup_insert_ne by done. split; [done|lia].
  - unfold counters_below. rewrite Hf. split; [done|]. eauto with lia.
Qed.

Lemma counter_steps_mono bound k b s s' :
  nsteps (counter_step bound) k s s' -> counters_below b s -> bound <= b ->
  b + Z.of_nat k + 1 < 2 ^ 64 ->
  counters_below (b + Z.of_nat k) s' /\
  forall key cur, chainNonces s !! key = Some cur ->
    exists cur', chainNonces s' !! key = Some cur' /\ cur <= cur'.
Proof.
  intros Hsteps. revert b. induction Hsteps as [s|k s s1 s' Hstep _ IH]; intros b Hb Hle Hlt.
  - rewrite Z.add_0_r. split; [done|]. eauto with lia.
  - destruct (counter_step_mono _ b _ _ Hstep Hb Hle) as [Hb1 Hm1]; [lia|].
    destruct (IH (b + 1) Hb1) as [Hb2 Hm2]; [lia..|]. split.
    + by replace (b + Z.of_nat (S k)) with (b + 1 + Z.of_nat k) by lia.
    + intros key cur Hkey. destruct (Hm1 _ _ Hkey) as (cur1 & Hk1 & ?).
      destruct (Hm2 _ _ Hk1) as (cur2 & ? & ?). exists cur2. split; [done|lia].
Qed.

(** The nonces up to the counter of their key are taken. *)
Definition mem_nonce_taken (s : memorySignerStore) (u : reservation) : Prop :=
  exists cur, chainNonces s !! chain_key u.1.1 u.1.2 = Some cur /\ u.2 <= cur.

Lemma u64_at_least z : z < 2 ^ 64 -> z <= u64 z.
Proof.
  intros Hz. unfold wrap_u. destruct (decide (0 <= z)); [by rewrite Z.mod_small|].
  pose proof (Z.mod_pos_bound z (2 ^ 64)). lia.
Qed.

#[export] Instance mem_chain_spec : ChainSpec memorySignerStore.
Proof.
  refine {| nonce_taken := mem_nonce_taken |}.
  - intros c wallet network p s Hbelow. cbn [ReserveChainNonce mem_store]. unfold mem_ReserveChainNonce.
    set (next := match _ with Some _ => _ | None => _ end).
    assert (forall cur, chainNonces s !! chain_key wallet network = Some cur -> cur < next) as Hnext.
    { intros cur Hcur. unfold next. rewrite Hcur.
      assert (cur < last_nonce) as Hlast by (apply (Hbelow (wallet, network, cur)); by exists cur).
      pose proof (u64_at_least (cur + 1) ltac:(unfold last_nonce in *; lia)).
      destruct (Z.ltb_spec p (u64 (cur + 1))); lia. }
    unfold mem_nonce_taken. cbn. split; [|split; [|split]].
    + intros u (cur & Hcur & Hle). destruct (decide (chain_key wallet network = chain_key u.1.1 u.1.2)) as [He|He].
      * exists next. rewrite He, lookup_insert_eq. split; [done|]. rewrite <- He in Hcur.
        specialize (Hnext cur Hcur). lia.
      * exists cur. by rewrite lookup_insert_ne.
    + intros (cur & Hcur%Hnext & ?). lia.
    + exists next. by rewrite lookup_insert_eq.
    + intros u (cur & Hcur & Hle). destruct (decide (chain_key wallet network = chain_key u.1.1 u.1.2)) as [He|He].
      * rewrite He, lookup_insert_eq in Hcur. injection Hcur as <-. by right.
      * rewrite lookup_insert_ne in Hcur by done. left. by exists cur.
  - intros c X e s u He. unfold mem_nonce_taken.
    enough (chainNonces (handle_store c X e s).2 = chainNonces s) as -> by done.
    destruct e; try done; cbn;
      unfold mem_AcceptNonce, mem_ClaimResult, mem_SaveResult, mem_ReleaseClaim,
        mem_OpenCustodyIncident, mem_MarkSignerTransactionStatus; by repeat case_match.
Defined.
End MemChainNonces.

(** Two reservations for a wallet and a network never get the same nonce:
    the later one is larger, whatever ran in between, and both are at least
    what the chain reported as pending. *)
Theorem mem_reservations_increase `{GoMapOrder} (bound : Z) (k : nat) (c c' : call)
    (wallet network : string) (p p' n n' : Z) (s s1 s2 s3 : memorySignerStore) :
  counters_below bound s -> 0 <= p <= bound -> 0 <= p' <= bound ->
  bound + Z.of_nat k + 2 < 2 ^ 64 ->
  ReserveChainNonce c wallet network p s = (Ok n, s1) ->
  nsteps (counter_step bound) k s1 s2 ->
  ReserveChainNonce c' wallet network p' s2 = (Ok n', s3) ->
  n < n' /\ p <= n /\ p' <= n'.
Proof.
  intros Hb Hp Hp' Hlt Hr1 Hsteps Hr2.
  change (mem_ReserveChainNonce c wallet network p s = (Ok n, s1)) in Hr1.
  change (mem_ReserveChainNonce c' wallet network p' s2 = (Ok n', s3)) in Hr2.
  destruct (mem_reserve_next c wallet network p bound s Hb Hp) as (? & Heq & ? & _); [lia|].
  rewrite Heq in Hr1. injection Hr1 as -> <-.
  destruct (counter_steps_mono bound k (bound + 1) _ s2 Hsteps) as [Hb2 Hm];
    [apply map_Forall_insert_2; [lia|intros ? ? Hk; apply Hb in Hk; lia]|lia|lia|].
  destruct (Hm (chain_key wallet network) n) as (cur & Hcur & ?);
    [cbn; apply lookup_insert_eq|].
  destruct (mem_reserve_next c' wallet network p' (bound + 1 + Z.of_nat k) s2 Hb2)
    as (? & Heq2 & ? & Hgt); [lia|lia|].
  rewrite Heq2 in Hr2. injection Hr2 as -> _. specialize (Hgt _ Hcur). lia.
Qed.

Lemma mem_reservations_increase_witness :
  (@ReserveChainNonce _ (@mem_store list_map_order) (at_time 1) "0xa" "bsc" 4
     (@ReserveChainNonce _ (@mem_store list_map_order) (at_time 0) "0xa" "bsc" 7
        newMemorySignerStore).2).1 = Ok 8 /\ 7 < 8 /\ 7 <= 7 /\ 4 <= 8.
Proof.
  split; [reflexivity|].
  refine (@mem_reservations_increase list_map_order 10 0 (at_time 0) (at_time 1) "0xa" "bsc" 7 4
            7 8 newMemorySignerStore _ _ _ _ _ _ _ _ (nsteps_O _ _) _);
    [by intros ? ? ?|lia|lia|reflexivity|reflexivity|reflexivity].
Defined.
