(* ===== verification/Nonce.v ===== *)
(** * Request nonces: [internal/security/nonce.go].

    [NonceStore] is the Go interface; each method is atomic (a mutex, or one
    Redis command). [ValidateNonce] is two calls, and other goroutines run in
    between, the deletions that [Exists] spawns among them. *)
From S2P Require Export Prog Config.

Class NonceStore (S : Type) := {
  ns_Store : Time -> string -> Duration -> S -> result unit * S;
  ns_Exists : Time -> string -> S -> result bool * S;
  ns_Delete : string -> S -> result unit * S;
  ns_Cleanup : Time -> S -> result unit * S;
}.

(** ** The in-memory store *)

(** [spawned]: the arguments of the [go s.Delete(ctx, nonce)] still to run. *)
Record InMemoryNonceStore := { ns_store : gmap string Time; spawned : list string }.

Definition NewInMemoryNonceStore : InMemoryNonceStore := {| ns_store := ∅; spawned := [] |}.

Definition inmem_Store (now : Time) (nonce : string) (ttl : Duration) (s : InMemoryNonceStore) :
    result unit * InMemoryNonceStore :=
  match ns_store s !! nonce with
  | Some _ => (Err "nonce já existe", s)
  | None => (Ok tt, {| ns_store := <[nonce := time_Add now ttl]> (ns_store s);
                       spawned := spawned s |})
  end.

Definition inmem_Exists (now : Time) (nonce : string) (s : InMemoryNonceStore) :
    result bool * InMemoryNonceStore :=
  match ns_store s !! nonce with
  | None => (Ok false, s)
  | Some expiration =>
      if After now expiration
      then (Ok false, {| ns_store := ns_store s; spawned := spawned s ++ [nonce] |}%list)
      else (Ok true, s)
  end.

Definition inmem_Delete (nonce : string) (s : InMemoryNonceStore) :
    result unit * InMemoryNonceStore :=
  (Ok tt, {| ns_store := delete nonce (ns_store s); spawned := spawned s |}).

Definition inmem_Cleanup (now : Time) (s : InMemoryNonceStore) :
    result unit * InMemoryNonceStore :=
  (Ok tt, {| ns_store := filter (fun kv => After now kv.2 = false) (ns_store s);
             spawned := spawned s |}).

#[export] Instance inmem_nonce_store : NonceStore InMemoryNonceStore := {|
  ns_Store := inmem_Store; ns_Exists := inmem_Exists;
  ns_Delete := inmem_Delete; ns_Cleanup := inmem_Cleanup |}.

(** One spawned deletion runs. *)
Definition run_spawned (i : nat) (s : InMemoryNonceStore) : InMemoryNonceStore :=
  match spawned s !! i with
  | None => s
  | Some nonce =>
      (inmem_Delete nonce {| ns_store := ns_store s; spawned := delete i (spawned s) |}).2
  end.

(** ** The Redis store *)

(** The client the store is given: [go-redis]. *)
Class RedisClient (R : Type) := {
  redis_SetNX : Time -> string -> string -> Duration -> R -> result bool * R;
  redis_Exists : Time -> string -> R -> result Z * R;
  redis_Del : string -> R -> result Z * R;
}.

Section Redis.
Context `{RedisClient R}.

Definition redis_key (nonce : string) : string := "signer:nonce:" +:+ nonce.

(** [None] is a nil store or a nil client. *)
Definition redis_Store (now : Time) (nonce : string) (ttl : Duration) (s : option R) :
    result unit * option R :=
  match s with
  | None => (Err "redis nonce store nao inicializado", None)
  | Some r =>
      let (a, r') := redis_SetNX now (redis_key nonce) "1" ttl r in
      (match a with
       | Err e => Err e
       | Ok false => Err "nonce ja existe"
       | Ok true => Ok tt
       end, Some r')
  end.

Definition redis_nonce_Exists (now : Time) (nonce : string) (s : option R) :
    result bool * option R :=
  match s with
  | None => (Err "redis nonce store nao inicializado", None)
  | Some r =>
      let (a, r') := redis_Exists now (redis_key nonce) r in
      (match a with Err e => Err e | Ok val => Ok (0 <? val) end, Some r')
  end.

Definition redis_Delete (nonce : string) (s : option R) : result unit * option R :=
  match s with
  | None => (Ok tt, None)
  | Some r =>
      let (a, r') := redis_Del (redis_key nonce) r in
      (match a with Err e => Err e | Ok _ => Ok tt end, Some r')
  end.

Definition redis_Cleanup (now : Time) (s : option R) : result unit * option R := (Ok tt, s).

#[export] Instance redis_nonce_store : NonceStore (option R) := {|
  ns_Store := redis_Store; ns_Exists := redis_nonce_Exists;
  ns_Delete := redis_Delete; ns_Cleanup := redis_Cleanup |}.
End Redis.

(** ** Connecting *)

Record redis_settings := {
  PoolSize : Z; MinIdleConns : Z; MaxRetries : Z;
  DialTimeout : Duration; ReadTimeout : Duration; WriteTimeout : Duration; PoolTimeout : Duration;
}.

Definition nonce_store_settings : redis_settings := {|
  PoolSize := 16; MinIdleConns := 2; MaxRetries := 2;
  DialTimeout := 2 * Second; ReadTimeout := 700 * Millisecond;
  WriteTimeout := 700 * Millisecond; PoolTimeout := 800 * Millisecond |}.

Section Connect.
Context {O R : Type}.
(** [redis.ParseURL]; [redis.NewClient] on its options, tuned; [Ping] and [Close]
    of the client. *)
Variable ParseURL : string -> result O.
Variable NewClient : O -> redis_settings -> R.
Variable Ping : R -> result unit.
Variable Close : R -> result unit.

(** A client that does not answer the ping is closed, its error ignored. *)
Definition NewRedisNonceStore (redisURL : string) : result R :=
  opt ← ParseURL redisURL;
  let client := NewClient opt nonce_store_settings in
  match Ping client with
  | Err e => Err e
  | Ok _ => Ok client
  end.

Definition redis_Close (s : option R) : result unit :=
  match s with None => Ok tt | Some r => Close r end.
End Connect.

(** ** The manager *)

Inductive nonce_op : Type -> Type :=
| NExists (nonce : string) : nonce_op (result bool)
| NStore (nonce : string) (ttl : Duration) : nonce_op (result unit).

Definition ValidateNonce (ttl : Duration) (nonce : string) : prog nonce_op (result unit) :=
  if String.eqb nonce "" then Ret (Err "nonce ausente") else
  exists_ ← perform (NExists nonce);
  match exists_ with
  | Err e => Ret (Err ("erro ao verificar nonce: " +:+ e))
  | Ok true => Ret (Err "nonce já utilizado (replay attack)")
  | Ok false =>
      stored ← perform (NStore nonce ttl);
      match stored with
      | Err e => Ret (Err ("erro ao armazenar nonce: " +:+ e))
      | Ok _ => Ret (Ok tt)
      end
  end.

(** Leading zero digits dropped, all but the last. *)
Fixpoint drop_zeros (l : list Z) : list Z :=
  match l with
  | 48 :: ((_ :: _) as l') => drop_zeros l'
  | _ => l
  end.

(** [%x] of an [int64]. *)
Definition hex_of_Z (z : Z) : string :=
  let digits := string_of_bytes (drop_zeros (hex_bytes (be_bytes 8 (Z.abs z)))) in
  if z <? 0 then "-" +:+ digits else digits.

(** [rand.Read] gave 16 bytes, or failed; the fallback reads the clock twice. *)
Definition GenerateNonce (rand : option (list Z)) (nanos nanos' : Z) : string :=
  match rand with
  | Some l => hex_EncodeToString l
  | None => itoa nanos +:+ ("-" +:+ hex_of_Z nanos')
  end.

(** ** Goroutines that share the in-memory store *)

Record nonce_world := { nw_now : Time; nw_store : InMemoryNonceStore }.

Definition handle_nonce (X : Type) (op : nonce_op X) (w : nonce_world) : X * nonce_world :=
  match op in nonce_op X return X * nonce_world with
  | NExists nonce =>
      let (r, s) := inmem_Exists (nw_now w) nonce (nw_store w) in
      (r, {| nw_now := nw_now w; nw_store := s |})
  | NStore nonce ttl =>
      let (r, s) := inmem_Store (nw_now w) nonce ttl (nw_store w) in
      (r, {| nw_now := nw_now w; nw_store := s |})
  end.

Abbreviation nonce_pool := (list (prog nonce_op (result unit)) * nonce_world)%type.

(** A goroutine moves, the clock moves, or a spawned deletion runs. *)
Inductive nonce_step : nonce_pool -> nonce_pool -> Prop :=
| nonce_thread ps w ps' w' :
    pool_step handle_nonce (ps, w) (ps', w') -> nonce_step (ps, w) (ps', w')
| nonce_tick ps w t :
    nw_now w <= t -> nonce_step (ps, w) (ps, {| nw_now := t; nw_store := nw_store w |})
| nonce_delete ps w i :
    nonce_step (ps, w)
      (ps, {| nw_now := nw_now w; nw_store := run_spawned i (nw_store w) |}).

(** ** A nonce is consumed once *)

(** What a validation has left to do after a negative [Exists]. *)
Definition store_phase (ttl : Duration) (nonce : string) : prog nonce_op (result unit) :=
  stored ← perform (NStore nonce ttl);
  match stored with
  | Err e => Ret (Err ("erro ao armazenar nonce: " +:+ e))
  | Ok _ => Ret (Ok tt)
  end.

(** A validation is at its start, between its calls, or done. *)
Inductive validation (ttl : Duration) (nonce : string) : prog nonce_op (result unit) -> Prop :=
| validation_start : validation ttl nonce (ValidateNonce ttl nonce)
| validation_store : validation ttl nonce (store_phase ttl nonce)
| validation_done r : validation ttl nonce (Ret r).

Definition accepted (p : prog nonce_op (result unit)) : Prop := p = Ret (Ok tt).

(** A step of a validation: it accepts only by storing a nonce that is absent. *)
Lemma validation_step ttl nonce p w p' w' :
  validation ttl nonce p -> prog_step handle_nonce p w = Some (p', w') ->
  validation ttl nonce p' /\ nw_now w' = nw_now w /\
  ((ns_store (nw_store w') = ns_store (nw_store w) /\ ~ accepted p' /\
    (forall m, (forall e, ns_store (nw_store w) !! m = Some e -> nw_now w <= e) ->
      m ∉ spawned (nw_store w) -> m ∉ spawned (nw_store w'))) \/
   (ns_store (nw_store w) !! nonce = None /\ accepted p' /\
    nw_store w' = {| ns_store := <[nonce := nw_now w + ttl]> (ns_store (nw_store w));
                     spawned := spawned (nw_store w) |})).
Proof.
  intros Hv Hstep. destruct Hv as [| |r]; [|..]; cbn in Hstep.
  - unfold ValidateNonce in Hstep. destruct (String.eqb nonce ""); [done|]. cbn in Hstep.
    unfold inmem_Exists in Hstep.
    destruct (ns_store (nw_store w) !! nonce) as [e|] eqn:He; [destruct (After _ e) eqn:Ha|];
      cbn in Hstep; injection Hstep as <- <-; cbn.
    + split; [apply validation_store|]. split; [done|]. left. split; [done|]. split; [done|].
      intros m Hlive Hm. rewrite elem_of_app, list_elem_of_singleton. intros [?| ->]; [done|].
      apply Hlive in He. unfold After in Ha. apply Z.ltb_lt in Ha. lia.
    + split; [apply validation_done|]. split; [done|]. left. split; [done|]. by split.
    + split; [apply validation_store|]. split; [done|]. left. split; [done|]. by split.
  - unfold inmem_Store in Hstep.
    destruct (ns_store (nw_store w) !! nonce) as [e|] eqn:He; cbn in Hstep;
      injection Hstep as <- <-; cbn; (split; [apply validation_done|]; split; [done|]).
    + left. split; [done|]. by split.
    + by right.
  - done.
Qed.

Lemma handle_nonce_now X (op : nonce_op X) w : nw_now (handle_nonce X op w).2 = nw_now w.
Proof.
  destruct op; cbn; [by destruct (inmem_Exists _ _ _)|by destruct (inmem_Store _ _ _ _)].
Qed.

Section ConcurrentNonces.
Variable jobs : list (Duration * string).
Variables (nonce : string) (start limit : Time).
Hypothesis long_enough : forall ttl, (ttl, nonce) ∈ jobs -> limit <= start + ttl.

Definition accepted_at (ps : list (prog nonce_op (result unit))) (i : nat) : Prop :=
  (exists ttl, jobs !! i = Some (ttl, nonce)) /\ ps !! i = Some (Ret (Ok tt)).

(** The nonce is absent and nobody has been accepted, or it is kept beyond the
    limit and at most one has. *)
Record nonce_inv (c : nonce_pool) : Prop := {
  inv_start : start <= nw_now c.2;
  inv_threads : Forall2 (fun job p => validation job.1 job.2 p) jobs c.1;
  inv_live : forall e, ns_store (nw_store c.2) !! nonce = Some e -> limit <= e;
  inv_spawned : nonce ∉ spawned (nw_store c.2);
  inv_one : forall i j, accepted_at c.1 i -> accepted_at c.1 j -> i = j;
  inv_none : ns_store (nw_store c.2) !! nonce = None -> forall i, ~ accepted_at c.1 i;
}.

Lemma accepted_at_insert ps k p i :
  accepted_at (<[k := p]> ps) i ->
  (i = k /\ accepted p /\ exists ttl, jobs !! i = Some (ttl, nonce)) \/ accepted_at ps i.
Proof.
  intros [Hj Hi]. destruct (decide (i = k)) as [->|Hne].
  - left. apply list_lookup_insert_Some in Hi as [(_ & ? & _)|[? _]]; [|done].
    by subst.
  - right. rewrite list_lookup_insert_ne in Hi by done. done.
Qed.

Lemma thread_keeps_inv ps w ps' w' :
  nonce_inv (ps, w) -> nw_now w <= limit ->
  pool_step handle_nonce (ps, w) (ps', w') -> nonce_inv (ps', w').
Proof.
  intros [Hstart Hth Hlive Hsp Hone Hnone] Hlim Hstep. cbn in *.
  inversion Hstep as [? ? k p p' ? Hk Hp]; subst.
  destruct (Forall2_lookup_r _ _ _ _ _ Hth Hk) as ([ttl m] & Hjob & Hv).
  destruct (validation_step _ _ _ _ _ _ Hv Hp) as (Hv' & Hnow & Hcase).
  assert (Forall2 (fun job p => validation job.1 job.2 p) jobs (<[k := p']> ps)) as Hth'.
  { rewrite <- (list_insert_id jobs k (ttl, m)) by done. by apply Forall2_insert. }
  destruct Hcase as [(Hsame & Hno & Hsp')|(Habs & Hacc & Hw')].
  - assert (forall i, accepted_at (<[k := p']> ps) i -> accepted_at ps i) as Hold.
    { intros i [(_ & Ha & _)|?]%accepted_at_insert; done. }
    constructor; cbn; rewrite ?Hnow, ?Hsame; try done;
      [|by eauto|by intros Hn i Hi%Hold; eapply Hnone].
    apply Hsp'; [|done]. intros e He. apply Hlive in He. lia.
  - destruct (decide (m = nonce)) as [->|Hne].
    + assert (limit <= start + ttl) as Hlong
        by (apply long_enough; by eapply list_elem_of_lookup_2).
      assert (forall i, accepted_at (<[k := p']> ps) i -> i = k) as Hk'.
      { intros i [(-> & _)|Hi]%accepted_at_insert; [done|]. by destruct (Hnone Habs i). }
      constructor; cbn; rewrite ?Hnow, ?Hw'; cbn; try done.
      * intros e. rewrite lookup_insert_eq. intros [= <-]. lia.
      * intros i j Hi%Hk' Hj%Hk'. congruence.
      * by rewrite lookup_insert_eq.
    + assert (forall i, accepted_at (<[k := p']> ps) i -> accepted_at ps i) as Hold.
      { intros i [(-> & _ & ? & ?)|?]%accepted_at_insert; [congruence|done]. }
      constructor; cbn; rewrite ?Hnow, ?Hw'; cbn; rewrite ?lookup_insert_ne by done; try done;
        [by eauto|by intros Hn i Hi%Hold; eapply Hnone].
Qed.

Lemma nonce_step_keeps_inv c c' :
  nonce_inv c -> nw_now c.2 <= limit -> nonce_step c c' -> nonce_inv c'.
Proof.
  intros Hinv Hlim Hstep. destruct Hstep as [ps w ps' w' Hp|ps w t Ht|ps w i].
  - by eapply thread_keeps_inv.
  - destruct Hinv. constructor; cbn in *; try done. lia.
  - destruct Hinv as [Hstart Hth Hlive Hsp Hone Hnone]. cbn in *. unfold run_spawned.
    destruct (spawned (nw_store w) !! i) as [m|] eqn:Hi; [|by constructor].
    assert (m <> nonce) by (intros ->; apply Hsp; by eapply list_elem_of_lookup_2).
    constructor; cbn; rewrite ?lookup_delete_ne by done; try done.
    intros Hin. apply Hsp. by eapply sublist_subseteq; [apply sublist_delete|].
Qed.

Lemma nonce_steps_keep_inv c c' :
  nonce_inv c -> rtc nonce_step c c' -> nw_now c'.2 <= limit -> nonce_inv c'.
Proof.
  intros Hinv Hsteps Hlim. revert Hinv.
  assert (forall c c', rtc nonce_step c c' -> nw_now c.2 <= nw_now c'.2) as Hmono.
  { clear. induction 1 as [|c c1 c' Hs _ IH]; [lia|]. etrans; [|exact IH].
    destruct Hs as [ps w ps' w' Hp|ps w t Ht|ps w i]; cbn; [|done|lia].
    inversion Hp as [? ? k p p' ? Hk Hpp]; subst.
    destruct p as [|X op k0]; cbn in Hpp; [done|].
    pose proof (handle_nonce_now X op w) as Hnow. destruct (handle_nonce X op w) as [x w1].
    injection Hpp as _ <-. cbn in Hnow. lia. }
  induction Hsteps as [|c c1 c' Hs Hrest IH]; [done|]. intros Hinv. apply IH; [done|].
  eapply nonce_step_keeps_inv; [done| |done].
  pose proof (Hmono c c' (rtc_l _ _ _ _ Hs Hrest)). lia.
Qed.
End ConcurrentNonces.

(** C24: of any number of concurrent validations of one nonce by the in-memory
    store at most one succeeds, under any interleaving with other requests, the
    clock and the spawned deletions, up to a time [limit] that every time to live
    reaches; provided no deletion of that nonce is pending at the start, and an
    entry of it that is there lasts to [limit] too. Past it, or with a deletion
    pending, one can be accepted twice: [expired_nonce_accepted_twice]. *)
Theorem nonce_accepted_once (jobs : list (Duration * string)) (nonce : string) (limit : Time)
    (w : nonce_world) (c : nonce_pool) (i j : nat) :
  (forall ttl, (ttl, nonce) ∈ jobs -> limit <= nw_now w + ttl) ->
  nonce ∉ spawned (nw_store w) ->
  (forall e, ns_store (nw_store w) !! nonce = Some e -> limit <= e) ->
  rtc nonce_step ((fun job => ValidateNonce job.1 job.2) <$> jobs, w) c ->
  nw_now c.2 <= limit ->
  accepted_at jobs nonce c.1 i -> accepted_at jobs nonce c.1 j -> i = j.
Proof.
  intros Hlong Hsp Hlive Hsteps Hlim.
  eapply (inv_one jobs nonce (nw_now w) limit), (nonce_steps_keep_inv jobs nonce); try done.
  assert (forall i, ~ accepted_at jobs nonce ((fun job => ValidateNonce job.1 job.2) <$> jobs) i)
    as Hnone.
  { intros k [_ Hk]. rewrite list_lookup_fmap in Hk. destruct (jobs !! k) as [[ttl m]|]; [|done].
    cbn in Hk. unfold ValidateNonce in Hk. by destruct (String.eqb m ""). }
  constructor; cbn; try done.
  - apply Forall2_fmap_r, Forall_Forall2_diag, Forall_forall. intros job _.
    apply validation_start.
  - intros a b Ha. by destruct (Hnone a).
Qed.

(** Two interleaved validations of one nonce: the first stores it, and so the
    second does not. *)
Lemma nonce_accepted_once_witness :
  let jobs := [(300 * Second, "n"); (300 * Second, "n")]%string in
  let w := {| nw_now := 0; nw_store := NewInMemoryNonceStore |} in
  let w' := {| nw_now := 0;
               nw_store := {| ns_store := <["n"%string := 300 * Second]> ∅; spawned := [] |} |} in
  let ps := [Ret (Ok tt); store_phase (300 * Second) "n"] in
  rtc nonce_step ((fun job => ValidateNonce job.1 job.2) <$> jobs, w) (ps, w') /\
  accepted_at jobs "n" ps 0 /\ ~ accepted_at jobs "n" ps 1.
Proof.
  intros jobs w w' ps.
  assert (rtc nonce_step ((fun job => ValidateNonce job.1 job.2) <$> jobs, w) (ps, w')) as Hrun.
  { eapply rtc_l. { apply nonce_thread. by eapply (pool_step_thread _ _ _ 1). }
    eapply rtc_l. { apply nonce_thread. by eapply (pool_step_thread _ _ _ 0). }
    eapply rtc_l. { apply nonce_thread. by eapply (pool_step_thread _ _ _ 0). }
    apply rtc_refl. }
  assert (accepted_at jobs "n" ps 0) as H0 by (split; [by exists (300 * Second)|done]).
  split; [exact Hrun|]. split; [exact H0|]. intros H1.
  enough (0%nat = 1%nat) as E by discriminate E.
  refine (nonce_accepted_once jobs "n" (300 * Second) w (ps, w') 0 1 _ _ _ Hrun _ H0 H1).
  - intros ttl Hin. unfold jobs in Hin. cbn [nw_now w].
    apply elem_of_cons in Hin as [[= ->]|Hin]; [lia|].
    apply list_elem_of_singleton in Hin. injection Hin as ->. lia.
  - apply not_elem_of_nil.
  - intros e He. discriminate.
  - discriminate.
Defined.

(** ** And twice when a deletion is pending *)

(** The deletion that [Exists] spawns is not tied to the entry it saw. Two
    validations of a nonce whose entry has expired can both succeed: the second
    deletion removes the entry the first validation has just stored. *)
Theorem expired_nonce_accepted_twice (nonce : string) (ttl : Duration) (w : nonce_world) (e : Time) :
  nonce <> ""%string -> ns_store (nw_store w) !! nonce = Some e -> e < nw_now w ->
  spawned (nw_store w) = [] ->
  exists w', nw_now w' = nw_now w /\
    rtc nonce_step ([ValidateNonce ttl nonce; ValidateNonce ttl nonce], w)
                   ([Ret (Ok tt); Ret (Ok tt)], w').
Proof.
  intros Hn He Hexp Hsp. destruct w as [now [m sp]]. cbn in *. subst sp.
  assert (forall p q ps ps' w w' i, ps !! i = Some p -> prog_step handle_nonce p w = Some (q, w') ->
            <[i := q]> ps = ps' -> nonce_step (ps, w) (ps', w')) as Hthread.
  { intros p q ps ps' w w' i Hi Hp <-. apply nonce_thread. by eapply pool_step_thread. }
  assert (ValidateNonce ttl nonce = Vis (NExists nonce) (fun exists_ =>
            match exists_ with
            | Err e => Ret (Err ("erro ao verificar nonce: " +:+ e))
            | Ok true => Ret (Err "nonce já utilizado (replay attack)")
            | Ok false => store_phase ttl nonce
            end)) as Hv.
  { unfold ValidateNonce. by rewrite (proj2 (String.eqb_neq nonce "") Hn). }
  assert (After now e = true) as Ha by (apply Z.ltb_lt; lia).
  rewrite Hv. eexists. split; cycle 1.
  - eapply rtc_l. { eapply (Hthread _ (store_phase ttl nonce) _ _ _ _ 0%nat); [done| |done].
      cbn. unfold inmem_Exists; cbn. by rewrite He, Ha. }
    eapply rtc_l. { eapply (Hthread _ (store_phase ttl nonce) _ _ _ _ 1%nat); [done| |done].
      cbn. unfold inmem_Exists; cbn. by rewrite He, Ha. }
    eapply rtc_l. { apply (nonce_delete _ _ 0). }
    eapply rtc_l. { eapply (Hthread _ (Ret (Ok tt)) _ _ _ _ 0%nat); [done| |done].
      cbn. unfold inmem_Store; cbn. by rewrite lookup_delete_eq. }
    eapply rtc_l. { apply (nonce_delete _ _ 0). }
    eapply rtc_l. { eapply (Hthread _ (Ret (Ok tt)) _ _ _ _ 1%nat); [done| |done].
      cbn. unfold inmem_Store; cbn. by rewrite lookup_delete_eq. }
    apply rtc_refl.
  - done.
Qed.

Lemma expired_nonce_accepted_twice_witness :
  let w := {| nw_now := 10; nw_store := {| ns_store := {["n"%string := 5]}; spawned := [] |} |} in
  exists w', nw_now w' = nw_now w /\
    rtc nonce_step ([ValidateNonce 300 "n"; ValidateNonce 300 "n"], w)
                   ([Ret (Ok tt); Ret (Ok tt)], w').
Proof.
  intros w. apply (expired_nonce_accepted_twice "n" 300 w 5);
    [discriminate|reflexivity|reflexivity|reflexivity].
Defined.
