(* ===== verification/RateLimit.v ===== *)
(** * Rate limiters: [internal/security/ratelimit.go].

    Every method holds the limiter's mutex. [now] is the reading of the clock;
    the token bucket reads it once more when it creates a bucket ([created]). *)
From S2P Require Export Config.

Record tokenBucket := { tokens : f64; lastRefill : Time }.
Record TokenBucket := { buckets : gmap string tokenBucket; tb_rate : f64; tb_burst : Z }.
Record SlidingWindow := { windows : gmap string (list Time); sw_limit : Z; sw_window : Duration }.

Definition NewTokenBucket (rate : f64) (burst : Z) : TokenBucket :=
  {| buckets := ∅; tb_rate := rate; tb_burst := burst |}.
Definition NewSlidingWindow (limit : Z) (window : Duration) : SlidingWindow :=
  {| windows := ∅; sw_limit := limit; sw_window := window |}.

Definition fmin (a b : f64) : f64 := if fltb a b then a else b.

Definition with_buckets (b : gmap string tokenBucket) (tb : TokenBucket) : TokenBucket :=
  {| buckets := b; tb_rate := tb_rate tb; tb_burst := tb_burst tb |}.
Definition with_windows (w : gmap string (list Time)) (sw : SlidingWindow) : SlidingWindow :=
  {| windows := w; sw_limit := sw_limit sw; sw_window := sw_window sw |}.

(** [window] is a parameter the token bucket does not use. *)
Definition tb_AllowWithLimit (created now : Time) (key : string) (limit : Z) (window : Duration)
    (tb : TokenBucket) : bool * TokenBucket :=
  let bucket :=
    default {| tokens := f_of_Z limit; lastRefill := created |} (buckets tb !! key) in
  let elapsed := Seconds (time_Sub now (lastRefill bucket)) in
  let refilled := fmin (f_of_Z limit) (fadd (tokens bucket) (fmul elapsed (tb_rate tb))) in
  let put t := with_buckets (<[key := {| tokens := t; lastRefill := now |}]> (buckets tb)) tb in
  if fleb (f_of_Z 1) refilled then (true, put (fsub refilled (f_of_Z 1)))
  else (false, put refilled).

Definition tb_Allow (created now : Time) (key : string) (tb : TokenBucket) : bool * TokenBucket :=
  tb_AllowWithLimit created now key (tb_burst tb) Second tb.

Definition sw_AllowWithLimit (now : Time) (key : string) (limit : Z) (window : Duration)
    (sw : SlidingWindow) : bool * SlidingWindow :=
  let cutoff := time_Add now (- window) in
  match windows sw !! key with
  | None => (true, with_windows (<[key := [now]]> (windows sw)) sw)
  | Some requests =>
      let valid := filter (fun t => After t cutoff = true) requests in
      if limit <=? Z.of_nat (length valid)
      then (false, with_windows (<[key := valid]> (windows sw)) sw)
      else (true, with_windows (<[key := valid ++ [now]]> (windows sw))%list sw)
  end.

Definition sw_Allow (now : Time) (key : string) (sw : SlidingWindow) : bool * SlidingWindow :=
  sw_AllowWithLimit now key (sw_limit sw) (sw_window sw) sw.

Definition tb_Reset (key : string) (tb : TokenBucket) : TokenBucket :=
  with_buckets (delete key (buckets tb)) tb.
Definition sw_Reset (key : string) (sw : SlidingWindow) : SlidingWindow :=
  with_windows (delete key (windows sw)) sw.

Record RateLimitMetrics := {
  TotalRequests : Z; Allowed : Z; Rejected : Z; CurrentActive : Z; LastReset : Time }.

Definition tb_Metrics (now : Time) (tb : TokenBucket) : RateLimitMetrics :=
  {| TotalRequests := 0; Allowed := 0; Rejected := 0;
     CurrentActive := Z.of_nat (size (buckets tb)); LastReset := now |}.
Definition sw_Metrics (now : Time) (sw : SlidingWindow) : RateLimitMetrics :=
  {| TotalRequests := 0; Allowed := 0; Rejected := 0;
     CurrentActive := Z.of_nat (size (windows sw)); LastReset := now |}.

(** The interface and its two implementations. *)
Inductive RateLimiter :=
| LimitTokens (tb : TokenBucket)
| LimitWindow (sw : SlidingWindow).

Definition NewRateLimiter (limiterType : string) (limit : Z) (window : Duration) : RateLimiter :=
  if String.eqb limiterType "sliding_window" then LimitWindow (NewSlidingWindow limit window)
  else LimitTokens (NewTokenBucket (fdiv (f_of_Z limit) (Seconds window)) limit).

Definition limiter_Allow (created now : Time) (key : string) (l : RateLimiter) :
    bool * RateLimiter :=
  match l with
  | LimitTokens tb => let (b, tb') := tb_Allow created now key tb in (b, LimitTokens tb')
  | LimitWindow sw => let (b, sw') := sw_Allow now key sw in (b, LimitWindow sw')
  end.

Definition limiter_Reset (key : string) (l : RateLimiter) : RateLimiter :=
  match l with
  | LimitTokens tb => LimitTokens (tb_Reset key tb)
  | LimitWindow sw => LimitWindow (sw_Reset key sw)
  end.

(** The default limiter lets a hundred requests through at one instant, no more. *)
Fixpoint allow_burst (n : nat) (now : Time) (key : string) (l : RateLimiter) : nat :=
  match n with
  | O => O
  | S n' =>
      let (b, l') := limiter_Allow now now key l in
      ((if b then 1 else 0) + allow_burst n' now key l')%nat
  end.

Example default_burst :
  allow_burst 150 (1000 * Second) "k" (NewRateLimiter "token_bucket" 100 Minute) = 100%nat /\
  allow_burst 150 (1000 * Second) "k" (NewRateLimiter "sliding_window" 100 Minute) = 100%nat.
Proof. vm_compute. done. Qed.

(** ** The sliding window counts what it let through *)

Section Window.
Variable key : string.

(** The requests of a run, in the order the mutex admits them: the times [key]
    was let through, and the limiter. *)
Definition window_step (st : list Time * SlidingWindow) (req : Time * string) :
    list Time * SlidingWindow :=
  let (b, sw') := sw_Allow req.1 req.2 st.2 in
  (if b && String.eqb req.2 key then st.1 ++ [req.1] else st.1, sw')%list.

Definition window_run (limit : Z) (window : Duration) (reqs : list (Time * string)) :
    list Time * SlidingWindow :=
  fold_left window_step reqs ([], NewSlidingWindow limit window).

Definition in_window (window : Duration) (t u : Time) : Prop := t - window < u <= t.

Definition window_count (window : Duration) (t : Time) (l : list Time) : Z :=
  Z.of_nat (length (filter (in_window window t) l)).

Record window_inv (limit : Z) (window : Duration) (last : Time)
    (st : list Time * SlidingWindow) : Prop := {
  wi_limit : sw_limit st.2 = limit;
  wi_window : sw_window st.2 = window;
  wi_past : Forall (fun u => u <= last) st.1;
  wi_same : forall c, last - window <= c ->
    filter (fun u => c < u) (default [] (windows st.2 !! key)) = filter (fun u => c < u) st.1;
  wi_none : windows st.2 !! key = None -> st.1 = [];
  wi_count : forall t, window_count window t st.1 <= Z.max 1 limit;
}.

Lemma filter_filter_after c c' (l : list Time) :
  c <= c' -> filter (fun u => c' < u) (filter (fun u => c < u) l) = filter (fun u => c' < u) l.
Proof.
  intros Hc. rewrite list_filter_filter. apply list_filter_iff. intros u. lia.
Qed.

Lemma count_snoc window t l now :
  Forall (fun u => u <= now) l ->
  window_count window t (l ++ [now]) <=
    if t <? now then window_count window t l
    else Z.of_nat (length (filter (fun u => now - window < u) l)) + 1.
Proof.
  intros Hl. unfold window_count. rewrite filter_app, length_app, filter_cons, filter_nil.
  destruct (Z.ltb_spec t now).
  - rewrite decide_False by (unfold in_window; lia). cbn. lia.
  - assert (length (filter (in_window window t) l) <=
            length (filter (fun u => (now - window < u)%Z) l))%nat.
    { apply sublist_length. clear Hl.
      induction l as [|u l IH]; [done|]. rewrite !filter_cons. unfold in_window at 1.
      repeat case_decide; try lia; done || by constructor. }
    destruct (decide (in_window window t now)); cbn; lia.
Qed.

Lemma After_cutoff window now (l : list Time) :
  filter (fun t => After t (time_Add now (- window)) = true) l = filter (fun u => now - window < u) l.
Proof.
  apply list_filter_iff. intros u. unfold After, time_Add. rewrite Z.ltb_lt. lia.
Qed.

Lemma window_step_inv limit window last st req :
  0 <= window -> window_inv limit window last st -> last <= req.1 ->
  window_inv limit window req.1 (window_step st req).
Proof.
  destruct st as [acc sw], req as [now k]. cbn [fst snd].
  intros Hw [Hlimit Hwindow Hpast Hsame Hnone Hcount] Hle. cbn in *.
  assert (Forall (fun u => u <= now) acc) as Hpast'
    by (eapply Forall_impl; [done|]; cbn; intros; lia).
  unfold window_step, sw_Allow, sw_AllowWithLimit. cbn [fst snd]. rewrite Hlimit, Hwindow.
  destruct (String.eqb_spec k key) as [->|Hne]; cycle 1.
  - destruct (windows sw !! k) as [reqs|];
      [destruct (limit <=? _)|]; cbn -[Z.of_nat];
      rewrite ?andb_false_r; constructor; cbn; rewrite ?lookup_insert_ne by done; try done;
      intros c Hc; apply Hsame; lia.
  - destruct (windows sw !! key) as [reqs|] eqn:Hreqs; cbn in Hsame.
    + rewrite After_cutoff. specialize (Hsame (now - window) ltac:(lia)) as Hvalid.
      assert (forall c, now - window <= c ->
                filter (fun u => c < u) (filter (fun u => now - window < u) reqs) =
                filter (fun u => c < u) acc) as Hsame'.
      { intros c Hc. rewrite filter_filter_after by lia. apply Hsame. lia. }
      destruct (Z.leb_spec limit (Z.of_nat (length (filter (fun u => now - window < u) reqs)))).
      * cbn. constructor; cbn; rewrite ?lookup_insert_eq; try done.
      * cbn. constructor; cbn; rewrite ?lookup_insert_eq; try done.
        -- apply Forall_app. split; [done|]. by repeat constructor.
        -- intros c Hc. cbn. rewrite !filter_app, Hsame' by done. done.
        -- intros t. etrans; [by apply count_snoc|]. destruct (t <? now); [done|].
           rewrite Hvalid in *. lia.
    + rewrite (Hnone eq_refl) in *. cbn. constructor; cbn; rewrite ?lookup_insert_eq; try done.
      * by repeat constructor.
      * intros t. etrans; [apply (count_snoc window t []); constructor|].
        destruct (t <? now); unfold window_count; cbn; lia.
Qed.

Lemma window_run_inv limit window reqs last :
  0 <= window -> StronglySorted Z.le (reqs.*1 ++ [last])%list ->
  window_inv limit window last (window_run limit window reqs).
Proof.
  intros Hw. revert last. induction reqs as [|req reqs IH] using rev_ind; intros last Hs.
  - constructor; cbn; try done. intros t. unfold window_count; cbn; lia.
  - unfold window_run. rewrite fold_left_app. cbn [fold_left].
    rewrite fmap_app in Hs. cbn in Hs.
    assert (req.1 <= last) as Hlast.
    { apply (StronglySorted_app_1_elem_of Z.le _ _ _ _ Hs); set_solver. }
    apply StronglySorted_app_1_l in Hs. apply IH in Hs.
    pose proof (window_step_inv limit window req.1 _ req Hw Hs ltac:(lia)) as [].
    constructor; try done.
    + eapply Forall_impl; [done|]. cbn. intros. lia.
    + intros c Hc. apply wi_same0. lia.
Qed.
End Window.

(** C36: however requests of all clients interleave, in every interval of the
    window's length the sliding window lets at most [limit] requests of a key
    through (one, if the limit is below one). *)
Theorem sliding_window_bound (key : string) (limit : Z) (window : Duration)
    (reqs : list (Time * string)) (t : Time) :
  0 <= window -> StronglySorted Z.le reqs.*1 ->
  window_count window t (window_run key limit window reqs).1 <= Z.max 1 limit.
Proof.
  intros Hw Hs. destruct reqs as [|req reqs _] using rev_ind;
    [unfold window_count; cbn; lia|].
  apply (wi_count key limit window req.1), window_run_inv; [done|].
  apply StronglySorted_app_2; [|done|by repeat constructor].
  intros x1 x2 Hx1 ->%list_elem_of_singleton. rewrite fmap_app in Hx1, Hs. cbn in Hs.
  apply elem_of_app in Hx1 as [Hx1|Hx1%list_elem_of_singleton]; [|subst; reflexivity].
  apply (StronglySorted_app_1_elem_of Z.le _ _ _ _ Hs); [done|by apply list_elem_of_singleton].
Qed.

Lemma sliding_window_bound_witness :
  window_count Minute (100 * Second)
    (window_run "k" 2 Minute
       [(50 * Second, "k"); (60 * Second, "k"); (60 * Second, "z"); (70 * Second, "k")]%string).1
  <= Z.max 1 2.
Proof.
  apply sliding_window_bound; [discriminate|].
  cbn. repeat constructor; discriminate.
Defined.

(** A key the limiter has not seen starts with its full allowance. *)
Definition known_key (key : string) (l : RateLimiter) : bool :=
  match l with
  | LimitTokens tb => bool_decide (is_Some (buckets tb !! key))
  | LimitWindow sw => bool_decide (is_Some (windows sw !! key))
  end.

Lemma sw_unknown_allowed now key sw :
  windows sw !! key = None -> (sw_Allow now key sw).1 = true.
Proof. unfold sw_Allow, sw_AllowWithLimit. by intros ->. Qed.
