(* ===== verification/TokenBucket.v ===== *)
(** * The token bucket keeps its rate: [internal/security/ratelimit.go].

    The limiter the service starts by default counts in floats: every request
    refills its bucket by the seconds since the last one times the rate, rounded
    five times. [token_bucket_bound] is what that lets through of a key between any
    two moments, whatever other keys do: the burst, what the rate refills in that
    time, and the rounding. *)
From S2P Require Export FloatValue RateLimit.

(** ** Seconds *)

Ltac q_compute := apply Qle_bool_iff; vm_compute; reflexivity.

Lemma tiny_small : (tiny <= ulp1 * (1 # 10000000000000000000000000000000000000000))%Q.
Proof. q_compute. Qed.

Lemma ulp1_small : (ulp1 <= 1 # 1000000000000000)%Q.
Proof. q_compute. Qed.

Lemma pow2_1000_small : (pow2 (-1000) <= 1 # 100000000000000000000000000000000000000000000000000)%Q.
Proof. q_compute. Qed.

Lemma pow2_900_big : (1000000000000000000000000000000000000000000000000000000000000 <= pow2 900)%Q.
Proof. q_compute. Qed.

(** [x] is [v] but for [k] last places. *)
Definition near (k : Q) (x v : Q) : Prop := (v - k * ulp1 * v <= x /\ x <= v + k * ulp1 * v)%Q.

Lemma inject_le a b : a <= b -> (inject_Z a <= inject_Z b)%Q.
Proof. by rewrite <- Zle_Qle. Qed.

Lemma inject_nonneg z : 0 <= z -> (0 <= inject_Z z)%Q.
Proof. apply (inject_le 0). Qed.

#[export] Instance near_proper : Proper (Qeq ==> Qeq ==> Qeq ==> iff) near.
Proof. intros k k' Hk x x' Hx v v' Hv. unfold near. by rewrite Hk, Hx, Hv. Qed.

Lemma near_refl k v : (0 <= k -> 0 <= v -> near k v v)%Q.
Proof.
  intros Hk Hv. pose proof ulp1_pos.
  assert (0 <= k * ulp1 * v)%Q by (repeat apply Qmult_le_0_compat; lra).
  unfold near. lra.
Qed.

Lemma near_of_error x v : (Qabs (x - v) <= ulp1 * v)%Q -> near 1 x v.
Proof. intros [? ?]%Qabs_Qle_condition. unfold near. lra. Qed.

Lemma near_of_tiny x v :
  (Qabs (x - v) <= ulp1 * v + tiny)%Q -> ((1 # 10000000000000000000000000000000000000000) <= v)%Q -> near 2 x v.
Proof.
  intros [? ?]%Qabs_Qle_condition Hv. pose proof tiny_small. pose proof ulp1_pos.
  unfold near. nra.
Qed.

Lemma ulp1_mono a b : (a <= b -> ulp1 * a <= ulp1 * b)%Q.
Proof. intros Hab. pose proof ulp1_pos. nra. Qed.

Lemma ulp1_twice v : (0 <= v -> ulp1 * (ulp1 * v) <= (1 # 1000) * (ulp1 * v))%Q.
Proof.
  intros Hv. pose proof ulp1_small. pose proof (ulp1_scale v Hv).
  apply Qmult_le_compat_r; [lra|done].
Qed.

Lemma near_sum q x v s :
  (0 <= q -> 0 <= v -> near 1 s (q + x) -> near 2 x v -> near 4 s (q + v))%Q.
Proof.
  unfold near. intros Hq Hv [Hs1 Hs2] [Hx1 Hx2].
  pose proof (ulp1_scale v Hv). pose proof (ulp1_scale q Hq). pose proof (ulp1_twice v Hv).
  pose proof (ulp1_mono _ _ Hx2). pose proof (ulp1_mono _ _ Hx1). split; lra.
Qed.

Lemma rounding_factor :
  (1 + 14 * ulp1 + 56 * (ulp1 * ulp1) + 64 * (ulp1 * (ulp1 * ulp1)) <= 1 + 16 * ulp1)%Q.
Proof.
  pose proof ulp1_small. pose proof ulp1_pos.
  assert (ulp1 * ulp1 <= (1 # 1000) * ulp1)%Q by (apply Qmult_le_compat_r; lra).
  assert (0 <= ulp1 * ulp1)%Q by (apply ulp1_scale; lra).
  assert (ulp1 * (ulp1 * ulp1) <= (1 # 1000) * (ulp1 * ulp1))%Q by (apply Qmult_le_compat_r; lra).
  lra.
Qed.

Lemma three_roundings s r x d l w :
  (0 <= s -> 0 <= r * w -> 0 <= w -> 0 <= d -> 0 <= l ->
   s <= d * (1 + 4 * ulp1) -> r * w <= l * (1 + 8 * ulp1) -> x <= s * r * (1 + 2 * ulp1) ->
   x * w <= l * d * (1 + 16 * ulp1))%Q.
Proof.
  intros Hs Hrw Hw Hd Hl Hsd Hrl Hx. pose proof ulp1_pos. pose proof rounding_factor as Hc.
  assert (x * w <= s * r * (1 + 2 * ulp1) * w)%Q by (by apply Qmult_le_compat_r).
  assert (s * (r * w) <= (d * (1 + 4 * ulp1)) * (l * (1 + 8 * ulp1)))%Q as Hsr
    by (by apply Qmult_le_compat_nonneg).
  apply (Qmult_le_compat_r _ _ (1 + 2 * ulp1)) in Hsr; [|lra].
  apply (Qmult_le_compat_r _ _ (l * d)) in Hc; [|by apply Qmult_le_0_compat]. lra.
Qed.

Lemma rounding_factor_below :
  (1 - 16 * ulp1 <= (1 - 4 * ulp1) * (1 - 8 * ulp1) * (1 - 2 * ulp1))%Q.
Proof. q_compute. Qed.

Lemma three_roundings_below s r x d l w :
  (0 <= s -> 0 <= r -> 0 <= w -> 0 <= d -> 0 <= l ->
   d * (1 - 4 * ulp1) <= s -> l * (1 - 8 * ulp1) <= r * w -> s * r * (1 - 2 * ulp1) <= x ->
   l * d * (1 - 16 * ulp1) <= x * w)%Q.
Proof.
  intros Hs Hr Hw Hd Hl Hsd Hrl Hx. pose proof ulp1_small. pose proof ulp1_pos.
  pose proof rounding_factor_below as Hc.
  assert (s * r * (1 - 2 * ulp1) * w <= x * w)%Q by (by apply Qmult_le_compat_r).
  assert ((d * (1 - 4 * ulp1)) * (l * (1 - 8 * ulp1)) <= s * (r * w))%Q as Hsr.
  { apply Qmult_le_compat_nonneg; split; [|exact Hsd| |exact Hrl]; apply Qmult_le_0_compat; lra. }
  apply (Qmult_le_compat_r _ _ (1 - 2 * ulp1)) in Hsr; [|lra].
  apply (Qmult_le_compat_r _ _ (l * d)) in Hc; [|by apply Qmult_le_0_compat]. lra.
Qed.

Definition secs (d : Duration) : Q := (inject_Z d / inject_Z Second)%Q.

Lemma secs_bounds d : 0 < d <= max_i64 -> ((1 # 1000000000) <= secs d <= 10000000000)%Q.
Proof.
  intros Hd. unfold secs. split; [apply Qle_shift_div_l|apply Qle_shift_div_r]; try reflexivity.
  - assert ((1 # 1000000000) * inject_Z Second == 1)%Q as -> by reflexivity.
    apply (inject_le 1). lia.
  - apply (inject_le d (10 ^ 19)). unfold max_i64 in Hd. lia.
Qed.

Lemma secs_split d : (secs d == inject_Z (Z.quot d Second) + inject_Z (Z.rem d Second) / inject_Z Second)%Q.
Proof.
  unfold secs. rewrite (Z.quot_rem' d Second) at 1. rewrite inject_Z_plus, inject_Z_mult.
  field. discriminate.
Qed.

Lemma Seconds_near d :
  0 <= d <= max_i64 -> f_real (Seconds d) = true /\ near 4 (fval (Seconds d)) (secs d).
Proof.
  intros Hd. unfold Seconds. rewrite secs_split.
  pose proof (Z.quot_pos d Second ltac:(lia) ltac:(done)).
  pose proof (Z.rem_bound_pos d Second ltac:(lia) ltac:(done)).
  assert (Z.quot d Second < 10 ^ 10) by (apply Z.quot_lt_upper_bound; unfold max_i64, Second in *; lia).
  set (q := Z.quot d Second) in *. set (r := Z.rem d Second) in *. unfold Second in H0.
  destruct (f_of_Z_spec q) as [Hq Hqv]; [lia|]. destruct (f_of_Z_spec r) as [Hr Hrv]; [lia|].
  destruct (f_of_Z_spec Second) as [Hs Hsv]; [done|].
  assert (0 <= inject_Z q)%Q as Hq0 by (apply inject_nonneg; lia).
  assert (inject_Z q <= inject_Z (10 ^ 10))%Q as Hq1 by (apply inject_le; lia).
  assert (inject_Z r <= inject_Z Second)%Q as Hr1 by (apply inject_le; unfold Second; lia).
  pose proof pow2_900_big. pose proof ulp1_small. pose proof ulp1_pos.
  assert (inject_Z Second == 1000000000)%Q as Hsec by reflexivity.
  set (v := (inject_Z r / inject_Z Second)%Q).
  assert (0 <= v <= 1)%Q as Hv.
  { assert (0 <= inject_Z r)%Q by (apply inject_nonneg; lia).
    split; [apply Qle_shift_div_l|apply Qle_shift_div_r]; try done; lra. }
  assert (f_real (fdiv (f_of_Z r) (f_of_Z Second)) = true /\
    near 2 (fval (fdiv (f_of_Z r) (f_of_Z Second))) v) as [Hd' Hdv].
  { destruct (Z.eq_dec r 0) as [Hr0|Hr0].
    - unfold v. rewrite Hr0. split; [done|].
      assert (inject_Z 0 / inject_Z Second == 0)%Q as -> by reflexivity. by apply near_refl.
    - assert (1 <= inject_Z r)%Q by (apply (inject_le 1); lia).
      destruct (fdiv_spec (f_of_Z r) (f_of_Z Second) Hr Hs) as [Hreal Herr].
      + rewrite Hsv. reflexivity.
      + rewrite Hsv, Hrv, Hsec. pose proof pow2_1000_small. lra.
      + rewrite Hsv, Hrv. fold v. lra.
      + rewrite Hsv, Hrv in Herr. fold v in Herr. split; [done|]. apply near_of_tiny; [done|].
        apply Qle_shift_div_l; [reflexivity|]. lra. }
  set (x := fdiv (f_of_Z r) (f_of_Z Second)) in *.
  pose proof (fval_nonneg x Hd'). 
  destruct (fadd_spec (f_of_Z q) x Hq Hd') as [Hreal Herr]; rewrite Hqv in *.
  - assert (inject_Z (10 ^ 10) == 10000000000)%Q by reflexivity.
    destruct Hdv as [_ Hdv]. pose proof (ulp1_mono _ _ (proj2 Hv)). lra.
  - split; [exact Hreal|]. apply near_of_error in Herr.
    exact (near_sum _ _ _ _ Hq0 (proj1 Hv) Herr Hdv).
Qed.

(** ** The rate *)

Section Rate.
Variables (limit : Z) (window : Duration).
Hypothesis Hlimit : 0 < limit < 2 ^ 52.
Hypothesis Hwindow : 0 < window <= max_i64.

Abbreviation L := (inject_Z limit).
Abbreviation W := (secs window).

Definition bucket_rate : f64 := fdiv (f_of_Z limit) (Seconds window).

Lemma limit_bounds : (1 <= L <= 5000000000000000)%Q.
Proof.
  split; [apply (inject_le 1)|apply (inject_le limit 5000000000000000)]; lia.
Qed.

Lemma limit_float : f_real (f_of_Z limit) = true /\ (fval (f_of_Z limit) == L)%Q.
Proof. apply f_of_Z_spec. lia. Qed.

Lemma window_bounds : ((1 # 1000000000) <= W <= 10000000000)%Q.
Proof. by apply secs_bounds. Qed.

Lemma window_float :
  f_real (Seconds window) = true /\ (W <= fval (Seconds window) * (1 + 5 * ulp1))%Q /\
  (fval (Seconds window) * (1 - 5 * ulp1) <= W)%Q /\
  ((1 # 2000000000) <= fval (Seconds window) <= 20000000000)%Q.
Proof.
  destruct (Seconds_near window) as [Hreal [Hlo Hhi]]; [lia|]. split; [exact Hreal|].
  pose proof window_bounds as [H1 H2]. pose proof ulp1_small as Hu.
  assert (0 <= W)%Q as H0 by lra. pose proof (ulp1_scale _ H0). pose proof (ulp1_twice _ H0).
  pose proof (ulp1_mono _ _ Hlo). pose proof (ulp1_mono _ _ H2).
  assert (ulp1 * W <= (1 # 1000) * W)%Q by (apply Qmult_le_compat_r; lra).
  pose proof (ulp1_mono _ _ Hhi). split; [lra|]. split; [lra|]. split; lra.
Qed.

Lemma bucket_rate_spec :
  f_real bucket_rate = true /\ (fval bucket_rate * W <= L * (1 + 8 * ulp1))%Q /\
  (L * (1 - 8 * ulp1) <= fval bucket_rate * W)%Q /\
  ((1 # 100000000000) <= fval bucket_rate <= 100000000000000000000000000)%Q.
Proof.
  destruct limit_float as [Hl Hlv], window_float as (Hs & HW & HW' & Hs1 & Hs2).
  pose proof limit_bounds as [HL1 HL2]. pose proof pow2_1000_small. pose proof pow2_900_big.
  unfold bucket_rate. set (S := fval (Seconds window)) in *.
  set (v := (L / S)%Q). assert (v * S == L)%Q as Hv by (unfold v; field; lra).
  assert ((1 # 20000000000) <= v)%Q as Hv1 by (apply Qle_shift_div_l; lra).
  assert (v <= 10000000000000000000000000)%Q as Hv2 by (apply Qle_shift_div_r; lra).
  destruct (fdiv_spec (f_of_Z limit) (Seconds window) Hl Hs) as [Hreal Herr];
    try fold S in Herr; fold S; try rewrite Hlv in Herr; rewrite ?Hlv;
    try fold v in Herr; try fold v.
  - lra.
  - pose proof (pow2_pos (-1000)). nra.
  - lra.
  - apply near_of_tiny in Herr as [Hlo Hhi]; [|lra]. split; [exact Hreal|].
    set (r := fval (fdiv (f_of_Z limit) (Seconds window))) in *.
    assert (0 <= v)%Q as Hv0 by lra. pose proof ulp1_small. pose proof ulp1_pos.
    assert (ulp1 * v <= (1 # 1000) * v)%Q by (apply Qmult_le_compat_r; lra).
    split; [|split; [|split; lra]].
    2: { assert ((v - 2 * ulp1 * v) * (S * (1 - 5 * ulp1)) <= r * W)%Q as HrW
           by (apply Qmult_le_compat_nonneg; split; [lra..| |lra]; apply Qmult_le_0_compat; lra).
         assert ((v - 2 * ulp1 * v) * (S * (1 - 5 * ulp1)) ==
                 v * S * (1 - 7 * ulp1 + 10 * (ulp1 * ulp1)))%Q as Heq by ring.
         rewrite Hv in Heq. assert (0 <= L)%Q as HL0 by lra. pose proof (ulp1_scale L HL0).
         pose proof (ulp1_scale _ (ulp1_scale L HL0)). lra. }
    assert (r * W <= (v + 2 * ulp1 * v) * (S * (1 + 5 * ulp1)))%Q as HrW.
    { pose proof window_bounds. apply Qmult_le_compat_nonneg; split; lra. }
    assert (0 <= L)%Q as HL0 by lra. pose proof (ulp1_twice L HL0).
    assert ((v + 2 * ulp1 * v) * (S * (1 + 5 * ulp1)) ==
            v * S * (1 + 7 * ulp1 + 10 * (ulp1 * ulp1)))%Q as Heq by ring.
    rewrite Hv in Heq. pose proof (ulp1_scale L HL0). lra.
Qed.

(** ** One refill *)

(** What the rate allows in [d], exactly. *)
Definition gain (d : Duration) : Q := (L * inject_Z d / inject_Z window)%Q.

Lemma gain_window d : (gain d * W == L * secs d)%Q.
Proof.
  unfold gain, secs. field. split; [discriminate|].
  pose proof (inject_le 1 window ltac:(lia)). change (inject_Z 1) with 1%Q in *. lra.
Qed.

Lemma gain_mono d d' : d <= d' -> (gain d <= gain d')%Q.
Proof.
  intros Hd%inject_le. pose proof limit_bounds as [? _]. unfold gain, Qdiv.
  apply Qmult_le_compat_r; [nra|]. apply Qinv_le_0_compat, inject_nonneg. lia.
Qed.

Lemma gain_plus d d' : (gain (d + d') == gain d + gain d')%Q.
Proof. unfold gain, Qdiv. rewrite inject_Z_plus. ring. Qed.

Lemma gain_nonneg d : 0 <= d -> (0 <= gain d)%Q.
Proof.
  intros Hd%inject_nonneg. pose proof limit_bounds as [? _]. unfold gain, Qdiv.
  apply Qmult_le_0_compat; [nra|]. apply Qinv_le_0_compat, inject_nonneg. lia.
Qed.

Definition refill (d : Duration) : f64 := fmul (Seconds d) bucket_rate.

Lemma refill_spec d :
  0 <= d <= max_i64 ->
  f_real (refill d) = true /\ (fval (refill d) <= gain d * (1 + 16 * ulp1))%Q /\
  (gain d * (1 - 16 * ulp1) <= fval (refill d))%Q /\
  (fval (refill d) <= 10000000000000000000000000000000000000000)%Q.
Proof.
  intros Hd. destruct bucket_rate_spec as (Hr & HrW & HrW' & Hr1 & Hr2). unfold refill.
  destruct (Z.eq_dec d 0) as [->|Hd0].
  { assert (fmul (Seconds 0) bucket_rate = S754_zero false) as ->.
    { destruct (f_real_cases _ Hr) as [[s Hs]|(m & e & -> & _)]; [|reflexivity].
      rewrite Hs, fval_zero in Hr1. lra. }
    split; [done|]. rewrite fval_zero. pose proof (gain_nonneg 0 ltac:(done)) as H0.
    pose proof (ulp1_scale _ H0).
    assert (gain 0 == 0)%Q as -> by (unfold gain, Qdiv; change (inject_Z 0) with 0%Q; ring).
    split; [lra|]. split; lra. }
  destruct (Seconds_near d Hd) as [Hs [Hs1 Hs2]].
  set (s := fval (Seconds d)) in *. set (D := secs d) in *. set (r := fval bucket_rate) in *.
  assert ((1 # 1000000000) <= D <= 10000000000)%Q as HD by (apply secs_bounds; lia).
  pose proof ulp1_small. pose proof ulp1_pos. pose proof pow2_900_big.
  assert (ulp1 * D <= (1 # 1000) * D)%Q by (apply Qmult_le_compat_r; lra).
  assert ((1 # 2000000000) <= s <= 20000000000)%Q as [Hs3 Hs4] by (split; lra).
  assert ((1 # 1000000000000000000000) <= s * r)%Q as Hp1.
  { apply (Qle_trans _ ((1 # 2000000000) * (1 # 100000000000))); [discriminate|].
    apply Qmult_le_compat_nonneg; (split; [discriminate|lra]). }
  assert (s * r <= 2000000000000000000000000000000000000)%Q as Hp2.
  { apply (Qle_trans _ (20000000000 * 100000000000000000000000000)); [|discriminate].
    apply Qmult_le_compat_nonneg; split; lra. }
  destruct (fmul_spec (Seconds d) bucket_rate Hs Hr) as [Hreal Herr]; fold s r; [lra|].
  fold s r in Herr. apply near_of_tiny in Herr as [Hlo Hhi]; [|lra].
  set (x := fval (fmul (Seconds d) bucket_rate)) in *. set (p := (s * r)%Q) in *.
  assert (ulp1 * p <= (1 # 1000) * p)%Q by (apply Qmult_le_compat_r; lra).
  split; [exact Hreal|]. pose proof window_bounds as [HW1 HW2]. pose proof limit_bounds as [HL1 HL2].
  split; [|split; [|lra]]; (apply (Qmult_lt_0_le_reg_r _ _ W); [lra|]).
  2: { assert (gain d * (1 - 16 * ulp1) * W == L * D * (1 - 16 * ulp1))%Q as ->.
       { unfold D. rewrite <- gain_window. ring. }
       unfold p in Hlo. apply (three_roundings_below s r); lra. }
  assert (gain d * (1 + 16 * ulp1) * W == L * D * (1 + 16 * ulp1))%Q as ->.
  { unfold D. rewrite <- gain_window. ring. }
  unfold p in Hhi.
  apply (three_roundings s r); [lra|apply Qmult_le_0_compat; lra|lra|lra|lra|lra|lra|lra].
Qed.

Lemma limit_ulp : (0 <= ulp1 * L <= 1)%Q.
Proof.
  split; [apply ulp1_scale; pose proof limit_bounds; lra|].
  apply (Qle_trans _ (ulp1 * inject_Z (2 ^ 52))); [|discriminate].
  apply ulp1_mono, inject_le. lia.
Qed.

(** ** One request *)

Definition refilled (t : f64) (d : Duration) : f64 := fmin (f_of_Z limit) (fadd t (refill d)).

Lemma refilled_spec t d :
  f_real t = true -> (fval t <= L)%Q -> 0 <= d <= max_i64 ->
  f_real (refilled t d) = true /\ (fval (refilled t d) <= L)%Q /\
  (fval (refilled t d) <= fval t + gain d * (1 + 16 * ulp1) + 2 * (ulp1 * L))%Q.
Proof.
  intros Ht HtL Hd. destruct (refill_spec d Hd) as (Hr & Hgain & _ & Hbig).
  destruct limit_float as [Hl Hlv]. pose proof limit_bounds as [_ HL2]. pose proof pow2_900_big.
  pose proof limit_ulp as [HuL _]. pose proof (fval_nonneg _ Ht). pose proof (fval_nonneg _ Hr).
  destruct (fadd_spec t (refill d) Ht Hr) as [Hs [Hs1 Hs2]%Qabs_Qle_condition]; [lra|].
  unfold refilled, fmin. set (s := fadd t (refill d)) in *.
  destruct (fltb (f_of_Z limit) s) eqn:Hlt.
  - apply (fltb_spec _ _ Hl Hs) in Hlt. rewrite Hlv in *. split; [exact Hl|]. split; [lra|].
    destruct (Qlt_le_dec L (fval t + fval (refill d))) as [|Hle]; [lra|].
    apply ulp1_mono in Hle. lra.
  - apply not_true_iff_false in Hlt. rewrite (fltb_spec _ _ Hl Hs), Hlv in Hlt.
    apply Qnot_lt_le in Hlt. split; [exact Hs|]. split; [exact Hlt|].
    destruct (Qlt_le_dec L (fval t + fval (refill d))) as [|Hle]; [lra|].
    apply ulp1_mono in Hle. lra.
Qed.

Lemma taken_spec t :
  f_real t = true -> (fval t <= L)%Q -> fleb (f_of_Z 1) t = true ->
  f_real (fsub t (f_of_Z 1)) = true /\ (fval (fsub t (f_of_Z 1)) <= L)%Q /\
  (fval (fsub t (f_of_Z 1)) <= fval t - 1 + ulp1 * L)%Q.
Proof.
  intros Ht HtL Hle. destruct (f_of_Z_spec 1) as [H1 H1v]; [done|].
  apply (fleb_spec _ _ H1 Ht) in Hle. change (inject_Z 1) with 1%Q in H1v. rewrite H1v in Hle.
  pose proof limit_bounds as [_ HL2]. pose proof pow2_900_big. pose proof limit_ulp.
  destruct (fsub_spec t (f_of_Z 1) Ht H1) as [Hs [Hs1 Hs2]%Qabs_Qle_condition];
    rewrite ?H1v; [lra|lra|]. rewrite H1v in *.
  assert (ulp1 * (fval t - 1) <= ulp1 * L)%Q by (apply ulp1_mono; lra).
  split; [exact Hs|]. split; lra.
Qed.

(** ** Many requests *)

Definition charge : Q := (4 * (ulp1 * L))%Q.

(** The bucket of [key] in a limiter of this limit and window. *)
Record bucket_ok (key : string) (last : Time) (tb : TokenBucket) : Prop := {
  bo_rate : tb_rate tb = bucket_rate;
  bo_burst : tb_burst tb = limit;
  bo_bucket : forall b, buckets tb !! key = Some b ->
    f_real (tokens b) = true /\ (fval (tokens b) <= L)%Q /\ lastRefill b <= last;
}.

Definition one (b : bool) : Z := if b then 1 else 0.

Lemma charge_nonneg : (0 <= charge)%Q.
Proof. unfold charge. pose proof limit_ulp. lra. Qed.

Lemma refill_elapsed now t0 :
  t0 <= now -> 0 <= time_Sub now t0 <= max_i64 /\ time_Sub now t0 <= now - t0.
Proof. unfold time_Sub, max_i64, min_i64. lia. Qed.

(** What one request of [key] leaves in its bucket. *)
Lemma tb_Allow_key key last tb created now :
  bucket_ok key last tb -> last <= created -> created <= now ->
  let bucket := default {| tokens := f_of_Z limit; lastRefill := created |} (buckets tb !! key) in
  exists t, (tb_Allow created now key tb).2 =
    with_buckets (<[key := {| tokens := t; lastRefill := now |}]> (buckets tb)) tb /\
  bucket_ok key now (tb_Allow created now key tb).2 /\
  (inject_Z (one (tb_Allow created now key tb).1) + fval t <= L + charge)%Q /\
  (inject_Z (one (tb_Allow created now key tb).1) + fval t <=
   fval (tokens bucket) + gain (now - lastRefill bucket) * (1 + 16 * ulp1) + charge)%Q.
Proof.
  intros [Hrate Hburst Hbucket] Hlast Hnow bucket. pose proof limit_float as [Hl Hlv].
  assert (f_real (tokens bucket) = true /\ (fval (tokens bucket) <= L)%Q /\ lastRefill bucket <= created)
    as (Ht & HtL & Hrefill).
  { unfold bucket. destruct (buckets tb !! key) as [b|]; cbn.
    - destruct (Hbucket b eq_refl) as (? & ? & ?). split_and!; [done|done|lia].
    - split_and!; [done| |lia]. rewrite Hlv. apply Qle_refl. }
  destruct (refill_elapsed now (lastRefill bucket)) as [Hel Hle]; [lia|].
  destruct (refilled_spec (tokens bucket) _ Ht HtL Hel) as (Hf & HfL & Hgain).
  apply gain_mono in Hle. pose proof limit_ulp. pose proof ulp1_pos.
  assert (gain (time_Sub now (lastRefill bucket)) * (1 + 16 * ulp1) <=
          gain (now - lastRefill bucket) * (1 + 16 * ulp1))%Q
    by (apply Qmult_le_compat_r; lra).
  unfold tb_Allow, tb_AllowWithLimit. rewrite Hrate, Hburst. fold bucket.
  change (fmul (Seconds ?d) bucket_rate) with (refill d).
  change (fmin (f_of_Z limit) (fadd (tokens bucket) (refill ?d))) with (refilled (tokens bucket) d).
  set (t := refilled (tokens bucket) (time_Sub now (lastRefill bucket))) in *.
  destruct (fleb (f_of_Z 1) t) eqn:Hone; cbn [fst snd one];
    change (inject_Z 1) with 1%Q; change (inject_Z 0) with 0%Q.
  - destruct (taken_spec t Hf HfL Hone) as (Hs & HsL & Hst).
    exists (fsub t (f_of_Z 1)). split; [done|]. split; [|split; unfold charge; lra].
    constructor; cbn; [done..|]. rewrite lookup_insert_eq. intros b [= <-]. cbn.
    split_and!; [done|done|lia].
  - exists t. split; [done|]. split; [|split; unfold charge; lra].
    constructor; cbn; [done..|]. rewrite lookup_insert_eq. intros b [= <-]. cbn.
    split_and!; [done|done|lia].
Qed.

Lemma tb_Allow_other key k last tb created now :
  k <> key -> last <= now -> bucket_ok key last tb ->
  bucket_ok key now (tb_Allow created now k tb).2 /\
  buckets (tb_Allow created now k tb).2 !! key = buckets tb !! key.
Proof.
  intros Hk Hnow [Hrate Hburst Hbucket].
  assert (exists b', (tb_Allow created now k tb).2 = with_buckets (<[k := b']> (buckets tb)) tb)
    as [b' ->].
  { unfold tb_Allow, tb_AllowWithLimit. case_match; by eexists. }
  cbn. rewrite lookup_insert_ne by done. split; [|done]. constructor; cbn; [done..|].
  rewrite lookup_insert_ne by done. intros b Hb. destruct (Hbucket b Hb) as (? & ? & ?).
  split_and!; [done|done|lia].
Qed.
End Rate.

(** ** Many requests *)

(** A request: when its bucket would be created, when it is refilled, and its key. *)
Abbreviation arrival := (Time * Time * string)%type.

(** How many requests of [key] are let through, and the limiter they leave. *)
Fixpoint let_through (key : string) (reqs : list arrival) (l : RateLimiter) : Z * RateLimiter :=
  match reqs with
  | [] => (0, l)
  | (created, now, k) :: rest =>
      let (b, l') := limiter_Allow created now k l in
      let (n, l'') := let_through key rest l' in
      ((if b && String.eqb k key then n + 1 else n), l'')
  end.

(** The readings of the clock, in order. *)
Definition readings (reqs : list arrival) : list Time :=
  reqs ≫= fun '(created, now, _) => [created; now].

Lemma readings_cons last created now k reqs :
  StronglySorted Z.le (last :: readings ((created, now, k) :: reqs)) ->
  last <= created /\ created <= now /\ StronglySorted Z.le (now :: readings reqs).
Proof.
  cbn. intros [[Hs Hn]%StronglySorted_inv Hl]%StronglySorted_inv.
  apply Forall_cons in Hn as [Hn _]. by apply Forall_cons in Hl as [Hl _].
Qed.

Lemma sorted_from ts : StronglySorted Z.le ts -> exists last, StronglySorted Z.le (last :: ts).
Proof.
  intros Hs. destruct ts as [|t ts]; [exists 0; by repeat constructor|].
  exists t. constructor; [done|]. apply StronglySorted_inv in Hs as [_ Hs]. by constructor.
Qed.

Section Run.
Variables (limit : Z) (window : Duration) (key : string).
Hypothesis Hlimit : 0 < limit < 2 ^ 52.
Hypothesis Hwindow : 0 < window <= max_i64.

Abbreviation gained d := (gain limit window d * (1 + 16 * ulp1))%Q.
Abbreviation n_charge reqs := (inject_Z (Z.of_nat (length reqs)) * charge limit)%Q.

Lemma n_charge_cons (r : arrival) reqs : (n_charge (r :: reqs) == charge limit + n_charge reqs)%Q.
Proof. cbn [length]. rewrite Nat2Z.inj_succ, <- Z.add_1_l, inject_Z_plus. ring. Qed.

Lemma let_through_tokens created now k reqs tb :
  let r := tb_Allow created now k tb in
  let_through key ((created, now, k) :: reqs) (LimitTokens tb) =
    let (n, l) := let_through key reqs (LimitTokens r.2) in
    ((if r.1 && String.eqb k key then n + 1 else n), l).
Proof. cbn. by destruct (tb_Allow created now k tb). Qed.

Lemma one_more (b : bool) n : (inject_Z (if b then n + 1 else n) == inject_Z (one b) + inject_Z n)%Q.
Proof. destruct b; [rewrite inject_Z_plus|]; cbn [one]; ring. Qed.

Lemma gained_plus d d' : (gained (d + d') == gained d + gained d')%Q.
Proof. rewrite gain_plus. ring. Qed.

Lemma gained_nonneg d : 0 <= d -> (0 <= gained d)%Q.
Proof.
  intros Hd. pose proof (gain_nonneg limit window Hlimit Hwindow d Hd). pose proof ulp1_pos.
  apply Qmult_le_0_compat; lra.
Qed.

(** From a bucket that is there. *)
Lemma bucket_drains last t1 reqs tb b :
  bucket_ok limit window key last tb -> buckets tb !! key = Some b ->
  StronglySorted Z.le (last :: readings reqs) -> Forall (fun r => r.1.2 <= t1) reqs -> last <= t1 ->
  (inject_Z (let_through key reqs (LimitTokens tb)).1 <=
   fval (tokens b) + gained (t1 - lastRefill b) + n_charge reqs)%Q.
Proof.
  revert last tb b. induction reqs as [|[[created now] k] reqs IH]; intros last tb b Hok Hb Hs Hall Ht1.
  - destruct (bo_bucket _ _ _ _ _ Hok b Hb) as (Ht & _ & Hlast). cbn [let_through fst].
    pose proof (fval_nonneg _ Ht). pose proof (gained_nonneg (t1 - lastRefill b) ltac:(lia)).
    change (n_charge []) with (0 * charge limit)%Q. change (inject_Z 0) with 0%Q. lra.
  - apply readings_cons in Hs as (Hc & Hn & Hs). apply Forall_cons in Hall as [Hnow Hall]. cbn in Hnow.
    rewrite let_through_tokens, n_charge_cons. cbn zeta.
    destruct (String.eqb_spec k key) as [->|Hk].
    + destruct (tb_Allow_key limit window Hlimit Hwindow key last tb created now Hok Hc Hn)
        as (t & Htb & Hok' & _ & Hgain). rewrite Hb in Hgain. cbn [default id] in Hgain.
      assert (buckets (tb_Allow created now key tb).2 !! key = Some {| tokens := t; lastRefill := now |})
        as Hb' by (rewrite Htb; cbn; by rewrite lookup_insert_eq).
      specialize (IH now _ _ Hok' Hb' Hs Hall Hnow). cbn [tokens lastRefill] in IH.
      destruct (let_through key reqs _) as [n l]. cbn [fst] in *.
      rewrite andb_true_r, one_more. pose proof (gained_plus (now - lastRefill b) (t1 - now)) as Hsplit.
      replace (now - lastRefill b + (t1 - now)) with (t1 - lastRefill b) in Hsplit by lia. lra.
    + destruct (tb_Allow_other limit window key k last tb created now Hk ltac:(lia) Hok) as [Hok' Hb'].
      rewrite Hb in Hb'. specialize (IH now _ _ Hok' Hb' Hs Hall Hnow).
      destruct (let_through key reqs _) as [n l]. cbn [fst] in *.
      rewrite andb_false_r. pose proof (charge_nonneg limit Hlimit). lra.
Qed.

(** From any bucket, over requests from [t0] on. *)
Lemma bucket_bounded last t0 t1 reqs tb :
  bucket_ok limit window key last tb -> StronglySorted Z.le (last :: readings reqs) ->
  Forall (fun r => t0 <= r.1.2 <= t1) reqs -> t0 <= t1 ->
  (inject_Z (let_through key reqs (LimitTokens tb)).1 <=
   inject_Z limit + gained (t1 - t0) + n_charge reqs)%Q.
Proof.
  revert last tb. induction reqs as [|[[created now] k] reqs IH]; intros last tb Hok Hs Hall Ht1;
    pose proof (gained_nonneg (t1 - t0) ltac:(lia)) as Hgain; pose proof (charge_nonneg limit Hlimit).
  - change (n_charge []) with (0 * charge limit)%Q. cbn [let_through fst].
    change (inject_Z 0) with 0%Q. pose proof (limit_bounds limit Hlimit). lra.
  - apply readings_cons in Hs as (Hc & Hn & Hs). apply Forall_cons in Hall as [[Hfrom Hto] Hall].
    cbn in Hfrom, Hto. rewrite let_through_tokens, n_charge_cons. cbn zeta.
    destruct (String.eqb_spec k key) as [->|Hk].
    + destruct (tb_Allow_key limit window Hlimit Hwindow key last tb created now Hok Hc Hn)
        as (t & Htb & Hok' & Hfull & _).
      assert (buckets (tb_Allow created now key tb).2 !! key = Some {| tokens := t; lastRefill := now |})
        as Hb' by (rewrite Htb; cbn; by rewrite lookup_insert_eq).
      assert (Forall (fun r : arrival => r.1.2 <= t1) reqs) as Hall'
        by (eapply Forall_impl; [exact Hall|]; cbn; lia).
      pose proof (bucket_drains now t1 reqs _ _ Hok' Hb' Hs Hall' Hto) as Hrest.
      cbn [tokens lastRefill] in Hrest. destruct (let_through key reqs _) as [n l]. cbn [fst] in *.
      rewrite andb_true_r, one_more. pose proof (gained_plus (now - t0) (t1 - now)) as Hsplit.
      replace (now - t0 + (t1 - now)) with (t1 - t0) in Hsplit by lia.
      pose proof (gained_nonneg (now - t0) ltac:(lia)). lra.
    + destruct (tb_Allow_other limit window key k last tb created now Hk ltac:(lia) Hok) as [Hok' _].
      specialize (IH now _ Hok' Hs Hall Ht1).
      destruct (let_through key reqs _) as [n l]. cbn [fst] in *. rewrite andb_false_r. lra.
Qed.

(** A run keeps the limiter's form and its bucket. *)
Lemma bucket_ok_run last before after tb :
  bucket_ok limit window key last tb -> StronglySorted Z.le (last :: readings (before ++ after)) ->
  exists last' tb', (let_through key before (LimitTokens tb)).2 = LimitTokens tb' /\
    bucket_ok limit window key last' tb' /\ StronglySorted Z.le (last' :: readings after).
Proof.
  revert last tb. induction before as [|[[created now] k] before IH]; intros last tb Hok Hs.
  - by exists last, tb.
  - cbn [app] in Hs. apply readings_cons in Hs as (Hc & Hn & Hs).
    assert (bucket_ok limit window key now (tb_Allow created now k tb).2) as Hok'.
    { destruct (String.eqb_spec k key) as [->|Hk].
      - by destruct (tb_Allow_key limit window Hlimit Hwindow key last tb created now Hok Hc Hn)
          as (t & _ & Hok' & _).
      - by destruct (tb_Allow_other limit window key k last tb created now Hk ltac:(lia) Hok). }
    destruct (IH now _ Hok' Hs) as (last' & tb' & Heq & ? & ?). exists last', tb'.
    rewrite let_through_tokens. cbn zeta. destruct (let_through key before _). by cbn in *.
Qed.
End Run.

Lemma gain_full limit window d :
  0 < limit < 2 ^ 52 -> 0 < window <= max_i64 -> d <= window ->
  (gain limit window d <= inject_Z limit)%Q.
Proof.
  intros Hlimit Hwindow Hd. eapply Qle_trans; [by apply gain_mono|].
  unfold gain. pose proof (inject_le 1 window ltac:(lia)) as Hw. change (inject_Z 1) with 1%Q in Hw.
  rewrite Qdiv_mult_l by lra. apply Qle_refl.
Qed.

(** So few requests that rounding does not make up another one. *)
Lemma few_requests limit n (p : Z) (g : Q) :
  0 < limit -> 0 < n -> n * limit <= 2 ^ 47 -> (g <= inject_Z limit)%Q ->
  (inject_Z p <= inject_Z limit + g * (1 + 16 * ulp1) + inject_Z n * charge limit)%Q ->
  p <= 2 * limit.
Proof.
  intros Hl Hn Hfew Hg Hp. pose proof ulp1_pos. apply Zlt_succ_le. rewrite Zlt_Qlt.
  assert (inject_Z (n * limit) <= 140737488355328)%Q as Hnl by (apply (inject_le _ (2 ^ 47)); lia).
  assert (inject_Z limit <= 140737488355328)%Q as HL by (apply (inject_le _ (2 ^ 47)); nia).
  assert (g * (1 + 16 * ulp1) <= inject_Z limit * (1 + 16 * ulp1))%Q
    by (apply Qmult_le_compat_r; lra).
  assert (inject_Z n * charge limit == 4 * (ulp1 * inject_Z (n * limit)))%Q
    by (unfold charge; rewrite inject_Z_mult; ring).
  apply ulp1_mono in Hnl, HL.
  assert (ulp1 * 140737488355328 == 1 # 32)%Q by reflexivity.
  rewrite <- Z.add_1_l, inject_Z_plus, inject_Z_mult. change (inject_Z 1) with 1%Q.
  change (inject_Z 2) with 2%Q. lra.
Qed.

(** Whatever requests came before and however other keys interleave, the token
    bucket lets through of a key, between [t0] and [t1], at most its burst, what
    the configured rate allows in that time, and for every request a rounding of
    [2 ^ -50] of the limit; in a window, twice its limit, while the number of
    requests times the limit does not exceed [2 ^ 47]. *)
Lemma token_bucket_bound (kind key : string) (limit : Z) (window : Duration)
    (before during : list arrival) (t0 t1 : Time) :
  kind <> "sliding_window"%string -> 0 < limit < 2 ^ 52 -> 0 < window <= max_i64 ->
  StronglySorted Z.le (readings (before ++ during)) ->
  t0 <= t1 -> Forall (fun r => t0 <= r.1.2 <= t1) during ->
  let limiter := (let_through key before (NewRateLimiter kind limit window)).2 in
  let passed := (let_through key during limiter).1 in
  let n := Z.of_nat (length during) in
  (inject_Z passed <=
    inject_Z limit + inject_Z limit * inject_Z (t1 - t0) / inject_Z window * (1 + 16 * ulp1) +
    inject_Z n * (4 * (ulp1 * inject_Z limit)))%Q /\
  (t1 - t0 <= window -> n * limit <= 2 ^ 47 -> passed <= 2 * limit).
Proof.
  intros Hkind Hlimit Hwindow Hs Ht Hall limiter passed n.
  destruct (sorted_from _ Hs) as [last Hlast].
  assert (NewRateLimiter kind limit window = LimitTokens (NewTokenBucket (bucket_rate limit window) limit))
    as Hnew by (unfold NewRateLimiter; by rewrite (proj2 (String.eqb_neq _ _) Hkind)).
  destruct (bucket_ok_run limit window key Hlimit Hwindow last before during
              (NewTokenBucket (bucket_rate limit window) limit)) as (last' & tb & Heq & Hok & Hs');
    [by constructor|done|].
  assert (inject_Z passed <= inject_Z limit + gain limit window (t1 - t0) * (1 + 16 * ulp1) +
                             inject_Z n * charge limit)%Q as Hpassed.
  { unfold passed, limiter. rewrite Hnew, Heq.
    exact (bucket_bounded limit window key Hlimit Hwindow last' t0 t1 during tb Hok Hs' Hall Ht). }
  split; [exact Hpassed|]. intros Hwin Hfew.
  destruct during as [|r during]; [unfold passed; cbn; lia|].
  refine (few_requests _ n _ _ _ _ Hfew _ Hpassed); [lia|unfold n; cbn; lia|by apply gain_full].
Qed.

(** Two a minute: the third is refused, half a minute later one passes again. *)
Definition four_arrivals : list arrival :=
  [(1000 * Second, 1000 * Second, "k"); (1000 * Second, 1000 * Second, "k");
   (1001 * Second, 1001 * Second, "k"); (1031 * Second, 1031 * Second, "k")].

Example four_arrivals_pass :
  (let_through "k" four_arrivals (NewRateLimiter "token_bucket" 2 Minute)).1 = 3.
Proof. vm_compute. reflexivity. Qed.
