(* ===== verification/Steady.v ===== *)
(** * A client that keeps its rate is never refused: [internal/security/ratelimit.go].

    The bounds of [RateLimit] and [TokenBucket] say what a limiter holds back; this
    is the other half. However other keys behave, a key whose requests come no
    closer than the configured rate allows, with a margin of [2 ^ -47] for the
    floats, is let through by either limiter every time. *)
From S2P Require Export TokenBucket.

(** [d] is enough for one more request, and the rounding. *)
Definition rested (limit : Z) (window d : Duration) : Prop :=
  (2 ^ 47 + 1) * window <= 2 ^ 47 * (limit * d).

(** The requests of [key] are that far apart; [prev] is the one before them. *)
Fixpoint spaced (limit : Z) (window : Duration) (key : string) (prev : option Time) (reqs : list arrival) :
    Prop :=
  match reqs with
  | [] => True
  | (_, now, k) :: rest =>
      if String.eqb k key
      then (forall t, prev = Some t -> rested limit window (now - t)) /\
           spaced limit window key (Some now) rest
      else spaced limit window key prev rest
  end.

Definition asked (key : string) (reqs : list arrival) : Z :=
  Z.of_nat (length (List.filter (fun r => String.eqb r.2 key) reqs)).

Lemma asked_cons key created now k reqs :
  asked key ((created, now, k) :: reqs) =
    if String.eqb k key then asked key reqs + 1 else asked key reqs.
Proof. unfold asked. cbn. destruct (String.eqb k key); cbn [length]; lia. Qed.

Lemma rested_exact limit window d : 0 <= window -> rested limit window d -> window <= limit * d.
Proof. unfold rested. lia. Qed.

Section Bucket.
Variables (limit : Z) (window : Duration) (key : string).
Hypothesis Hlimit : 2 <= limit < 2 ^ 52.
Hypothesis Hwindow : 0 < window <= max_i64.

Lemma limit_ok : 0 < limit < 2 ^ 52.
Proof. lia. Qed.

Lemma rested_gain now last :
  last <= now -> rested limit window (now - last) ->
  (1 + 32 * ulp1 <= gain limit window (time_Sub now last))%Q.
Proof.
  intros Hnow Hrested. unfold gain. set (d := time_Sub now last).
  assert (rested limit window d) as Hd.
  { unfold rested, d, time_Sub, min_i64, max_i64 in *. nia. }
  pose proof (inject_le 1 window ltac:(lia)) as Hw. change (inject_Z 1) with 1%Q in Hw.
  apply Qle_shift_div_l; [lra|]. unfold rested in Hd. apply inject_le in Hd.
  rewrite !inject_Z_mult in Hd.
  assert (inject_Z (2 ^ 47 + 1) == inject_Z (2 ^ 47) * (1 + 32 * ulp1))%Q as Hulp by reflexivity.
  rewrite Hulp in Hd. assert (0 < inject_Z (2 ^ 47))%Q by reflexivity.
  apply (Qmult_lt_0_le_reg_r _ _ (inject_Z (2 ^ 47))); lra.
Qed.

(** The refilled bucket holds a token. *)
Lemma refilled_allows t d :
  f_real t = true -> (fval t <= inject_Z limit)%Q -> 0 <= d <= max_i64 ->
  (1 + ulp1 * 4 <= fval t \/ 1 + 32 * ulp1 <= gain limit window d)%Q ->
  fleb (f_of_Z 1) (refilled limit window t d) = true.
Proof.
  intros Ht HtL Hd Henough. destruct (refill_spec limit window limit_ok Hwindow d Hd) as (Hr & _ & Hlow & Hbig).
  destruct (limit_float limit limit_ok) as [Hl Hlv]. pose proof (limit_bounds limit limit_ok) as [_ HL2].
  pose proof pow2_900_big. pose proof (fval_nonneg _ Ht). pose proof (fval_nonneg _ Hr).
  pose proof ulp1_small. pose proof ulp1_pos. destruct (f_of_Z_spec 1) as [Hone H1v]; [done|].
  change (inject_Z 1) with 1%Q in H1v.
  destruct (fadd_spec t (refill limit window d) Ht Hr) as [Hs [Hs1 Hs2]%Qabs_Qle_condition]; [lra|].
  unfold refilled, fmin. set (s := fadd t (refill limit window d)) in *.
  assert (1 <= inject_Z limit)%Q as HL1 by (apply (inject_le 1); lia).
  destruct (fltb (f_of_Z limit) s) eqn:Hlt.
  - apply (fleb_spec _ _ Hone Hl). rewrite H1v, Hlv. exact HL1.
  - apply (fleb_spec _ _ Hone Hs). rewrite H1v.
    set (v := (fval t + fval (refill limit window d))%Q) in *.
    assert (1 + 4 * ulp1 <= v)%Q as Hv.
    { destruct Henough as [Hfull|Hgain]; [unfold v; lra|].
      assert ((1 + 32 * ulp1) * (1 - 16 * ulp1) <= gain limit window d * (1 - 16 * ulp1))%Q
        by (apply Qmult_le_compat_r; lra).
      assert (1 + 4 * ulp1 <= (1 + 32 * ulp1) * (1 - 16 * ulp1))%Q by q_compute.
      unfold v. lra. }
    assert ((1 + 4 * ulp1) * (1 - ulp1) <= v * (1 - ulp1))%Q by (apply Qmult_le_compat_r; lra).
    assert (1 <= (1 + 4 * ulp1) * (1 - ulp1))%Q by q_compute. lra.
Qed.

Lemma rested_allowed last tb created now :
  bucket_ok limit window key last tb -> last <= created -> created <= now ->
  (forall b, buckets tb !! key = Some b -> rested limit window (now - lastRefill b)) ->
  (tb_Allow created now key tb).1 = true.
Proof.
  intros [Hrate Hburst Hbucket] Hlast Hnow Hrested.
  unfold tb_Allow, tb_AllowWithLimit. rewrite Hrate, Hburst.
  change (fmul (Seconds ?d) (bucket_rate limit window)) with (refill limit window d).
  set (bucket := default _ (buckets tb !! key)).
  change (fmin (f_of_Z limit) (fadd (tokens bucket) (refill limit window ?d)))
    with (refilled limit window (tokens bucket) d).
  destruct (limit_float limit limit_ok) as [Hl Hlv].
  rewrite refilled_allows; [done|..].
  all: unfold bucket; destruct (buckets tb !! key) as [b|] eqn:Hb; cbn [default id tokens lastRefill].
  all: try destruct (Hbucket b eq_refl) as (? & ? & ?).
  - done.
  - done.
  - done.
  - rewrite Hlv. apply Qle_refl.
  - apply refill_elapsed. lia.
  - apply refill_elapsed. lia.
  - right. apply rested_gain; [lia|by apply Hrested].
  - left. rewrite Hlv. pose proof (inject_le 2 limit ltac:(lia)) as H2. change (inject_Z 2) with 2%Q in H2.
    pose proof ulp1_small. lra.
Qed.

Lemma bucket_steady last tb reqs :
  bucket_ok limit window key last tb -> StronglySorted Z.le (last :: readings reqs) ->
  spaced limit window key (lastRefill <$> buckets tb !! key) reqs ->
  (let_through key reqs (LimitTokens tb)).1 = asked key reqs.
Proof.
  revert last tb. induction reqs as [|[[created now] k] reqs IH]; intros last tb Hok Hs Hspaced; [done|].
  apply readings_cons in Hs as (Hc & Hn & Hs). rewrite let_through_tokens, asked_cons. cbn zeta.
  cbn [spaced] in Hspaced. destruct (String.eqb_spec k key) as [->|Hk].
  - destruct Hspaced as [Hrested Hspaced].
    assert ((tb_Allow created now key tb).1 = true) as Hallow.
    { apply (rested_allowed last); [done..|]. intros b Hb. apply Hrested. by rewrite Hb. }
    destruct (tb_Allow_key limit window limit_ok Hwindow key last tb created now Hok Hc Hn)
      as (t & Htb & Hok' & _).
    assert (lastRefill <$> buckets (tb_Allow created now key tb).2 !! key = Some now) as Hb'
      by (rewrite Htb; cbn; by rewrite lookup_insert_eq).
    specialize (IH now _ Hok' Hs). rewrite Hb' in IH. specialize (IH Hspaced).
    destruct (let_through key reqs _) as [n l]. cbn [fst] in *. by rewrite Hallow, IH.
  - destruct (tb_Allow_other limit window key k last tb created now Hk ltac:(lia) Hok) as [Hok' Hb'].
    specialize (IH now _ Hok' Hs). rewrite Hb' in IH. specialize (IH Hspaced).
    destruct (let_through key reqs _) as [n l]. cbn [fst] in *. by rewrite andb_false_r, IH.
Qed.
End Bucket.

(** ** The sliding window *)

Section SteadyWindow.
Variables (limit : Z) (window : Duration) (key : string).
Hypothesis Hwindow : 0 < window.

(** Each of [l] is so long before [now] that the ones after it fit between. *)
Fixpoint steady (l : list Time) (now : Time) : Prop :=
  match l with
  | [] => True
  | t :: l' => window * (Z.of_nat (length l') + 1) <= limit * (now - t) /\ steady l' now
  end.

Lemma steady_filter (P : Time -> Prop) `{forall t, Decision (P t)} l now :
  steady l now -> steady (filter P l) now.
Proof.
  induction l as [|t l IH]; [done|]. intros [Ht Hl]. rewrite filter_cons. case_decide; [|by apply IH].
  split; [|by apply IH]. pose proof (length_filter P l). nia.
Qed.

Lemma steady_next l t now :
  steady l t -> window <= limit * (now - t) -> steady (l ++ [t])%list now.
Proof.
  intros Hl Hnow. induction l as [|u l IH]; cbn.
  - split; [lia|done].
  - destruct Hl as [Hu Hl]. split; [|by apply IH]. rewrite length_app. cbn. lia.
Qed.

Lemma steady_few l now :
  0 < limit -> steady l now -> Forall (fun t => now - window < t) l -> Z.of_nat (length l) < limit.
Proof.
  intros Hpos Hl Hall. destruct l as [|t l]; [done|]. destruct Hl as [Ht _].
  apply Forall_cons in Hall as [Hin _]. cbn [length]. nia.
Qed.

(** The window of the key is its last request and a steady list before it. *)
Definition window_steady (prev : option Time) (sw : SlidingWindow) : Prop :=
  sw_limit sw = limit /\ sw_window sw = window /\
  match prev with
  | None => windows sw !! key = None
  | Some t => exists l, windows sw !! key = Some (l ++ [t])%list /\ steady l t
  end.

Lemma sw_Allow_steady prev sw now :
  0 < limit -> window_steady prev sw ->
  (forall t, prev = Some t -> window <= limit * (now - t)) ->
  (sw_Allow now key sw).1 = true /\ window_steady (Some now) (sw_Allow now key sw).2.
Proof.
  intros Hpos (Hl & Hw & Hprev) Hrested. unfold sw_Allow, sw_AllowWithLimit. rewrite Hl, Hw.
  destruct prev as [t|].
  - destruct Hprev as (l & -> & Hsteady). set (valid := filter _ _).
    assert (steady valid now) as Hvalid by (apply steady_filter, steady_next; auto).
    assert (Z.of_nat (length valid) < limit) as Hfew.
    { apply (steady_few valid now); [done..|]. apply Forall_forall. intros u Hu.
      apply list_elem_of_filter in Hu as [Hu _]. unfold After, time_Add in Hu. lia. }
    rewrite (proj2 (Z.leb_gt _ _) Hfew). split; [done|]. split; [done|]. split; [done|].
    exists valid. split; [cbn; by rewrite lookup_insert_eq|done].
  - rewrite Hprev. split; [done|]. split; [done|]. split; [done|]. exists [].
    split; [cbn; by rewrite lookup_insert_eq|done].
Qed.

Lemma sw_Allow_other k prev sw now :
  k <> key -> window_steady prev sw -> window_steady prev (sw_Allow now k sw).2.
Proof.
  intros Hk (Hl & Hw & Hprev).
  assert (exists l, (sw_Allow now k sw).2 = with_windows (<[k := l]> (windows sw)) sw) as [l ->].
  { unfold sw_Allow, sw_AllowWithLimit. repeat case_match; by eexists. }
  split; [done|]. split; [done|]. cbn. by rewrite lookup_insert_ne.
Qed.

Lemma window_steady_run prev sw reqs :
  0 < limit -> window_steady prev sw -> spaced limit window key prev reqs ->
  (let_through key reqs (LimitWindow sw)).1 = asked key reqs.
Proof.
  intros Hpos. revert prev sw. induction reqs as [|[[created now] k] reqs IH]; intros prev sw Hok Hspaced; [done|].
  rewrite asked_cons. cbn [let_through limiter_Allow spaced] in *.
  destruct (String.eqb_spec k key) as [->|Hk].
  - destruct Hspaced as [Hrested Hspaced].
    destruct (sw_Allow_steady prev sw now Hpos Hok) as [Hallow Hok'].
    { intros t Ht. apply rested_exact; [lia|by apply Hrested]. }
    destruct (sw_Allow now key sw) as [b sw']. cbn in Hallow, Hok'. specialize (IH _ _ Hok' Hspaced).
    destruct (let_through key reqs _) as [n l]. cbn [fst] in *. by rewrite Hallow, IH.
  - apply (sw_Allow_other k prev sw now Hk) in Hok. destruct (sw_Allow now k sw) as [b sw'].
    specialize (IH _ _ Hok Hspaced).
    destruct (let_through key reqs _) as [n l]. cbn [fst] in *. by rewrite andb_false_r, IH.
Qed.
End SteadyWindow.

(** ** Either limiter *)

(** C37: a client that keeps the configured rate is never refused: whichever limiter
    is configured, and however the requests of other keys interleave, if each
    request of the key comes at least a [limit]-th of the window after the one
    before it, and a margin of [2 ^ -47] of that, all of them are let through. *)
Theorem steady_key_let_through (kind key : string) (limit : Z) (window : Duration) (reqs : list arrival) :
  2 <= limit < 2 ^ 52 -> 0 < window <= max_i64 -> StronglySorted Z.le (readings reqs) ->
  spaced limit window key None reqs ->
  (let_through key reqs (NewRateLimiter kind limit window)).1 = asked key reqs.
Proof.
  intros Hlimit Hwindow Hs Hspaced. unfold NewRateLimiter. destruct (String.eqb kind "sliding_window").
  - apply (window_steady_run limit window key ltac:(lia) None); [lia| |done]. by split.
  - destruct (sorted_from (readings reqs) Hs) as [last Hlast].
    apply (bucket_steady limit window key Hlimit Hwindow last); [by constructor|done..].
Qed.

(** Two a minute, of a client that asks twice a minute while another floods. *)
Definition steady_arrivals : list arrival :=
  [(1000 * Second, 1000 * Second, "k"); (1001 * Second, 1001 * Second, "z");
   (1001 * Second, 1001 * Second, "z"); (1002 * Second, 1002 * Second, "z");
   (1031 * Second, 1031 * Second, "k"); (1062 * Second, 1062 * Second, "k")].

Lemma steady_key_let_through_witness :
  (let_through "k" steady_arrivals (NewRateLimiter "token_bucket" 2 Minute)).1 = 3 /\
  (let_through "k" steady_arrivals (NewRateLimiter "sliding_window" 2 Minute)).1 = 3 /\
  (let_through "z" steady_arrivals (NewRateLimiter "token_bucket" 2 Minute)).1 = 2.
Proof.
  assert (StronglySorted Z.le (readings steady_arrivals)) as Hs
    by (apply (bool_decide_unpack _); vm_compute; exact I).
  assert (spaced 2 Minute "k" None steady_arrivals) as Hk.
  { cbn. repeat split; try discriminate; intros t [= <-]; vm_compute; discriminate. }
  split; [|split; [|vm_compute; reflexivity]];
    refine (steady_key_let_through _ "k" 2 Minute steady_arrivals _ _ Hs Hk); by split.
Defined.
