(* ===== verification/Request.v ===== *)
(** * Request validation and middleware: [internal/security/request.go] and
    [middleware.go], with [setupSecurity] of [main.go].

    A request is validated by a [prog] over [sec_op]: readings of the clock and
    of the random source, the two nonce calls, and one call of the rate limiter.
    Header names are kept in canonical form with the first value of each, which
    is what [Header.Get] looks at. *)
From S2P Require Export GoUrl Hmac Nonce RateLimit.

Record Request := {
  rq_Method : string;
  (** [r.URL.EscapedPath()]: the path as it was sent. *)
  rq_EscapedPath : string;
  rq_RemoteAddr : string;
  rq_Header : gmap string string;
  (** [-1] when the client did not declare a length. *)
  rq_ContentLength : Z;
  (** What the body yields, and the error it then ends in, if any. *)
  rq_Body : string;
  rq_BodyErr : option string;
}.

(** [r.URL.Path] *)
Definition rq_Path (r : Request) : string := PathUnescape (rq_EscapedPath r).

Definition with_body (body : string) (r : Request) : Request := {|
  rq_Method := rq_Method r; rq_EscapedPath := rq_EscapedPath r; rq_RemoteAddr := rq_RemoteAddr r;
  rq_Header := rq_Header r; rq_ContentLength := rq_ContentLength r;
  rq_Body := body; rq_BodyErr := None |}.

(** [http.CanonicalHeaderKey] on a valid token. *)
Fixpoint canonical_key (start : bool) (s : string) : string :=
  match s with
  | EmptyString => EmptyString
  | String c s' =>
      String (if start then upper_char c else lower_char c) (canonical_key (Ascii.eqb c "-") s')
  end.

Definition Header_Get (r : Request) (key : string) : string :=
  default ""%string (rq_Header r !! canonical_key true key).

(** [io.ReadAll(io.LimitReader(r.Body, n))]: the error shows only if the limit
    is not reached first. *)
Definition read_limited (n : Z) (r : Request) : result string :=
  match rq_BodyErr r with
  | Some e => if len (rq_Body r) <? n then Err e else Ok (take_str (Z.to_nat n) (rq_Body r))
  | None => Ok (take_str (Z.to_nat n) (rq_Body r))
  end.

Record RequestContext := {
  RequestID : string;
  Timestamp : Z;
  Nonce : string;
  APIKey : string;
  ClientIP : string;
  UserAgent : string;
  ctx_Path : string;
  ctx_Method : string;
  BodyHash : string;
  Validated : bool;
  StartTime : Time;
}.

(** The limiter and the nonce store behind it are state, reached by [sec_op]. *)
Record RequestValidator := {
  rv_hmac : HMACValidator;
  rv_nonceTTL : Duration;
  rv_maxBodySize : Z;
}.

Inductive sec_op : Type -> Type :=
| SNow : sec_op Time
| SRand : sec_op (option (list Z))
| SNonce {X} (op : nonce_op X) : sec_op X
| SAllow (key : string) : sec_op bool.

(** A program over one kind of operation as a program over another. *)
Fixpoint translate {E F : Type -> Type} (f : forall X, E X -> F X) {A} (p : prog E A) : prog F A :=
  match p with
  | Ret a => Ret a
  | Vis e k => Vis (f _ e) (fun x => translate f (k x))
  end.

Definition getClientIP (r : Request) : string :=
  let forwarded := Header_Get r "X-Forwarded-For" in
  if negb (String.eqb forwarded "") then forwarded else
  let real := Header_Get r "X-Real-IP" in
  if negb (String.eqb real "") then real else rq_RemoteAddr r.

Definition UnixNano (t : Time) : Z := i64 (t - 62135596800 * Second).

Definition draw_nonce : prog sec_op string :=
  rand ← perform SRand;
  match rand with
  | Some l => Ret (GenerateNonce (Some l) 0 0)
  | None =>
      t ← perform SNow;
      t' ← perform SNow;
      Ret (GenerateNonce None (UnixNano t) (UnixNano t'))
  end.

Definition generateRequestID : prog sec_op string :=
  nonce ← draw_nonce;
  let nonce := if 8 <? len nonce then take_str 8 nonce else nonce in
  t ← perform SNow;
  Ret ("req-" +:+ (itoa (UnixNano t) +:+ ("-" +:+ hex_EncodeToString (bytes_of nonce)))).

(** The credentials: timestamp, nonce, signature, and whether they are the
    legacy ones. *)
Definition credentials (r : Request) : string * string * string * bool :=
  let tsStr := Header_Get r "X-Request-Timestamp" in
  let nonce := Header_Get r "X-Request-Nonce" in
  let hmacHeader := Header_Get r "X-Request-Signature" in
  if String.eqb tsStr "" && String.eqb nonce "" && String.eqb hmacHeader "" then
    let hmacHeader := Header_Get r "x-signer-hmac" in
    (Header_Get r "x-ts", Header_Get r "x-nonce", hmacHeader, negb (String.eqb hmacHeader ""))
  else (tsStr, nonce, hmacHeader, false).

Definition set_validated (c : RequestContext) : RequestContext := {|
  RequestID := RequestID c; Timestamp := Timestamp c; Nonce := Nonce c; APIKey := APIKey c;
  ClientIP := ClientIP c; UserAgent := UserAgent c; ctx_Path := ctx_Path c;
  ctx_Method := ctx_Method c; BodyHash := BodyHash c; Validated := true;
  StartTime := StartTime c |}.
Definition set_credentials (timestamp : Z) (nonce : string) (c : RequestContext) :
    RequestContext := {|
  RequestID := RequestID c; Timestamp := timestamp; Nonce := nonce; APIKey := APIKey c;
  ClientIP := ClientIP c; UserAgent := UserAgent c; ctx_Path := ctx_Path c;
  ctx_Method := ctx_Method c; BodyHash := BodyHash c; Validated := Validated c;
  StartTime := StartTime c |}.

Section Validate.
Context `{GoUnicode}.

(** [if hmacHeader != "" { .. }]: whether a signature was checked. *)
Definition check_signature (rv : RequestValidator) (tsStr nonce hmacHeader : string)
    (legacy : bool) (body : string) : prog sec_op (result bool) :=
  if String.eqb hmacHeader "" then Ret (Ok false) else
  t ← perform SNow;
  let checked :=
    if legacy then ValidateRawBodyHMAC (Unix t) tsStr nonce hmacHeader body (rv_hmac rv)
    else ValidateHMAC (Unix t) tsStr nonce hmacHeader body (rv_hmac rv) in
  match checked with
  | Err e => Ret (Err ("hmac validation failed: " +:+ e))
  | Ok _ => Ret (Ok true)
  end.

(** [if nonce != "" { .. }] *)
Definition check_nonce (rv : RequestValidator) (nonce : string) : prog sec_op (result unit) :=
  if String.eqb nonce "" then Ret (Ok tt) else
  r ← translate (@SNonce) (ValidateNonce (rv_nonceTTL rv) nonce);
  Ret (match r with Err e => Err ("nonce validation failed: " +:+ e) | Ok _ => Ok tt end).

(** The context and the request with its body read and put back. *)
Definition ValidateRequest (rv : RequestValidator) (r : Request) :
    prog sec_op (result (RequestContext * Request)) :=
  requestID ← generateRequestID;
  startTime ← perform SNow;
  if (0 <? rv_maxBodySize rv) && (rv_maxBodySize rv <? rq_ContentLength r) then
    Ret (Err ("body size exceeds limit: " +:+ (itoa (rq_ContentLength r) +:+
              (" > " +:+ itoa (rv_maxBodySize rv)))))
  else
  match read_limited (rv_maxBodySize rv) r with
  | Err e => Ret (Err ("failed to read body: " +:+ e))
  | Ok body =>
      let '(tsStr, nonce, hmacHeader, legacy) := credentials r in
      let apiKey := Header_Get r "X-API-Key" in
      let ctx := {|
        RequestID := requestID; Timestamp := 0; Nonce := ""; APIKey := apiKey;
        ClientIP := getClientIP r; UserAgent := Header_Get r "User-Agent";
        ctx_Path := rq_Path r; ctx_Method := rq_Method r; BodyHash := body_hash body;
        Validated := false; StartTime := startTime |} in
      try (check_signature rv tsStr nonce hmacHeader legacy body) (fun signed =>
      let ctx := if signed then set_validated ctx else ctx in
      try (check_nonce rv nonce) (fun _ =>
      let rateKey := if negb (String.eqb (APIKey ctx) "") then APIKey ctx else ClientIP ctx in
      allowed ← perform (SAllow rateKey);
      if negb (allowed : bool) then Ret (Err ("rate limit exceeded for key: " +:+ rateKey))
      else
        let timestamp := if String.eqb tsStr "" then 0 else (ParseInt64 tsStr).1 in
        Ret (Ok (set_credentials timestamp nonce ctx, with_body body r))))
  end.

(** ** The middleware *)

Record SecurityOptions := {
  Enabled : bool;
  opt_RequireHMAC : bool;
  opt_RequireNonce : bool;
  opt_RequireAPIKey : bool;
  AllowedMethods : list string;
  ExcludePaths : list string;
}.

Record Middleware := { m_validator : RequestValidator; m_options : SecurityOptions }.

(** An error response, or the call of the next handler. *)
Inductive http_outcome :=
| Respond (status : Z) (message : string)
| Next (r : Request) (ctx : option RequestContext).

Definition isExcluded (m : Middleware) (path : string) : bool :=
  existsb (fun p => String.eqb p path) (ExcludePaths (m_options m)).

Definition isMethodAllowed (m : Middleware) (method : string) : bool :=
  (length (AllowedMethods (m_options m)) =? 0)%nat
  || existsb (fun mtd => String.eqb mtd method) (AllowedMethods (m_options m)).

Definition Handler (m : Middleware) (r : Request) : prog sec_op http_outcome :=
  if isExcluded m (rq_Path r) then Ret (Next r None) else
  if negb (isMethodAllowed m (rq_Method r)) then Ret (Respond 405 "Method not allowed") else
  if negb (Enabled (m_options m)) then Ret (Next r None) else
  validated ← ValidateRequest (m_validator m) r;
  match validated with
  | Err e => Ret (Respond 401 e)
  | Ok (ctx, r') =>
      if opt_RequireHMAC (m_options m) && negb (Validated ctx)
      then Ret (Respond 401 "HMAC signature required")
      else if opt_RequireNonce (m_options m) && String.eqb (Nonce ctx) ""
      then Ret (Respond 401 "nonce required")
      else if opt_RequireAPIKey (m_options m) && String.eqb (APIKey ctx) ""
      then Ret (Respond 401 "API key required")
      else Ret (Next r' (Some ctx))
  end.

Definition SecurityMiddleware (rv : RequestValidator) (r : Request) : prog sec_op http_outcome :=
  validated ← ValidateRequest rv r;
  Ret (match validated with
       | Err e => Respond 401 ("Security validation failed: " +:+ e)
       | Ok (ctx, r') => Next r' (Some ctx)
       end).
End Validate.

(** ** Running a request *)

(** The state the middleware shares between requests. Time and randomness are
    streams; [sec_tick] counts the readings. *)
Record sec_world (S : Type) := { sec_tick : nat; sec_nonces : S; sec_limiter : RateLimiter }.
Arguments sec_tick {S} _.
Arguments sec_nonces {S} _.
Arguments sec_limiter {S} _.
Arguments Build_sec_world {S} _ _ _.

Section RunRequest.
Context {S : Type} `{NonceStore S}.
Variable clock : nat -> Time.
Variable entropy : nat -> option (list Z).

Definition handle_sec_nonce (X : Type) (op : nonce_op X) (w : sec_world S) : X * sec_world S :=
  let n := sec_tick w in
  match op in nonce_op X return X * sec_world S with
  | NExists nonce =>
      let (r, s) := ns_Exists (clock n) nonce (sec_nonces w) in
      (r, Build_sec_world (n + 1)%nat s (sec_limiter w))
  | NStore nonce ttl =>
      let (r, s) := ns_Store (clock n) nonce ttl (sec_nonces w) in
      (r, Build_sec_world (n + 1)%nat s (sec_limiter w))
  end.

Definition handle_sec (X : Type) (op : sec_op X) (w : sec_world S) : X * sec_world S :=
  let n := sec_tick w in
  match op in sec_op X return X * sec_world S with
  | SNow => (clock n, Build_sec_world (n + 1)%nat (sec_nonces w) (sec_limiter w))
  | SRand => (entropy n, Build_sec_world (n + 1)%nat (sec_nonces w) (sec_limiter w))
  | SNonce op => handle_sec_nonce _ op w
  | SAllow key =>
      let (b, l) := limiter_Allow (clock n) (clock (n + 1)%nat) key (sec_limiter w) in
      (b, Build_sec_world (n + 2)%nat (sec_nonces w) l)
  end.

Definition run_sec {A} (p : prog sec_op A) (w : sec_world S) : A * sec_world S := run handle_sec p w.
End RunRequest.

(** ** [setupSecurity] *)

#[export] Instance sum_nonce_store {A B} `{NonceStore A} `{NonceStore B} : NonceStore (A + B) := {|
  ns_Store now n ttl s :=
    match s with
    | inl a => let (r, a') := ns_Store now n ttl a in (r, inl a')
    | inr b => let (r, b') := ns_Store now n ttl b in (r, inr b')
    end;
  ns_Exists now n s :=
    match s with
    | inl a => let (r, a') := ns_Exists now n a in (r, inl a')
    | inr b => let (r, b') := ns_Exists now n b in (r, inr b')
    end;
  ns_Delete n s :=
    match s with
    | inl a => let (r, a') := ns_Delete n a in (r, inl a')
    | inr b => let (r, b') := ns_Delete n b in (r, inr b')
    end;
  ns_Cleanup now s :=
    match s with
    | inl a => let (r, a') := ns_Cleanup now a in (r, inl a')
    | inr b => let (r, b') := ns_Cleanup now b in (r, inr b')
    end;
|}.

Section Setup.
Context `{GoUnicode} {R : Type}.
(** [redis.ParseURL], [NewClient] and the [Ping] of [NewRedisNonceStore]. *)
Variable redis_connect : string -> result R.

Definition NewRequestValidator (secret : string) (maxSkew : Z) (ttl : Duration) (maxBody : Z)
    (old : string) : RequestValidator :=
  let h := NewHMACValidator secret maxSkew in
  {| rv_hmac := if negb (String.eqb old "") then SetOldSecret old h else h;
     rv_nonceTTL := ttl; rv_maxBodySize := maxBody |}.

(** The middleware, and the nonce store and limiter it starts with. *)
Definition setupSecurity (cfg : SignerConfig) :
    result (Middleware * (InMemoryNonceStore + option R) * RateLimiter) :=
  nonceStore ←
    (if String.eqb (NonceStoreType (Security cfg)) "redis" then
       guard_err (String.eqb (TrimSpace (RedisURL cfg)) "")
         "REDIS_URL obrigatorio quando NONCE_STORE_TYPE=redis" ≫= λ _,
       match redis_connect (RedisURL cfg) with
       | Err e => Err ("redis nonce store indisponivel: " +:+ e)
       | Ok r => Ok (inr (Some r))
       end
     else Ok (inl NewInMemoryNonceStore));
  let validator :=
    NewRequestValidator (HMACSecret (Security cfg)) (HMACMaxSkewSec (Security cfg))
      (GetNonceTTL cfg) (GetMaxBodySize cfg) (HMACOldSecret (Security cfg)) in
  Ok ({| m_validator := validator;
         m_options := {|
           Enabled := true;
           opt_RequireHMAC := RequireHMAC (Security cfg);
           opt_RequireNonce := RequireNonce (Security cfg);
           opt_RequireAPIKey := RequireAPIKey (Security cfg);
           AllowedMethods := ["POST"; "GET"]%string;
           ExcludePaths := ["/healthz"; "/readyz"]%string |} |},
      nonceStore,
      NewRateLimiter (GetRateLimiterType cfg) (GetRateLimit cfg) (GetRateWindow cfg)).
End Setup.

(** ** What a validated request has been through *)

Lemma run_translate {E F : Type -> Type} {W A} (f : forall X, E X -> F X)
    (handle : forall X, F X -> W -> X * W) (p : prog E A) w :
  run handle (translate f p) w = run (fun X e => handle X (f X e)) p w.
Proof.
  revert w. induction p as [a|X e k IH]; intros w; [done|]. cbn.
  destruct (handle X (f X e) w). apply IH.
Qed.

Section Validated.
Context `{GoUnicode} {S : Type} `{NonceStore S}.
Variable clock : nat -> Time.
Variable entropy : nat -> option (list Z).
Implicit Types w : sec_world S.

Abbreviation exec := (run_sec clock entropy).

Lemma sec_bind {A B} (p : prog sec_op A) (k : A -> prog sec_op B) w :
  exec (p ≫= k) w = let (a, w') := exec p w in exec (k a) w'.
Proof. apply run_bind. Qed.

Lemma sec_try {A B} (p : prog sec_op (result A)) (k : A -> prog sec_op (result B)) w b w' :
  exec (try p k) w = (Ok b, w') ->
  exists a w1, exec p w = (Ok a, w1) /\ exec (k a) w1 = (Ok b, w').
Proof.
  unfold run_sec. rewrite run_try. destruct (run _ p w) as [[a|e] w1]; [|done]. by eexists _, _.
Qed.

(** Nothing but the count of readings has changed. *)
Definition quiet w w' : Prop :=
  (sec_tick w <= sec_tick w')%nat /\ sec_nonces w' = sec_nonces w /\
  sec_limiter w' = sec_limiter w.

Lemma generateRequestID_quiet w id w' : exec generateRequestID w = (id, w') -> quiet w w'.
Proof.
  unfold run_sec, generateRequestID, draw_nonce, quiet. cbn.
  destruct (entropy (sec_tick w)); cbn; intros [= _ <-]; cbn; repeat split; lia.
Qed.

(** The signature of a request, checked at the reading [t]. *)
Definition signature_ok (rv : RequestValidator) (t : Time) (ts nonce hdr body : string)
    (legacy : bool) : Prop :=
  (if legacy then ValidateRawBodyHMAC (Unix t) ts nonce hdr body (rv_hmac rv)
   else ValidateHMAC (Unix t) ts nonce hdr body (rv_hmac rv)) = Ok tt.

Lemma check_signature_ok rv ts nonce hdr legacy body w signed w' :
  exec (check_signature rv ts nonce hdr legacy body) w = (Ok signed, w') ->
  sec_nonces w' = sec_nonces w /\ sec_limiter w' = sec_limiter w /\
  sec_tick w' = (sec_tick w + if signed then 1 else 0)%nat /\
  (signed = true -> signature_ok rv (clock (sec_tick w)) ts nonce hdr body legacy).
Proof.
  unfold check_signature, run_sec, signature_ok.
  destruct (String.eqb hdr ""); cbn; [intros [= <- <-]; repeat split; done || lia|].
  destruct (if legacy then _ else _) as [[]|e]; [|done]. cbn.
  intros [= <- <-]. repeat split.
Qed.

Lemma check_nonce_ok rv nonce w w' :
  exec (check_nonce rv nonce) w = (Ok tt, w') ->
  sec_limiter w' = sec_limiter w /\
  (nonce <> ""%string ->
    exists s1, ns_Exists (clock (sec_tick w)) nonce (sec_nonces w) = (Ok false, s1) /\
      ns_Store (clock (sec_tick w + 1)%nat) nonce (rv_nonceTTL rv) s1 = (Ok tt, sec_nonces w')).
Proof.
  unfold check_nonce, run_sec. destruct (String.eqb_spec nonce "") as [->|Hn];
    [by intros [= <-]|]. rewrite run_bind, run_translate. unfold ValidateNonce.
  rewrite (proj2 (String.eqb_neq nonce "") Hn). cbn.
  destruct (ns_Exists _ nonce (sec_nonces w)) as [[[]|e] s1] eqn:Hex; cbn; [done| |done].
  destruct (ns_Store _ nonce _ s1) as [[[]|e] s2] eqn:Hst; cbn; [|done].
  intros [= <-]. cbn. split; [done|]. intros _. by exists s1.
Qed.

(** A request that passes: its body is the first [maxBodySize] bytes, and the
    nonce calls are the only change to the nonces. [a] counts the readings up to
    the signature check. *)
Lemma ValidateRequest_ok rv r w ctx r' w' :
  exec (ValidateRequest rv r) w = (Ok (ctx, r'), w') ->
  exists body ts nonce hdr legacy,
    read_limited (rv_maxBodySize rv) r = Ok body /\ r' = with_body body r /\
    credentials r = (ts, nonce, hdr, legacy) /\ Nonce ctx = nonce /\
    APIKey ctx = Header_Get r "X-API-Key" /\
    exists a, (sec_tick w <= a)%nat /\
      (Validated ctx = true -> signature_ok rv (clock a) ts nonce hdr body legacy) /\
      (nonce <> ""%string -> exists s1,
        let b := (a + if Validated ctx then 1 else 0)%nat in
        ns_Exists (clock b) nonce (sec_nonces w) = (Ok false, s1) /\
        ns_Store (clock (b + 1)%nat) nonce (rv_nonceTTL rv) s1 = (Ok tt, sec_nonces w')).
Proof.
  unfold ValidateRequest. rewrite sec_bind.
  destruct (exec generateRequestID w) as [id w1] eqn:Hid.
  apply generateRequestID_quiet in Hid as (Ht1 & Hn1 & _).
  rewrite sec_bind. cbn [run_sec run perform handle_sec]. 
  set (w2 := Build_sec_world _ _ _).
  destruct (_ && _); [done|].
  destruct (read_limited (rv_maxBodySize rv) r) as [body|e]; [|done].
  destruct (credentials r) as [[[ts nonce] hdr] legacy].
  intros (signed & w3 & Hsig & Hrest)%sec_try.
  apply check_signature_ok in Hsig as (Hn3 & _ & Ht3 & Hsigned).
  apply sec_try in Hrest as ([] & w4 & Hnonce & Hrest).
  apply check_nonce_ok in Hnonce as [_ Hnonce].
  rewrite sec_bind in Hrest. cbn [run_sec run perform handle_sec] in Hrest.
  destruct (limiter_Allow _ _ _ (sec_limiter w4)) as [[] l]; [|done]. cbn in Hrest.
  injection Hrest as <- <- <-.
  exists body, ts, nonce, hdr, legacy. do 4 (split; [done|]). cbn.
  split; [by destruct signed|]. exists (sec_tick w2). split; [cbn; lia|].
  rewrite Hn3, Ht3 in Hnonce. cbn in Hnonce. rewrite Hn1 in Hnonce.
  destruct signed; cbn; (split; [done|exact Hnonce] || (split; [by apply Hsigned|exact Hnonce])).
Qed.

Lemma Handler_next m r w r' ctx w' :
  exec (Handler m r) w = (Next r' (Some ctx), w') ->
  isMethodAllowed m (rq_Method r) = true /\
  exec (ValidateRequest (m_validator m) r) w = (Ok (ctx, r'), w') /\
  (opt_RequireHMAC (m_options m) = true -> Validated ctx = true) /\
  (opt_RequireNonce (m_options m) = true -> Nonce ctx <> ""%string) /\
  (opt_RequireAPIKey (m_options m) = true -> APIKey ctx <> ""%string).
Proof.
  unfold Handler. destruct (isExcluded m (rq_Path r)); [done|].
  destruct (isMethodAllowed m (rq_Method r)); [|done].
  destruct (Enabled (m_options m)); [|done]. cbn [negb]. rewrite sec_bind.
  destruct (exec (ValidateRequest _ r) w) as [[[ctx1 r1]|e] w1]; [|done].
  destruct (opt_RequireHMAC _ && _) eqn:Hh; [done|].
  destruct (opt_RequireNonce _ && _) eqn:Hn; [done|].
  destruct (opt_RequireAPIKey _ && _) eqn:Ha; [done|]. intros [= <- <- <-].
  split; [done|]. split; [done|]. split; [|split]; intros Hreq; rewrite Hreq in *; cbn in *.
  - by destruct (Validated ctx1).
  - by apply String.eqb_neq.
  - by apply String.eqb_neq.
Qed.
End Validated.

(** C22: what reaches a handler through the middleware with a context has passed
    every check its options ask for. The method is allowed and the handler reads
    the body that was checked, cut at the limit. With [RequireHMAC] exactly these
    bytes are covered by a timely signature under the active or the old secret;
    with [RequireNonce] the nonce is not empty, the store had not seen it and now
    keeps it for the time to live; with [RequireAPIKey] the header [X-API-Key] is
    not empty, and that is all that is asked of it. *)
Theorem middleware_sound `{GoUnicode} {S} `{NonceStore S} clock entropy
    (m : Middleware) (r r' : Request) ctx (w w' : sec_world S) :
  run_sec clock entropy (Handler m r) w = (Next r' (Some ctx), w') ->
  isMethodAllowed m (rq_Method r) = true /\
  read_limited (rv_maxBodySize (m_validator m)) r = Ok (rq_Body r') /\
  exists ts nonce hdr legacy a,
    credentials r = (ts, nonce, hdr, legacy) /\ (sec_tick w <= a)%nat /\
    (opt_RequireHMAC (m_options m) = true ->
      signature_ok (m_validator m) (clock a) ts nonce hdr (rq_Body r') legacy) /\
    (opt_RequireNonce (m_options m) = true -> nonce <> ""%string /\ exists b s1,
      ns_Exists (clock b) nonce (sec_nonces w) = (Ok false, s1) /\
      ns_Store (clock (b + 1)%nat) nonce (rv_nonceTTL (m_validator m)) s1
        = (Ok tt, sec_nonces w')) /\
    (opt_RequireAPIKey (m_options m) = true -> Header_Get r "X-API-Key" <> ""%string).
Proof.
  intros (Hm & Hval & Hvalidated & Hnonce & Hkey)%Handler_next.
  apply ValidateRequest_ok in Hval
    as (body & ts & nonce & hdr & legacy & Hbody & -> & Hcred & Hnc & Hapi & a & Ha & Hsig & Hst).
  rewrite Hnc in Hnonce. rewrite Hapi in Hkey.
  split; [done|]. split; [done|]. exists ts, nonce, hdr, legacy, a.
  do 2 (split; [done|]). split; [by auto|]. split; [|done]. intros Hn. specialize (Hnonce Hn).
  split; [done|]. destruct (Hst Hnonce) as (s1 & Hs1). by eexists _, s1.
Qed.

(** ** Replays *)

Section Replay.
Context `{GoUnicode}.
Variable clock : nat -> Time.
Variable entropy : nat -> option (list Z).
Implicit Types w : sec_world InMemoryNonceStore.

(** What can happen between two requests: other requests, the deletions the
    store spawned, and time. *)
Inductive sec_env : sec_world InMemoryNonceStore -> sec_world InMemoryNonceStore -> Prop :=
| env_request m r w : sec_env w (run_sec clock entropy (Handler m r) w).2
| env_delete i w :
    sec_env w (Build_sec_world (sec_tick w) (run_spawned i (sec_nonces w)) (sec_limiter w))
| env_wait k w :
    sec_env w (Build_sec_world (sec_tick w + k)%nat (sec_nonces w) (sec_limiter w)).

(** The nonce is stored up to [e] and nobody is about to delete it. *)
Definition nonce_kept (nonce : string) (e : Time) (s : InMemoryNonceStore) : Prop :=
  ns_store s !! nonce = Some e /\ nonce ∉ spawned s.

Lemma inmem_Exists_kept now n nonce e s :
  nonce_kept nonce e s -> now <= e -> nonce_kept nonce e (inmem_Exists now n s).2.
Proof.
  intros [He Hs] Hle. unfold inmem_Exists. destruct (ns_store s !! n) as [e'|] eqn:Hn; [|done].
  destruct (After now e') eqn:Ha; [|done]. split; [done|]. cbn.
  rewrite elem_of_app, list_elem_of_singleton. intros [?| ->]; [done|].
  unfold After in Ha. apply Z.ltb_lt in Ha. simplify_eq. lia.
Qed.

Lemma inmem_Store_kept now n ttl nonce e s :
  nonce_kept nonce e s -> nonce_kept nonce e (inmem_Store now n ttl s).2.
Proof.
  intros [He Hs]. unfold inmem_Store. destruct (ns_store s !! n) eqn:Hn; [done|].
  split; [|done]. cbn. rewrite lookup_insert_ne; [done|]. congruence.
Qed.

Lemma handle_sec_tick X (op : sec_op X) w :
  (sec_tick w <= sec_tick (handle_sec clock entropy X op w).2)%nat.
Proof.
  destruct op as [| |X []|]; cbn; try lia; repeat case_match; cbn; lia.
Qed.

(** The property [run_preserves] carries: kept, for as long as the clock of the
    first [n] readings has not passed [e]. *)
Definition kept_until (n : nat) (nonce : string) (e : Time) w : Prop :=
  (sec_tick w <= n)%nat -> nonce_kept nonce e (sec_nonces w).

Lemma handle_sec_kept n nonce e X (op : sec_op X) w :
  (forall k, (k <= n)%nat -> clock k <= e) ->
  kept_until n nonce e w -> kept_until n nonce e (handle_sec clock entropy X op w).2.
Proof.
  intros Hclock Hk Htick. pose proof (handle_sec_tick X op w) as Hle.
  specialize (Hk ltac:(lia)). assert (clock (sec_tick w) <= e) as Hnow by (apply Hclock; lia).
  destruct op as [| |X []|key]; cbn; try done.
  - pose proof (inmem_Exists_kept _ nonce0 _ _ _ Hk Hnow) as Hr.
    by destruct (inmem_Exists _ nonce0 _).
  - pose proof (inmem_Store_kept (clock (sec_tick w)) nonce0 ttl _ _ _ Hk) as Hr.
    by destruct (inmem_Store _ nonce0 _ _).
  - by destruct (limiter_Allow _ _ _ _).
Qed.

Lemma sec_env_kept n nonce e w w' :
  (forall k, (k <= n)%nat -> clock k <= e) ->
  sec_env w w' -> kept_until n nonce e w -> kept_until n nonce e w'.
Proof.
  intros Hclock Hstep Hk. destruct Hstep as [m r w|i w|k w].
  - apply (run_preserves (handle_sec clock entropy) (kept_until n nonce e)); [|done].
    intros X op w1. by apply handle_sec_kept.
  - intros Htick. destruct (Hk Htick) as [He Hs]. unfold run_spawned; cbn.
    destruct (spawned (sec_nonces w) !! i) as [x|] eqn:Hi; [|done].
    assert (x <> nonce) by (intros ->; apply Hs; by eapply list_elem_of_lookup_2).
    split; cbn; [by rewrite lookup_delete_ne|].
    intros Hin. apply Hs. by eapply sublist_subseteq; [apply sublist_delete|].
  - intros Htick. apply Hk. cbn in *. lia.
Qed.

Lemma sec_envs_kept n nonce e w w' :
  (forall k, (k <= n)%nat -> clock k <= e) ->
  rtc sec_env w w' -> kept_until n nonce e w -> kept_until n nonce e w'.
Proof. intros Hclock. induction 1; [done|]. eauto using sec_env_kept. Qed.

(** Two signature checks of one timestamp are at most [2 * maxSkew] seconds apart. *)
Lemma signature_times rv t t' ts n1 n2 h1 h2 b1 b2 l1 l2 :
  (forall z, ParseInt64 ts = (z, None) -> 0 <= z) ->
  0 <= Unix t <= max_i64 -> 0 <= Unix t' <= max_i64 ->
  signature_ok rv t ts n1 h1 b1 l1 -> signature_ok rv t' ts n2 h2 b2 l2 ->
  t' < t + (2 * maxSkew (rv_hmac rv) + 1) * Second.
Proof.
  assert (forall t n h b l, 0 <= Unix t <= max_i64 -> signature_ok rv t ts n h b l ->
            exists z, ParseInt64 ts = (z, None) /\ skew (Unix t) z <= maxSkew (rv_hmac rv)) as Hsig.
  { intros u n h b l Hu Hok. unfold signature_ok in Hok.
    destruct l; [apply ValidateRawBodyHMAC_ok in Hok|apply ValidateHMAC_ok in Hok];
      by destruct Hok as [(_ & _ & _ & z & Hz & Hskew) _]; exists z. }
  intros Hz Ht Ht' (z & Hp & Hs)%Hsig (z' & Hp' & Hs')%Hsig; try done.
  rewrite Hp in Hp'. injection Hp' as <-. specialize (Hz _ Hp).
  pose proof (ParseInt64_range _ _ Hp) as Hr.
  rewrite skew_abs in Hs, Hs' by (unfold min_i64, max_i64 in *; lia).
  unfold Unix, Second in *.
  pose proof (Z.div_mod t (10 ^ 9) ltac:(lia)). pose proof (Z.mod_pos_bound t (10 ^ 9) ltac:(lia)).
  pose proof (Z.div_mod t' (10 ^ 9) ltac:(lia)). pose proof (Z.mod_pos_bound t' (10 ^ 9) ltac:(lia)).
  lia.
Qed.
Lemma sec_envs_tick w w' : rtc (sec_env) w w' -> (sec_tick w <= sec_tick w')%nat.
Proof.
  induction 1 as [|w1 w w2 Hs _ IH]; [lia|]. etrans; [|exact IH].
  destruct Hs as [m r w1|i w1|k w1]; cbn; [|lia|lia].
  apply (run_preserves (handle_sec clock entropy) (fun w => sec_tick w1 <= sec_tick w)%nat); [|lia].
  intros X e w' Hw. pose proof (handle_sec_tick X e w'). lia.
Qed.

(** An accepted request had its signature checked and has left its nonce behind. *)
Lemma accepted_kept m r w w1 r1 c1 :
  opt_RequireHMAC (m_options m) = true -> opt_RequireNonce (m_options m) = true ->
  run_sec clock entropy (Handler m r) w = (Next r1 (Some c1), w1) ->
  let nonce := (credentials r).1.1.2 in
  exists a body hdr legacy, (sec_tick w <= a)%nat /\
    signature_ok (m_validator m) (clock a) (credentials r).1.1.1 nonce hdr body legacy /\
    (inmem_Exists (clock (a + 1)%nat) nonce (sec_nonces w)).1 = Ok false /\
    (nonce ∉ spawned (sec_nonces w) ->
      nonce_kept nonce (clock (a + 2)%nat + rv_nonceTTL (m_validator m)) (sec_nonces w1)).
Proof.
  intros Hh Hn (_ & Hval & Hv & Hnonce & _)%Handler_next.
  apply ValidateRequest_ok in Hval
    as (body & ts & nonce & hdr & legacy & _ & _ & Hcred & Hnc & _ & a & Ha & Hsig & Hok).
  specialize (Hnonce Hn). rewrite Hnc in Hnonce. rewrite (Hv Hh) in Hok.
  destruct (Hok Hnonce) as (s1 & Hex & Hst). rewrite Hcred. cbn.
  exists a, body, hdr, legacy. split; [done|]. split; [by apply Hsig, Hv|].
  rewrite <- Nat.add_assoc in Hst.
  cbn in Hex, Hst. unfold inmem_Store in Hst. destruct (ns_store s1 !! nonce) eqn:Hs1; [done|].
  injection Hst as <-. rewrite Hex. split; [done|]. intros Hsp.
  split; cbn; [by rewrite lookup_insert_eq|].
  unfold inmem_Exists in Hex. destruct (ns_store (sec_nonces w) !! nonce) eqn:Hw;
    [destruct (After _ _)|]; simplify_eq/=; congruence.
Qed.
End Replay.

(** C23: with the in-memory store, a time to live that covers twice the skew
    makes every signed request good for one use: after it was accepted, whatever
    requests follow one after the other, the same request is never handed on again.
    [d] bounds the time between two readings of the clock, which does not run
    backwards; timestamps are not negative, and no deletion of the nonce is pending
    when it is accepted. The default time to live is shorter than that:
    [default_config_replays]. *)
Theorem no_replay `{GoUnicode} clock entropy (m : Middleware) (r r1 r2 : Request) c1 c2
    (w w1 w2 w3 : sec_world InMemoryNonceStore) (d : Duration) :
  opt_RequireHMAC (m_options m) = true -> opt_RequireNonce (m_options m) = true ->
  (forall i j, (i <= j)%nat -> clock i <= clock j) ->
  (forall i, clock (i + 1)%nat <= clock i + d) ->
  (forall i, 0 <= Unix (clock i) <= max_i64) ->
  (forall z, ParseInt64 (credentials r).1.1.1 = (z, None) -> 0 <= z) ->
  (2 * maxSkew (rv_hmac (m_validator m)) + 1) * Second + d <= rv_nonceTTL (m_validator m) ->
  (credentials r).1.1.2 ∉ spawned (sec_nonces w) ->
  run_sec clock entropy (Handler m r) w = (Next r1 (Some c1), w1) ->
  rtc (sec_env clock entropy) w1 w2 ->
  run_sec clock entropy (Handler m r) w2 <> (Next r2 (Some c2), w3).
Proof.
  intros Hh Hn Hmono Hstep Hunix Hts Httl Hsp Hrun1 Henv Hrun2.
  apply accepted_kept in Hrun1 as (a & b1 & h1 & l1 & Ha & Hsig1 & _ & Hkept); try done.
  apply accepted_kept in Hrun2 as (a' & b2 & h2 & l2 & Ha' & Hsig2 & Hex2 & _); try done.
  specialize (Hkept Hsp). set (nonce := (credentials r).1.1.2) in *.
  set (e := clock (a + 2)%nat + rv_nonceTTL (m_validator m)) in *.
  pose proof (signature_times _ _ _ _ _ _ _ _ _ _ _ _ Hts (Hunix a) (Hunix a') Hsig1 Hsig2).
  pose proof (Hmono a (a + 2)%nat ltac:(lia)). pose proof (Hstep a').
  assert (clock (a' + 1)%nat <= e) as Hlast by (unfold e; lia).
  assert (nonce_kept nonce e (sec_nonces w2)) as [He _].
  { apply (sec_envs_kept clock entropy (a' + 1) nonce e w1); [|done|by intros _|lia].
    intros k Hk. etrans; [by apply Hmono|done]. }
  unfold inmem_Exists in Hex2. rewrite He in Hex2.
  destruct (After (clock (a' + 1)%nat) e) eqn:Hafter; [|done].
  unfold After in Hafter. apply Z.ltb_lt in Hafter. lia.
Qed.

(** ** The default configuration, run *)

Definition handed_on (o : http_outcome) : bool :=
  match o with Next _ (Some _) => true | _ => false end.

Definition example_secret : string := "0123456789abcdef0123456789abcdef".

(** Every variable unset but the secret and the nonces' time to live. *)
Definition example_env (ttl : option string) (key : string) : option string :=
  if String.eqb key "HMAC_SECRET" then Some example_secret
  else if String.eqb key "NONCE_TTL_SECONDS" then ttl else None.

Definition no_redis (url : string) : result unit := Err "connection refused".

Definition no_middleware : Middleware := {|
  m_validator := NewRequestValidator "" 0 0 0 "";
  m_options := {| Enabled := true; opt_RequireHMAC := true; opt_RequireNonce := true;
                  opt_RequireAPIKey := false; AllowedMethods := []; ExcludePaths := [] |} |}.

Definition example_middleware (ttl : option string) : Middleware :=
  match @setupSecurity ascii_unicode _ no_redis
          (@LoadSignerConfig ascii_unicode (example_env ttl)) with
  | Ok (m, _, _) => m
  | Err _ => no_middleware
  end.

(** The 14th of November 2023, 22:13:20 UTC. *)
Definition example_start : Time := (62135596800 + 1700000000) * Second.

(** A client whose clock is [ahead] seconds fast signs a transfer. *)
Definition example_request (ahead : Z) : Request :=
  let ts := itoa (1700000000 + ahead) in
  let body := "{}"%string in
  {| rq_Method := "POST"; rq_EscapedPath := "/hd/transfer"; rq_RemoteAddr := "10.0.0.1:5000";
     rq_Header := {["X-Request-Timestamp" := ts; "X-Request-Nonce" := "n-1";
                    "X-Request-Signature" := GenerateHMAC example_secret ts "n-1" body]}%string;
     rq_ContentLength := 2; rq_Body := body; rq_BodyErr := None |}.

Definition example_entropy (n : nat) : option (list Z) := Some (replicate 16 (Z.of_nat n)).

Definition example_world : sec_world InMemoryNonceStore :=
  Build_sec_world 0%nat NewInMemoryNonceStore (NewRateLimiter "token_bucket" 100 Minute).

Definition frozen_clock (n : nat) : Time := example_start.
Definition second_clock (n : nat) : Time := example_start + Z.of_nat n * Second.

Abbreviation example_run ttl clock w :=
  (run_sec clock example_entropy
     (@Handler ascii_unicode (example_middleware ttl) (example_request 250)) w).

(** The default time to live, 300 s, does not cover the default skew, 300 s
    to either side. A request stamped 250 s ahead is accepted, refused while its
    nonce is kept, and accepted again once it is gone. *)
Theorem default_config_replays :
  exists w1 w2 w3,
    (exists o, example_run None second_clock example_world = (o, w1) /\ handed_on o = true) /\
    rtc (@sec_env ascii_unicode second_clock example_entropy) w1 w2 /\
    (exists o, example_run None second_clock w2 = (o, w3) /\ handed_on o = true).
Proof.
  set (w1 := (example_run None second_clock example_world).2).
  set (wait := Build_sec_world (sec_tick w1 + 310)%nat (sec_nonces w1) (sec_limiter w1)).
  set (retry := (example_run None second_clock wait).2).
  set (w2 := Build_sec_world (sec_tick retry) (run_spawned 0 (sec_nonces retry)) (sec_limiter retry)).
  exists w1, w2, (example_run None second_clock w2).2. split; [|split].
  - exists (example_run None second_clock example_world).1. split; [apply surjective_pairing|].
    vm_compute. reflexivity.
  - eapply rtc_l; [apply (env_wait _ _ 310)|]. fold wait.
    eapply rtc_l; [apply (env_request _ _ (example_middleware None) (example_request 250))|]. fold retry.
    eapply rtc_l; [apply (env_delete _ _ 0)|]. fold w2. apply rtc_refl.
  - exists (example_run None second_clock w2).1. split; [apply surjective_pairing|].
    vm_compute. reflexivity.
Qed.

Lemma no_replay_witness :
  handed_on (example_run (Some "602"%string) frozen_clock example_world).1 = true /\
  forall r2 c2 w3,
    example_run (Some "602"%string) frozen_clock
      (example_run (Some "602"%string) frozen_clock example_world).2 <> (Next r2 (Some c2), w3).
Proof.
  split; [vm_compute; reflexivity|]. intros r2 c2 w3.
  destruct (example_run (Some "602"%string) frozen_clock example_world) as [o w1] eqn:Hrun.
  assert (handed_on o = true) as Ho
    by (change o with (o, w1).1; rewrite <- Hrun; vm_compute; reflexivity).
  destruct o as [|r1 [c1|]]; [discriminate Ho| |discriminate Ho].
  refine (@no_replay ascii_unicode frozen_clock example_entropy _ _ r1 r2 c1 c2 example_world w1 w1
            w3 0 _ _ _ _ _ _ _ _ Hrun (rtc_refl _ _)).
  - vm_compute. reflexivity.
  - vm_compute. reflexivity.
  - intros i j _. apply Z.le_refl.
  - intros i. apply Z.le_refl.
  - intros i. split; vm_compute; discriminate.
  - intros z Hz. vm_compute in Hz. injection Hz as <-. discriminate.
  - vm_compute. discriminate.
  - apply not_elem_of_nil.
Defined.

Lemma middleware_sound_witness :
  exists r' ctx w',
    example_run None second_clock example_world = (Next r' (Some ctx), w') /\
    read_limited (rv_maxBodySize (m_validator (example_middleware None))) (example_request 250)
      = Ok (rq_Body r').
Proof.
  destruct (example_run None second_clock example_world) as [o w'] eqn:Hrun.
  assert (handed_on o = true) as Ho
    by (change o with (o, w').1; rewrite <- Hrun; vm_compute; reflexivity).
  destruct o as [|r' [ctx|]]; [discriminate Ho| |discriminate Ho]. exists r', ctx, w'. split; [reflexivity|].
  refine (proj1 (proj2 (@middleware_sound ascii_unicode _ _ second_clock example_entropy _ _ _ _ _ _
                          Hrun))).
Defined.

(** ** A nonce is consumed before anyone is authenticated *)

Lemma run_check_nonce_fresh `{GoUnicode} clock entropy rv nonce (w : sec_world InMemoryNonceStore) :
  nonce <> ""%string -> ns_store (sec_nonces w) !! nonce = None ->
  exists w', run_sec clock entropy (check_nonce rv nonce) w = (Ok tt, w') /\
    ns_store (sec_nonces w') !! nonce = Some (clock (sec_tick w + 1)%nat + rv_nonceTTL rv) /\
    sec_limiter w' = sec_limiter w.
Proof.
  intros Hn Habs. unfold check_nonce, run_sec, ValidateNonce.
  rewrite (proj2 (String.eqb_neq nonce "") Hn), run_bind, run_translate. cbn.
  unfold inmem_Exists. rewrite Habs. cbn. unfold inmem_Store. rewrite Habs. cbn.
  eexists. split; [done|]. cbn. by rewrite lookup_insert_eq.
Qed.

Lemma ValidateRequest_unsigned `{GoUnicode} clock entropy rv r ts nonce legacy body
    (w : sec_world InMemoryNonceStore) :
  credentials r = (ts, nonce, ""%string, legacy) -> nonce <> ""%string ->
  rq_ContentLength r <= rv_maxBodySize rv -> read_limited (rv_maxBodySize rv) r = Ok body ->
  ns_store (sec_nonces w) !! nonce = None ->
  exists res w' t, run_sec clock entropy (ValidateRequest rv r) w = (res, w') /\
    (forall ctx r', res = Ok (ctx, r') -> Validated ctx = false) /\
    ns_store (sec_nonces w') !! nonce = Some (clock t + rv_nonceTTL rv).
Proof.
  intros Hcred Hn Hlen Hbody Habs. unfold ValidateRequest. rewrite sec_bind.
  destruct (run_sec clock entropy generateRequestID w) as [id w1] eqn:Hid.
  apply generateRequestID_quiet in Hid as (_ & Hn1 & _). rewrite <- Hn1 in Habs.
  rewrite sec_bind. cbn [run_sec run perform handle_sec]. set (w2 := Build_sec_world _ _ _).
  rewrite (proj2 (Z.ltb_ge _ _) Hlen), andb_false_r, Hbody, Hcred.
  unfold check_signature. cbn [String.eqb]. unfold run_sec. rewrite run_try. cbn [run].
  destruct (run_check_nonce_fresh clock entropy rv nonce w2 Hn) as (w3 & Hck & Hst & _); [done|].
  unfold run_sec in Hck. rewrite run_try, Hck, run_bind. cbn [run perform handle_sec].
  destruct (limiter_Allow _ _ _ (sec_limiter w3)) as [[] l]; cbn.
  - eexists _, _, _. split; [done|]. split; [by intros ? ? [= <- <-]|]. exact Hst.
  - eexists _, _, _. split; [done|]. split; [done|]. exact Hst.
Qed.

(** The nonce is stored before the middleware looks for a signature. A
    request without one is refused with 401, yet whoever sends it has used up
    the nonce: until its time to live has passed the store reports it as taken,
    to the client it belongs to as well. *)
Theorem unsigned_request_burns_nonce `{GoUnicode} clock entropy (m : Middleware) (r : Request)
    ts nonce legacy body (w : sec_world InMemoryNonceStore) :
  isExcluded m (rq_Path r) = false -> isMethodAllowed m (rq_Method r) = true ->
  Enabled (m_options m) = true -> opt_RequireHMAC (m_options m) = true ->
  credentials r = (ts, nonce, ""%string, legacy) -> nonce <> ""%string ->
  rq_ContentLength r <= rv_maxBodySize (m_validator m) ->
  read_limited (rv_maxBodySize (m_validator m)) r = Ok body ->
  ns_store (sec_nonces w) !! nonce = None ->
  exists e t w', run_sec clock entropy (Handler m r) w = (Respond 401 e, w') /\
    forall now, now <= clock t + rv_nonceTTL (m_validator m) ->
      (ns_Exists now nonce (sec_nonces w')).1 = Ok true.
Proof.
  intros Hx Hm Hen Hh Hcred Hn Hlen Hbody Habs. unfold Handler. rewrite Hx, Hm, Hen. cbn [negb].
  rewrite sec_bind.
  destruct (ValidateRequest_unsigned clock entropy _ r ts nonce legacy body w Hcred Hn Hlen Hbody
              Habs) as (res & w' & t & -> & Hval & Hst).
  assert (exists e, run_sec clock entropy
            match res with
            | Ok (ctx, r') =>
                if opt_RequireHMAC (m_options m) && negb (Validated ctx)
                then Ret (Respond 401 "HMAC signature required")
                else if opt_RequireNonce (m_options m) && String.eqb (Nonce ctx) ""
                then Ret (Respond 401 "nonce required")
                else if opt_RequireAPIKey (m_options m) && String.eqb (APIKey ctx) ""
                then Ret (Respond 401 "API key required")
                else Ret (Next r' (Some ctx))
            | Err e => Ret (Respond 401 e)
            end w' = (Respond 401 e, w')) as [e ->].
  { destruct res as [[ctx r']|e]; [|by exists e]. rewrite Hh, (Hval ctx r' eq_refl). by eexists. }
  exists e, t, w'. split; [done|]. intros now Hnow. cbn. unfold inmem_Exists. rewrite Hst.
  unfold After. by rewrite (proj2 (Z.ltb_ge _ _) Hnow).
Qed.

Definition unsigned_request : Request := {|
  rq_Method := "POST"; rq_EscapedPath := "/hd/transfer"; rq_RemoteAddr := "10.6.6.6:5000";
  rq_Header := {["X-Request-Nonce"%string := "n-1"%string]};
  rq_ContentLength := 2; rq_Body := "{}"; rq_BodyErr := None |}.

Lemma unsigned_request_burns_nonce_witness :
  exists e t w',
    run_sec second_clock example_entropy
      (@Handler ascii_unicode (example_middleware None) unsigned_request) example_world
      = (Respond 401 e, w') /\
    forall now, now <= second_clock t + rv_nonceTTL (m_validator (example_middleware None)) ->
      (ns_Exists now "n-1" (sec_nonces w')).1 = Ok true.
Proof.
  refine (@unsigned_request_burns_nonce ascii_unicode second_clock example_entropy
            (example_middleware None) unsigned_request "" "n-1" false "{}" example_world
            _ _ _ _ _ _ _ _ _); vm_compute; first [reflexivity|discriminate].
Defined.
