(* ===== verification/Service.v ===== *)
(** * The operations of the running service, and the world they act on.

    A goroutine of the service is a [prog eff]. Each operation is atomic: a
    method under a mutex, an atomic flag, one remote call, one reading of the
    clock. Everything outside the process is an argument: [clock] gives the time
    of the n-th operation, [net] its answer if it is a remote call. *)
From S2P Require Export Store Fleet.

(** ** Outcomes: a value, an error, or a run-time panic *)

Inductive outcome (A : Type) :=
| Return (a : A)
| Fail (e : string)
| Panic.
Arguments Return {A} a.
Arguments Fail {A} e.
Arguments Panic {A}.

Definition of_result {A} (r : result A) : outcome A :=
  match r with Ok a => Return a | Err e => Fail e end.

(** ** Remote calls *)

(** A transaction of a block, as the guard reads it; [Authority()] recovers a
    signer, which is the library's. *)
Record Authorization := { au_address : Address; au_authority : option Address }.
Record CustodyTx := {
  ct_type : Z; ct_hash : Hash; ct_data : bytes; ct_auths : list Authorization }.

Inductive net_eff : Type -> Type :=
| NDial (url : string) : net_eff (result unit)
| NChainID (url : string) : net_eff (result Z)
| NPendingNonceAt (url : string) (account : Address) : net_eff (result Z)
| NSuggestGasPrice (url : string) : net_eff (result Z)
| NEstimateGas (url : string) (from to : Address) (value : Z) (data : bytes) : net_eff (result Z)
| NSendTransaction (url : string) (tx : SignedTransaction) : net_eff (result unit)
| NTransactionReceipt (url : string) (hash : Hash) : net_eff (result (option Z))
| NCodeAt (url : string) (account : Address) : net_eff (result bytes)
| NGetBlock (url tag : string) : net_eff (result (list (option CustodyTx))).

Inductive eff : Type -> Type :=
| ENow : eff Time
| EStore {X} (e : store_eff X) : eff X
| ENet {X} (e : net_eff X) : eff X
| EFleetSend (limit : Z) : eff (option (list rpcHandle))
| EFleetSuccess (id : Z) (latency : Duration) : eff unit
| EFleetFailure (id : Z) (kind : rpcFailureKind) : eff unit
| EGetLocked : eff bool
| ESetLocked (b : bool) : eff unit
| EGetReason : eff string
| ESetReason (r : string) : eff unit
(** The guard's map of trusted delegates: the keys in the order a [range]
    meets them, a lookup, an assignment. *)
| ETrustedKeys : eff (list Address)
| EGetTrusted (a : Address) : eff (option Hash)
| ESetTrusted (a : Address) (h : Hash) : eff unit.

Definition store_call {X} (e : store_eff X) : prog eff X := perform (EStore e).
Definition net_call {X} (e : net_eff X) : prog eff X := perform (ENet e).

(** [_ = store.Op(..)] *)
Definition ignore {X} (p : prog eff X) : prog eff unit := _ ← p; Ret tt.

(** [if err != nil { return .., fmt.Errorf("..: %w", err) }] *)
Definition or_fail {A B} (wrap : string -> string) (r : result A)
    (k : A -> prog eff (outcome B)) : prog eff (outcome B) :=
  match r with Ok a => k a | Err e => Ret (Fail (wrap e)) end.

Definition wrapped (prefix e : string) : string := prefix +:+ (": " +:+ e).

Definition if_returns {A B} (p : prog eff (outcome A)) (k : A -> prog eff (outcome B)) :
    prog eff (outcome B) :=
  r ← p;
  match r with Return a => k a | Fail e => Ret (Fail e) | Panic => Ret Panic end.

(** ** The world *)

Record world (S : Type) := {
  w_tick : nat;
  w_store : S;
  w_fleet : rpcFleet;
  w_locked : bool;
  w_reason : string;
  w_trusted : list (Address * Hash);
  (** What was handed to [SendTransaction], and whether it reported success. *)
  w_sent : list (SignedTransaction * bool);
}.
Arguments w_tick {S} _.
Arguments w_store {S} _.
Arguments w_fleet {S} _.
Arguments w_locked {S} _.
Arguments w_reason {S} _.
Arguments w_trusted {S} _.
Arguments w_sent {S} _.
Arguments Build_world {S} _ _ _ _ _ _ _.

(** The first entry of an address, and its assignment. *)
Fixpoint assoc_get (a : Address) (l : list (Address * Hash)) : option Hash :=
  match l with
  | [] => None
  | (b, h) :: l' => if bool_decide (a = b) then Some h else assoc_get a l'
  end.
Fixpoint assoc_set (a : Address) (h : Hash) (l : list (Address * Hash)) : list (Address * Hash) :=
  match l with
  | [] => [(a, h)]
  | (b, h') :: l' => if bool_decide (a = b) then (a, h) :: l' else (b, h') :: assoc_set a h l'
  end.

(** What the process does not control. *)
Record environment := {
  clock : nat -> Time;
  net : nat -> forall X, net_eff X -> X;
  map_order : GoMapOrder;
}.

Section Handle.
Context {S : Type} `{SignerStore S}.
Variable env : environment.
Implicit Types w : world S.

Definition tick w : world S :=
  Build_world (w_tick w + 1)%nat (w_store w) (w_fleet w) (w_locked w) (w_reason w) (w_trusted w)
    (w_sent w).
Definition set_store (s : S) w : world S :=
  Build_world (w_tick w) s (w_fleet w) (w_locked w) (w_reason w) (w_trusted w) (w_sent w).
Definition set_fleet (f : rpcFleet) w : world S :=
  Build_world (w_tick w) (w_store w) f (w_locked w) (w_reason w) (w_trusted w) (w_sent w).
Definition set_locked (b : bool) w : world S :=
  Build_world (w_tick w) (w_store w) (w_fleet w) b (w_reason w) (w_trusted w) (w_sent w).
Definition set_reason (r : string) w : world S :=
  Build_world (w_tick w) (w_store w) (w_fleet w) (w_locked w) r (w_trusted w) (w_sent w).
Definition set_trusted (t : list (Address * Hash)) w : world S :=
  Build_world (w_tick w) (w_store w) (w_fleet w) (w_locked w) (w_reason w) t (w_sent w).
Definition add_sent (tx : SignedTransaction) (ok : bool) w : world S :=
  Build_world (w_tick w) (w_store w) (w_fleet w) (w_locked w) (w_reason w) (w_trusted w)
    (w_sent w ++ [(tx, ok)])%list.

Definition now w : Time := clock env (w_tick w).
Definition the_call w : call := {| c_now := now w; c_seed := w_tick w |}.

(** A remote call leaves a trace only if it hands over a transaction. *)
Definition record_net {X} (e : net_eff X) (x : X) w : world S :=
  match e in net_eff X return X -> world S with
  | NSendTransaction _ tx => fun r => add_sent tx (is_ok r) w
  | _ => fun _ => w
  end x.

Definition handle (X : Type) (e : eff X) (w : world S) : X * world S :=
  match e in eff X return X * world S with
  | ENow => (now w, tick w)
  | EStore e =>
      let (x, s) := handle_store (the_call w) _ e (w_store w) in (x, tick (set_store s w))
  | ENet e => let x := net env (w_tick w) _ e in (x, tick (record_net e x w))
  | EFleetSend limit =>
      match sendCandidates (now w) limit (w_fleet w) with
      | None => (None, tick w)
      | Some (hs, f) => (Some hs, tick (set_fleet f w))
      end
  | EFleetSuccess id latency =>
      (tt, tick (set_fleet (recordSuccess (now w) id latency (w_fleet w)) w))
  | EFleetFailure id kind =>
      (tt, tick (set_fleet (recordFailure (now w) id kind (w_fleet w)) w))
  | EGetLocked => (w_locked w, tick w)
  | ESetLocked b => (tt, tick (set_locked b w))
  | EGetReason => (w_reason w, tick w)
  | ESetReason r => (tt, tick (set_reason r w))
  | ETrustedKeys =>
      (@map_range (map_order env) _ (w_tick w) (w_trusted w).*1, tick w)
  | EGetTrusted a => (assoc_get a (w_trusted w), tick w)
  | ESetTrusted a h => (tt, tick (set_trusted (assoc_set a h (w_trusted w)) w))
  end.

Definition execute {A} (p : prog eff A) (w : world S) : A * world S := run handle p w.

Lemma execute_bind {A B} (p : prog eff A) (k : A -> prog eff B) w :
  execute (p ≫= k) w = let (a, w') := execute p w in execute (k a) w'.
Proof. apply run_bind. Qed.

Lemma execute_perform {X} (e : eff X) w : execute (perform e) w = handle X e w.
Proof. apply run_perform. Qed.

(** One operation. *)
Lemma execute_op {X A} (e : eff X) (k : X -> prog eff A) w :
  execute (perform e ≫= k) w = execute (k (handle X e w).1) (handle X e w).2.
Proof. unfold execute. cbn. by destruct (handle X e w). Qed.

Lemma execute_try {A B} (p : prog eff (result A)) (k : A -> prog eff (result B)) w :
  execute (try p k) w =
    let (r, w') := execute p w in
    match r with Ok a => execute (k a) w' | Err e => (Err e, w') end.
Proof. apply run_try. Qed.
End Handle.

(** ** Environments for closed examples *)

(** A network that answers every call: [block] for blocks, [code] for bytecode,
    [send] for the n-th operation if it hands over a transaction. *)
Definition answering_net (block : list (option CustodyTx)) (code : result bytes)
    (send : nat -> result unit) (n : nat) (X : Type) (e : net_eff X) : X :=
  match e in net_eff X return X with
  | NDial _ => Ok tt
  | NChainID _ => Ok 56
  | NPendingNonceAt _ _ => Ok 7
  | NSuggestGasPrice _ => Ok (5 * 10 ^ 9)
  | NEstimateGas _ _ _ _ _ => Ok 60000
  | NSendTransaction _ _ => send n
  | NTransactionReceipt _ _ => Ok (Some 1)
  | NCodeAt _ _ => code
  | NGetBlock _ _ => Ok block
  end.

Definition boot_time : Time := (62135596800 + 1700000000) * Second.

Definition example_environment (block : list (option CustodyTx)) (code : result bytes)
    (send : nat -> result unit) : environment := {|
  clock n := boot_time + Z.of_nat n * Millisecond;
  net := answering_net block code send;
  map_order := list_map_order |}.

Definition all_sent (n : nat) : result unit := Ok tt.

Definition start_world {S} (s : S) (fleet : rpcFleet) : world S :=
  Build_world 0%nat s fleet false "" [] [].
