(* ===== verification/Custody.v ===== *)
(** * The custody guard: [custody_guard.go].

    The guard's flag, reason and trusted hashes are in the [world]; its
    configuration is a [CustodyGuard]. A nil guard is [None]. *)
From S2P Require Export Service MemStore.

Definition eip7702DelegationPrefix : string := "0xef0100".
(** [types.SetCodeTxType] *)
Definition SetCodeTxType : Z := 4.

Record CustodyGuard := {
  g_cfg : SignerConfig;
  protected : list Address;
  allowedSelector : list bytes;
}.

Section Custody.
Context `{GoUnicode, Geth}.

(** ** Parsing *)

Definition insert_once {A} `{EqDecision A} (x : A) (l : list A) : list A :=
  if bool_decide (x ∈ l) then l else (l ++ [x])%list.

Definition parseAddressSet (raw : string) : list Address :=
  foldl (fun out item =>
    let item := TrimSpace item in
    if IsHexAddress item then insert_once (HexToAddress item) out else out) [] (Split "," raw).

(** [copy(selector[:], data)] into a zero [[4]byte]. *)
Definition calldataSelector (data : bytes) : bytes :=
  (take 4 data ++ replicate (4 - length data) 0)%list.

Definition parseSelectorSet (raw : string) : list bytes :=
  foldl (fun out item =>
    let item := TrimPrefix (TrimSpace item) "0x" in
    if negb (len item =? 8) then out else
    match hexutil_Decode ("0x" +:+ item) with
    | None => out
    | Some bytes =>
        if negb (length bytes =? 4)%nat then out else insert_once (calldataSelector bytes) out
    end) [] (Split "," raw).

Definition ExtractEIP7702Delegate (code : bytes) : Address * bool :=
  if (length code <? 23)%nat
     || negb (EqualFold (hexutil_Encode (take 3 code)) eip7702DelegationPrefix)
  then (address_zero, false)
  else (BytesToAddress (take 20 (drop 3 code)), true).

(** [types.SetCodeAuthorization], and the two library calls that make one. *)
Record SetCodeAuthorization := { sa_ChainID : Z; sa_Address : Address; sa_Nonce : Z }.

Section Sign.
Variable uint256_FromBig : Z -> Z * bool.
Variable SignSetCode : PrivateKey -> SetCodeAuthorization -> result SetCodeAuthorization.

(** [None] is a nil [big.Int]. *)
Definition uint256FromBig (value : option Z) : Z :=
  match value with
  | None => 0
  | Some v => let (out, overflow) := uint256_FromBig v in if (overflow : bool) then 0 else out
  end.

Definition SignEIP7702Authorization (privateKey : PrivateKey) (chainID : option Z)
    (delegate : Address) (nonce : Z) : result SetCodeAuthorization :=
  SignSetCode privateKey
    {| sa_ChainID := uint256FromBig chainID; sa_Address := delegate; sa_Nonce := nonce |}.
End Sign.

(** ** Construction *)

(** The guard and the delegates it trusts, their hashes not yet known. *)
Definition NewCustodyGuard (cfg : SignerConfig) :
    result (CustodyGuard * list (Address * Hash)) :=
  protected ←
    (if String.eqb (EVMPrivateKey cfg) "" then Ok (parseAddressSet (CustodyProtectedRaw cfg)) else
     privateKey ← HexToECDSA (TrimPrefix (EVMPrivateKey cfg) "0x");
     Ok (insert_once (PubkeyToAddress privateKey) (parseAddressSet (CustodyProtectedRaw cfg))));
  guard_err (length protected =? 0)%nat "custody guard sem wallet protegida" ≫= λ _,
  Ok ({| g_cfg := cfg; protected := protected;
         allowedSelector := parseSelectorSet (CustodySelectorsRaw cfg) |},
      (fun address => (address, hash_zero)) <$> parseAddressSet (CustodyTrustedRaw cfg)).

Definition Guard_Enabled (g : option CustodyGuard) : bool :=
  match g with None => false | Some g => CustodyGuardEnabled (g_cfg g) end.

Definition Locked (g : option CustodyGuard) : prog eff (bool * string) :=
  match g with
  | None => Ret (false, ""%string)
  | Some _ =>
      reason ← perform EGetReason;
      locked ← perform EGetLocked;
      Ret (locked, reason)
  end.

(** ** Locking *)

Definition recordEvent (g : CustodyGuard) (kind reason txHash wallet : string) : prog eff unit :=
  ignore (store_call (SRecordCustodyEvent {|
    ev_Kind := kind; ev_Reason := reason; ev_Mode := normalizeCustodyMode (CustodyMode (g_cfg g));
    ev_TxHash := txHash; ev_Wallet := wallet; ev_Data := [] |})).

Definition Lock (g : CustodyGuard) (reason : string) : prog eff unit :=
  let mode := normalizeCustodyMode (CustodyMode (g_cfg g)) in
  _ ← recordEvent g "signer_locked" reason "" "";
  if String.eqb mode "shadow" then Ret tt else
  _ ← perform (ESetLocked true);
  _ ← perform (ESetReason reason);
  ignore (store_call (SOpenCustodyIncident reason mode)).

(** The end of [Unlock]: the flag is lowered and the event recorded. *)
Definition lift_lock (g : CustodyGuard) (note : string) : prog eff (result unit) :=
  _ ← perform (ESetLocked false);
  _ ← perform (ESetReason ""%string);
  _ ← recordEvent g "signer_unlocked" note "" "";
  Ret (Ok tt).

Definition Unlock (g : option CustodyGuard) (note : string) : prog eff (result unit) :=
  match g with
  | None => Ret (Ok tt)
  | Some g =>
      try (store_call SActiveCustodyIncident) (fun incident =>
      match incident with
      | None => lift_lock g note
      | Some incident =>
          let cooldown := mul_duration (CustodyUnlockCooldown (g_cfg g)) Second in
          let resolve :=
            try (store_call (SResolveCustodyIncident note)) (fun _ => lift_lock g note) in
          if 0 <? cooldown then
            t ← perform ENow;
            if time_Sub t (inc_CreatedAt incident) <? cooldown
            then Ret (Err "cooldown de custodia ainda ativo")
            else resolve
          else resolve
      end)
  end.

(** ** Bytecode *)

Fixpoint codeAtAnyRPC (urls : list string) (address : Address) : prog eff (result bytes) :=
  match urls with
  | [] => Ret (Err "sem RPC para ler bytecode")
  | url :: urls' =>
      client ← net_call (NDial url);
      match client with
      | Err _ => codeAtAnyRPC urls' address
      | Ok _ =>
          code ← net_call (NCodeAt url address);
          match code with
          | Ok code => Ret (Ok code)
          | Err _ => codeAtAnyRPC urls' address
          end
      end
  end.

Fixpoint verifyDelegateHash (urls : list string) (delegate : Address) (expected : Hash) :
    prog eff (result unit) :=
  match urls with
  | [] => Ret (Err ("sem RPC para verificar delegate " +:+ address_Hex delegate))
  | url :: urls' =>
      client ← net_call (NDial url);
      match client with
      | Err _ => verifyDelegateHash urls' delegate expected
      | Ok _ =>
          code ← net_call (NCodeAt url delegate);
          match code with
          | Err _ => verifyDelegateHash urls' delegate expected
          | Ok code =>
              Ret (guard_err (negb (bool_decide (Keccak256 code = expected)))
                     (address_Hex delegate))
          end
      end
  end.

Fixpoint load_hashes (urls : list string) (delegates : list Address) : prog eff (result unit) :=
  match delegates with
  | [] => Ret (Ok tt)
  | delegate :: delegates' =>
      try (codeAtAnyRPC urls delegate) (fun code =>
      if (length code =? 0)%nat
      then Ret (Err ("trusted delegate sem bytecode: " +:+ address_Hex delegate))
      else
        _ ← perform (ESetTrusted delegate (Keccak256 code));
        load_hashes urls delegates')
  end.

Definition loadTrustedDelegateHashes (g : CustodyGuard) : prog eff (result unit) :=
  delegates ← perform ETrustedKeys;
  load_hashes (RPCURLs (g_cfg g)) delegates.

(** ** Scanning *)

(** The loop over the authorizations of one transaction. *)
Fixpoint inspect_auths (g : CustodyGuard) (source : string) (tx : CustodyTx)
    (auths : list Authorization) : prog eff unit :=
  let txHex := hash_Hex (ct_hash tx) in
  match auths with
  | [] => Ret tt
  | auth :: auths' =>
      match au_authority auth with
      | None => inspect_auths g source tx auths'
      | Some authority =>
          if negb (bool_decide (authority ∈ protected g)) then inspect_auths g source tx auths'
          else if (0 <? Z.of_nat (length (allowedSelector g)))
                  && negb (bool_decide (calldataSelector (ct_data tx) ∈ allowedSelector g)) then
            _ ← recordEvent g "unknown_selector" "EIP-7702 selector nao permitido" txHex
                  (address_Hex authority);
            Lock g ("EIP-7702 selector nao permitido source=" +:+ (source +:+ (" tx=" +:+ txHex)))
          else
            expectedHash ← perform (EGetTrusted (au_address auth));
            match expectedHash with
            | None =>
                _ ← recordEvent g "unknown_delegate" "EIP-7702 delegate desconhecido" txHex
                      (address_Hex authority);
                Lock g ("EIP-7702 delegate desconhecido source=" +:+ (source +:+
                        (" wallet=" +:+ (address_Hex authority +:+
                        (" delegate=" +:+ (address_Hex (au_address auth) +:+ (" tx=" +:+ txHex)))))))
            | Some expectedHash =>
                if bool_decide (expectedHash = hash_zero) then inspect_auths g source tx auths'
                else
                  verified ← verifyDelegateHash (RPCURLs (g_cfg g)) (au_address auth) expectedHash;
                  match verified with
                  | Err e => Lock g ("EIP-7702 delegate hash alterado: " +:+ e)
                  | Ok _ => inspect_auths g source tx auths'
                  end
            end
      end
  end.

Definition inspectTransaction (g : CustodyGuard) (source : string) (tx : option CustodyTx) :
    prog eff unit :=
  match tx with
  | None => Ret tt
  | Some tx =>
      if negb (ct_type tx =? SetCodeTxType) then Ret tt
      else inspect_auths g source tx (ct_auths tx)
  end.

Fixpoint inspect_block (g : CustodyGuard) (tag : string) (txs : list (option CustodyTx)) :
    prog eff unit :=
  match txs with
  | [] => Ret tt
  | tx :: txs' =>
      _ ← inspectTransaction g tag tx;
      locked ← perform EGetLocked;
      if (locked : bool) then Ret tt else inspect_block g tag txs'
  end.

Fixpoint scan_urls (g : CustodyGuard) (tag : string) (urls : list string) :
    prog eff (result unit) :=
  match urls with
  | [] => Ret (Err "nenhum RPC respondeu eth_getBlockByNumber")
  | url :: urls' =>
      client ← net_call (NDial url);
      match client with
      | Err _ => scan_urls g tag urls'
      | Ok _ =>
          block ← net_call (NGetBlock url tag);
          match block with
          | Err _ => scan_urls g tag urls'
          | Ok txs => _ ← inspect_block g tag txs; Ret (Ok tt)
          end
      end
  end.

Definition scanBlockTag (g : CustodyGuard) (tag : string) : prog eff (result unit) :=
  scan_urls g tag (RPCURLs (g_cfg g)).

Fixpoint scan_tags (g : CustodyGuard) (tags : list string) : prog eff unit :=
  match tags with
  | [] => Ret tt
  | tag :: tags' =>
      _ ← scanBlockTag g tag;
      locked ← perform EGetLocked;
      if (locked : bool) then Ret tt else scan_tags g tags'
  end.

Definition scanOnce (g : CustodyGuard) : prog eff unit :=
  locked ← perform EGetLocked;
  if (locked : bool) then Ret tt else scan_tags g ["pending"; "latest"]%string.

(** [ticks] events of the ticker before the context ends. *)
Fixpoint monitor (g : CustodyGuard) (ticks : nat) : prog eff unit :=
  match ticks with
  | O => Ret tt
  | Datatypes.S ticks' => _ ← scanOnce g; monitor g ticks'
  end.

Definition restore_incident : prog eff unit :=
  incident ← store_call SActiveCustodyIncident;
  match incident with
  | Ok (Some incident) =>
      _ ← perform (ESetLocked true);
      perform (ESetReason ("incidente persistente: " +:+ inc_Reason incident))
  | _ => Ret tt
  end.

Definition poll_interval (g : CustodyGuard) : Duration :=
  let poll := mul_duration (CustodyGuardPollMs (g_cfg g)) Millisecond in
  if poll <? 500 * Millisecond then 500 * Millisecond else poll.

Definition Start (g : option CustodyGuard) (ticks : nat) : prog eff unit :=
  match g with
  | None => Ret tt
  | Some g =>
      if negb (CustodyGuardEnabled (g_cfg g)) then Ret tt else
      _ ← restore_incident;
      loaded ← loadTrustedDelegateHashes g;
      match loaded with
      | Err e => Lock g ("falha ao carregar hashes dos delegates confiaveis: " +:+ e)
      | Ok _ => monitor g ticks
      end
  end.
End Custody.

(** ** Which operations the guard performs *)

(** Inspecting never lifts a lock and never changes a trusted hash. *)
Definition no_unlock (X : Type) (e : eff X) : Prop :=
  match e with ESetLocked false => False | _ => True end.
Definition no_lock (X : Type) (e : eff X) : Prop :=
  match e with ESetLocked true => False | _ => True end.
Definition no_trust (X : Type) (e : eff X) : Prop :=
  match e with ESetTrusted _ _ => False | _ => True end.

Definition is_send {X} (e : net_eff X) : bool :=
  match e with NSendTransaction _ _ => true | _ => false end.

(** A set of operations that holds every one the inspection uses; [locking] is
    what it says of [ESetLocked true]. *)
Record inspecting (P : forall X, eff X -> Prop) (locking : Prop) : Prop := {
  in_store X (e : store_eff X) : key_call e = false -> P _ (EStore e);
  in_net X (e : net_eff X) : is_send e = false -> P _ (ENet e);
  in_get : P _ EGetLocked;
  in_reason r : P _ (ESetReason r);
  in_trusted a : P _ (EGetTrusted a);
  in_lock : locking -> P _ (ESetLocked true);
}.

Section GuardOps.
Context `{GoUnicode, Geth}.
Variable P : forall X, eff X -> Prop.
Variable g : CustodyGuard.
Hypothesis ops : inspecting P (normalizeCustodyMode (CustodyMode (g_cfg g)) <> "shadow"%string).

Lemma only_ignore {X} (p : prog eff X) : only P p -> only P (ignore p).
Proof. intros Hp. apply only_bind; [done|constructor]. Qed.

Lemma only_store {X} (e : store_eff X) : key_call e = false -> only P (store_call e).
Proof. intros He. by apply only_perform, ops. Qed.
Lemma only_net {X} (e : net_eff X) : is_send e = false -> only P (net_call e).
Proof. intros He. by apply only_perform, ops. Qed.
#[local] Hint Resolve only_ignore only_store only_net : prog.
#[local] Hint Extern 1 (key_call _ = false) => reflexivity : prog.
#[local] Hint Extern 1 (is_send _ = false) => reflexivity : prog.

Lemma only_recordEvent kind reason txHash wallet : only P (recordEvent g kind reason txHash wallet).
Proof. unfold recordEvent. auto with prog. Qed.

Lemma only_Lock reason : only P (Lock g reason).
Proof.
  apply only_bind; [apply only_recordEvent|]. intros _.
  destruct (String.eqb_spec (normalizeCustodyMode (CustodyMode (g_cfg g))) "shadow");
    [constructor|].
  apply only_bind; [apply only_perform; by eapply in_lock|]. intros _.
  apply only_bind; [apply only_perform; by eapply in_reason|]. intros _. auto with prog.
Qed.
#[local] Hint Resolve only_recordEvent only_Lock : prog.

Lemma only_verify urls a h : only P (verifyDelegateHash urls a h).
Proof.
  induction urls as [|url urls IH]; cbn [verifyDelegateHash]; [constructor|].
  apply only_bind; [auto with prog|]. intros [[]|]; [|done].
  apply only_bind; [auto with prog|]. intros []; [constructor|done].
Qed.

Lemma only_inspect_auths source tx auths : only P (inspect_auths g source tx auths).
Proof.
  induction auths as [|auth auths IH]; cbn [inspect_auths]; [constructor|].
  destruct (au_authority auth) as [authority|]; [|done].
  destruct (negb _); [done|]. destruct (_ && _).
  - apply only_bind; auto with prog.
  - apply only_bind; [apply only_perform; by eapply in_trusted|]. intros [h|].
    + case_bool_decide; [done|]. apply only_bind; [apply only_verify|].
      intros []; [done|auto with prog].
    + apply only_bind; auto with prog.
Qed.

Lemma only_inspectTransaction source tx : only P (inspectTransaction g source tx).
Proof.
  unfold inspectTransaction. destruct tx as [tx|]; [|constructor].
  case_match; [constructor|apply only_inspect_auths].
Qed.

Lemma only_get_locked {A} (k : bool -> prog eff A) :
  (forall b, only P (k b)) -> only P (b ← perform EGetLocked; k b).
Proof. intros Hk. apply only_bind; [apply only_perform; by eapply in_get|done]. Qed.

Lemma only_inspect_block tag txs : only P (inspect_block g tag txs).
Proof.
  induction txs as [|tx txs IH]; cbn [inspect_block]; [constructor|].
  apply only_bind; [apply only_inspectTransaction|]. intros _.
  apply only_get_locked. intros []; [constructor|done].
Qed.

Lemma only_scan_urls tag urls : only P (scan_urls g tag urls).
Proof.
  induction urls as [|url urls IH]; cbn [scan_urls]; [constructor|].
  apply only_bind; [auto with prog|]. intros [[]|]; [|done].
  apply only_bind; [auto with prog|]. intros [txs|]; [|done].
  apply only_bind; [apply only_inspect_block|constructor].
Qed.

Lemma only_scanOnce : only P (scanOnce g).
Proof.
  apply only_get_locked. intros []; [constructor|].
  induction ["pending"; "latest"]%string as [|tag tags IH]; cbn [scan_tags]; [constructor|].
  apply only_bind; [apply only_scan_urls|]. intros _.
  apply only_get_locked. intros []; [constructor|done].
Qed.

Lemma only_monitor n : only P (monitor g n).
Proof.
  induction n as [|n IH]; cbn [monitor]; [constructor|].
  apply only_bind; [apply only_scanOnce|done].
Qed.

Lemma only_codeAtAnyRPC urls a : only P (codeAtAnyRPC urls a).
Proof.
  induction urls as [|url urls IH]; cbn [codeAtAnyRPC]; [constructor|].
  apply only_bind; [auto with prog|]. intros [[]|]; [|done].
  apply only_bind; [auto with prog|]. intros []; [constructor|done].
Qed.

(** What [Start] does once it has looked for an incident. *)
Definition after_restore n : prog eff unit :=
  loaded ← loadTrustedDelegateHashes g;
  match loaded with
  | Err e => Lock g ("falha ao carregar hashes dos delegates confiaveis: " +:+ e)
  | Ok _ => monitor g n
  end.

Lemma only_after_restore n :
  P _ ETrustedKeys -> (forall a h, P _ (ESetTrusted a h)) -> only P (after_restore n).
Proof.
  intros Hkeys Hset. apply only_bind.
  - apply only_bind; [by apply only_perform|]. intros delegates.
    induction delegates as [|d ds IH]; cbn [load_hashes]; [constructor|].
    apply only_try; [apply only_codeAtAnyRPC|].
    intros code. case_match; [constructor|]. by apply only_bind; [apply only_perform|].
  - intros []; [apply only_monitor|apply only_Lock].
Qed.

Lemma only_lift_lock note : P _ (ESetLocked false) -> only P (lift_lock g note).
Proof.
  intros Hset. apply only_bind; [by apply only_perform|]. intros _.
  apply only_bind; [by apply only_perform; eapply in_reason|]. intros _.
  apply only_bind; [apply only_recordEvent|constructor].
Qed.

Lemma only_Unlock note : P _ ENow -> P _ (ESetLocked false) -> only P (Unlock (Some g) note).
Proof.
  intros Hnow Hset. cbn [Unlock]. apply only_try; [auto with prog|].
  intros [i|]; [|by apply only_lift_lock].
  assert (only P (try (store_call (SResolveCustodyIncident note)) (fun _ => lift_lock g note)))
    as Hres by (apply only_try; [auto with prog|]; intros _; by apply only_lift_lock).
  destruct (0 <? _); [|done]. apply only_bind; [by apply only_perform|]. intros t.
  destruct (_ <? _); [constructor|done].
Qed.
Lemma only_Start n :
  P _ (ESetLocked true) -> P _ ETrustedKeys -> (forall a h, P _ (ESetTrusted a h)) ->
  only P (Start (Some g) n).
Proof.
  intros Hset Hkeys Htrust. cbn [Start]. destruct (negb _); [constructor|]. apply only_bind.
  - apply only_bind; [auto with prog|]. intros [[i|]|e]; try constructor; [done|].
    intros _. apply only_perform. by eapply in_reason.
  - intros _. by apply only_after_restore.
Qed.
End GuardOps.

(** ** Invariants of the world under restricted operations *)

Section GuardWorld.
Context {S : Type} `{SignerStore S}.
Variable env : environment.
Implicit Types w : world S.

Lemma handle_locked X (e : eff X) w :
  w_locked (handle env X e w).2 = match e with ESetLocked b => b | _ => w_locked w end.
Proof.
  destruct e as [|X e|X e| | | | | | | | | |]; cbn; try done.
  - by destruct (handle_store _ _ e _).
  - by destruct e.
  - by destruct (sendCandidates _ _ _) as [[??]|].
Qed.

Lemma handle_trusted X (e : eff X) w :
  w_trusted (handle env X e w).2 =
    match e with ESetTrusted a h => assoc_set a h (w_trusted w) | _ => w_trusted w end.
Proof.
  destruct e as [|X e|X e| | | | | | | | | |]; cbn; try done.
  - by destruct (handle_store _ _ e _).
  - by destruct e.
  - by destruct (sendCandidates _ _ _) as [[??]|].
Qed.

Lemma no_unlock_keeps {A} (p : prog eff A) w :
  only no_unlock p -> w_locked w = true -> w_locked (execute env p w).2 = true.
Proof.
  intros Hp. apply (only_run no_unlock (handle env) (fun w => w_locked w = true)); [|done].
  intros X e w' He Hw. rewrite handle_locked. by destruct e as [| | | | | | |[]| | | | |].
Qed.

Lemma no_lock_keeps {A} (p : prog eff A) w :
  only no_lock p -> w_locked w = false -> w_locked (execute env p w).2 = false.
Proof.
  intros Hp. apply (only_run no_lock (handle env) (fun w => w_locked w = false)); [|done].
  intros X e w' He Hw. rewrite handle_locked. by destruct e as [| | | | | | |[]| | | | |].
Qed.

Lemma no_trust_keeps {A} (p : prog eff A) w t :
  only no_trust p -> w_trusted w = t -> w_trusted (execute env p w).2 = t.
Proof.
  intros Hp. apply (only_run no_trust (handle env) (fun w => w_trusted w = t)); [|done].
  intros X e w' He Hw. rewrite handle_trusted. by destruct e.
Qed.
End GuardWorld.

(** ** What the guard promises *)

Lemma inspecting_no_unlock C : inspecting no_unlock C.
Proof. by constructor. Qed.
Lemma inspecting_no_trust C : inspecting no_trust C.
Proof. by constructor. Qed.

Definition shadow (g : CustodyGuard) `{GoUnicode} : Prop :=
  normalizeCustodyMode (CustodyMode (g_cfg g)) = "shadow"%string.

(** In shadow mode the monitor never stops the signer: whatever the network
    shows it for however long, the flag stays down. *)
Theorem shadow_never_locks {S} `{GoUnicode, Geth, SignerStore S} env g n (w : world S) :
  shadow g -> w_locked w = false -> w_locked (execute env (monitor g n) w).2 = false.
Proof.
  intros Hshadow. apply no_lock_keeps, only_monitor. constructor; try done.
Qed.

(** An authorization of a protected wallet that the guard must not let pass: under
    a selector that is not allowed, for an unknown delegate, or for a known one
    whose code is no longer, at any endpoint, what it was at start-up. *)
Definition bad_delegation `{Geth} (env : environment) (g : CustodyGuard)
    (trusted : list (Address * Hash)) (tx : CustodyTx) (auth : Authorization) : Prop :=
  (exists authority, au_authority auth = Some authority /\ authority ∈ protected g) /\
  ((allowedSelector g <> [] /\ calldataSelector (ct_data tx) ∉ allowedSelector g) \/
   assoc_get (au_address auth) trusted = None \/
   exists h, assoc_get (au_address auth) trusted = Some h /\ h <> hash_zero /\
     forall n url code, url ∈ RPCURLs (g_cfg g) ->
       net env n _ (NCodeAt url (au_address auth)) = Ok code -> Keccak256 code <> h).

Section Catch.
Context {S : Type} `{GoUnicode, Geth, SignerStore S}.
Variable env : environment.
Implicit Types w : world S.

Lemma execute_Lock g reason w :
  ~ shadow g -> w_locked (execute env (Lock g reason) w).2 = true.
Proof.
  intros Hmode. unfold Lock, shadow in *.
  rewrite (proj2 (String.eqb_neq _ "shadow") Hmode).
  rewrite execute_bind. destruct (execute env (recordEvent _ _ _ _ _) w) as [[] w1].
  rewrite !execute_op. cbn. by destruct (OpenCustodyIncident _ _ _ _).
Qed.

(** The bytecode that was hashed is gone: no endpoint vouches for the delegate. *)
Lemma verify_refuses urls a h w :
  (forall n url code, url ∈ urls -> net env n _ (NCodeAt url a) = Ok code -> Keccak256 code <> h) ->
  is_ok (execute env (verifyDelegateHash urls a h) w).1 = false.
Proof.
  revert w. induction urls as [|url urls IH]; intros w Hbad; [done|].
  assert (forall w', is_ok (execute env (verifyDelegateHash urls a h) w').1 = false) as Hrest.
  { intros w'. apply IH. intros n url' code Hin. apply Hbad. by right. }
  cbn [verifyDelegateHash]. unfold net_call. rewrite execute_op.
  destruct (handle env _ (ENet (NDial url)) w) as [[u|e] w1]; cbn [fst snd]; [|apply Hrest].
  rewrite execute_op. cbn [handle fst snd record_net].
  destruct (net env (w_tick w1) _ (NCodeAt url a)) as [code|e] eqn:Hcode; [|apply Hrest].
  cbn. case_bool_decide as Hsame; [|done]. exfalso. by eapply Hbad; [left|exact Hcode|].
Qed.

Lemma inspect_auths_catches g source tx auths w :
  ~ shadow g -> Exists (bad_delegation env g (w_trusted w) tx) auths ->
  w_locked (execute env (inspect_auths g source tx auths) w).2 = true.
Proof.
  intros Hmode. remember (w_trusted w) as t eqn:Ht. revert w Ht.
  induction auths as [|auth auths IH]; intros w Ht Hbad; [by inversion Hbad|].
  cbn [inspect_auths]. apply Exists_cons in Hbad.
  destruct (au_authority auth) as [authority|] eqn:Hau; cycle 1.
  { destruct Hbad as [[(? & ? & _) _]|Hbad]; [congruence|]. by apply IH. }
  case_bool_decide as Hprot; cbn [negb]; cycle 1.
  { destruct Hbad as [[(? & ? & ?) _]|Hbad]; [by simplify_eq|]. by apply IH. }
  destruct (_ && _) eqn:Hsel.
  { rewrite execute_bind. destruct (execute env (recordEvent _ _ _ _ _) w) as [[] w1].
    by apply execute_Lock. }
  rewrite execute_op. cbn [handle fst snd]. rewrite <- Ht.
  destruct (assoc_get (au_address auth) t) as [h|] eqn:Hget; cycle 1.
  { rewrite execute_bind. destruct (execute env (recordEvent _ _ _ _ _) _) as [[] w1].
    by apply execute_Lock. }
  assert (Exists (bad_delegation env g t tx) auths \/ h <> hash_zero /\
    forall n url code, url ∈ RPCURLs (g_cfg g) ->
      net env n _ (NCodeAt url (au_address auth)) = Ok code -> Keccak256 code <> h) as Hrest.
  { destruct Hbad as [[_ [[Hne Hnot]|[?|(h' & Hh & Hbad)]]]|?]; [|congruence|right; by simplify_eq|by left].
    exfalso. rewrite (bool_decide_false _ Hnot), andb_true_r in Hsel. apply Z.ltb_ge in Hsel.
    apply Hne, length_zero_iff_nil. lia. }
  clear Hsel. case_bool_decide; [apply IH; [done|]; by destruct Hrest as [|[]]|]. rewrite execute_bind.
  pose proof (only_verify no_trust g (inspecting_no_trust _) (RPCURLs (g_cfg g)) (au_address auth) h)
    as Honly.
  pose proof (no_trust_keeps env _ (tick w) t Honly) as Hkeep.
  destruct (execute env (verifyDelegateHash _ _ _) (tick w)) as [[[]|e] w1] eqn:Hver; cbn in Hkeep.
  - destruct Hrest as [Hrest|[_ Hbad']]; [apply IH; [|done]; symmetry; by apply Hkeep|].
    pose proof (verify_refuses (RPCURLs (g_cfg g)) (au_address auth) h (tick w) Hbad') as Hv.
    by rewrite Hver in Hv.
  - by apply execute_Lock.
Qed.

Lemma inspect_block_catches g tag txs tx w :
  ~ shadow g -> Some tx ∈ txs -> ct_type tx = SetCodeTxType ->
  Exists (bad_delegation env g (w_trusted w) tx) (ct_auths tx) ->
  w_locked (execute env (inspect_block g tag txs) w).2 = true.
Proof.
  intros Hmode Hin Htype Hbad. remember (w_trusted w) as t eqn:Ht. revert w Ht.
  induction txs as [|tx' txs IH]; intros w Ht; [by apply not_elem_of_nil in Hin|].
  cbn [inspect_block]. rewrite execute_bind.
  pose proof (only_inspectTransaction no_trust g (inspecting_no_trust _) tag tx') as Honly.
  pose proof (no_trust_keeps env _ w t Honly ltac:(done)) as Hkeep.
  destruct (execute env (inspectTransaction g tag tx') w) as [[] w1] eqn:Hrun. cbn in Hkeep.
  rewrite execute_op. cbn [handle fst snd]. destruct (w_locked w1) eqn:Hl; [done|].
  apply IH; [|by rewrite <- Hkeep].
  apply elem_of_cons in Hin as [<-|Hin]; [|done]. exfalso.
  unfold inspectTransaction in Hrun. rewrite Htype in Hrun.
  change (negb (SetCodeTxType =? SetCodeTxType)) with false in Hrun. cbn iota in Hrun.
  subst t. pose proof (inspect_auths_catches g tag tx (ct_auths tx) w Hmode Hbad) as Hc.
  rewrite Hrun in Hc. cbn in Hc. congruence.
Qed.
End Catch.

(** The scan of one tag reads the block of the first endpoint that answers. *)
Section Scan.
Context {S : Type} `{GoUnicode, Geth, SignerStore S}.
Variable env : environment.
Variable g : CustodyGuard.
Variables (tag url : string) (dead others : list string) (txs : list (option CustodyTx)) (tx : CustodyTx).
Implicit Types w : world S.

Record shows_block : Prop := {
  shows_urls : RPCURLs (g_cfg g) = (dead ++ url :: others)%list;
  shows_dead : forall u, u ∈ dead -> (forall n, is_ok (net env n _ (NDial u)) = false) \/
                                     (forall n, is_ok (net env n _ (NGetBlock u tag)) = false);
  shows_dial : forall n, net env n _ (NDial url) = Ok tt;
  shows_txs : forall n, net env n _ (NGetBlock url tag) = Ok txs;
}.

Hypothesis outside_shadow : ~ shadow g.
Hypothesis shown : shows_block.
Hypothesis included : Some tx ∈ txs.
Hypothesis set_code : ct_type tx = SetCodeTxType.
Abbreviation bad w := (Exists (bad_delegation env g (w_trusted w) tx) (ct_auths tx)).

Lemma scan_urls_catches w : bad w -> w_locked (execute env (scanBlockTag g tag) w).2 = true.
Proof.
  unfold scanBlockTag. rewrite (shows_urls shown). pose proof (shows_dead shown) as Hdead. revert w Hdead.
  induction dead as [|u us IH]; intros w Hdead Hbad; cbn [app scan_urls]; unfold net_call; rewrite execute_op;
    cbn [handle fst snd record_net].
  - rewrite (shows_dial shown), execute_op. cbn [handle fst snd record_net].
    rewrite (shows_txs shown), execute_bind.
    pose proof (inspect_block_catches env g tag txs tx (tick (tick w)) outside_shadow included set_code Hbad)
      as Hcatch.
    by destruct (execute env (inspect_block g tag txs) _) as [[] w1].
  - assert (forall v, v ∈ us -> (forall n, is_ok (net env n _ (NDial v)) = false) \/
                                (forall n, is_ok (net env n _ (NGetBlock v tag)) = false)) as Hus
      by (intros v Hv; apply Hdead; by right).
    destruct (Hdead u ltac:(by left)) as [Hu|Hu].
    + specialize (Hu (w_tick w)). destruct (net _ _ _ (NDial u)); [done|]. by apply (IH (tick w)).
    + destruct (net _ _ _ (NDial u)); [|by apply (IH (tick w))]. rewrite execute_op.
      cbn [handle fst snd record_net]. specialize (Hu (w_tick (tick w))).
      destruct (net _ _ _ (NGetBlock u tag)); [done|]. by apply (IH (tick (tick w))).
Qed.

Lemma scan_tags_catches tags w :
  tag ∈ tags -> bad w -> w_locked (execute env (scan_tags g tags) w).2 = true.
Proof.
  revert w. induction tags as [|t tags IH]; intros w Hin Hbad; [by apply not_elem_of_nil in Hin|].
  cbn [scan_tags]. rewrite execute_bind.
  pose proof (only_scan_urls no_trust g (inspecting_no_trust _) t (RPCURLs (g_cfg g))) as Honly.
  pose proof (no_trust_keeps env _ w _ Honly eq_refl) as Hkeep.
  assert (t = tag -> w_locked (execute env (scanBlockTag g t) w).2 = true) as Hnow
    by (intros ->; by apply scan_urls_catches).
  fold (scanBlockTag g t) in Hkeep. destruct (execute env (scanBlockTag g t) w) as [r w1].
  cbn [snd] in *. rewrite execute_op. cbn [handle fst snd]. destruct (w_locked w1) eqn:Hl; [done|].
  apply IH; [|cbn; by rewrite Hkeep]. apply elem_of_cons in Hin as [<-|Hin]; [by specialize (Hnow eq_refl)|done].
Qed.
End Scan.

(** C28: outside shadow mode a scan locks the signer on a bad delegation. If the
    first endpoint to answer for the pending or for the latest block, the ones
    before it not dialling or not giving the block, shows a set-code transaction
    anywhere in it in which a protected wallet signs for an unknown delegate, for
    one whose code has changed since the start, or under a selector that is not
    allowed, then the signer is locked after the scan. In shadow mode it never is
    ([shadow_never_locks]); a block that no scan reads goes unseen. *)
Theorem scan_catches_bad_delegation {S} `{GoUnicode, Geth, SignerStore S} env g tag url dead others
    txs tx (w : world S) :
  ~ shadow g -> tag ∈ ["pending"; "latest"]%string ->
  shows_block env g tag url dead others txs ->
  Some tx ∈ txs -> ct_type tx = SetCodeTxType ->
  Exists (bad_delegation env g (w_trusted w) tx) (ct_auths tx) ->
  w_locked (execute env (scanOnce g) w).2 = true.
Proof.
  intros Hmode Htag Hshown Hin Htype Hbad. unfold scanOnce.
  rewrite execute_op. cbn [handle fst snd]. destruct (w_locked w) eqn:Hl; [done|].
  by eapply scan_tags_catches.
Qed.

(** A transaction that no protected wallet has authorized is none of the
    guard's business: inspecting it has no effect at all. *)
Theorem unrelated_transaction_ignored {S} `{GoUnicode, Geth, SignerStore S} env g source tx
    (w : world S) :
  Forall (fun auth => forall a, au_authority auth = Some a -> a ∉ protected g) (ct_auths tx) ->
  execute env (inspectTransaction g source (Some tx)) w = (tt, w).
Proof.
  intros Hall. unfold inspectTransaction. case_match; [done|].
  induction Hall as [|auth auths Ha _ IH]; [done|]. cbn [inspect_auths].
  destruct (au_authority auth) as [a|]; [|done].
  rewrite bool_decide_false by (by apply Ha). done.
Qed.

Section Lifecycle.
Context {S : Type} `{GoUnicode, Geth, IncidentSpec S}.
Variable env : environment.
Implicit Types w : world S.

Lemma execute_Start g n w :
  CustodyGuardEnabled (g_cfg g) = true ->
  execute env (Start (Some g) n) w =
    execute env (after_restore g n) (execute env restore_incident w).2.
Proof.
  intros Hen. unfold Start. rewrite Hen. cbn [negb]. rewrite execute_bind.
  by destruct (execute env restore_incident w) as [[] w1].
Qed.

(** The state the guard restores at boot. *)
Lemma restore_locks w incident :
  (handle_store (the_call env w) _ SActiveCustodyIncident (w_store w)).1 = Ok (Some incident) ->
  w_locked (execute env restore_incident w).2 = true.
Proof.
  intros Hact. unfold restore_incident, store_call. rewrite execute_op.
  cbn [handle]. destruct (handle_store _ _ SActiveCustodyIncident (w_store w)) as [r s] eqn:He.
  cbn [fst] in Hact. cbn [fst snd]. rewrite Hact, execute_op. done.
Qed.

Lemma record_keeps_incident g kind reason h a w :
  exists w', execute env (recordEvent g kind reason h a) w = (tt, w') /\
    active_incident (w_store w') = active_incident (w_store w) /\
    w_locked w' = w_locked w /\ w_reason w' = w_reason w.
Proof.
  unfold recordEvent, ignore, store_call. rewrite execute_op. cbn [handle].
  match goal with |- context [handle_store ?c _ (SRecordCustodyEvent ?e) ?s] =>
    pose proof (record_spec c e s) as Hr; change (RecordCustodyEvent c e s)
      with (handle_store c _ (SRecordCustodyEvent e) s) in Hr end.
  destruct (handle_store _ _ (SRecordCustodyEvent _) _) as [r s]. cbn in *.
  eexists. by split.
Qed.

(** Programs that lift the lock or fail with the lock as it was, and the incident
    too unless it was resolved all the same. *)
Definition lifts (p : prog eff (result unit)) : Prop := forall w r w',
  execute env p w = (r, w') ->
  match r with
  | Ok _ => w_locked w' = false /\ active_incident (w_store w') = None
  | Err _ =>
      w_locked w' = w_locked w /\
      (active_incident (w_store w') = active_incident (w_store w) \/ active_incident (w_store w') = None)
  end.

Lemma lift_lock_runs g note w :
  exists w', execute env (lift_lock g note) w = (Ok tt, w') /\
    w_locked w' = false /\ active_incident (w_store w') = active_incident (w_store w).
Proof.
  unfold lift_lock. rewrite !execute_op, execute_bind. cbn [handle fst snd].
  set (w1 := tick (set_reason _ _)).
  destruct (record_keeps_incident g "signer_unlocked" note "" "" w1) as (w2 & -> & Hi & Hl & _).
  exists w2. split; [done|]. by rewrite Hl, Hi.
Qed.

Lemma resolve_lifts g note :
  lifts (try (store_call (SResolveCustodyIncident note)) (fun _ => lift_lock g note)).
Proof.
  intros w r w'. rewrite execute_try. unfold store_call. rewrite execute_perform.
  pose proof (resolve_spec (the_call env w) note (w_store w)) as Hres.
  cbn [handle handle_store].
  destruct (ResolveCustodyIncident _ note (w_store w)) as [[[]|e] s]; cbn in Hres.
  - destruct (lift_lock_runs g note (tick (set_store s w))) as (w1 & -> & Hl & Hi).
    intros [= <- <-]. rewrite Hi. by destruct Hres as [|[]].
  - intros [= <- <-]. split; [done|]. destruct Hres as [|[]]; [by right|by left].
Qed.
End Lifecycle.

(** [Start] run alone: if the store reports an active incident the signer is locked
    and stays so for as long as the guard runs. *)
Theorem start_restores_lockdown {S} `{GoUnicode, Geth, SignerStore S} env g n incident (w : world S) :
  CustodyGuardEnabled (g_cfg g) = true ->
  (handle_store (the_call env w) _ SActiveCustodyIncident (w_store w)).1 = Ok (Some incident) ->
  w_locked (execute env (Start (Some g) n) w).2 = true.
Proof.
  intros Hen Hact. rewrite execute_Start by done.
  apply no_unlock_keeps; [by apply only_after_restore; [apply inspecting_no_unlock|..]|].
  by apply restore_locks with incident.
Qed.

(** The monitor starts only if every trusted delegate's code can be read. If
    it cannot, [Start] returns: however many ticks follow, it does what it does
    with none, so no block is ever scanned, in shadow mode with the signer
    running, and otherwise as soon as an operator has lifted the lock. *)
Theorem failed_load_ends_monitoring {S} `{GoUnicode, Geth, SignerStore S} env g n e (w : world S) :
  CustodyGuardEnabled (g_cfg g) = true ->
  (execute env (loadTrustedDelegateHashes g) (execute env restore_incident w).2).1 = Err e ->
  execute env (Start (Some g) n) w = execute env (Start (Some g) 0) w /\
  (shadow g -> w_locked (execute env restore_incident w).2 = false ->
   w_locked (execute env (Start (Some g) n) w).2 = false).
Proof.
  intros Hen Hload. rewrite !execute_Start by done. unfold after_restore.
  rewrite !execute_bind.
  destruct (execute env (loadTrustedDelegateHashes g) _) as [r w1] eqn:Hrun. cbn in Hload.
  subst r. split; [done|]. intros Hshadow Hl.
  assert (w_locked w1 = false) as Hl1.
  { replace w1 with (execute env (loadTrustedDelegateHashes g) (execute env restore_incident w).2).2
      by (by rewrite Hrun).
    apply no_lock_keeps; [|done]. unfold loadTrustedDelegateHashes.
    apply only_bind; [by apply only_perform|]. intros delegates. clear Hrun.
    induction delegates as [|d ds IH]; cbn [load_hashes]; [constructor|].
    apply only_try; [apply (only_codeAtAnyRPC no_lock g); by constructor|].
    intros code. case_match; [constructor|]. by apply only_bind; [apply only_perform|]. }
  apply no_lock_keeps; [|done]. apply only_Lock. by constructor.
Qed.

(** C30: an unlock either lifts the lock, the incident resolved and its cooldown
    over, or returns an error and leaves the lock as it was; then the incident is as
    it was too, unless only the answer to its resolution was lost, and its cooldown
    is over. *)
Theorem unlock_respects_cooldown {S} `{GoUnicode, Geth, IncidentSpec S} env g note (w w' : world S) r :
  execute env (Unlock (Some g) note) w = (r, w') ->
  let cooldown := mul_duration (CustodyUnlockCooldown (g_cfg g)) Second in
  let over := forall i, active_incident (w_store w) = Some i -> 0 < cooldown ->
    cooldown <= time_Sub (clock env (w_tick w + 1)%nat) (inc_CreatedAt i) in
  match r with
  | Ok _ => w_locked w' = false /\ active_incident (w_store w') = None /\ over
  | Err _ =>
      w_locked w' = w_locked w /\
      (active_incident (w_store w') = active_incident (w_store w) \/
       active_incident (w_store w') = None /\ over)
  end.
Proof.
  intros Hrun cooldown over. unfold over. clear over. unfold Unlock in Hrun. rewrite execute_try in Hrun.
  unfold store_call in Hrun at 1. rewrite execute_perform in Hrun.
  destruct (active_spec (the_call env w) (w_store w)) as [Hsame Hact].
  cbn [handle handle_store] in Hrun.
  destruct (ActiveCustodyIncident _ (w_store w)) as [[i|e] s]; cbn in Hsame, Hact; cycle 1.
  { injection Hrun as <- <-. split; [done|by left]. }
  subst i. set (w1 := tick (set_store s w)) in *.
  assert (active_incident (w_store w1) = active_incident (w_store w)) as Hi1 by done.
  assert (w_locked w1 = w_locked w) as Hl1 by done.
  destruct (active_incident (w_store w)) as [i|] eqn:Hi; cycle 1.
  { destruct (lift_lock_runs env g note w1) as (w2 & Hw2 & ? & Hi2). rewrite Hw2 in Hrun.
    injection Hrun as <- <-. by rewrite Hi2. }
  fold cooldown in Hrun. destruct (Z.ltb_spec 0 cooldown) as [Hc|Hc].
  - rewrite execute_op in Hrun. cbn [handle fst snd] in Hrun.
    destruct (Z.ltb_spec (time_Sub (now env w1) (inc_CreatedAt i)) cooldown) as [Ht|Ht].
    { injection Hrun as <- <-. split; [done|by left]. }
    apply resolve_lifts in Hrun as Hlift.
    assert (forall i', Some i = Some i' -> 0 < cooldown ->
      cooldown <= time_Sub (clock env (w_tick w + 1)%nat) (inc_CreatedAt i')) as Hover
      by (intros ? [= <-] _; exact Ht).
    destruct r; [by destruct Hlift|]. destruct Hlift as [-> [->|]]; [by split; [|left]|].
    split; [done|by right].
  - apply resolve_lifts in Hrun as Hlift.
    assert (forall i', Some i = Some i' -> 0 < cooldown ->
      cooldown <= time_Sub (clock env (w_tick w + 1)%nat) (inc_CreatedAt i')) as Hover
      by (intros ? _ ?; lia).
    destruct r; [by destruct Hlift|]. destruct Hlift as [-> [->|]]; [by split; [|left]|].
    split; [done|by right].
Qed.

(** ** Examples *)

Definition with_custody (mode : string) (urls : list string) (cooldown : Z) (c : SignerConfig) :
    SignerConfig := {|
  AppEnv := AppEnv c; Port := Port c; DatabaseURL := DatabaseURL c; RedisURL := RedisURL c;
  AllowSimulation := AllowSimulation c; DefaultNetwork := DefaultNetwork c;
  AllowedNetworks := AllowedNetworks c; AllowedTokenContracts := AllowedTokenContracts c;
  AllowedContractCalls := AllowedContractCalls c; MaxTransferAmount := MaxTransferAmount c;
  TokenDecimals := TokenDecimals c; EVMPrivateKey := EVMPrivateKey c; RPCURL := RPCURL c;
  RPCURLs := urls; RPCFleet := RPCFleet c; BSCUSDTContract := BSCUSDTContract c;
  BSCTreasuryContract := BSCTreasuryContract c; BSCChainID := BSCChainID c;
  Security := Security c; CustodyGuardEnabled := true; CustodyGuardPollMs := 1500;
  CustodyMode := mode; CustodyUnlockCooldown := cooldown;
  CustodyProtectedRaw := CustodyProtectedRaw c; CustodyTrustedRaw := CustodyTrustedRaw c;
  CustodySelectorsRaw := CustodySelectorsRaw c; TreasuryMinUSDT := TreasuryMinUSDT c;
  TreasuryTargetUSDT := TreasuryTargetUSDT c; TreasuryMaxUSDT := TreasuryMaxUSDT c;
  TreasuryMaxDailyOut := TreasuryMaxDailyOut c; TreasuryLockThreshold := TreasuryLockThreshold c |}.

Definition wallet : Address := replicate 20 17.
Definition attacker : Address := replicate 20 66.

Definition example_guard (mode : string) : CustodyGuard := {|
  g_cfg := with_custody mode ["https://a.example"]%string 900
             (@LoadSignerConfig ascii_unicode (fun _ => None));
  protected := [wallet]; allowedSelector := [] |}.

(** [authority] delegates its account to [attacker]. *)
Definition delegation (authority : Address) : CustodyTx := {|
  ct_type := SetCodeTxType; ct_hash := replicate 32 1; ct_data := [];
  ct_auths := [{| au_address := attacker; au_authority := Some authority |}] |}.

#[local] Existing Instance ascii_unicode.
#[local] Existing Instance ref_geth.
#[local] Existing Instance list_map_order.

Definition example_guard_world : world memorySignerStore :=
  start_world newMemorySignerStore {| endpoints := []; rotation := 0 |}.

Lemma shadow_never_locks_witness :
  w_locked (execute (example_environment [Some (delegation wallet)] (Ok [1]) all_sent)
              (monitor (example_guard "shadow") 3) example_guard_world).2 = false.
Proof. apply shadow_never_locks; vm_compute; reflexivity. Defined.

Lemma not_shadow_paper : ~ shadow (example_guard "paper").
Proof. vm_compute. discriminate. Qed.

Lemma scan_catches_bad_delegation_witness :
  w_locked (execute (example_environment [None; Some (delegation wallet)] (Ok [1]) all_sent)
              (scanOnce (example_guard "paper")) example_guard_world).2 = true.
Proof.
  refine (scan_catches_bad_delegation _ (example_guard "paper") "latest" "https://a.example" [] []
            [None; Some (delegation wallet)] (delegation wallet) example_guard_world
            not_shadow_paper _ _ _ _ _).
  - apply list_elem_of_further, list_elem_of_here.
  - split; [reflexivity|intros u Hu; by apply not_elem_of_nil in Hu|done|done].
  - apply list_elem_of_further, list_elem_of_here.
  - reflexivity.
  - apply Exists_cons_hd. split; [|right; left; reflexivity].
    exists wallet. split; [reflexivity|apply list_elem_of_here].
Defined.

Lemma unrelated_transaction_ignored_witness :
  execute (example_environment [] (Ok [1]) all_sent)
    (inspectTransaction (example_guard "live") "latest" (Some (delegation attacker)))
    example_guard_world = (tt, example_guard_world).
Proof.
  apply unrelated_transaction_ignored. apply Forall_singleton. intros a [= <-].
  vm_compute. intros Hin. inversion Hin as [|? ? ? Hin']; inversion Hin'.
Defined.

Definition open_incident : CustodyIncident := {|
  inc_ID := 1; inc_Reason := "EIP-7702"; inc_Mode := "live"; inc_CreatedAt := boot_time - Second |}.

Definition locked_world : world memorySignerStore :=
  set_locked true (set_store (set_incident (Some open_incident) newMemorySignerStore)
                     example_guard_world).

Lemma start_restores_lockdown_witness :
  w_locked (execute (example_environment [] (Ok [1]) all_sent)
              (Start (Some (example_guard "live")) 5) locked_world).2 = true.
Proof. apply start_restores_lockdown with open_incident; reflexivity. Defined.

Lemma failed_load_ends_monitoring_witness :
  let env := example_environment [Some (delegation wallet)] (Err "503") all_sent in
  let w := set_trusted [(attacker, hash_zero)] example_guard_world in
  execute env (Start (Some (example_guard "shadow")) 9) w =
    execute env (Start (Some (example_guard "shadow")) 0) w /\
  w_locked (execute env (Start (Some (example_guard "shadow")) 9) w).2 = false.
Proof.
  intros env w.
  destruct (failed_load_ends_monitoring env (example_guard "shadow") 9 "sem RPC para ler bytecode" w)
    as [Heq Hl]; [reflexivity|vm_compute; reflexivity|].
  split; [exact Heq|]. apply Hl; vm_compute; reflexivity.
Defined.

Lemma unlock_respects_cooldown_witness :
  let env := example_environment [] (Ok [1]) all_sent in
  exists e w', execute env (Unlock (Some (example_guard "live")) "ok") locked_world = (Err e, w') /\
    w_locked w' = true /\ active_incident (w_store w') = Some open_incident.
Proof.
  intros env.
  destruct (execute env (Unlock (Some (example_guard "live")) "ok") locked_world) as [r w'] eqn:Hrun.
  pose proof (unlock_respects_cooldown env (example_guard "live") "ok" locked_world w' r Hrun) as Hu.
  assert (r = Err "cooldown de custodia ainda ativo") as Hr
    by (change r with (r, w').1; rewrite <- Hrun; vm_compute; reflexivity).
  subst r. exists "cooldown de custodia ainda ativo"%string, w'. split; [reflexivity|].
  destruct Hu as [Hl [Hi|[_ Hover]]]; [split; [exact Hl|exact Hi]|].
  specialize (Hover open_incident eq_refl eq_refl). exfalso. revert Hover. vm_compute. congruence.
Defined.
