(* ===== verification/Exec.v ===== *)
(** * Executing a request: the [execute*] functions of [main.go], the treasury
    and settlement checks, and the transaction monitor.

    The three executions differ in what they check and in the transaction they
    build; the loop over the fleet and the end of each execution (sign, send,
    record) are written once. [ctx] and [slog] do not appear. *)
From S2P Require Export Custody Units.

(** Library calls on text: [encoding/json] and [time.Parse] with the two RFC
    3339 layouts. *)
Class GoText := {
  json_TransferRequest : string -> result TransferRequest;
  json_ContractCallRequest : string -> result ContractCallRequest;
  json_SettlementExecuteRequest : string -> result SettlementExecuteRequest;
  (** The [note] of an unlock request; errors are ignored by the caller. *)
  json_note : string -> string;
  parse_RFC3339 : string -> result Time;
  parse_RFC3339Nano : string -> result Time;
}.

Section Exec.
Context `{GoUnicode, Geth, GoText}.
Implicit Types cfg : SignerConfig.

Abbreviation execution := (prog eff (outcome TransferResponse)).

(** ** The loop over the fleet *)

(** [fleet.sendCandidates(len(cfg.RPCURLs))], on the shared fleet or on one made
    for this call. *)
Definition fleet_candidates cfg : prog eff (option (list rpcHandle)) :=
  let limit := Z.of_nat (length (RPCURLs cfg)) in
  if RPCFleet cfg then perform (EFleetSend limit) else
  t ← perform ENow;
  t' ← perform ENow;
  Ret (fst <$> sendCandidates t' limit (newRPCFleet t (RPCURLs cfg))).

Definition record_fleet_failure cfg (id : Z) (e : string) : prog eff unit :=
  if RPCFleet cfg then perform (EFleetFailure id (classifyRPCFailure e)) else Ret tt.

Definition record_fleet_success cfg (id : Z) (latency : Duration) : prog eff unit :=
  if RPCFleet cfg then perform (EFleetSuccess id latency) else Ret tt.

Fixpoint try_handles cfg (withClient : string -> execution) (lastErr : option string)
    (handles : list rpcHandle) : execution :=
  match handles with
  | [] => Ret (Fail (default "nenhum RPC BSC disponivel"%string lastErr))
  | h :: handles' =>
      start ← perform ENow;
      client ← net_call (NDial (h_url h));
      match client with
      | Err e =>
          _ ← record_fleet_failure cfg (h_id h) e;
          try_handles cfg withClient (Some (wrapped (h_name h +:+ " indisponivel") e)) handles'
      | Ok _ =>
          resp ← withClient (h_url h);
          match resp with
          | Return resp =>
              t ← perform ENow;
              _ ← record_fleet_success cfg (h_id h) (time_Sub t start);
              Ret (Return resp)
          | Fail e =>
              _ ← record_fleet_failure cfg (h_id h) e;
              try_handles cfg withClient (Some (wrapped (h_name h +:+ " falhou") e)) handles'
          | Panic => Ret Panic
          end
      end
  end.

(** Key, simulation, candidates: the common body of [executeEVM*]. *)
Definition over_fleet cfg (simulated network : string)
    (withClient : PrivateKey -> Address -> string -> execution) : execution :=
  or_fail (wrapped "EVM_PRIVATE_KEY invalida") (HexToECDSA (TrimPrefix (EVMPrivateKey cfg) "0x"))
    (fun privateKey =>
  let from := PubkeyToAddress privateKey in
  if AllowSimulation cfg then
    Ret (Return {| TxHash := hash_Hex (Keccak256 (bytes_of simulated));
                   From := address_Hex from; Network := network |})
  else
    handles ← fleet_candidates cfg;
    match handles with
    | None => Ret Panic
    | Some handles => try_handles cfg (withClient privateKey from) None handles
    end).

(** ** Reserving a nonce, and sending *)

Definition custody_event cfg (kind reason txHash wallet : string) (data : list (string * any)) :
    prog eff unit :=
  ignore (store_call (SRecordCustodyEvent {|
    ev_Kind := kind; ev_Reason := reason; ev_Mode := CustodyMode cfg;
    ev_TxHash := txHash; ev_Wallet := wallet; ev_Data := data |})).

(** From [PendingNonceAt] to [SuggestGasPrice]. *)
Definition reserve_nonce cfg (url : string) (from : Address) (network : string)
    (data : list (string * any)) (k : Z -> Z -> execution) : execution :=
  chainPending ← net_call (NPendingNonceAt url from);
  or_fail (wrapped "falha ao obter nonce") chainPending (fun chainPending =>
  nonce ← store_call (SReserveChainNonce (address_Hex from) network chainPending);
  or_fail (wrapped "falha ao reservar nonce") nonce (fun nonce =>
  _ ← custody_event cfg "nonce_reserved" "" "" (address_Hex from)
        (("nonce"%string, AnyUint nonce) :: ("network"%string, AnyString network) :: data);
  gasPrice ← net_call (NSuggestGasPrice url);
  or_fail (wrapped "falha ao obter gas price") gasPrice (k nonce))).

(** [if err != nil || gasLimit == 0 { gasLimit = fallback }] *)
Definition gas_limit (estimate : result Z) (fallback : Z) : Z :=
  match estimate with
  | Err _ => fallback
  | Ok g => if g =? 0 then fallback else g
  end.

(** What is stored about a transaction: the request's part. *)
Record tx_record := {
  xr_Key : string; xr_To : string; xr_Token : string; xr_Amount : string }.

Definition signer_transaction (r : tx_record) (from : Address) (network : string) (nonce : Z)
    (hash status reason : string) : SignerTransaction := {|
  sx_IdempotencyKey := xr_Key r; sx_WalletFrom := address_Hex from; sx_WalletTo := xr_To r;
  sx_Token := xr_Token r; sx_Amount := xr_Amount r; sx_Network := network; sx_Nonce := nonce;
  sx_TxHash := hash; sx_Status := status; sx_Reason := reason; sx_Confirmations := 0 |}.

(** From [types.SignTx] to the end. *)
Definition sign_and_send cfg (url : string) (key : PrivateKey) (from : Address) (network : string)
    (chainID : Z) (r : tx_record) (submitted_data : list (string * any)) (tx : Transaction) :
    execution :=
  let wallet := address_Hex from in
  match SignTx tx chainID key with
  | Err e =>
      _ ← ignore (store_call (SMarkChainNonceFailed wallet network (tx_nonce tx) e));
      Ret (Fail (wrapped "falha ao assinar tx" e))
  | Ok signed =>
      let hash := hash_Hex (st_hash signed) in
      sent ← net_call (NSendTransaction url signed);
      match sent with
      | Err e =>
          _ ← ignore (store_call (SMarkChainNonceFailed wallet network (tx_nonce tx) e));
          _ ← ignore (store_call (SCreateSignerTransaction
                (signer_transaction r from network (tx_nonce tx) hash "failed" e)));
          Ret (Fail (wrapped "falha ao transmitir tx" e))
      | Ok _ =>
          _ ← ignore (store_call (SMarkChainNonceSubmitted wallet network (tx_nonce tx) hash));
          _ ← ignore (store_call (SCreateSignerTransaction
                (signer_transaction r from network (tx_nonce tx) hash "submitted" "")));
          _ ← custody_event cfg "tx_submitted" "" hash wallet submitted_data;
          Ret (Return {| TxHash := hash; From := wallet; Network := network |})
      end
  end.

Definition new_transaction (nonce : Z) (to : Address) (value gas gasPrice : Z) (data : bytes) :
    Transaction :=
  {| tx_nonce := nonce; tx_to := to; tx_value := value; tx_gas := gas; tx_gasPrice := gasPrice;
     tx_data := data |}.

(** [client.ChainID] and the check that follows; [ok] is the negated condition. *)
Definition check_chain (url what : string) (ok : Z -> bool) (k : Z -> execution) : execution :=
  chainID ← net_call (NChainID url);
  or_fail (wrapped "falha ao obter chain id") chainID (fun chainID =>
  if ok chainID then k chainID
  else Ret (Fail ("chain id inesperado para " +:+ (what +:+ (": " +:+ itoa chainID))))).

(** ** Transfers *)

Definition executeEVMTransferWithClient cfg (req : TransferRequest) (network : string)
    (privateKey : PrivateKey) (from : Address) (url : string) : execution :=
  check_chain url "BSC" (fun c => negb (String.eqb network "BSC") || (c =? 56)) (fun chainID =>
  reserve_nonce cfg url from network [] (fun nonce gasPrice =>
  let to := HexToAddress (tr_To req) in
  let tokenContract := normalizedTokenContract cfg req network in
  let token := HexToAddress tokenContract in
  let send := sign_and_send cfg url privateKey from network chainID
    {| xr_Key := tr_IdempotencyKey req; xr_To := tr_To req; xr_Token := tokenContract;
       xr_Amount := tr_Amount req |} [] in
  if negb (String.eqb (TrimSpace tokenContract) "") && negb (bool_decide (token = address_zero))
  then
    or_fail id (parseUnits (tr_Amount req) (TokenDecimals cfg)) (fun amount =>
    match erc20TransferData to amount with
    | None => Ret Panic
    | Some data =>
        estimate ← net_call (NEstimateGas url from token 0 data);
        send (new_transaction nonce token 0 (gas_limit estimate 120000) gasPrice data)
    end)
  else
    or_fail id (parseUnits (tr_Amount req) 18) (fun amount =>
    estimate ← net_call (NEstimateGas url from to amount []);
    send (new_transaction nonce to amount (gas_limit estimate 21000) gasPrice [])))).

Definition executeEVMTransfer cfg (req : TransferRequest) (network : string) : execution :=
  over_fleet cfg (tr_IdempotencyKey req +:+ (tr_To req +:+ tr_Amount req)) network
    (executeEVMTransferWithClient cfg req network).

(** ** The treasury limits *)

(** The checks on [next], the day's outflow with this amount. *)
Definition treasury_limits cfg (next : f64) (data : list (string * any)) :
    prog eff (result unit) :=
  let over limit := fltb fzero limit && fltb limit next in
  let event kind reason := custody_event cfg kind reason "" ""
                             (("nextOutflow"%string, AnyFloat next) :: data) in
  if over (TreasuryLockThreshold cfg) then
    _ ← event "treasury_lockdown_threshold" "limite de lockdown diario excedido"%string;
    Ret (Err ("treasury lockdown: saida diaria " +:+ (fmt_f8 next +:+ (" acima do limite "
              +:+ fmt_f8 (TreasuryLockThreshold cfg)))))
  else if over (TreasuryMaxDailyOut cfg) then
    _ ← event "treasury_daily_limit"%string "limite diario excedido"%string;
    Ret (Err ("limite diario de treasury excedido: " +:+ (fmt_f8 next +:+ (" > "
              +:+ fmt_f8 (TreasuryMaxDailyOut cfg)))))
  else Ret (Ok tt).

Definition validateTreasuryPolicy cfg (req : TransferRequest) (network : string) :
    prog eff (result unit) :=
  let token := normalizedTokenContract cfg req network in
  match parseFloatAmount (tr_Amount req) with
  | Err e => Ret (Err e)
  | Ok amount =>
      outflow ← store_call (SDailySubmittedOutflow token network);
      match outflow with
      | Err e => Ret (Err (wrapped "falha ao consultar treasury outflow" e))
      | Ok outflow => treasury_limits cfg (fadd outflow amount) []
      end
  end.

Definition validateContractCallTreasuryPolicy cfg (req : ContractCallRequest) (network : string) :
    prog eff (result unit) :=
  if String.eqb (TrimSpace (cc_Amount req)) "" then Ret (Ok tt) else
  match parseFloatAmount (cc_Amount req) with
  | Err e => Ret (Err e)
  | Ok amount =>
      outflow ← store_call (SDailySubmittedOutflow (TrimSpace (cc_TokenContract req)) network);
      match outflow with
      | Err e => Ret (Err (wrapped "falha ao consultar treasury outflow" e))
      | Ok outflow =>
          treasury_limits cfg (fadd outflow amount) [("type"%string, AnyString "contract_call")]
      end
  end.

(** [switch network] *)
Definition on_evm (network : string) (k : execution) : execution :=
  if evm_network network then k else Ret (Fail ("rede nao suportada: " +:+ network)).

Definition executeTransfer cfg (req : TransferRequest) : execution :=
  let network := requestedNetwork cfg req in
  or_fail id (validateTransferPolicy cfg req network) (fun _ =>
  treasury ← validateTreasuryPolicy cfg req network;
  or_fail id treasury (fun _ =>
  if bool_decide (is_Some (tr_DerivationIndex req))
  then Ret (Fail "derivacao HD ainda nao habilitada para assinatura de hot wallet")
  else on_evm network (executeEVMTransfer cfg req network))).

(** ** Contract calls *)

Definition executeEVMContractCallWithClient cfg (req : ContractCallRequest) (network : string)
    (privateKey : PrivateKey) (from : Address) (url : string) : execution :=
  let call_type := [("type"%string, AnyString "contract_call")] in
  check_chain url "BSC" (fun c => negb (String.eqb network "BSC") || (c =? 56)) (fun chainID =>
  reserve_nonce cfg url from network call_type (fun nonce gasPrice =>
  or_fail id (decodeHexData (cc_Data req)) (fun data =>
  let to := HexToAddress (cc_To req) in
  estimate ← net_call (NEstimateGas url from to 0 data);
  sign_and_send cfg url privateKey from network chainID
    {| xr_Key := cc_IdempotencyKey req; xr_To := cc_To req;
       xr_Token := TrimSpace (cc_TokenContract req);
       xr_Amount := firstNonEmptySigner [cc_Amount req; "0"%string] |} call_type
    (new_transaction nonce to 0 (gas_limit estimate 350000) gasPrice data)))).

Definition executeEVMContractCall cfg (req : ContractCallRequest) (network : string) : execution :=
  over_fleet cfg (cc_IdempotencyKey req +:+ (cc_To req +:+ cc_Data req)) network
    (executeEVMContractCallWithClient cfg req network).

Definition executeContractCall cfg (req : ContractCallRequest) : execution :=
  let network := requestedContractNetwork cfg req in
  or_fail id (validateContractCallPolicy cfg req network) (fun _ =>
  treasury ← validateContractCallTreasuryPolicy cfg req network;
  or_fail id treasury (fun _ =>
  if bool_decide (is_Some (cc_DerivationIndex req))
  then Ret (Fail "derivacao HD ainda nao habilitada para assinatura de hot wallet")
  else on_evm network (executeEVMContractCall cfg req network))).

(** ** Settlements *)

Definition settlement_network cfg (req : SettlementExecuteRequest) : string :=
  let network := ToUpper (TrimSpace (se_Network req)) in
  let network := if String.eqb network "" then DefaultNetwork cfg else network in
  if String.eqb network "BINANCE" || String.eqb network "BEP20" then "BSC"%string else network.

(** [hex.DecodeString] of the 64 digits after an optional 0x. *)
Definition operation_id_malformed (operationID : string) : bool :=
  let operationIDHex := TrimPrefix (TrimSpace operationID) "0x" in
  negb (len operationIDHex =? 64) || negb (bool_decide (is_Some (hex_DecodeString operationIDHex))).

(** [time.Parse] with one layout, then the other. *)
Definition parse_expiry (s : string) : result Time :=
  match parse_RFC3339 s with
  | Ok t => Ok t
  | Err _ => match parse_RFC3339Nano s with Ok t => Ok t | Err _ => Err "expiresAt invalido" end
  end.

(** The checks up to the amount: network, chain, ids, vault, token, recipient. *)
Definition check_settlement_fields cfg (req : SettlementExecuteRequest) (network : string) :
    result unit :=
  guard_err (negb (bool_decide (network ∈ AllowedNetworks cfg)))
    ("rede nao permitida: " +:+ network) ≫= λ _,
  guard_err (negb (evm_network network)) ("rede nao suportada: " +:+ network) ≫= λ _,
  guard_err (se_ChainID req =? 0) "chainId obrigatorio" ≫= λ _,
  guard_err (String.eqb network "BSC" && (0 <? BSCChainID cfg)
             && negb (se_ChainID req =? u64 (BSCChainID cfg)))
    ("chainId divergente para BSC: " +:+ itoa (se_ChainID req)) ≫= λ _,
  guard_err (String.eqb (TrimSpace (se_OperationID req)) "") "operationId obrigatorio" ≫= λ _,
  guard_err (operation_id_malformed (se_OperationID req)) "operationId invalido" ≫= λ _,
  guard_err (String.eqb (TrimSpace (se_SettlementIntentID req)) "")
    "settlementIntentId obrigatorio" ≫= λ _,
  guard_err (String.eqb (TrimSpace (se_OrderID req)) "") "orderId obrigatorio" ≫= λ _,
  guard_err (negb (IsHexAddress (se_Vault req))) "vault EVM invalido" ≫= λ _,
  guard_err (String.eqb (TrimSpace (BSCTreasuryContract cfg)) "")
    "BSC_TREASURY_CONTRACT obrigatorio" ≫= λ _,
  guard_err (negb (EqualFold (se_Vault req) (BSCTreasuryContract cfg)))
    "vault nao autorizado" ≫= λ _,
  guard_err (negb (IsHexAddress (se_Token req))) "token EVM invalido" ≫= λ _,
  guard_err (String.eqb (TrimSpace (BSCUSDTContract cfg)) "")
    "BSC_USDT_CONTRACT obrigatorio" ≫= λ _,
  guard_err (negb (EqualFold (se_Token req) (BSCUSDTContract cfg)))
    "token divergente do BSC_USDT_CONTRACT" ≫= λ _,
  guard_err ((0 <? Z.of_nat (size (AllowedTokenContracts cfg)))
             && negb (bool_decide (ToUpper (TrimSpace (se_Token req)) ∈ AllowedTokenContracts cfg)))
    "token contract nao permitido" ≫= λ _,
  guard_err (negb (IsHexAddress (se_Recipient req))) "recipient EVM invalido".

Definition check_settlement_amount (req : SettlementExecuteRequest) : result Z :=
  match big_SetString (TrimSpace (se_AmountRaw req)) with
  | None => Err "amountRaw invalido"
  | Some amount => guard_err (amount <=? 0) "amountRaw invalido" ≫= λ _, Ok amount
  end.

(** [now] is the reading of the clock at the expiry check. *)
Definition validateSettlementExecuteRequest cfg (now : Time) (req : SettlementExecuteRequest) :
    result (string * Z) :=
  let network := settlement_network cfg req in
  check_settlement_fields cfg req network ≫= λ _,
  check_settlement_amount req ≫= λ amount,
  guard_err (negb (String.eqb (TrimSpace (se_PolicyVersion req)) settlementPolicyVersion))
    "policyVersion invalida" ≫= λ _,
  parse_expiry (se_ExpiresAt req) ≫= λ expiresAt,
  guard_err (negb (Before now expiresAt)) "SETTLEMENT_AUTHORIZATION_EXPIRED" ≫= λ _,
  settlementOperationID (i64 (se_ChainID req)) (se_Vault req) (se_SettlementIntentID req)
    (se_Token req) (se_Recipient req) amount ≫= λ expected,
  guard_err (negb (bool_decide (HexToHash (se_OperationID req) = expected)))
    "SETTLEMENT_OPERATION_ID_MISMATCH" ≫= λ _,
  Ok (network, amount).

Definition executeEVMSettlementWithClient cfg (req : SettlementExecuteRequest) (network : string)
    (amount : Z) (privateKey : PrivateKey) (from : Address) (url : string) : execution :=
  let settlement := [("type"%string, AnyString "settlement");
                     ("operationId"%string, AnyString (se_OperationID req))] in
  check_chain url "settlement" (fun c => c =? se_ChainID req) (fun chainID =>
  reserve_nonce cfg url from network settlement (fun nonce gasPrice =>
  or_fail id (vaultPayoutData (HexToHash (se_OperationID req)) (HexToAddress (se_Token req))
                (HexToAddress (se_Recipient req)) amount) (fun data =>
  let vault := HexToAddress (se_Vault req) in
  estimate ← net_call (NEstimateGas url from vault 0 data);
  sign_and_send cfg url privateKey from network chainID
    {| xr_Key := se_IdempotencyKey req; xr_To := se_Vault req; xr_Token := se_Token req;
       xr_Amount := se_AmountRaw req |} settlement
    (new_transaction nonce vault 0 (gas_limit estimate 350000) gasPrice data)))).

Definition executeEVMSettlement cfg (req : SettlementExecuteRequest) (network : string)
    (amount : Z) : execution :=
  over_fleet cfg (se_IdempotencyKey req +:+ (se_OperationID req +:+ se_Vault req)) network
    (executeEVMSettlementWithClient cfg req network amount).

Definition executeSettlement cfg (req : SettlementExecuteRequest) : execution :=
  t ← perform ENow;
  or_fail id (validateSettlementExecuteRequest cfg t req) (fun '(network, amount) =>
  on_evm network (executeEVMSettlement cfg req network amount)).

(** ** The transaction monitor *)

Definition check_receipt cfg (url : string) (item : SignerTransaction) : prog eff unit :=
  receipt ← net_call (NTransactionReceipt url (HexToHash (sx_TxHash item)));
  match receipt with
  | Ok (Some status_code) =>
      let failed := status_code =? 0 in
      let status := if failed then "reverted"%string else "confirmed"%string in
      let reason := if failed then "receipt status failed"%string else ""%string in
      _ ← ignore (store_call (SMarkSignerTransactionStatus (sx_TxHash item) status reason 1));
      custody_event cfg ("tx_" +:+ status) "" (sx_TxHash item) (sx_WalletFrom item) []
  | _ => Ret tt
  end.

Fixpoint check_items cfg (url : string) (items : list SignerTransaction) : prog eff unit :=
  match items with
  | [] => Ret tt
  | item :: items' => _ ← check_receipt cfg url item; check_items cfg url items'
  end.

Fixpoint check_on_urls cfg (items : list SignerTransaction) (urls : list string) : prog eff unit :=
  match urls with
  | [] => Ret tt
  | url :: urls' =>
      client ← net_call (NDial url);
      match client with
      | Err _ => check_on_urls cfg items urls'
      | Ok _ => check_items cfg url items
      end
  end.

Definition checkSignerTransactions cfg : prog eff unit :=
  items ← store_call (SListOpenSignerTransactions 50);
  match items with
  | Err _ => Ret tt
  | Ok [] => Ret tt
  | Ok items => check_on_urls cfg items (RPCURLs cfg)
  end.

(** [ticks] events of the ticker before the context ends. *)
Fixpoint startTxLifecycleMonitor cfg (ticks : nat) : prog eff unit :=
  match ticks with
  | O => Ret tt
  | Datatypes.S ticks' => _ ← checkSignerTransactions cfg; startTxLifecycleMonitor cfg ticks'
  end.
End Exec.

(** ** Closed examples *)

Definition example_settlement (operationID amountRaw : string) : SettlementExecuteRequest := {|
  se_OperationID := operationID; se_SettlementIntentID := "intent-1"; se_OrderID := "order-1";
  se_Side := "buy"; se_Network := "bsc"; se_ChainID := 56;
  se_Vault := "0x1111111111111111111111111111111111111111";
  se_Token := "0x55d398326f99059fF775485246999027B3197955";
  se_Recipient := "0x829829508824f81d939F8CFFdCac71dE47a808bE";
  se_AmountRaw := amountRaw; se_SourceChannel := "app";
  se_PolicyVersion := settlementPolicyVersion; se_NetworkPolicy := ""; se_RiskPolicy := "";
  se_ContractVersion := ""; se_AuthorizedAt := "2023-11-14T22:00:00Z";
  se_ExpiresAt := "2023-11-15T00:00:00Z"; se_IdempotencyKey := "settle-1" |}.

(** The operation id of the example, as its client computes it. *)
Definition example_operation (amount : Z) : string :=
  let req := example_settlement "" "" in
  match @settlementOperationID ref_geth 56 (se_Vault req) (se_SettlementIntentID req)
          (se_Token req) (se_Recipient req) amount with
  | Ok h => "0x" +:+ hex_EncodeToString h
  | Err e => e
  end.

Definition example_contract_call (data amount : string) : ContractCallRequest := {|
  cc_To := "0xca11bde05977b3631167028862be2a173976ca11"; cc_Data := data; cc_Network := "bsc";
  cc_IdempotencyKey := "call-1"; cc_Amount := amount;
  cc_TokenContract := "0x55d398326f99059fF775485246999027B3197955"; cc_DerivationIndex := None |}.

(** A text library for examples: a body of JSON is read as its one amount, and
    the only instant is the expiry of the example settlement. *)
Definition example_text : GoText := {|
  json_TransferRequest body := Ok (example_transfer body);
  json_ContractCallRequest body := Ok (example_contract_call "0x82ad56cb" body);
  json_SettlementExecuteRequest body :=
    match big_SetString body with
    | Some amount => Ok (example_settlement (example_operation amount) body)
    | None => Err "invalid character"
    end;
  json_note body := body;
  parse_RFC3339 s :=
    if String.eqb s "2023-11-15T00:00:00Z" then Ok ((62135596800 + 1700006400) * Second)
    else Err "cannot parse";
  parse_RFC3339Nano s := Err "cannot parse";
|}.

Definition example_fleet_world (t : Time) : world memorySignerStore :=
  start_world newMemorySignerStore (@newRPCFleet ascii_unicode t (RPCURLs example_config)).
