(* ===== verification/Sends.v ===== *)
(** * What a program hands to [SendTransaction].

    [runs P I Q l p]: whatever the store, the network and the clock answer, a
    program [p] that starts after the broadcasts [l] performs only operations in
    [P], keeps [I] of the broadcasts so far, and ends with broadcasts and a result
    in [Q]. It is independent of the state the operations act on, so it holds of a
    goroutine under any interleaving. *)
From S2P Require Export Service.

(** A signed transaction that was handed over, and whether the node took it. *)
Abbreviation sends := (list (SignedTransaction * bool)).

Definition sent_by {X} (e : eff X) : X -> sends :=
  match e in eff X return X -> sends with
  | ENet e =>
      match e in net_eff X return X -> sends with
      | NSendTransaction _ tx => fun r => [(tx, is_ok r)]
      | _ => fun _ => []
      end
  | _ => fun _ => []
  end.

(** A fleet offers at most two endpoints; nothing else is assumed. *)
Definition possible {X} (e : eff X) : X -> Prop :=
  match e in eff X return X -> Prop with
  | EFleetSend _ => fun hs => match hs with Some hs => (length hs <= 2)%nat | None => True end
  | _ => fun _ => True
  end.

Section Runs.
Variable P : forall X, eff X -> Prop.
Variable I : sends -> Prop.

Fixpoint runs {A} (Q : sends -> A -> Prop) (l : sends) (p : prog eff A) : Prop :=
  I l /\
  match p with
  | Ret a => Q l a
  | Vis e k => P _ e /\ forall x, possible e x -> runs Q (l ++ sent_by e x) (k x)
  end.

Lemma runs_start {A} (Q : sends -> A -> Prop) l p : runs Q l p -> I l.
Proof. by destruct p; intros []. Qed.

Lemma runs_mono {A} (Q R : sends -> A -> Prop) l p :
  (forall l' a, I l' -> Q l' a -> R l' a) -> runs Q l p -> runs R l p.
Proof.
  intros HQR. revert l. induction p as [a|X e k IH]; intros l; cbn; [naive_solver|].
  intros (HI & HP & Hk). split; [done|]. split; [done|]. intros x Hx. by apply IH, Hk.
Qed.

Lemma runs_bind {A B} (Q : sends -> B -> Prop) l (p : prog eff A) (f : A -> prog eff B) :
  runs (fun l' a => runs Q l' (f a)) l p -> runs Q l (p ≫= f).
Proof.
  revert l. induction p as [a|X e k IH]; intros l; cbn; [by intros []|].
  intros (HI & HP & Hk). split; [done|]. split; [done|]. intros x Hx. by apply IH, Hk.
Qed.

Lemma runs_ret {A} (Q : sends -> A -> Prop) l a : I l -> Q l a -> runs Q l (Ret a).
Proof. by split. Qed.

Lemma runs_op {X A} (Q : sends -> A -> Prop) l (e : eff X) (k : X -> prog eff A) :
  I l -> P X e -> (forall x, possible e x -> runs Q (l ++ sent_by e x) (k x)) ->
  runs Q l (perform e ≫= k).
Proof. intros HI HP Hk. split; [done|]. by split. Qed.

(** An operation that broadcasts nothing. *)
Lemma runs_quiet {X A} (Q : sends -> A -> Prop) l (e : eff X) (k : X -> prog eff A) :
  I l -> P X e -> (forall x, sent_by e x = []) ->
  (forall x, possible e x -> runs Q l (k x)) -> runs Q l (perform e ≫= k).
Proof.
  intros HI HP Hs Hk. apply runs_op; [done..|]. intros x Hx.
  rewrite Hs, (right_id_L [] (++)). by apply Hk.
Qed.

Lemma runs_ignore {X A} (Q : sends -> A -> Prop) l (e : store_eff X) (k : unit -> prog eff A) :
  I l -> P X (EStore e) -> runs Q l (k tt) -> runs Q l (ignore (store_call e) ≫= k).
Proof.
  intros HI HP Hk. apply runs_bind. apply (runs_quiet _ l (EStore e)); [done..|]. intros x _. by apply runs_ret.
Qed.

Lemma runs_or_fail {A B} (Q : sends -> outcome B -> Prop) l wrap (r : result A) k :
  (forall e, r = Err e -> runs Q l (Ret (Fail (wrap e)))) ->
  (forall a, r = Ok a -> runs Q l (k a)) -> runs Q l (or_fail wrap r k).
Proof. destruct r; cbn [or_fail]; auto. Qed.

(** A program that starts anew does the same after earlier broadcasts. *)
Lemma runs_frame {A} (Q : sends -> A -> Prop) l n p :
  (forall n, I n -> I (l ++ n)) -> runs Q n p ->
  runs (fun l' a => exists m, l' = (l ++ m)%list /\ Q m a) (l ++ n) p.
Proof.
  intros HI. revert n. induction p as [a|X e k IH]; intros n; cbn.
  - intros [Hn HQ]. split; [by apply HI|]. by exists n.
  - intros (Hn & HP & Hk). split; [by apply HI|]. split; [done|]. intros x Hx.
    rewrite <- (assoc_L (++)). by apply IH, Hk.
Qed.
End Runs.

Lemma runs_weaken (P P' : forall X, eff X -> Prop) (I I' : sends -> Prop) {A}
    (Q : sends -> A -> Prop) l p :
  (forall X e, P X e -> P' X e) -> (forall l, I l -> I' l) -> runs P I Q l p -> runs P' I' Q l p.
Proof.
  intros HP HI. revert l. induction p as [a|X e k IH]; intros l; cbn; [naive_solver|].
  intros (Hl & He & Hk). split; [auto|]. split; [auto|]. intros x Hx. by apply IH, Hk.
Qed.

(** ** The calculus and execution *)

Lemma take_candidates_length now eps cs : (length (take_candidates now eps cs).2 <= length cs)%nat.
Proof.
  revert eps. induction cs as [|[i x] cs IH]; intros eps; cbn; [done|].
  destruct (eps !! i) as [ep|].
  - specialize (IH (alter (reserve now) i eps)).
    destruct (take_candidates now _ cs). cbn in *. lia.
  - specialize (IH eps). lia.
Qed.

Lemma sendCandidates_length now limit f hs f' :
  sendCandidates now limit f = Some (hs, f') -> (length hs <= 2)%nat.
Proof.
  unfold sendCandidates. destruct (score_all id now 0 (endpoints f)) as [eps1 cs1].
  destruct (if (length cs1 =? 0)%nat then _ else _) as [eps cs].
  destruct (rotate (rotation f) _) as [best|] eqn:Hrot; [|done].
  apply rotate_perm, Permutation_length in Hrot.
  set (n := if (limit <=? 0) || _ then _ else limit).
  pose proof (take_candidates_length now eps (take (Z.to_nat n) best)) as Hlen.
  destruct (take_candidates now eps _) as [eps' hs']. intros [= <- _]. cbn in Hlen.
  rewrite length_take in Hlen, Hrot. lia.
Qed.

Section Execute.
Context {S : Type} `{SignerStore S}.
Variable env : environment.

Lemma handle_possible X (e : eff X) (w : world S) : possible e (handle env X e w).1.
Proof.
  destruct e; cbn; try done.
  destruct (sendCandidates (now env w) limit (w_fleet w)) as [[hs f]|] eqn:Hs; [|done]. cbn.
    by eapply sendCandidates_length.
Qed.

Lemma handle_sent X (e : eff X) (w : world S) :
  w_sent (handle env X e w).2 = (w_sent w ++ sent_by e (handle env X e w).1)%list.
Proof.
  destruct e; cbn; rewrite ?(right_id_L [] (++)); try done.
  - by destruct (handle_store (the_call env w) _ e (w_store w)).
  - destruct e; cbn; rewrite ?(right_id_L [] (++)); done.
  - by destruct (sendCandidates (now env w) limit (w_fleet w)) as [[hs f]|].
Qed.

Lemma runs_execute P I {A} (Q : sends -> A -> Prop) l p (w : world S) :
  runs P I Q l p ->
  exists n, w_sent (execute env p w).2 = (w_sent w ++ n)%list /\
    I (l ++ n)%list /\ Q (l ++ n)%list (execute env p w).1.
Proof.
  unfold execute. revert l w. induction p as [a|X e k IH]; intros l w; cbn.
  - intros [HI HQ]. exists []. by rewrite !(right_id_L [] (++)).
  - intros (HI & HP & Hk). pose proof (handle_possible X e w) as Hx.
    pose proof (handle_sent X e w) as Hsent.
    destruct (handle env X e w) as [x w']. cbn in *.
    destruct (IH x _ w' (Hk x Hx)) as (n & Hn & Hrest). exists (sent_by e x ++ n)%list.
    rewrite Hn, Hsent, !(assoc_L (++)). done.
Qed.
End Execute.

(** ** Counting broadcasts *)

(** The broadcasts the node reported as taken. *)
Definition successes (l : sends) : nat := length (filter (fun s => s.2 = true) l).
Definition all_failed (l : sends) : Prop := Forall (fun s => s.2 = false) l.

Lemma successes_app l1 l2 : successes (l1 ++ l2) = (successes l1 + successes l2)%nat.
Proof. unfold successes. by rewrite filter_app, length_app. Qed.

Lemma all_failed_app l1 l2 : all_failed (l1 ++ l2) <-> all_failed l1 /\ all_failed l2.
Proof. apply Forall_app. Qed.

Lemma all_failed_successes l : all_failed l <-> successes l = 0%nat.
Proof.
  unfold successes, all_failed. induction l as [|[tx []] l IH]; cbn.
  - split; [done|constructor].
  - rewrite Forall_cons. cbn. naive_solver lia.
  - rewrite Forall_cons. cbn. rewrite IH. naive_solver.
Qed.

(** At most one broadcast was taken. *)
Definition at_most_one (l : sends) : Prop := (successes l <= 1)%nat.

Lemma at_most_one_frame l n : all_failed l -> at_most_one n -> at_most_one (l ++ n).
Proof.
  intros Hl Hn. apply all_failed_successes in Hl. unfold at_most_one in *.
  rewrite successes_app. lia.
Qed.

Lemma all_failed_at_most_one l : all_failed l -> at_most_one l.
Proof. intros Hl. apply all_failed_successes in Hl. unfold at_most_one. lia. Qed.
