(* ===== verification/Broadcast.v ===== *)
(** * What a request can broadcast: theorems on the executions of [Exec].

    Each attempt on one endpoint hands over at most one transaction; an attempt
    that hands one over and is told it was taken ends the request. *)
From S2P Require Export Exec Sends.

(** What an execution does not touch: idempotency keys, the lock, the guard. *)
Definition exec_op (X : Type) (e : eff X) : Prop :=
  match e with
  | EStore e => key_call e = false
  | ESetLocked _ | ESetReason _ | ESetTrusted _ _ => False
  | _ => True
  end.

Section Broadcast.
Context `{GoUnicode, Geth, GoText}.
Implicit Types cfg : SignerConfig.

Abbreviation exec_runs := (runs exec_op at_most_one).

(** At most [n] transactions, all [good]; the last one was taken, and it is the
    one in the response; or all failed, and so does the request. *)
Definition settled (n : nat) (good : SignedTransaction -> Prop) (l : sends)
    (o : outcome TransferResponse) : Prop :=
  (length l <= n)%nat /\ Forall good l.*1 /\
  match o with
  | Return resp =>
      exists failed tx, l = (failed ++ [(tx, true)])%list /\ all_failed failed /\
        TxHash resp = hash_Hex (st_hash tx)
  | _ => all_failed l
  end.

Lemma all_failed_nil : all_failed [].
Proof. constructor. Qed.
Hint Resolve all_failed_nil all_failed_at_most_one : core.

Lemma settled_nothing n good e : settled n good [] (Fail e).
Proof. split; [cbn; lia|]. by split. Qed.
Hint Resolve settled_nothing : core.

Lemma settled_more n m good l o : (n <= m)%nat -> settled n good l o -> settled m good l o.
Proof. intros Hnm (? & ? & ?). split; [lia|]. by split. Qed.

Lemma settled_mono n (good good' : SignedTransaction -> Prop) l o :
  (forall s, good s -> good' s) -> settled n good l o -> settled n good' l o.
Proof. intros Hg (? & ? & ?). split; [done|]. split; [by eapply Forall_impl|done]. Qed.

(** Earlier failed attempts are counted in. *)
Lemma settled_after n good f l o :
  (length f <= n)%nat -> Forall good f.*1 -> all_failed f -> settled 1 good l o ->
  settled (Datatypes.S n) good (f ++ l) o.
Proof.
  intros Hn Hgood Hf (Hlen & Hg & Ho). split; [rewrite length_app; lia|].
  split; [rewrite fmap_app; by apply Forall_app|]. destruct o as [resp|e|].
  - destruct Ho as (f' & tx & -> & Hf' & Htx). exists (f ++ f')%list, tx.
    rewrite (assoc_L (++)). split; [done|]. split; [by apply all_failed_app|done].
  - by apply all_failed_app.
  - by apply all_failed_app.
Qed.

Lemma runs_event {A} (Q : sends -> A -> Prop) cfg l kind reason txHash wallet data k :
  at_most_one l -> exec_runs Q l (k tt) ->
  exec_runs Q l (custody_event cfg kind reason txHash wallet data ≫= k).
Proof. intros. by apply runs_ignore. Qed.

(** ** One attempt *)

Lemma sign_and_send_settled cfg url key from network chainID r data tx good :
  (forall h, good {| st_tx := tx; st_chainID := chainID; st_hash := h |}) ->
  exec_runs (settled 1 good) [] (sign_and_send cfg url key from network chainID r data tx).
Proof.
  intros Hgood. unfold sign_and_send, SignTx.
  destruct (tx_signature tx chainID key) as [h|e]; cbn [mbind result_bind].
  2: { apply runs_ignore; [auto|done|]. apply runs_ret; auto. }
  set (signed := Build_SignedTransaction tx chainID h).
  assert (forall (b : bool) (o : outcome TransferResponse), (if b then exists resp, o = Return resp /\
                         TxHash resp = hash_Hex (st_hash signed) else exists e, o = Fail e) ->
          settled 1 good [(signed, b)] o) as Hone.
  { intros b o Ho. split; [done|]. split; [constructor; [apply Hgood|constructor]|].
    destruct b.
    - destruct Ho as (resp & -> & Htx). by exists [], signed.
    - destruct Ho as [e ->]. by apply Forall_singleton. }
  apply runs_op; [auto|done|]. intros [u|e] _; cbn [sent_by is_ok app].
  - assert (at_most_one [(signed, true)]) as Hat by (apply le_n).
    apply runs_ignore; [done..|]. apply runs_ignore; [done..|]. apply runs_event; [done|].
    apply runs_ret; [done|]. apply (Hone true). by eexists.
  - assert (at_most_one [(signed, false)]) as Hat by (apply Nat.le_0_l).
    apply runs_ignore; [done..|]. apply runs_ignore; [done..|].
    apply runs_ret; [done|]. apply (Hone false). by eexists.
Qed.

Lemma reserve_nonce_settled cfg url from network data k good :
  (forall nonce gasPrice, exec_runs (settled 1 good) [] (k nonce gasPrice)) ->
  exec_runs (settled 1 good) [] (reserve_nonce cfg url from network data k).
Proof.
  intros Hk. apply runs_quiet; [auto|done..|]. intros pending _.
  apply runs_or_fail; [intros; by apply runs_ret; auto|]. intros p _.
  apply runs_quiet; [auto|done..|]. intros reserved _.
  apply runs_or_fail; [intros; by apply runs_ret; auto|]. intros nonce _.
  apply runs_event; [auto|]. apply runs_quiet; [auto|done..|]. intros price _.
  apply runs_or_fail; [intros; by apply runs_ret; auto|]. intros. apply Hk.
Qed.

Lemma check_chain_settled url what ok k good :
  (forall c, ok c = true -> exec_runs (settled 1 good) [] (k c)) ->
  exec_runs (settled 1 good) [] (check_chain url what ok k).
Proof.
  intros Hk. apply runs_quiet; [auto|done..|]. intros chain _.
  apply runs_or_fail; [intros; by apply runs_ret; auto|]. intros c _.
  destruct (ok c) eqn:Hc; [by apply Hk|]. apply runs_ret; auto.
Qed.

(** [EstimateGas], then the signature. *)
Lemma estimate_settled url from to value data (k : result Z -> prog eff (outcome TransferResponse))
    good :
  (forall g, exec_runs (settled 1 good) [] (k g)) ->
  exec_runs (settled 1 good) [] (g ← net_call (NEstimateGas url from to value data); k g).
Proof. intros Hk. apply runs_quiet; [auto|done..|]. intros g _. apply Hk. Qed.

(** ** The loop over the fleet *)

Lemma runs_fleet_failure {A} (Q : sends -> A -> Prop) cfg l id e k :
  at_most_one l -> exec_runs Q l (k tt) ->
  exec_runs Q l (record_fleet_failure cfg id e ≫= k).
Proof.
  intros Hl Hk. unfold record_fleet_failure. destruct (RPCFleet cfg); [|done].
  apply runs_quiet; [done..|]. by intros [] _.
Qed.

Lemma try_handles_settled cfg withClient good hs : forall lastErr n f,
  (forall url, exec_runs (settled 1 good) [] (withClient url)) ->
  (length f <= n)%nat -> Forall good f.*1 -> all_failed f ->
  exec_runs (settled (length hs + n) good) f (try_handles cfg withClient lastErr hs).
Proof.
  induction hs as [|h hs IH]; intros lastErr n f Hclient Hlen Hgood Hf; cbn [try_handles].
  { apply runs_ret; [auto|]. cbn. split; [done|]. by split. }
  apply runs_quiet; [auto|done..|]. intros start _.
  apply runs_quiet; [auto|done..|]. intros [u|e] _.
  2: { apply runs_fleet_failure; [auto|].
       eapply runs_mono; [|by apply (IH _ n)]. intros l o _. apply settled_more. cbn. lia. }
  apply runs_bind.
  pose proof (runs_frame exec_op at_most_one _ f [] _ (fun n => at_most_one_frame f n Hf)
                (Hclient (h_url h))) as Hrun.
  rewrite (right_id_L [] (++)) in Hrun. revert Hrun. apply runs_mono.
  intros l o Hl (m & -> & Hm). destruct o as [resp|e|].
  - apply runs_quiet; [done..|]. intros t _. apply runs_bind.
    unfold record_fleet_success.
    assert (settled (length (h :: hs) + n) good (f ++ m) (Return resp)) as Hs
      by (eapply settled_more; [|by apply (settled_after n)]; cbn; lia).
    destruct (RPCFleet cfg); [|by apply runs_ret].
    apply (runs_quiet _ _ _ _ (EFleetSuccess _ _) Ret); [done..|]. intros [] _. by apply runs_ret.
  - apply runs_fleet_failure; [done|]. destruct Hm as (Hm1 & Hm2 & Hm3).
    eapply runs_mono; [|apply (IH _ (Datatypes.S n))]; [|done|..].
    + intros l o _. apply settled_more. cbn. lia.
    + rewrite length_app. lia.
    + rewrite fmap_app. by apply Forall_app.
    + by apply all_failed_app.
  - apply runs_ret; [done|].
    eapply settled_more; [|by apply (settled_after n)]. cbn; lia.
Qed.

Lemma fleet_candidates_settled cfg (k : option (list rpcHandle) -> prog eff (outcome TransferResponse))
    Q :
  (forall hs, (length (default [] hs) <= 2)%nat -> exec_runs Q [] (k hs)) ->
  exec_runs Q [] (fleet_candidates cfg ≫= k).
Proof.
  intros Hk. unfold fleet_candidates. destruct (RPCFleet cfg).
  - apply runs_quiet; [auto|done..|]. intros hs Hhs. apply Hk. destruct hs; cbn; [done|lia].
  - apply (runs_quiet _ _ _ _ ENow); [auto|done..|]. intros t _.
    apply (runs_quiet _ _ _ _ ENow); [auto|done..|]. intros t' _. apply Hk.
    destruct (sendCandidates t' _ _) as [[hs f]|] eqn:Hs; cbn; [|lia].
    by eapply sendCandidates_length.
Qed.

(** In simulation nothing is broadcast; otherwise at most one transaction for
    each of the two endpoints offered. *)
Definition executed cfg (good : SignedTransaction -> Prop) (l : sends)
    (o : outcome TransferResponse) : Prop :=
  if AllowSimulation cfg then l = [] else settled 2 good l o.

Lemma executed_nothing cfg good e : executed cfg good [] (Fail e).
Proof. unfold executed. by destruct (AllowSimulation cfg). Qed.
Hint Resolve executed_nothing : core.

Lemma over_fleet_executed cfg simulated network withClient good :
  (forall key from url, exec_runs (settled 1 good) [] (withClient key from url)) ->
  exec_runs (executed cfg good) [] (over_fleet cfg simulated network withClient).
Proof.
  intros Hclient. unfold over_fleet. apply runs_or_fail; [intros; by apply runs_ret; auto|].
  intros key _. unfold executed. destruct (AllowSimulation cfg); [by apply runs_ret; auto|].
  apply fleet_candidates_settled. intros [hs|] Hlen; cbn in Hlen.
  - pose proof (try_handles_settled cfg (withClient key (PubkeyToAddress key)) good hs None 0 []
                  (Hclient _ _) (le_n 0) (Forall_nil_2 _) all_failed_nil) as Hr.
    revert Hr. apply runs_mono. intros l o _. apply settled_more. lia.
  - apply runs_ret; [auto|]. split; [cbn; lia|]. by split.
Qed.

Lemma on_evm_executed cfg network k good :
  exec_runs (executed cfg good) [] k ->
  exec_runs (executed cfg good) [] (on_evm network k).
Proof. intros Hk. unfold on_evm. destruct (evm_network network); [done|]. apply runs_ret; auto. Qed.

(** ** What each kind of request broadcasts *)

(** The transaction pays [Amount], in units of the token or of the chain's coin,
    to [To]. *)
Definition pays_transfer cfg (req : TransferRequest) (network : string) (s : SignedTransaction) :
    Prop :=
  let tokenContract := normalizedTokenContract cfg req network in
  let token := HexToAddress tokenContract in
  let to := HexToAddress (tr_To req) in
  let tx := st_tx s in
  (network = "BSC"%string -> st_chainID s = 56) /\
  (if negb (String.eqb (TrimSpace tokenContract) "") && negb (bool_decide (token = address_zero))
   then exists amount, parseUnits (tr_Amount req) (TokenDecimals cfg) = Ok amount /\
     tx_to tx = token /\ tx_value tx = 0 /\ erc20TransferData to amount = Some (tx_data tx)
   else parseUnits (tr_Amount req) 18 = Ok (tx_value tx) /\ tx_to tx = to /\ tx_data tx = []).

Definition calls_contract (req : ContractCallRequest) (network : string) (s : SignedTransaction) :
    Prop :=
  (network = "BSC"%string -> st_chainID s = 56) /\
  tx_to (st_tx s) = HexToAddress (cc_To req) /\ tx_value (st_tx s) = 0 /\
  decodeHexData (cc_Data req) = Ok (tx_data (st_tx s)).

Definition pays_settlement (req : SettlementExecuteRequest) (amount : Z) (s : SignedTransaction) :
    Prop :=
  st_chainID s = se_ChainID req /\
  tx_to (st_tx s) = HexToAddress (se_Vault req) /\ tx_value (st_tx s) = 0 /\
  vaultPayoutData (HexToHash (se_OperationID req)) (HexToAddress (se_Token req))
    (HexToAddress (se_Recipient req)) amount = Ok (tx_data (st_tx s)).

Lemma bsc_chain network chainID :
  negb (String.eqb network "BSC") || (chainID =? 56) = true ->
  network = "BSC"%string -> chainID = 56.
Proof. intros Hok ->. by apply Z.eqb_eq. Qed.

Lemma transfer_attempt cfg req network key from url :
  exec_runs (settled 1 (pays_transfer cfg req network)) []
    (executeEVMTransferWithClient cfg req network key from url).
Proof.
  apply check_chain_settled. intros chainID Hchain.
  pose proof (bsc_chain _ _ Hchain) as Hbsc. apply reserve_nonce_settled. intros nonce price.
  unfold pays_transfer. cbv zeta. destruct (negb _ && negb _).
  - apply runs_or_fail; [intros; by apply runs_ret; auto|]. intros amount Hamount.
    destruct (erc20TransferData _ amount) as [data|] eqn:Hdata.
    + apply estimate_settled. intros g. apply sign_and_send_settled. intros h.
      split; [done|]. by exists amount.
    + apply runs_ret; [auto|]. split; [cbn; lia|]. by split.
  - apply runs_or_fail; [intros; by apply runs_ret; auto|]. intros amount Hamount.
    apply estimate_settled. intros g. by apply sign_and_send_settled.
Qed.

Lemma contract_attempt cfg req network key from url :
  exec_runs (settled 1 (calls_contract req network)) []
    (executeEVMContractCallWithClient cfg req network key from url).
Proof.
  apply check_chain_settled. intros chainID Hchain.
  pose proof (bsc_chain _ _ Hchain) as Hbsc. apply reserve_nonce_settled. intros nonce price.
  apply runs_or_fail; [intros; by apply runs_ret; auto|]. intros data Hdata.
  apply estimate_settled. intros g. by apply sign_and_send_settled.
Qed.

Lemma settlement_attempt cfg req network amount key from url :
  exec_runs (settled 1 (pays_settlement req amount)) []
    (executeEVMSettlementWithClient cfg req network amount key from url).
Proof.
  apply check_chain_settled. intros chainID ->%Z.eqb_eq. apply reserve_nonce_settled.
  intros nonce price. apply runs_or_fail; [intros; by apply runs_ret; auto|]. intros data Hdata.
  apply estimate_settled. intros g. by apply sign_and_send_settled.
Qed.

(** The treasury checks broadcast nothing. *)
Lemma treasury_limits_quiet cfg next data Q :
  (forall r, Q [] r) -> exec_runs Q [] (treasury_limits cfg next data).
Proof.
  intros HQ. unfold treasury_limits.
  destruct (fltb fzero (TreasuryLockThreshold cfg) && _); [apply runs_event; [auto|]|
    destruct (fltb fzero (TreasuryMaxDailyOut cfg) && _); [apply runs_event; [auto|]|]];
    apply runs_ret; auto.
Qed.

Lemma treasury_policy_quiet cfg req network Q :
  (forall r, Q [] r) -> exec_runs Q [] (validateTreasuryPolicy cfg req network).
Proof.
  intros HQ. unfold validateTreasuryPolicy.
  destruct (parseFloatAmount _) as [a|e]; [|apply runs_ret; auto].
  apply runs_quiet; [auto|done..|]. intros [o|e] _; [|apply runs_ret; auto].
  by apply treasury_limits_quiet.
Qed.

Lemma contract_treasury_quiet cfg req network Q :
  (forall r, Q [] r) -> exec_runs Q [] (validateContractCallTreasuryPolicy cfg req network).
Proof.
  intros HQ. unfold validateContractCallTreasuryPolicy.
  destruct (String.eqb _ ""); [apply runs_ret; auto|].
  destruct (parseFloatAmount _) as [a|e]; [|apply runs_ret; auto].
  apply runs_quiet; [auto|done..|]. intros [o|e] _; [|apply runs_ret; auto].
  by apply treasury_limits_quiet.
Qed.

Lemma transfer_runs cfg req :
  let network := requestedNetwork cfg req in
  exec_runs (executed cfg (fun s => validateTransferPolicy cfg req network = Ok tt /\
                                    pays_transfer cfg req network s)) []
    (executeTransfer cfg req).
Proof.
  intros network. apply runs_or_fail; [intros; by apply runs_ret; auto|]. intros [] Hok.
  apply runs_bind, treasury_policy_quiet. intros treasury.
  apply runs_or_fail; [intros; by apply runs_ret; auto|]. intros _ _.
  destruct (bool_decide _); [by apply runs_ret; auto|]. apply on_evm_executed, over_fleet_executed.
  intros key from url. eapply runs_mono; [|apply transfer_attempt]. intros l o _.
  by apply settled_mono.
Qed.

Lemma contract_runs cfg req :
  let network := requestedContractNetwork cfg req in
  exec_runs (executed cfg (fun s => validateContractCallPolicy cfg req network = Ok tt /\
                                    calls_contract req network s)) []
    (executeContractCall cfg req).
Proof.
  intros network. apply runs_or_fail; [intros; by apply runs_ret; auto|]. intros [] Hok.
  apply runs_bind, contract_treasury_quiet. intros treasury.
  apply runs_or_fail; [intros; by apply runs_ret; auto|]. intros _ _.
  destruct (bool_decide _); [by apply runs_ret; auto|]. apply on_evm_executed, over_fleet_executed.
  intros key from url. eapply runs_mono; [|apply contract_attempt]. intros l o _.
  by apply settled_mono.
Qed.

Lemma settlement_runs cfg req :
  exec_runs (executed cfg (fun s => exists t network amount,
      validateSettlementExecuteRequest cfg t req = Ok (network, amount) /\
      pays_settlement req amount s)) []
    (executeSettlement cfg req).
Proof.
  apply runs_quiet; [auto|done..|]. intros t _.
  apply runs_or_fail; [intros; by apply runs_ret; auto|]. intros [network amount] Hok.
  apply on_evm_executed, over_fleet_executed. intros key from url.
  eapply runs_mono; [|apply settlement_attempt]. intros l o _. apply settled_mono.
  intros s Hs. by exists t, network, amount.
Qed.

(** ** The monitor *)

Lemma only_startTxLifecycleMonitor (P : forall X, eff X -> Prop) cfg n :
  (forall X (e : store_eff X), key_call e = false -> P X (EStore e)) ->
  (forall X (e : net_eff X), is_send e = false -> P X (ENet e)) ->
  only P (startTxLifecycleMonitor cfg n).
Proof.
  intros Hstore Hnet.
  induction n as [|n IH]; cbn [startTxLifecycleMonitor]; [constructor|].
  apply only_bind; [|done]. apply only_bind; [by apply only_perform, Hstore|].
  intros [[|item items]|e]; [constructor| |constructor].
  induction (RPCURLs cfg) as [|url urls IHu]; cbn [check_on_urls]; [constructor|].
  apply only_bind; [by apply only_perform, Hnet|]. intros [u|e]; [|done].
  generalize (item :: items). intros l.
  induction l as [|i l IHl]; cbn [check_items]; [constructor|].
  apply only_bind; [|done]. apply only_bind; [by apply only_perform, Hnet|].
  intros [[status|]|e]; [|constructor..].
  apply only_bind; [apply only_bind; [by apply only_perform, Hstore|constructor]|].
  intros _. apply only_bind; [by apply only_perform, Hstore|constructor].
Qed.
End Broadcast.
