(* ===== verification/Settlement.v ===== *)
(** * Settlements: what an accepted request guarantees. *)
From S2P Require Export Broadcast.

Section SettlementChecks.
Context `{GoUnicode, Geth, GoText}.
Implicit Types cfg : SignerConfig.
Implicit Types req : SettlementExecuteRequest.

(** The six words an operation id is the digest of. *)
Definition operation_words (req : SettlementExecuteRequest) (amount : Z) : list abi_value := [
  AbiUint256 (i64 (se_ChainID req));
  AbiAddress (HexToAddress (se_Vault req));
  AbiBytes32 (Keccak256 (bytes_of (se_SettlementIntentID req)));
  AbiAddress (HexToAddress (se_Token req));
  AbiAddress (HexToAddress (se_Recipient req));
  AbiUint256 amount].

Lemma settlementOperationID_ok chainID vault intent token recipient amount h :
  settlementOperationID chainID vault intent token recipient amount = Ok h ->
  0 < chainID /\ IsHexAddress vault = true /\ IsHexAddress token = true /\
  IsHexAddress recipient = true /\ 0 < amount /\
  exists encoded,
    abi_Pack [AbiUint256 chainID; AbiAddress (HexToAddress vault);
              AbiBytes32 (Keccak256 (bytes_of intent)); AbiAddress (HexToAddress token);
              AbiAddress (HexToAddress recipient); AbiUint256 amount] = Ok encoded /\
    h = Keccak256 encoded.
Proof.
  unfold settlementOperationID. rewrite !guard_err_bind.
  intros (Hc & Hv & Ht & Hr & Ha & Hpack).
  apply result_bind_ok in Hpack as (? & _ & Hpack).
  apply result_bind_ok in Hpack as (? & _ & Hpack).
  apply result_bind_ok in Hpack as (? & _ & Hpack).
  apply result_bind_ok in Hpack as (encoded & Henc & [= <-]).
  apply negb_false_iff in Hv, Ht, Hr. apply Z.leb_gt in Hc, Ha. naive_solver.
Qed.

(** What an accepted request satisfies; [now] is the time of the check. *)
Record settlement_accepted cfg (now : Time) req (network : string) (amount : Z) : Prop := {
  sa_allowed : network ∈ AllowedNetworks cfg;
  sa_evm : network = "BSC"%string \/ network = "EVM"%string;
  sa_chain : 0 < i64 (se_ChainID req);
  sa_bsc : network = "BSC"%string -> 0 < BSCChainID cfg -> se_ChainID req = u64 (BSCChainID cfg);
  sa_vault : IsHexAddress (se_Vault req) = true /\
             EqualFold (se_Vault req) (BSCTreasuryContract cfg) = true;
  sa_token : IsHexAddress (se_Token req) = true /\
             EqualFold (se_Token req) (BSCUSDTContract cfg) = true;
  sa_tokens : AllowedTokenContracts cfg <> ∅ ->
              ToUpper (TrimSpace (se_Token req)) ∈ AllowedTokenContracts cfg;
  sa_recipient : IsHexAddress (se_Recipient req) = true;
  sa_amount : big_SetString (TrimSpace (se_AmountRaw req)) = Some amount /\ 0 < amount;
  sa_policy : TrimSpace (se_PolicyVersion req) = settlementPolicyVersion;
  sa_expiry : exists expiresAt, parse_expiry (se_ExpiresAt req) = Ok expiresAt /\ now < expiresAt;
  sa_id : exists encoded, abi_Pack (operation_words req amount) = Ok encoded /\
            HexToHash (se_OperationID req) = Keccak256 encoded;
}.

Lemma check_settlement_fields_ok cfg req network :
  check_settlement_fields cfg req network = Ok tt ->
  network ∈ AllowedNetworks cfg /\ (network = "BSC"%string \/ network = "EVM"%string) /\
  (network = "BSC"%string -> 0 < BSCChainID cfg -> se_ChainID req = u64 (BSCChainID cfg)) /\
  EqualFold (se_Vault req) (BSCTreasuryContract cfg) = true /\
  EqualFold (se_Token req) (BSCUSDTContract cfg) = true /\
  (AllowedTokenContracts cfg <> ∅ ->
   ToUpper (TrimSpace (se_Token req)) ∈ AllowedTokenContracts cfg).
Proof.
  unfold check_settlement_fields. rewrite !guard_err_bind.
  intros (Hnet & Hevm & _ & Hbsc & _ & _ & _ & _ & _ & _ & Hvault & _ & _ & Htok & Htoks & _).
  apply negb_false_iff in Hnet, Hevm, Hvault, Htok. apply bool_decide_eq_true in Hnet.
  split; [done|]. split.
  { unfold evm_network in Hevm. apply orb_true_iff in Hevm as [?%String.eqb_eq|?%String.eqb_eq]; auto. }
  split.
  { intros -> Hpos. cbn in Hbsc. apply Z.ltb_lt in Hpos. rewrite Hpos in Hbsc. cbn in Hbsc.
    by apply negb_false_iff, Z.eqb_eq in Hbsc. }
  split; [done|]. split; [done|]. intros Hne. apply andb_false_iff in Htoks as [Hz|Hin].
  - apply Z.ltb_ge in Hz. destruct Hne. apply leibniz_equiv, size_empty_inv. lia.
  - by apply negb_false_iff, bool_decide_eq_true in Hin.
Qed.

Lemma check_settlement_amount_ok req amount :
  check_settlement_amount req = Ok amount ->
  big_SetString (TrimSpace (se_AmountRaw req)) = Some amount /\ 0 < amount.
Proof.
  unfold check_settlement_amount. destruct (big_SetString _) as [z|]; [|done].
  rewrite guard_err_bind. intros [Hz [= <-]]. apply Z.leb_gt in Hz. by split.
Qed.

(** C12: a settlement that passes the checks is for an allowed chain, pays the
    configured token out of the configured vault to an address, for a positive
    amount, before its expiry and under the current policy version; and its
    operation id is the digest of exactly these values. *)
Theorem settlement_sound cfg now req network amount :
  validateSettlementExecuteRequest cfg now req = Ok (network, amount) ->
  network = settlement_network cfg req /\ settlement_accepted cfg now req network amount.
Proof.
  unfold validateSettlementExecuteRequest. intros Hok.
  apply result_bind_ok in Hok as ([] & Hfields & Hok).
  apply result_bind_ok in Hok as (z & Hamount & Hok).
  apply guard_err_bind in Hok as [Hpolicy Hok].
  apply result_bind_ok in Hok as (expiresAt & Hexp & Hok).
  apply guard_err_bind in Hok as [Hnow Hok].
  apply result_bind_ok in Hok as (expected & Hid & Hok).
  apply guard_err_bind in Hok as [Heq [= <- <-]].
  apply check_settlement_fields_ok in Hfields as (? & ? & ? & ? & ? & ?).
  apply check_settlement_amount_ok in Hamount.
  apply settlementOperationID_ok in Hid as (? & ? & ? & ? & ? & encoded & Henc & ->).
  apply negb_false_iff in Hpolicy, Hnow, Heq. apply String.eqb_eq in Hpolicy.
  apply bool_decide_eq_true in Heq. apply Z.ltb_lt in Hnow.
  split; [done|]. constructor; eauto.
Qed.
End SettlementChecks.

(** ** The operation id binds the payment *)

Section Binding.
Context `{GoUnicode, L : GethLaws, GoText}.
Implicit Types cfg : SignerConfig.
Implicit Types req : SettlementExecuteRequest.

Lemma abi_word_length v : length (abi_word v) = 32%nat.
Proof. destruct v; cbn [abi_word]; [apply length_be_bytes|apply length_fit_bytes..]. Qed.

Lemma abi_words_inj vs vs' :
  length vs = length vs' -> (vs ≫= abi_word) = (vs' ≫= abi_word) ->
  Forall2 (fun v v' => abi_word v = abi_word v') vs vs'.
Proof.
  revert vs'. induction vs as [|v vs IH]; intros [|v' vs'] Hlen Heq; try done.
  change (abi_word v ++ (vs ≫= abi_word) = abi_word v' ++ (vs' ≫= abi_word))%list in Heq.
  apply app_inj_1 in Heq as [Hv Heq]; [|by rewrite !abi_word_length].
  constructor; [done|]. apply IH; [by injection Hlen|done].
Qed.

Lemma be_bytes_inj x y : be_bytes 32 x = be_bytes 32 y -> x mod 2 ^ 256 = y mod 2 ^ 256.
Proof. intros E%(f_equal be_value). by rewrite !be_value_bytes in E. Qed.

Lemma fit_bytes_inj n (a b : bytes) :
  (length a <= n)%nat -> length a = length b -> fit_bytes n a = fit_bytes n b -> a = b.
Proof.
  intros Hn Hab. unfold fit_bytes. rewrite <- Hab.
  replace (length a - n)%nat with 0%nat by lia. rewrite !drop_0, <- Hab.
  intros E%app_inj_1; [|done]. by destruct E.
Qed.

Lemma i64_inj x y :
  0 <= x < 2 ^ 64 -> 0 <= y < 2 ^ 64 -> 0 < i64 x -> 0 < i64 y -> i64 x = i64 y -> x = y.
Proof.
  unfold wrap_s. intros Hx Hy Hpx Hpy.
  assert (forall z, 0 <= z < 2 ^ 64 -> 0 < (z + 2 ^ (64 - 1)) mod 2 ^ 64 - 2 ^ (64 - 1) ->
            (z + 2 ^ (64 - 1)) mod 2 ^ 64 - 2 ^ (64 - 1) = z) as Hz.
  { intros z Hz Hp. destruct (Z_lt_ge_dec z (2 ^ 63)).
    - rewrite Z.mod_small; lia.
    - rewrite <- (Z.mod_unique_pos (z + 2 ^ (64 - 1)) (2 ^ 64) 1 (z - 2 ^ 63)) in Hp; lia. }
  by rewrite !Hz.
Qed.

(** C13: two accepted settlements with the same operation id pay the same token
    amount, out of the same vault on the same chain, to the same recipient, for
    the same intent; unless they exhibit a collision of the digest. The amount is
    bound modulo [2^256]. *)
Theorem settlement_id_binds cfg cfg' t t' req req' network network' amount amount' :
  validateSettlementExecuteRequest cfg t req = Ok (network, amount) ->
  validateSettlementExecuteRequest cfg' t' req' = Ok (network', amount') ->
  0 <= se_ChainID req < 2 ^ 64 -> 0 <= se_ChainID req' < 2 ^ 64 ->
  HexToHash (se_OperationID req) = HexToHash (se_OperationID req') ->
  (exists x y, x <> y /\ Keccak256 x = Keccak256 y) \/
  (se_ChainID req = se_ChainID req' /\
   HexToAddress (se_Vault req) = HexToAddress (se_Vault req') /\
   se_SettlementIntentID req = se_SettlementIntentID req' /\
   HexToAddress (se_Token req) = HexToAddress (se_Token req') /\
   HexToAddress (se_Recipient req) = HexToAddress (se_Recipient req') /\
   amount mod 2 ^ 256 = amount' mod 2 ^ 256).
Proof.
  intros [_ Hok]%settlement_sound [_ Hok']%settlement_sound Hr Hr' Hid.
  destruct (sa_id _ _ _ _ _ Hok) as (m & Hm & Hh), (sa_id _ _ _ _ _ Hok') as (m' & Hm' & Hh').
  rewrite Hh, Hh' in Hid. destruct (decide (m = m')) as [->|Hne]; [|left; by exists m, m'].
  rewrite abi_Pack_words in Hm, Hm'.
  assert ((operation_words req amount ≫= abi_word) = (operation_words req' amount' ≫= abi_word))
    as Hw by congruence.
  apply abi_words_inj in Hw; [|done]. unfold operation_words in Hw.
  rewrite !Forall2_cons in Hw. destruct Hw as (Hc & Hv & Hi & Ht & Hre & Ha & _).
  apply be_bytes_inj in Hc, Ha.
  apply fit_bytes_inj in Hv, Hi, Ht, Hre;
    try (rewrite ?HexToAddress_length, ?Keccak256_length; lia).
  destruct (decide (bytes_of (se_SettlementIntentID req) = bytes_of (se_SettlementIntentID req')))
    as [E|E]; [|left; eexists _, _; exact (conj E Hi)]. apply bytes_of_inj in E.
  right. split; [|exact (conj Hv (conj E (conj Ht (conj Hre Ha))))].
  pose proof (sa_chain _ _ _ _ _ Hok) as Hp. pose proof (sa_chain _ _ _ _ _ Hok') as Hp'.
  apply i64_inj; [done..|].
  pose proof (i64_range (se_ChainID req)). pose proof (i64_range (se_ChainID req')).
  unfold max_i64 in *. by rewrite !Z.mod_small in Hc by lia.
Qed.
End Binding.

(** ** What is broadcast *)

(** C10: for a settlement, one call of the vault's [payout] is broadcast for each
    endpoint tried, at most two, on the chain of the request and with the values
    that were checked; the response carries the hash of the last, which the node
    took. A request that fails the checks broadcasts nothing. *)
Theorem settlement_broadcasts {S} `{GoUnicode, Geth, GoText, SignerStore S} env cfg req
    (w : world S) :
  AllowSimulation cfg = false ->
  let (o, w') := execute env (executeSettlement cfg req) w in
  match validateSettlementExecuteRequest cfg (now env w) req with
  | Err e => o = Fail e /\ w_sent w' = w_sent w
  | Ok (network, amount) =>
      exists l, w_sent w' = (w_sent w ++ l)%list /\ settled 2 (pays_settlement req amount) l o
  end.
Proof.
  intros Hsim. unfold executeSettlement. rewrite execute_op. cbn [handle fst snd].
  destruct (validateSettlementExecuteRequest cfg (now env w) req) as [[network amount]|e];
    cbn [or_fail]; [|done].
  assert (runs exec_op at_most_one (executed cfg (pays_settlement req amount)) []
            (on_evm network (executeEVMSettlement cfg req network amount))) as Hrun
    by (apply on_evm_executed, over_fleet_executed; intros; apply settlement_attempt).
  destruct (runs_execute env _ _ _ _ _ (tick w) Hrun) as (l & Hsent & _ & Hl).
  destruct (execute env _ _) as [o w']. unfold executed in Hl. rewrite Hsim in Hl. by exists l.
Qed.

(** C11: for a transfer, one payment of the requested amount to the requested
    address is broadcast for each endpoint tried, at most two, on BSC only under
    chain id 56; the response carries the hash of the last, which the node took. A
    request that fails the policy does nothing at all. *)
Theorem transfer_broadcasts {S} `{GoUnicode, Geth, GoText, SignerStore S} env cfg req
    (w : world S) :
  AllowSimulation cfg = false ->
  let network := requestedNetwork cfg req in
  let (o, w') := execute env (executeTransfer cfg req) w in
  match validateTransferPolicy cfg req network with
  | Err e => o = Fail e /\ w' = w
  | Ok _ =>
      exists l, w_sent w' = (w_sent w ++ l)%list /\
        settled 2 (pays_transfer cfg req network) l o
  end.
Proof.
  intros Hsim network. pose proof (transfer_runs cfg req) as Hrun. revert Hrun.
  unfold executeTransfer. fold network.
  destruct (validateTransferPolicy cfg req network) as [[]|e]; cbn [or_fail]; [|done].
  intros Hrun. destruct (runs_execute env _ _ _ _ _ w Hrun) as (l & Hsent & _ & Hl).
  destruct (execute env _ _) as [o w']. unfold executed in Hl. rewrite Hsim in Hl.
  exists l. split; [done|]. eapply settled_mono; [|exact Hl]. by intros s [_ Hs].
Qed.

(** ** Examples *)

Definition raw_amount : Z := 25 * 10 ^ 18.
Definition settlement_example : SettlementExecuteRequest :=
  example_settlement (example_operation raw_amount) (itoa raw_amount).

Lemma settlement_example_accepted :
  @validateSettlementExecuteRequest ascii_unicode ref_geth example_text example_config boot_time
    settlement_example = Ok ("BSC"%string, raw_amount).
Proof. vm_compute. reflexivity. Qed.

Lemma settlement_sound_witness :
  "BSC"%string = @settlement_network ascii_unicode example_config settlement_example /\
  @settlement_accepted ascii_unicode ref_geth example_text example_config boot_time
    settlement_example "BSC" raw_amount.
Proof.
  refine (@settlement_sound ascii_unicode ref_geth example_text example_config boot_time
            settlement_example "BSC" raw_amount _). vm_compute. reflexivity.
Defined.

Lemma settlement_id_binds_witness :
  (exists x y, x <> y /\ sha256 x = sha256 y) \/
  (se_ChainID settlement_example = 56 /\
   @HexToAddress ref_geth (se_Vault settlement_example) =
   @HexToAddress ref_geth "0x1111111111111111111111111111111111111111" /\
   se_SettlementIntentID settlement_example = "intent-1"%string /\
   @HexToAddress ref_geth (se_Token settlement_example) =
   @HexToAddress ref_geth "0x55d398326f99059fF775485246999027B3197955" /\
   @HexToAddress ref_geth (se_Recipient settlement_example) =
   @HexToAddress ref_geth "0x829829508824f81d939F8CFFdCac71dE47a808bE" /\
   raw_amount mod 2 ^ 256 = raw_amount mod 2 ^ 256).
Proof.
  refine (@settlement_id_binds ascii_unicode ref_geth ref_geth_laws example_text
            example_config example_config boot_time boot_time settlement_example
            settlement_example "BSC" "BSC" raw_amount raw_amount _ _ _ _ _).
  - exact settlement_example_accepted.
  - exact settlement_example_accepted.
  - split; [discriminate|reflexivity].
  - split; [discriminate|reflexivity].
  - reflexivity.
Defined.

(** The environment of the examples: every call is answered and every broadcast
    is taken. *)
Definition good_environment : environment := example_environment [] (Ok []) all_sent.

Lemma settlement_broadcasts_witness :
  let w := example_fleet_world boot_time in
  let (o, w') := @execute _ (@mem_store list_map_order) good_environment _
                   (@executeSettlement ascii_unicode ref_geth example_text example_config
                      settlement_example) w in
  match @validateSettlementExecuteRequest ascii_unicode ref_geth example_text example_config
          (now good_environment w) settlement_example with
  | Err e => o = Fail e /\ w_sent w' = w_sent w
  | Ok (network, amount) =>
      exists l, w_sent w' = (w_sent w ++ l)%list /\
        @settled ref_geth 2 (@pays_settlement ref_geth settlement_example amount) l o
  end.
Proof.
  exact (@settlement_broadcasts _ ascii_unicode ref_geth example_text (@mem_store list_map_order)
           good_environment example_config settlement_example (example_fleet_world boot_time)
           eq_refl).
Defined.

Lemma transfer_broadcasts_witness :
  let w := example_fleet_world boot_time in
  let (o, w') := @execute _ (@mem_store list_map_order) good_environment _
                   (@executeTransfer ascii_unicode ref_geth example_config
                      (example_transfer "12.5")) w in
  match @validateTransferPolicy ascii_unicode ref_geth example_config (example_transfer "12.5")
          "BSC" with
  | Err e => o = Fail e /\ w' = w
  | Ok _ =>
      exists l, w_sent w' = (w_sent w ++ l)%list /\
        @settled ref_geth 2
          (@pays_transfer ref_geth example_config (example_transfer "12.5") "BSC") l o
  end.
Proof.
  exact (@transfer_broadcasts _ ascii_unicode ref_geth example_text (@mem_store list_map_order)
           good_environment example_config (example_transfer "12.5")
           (example_fleet_world boot_time) eq_refl).
Defined.

(** In the example one transaction is taken, to the vault and to the token. *)
Example settlement_sends_one :
  (fun s => (tx_to (st_tx s.1), tx_nonce (st_tx s.1), s.2)) <$>
  w_sent (@execute _ (@mem_store list_map_order) good_environment _
            (@executeSettlement ascii_unicode ref_geth example_text example_config
               settlement_example) (example_fleet_world boot_time)).2
  = [(replicate 20 17, 7, true)].
Proof. vm_compute. reflexivity. Qed.

Example transfer_sends_one :
  (fun s => (tx_to (st_tx s.1), drop 60 (tx_data (st_tx s.1)), s.2)) <$>
  w_sent (@execute _ (@mem_store list_map_order) good_environment _
            (@executeTransfer ascii_unicode ref_geth example_config (example_transfer "12.5"))
            (example_fleet_world boot_time)).2
  = [(@HexToAddress ref_geth (BSCUSDTContract example_config),
      [173; 120; 235; 197; 172; 98; 0; 0], true)].
Proof. vm_compute. reflexivity. Qed.
