(* ===== verification/Treasury.v ===== *)
(** * The treasury limits, and the chain nonces a failed execution leaves. *)
From S2P Require Export Settlement.

(** ** The limits *)

(** [next] is over one of the configured limits. *)
Definition over_limit (cfg : SignerConfig) (next : f64) : Prop :=
  exists limit, limit ∈ [TreasuryLockThreshold cfg; TreasuryMaxDailyOut cfg] /\
    fltb fzero limit = true /\ fltb limit next = true.

(** The day's outflow with the amount of a transfer is over a limit, or it
    cannot be known. *)
Definition treasury_refuses {S} `{GoUnicode, SignerStore S} (cfg : SignerConfig)
    (req : TransferRequest) (c : call) (s : S) : Prop :=
  match parseFloatAmount (tr_Amount req),
        (DailySubmittedOutflow c (normalizedTokenContract cfg req (requestedNetwork cfg req))
           (requestedNetwork cfg req) s).1 with
  | Ok amount, Ok outflow => over_limit cfg (fadd outflow amount)
  | _, _ => True
  end.

Section Limits.
Context {S : Type} `{GoUnicode, Geth, GoText, SignerStore S}.
Variable env : environment.
Implicit Types cfg : SignerConfig.
Implicit Types w : world S.

Lemma execute_event {A} cfg kind reason txHash wallet data (k : unit -> prog eff A) w :
  exists s, execute env (custody_event cfg kind reason txHash wallet data ≫= k) w =
    execute env (k tt) (tick (set_store s w)).
Proof.
  rewrite execute_bind. unfold custody_event, ignore, store_call. rewrite execute_op.
  cbn [handle handle_store]. destruct (RecordCustodyEvent _ _ _) as [r s]. by exists s.
Qed.

Lemma treasury_limits_over cfg next data w :
  over_limit cfg next ->
  exists e w', execute env (treasury_limits cfg next data) w = (Err e, w') /\
    w_sent w' = w_sent w.
Proof.
  intros (limit & Hin & Hpos & Hlt). unfold treasury_limits.
  destruct (fltb fzero (TreasuryLockThreshold cfg) && fltb (TreasuryLockThreshold cfg) next)
    eqn:Hlock; [|destruct (fltb fzero (TreasuryMaxDailyOut cfg) &&
                           fltb (TreasuryMaxDailyOut cfg) next) eqn:Hmax].
  - edestruct (@execute_event (result unit)) as [s ->]. by eexists _, _.
  - edestruct (@execute_event (result unit)) as [s ->]. by eexists _, _.
  - apply elem_of_cons in Hin as [->|Hin]; [by rewrite Hpos, Hlt in Hlock|].
    apply list_elem_of_singleton in Hin as ->. by rewrite Hpos, Hlt in Hmax.
Qed.

(** A transfer that would bring the day's outflow over the daily limit or
    the lockdown threshold, or whose outflow the store cannot tell, fails and
    broadcasts nothing. *)
Theorem treasury_limit_stops_transfer cfg req w :
  treasury_refuses cfg req (the_call env w) (w_store w) ->
  exists e w', execute env (executeTransfer cfg req) w = (Fail e, w') /\ w_sent w' = w_sent w.
Proof.
  unfold treasury_refuses, executeTransfer. intros Hover.
  destruct (validateTransferPolicy _ _ _) as [[]|e]; cbn [or_fail]; [|by eexists _, _].
  rewrite execute_bind. unfold validateTreasuryPolicy.
  destruct (parseFloatAmount _) as [a|e]; [|by eexists _, _].
  unfold store_call. rewrite execute_op. cbn [handle handle_store].
  destruct (DailySubmittedOutflow _ _ _ _) as [[o|e] s]; cbn [fst snd] in Hover |- *.
  - destruct (treasury_limits_over cfg (fadd o a) [] (tick (set_store s w)) Hover)
      as (e & w' & -> & Hsent). by eexists _, _.
  - by eexists _, _.
Qed.

Lemma treasury_limits_under cfg next data w :
  ~ over_limit cfg next ->
  execute env (treasury_limits cfg next data) w = (Ok tt, w).
Proof.
  intros Hunder. unfold treasury_limits.
  destruct (fltb fzero (TreasuryLockThreshold cfg) && _) eqn:Hl.
  { apply andb_true_iff in Hl as [??]. destruct Hunder. eexists. split; [apply list_elem_of_here|done]. }
  destruct (fltb fzero (TreasuryMaxDailyOut cfg) && _) eqn:Hm; [|done].
  apply andb_true_iff in Hm as [??]. destruct Hunder. eexists.
  split; [apply list_elem_of_further, list_elem_of_here|done].
Qed.

Lemma execute_treasury cfg req network amount outflow w :
  parseFloatAmount (tr_Amount req) = Ok amount ->
  (DailySubmittedOutflow (the_call env w) (normalizedTokenContract cfg req network) network
    (w_store w)).1 = Ok outflow ->
  exists s, execute env (validateTreasuryPolicy cfg req network) w =
    execute env (treasury_limits cfg (fadd outflow amount) []) (tick (set_store s w)).
Proof.
  intros Ha Ho. unfold validateTreasuryPolicy. rewrite Ha. unfold store_call. rewrite execute_op.
  cbn [handle handle_store]. destruct (DailySubmittedOutflow _ _ _ _) as [r s]. cbn in Ho |- *.
  rewrite Ho. by exists s.
Qed.
End Limits.

(** ** What the in-memory store counts *)

Section MemOutflow.
Context {O : GoMapOrder}.
Implicit Types s : memorySignerStore.

(** The record is one [DailySubmittedOutflow] adds up. *)
Definition counted (token network : string) (item : SignerTransaction) : Prop :=
  sx_Token item = token /\ sx_Network item = network /\ counts_as_outflow item = true.

Lemma outflow_step_counted token network total item :
  counted token network item -> outflow_step token network total item = add_amount total (sx_Amount item).
Proof. intros (<- & <- & Hc). unfold outflow_step. by rewrite !String.eqb_refl, Hc. Qed.

Lemma outflow_step_other token network total item :
  ~ counted token network item -> outflow_step token network total item = total.
Proof.
  unfold outflow_step, counted. intros Hn.
  destruct (String.eqb_spec (sx_Token item) token) as [E1|]; [|done].
  destruct (String.eqb_spec (sx_Network item) network) as [E2|]; [|done].
  destruct (counts_as_outflow item); [|done]. by destruct Hn.
Qed.

Lemma outflow_nan_stays token network l :
  foldl (outflow_step token network) S754_nan l = S754_nan.
Proof.
  induction l as [|item l IH]; [done|]. cbn [foldl]. rewrite <- IH at 2. f_equal.
  unfold outflow_step, add_amount. destruct (_ || _); [done|].
  destruct (ParseFloat _); [by rewrite fadd_nan_l|done].
Qed.

Lemma elem_of_ranged c s item :
  item ∈ ranged c s <-> exists hash, transactions s !! hash = Some item.
Proof.
  unfold ranged. rewrite list_elem_of_fmap. setoid_rewrite map_range_perm.
  split; [intros ([h t] & -> & Hin)|intros [h Hh]].
  - exists h. by apply elem_of_map_to_list in Hin.
  - exists (h, item). by rewrite elem_of_map_to_list.
Qed.

Lemma outflow_nan c token network s hash item :
  transactions s !! hash = Some item -> counted token network item ->
  ParseFloat (sx_Amount item) = Some S754_nan ->
  mem_DailySubmittedOutflow c token network s = (Ok S754_nan, s).
Proof.
  intros Hs Hc Hnan. unfold mem_DailySubmittedOutflow. do 2 f_equal.
  assert (item ∈ ranged c s) as (l1 & l2 & ->)%list_elem_of_split by (apply elem_of_ranged; eauto).
  rewrite foldl_app. cbn [foldl]. rewrite outflow_step_counted by done.
  unfold add_amount. rewrite Hnan, fadd_nan_r. apply outflow_nan_stays.
Qed.

Lemma outflow_none c token network s :
  (forall hash item, transactions s !! hash = Some item -> ~ counted token network item) ->
  mem_DailySubmittedOutflow c token network s = (Ok fzero, s).
Proof.
  intros Hnone. unfold mem_DailySubmittedOutflow. do 2 f_equal.
  assert (Forall (fun item => ~ counted token network item) (ranged c s)) as Hall.
  { apply Forall_forall. intros item [h Hh]%elem_of_ranged. by eapply Hnone. }
  induction Hall as [|item l Hi _ IH]; [done|]. cbn [foldl]. by rewrite outflow_step_other.
Qed.
End MemOutflow.

Section MemTreasury.
Context `{GoUnicode, Geth, GoText, O : GoMapOrder}.
Variable env : environment.
Implicit Types cfg : SignerConfig.
Implicit Types w : world memorySignerStore.

(** One recorded amount that parses as NaN, and a contract call may declare
    one, switches both limits off for its token and network for as long as the
    store keeps the record: every later amount passes. *)
Theorem nan_record_disables_limits cfg req network hash item amount w :
  transactions (w_store w) !! hash = Some item ->
  counted (normalizedTokenContract cfg req network) network item ->
  ParseFloat (sx_Amount item) = Some S754_nan ->
  parseFloatAmount (tr_Amount req) = Ok amount ->
  (execute env (validateTreasuryPolicy cfg req network) w).1 = Ok tt.
Proof.
  intros Hs Hc Hnan Ha.
  destruct (execute_treasury env cfg req network amount S754_nan w) as [s ->]; [done| |].
  { cbn [DailySubmittedOutflow mem_store]. by erewrite outflow_nan. }
  rewrite treasury_limits_under; [done|]. rewrite fadd_nan_l.
  intros (limit & _ & _ & Hlt). by rewrite fltb_nan_r in Hlt.
Qed.

(** The outflow is looked up by the spelling of the token's address. While
    nothing is recorded under the spelling of a request, its amount is held
    against the limits alone, whatever was paid out in the same token under
    another spelling. *)
Theorem outflow_by_spelling cfg req network amount w :
  (forall hash item, transactions (w_store w) !! hash = Some item ->
     sx_Token item <> normalizedTokenContract cfg req network) ->
  parseFloatAmount (tr_Amount req) = Ok amount ->
  ~ over_limit cfg (fadd fzero amount) ->
  (execute env (validateTreasuryPolicy cfg req network) w).1 = Ok tt.
Proof.
  intros Hnone Ha Hunder.
  destruct (execute_treasury env cfg req network amount fzero w) as [s ->]; [done| |].
  - cbn [DailySubmittedOutflow mem_store]. rewrite outflow_none; [done|].
    intros h item Hh (Htok & _). by eapply Hnone.
  - by rewrite treasury_limits_under.
Qed.
End MemTreasury.

(** ** Nonces of executions that stop half-way *)

Section Leak.
Context `{GoUnicode, Geth, GoText, O : GoMapOrder}.
Variable env : environment.
Implicit Types w : world memorySignerStore.

Lemma mem_reserve_again c c' wallet network p n s s' :
  mem_ReserveChainNonce c wallet network p s = (Ok n, s') -> 0 <= n < 2 ^ 64 - 1 -> p <= n ->
  (mem_ReserveChainNonce c' wallet network p s').1 = Ok (n + 1).
Proof.
  unfold mem_ReserveChainNonce. intros Hr Hn Hp. injection Hr as Hnext <-. rewrite Hnext.
  cbn [chainNonces set_chainNonces set_events]. rewrite lookup_insert_eq. cbn [fst].
  rewrite wrap_u_small by lia. by destruct (Z.ltb_spec p (n + 1)); [|lia].
Qed.

Lemma mem_reserve_at_least c wallet network p n s s' :
  mem_ReserveChainNonce c wallet network p s = (Ok n, s') -> p <= n.
Proof.
  unfold mem_ReserveChainNonce. intros [= <- _].
  destruct (chainNonces s !! _) as [cur|]; [|lia]. destruct (Z.ltb_spec p (u64 (cur + 1))); lia.
Qed.

Lemma execute_mem_event {A} cfg kind reason txHash wallet data (k : unit -> prog eff A) w :
  exists es, execute env (custody_event cfg kind reason txHash wallet data ≫= k) w =
    execute env (k tt) (tick (set_store (set_events es (w_store w)) w)).
Proof.
  rewrite execute_bind. unfold custody_event, ignore, store_call. rewrite execute_op. by eexists.
Qed.

(** When the gas price cannot be had, the nonce reserved just before is not
    given back: the attempt fails, nothing is broadcast under that nonce, and the
    next reservation is one past it. *)
Theorem failed_gas_price_leaks_nonce cfg req network key from url chain p n e w :
  net env (w_tick w) _ (NChainID url) = Ok chain -> (network = "BSC"%string -> chain = 56) ->
  net env (w_tick w + 1)%nat _ (NPendingNonceAt url from) = Ok p ->
  (forall c, (ReserveChainNonce c (address_Hex from) network p (w_store w)).1 = Ok n) ->
  0 <= n < 2 ^ 64 - 1 ->
  net env (w_tick w + 4)%nat _ (NSuggestGasPrice url) = Err e ->
  exists w', execute env (executeEVMTransferWithClient cfg req network key from url) w
               = (Fail (wrapped "falha ao obter gas price" e), w') /\
    w_sent w' = w_sent w /\
    forall c, (ReserveChainNonce c (address_Hex from) network p (w_store w')).1 = Ok (n + 1).
Proof.
  intros Hchain Hbsc Hp Hres Hn Hgas.
  unfold executeEVMTransferWithClient, check_chain, net_call. rewrite execute_op.
  cbn [handle fst snd record_net]. rewrite Hchain. cbn [or_fail].
  assert (negb (String.eqb network "BSC") || (chain =? 56) = true) as ->.
  { destruct (String.eqb_spec network "BSC"); [|done]. by rewrite Hbsc. }
  unfold reserve_nonce, net_call. rewrite execute_op. cbn [handle fst snd record_net].
  change (w_tick (tick w)) with (w_tick w + 1)%nat. rewrite Hp. cbn [or_fail].
  unfold store_call. rewrite execute_op. cbn [handle handle_store].
  specialize (Hres (the_call env (tick (tick w)))).
  change (w_store (tick (tick w))) with (w_store w).
  cbn [ReserveChainNonce mem_store] in Hres |- *.
  destruct (mem_ReserveChainNonce (the_call env (tick (tick w))) _ _ _ _) as [r s] eqn:Hr.
  cbn [fst snd] in Hres |- *. subst r. cbn [or_fail].
  edestruct (@execute_mem_event (outcome TransferResponse)) as [es ->]. rewrite execute_op.
  cbn [handle fst snd record_net].
  replace (w_tick _) with (w_tick w + 4)%nat by (cbn; lia). rewrite Hgas. cbn [or_fail].
  eexists. split; [reflexivity|]. split; [done|]. intros c.
  exact (mem_reserve_again _ c _ _ p n _ _ Hr Hn (mem_reserve_at_least _ _ _ _ _ _ _ Hr)).
Qed.
End Leak.
