(* ===== verification/Scenarios.v ===== *)
(** * Closed runs: how the parts behave together.

    Each theorem runs the definitions of [Exec] on the in-memory store against a
    network that answers every call ([good_environment]); the chain has not yet
    mined anything, so the pending nonce it reports stays 7. *)
From S2P Require Export Treasury.

#[local] Existing Instance ascii_unicode.
#[local] Existing Instance ref_geth.
#[local] Existing Instance example_text.
#[local] Existing Instance mem_store.
#[local] Existing Instance list_map_order.

Definition with_daily_limit (limit : f64) (c : SignerConfig) : SignerConfig := {|
  AppEnv := AppEnv c; Port := Port c; DatabaseURL := DatabaseURL c; RedisURL := RedisURL c;
  AllowSimulation := AllowSimulation c; DefaultNetwork := DefaultNetwork c;
  AllowedNetworks := AllowedNetworks c; AllowedTokenContracts := AllowedTokenContracts c;
  AllowedContractCalls := AllowedContractCalls c; MaxTransferAmount := MaxTransferAmount c;
  TokenDecimals := TokenDecimals c; EVMPrivateKey := EVMPrivateKey c; RPCURL := RPCURL c;
  RPCURLs := RPCURLs c; RPCFleet := RPCFleet c; BSCUSDTContract := BSCUSDTContract c;
  BSCTreasuryContract := BSCTreasuryContract c; BSCChainID := BSCChainID c;
  Security := Security c; CustodyGuardEnabled := CustodyGuardEnabled c;
  CustodyGuardPollMs := CustodyGuardPollMs c; CustodyMode := CustodyMode c;
  CustodyUnlockCooldown := CustodyUnlockCooldown c; CustodyProtectedRaw := CustodyProtectedRaw c;
  CustodyTrustedRaw := CustodyTrustedRaw c; CustodySelectorsRaw := CustodySelectorsRaw c;
  TreasuryMinUSDT := TreasuryMinUSDT c; TreasuryTargetUSDT := TreasuryTargetUSDT c;
  TreasuryMaxUSDT := TreasuryMaxUSDT c; TreasuryMaxDailyOut := limit;
  TreasuryLockThreshold := TreasuryLockThreshold c |}.

Definition on_network (network token : string) (req : TransferRequest) : TransferRequest := {|
  tr_To := tr_To req; tr_Amount := tr_Amount req; tr_TokenContract := token;
  tr_Network := network; tr_IdempotencyKey := tr_IdempotencyKey req;
  tr_DerivationIndex := tr_DerivationIndex req |}.

Abbreviation mem_world := (world memorySignerStore).

Definition run_request (env : environment) (p : prog eff (outcome TransferResponse))
    (w : mem_world) : outcome TransferResponse * mem_world := execute env p w.

(** The endpoint is asked the nonce and the destination of each transaction
    handed over, and whether it was taken. *)
Definition broadcast_summary (w : mem_world) : list (Address * Z * bool) :=
  (fun s => (tx_to (st_tx s.1), tx_nonce (st_tx s.1), s.2)) <$> w_sent w.

Definition usdt : Address := HexToAddress (BSCUSDTContract example_config).

Definition daily_15000 : SignerConfig := with_daily_limit (f_of_Z 15000) example_config.

(** 10000 tokens: under the ceiling of one transfer, and under the day's limit
    once but not twice. *)
Definition pay_10000 : TransferRequest := example_transfer "10000".

Definition first_world : mem_world := example_fleet_world boot_time.
Definition after_one : mem_world :=
  (run_request good_environment (executeTransfer daily_15000 pay_10000) first_world).2.

(** ** The limits hold in sequence *)

Lemma treasury_limit_stops_transfer_witness :
  exists e w', run_request good_environment (executeTransfer daily_15000 pay_10000) after_one
                 = (Fail e, w') /\ w_sent w' = w_sent after_one.
Proof.
  refine (treasury_limit_stops_transfer good_environment daily_15000 pay_10000 after_one _).
  exists (f_of_Z 15000). split; [apply list_elem_of_further, list_elem_of_here|].
  split; vm_compute; reflexivity.
Defined.

(** A contract call that declares the amount NaN is accepted and recorded. *)
Definition after_nan_call : mem_world :=
  (run_request good_environment
     (executeContractCall daily_15000 (example_contract_call "0x82ad56cb" "NaN")) first_world).2.
Definition nan_record : option (string * SignerTransaction) :=
  head (map_to_list (transactions (w_store after_nan_call))).

Lemma nan_record_disables_limits_witness :
  exists hash item, nan_record = Some (hash, item) /\ sx_Amount item = "NaN"%string /\
  (execute good_environment (validateTreasuryPolicy daily_15000 (example_transfer "1e300") "BSC")
     after_nan_call).1 = Ok tt.
Proof.
  destruct nan_record as [[hash item]|] eqn:Hr; [|vm_compute in Hr; discriminate].
  assert (transactions (w_store after_nan_call) !! hash = Some item) as Hlookup
    by (apply elem_of_map_to_list, head_Some_elem_of, Hr).
  assert (Some item = snd <$> nan_record) as Hitem by (rewrite Hr; reflexivity). clear Hr.
  exists hash, item. split; [reflexivity|].
  vm_compute in Hitem. injection Hitem as Hitem. rewrite Hitem in Hlookup |- *.
  split; [reflexivity|].
  refine (nan_record_disables_limits good_environment daily_15000 (example_transfer "1e300") "BSC"
            hash _ (f_of_Z (10 ^ 300)) after_nan_call Hlookup _ _ _); vm_compute; auto.
Defined.

(** The example token in lower case: the same address, another spelling. *)
Definition usdt_lower : string := "0x55d398326f99059ff775485246999027b3197955".

Lemma outflow_by_spelling_witness :
  HexToAddress usdt_lower = usdt /\
  (execute good_environment
     (validateTreasuryPolicy daily_15000 (on_network "bsc" usdt_lower pay_10000) "BSC")
     after_one).1 = Ok tt.
Proof.
  split; [vm_compute; reflexivity|].
  refine (outflow_by_spelling good_environment daily_15000 (on_network "bsc" usdt_lower pay_10000)
            "BSC" (f_of_Z 10000) after_one _ _ _).
  - intros hash item Hitem%elem_of_map_to_list. vm_compute in Hitem |- *.
    apply list_elem_of_singleton in Hitem. injection Hitem as -> ->. discriminate.
  - vm_compute. reflexivity.
  - intros (limit & Hin & _ & Hlt).
    apply elem_of_cons in Hin as [->|Hin]; [|apply list_elem_of_singleton in Hin as ->];
      vm_compute in Hlt; discriminate.
Defined.

(** ** And not when the requests overlap *)

(** The check of the day's outflow and the record of a submission are two
    steps. Of two transfers of 10000 under a daily limit of 15000 the second is
    refused when it comes after the first; when both read the outflow before
    either has submitted, both are paid. *)
Theorem overlapping_transfers_exceed_limit :
  (exists e, (run_request good_environment (executeTransfer daily_15000 pay_10000) after_one).1
             = Fail e) /\
  exists r1 r2 w',
    pool_steps (handle good_environment)
      ([executeTransfer daily_15000 pay_10000; executeTransfer daily_15000 pay_10000], first_world)
      ([Ret (Return r1); Ret (Return r2)], w') /\
    broadcast_summary w' = [(usdt, 7, true); (usdt, 8, true)] /\
    TreasuryMaxDailyOut daily_15000 = f_of_Z 15000 /\
    (mem_DailySubmittedOutflow (at_time boot_time) (BSCUSDTContract daily_15000) "BSC"
       (w_store w')).1 = Ok (f_of_Z 20000).
Proof.
  split; [eexists; vm_compute; reflexivity|].
  pose proof (run_schedule_steps (handle good_environment)
    ([0; 1] ++ replicate 20 0 ++ replicate 20 1)%nat%list
    ([executeTransfer daily_15000 pay_10000; executeTransfer daily_15000 pay_10000], first_world))
    as Hrun.
  match type of Hrun with pool_steps _ _ ?c =>
    assert (exists r1 r2, c.1 = [Ret (Return r1); Ret (Return r2)]) as (r1 & r2 & Hps)
      by (eexists _, _; vm_compute; reflexivity);
    exists r1, r2, c.2; split; [rewrite <- Hps; by rewrite <- surjective_pairing|]
  end.
  vm_compute. auto.
Qed.

(** ** Nonces *)

(** BSC and EVM are served by the same endpoints but reserve nonces apart:
    two payments, one asked for each network, are both broadcast under nonce 7, so
    the chain can take only one of them. *)
Theorem network_alias_reuses_nonce :
  let w := (run_request good_environment
              (executeTransfer example_config (example_transfer "10000")) first_world).2 in
  broadcast_summary
    (run_request good_environment
       (executeTransfer example_config (on_network "ethereum" "" (example_transfer "10000"))) w).2
  = [(usdt, 7, true); (usdt, 7, true)].
Proof. vm_compute. reflexivity. Qed.

(** The first broadcasts time out; the node may have taken them all the same. *)
Definition timing_out : environment :=
  example_environment [] (Ok []) (fun n => if (n <? 15)%nat then Err "timeout" else Ok tt).

(** After an error from [SendTransaction] the request goes on to the next
    endpoint with a fresh nonce: one request hands over two valid payments, and
    the chain pays both if the first endpoint did take the transaction. *)
Theorem failed_send_is_paid_again :
  let (o, w') := run_request timing_out (executeTransfer example_config pay_10000) first_world in
  (exists r, o = Return r) /\
  broadcast_summary w' = [(usdt, 7, false); (usdt, 8, true)] /\
  match w_sent w' with
  | [(s1, _); (s2, _)] => tx_data (st_tx s1) = tx_data (st_tx s2)
  | _ => False
  end.
Proof.
  match goal with |- let (_, _) := ?c in _ => rewrite (surjective_pairing c) end.
  split; [eexists; vm_compute; reflexivity|]. split; vm_compute; reflexivity.
Qed.

(** Everything is answered but the gas price. *)
Definition no_gas_price : environment := {|
  clock n := boot_time + Z.of_nat n * Millisecond;
  net n X e :=
    match e in net_eff X return X with
    | NSuggestGasPrice _ => Err "overloaded"
    | e => answering_net [] (Ok []) all_sent n _ e
    end;
  map_order := list_map_order |}.

Lemma failed_gas_price_leaks_nonce_witness :
  exists w',
    execute no_gas_price
      (executeEVMTransferWithClient example_config pay_10000 "BSC" [1] wallet "https://a.example")
      first_world = (Fail (wrapped "falha ao obter gas price" "overloaded"), w') /\
    w_sent w' = w_sent first_world /\
    forall c, (ReserveChainNonce c (address_Hex wallet) "BSC" 7 (w_store w')).1 = Ok (7 + 1).
Proof.
  refine (failed_gas_price_leaks_nonce no_gas_price example_config pay_10000 "BSC" [1] wallet
            "https://a.example" 56 7 7 "overloaded" first_world eq_refl (fun _ => eq_refl) eq_refl
            _ _ eq_refl); [intros c; vm_compute; reflexivity|lia].
Defined.

(** ** Units *)

(** A settlement records its amount in the token's base units, a transfer
    in whole tokens, and the day's outflow adds the two. After a settlement of 25
    tokens every transfer of the day is refused; before it the same transfer is
    paid. *)
Theorem settlement_exhausts_limits :
  (exists r, (run_request good_environment
                (executeTransfer example_config (example_transfer "1")) first_world).1 = Return r) /\
  let (o, w) := run_request good_environment
                  (executeSettlement example_config settlement_example) first_world in
  (exists r, o = Return r) /\
  (mem_DailySubmittedOutflow (at_time boot_time) (BSCUSDTContract example_config) "BSC"
     (w_store w)).1 = Ok (f_of_Z (25 * 10 ^ 18)) /\
  exists e, (run_request good_environment
               (executeTransfer example_config (example_transfer "1")) w).1 = Fail e.
Proof.
  split; [eexists; vm_compute; reflexivity|].
  match goal with |- let (_, _) := ?c in _ => rewrite (surjective_pairing c) end.
  split; [eexists; vm_compute; reflexivity|].
  split; [vm_compute; reflexivity|]. eexists. vm_compute. reflexivity.
Qed.
