(* ===== verification/Handlers.v ===== *)
(** * The HTTP routes of [main.go].

    A route is a [prog eff] from the request the middleware handed on, with the
    context it attached, to a response. The three signing routes differ in the
    request they decode and in what they execute; their common body is
    [signing_route]. [None] stands for a panic: net/http aborts the response. *)
From S2P Require Export Request Scenarios.

(** ** Responses *)

(** The values of the [map[string]any] that are encoded. *)
Inductive json :=
| JBool (b : bool)
| JString (s : string)
| JFloat (x : f64)
| JInt (n : Z)
| JObject (fields : list (string * json)).

Inductive response_body :=
(** [http.Error] *)
| ErrorText (s : string)
| TransferJSON (r : TransferResponse)
| ObjectJSON (fields : gmap string json).

Record http_response := { res_status : Z; res_body : response_body }.

Definition http_Error (s : string) (status : Z) : option http_response :=
  Some {| res_status := status; res_body := ErrorText s |}.
Definition writeSignerJSON (r : TransferResponse) : option http_response :=
  Some {| res_status := 200; res_body := TransferJSON r |}.
Definition writeJSONStatus (status : Z) (fields : gmap string json) : option http_response :=
  Some {| res_status := status; res_body := ObjectJSON fields |}.

(** What [respondWithError] of the middleware writes for [Respond status err]. *)
Definition respondWithError (now : Time) (err : string) (status : Z) : option http_response :=
  writeJSONStatus status
    {["error" := JString err; "status" := JString "error"; "code" := JInt status;
      "timestamp" := JInt (Unix now)]}%string.

Abbreviation handler := (prog eff (option http_response)).

(** [io.LimitReader(r.Body, 1<<20)] *)
Definition handler_body_limit : Z := Z.shiftl 1 20.

Section Handlers.
Context `{GoUnicode, Geth, GoText}.
Implicit Types cfg : SignerConfig.
Implicit Types rq : Request.

(** ** The signing routes *)

(** Everything after the request is decoded: claim, execute, save or release. *)
Definition claim_and_execute (key : string) (exec : prog eff (outcome TransferResponse)) : handler :=
  claimed ← store_call (SClaimResult key);
  match claimed with
  | Err _ => Ret (http_Error "storage indisponivel" 503)
  | Ok (previous, done, claimed) =>
      if (done : bool) then Ret (writeSignerJSON previous) else
      if negb claimed then Ret (http_Error "idempotency key em processamento" 409) else
      resp ← exec;
      match resp with
      | Panic => Ret None
      | Fail e =>
          _ ← ignore (store_call (SReleaseClaim key));
          Ret (http_Error e 502)
      | Return resp =>
          saved ← store_call (SSaveResult key resp);
          match saved with
          | Err _ => Ret (http_Error "storage indisponivel" 503)
          | Ok _ => Ret (writeSignerJSON resp)
          end
      end
  end.

(** The checks before the request is decoded: context, body, nonce. *)
Definition with_fresh_body cfg rq (reqCtx : option RequestContext)
    (k : RequestContext -> string -> handler) : handler :=
  match reqCtx with
  | None => Ret (http_Error "contexto nao encontrado" 500)
  | Some reqCtx =>
      match read_limited handler_body_limit rq with
      | Err _ => Ret (http_Error "erro ao ler body" 400)
      | Ok body =>
          accepted ← store_call (SAcceptNonce (Nonce reqCtx) (GetNonceTTL cfg));
          match accepted with
          | Err _ => Ret (http_Error "storage indisponivel" 503)
          | Ok accepted =>
              if negb accepted then Ret (http_Error "nonce ja utilizado" 401) else k reqCtx body
          end
      end
  end.

Definition signing_route {Req : Type} cfg (custodyGuard : option CustodyGuard)
    (decode : string -> result Req) (key : Req -> string)
    (exec : Req -> prog eff (outcome TransferResponse))
    rq (reqCtx : option RequestContext) : handler :=
  if negb (String.eqb (rq_Method rq) "POST") then Ret (http_Error "metodo nao permitido" 405) else
  locked ← Locked custodyGuard;
  if (locked.1 : bool) then Ret (http_Error "custody guard lockdown" 423) else
  with_fresh_body cfg rq reqCtx (fun _ body =>
  match decode body with
  | Err _ => Ret (http_Error "JSON invalido" 400)
  | Ok req => claim_and_execute (key req) (exec req)
  end).

Definition hd_transfer cfg custodyGuard : Request -> option RequestContext -> handler :=
  signing_route cfg custodyGuard json_TransferRequest tr_IdempotencyKey (executeTransfer cfg).

Definition hd_contract_call cfg custodyGuard : Request -> option RequestContext -> handler :=
  signing_route cfg custodyGuard json_ContractCallRequest cc_IdempotencyKey
    (executeContractCall cfg).

Definition with_IdempotencyKey (key : string) (req : SettlementExecuteRequest) :
    SettlementExecuteRequest := {|
  se_OperationID := se_OperationID req; se_SettlementIntentID := se_SettlementIntentID req;
  se_OrderID := se_OrderID req; se_Side := se_Side req; se_Network := se_Network req;
  se_ChainID := se_ChainID req; se_Vault := se_Vault req; se_Token := se_Token req;
  se_Recipient := se_Recipient req; se_AmountRaw := se_AmountRaw req;
  se_SourceChannel := se_SourceChannel req; se_PolicyVersion := se_PolicyVersion req;
  se_NetworkPolicy := se_NetworkPolicy req; se_RiskPolicy := se_RiskPolicy req;
  se_ContractVersion := se_ContractVersion req; se_AuthorizedAt := se_AuthorizedAt req;
  se_ExpiresAt := se_ExpiresAt req; se_IdempotencyKey := key |}.

(** [if strings.TrimSpace(req.IdempotencyKey) == "" { .. }] *)
Definition default_key (req : SettlementExecuteRequest) : SettlementExecuteRequest :=
  if String.eqb (TrimSpace (se_IdempotencyKey req)) ""
  then with_IdempotencyKey (TrimSpace (se_OperationID req)) req else req.

Definition settlements_execute cfg custodyGuard : Request -> option RequestContext -> handler :=
  signing_route cfg custodyGuard
    (fun body => default_key <$> json_SettlementExecuteRequest body)
    se_IdempotencyKey (executeSettlement cfg).

(** ** The other routes *)

Definition custody_unlock cfg (custodyGuard : option CustodyGuard) rq
    (reqCtx : option RequestContext) : handler :=
  if negb (String.eqb (rq_Method rq) "POST") then Ret (http_Error "metodo nao permitido" 405) else
  with_fresh_body cfg rq reqCtx (fun reqCtx body =>
  unlocked ← Unlock custodyGuard (json_note body);
  match unlocked with
  | Err e => Ret (http_Error e 423)
  | Ok _ =>
      Ret (writeJSONStatus 200
        (list_to_map [("ok"%string, JBool true); ("lockdown"%string, JBool false);
                      ("requestId"%string, JString (RequestID reqCtx))]))
  end).

Definition healthz : handler :=
  Ret (writeJSONStatus 200
    (list_to_map [("ok"%string, JBool true); ("service"%string, JString "signer")])).

Definition treasury_status cfg : json := JObject [
  ("minUSDT"%string, JFloat (TreasuryMinUSDT cfg));
  ("targetUSDT"%string, JFloat (TreasuryTargetUSDT cfg));
  ("maxUSDT"%string, JFloat (TreasuryMaxUSDT cfg));
  ("maxDailyOutflow"%string, JFloat (TreasuryMaxDailyOut cfg));
  ("lockdownDailyOutflow"%string, JFloat (TreasuryLockThreshold cfg))].

(** The map that is built up, and the status it is sent with. *)
Definition ready_response cfg (locked : bool) (lockReason : string) (storage : result unit) :
    option http_response :=
  let ready : gmap string json := list_to_map [
    ("ok"%string, JBool (negb locked));
    ("service"%string, JString "signer");
    ("network"%string, JString (DefaultNetwork cfg));
    ("nonceStore"%string, JString (NonceStoreType (Security cfg)));
    ("custodyGuard"%string, JBool (CustodyGuardEnabled cfg));
    ("custodyMode"%string, JString (CustodyMode cfg));
    ("lockdown"%string, JBool locked);
    ("treasury"%string, treasury_status cfg);
    ("settlementVaultConfigured"%string,
      JBool (negb (String.eqb (TrimSpace (BSCTreasuryContract cfg)) "")))] in
  let ready := if locked then <["lockReason" := JString lockReason]> ready else ready in
  let ready := match storage with
               | Err e => <["storage" := JString e]> (<["ok" := JBool false]> ready)
               | Ok _ => ready
               end in
  let no_bsc := evm_network (DefaultNetwork cfg)
                && ((length (RPCURLs cfg) =? 0)%nat || String.eqb (BSCUSDTContract cfg) "") in
  let ready := if no_bsc
               then <["bsc" := JString "BSC_RPC_URLS e BSC_USDT_CONTRACT obrigatorios"]>
                      (<["ok" := JBool false]> ready)
               else ready in
  let status := match ready !! "ok"%string with Some (JBool false) => 503 | _ => 200 end in
  writeJSONStatus status ready.

Definition readyz cfg (custodyGuard : option CustodyGuard) : handler :=
  '(locked, lockReason) ← Locked custodyGuard;
  storage ← store_call SReady;
  Ret (ready_response cfg locked lockReason storage).
End Handlers.

(** ** What the routes answer *)

Section Routes.
Context {S : Type} `{GoUnicode, Geth, GoText, SignerStore S}.
Variable env : environment.
Implicit Types cfg : SignerConfig.
Implicit Types w : world S.

Definition signing_routes cfg (g : option CustodyGuard) :
    list (Request -> option RequestContext -> handler) :=
  [hd_transfer cfg g; hd_contract_call cfg g; settlements_execute cfg g].

Lemma execute_Locked {A} g (k : bool * string -> prog eff A) w :
  execute env (Locked (Some g) ≫= k) w =
    execute env (k (w_locked w, w_reason w)) (tick (tick w)).
Proof. reflexivity. Qed.

(** C21: under a lockdown every signing request is answered 423; it broadcasts
    nothing, uses up no nonce and claims no key. *)
Theorem lockdown_refuses cfg g route rq ctx w :
  route ∈ signing_routes cfg (Some g) -> rq_Method rq = "POST"%string -> w_locked w = true ->
  exists w', execute env (route rq ctx) w = (http_Error "custody guard lockdown" 423, w') /\
    w_store w' = w_store w /\ w_sent w' = w_sent w /\ w_locked w' = true.
Proof.
  intros Hroute Hpost Hlock.
  assert (forall Req (decode : string -> result Req) key exec,
    execute env (signing_route cfg (Some g) decode key exec rq ctx) w =
      (http_Error "custody guard lockdown" 423, tick (tick w))) as Hany.
  { intros. unfold signing_route. rewrite Hpost. cbn [String.eqb negb].
    replace (String.eqb "POST" "POST") with true by reflexivity. cbn [negb].
    etrans; [apply execute_Locked|]. cbn [fst]. by rewrite Hlock. }
  exists (tick (tick w)). split; [|done]. unfold signing_routes in Hroute.
  rewrite !elem_of_cons, elem_of_nil in Hroute.
  by destruct Hroute as [->|[->|[->|[]]]]; apply Hany.
Qed.

(** [/readyz] answers 200 exactly when there is no lockdown, the store
    answers, and a service for BSC or EVM has endpoints and a token contract;
    otherwise 503. *)
Theorem readyz_status cfg (locked : bool) reason storage :
  exists fields status,
    ready_response cfg locked reason storage = writeJSONStatus status fields /\
    fields !! "lockdown"%string = Some (JBool locked) /\
    (status = 200 \/ status = 503) /\
    (status = 200 <->
     locked = false /\ is_ok storage = true /\
     (evm_network (DefaultNetwork cfg) = true ->
      RPCURLs cfg <> [] /\ BSCUSDTContract cfg <> ""%string)).
Proof.
  unfold ready_response.
  set (no_bsc := evm_network (DefaultNetwork cfg) && _).
  assert (no_bsc = false <-> (evm_network (DefaultNetwork cfg) = true ->
            RPCURLs cfg <> [] /\ BSCUSDTContract cfg <> ""%string)) as Hbsc.
  { unfold no_bsc. destruct (evm_network _); [|by split]. cbn [andb].
    rewrite orb_false_iff, Nat.eqb_neq, String.eqb_neq, length_zero_iff_nil.
    split; [intros Hn _; exact Hn|intros Hn; by apply Hn]. }
  set (base := list_to_map _).
  assert (base !! "ok"%string = Some (JBool (negb locked)) /\
          base !! "lockdown"%string = Some (JBool locked)) as [Hok Hlock] by (split; reflexivity).
  clearbody base.
  set (ready := if no_bsc then _ else _).
  assert (ready !! "lockdown"%string = Some (JBool locked) /\
          ready !! "ok"%string = Some (JBool (negb locked && is_ok storage && negb no_bsc)))
    as [Hl Ho].
  { unfold ready. clear Hbsc. clearbody no_bsc.
    destruct locked, storage, no_bsc; cbv zeta iota; split;
      repeat first [rewrite lookup_insert_eq|rewrite lookup_insert_ne by done];
      first [exact Hlock|exact Hok|reflexivity]. }
  clearbody ready. exists ready, (if negb locked && is_ok storage && negb no_bsc then 200 else 503).
  rewrite Ho. split; [by destruct locked, (is_ok storage), no_bsc|]. split; [exact Hl|].
  split; [by destruct (negb locked && _ && _); [left|right]|]. rewrite <- Hbsc. clear Hbsc Ho.
  clearbody no_bsc. destruct locked, (is_ok storage), no_bsc; cbn; intuition discriminate.
Qed.
End Routes.

(** ** Closed example *)

#[local] Existing Instance ascii_unicode.
#[local] Existing Instance ref_geth.
#[local] Existing Instance example_text.
#[local] Existing Instance mem_store.
#[local] Existing Instance list_map_order.

Definition stopped_world : world memorySignerStore := set_locked true first_world.
Definition some_guard : CustodyGuard :=
  {| g_cfg := example_config; protected := [usdt]; allowedSelector := [] |}.
Definition some_post : Request := {|
  rq_Method := "POST"; rq_EscapedPath := "/settlements/execute"; rq_RemoteAddr := "10.0.0.1:4242";
  rq_Header := ∅; rq_ContentLength := 2; rq_Body := "25"; rq_BodyErr := None |}.

Lemma lockdown_refuses_witness :
  exists w', execute good_environment
               (settlements_execute example_config (Some some_guard) some_post None) stopped_world
             = (http_Error "custody guard lockdown" 423, w') /\
    w_store w' = w_store stopped_world /\ w_sent w' = w_sent stopped_world /\ w_locked w' = true.
Proof.
  refine (lockdown_refuses good_environment example_config some_guard
            (settlements_execute example_config (Some some_guard)) some_post None stopped_world
            _ eq_refl eq_refl).
  unfold signing_routes. apply list_elem_of_further, list_elem_of_further, list_elem_of_here.
Defined.
