(* ===== verification/AtMostOnce.v ===== *)
(** * One idempotency key, one payment: the routes under interleaving.

    Any number of requests, custody guards and monitors run as goroutines over
    one store that meets [KeySpec]. A goroutine's use of a key [k] is a
    typestate: it waits, then owns the key if its claim is granted, then is
    finished. The proofs follow the broadcasts of each goroutine in a trace. *)
From S2P Require Export Handlers.

(** ** What an operation does to the key [k] *)

Inductive key_action : Type -> Type :=
| DoesClaim : key_action (result claim)
| DoesSave (resp : TransferResponse) : key_action (result unit)
| DoesRelease : key_action (result unit).

Definition key_view (k : string) {X} (e : eff X) : option (key_action X) :=
  match e in eff X return option (key_action X) with
  | EStore e =>
      match e in store_eff X return option (key_action X) with
      | SClaimResult k' => if bool_decide (k' = k) then Some DoesClaim else None
      | SSaveResult k' resp => if bool_decide (k' = k) then Some (DoesSave resp) else None
      | SReleaseClaim k' => if bool_decide (k' = k) then Some DoesRelease else None
      | _ => None
      end
  | _ => None
  end.

Definition off_key (k : string) (X : Type) (e : eff X) : Prop := key_view k e = None.

Section Typestate.
Variable k : string.
Context {A : Type}.

(** Never touches [k] again, and no further broadcast is taken. *)
Definition finished (l : sends) (p : prog eff A) : Prop :=
  runs (off_key k) (fun l' => successes l' = successes l) (fun _ _ => True) l p.

(** Holds the claim: at most one broadcast is taken, and a release comes only
    when none was. *)
Fixpoint owning (l : sends) (p : prog eff A) : Prop :=
  at_most_one l /\
  match p with
  | Ret _ => True
  | Vis e kk =>
      match key_view k e with
      | None => forall x, possible e x -> owning (l ++ sent_by e x) (kk x)
      | Some act =>
          match act in key_action X return (X -> prog eff A) -> Prop with
          | DoesClaim => fun _ => False
          | DoesSave _ => fun kk => forall r, finished l (kk r)
          | DoesRelease => fun kk => all_failed l /\ forall r, finished l (kk r)
          end kk
      end
  end.

(** Has not claimed [k] yet and has broadcast nothing. *)
Fixpoint waiting (p : prog eff A) : Prop :=
  match p with
  | Ret _ => True
  | Vis e kk =>
      match key_view k e with
      | None => (forall x, sent_by e x = []) /\ forall x, possible e x -> waiting (kk x)
      | Some act =>
          match act in key_action X return (X -> prog eff A) -> Prop with
          | DoesClaim => fun kk => forall r : result claim,
              match r with
              | Ok (_, false, true) => owning [] (kk r)
              | _ => finished [] (kk r)
              end
          | _ => fun _ => False
          end kk
      end
  end.

(** A program that has nothing to do with [k]. *)
Definition other (l : sends) (p : prog eff A) : Prop :=
  runs (off_key k) (fun _ => True) (fun _ _ => True) l p.

Lemma owning_at_most_one l p : owning l p -> at_most_one l.
Proof. by destruct p; intros []. Qed.
End Typestate.

Lemma owning_bind k {A B} (Q : sends -> A -> Prop) l (p : prog eff A) (f : A -> prog eff B) :
  runs (off_key k) at_most_one Q l p ->
  (forall l' a, at_most_one l' -> Q l' a -> owning k l' (f a)) -> owning k l (p ≫= f).
Proof.
  intros Hp Hf. revert l Hp. induction p as [a|X e kk IH]; intros l Hp.
  - destruct Hp as [Hl HQ]. by apply Hf.
  - destruct Hp as (Hl & Hoff & Hk). split; [done|]. cbn. rewrite Hoff.
    intros x Hx. by apply IH, Hk.
Qed.

Lemma waiting_op k {X A} (e : eff X) (kk : X -> prog eff A) :
  key_view k e = None -> (forall x, sent_by e x = []) ->
  (forall x, possible e x -> waiting k (kk x)) -> waiting k (perform e ≫= kk).
Proof. intros Hoff Hs Hk. cbn. by rewrite Hoff. Qed.

Lemma key_view_key k :
  key_view k (EStore (SClaimResult k)) = Some DoesClaim /\
  (forall resp, key_view k (EStore (SSaveResult k resp)) = Some (DoesSave resp)) /\
  key_view k (EStore (SReleaseClaim k)) = Some DoesRelease.
Proof. cbn. by rewrite bool_decide_true. Qed.

Lemma waiting_claim k {A} (kk : result claim -> prog eff A) :
  (forall r, match r with
             | Ok (_, false, true) => owning k [] (kk r)
             | _ => finished k [] (kk r)
             end) ->
  waiting k (perform (EStore (SClaimResult k)) ≫= kk).
Proof. intros Hk. cbn -[key_view]. by rewrite (proj1 (key_view_key k)). Qed.

Lemma owning_save k {A} l resp (kk : result unit -> prog eff A) :
  at_most_one l -> (forall r, finished k l (kk r)) ->
  owning k l (perform (EStore (SSaveResult k resp)) ≫= kk).
Proof.
  intros Hl Hk. split; [done|]. cbn -[key_view].
  by rewrite (proj1 (proj2 (key_view_key k)) resp).
Qed.

Lemma owning_release k {A} l (kk : unit -> prog eff A) :
  at_most_one l -> all_failed l -> finished k l (kk tt) ->
  owning k l (ignore (store_call (SReleaseClaim k)) ≫= kk).
Proof.
  intros Hl Hf Hk. split; [done|]. cbn -[key_view].
  by rewrite (proj2 (proj2 (key_view_key k))).
Qed.

Lemma finished_ret k {A} l (a : A) : finished k l (Ret a).
Proof. by split. Qed.

Lemma only_runs (P : forall X, eff X -> Prop) {A} (p : prog eff A) l :
  only P p -> runs P (fun _ => True) (fun _ _ => True) l p.
Proof.
  intros Hp. revert l. induction Hp as [a|X e kk He _ IH]; intros l; cbn; [done|].
  split; [done|]. by split.
Qed.

Lemma other_bind k {A B} l (p : prog eff A) (f : A -> prog eff B) :
  (forall l, other k l p) -> (forall l a, other k l (f a)) -> other k l (p ≫= f).
Proof. intros Hp Hf. apply runs_bind. eapply runs_mono; [|apply Hp]. intros l' a _ _. apply Hf. Qed.

(** ** The programs of the service *)

Section Programs.
Context `{GoUnicode, Geth, GoText}.
Variable k : string.
Variable cfg : SignerConfig.
Variable custodyGuard : option CustodyGuard.

(** What an execution ends with, as far as a claim is concerned. *)
Definition ends (l : sends) (o : outcome TransferResponse) : Prop :=
  match o with Fail _ => all_failed l | _ => True end.

Lemma executed_ends good l o : executed cfg good l o -> ends l o.
Proof.
  unfold executed. destruct (AllowSimulation cfg).
  - intros ->. destruct o; [done|constructor|done].
  - intros (_ & _ & Ho). by destruct o.
Qed.

Lemma exec_off_key X (e : eff X) : exec_op X e -> off_key k X e.
Proof. unfold exec_op, off_key. destruct e; try done. by destruct e. Qed.

Lemma exec_waits exec :
  runs exec_op at_most_one ends [] exec -> waiting k (claim_and_execute k exec).
Proof.
  intros Hexec. apply waiting_claim. intros [[[previous done] claimed]|e]; [|apply finished_ret].
  destruct done; [apply finished_ret|]. destruct claimed; [|apply finished_ret].
  apply (owning_bind k ends).
  { by eapply runs_weaken; [apply exec_off_key| |exact Hexec]. }
  intros l [resp|e|] Hl Ho.
  - apply owning_save; [done|]. intros [u|e]; apply finished_ret.
  - apply owning_release; [done..|]. apply finished_ret.
  - by split.
Qed.

Lemma other_step {X A} (e : eff X) (kk : X -> prog eff A) l :
  off_key k X e -> (forall l x, other k l (kk x)) -> other k l (perform e ≫= kk).
Proof. intros He Hk. split; [done|]. split; [done|]. intros x _. apply Hk. Qed.

Lemma other_ret {A} l (a : A) : other k l (Ret a).
Proof. by split. Qed.

Lemma exec_other {A} (Q : sends -> A -> Prop) p l :
  runs exec_op at_most_one Q [] p -> other k l p.
Proof.
  intros Hp.
  assert (runs exec_op (fun _ => True) (fun _ _ => True) [] p) as Hp'.
  { eapply runs_mono; [|eapply runs_weaken; [| |exact Hp]]; done. }
  pose proof (runs_frame exec_op (fun _ => True) _ l [] p (fun _ _ => I) Hp') as Hl.
  rewrite (right_id_L [] (++)) in Hl.
  eapply runs_mono; [|by eapply runs_weaken; [apply exec_off_key| |exact Hl]]. done.
Qed.

Lemma claim_other k' exec l :
  k' <> k -> (forall l, other k l exec) -> other k l (claim_and_execute k' exec).
Proof.
  intros Hne Hexec. apply other_step.
  { unfold off_key. cbn. by rewrite bool_decide_false. }
  clear l. intros l [[[previous done] claimed]|e]; [|apply other_ret].
  destruct done; [apply other_ret|]. destruct claimed; [|apply other_ret]. cbn [negb].
  apply other_bind; [done|]. clear l. intros l [resp|e|].
  - apply other_step; [unfold off_key; cbn; by rewrite bool_decide_false|].
    intros l' [u|e]; apply other_ret.
  - apply other_bind; [|intros; apply other_ret]. intros l'. apply other_step; [|intros; apply other_ret].
    unfold off_key; cbn; by rewrite bool_decide_false.
  - apply other_ret.
Qed.

Lemma Locked_waits g {A} (f : bool * string -> prog eff A) :
  (forall b, waiting k (f b)) -> waiting k (Locked g ≫= f).
Proof.
  intros Hf. destruct g as [g|]; [|apply Hf]. apply waiting_op; [done..|]. intros reason _.
  apply waiting_op; [done..|]. intros locked _. apply Hf.
Qed.

Lemma Locked_other g {A} (f : bool * string -> prog eff A) l :
  (forall l b, other k l (f b)) -> other k l (Locked g ≫= f).
Proof.
  intros Hf. apply other_bind; [|done]. clear l. intros l.
  destruct g as [g|]; [|apply other_ret]. apply other_step; [done|]. intros l' reason.
  apply other_step; [done|]. intros l'' locked. apply other_ret.
Qed.

(** *** Goroutines *)

(** What runs in the service: a request on one of its routes, the guard, the
    transaction monitor. *)
Inductive job :=
| Transfer (rq : Request) (ctx : option RequestContext)
| ContractCall (rq : Request) (ctx : option RequestContext)
| Settlement (rq : Request) (ctx : option RequestContext)
| UnlockRequest (rq : Request) (ctx : option RequestContext)
| ReadyRequest
| GuardLoop (ticks : nat)
| MonitorLoop (ticks : nat).

Definition background (p : prog eff unit) : handler := _ ← p; Ret None.

Definition job_prog (j : job) : handler :=
  match j with
  | Transfer rq ctx => hd_transfer cfg custodyGuard rq ctx
  | ContractCall rq ctx => hd_contract_call cfg custodyGuard rq ctx
  | Settlement rq ctx => settlements_execute cfg custodyGuard rq ctx
  | UnlockRequest rq ctx => custody_unlock cfg custodyGuard rq ctx
  | ReadyRequest => readyz cfg custodyGuard
  | GuardLoop ticks => background (Start custodyGuard ticks)
  | MonitorLoop ticks => background (startTxLifecycleMonitor cfg ticks)
  end.

(** The idempotency key of a signing request, if its body can be read. *)
Definition request_key {Req} (decode : string -> result Req) (key : Req -> string) (rq : Request) :
    option string :=
  match read_limited handler_body_limit rq ≫= decode with
  | Ok req => Some (key req)
  | Err _ => None
  end.

Definition job_key (j : job) : option string :=
  match j with
  | Transfer rq _ => request_key json_TransferRequest tr_IdempotencyKey rq
  | ContractCall rq _ => request_key json_ContractCallRequest cc_IdempotencyKey rq
  | Settlement rq _ =>
      request_key (fun body => default_key <$> json_SettlementExecuteRequest body)
        se_IdempotencyKey rq
  | _ => None
  end.

Lemma fresh_body_waits rq ctx f :
  (forall c body, read_limited handler_body_limit rq = Ok body -> waiting k (f c body)) ->
  waiting k (with_fresh_body cfg rq ctx f).
Proof.
  intros Hf. destruct ctx as [c|]; [|done]. cbn [with_fresh_body].
  destruct (read_limited handler_body_limit rq) as [body|e]; [|done].
  apply waiting_op; [done..|]. intros [[]|e] _; [|done..]. by apply Hf.
Qed.

Lemma fresh_body_other rq ctx f l :
  (forall c body l, read_limited handler_body_limit rq = Ok body -> other k l (f c body)) ->
  other k l (with_fresh_body cfg rq ctx f).
Proof.
  intros Hf. destruct ctx as [c|]; [|apply other_ret]. cbn [with_fresh_body].
  destruct (read_limited handler_body_limit rq) as [body|e]; [|apply other_ret].
  apply other_step; [done|]. intros l' [[]|e]; [|apply other_ret..]. by apply Hf.
Qed.

Lemma route_waits {Req} (decode : string -> result Req) key exec rq ctx :
  (forall req, runs exec_op at_most_one ends [] (exec req)) ->
  request_key decode key rq = Some k ->
  waiting k (signing_route cfg custodyGuard decode key exec rq ctx).
Proof.
  intros Hexec Hkey. unfold signing_route. destruct (negb _); [done|].
  apply Locked_waits. intros [[] reason]; [done|]. cbn [fst].
  apply fresh_body_waits. intros c body Hbody. revert Hkey. unfold request_key.
  rewrite Hbody. cbn [mbind result_bind]. destruct (decode body) as [req|e]; [|done].
  intros [= E]. rewrite E. by apply exec_waits.
Qed.

Lemma route_other {Req} (decode : string -> result Req) key exec rq ctx l :
  (forall req, runs exec_op at_most_one ends [] (exec req)) ->
  request_key decode key rq <> Some k ->
  other k l (signing_route cfg custodyGuard decode key exec rq ctx).
Proof.
  intros Hexec Hkey. unfold signing_route. destruct (negb _); [apply other_ret|].
  apply Locked_other. intros l' [[] reason]; [apply other_ret|]. cbn [fst].
  apply fresh_body_other. intros c body l'' Hbody. revert Hkey. unfold request_key.
  rewrite Hbody. cbn [mbind result_bind]. destruct (decode body) as [req|e]; [|intros; apply other_ret].
  intros Hne. apply claim_other; [congruence|]. intros l3. eapply exec_other, Hexec.
Qed.

Lemma transfer_ends req : runs exec_op at_most_one ends [] (executeTransfer cfg req).
Proof. eapply runs_mono; [|apply transfer_runs]. intros l o _. apply executed_ends. Qed.
Lemma contract_ends req : runs exec_op at_most_one ends [] (executeContractCall cfg req).
Proof. eapply runs_mono; [|apply contract_runs]. intros l o _. apply executed_ends. Qed.
Lemma settlement_ends req : runs exec_op at_most_one ends [] (executeSettlement cfg req).
Proof. eapply runs_mono; [|apply settlement_runs]. intros l o _. apply executed_ends. Qed.

(** *** The goroutines that use no key *)

Lemma off_key_inspecting C : inspecting (off_key k) C.
Proof. split; try done. intros X e He. by destruct e. Qed.

Lemma start_off_key n : only (off_key k) (Start custodyGuard n).
Proof.
  destruct custodyGuard as [g|]; [|constructor]. by apply (only_Start _ g (off_key_inspecting _)).
Qed.

Lemma unlock_off_key g note : only (off_key k) (Unlock g note).
Proof.
  destruct g as [g|]; [|constructor]. by apply (only_Unlock _ g (off_key_inspecting _)).
Qed.

Lemma monitor_off_key n : only (off_key k) (startTxLifecycleMonitor cfg n).
Proof. apply only_startTxLifecycleMonitor; intros X e He; by destruct e. Qed.

Lemma job_phase j :
  if bool_decide (job_key j = Some k) then waiting k (job_prog j) else
  other k [] (job_prog j).
Proof.
  case_bool_decide as Hkey; destruct j; cbn in Hkey; try done.
  - apply route_waits; [apply transfer_ends|done].
  - apply route_waits; [apply contract_ends|done].
  - apply route_waits; [apply settlement_ends|done].
  - apply route_other; [apply transfer_ends|done].
  - apply route_other; [apply contract_ends|done].
  - apply route_other; [apply settlement_ends|done].
  - cbn [job_prog]. unfold custody_unlock. destruct (negb _); [apply other_ret|].
    apply fresh_body_other. intros c body l _. apply other_bind; [|intros ? []; apply other_ret].
    intros l'. apply only_runs, unlock_off_key.
  - apply Locked_other. intros l [locked reason]. apply other_step; [done|].
    intros l' r. apply other_ret.
  - apply other_bind; [|intros; apply other_ret]. intros l. apply only_runs, start_off_key.
  - apply other_bind; [|intros; apply other_ret]. intros l. apply only_runs, monitor_off_key.
Qed.
End Programs.

(** ** The invariant *)

(** A goroutine with the broadcasts it has made. *)
Abbreviation thread := (prog eff (option http_response) * sends)%type.

Section Pool.
Context {S : Type} `{KeySpec S}.
Variable env : environment.

Inductive traced_step : list thread * world S -> list thread * world S -> Prop :=
| traced_thread ts w i X (e : eff X) kk l :
    ts !! i = Some (Vis e kk, l) ->
    traced_step (ts, w)
      (<[i := (kk (handle env X e w).1, l ++ sent_by e (handle env X e w).1)%list]> ts,
       (handle env X e w).2).

(** The traces add nothing to the pool, and account for every broadcast. *)
Lemma traced_step_pool c c' :
  traced_step c c' -> pool_step (handle env) (c.1.*1, c.2) (c'.1.*1, c'.2).
Proof.
  intros [ts w i X e kk l Hi]. cbn [fst snd]. rewrite list_fmap_insert.
  eapply pool_step_thread; [by rewrite list_lookup_fmap, Hi|].
  cbn. by destruct (handle env X e w).
Qed.

Lemma concat_insert {A} (ls : list (list A)) i l n :
  ls !! i = Some l -> concat (<[i := (l ++ n)%list]> ls) ≡ₚ concat ls ++ n.
Proof.
  intros Hi. rewrite <- (take_drop_middle ls i l Hi) at 2.
  rewrite insert_take_drop by by eapply lookup_lt_Some.
  rewrite !concat_app. cbn. solve_Permutation.
Qed.

Lemma traced_steps_sent ts w c' :
  rtc traced_step (ts, w) c' -> w_sent w ≡ₚ concat ts.*2 -> w_sent c'.2 ≡ₚ concat c'.1.*2.
Proof.
  intros Hsteps. remember (ts, w) as c. revert ts w Heqc.
  induction Hsteps as [c|c c1 c' Hstep _ IH]; intros ts w -> Hw; [done|].
  inversion Hstep as [ts' w' i X e kk l Hi]; subst.
  eapply IH; [done|]. cbn [fst snd]. rewrite handle_sent, list_fmap_insert. cbn [snd].
  rewrite concat_insert, Hw; [done|]. by rewrite list_lookup_fmap, Hi.
Qed.

Inductive phase := Other | Waiting | Owning | Finished.

(** A goroutine that carries the key is never [Other], another always is. *)
Definition same_role (g g' : phase * thread) : Prop := g.1 = Other <-> g'.1 = Other.

#[export] Instance same_role_preorder : PreOrder same_role.
Proof. unfold same_role. split; [done|]. intros g1 g2 g3 H1 H2. by rewrite H1. Qed.

Definition in_phase (k : string) (g : phase * thread) : Prop :=
  let '(ph, (p, l)) := g in
  match ph with
  | Other => other k l p
  | Waiting => l = [] /\ waiting k p
  | Owning => owning k l p
  | Finished => at_most_one l /\ finished k l p
  end.

(** What a goroutine has spent of the one payment of the key. *)
Definition weight (g : phase * thread) : nat :=
  match g.1 with
  | Owning => 1
  | Finished => successes g.2.2
  | _ => 0
  end.

Record pool_inv (k : string) (gs : list (phase * thread)) (s : S) : Prop := {
  inv_phases : Forall (in_phase k) gs;
  inv_weight : (sum_list (weight <$> gs) <= 1)%nat;
  inv_free : key_of s k = Free -> sum_list (weight <$> gs) = 0%nat;
  inv_owning i p l : gs !! i = Some (Owning, (p, l)) -> key_of s k = InProgress;
}.

(** An operation that does not act on the key leaves it alone. *)
Lemma handle_off_key k X (e : eff X) (w : world S) :
  k <> ""%string -> key_view k e = None ->
  key_of (w_store (handle env X e w).2) k = key_of (w_store w) k.
Proof.
  intros Hk Hoff. destruct e as [|X e| | | | | | | | | | |]; cbn; try done.
  3: { match goal with |- context [sendCandidates ?t ?n ?f] =>
         by destruct (sendCandidates t n f) as [[hs f']|] end. }
  2: { by destruct e. }
  pose proof (handle_store_other (the_call env w) X e (w_store w) k) as Hother.
  destruct (handle_store (the_call env w) X e (w_store w)) as [x s] eqn:He. cbn in *.
  destruct (key_call e) eqn:Hcall; [clear Hother|by apply Hother].
  destruct e; try done; cbn in He, Hoff.
  - case_bool_decide as Hne; [done|]. destruct (decide (key = "")%string) as [->|Hke].
    + rewrite claim_empty in He. by injection He as <- <-.
    + apply (claim_spec _ _ _ _ _ Hke) in He as [_ Hf]. apply Hf. congruence.
  - case_bool_decide as Hne; [done|].
    pose proof (save_frame (the_call env w) key resp (w_store w) k) as Hf. rewrite He in Hf.
    apply Hf. congruence.
  - case_bool_decide as Hne; [done|]. destruct (decide (key = "")%string) as [->|Hke].
    + rewrite release_empty in He. by injection He as <- <-.
    + apply (release_spec _ _ _ _ _ Hke) in He as [_ Hf]. apply Hf. congruence.
Qed.

Section Step.
Variable k : string.
Hypothesis nonempty : k <> ""%string.

(** Replacing one goroutine, and the state of the store. *)
Lemma pool_inv_update gs s s' i g g' :
  pool_inv k gs s -> gs !! i = Some g -> in_phase k g' ->
  (weight g' <= weight g \/ (key_of s k = Free /\ weight g' <= 1))%nat ->
  (key_of s' k = Free -> weight g' = 0%nat /\ (key_of s k = Free \/ weight g = 1%nat)) ->
  (g'.1 = Owning -> key_of s' k = InProgress) ->
  (key_of s k = InProgress -> key_of s' k = InProgress \/ weight g = 1%nat) ->
  pool_inv k (<[i := g']> gs) s'.
Proof.
  intros Hinv Hi Hg' Hw Hfree Hown Hkeep. destruct Hinv as [Hph Hle Hf Ho].
  assert ((weight <$> gs) !! i = Some (weight g)) as Hwi by by rewrite list_lookup_fmap, Hi.
  pose proof (sum_list_insert _ i _ (weight g') Hwi) as Hsum.
  rewrite <- list_fmap_insert in Hsum. constructor.
  - by apply Forall_insert.
  - destruct Hw as [?|[Hf0 ?]]; [lia|]. specialize (Hf Hf0). lia.
  - intros Hf'. destruct (Hfree Hf') as [? [Hf0|?]]; [specialize (Hf Hf0)|]; lia.
  - intros j p l Hj. destruct (decide (i = j)) as [<-|Hij].
    + rewrite list_lookup_insert_eq in Hj by (by eapply lookup_lt_Some).
      injection Hj as ->. by apply Hown.
    + rewrite list_lookup_insert_ne in Hj by done. specialize (Ho j p l Hj).
      destruct (Hkeep Ho) as [|Hone]; [done|].
      assert ((weight <$> gs) !! j = Some 1%nat) as Hwj by by rewrite list_lookup_fmap, Hj.
      pose proof (sum_list_two _ i j _ _ Hwi Hwj Hij). lia.
Qed.

(** An operation that is not on the key, by a goroutine that stays as it was. *)
Lemma pool_inv_off gs (w : world S) i ph p l p' l' X (e : eff X) :
  pool_inv k gs (w_store w) -> gs !! i = Some (ph, (p, l)) -> key_view k e = None ->
  in_phase k (ph, (p', l')) -> weight (ph, (p', l')) = weight (ph, (p, l)) ->
  pool_inv k (<[i := (ph, (p', l'))]> gs) (w_store (handle env X e w).2).
Proof.
  intros Hinv Hi Hoff Hg' Hw. pose proof (handle_off_key k X e w nonempty Hoff) as Hkey.
  eapply pool_inv_update; [done|done|done|rewrite Hw; by left|..]; rewrite Hkey.
  - intros Hf. split; [|by left]. pose proof (inv_free _ _ _ Hinv Hf) as H0'.
    rewrite Hw. assert ((weight <$> gs) !! i = Some (weight (ph, (p, l)))) as Hwi
      by by rewrite list_lookup_fmap, Hi.
    pose proof (sum_list_insert _ i _ 0 Hwi). lia.
  - cbn. intros ->. by eapply inv_owning.
  - by left.
Qed.

Lemma claim_step gs (w : world S) i kk :
  pool_inv k gs (w_store w) -> gs !! i = Some (Waiting, (Vis (EStore (SClaimResult k)) kk, [])) ->
  waiting k (Vis (EStore (SClaimResult k)) kk) ->
  let (r, w') := handle env _ (EStore (SClaimResult k)) w in
  exists ph, ph <> Other /\ pool_inv k (<[i := (ph, (kk r, []))]> gs) (w_store w').
Proof.
  intros Hinv Hi Hp. cbn -[key_view] in Hp. rewrite (proj1 (key_view_key k)) in Hp.
  cbn [handle handle_store]. destruct (ClaimResult (the_call env w) k (w_store w)) as [r s] eqn:Hc.
  apply (claim_spec _ _ _ _ _ nonempty) in Hc as [Hc _]. cbn [w_store tick set_store].
  specialize (Hp r).
  assert (finished k [] (kk r) ->
            key_of s k = key_of (w_store w) k \/ key_of s k = (claim_answer (key_of (w_store w) k)).2 ->
            exists ph, ph <> Other /\ pool_inv k (<[i := (ph, (kk r, []))]> gs) s) as Hfin.
  { intros Hr' Hsame. exists Finished. split; [done|].
    eapply pool_inv_update; [done|done| |by left| | |]; [split; [by apply Nat.le_0_l|done]|..].
    - intros Hf. split; [done|]. left. destruct Hsame as [<-|Hs]; [done|].
      rewrite Hf in Hs. by destruct (key_of (w_store w) k).
    - done.
    - intros Hp'. left. destruct Hsame as [->| ->]; by rewrite Hp'. }
  destruct r as [[[resp done] claimed]|e]; [|by apply Hfin].
  destruct Hc as [Hans Hs]. destruct (key_of (w_store w) k) eqn:Hk; cbn in Hans, Hs;
    injection Hans as -> -> ->; [|by apply Hfin; auto..].
  exists Owning. split; [done|].
  eapply pool_inv_update; [done|done|done|right; by rewrite Hk|..]; rewrite ?Hs, ?Hk; try done.
Qed.

Lemma owner_step gs (w : world S) i X (e : eff X) kk l act :
  pool_inv k gs (w_store w) -> gs !! i = Some (Owning, (Vis e kk, l)) ->
  owning k l (Vis e kk) -> key_view k e = Some act ->
  let (r, w') := handle env _ e w in
  pool_inv k (<[i := (Finished, (kk r, l))]> gs) (w_store w') /\ sent_by e r = [].
Proof.
  intros Hinv Hi [Hl Hp] Hv. pose proof (inv_owning _ _ _ Hinv _ _ _ Hi) as Hkey.
  destruct e as [|X e| | | | | | | | | | |]; try done. rewrite Hv in Hp.
  destruct e; try done; cbn in Hv; case_bool_decide; try done; subst key; injection Hv as <-.
  - done.
  - cbn [handle handle_store].
    destruct (SaveResult (the_call env w) k resp (w_store w)) as [r s] eqn:Hs.
    apply (save_spec _ _ _ _ _ _ nonempty Hkey) in Hs. cbn [w_store tick set_store].
    split; [|done]. eapply pool_inv_update; [done|done| |by left| | |]; try done.
    + by destruct Hs as [->|[_ ->]].
    + intros _. by right.
  - destruct Hp as [Hf Hp]. cbn [handle handle_store].
    destruct (ReleaseClaim (the_call env w) k (w_store w)) as [r s] eqn:Hs.
    apply (release_spec _ _ _ _ _ nonempty) in Hs as [Hs _]. cbn [w_store tick set_store].
    apply all_failed_successes in Hf as Hz.
    split; [|done].
    eapply pool_inv_update; [done|done|by split|left; unfold weight; cbn [fst snd]; lia|..]; try done.
    + intros _. split; [done|by right].
    + intros _. by right.
Qed.

(** The next operation of one goroutine leads to a phase that fits its role. *)
Lemma thread_step_inv gs (w : world S) i ph X (e : eff X) kk l :
  pool_inv k gs (w_store w) -> gs !! i = Some (ph, (Vis e kk, l)) ->
  exists ph', (ph = Other <-> ph' = Other) /\
    pool_inv k (<[i := (ph', (kk (handle env X e w).1, l ++ sent_by e (handle env X e w).1))]> gs)
      (w_store (handle env X e w).2).
Proof.
  intros Hinv Hg. pose proof (proj1 (Forall_lookup _ _) (inv_phases _ _ _ Hinv) i _ Hg) as Hph.
  pose proof (handle_possible env X e w) as Hpos. destruct ph; cbn [in_phase] in Hph.
  - destruct Hph as (_ & Hoff & Hk). exists Other. split; [done|].
    eapply pool_inv_off; [done|done|done|by apply Hk|done].
  - destruct Hph as [-> Hp]. destruct (key_view k e) eqn:Hv.
    + destruct e as [|X e| | | | | | | | | | |]; try done.
      destruct e; try done; cbn in Hv; case_bool_decide; try done; subst key;
        [|by cbn in Hp; rewrite bool_decide_true in Hp..].
      pose proof (claim_step gs w i kk Hinv Hg Hp) as Hc.
      destruct (handle env _ _ w) as [r w']. destruct Hc as (ph & Hne & Hc). by exists ph.
    + exists Waiting. split; [done|]. cbn in Hp. rewrite Hv in Hp. destruct Hp as [Hs Hp].
      rewrite Hs. eapply pool_inv_off; [done|done|done|split; [done|by apply Hp]|done].
  - destruct (key_view k e) eqn:Hv.
    + pose proof (owner_step gs w i X e kk l k0 Hinv Hg Hph Hv) as Hstep'.
      destruct (handle env X e w) as [r w']. destruct Hstep' as [Hinv' Hs]. exists Finished.
      split; [done|]. cbn [fst snd]. by rewrite Hs, (right_id_L [] (++)).
    + exists Owning. split; [done|]. destruct Hph as [Hl Hp]. rewrite Hv in Hp.
      eapply pool_inv_off; [done|done|done|by apply Hp|done].
  - destruct Hph as (Hl & Hn & Hoff & Hp). exists Finished. split; [done|].
    specialize (Hp _ Hpos). pose proof (runs_start _ _ _ _ _ Hp) as Hsame.
    eapply pool_inv_off; [done|done|done| |done]. split.
    + unfold at_most_one in *. by rewrite Hsame.
    + eapply runs_weaken; [done| |exact Hp]. cbn. intros l' ->. by rewrite Hsame.
Qed.

(** The goroutines keep the invariant, each in its role. *)
Lemma traced_step_inv gs ts w c' :
  gs.*2 = ts -> pool_inv k gs (w_store w) -> traced_step (ts, w) c' ->
  exists gs', gs'.*2 = c'.1 /\ pool_inv k gs' (w_store c'.2) /\
    Forall2 same_role gs gs'.
Proof.
  intros Hts Hinv Hstep. inversion Hstep as [ts' w' i X e kk l Hi]; subst. cbn [fst snd].
  rewrite list_lookup_fmap in Hi. destruct (gs !! i) as [[ph t]|] eqn:Hg; [|done].
  injection Hi as ->. cbn [snd] in *.
  destruct (thread_step_inv gs w i ph X e kk l Hinv Hg) as (ph' & Hrole & Hinv').
  eexists. split; [|split; [exact Hinv'|]]; [by rewrite list_fmap_insert|].
  apply Forall2_same_length_lookup. split; [by rewrite length_insert|].
  intros j g g' Hj Hj'. destruct (decide (i = j)) as [<-|Hij].
  - rewrite list_lookup_insert_eq in Hj' by (by eapply lookup_lt_Some).
    rewrite Hg in Hj. injection Hj as <-. by injection Hj' as <-.
  - rewrite list_lookup_insert_ne in Hj' by done. rewrite Hj in Hj'. by injection Hj' as <-.
Qed.
End Step.
End Pool.

(** ** One payment *)

Section OnePayment.
Context `{GoUnicode, Geth, GoText} {S : Type} `{KeySpec S}.
Variable env : environment.

Definition start_thread (cfg : SignerConfig) (g : option CustodyGuard) (j : job) : thread :=
  (job_prog cfg g j, []).

(** The broadcasts that were taken, over all the requests with key [k]. *)
Definition payments (k : string) (jobs : list job) (ts : list thread) : nat :=
  sum_list (zip_with
    (fun j t => if bool_decide (job_key j = Some k) then successes t.2 else 0%nat) jobs ts).

Lemma traced_steps_inv k gs c c' :
  k <> ""%string -> gs.*2 = c.1 -> pool_inv k gs (w_store c.2) -> rtc (traced_step env) c c' ->
  exists gs', gs'.*2 = c'.1 /\ pool_inv k gs' (w_store c'.2) /\
    Forall2 same_role gs gs'.
Proof.
  intros Hk Hts Hinv Hsteps. revert gs Hts Hinv.
  induction Hsteps as [c|[ts w] c1 c' Hstep _ IH]; intros gs Hts Hinv.
  - exists gs. split; [done|]. by split.
  - destruct (traced_step_inv env k Hk gs ts w c1 Hts Hinv Hstep) as (gs1 & Hts1 & Hinv1 & Hr1).
    destruct (IH gs1 Hts1 Hinv1) as (gs2 & ? & ? & Hr2). exists gs2. split; [done|].
    split; [done|]. by etrans.
Qed.

Lemma start_inv k cfg g jobs s :
  pool_inv k ((fun j => (if bool_decide (job_key j = Some k) then Waiting else Other,
                         start_thread cfg g j)) <$> jobs) s.
Proof.
  assert (sum_list (weight <$> ((fun j => (if bool_decide (job_key j = Some k) then Waiting else Other,
            start_thread cfg g j)) <$> jobs)) = 0%nat) as Hz.
  { induction jobs as [|j jobs IH]; [done|]. rewrite !fmap_cons. cbn [sum_list_with id].
    rewrite IH. by case_bool_decide. }
  constructor.
  - apply Forall_fmap, Forall_forall. intros j _. cbn. pose proof (job_phase k cfg g j) as Hj.
    by case_bool_decide.
  - rewrite Hz. lia.
  - done.
  - intros i p l Hi. rewrite list_lookup_fmap in Hi. destruct (jobs !! i); [|done].
    cbn in Hi. by case_bool_decide.
Qed.

Lemma phase_pays k g : in_phase k g -> g.1 <> Other -> (successes g.2.2 <= weight g)%nat.
Proof.
  destruct g as [[] [p l]]; cbn; try done.
  - by intros [-> _].
  - intros Hp _. by apply owning_at_most_one in Hp.
Qed.

Lemma payments_bound k jobs gs :
  Forall (in_phase k) gs ->
  Forall2 (fun j g => job_key j = Some k -> g.1 <> Other) jobs gs ->
  (payments k jobs gs.*2 <= sum_list (weight <$> gs))%nat.
Proof.
  intros Hph Hroles. induction Hroles as [|j g jobs gs Hr _ IH]; [done|].
  apply Forall_cons in Hph as [Hg Hph]. specialize (IH Hph). unfold payments in *.
  rewrite !fmap_cons. cbn [zip_with sum_list_with id]. case_bool_decide as Hkey; [|lia].
  pose proof (phase_pays k g Hg (Hr Hkey)). lia.
Qed.

(** An idempotency key pays once. Whatever requests, guards and monitors
    run, on any store that meets its contract and under any interleaving of
    their operations, at most one broadcast is taken among all the requests that
    carry the key; and the traces account for every broadcast there was. *)
Theorem one_payment_per_key cfg custodyGuard (jobs : list job) (k : string) (w : world S) c' :
  k <> ""%string -> w_sent w = [] ->
  rtc (traced_step env) (start_thread cfg custodyGuard <$> jobs, w) c' ->
  (payments k jobs c'.1 <= 1)%nat /\ w_sent c'.2 ≡ₚ concat c'.1.*2.
Proof.
  intros Hk Hsent Hsteps. split.
  - pose proof (start_inv k cfg custodyGuard jobs (w_store w)) as Hinv.
    destruct (traced_steps_inv k _ (start_thread cfg custodyGuard <$> jobs, w) c' Hk
                (eq_sym (list_fmap_compose _ snd jobs)) Hinv Hsteps) as (gs & <- & Hinv' & Hroles).
    etrans; [apply payments_bound; [by apply inv_phases in Hinv'|]|by apply inv_weight in Hinv'].
    rewrite Forall2_fmap_l in Hroles. eapply Forall2_impl; [exact Hroles|].
    intros j g [_ Hr] Hkey Ho. cbn in Hr. rewrite bool_decide_true in Hr by done. by specialize (Hr Ho).
  - eapply traced_steps_sent; [exact Hsteps|]. rewrite Hsent.
    clear. induction jobs as [|j jobs IH]; [done|exact IH].
Qed.

(** A run in a given order, for closed examples. *)
Fixpoint run_traced (schedule : list nat) (c : list thread * world S) : list thread * world S :=
  match schedule with
  | [] => c
  | i :: schedule' =>
      match c.1 !! i with
      | Some (Vis e kk, l) =>
          let r := handle env _ e c.2 in
          run_traced schedule' (<[i := (kk r.1, l ++ sent_by e r.1)%list]> c.1, r.2)
      | _ => run_traced schedule' c
      end
  end.

Lemma run_traced_steps schedule c : rtc (traced_step env) c (run_traced schedule c).
Proof.
  revert c. induction schedule as [|i schedule IH]; intros [ts w]; [apply rtc_refl|].
  cbn [run_traced fst snd]. destruct (ts !! i) as [[[a|X e kk] l]|] eqn:Hi; [apply IH| |apply IH].
  eapply rtc_l; [by eapply traced_thread|apply IH].
Qed.
End OnePayment.

(** ** Replays *)

Section Replay.
Context `{GoUnicode, Geth, GoText} {S : Type} `{KeySpec S}.
Variable env : environment.
Variables (k : string) (st : key_state).
Hypothesis nonempty : k <> ""%string.
Hypothesis taken_key : st <> Free.
Implicit Types w : world S.

(** The program answers without a broadcast and leaves the key as it is; if it
    answers 200, then with the stored response. *)
Definition replays w (p : handler) : Prop :=
  exists resp w', execute env p w = (Some resp, w') /\ w_sent w' = w_sent w /\
    key_of (w_store w') k = st /\
    (res_status resp = 200 -> exists r, st = Done r /\ res_body resp = TransferJSON r).

Lemma replays_error w s status :
  key_of (w_store w) k = st -> status <> 200 -> replays w (Ret (http_Error s status)).
Proof. intros Hk Hs. eexists _, w. split; [reflexivity|]. by repeat split. Qed.

Lemma replays_claim w exec :
  key_of (w_store w) k = st -> replays w (claim_and_execute k exec).
Proof.
  intros Hk. unfold replays, claim_and_execute, store_call. rewrite execute_op.
  cbn [handle handle_store]. destruct (ClaimResult (the_call env w) k (w_store w)) as [a s] eqn:Hc.
  apply (claim_spec _ _ _ _ _ nonempty) in Hc as [Hc _]. rewrite Hk in Hc. cbn [fst snd].
  destruct a as [answer|e].
  - destruct Hc as [-> Hs]. destruct st as [| |r]; [done| |]; cbn [claim_answer fst snd] in Hs |- *.
    + eexists _, _. split; [reflexivity|]. by repeat split.
    + eexists _, _. split; [reflexivity|]. do 2 (split; [done|]). by exists r.
  - apply (replays_error (tick (set_store s w))); [|done]. cbn.
    destruct Hc as [->| ->]; [done|]. by destruct st.
Qed.

Lemma replays_fresh_body cfg rq ctx f w :
  key_of (w_store w) k = st ->
  (forall c body w', read_limited handler_body_limit rq = Ok body ->
     key_of (w_store w') k = st -> replays w' (f c body)) ->
  replays w (with_fresh_body cfg rq ctx f).
Proof.
  intros Hk Hf. destruct ctx as [c|]; [|by apply replays_error]. cbn [with_fresh_body].
  destruct (read_limited handler_body_limit rq) as [body|e]; [|by apply replays_error].
  unfold replays, store_call. rewrite execute_op. cbn [handle].
  pose proof (handle_store_other (the_call env w) _ (SAcceptNonce (Nonce c) (GetNonceTTL cfg))
                (w_store w) k eq_refl) as Hsame.
  destruct (handle_store _ _ (SAcceptNonce _ _) _) as [a s]. cbn [fst snd] in *.
  rewrite Hk in Hsame. destruct a as [[]|e].
  - by apply (Hf c body (tick (set_store s w))).
  - by apply (replays_error (tick (set_store s w))).
  - by apply (replays_error (tick (set_store s w))).
Qed.

Lemma replays_route {Req} cfg g (decode : string -> result Req) key exec rq ctx w :
  request_key decode key rq = Some k -> key_of (w_store w) k = st ->
  replays w (signing_route cfg g decode key exec rq ctx).
Proof.
  intros Hkey Hk. unfold signing_route. destruct (negb _); [by apply replays_error|].
  assert (forall w' reason locked, key_of (w_store w') k = st -> w_sent w' = w_sent w ->
    replays w' (if ((locked, reason) : bool * string).1
                then Ret (http_Error "custody guard lockdown" 423)
                else with_fresh_body cfg rq ctx (fun _ body =>
                  match decode body with
                  | Ok req => claim_and_execute (key req) (exec req)
                  | Err _ => Ret (http_Error "JSON invalido" 400)
                  end))) as Hrest.
  { intros w' reason [] Hk' _; cbn [fst]; [by apply replays_error|].
    apply replays_fresh_body; [done|]. intros c body w'' Hbody Hk''.
    revert Hkey. unfold request_key. rewrite Hbody. cbn [mbind result_bind].
    destruct (decode body) as [req|e]; [|done]. intros [= E]. rewrite E. by apply replays_claim. }
  destruct g as [g|].
  - exact (Hrest (tick (tick w)) (w_reason w) (w_locked w) Hk eq_refl).
  - exact (Hrest w ""%string false Hk eq_refl).
Qed.

(** What a claim of the key is answered with. *)
Definition replay_answer : http_response :=
  match st with
  | Done r => {| res_status := 200; res_body := TransferJSON r |}
  | _ => {| res_status := 409; res_body := ErrorText "idempotency key em processamento" |}
  end.

Definition signing_request (j : job) : option (Request * option RequestContext) :=
  match j with
  | Transfer rq ctx | ContractCall rq ctx | Settlement rq ctx => Some (rq, ctx)
  | _ => None
  end.

(** Nothing stops the request before its key is looked at: it is a POST with a
    context, the lock is open, the store takes its nonce, and then answers. *)
Definition admitted cfg (g : option CustodyGuard) rq (ctx : option RequestContext) w : Prop :=
  rq_Method rq = "POST"%string /\ (is_Some g -> w_locked w = false) /\
  exists c s, ctx = Some c /\
    let w1 := if g then tick (tick w) else w in
    AcceptNonce (the_call env w1) (Nonce c) (GetNonceTTL cfg) (w_store w) = (Ok true, s) /\
    is_ok (ClaimResult (the_call env (tick w1)) k s).1 = true.

Lemma claim_replays_exactly w exec :
  key_of (w_store w) k = st -> is_ok (ClaimResult (the_call env w) k (w_store w)).1 = true ->
  exists w', execute env (claim_and_execute k exec) w = (Some replay_answer, w').
Proof.
  intros Hk Hok. unfold claim_and_execute, store_call. rewrite execute_op. cbn [handle handle_store].
  destruct (ClaimResult (the_call env w) k (w_store w)) as [a s] eqn:Hc.
  apply (claim_spec _ _ _ _ _ nonempty) in Hc as [Hc _]. rewrite Hk in Hc. cbn [fst snd] in *.
  destruct a as [answer|e]; [|done]. destruct Hc as [-> _]. unfold replay_answer.
  by destruct st; [done| |]; eexists.
Qed.

Lemma route_replays_exactly {Req} cfg g (decode : string -> result Req) key exec rq ctx w :
  request_key decode key rq = Some k -> key_of (w_store w) k = st -> admitted cfg g rq ctx w ->
  exists w', execute env (signing_route cfg g decode key exec rq ctx) w = (Some replay_answer, w').
Proof.
  unfold request_key. intros Hkey Hk (Hpost & Hlock & c & s & -> & Hacc & Hclaim).
  destruct (read_limited handler_body_limit rq) as [body|e] eqn:Hbody; [|done]. cbn in Hkey.
  destruct (decode body) as [req|e] eqn:Hreq; [|done]. injection Hkey as Hkey.
  assert (key_of s k = st) as Hks.
  { pose proof (fun c0 => handle_store_other c0 _ (SAcceptNonce (Nonce c) (GetNonceTTL cfg)) (w_store w) k eq_refl)
      as Hsame. cbn in Hsame. specialize (Hsame (the_call env (if g then tick (tick w) else w))).
    rewrite Hacc in Hsame. cbn in Hsame. by rewrite Hsame. }
  unfold signing_route. rewrite Hpost, String.eqb_refl. cbn [negb].
  assert (forall w', w_tick w' = w_tick (if g then tick (tick w) else w) -> w_store w' = w_store w ->
    exists w2, execute env (with_fresh_body cfg rq (Some c) (fun _ body =>
                  match decode body with
                  | Ok req => claim_and_execute (key req) (exec req)
                  | Err _ => Ret (http_Error "JSON invalido" 400)
                  end)) w' = (Some replay_answer, w2)) as Hrest.
  { intros w' Htick Hstore. cbn [with_fresh_body]. rewrite Hbody. unfold store_call.
    rewrite execute_op. cbn [handle handle_store].
    assert (the_call env w' = the_call env (if g then tick (tick w) else w)) as Hcall
      by (unfold the_call, now; by rewrite Htick).
    rewrite Hcall, Hstore, Hacc. cbn [fst snd negb]. rewrite Hreq, Hkey.
    apply claim_replays_exactly; [done|]. unfold the_call, now in *. cbn in *. by rewrite Htick. }
  destruct g as [g|]; [|by apply Hrest].
  cbn [Locked]. unfold execute. cbn. rewrite (Hlock ltac:(by eexists)). by apply Hrest.
Qed.
(** C15: a request whose key is taken executes nothing, whatever becomes of it: it
    broadcasts nothing and leaves the key as it is, no time passing a lock by, and
    answers 200 only with the stored response. If nothing stops it before its key
    is looked at ([admitted]), the answer is exact: the stored response with 200
    once there is one, 409 while the key is held. *)
Theorem taken_key_replays cfg g j w :
  job_key j = Some k -> key_of (w_store w) k = st ->
  replays w (job_prog cfg g j) /\
  (forall rq ctx, signing_request j = Some (rq, ctx) -> admitted cfg g rq ctx w ->
     exists w', execute env (job_prog cfg g j) w = (Some replay_answer, w')).
Proof.
  intros Hkey Hk. split; [destruct j; cbn in Hkey; try done; by apply replays_route|].
  intros rq ctx Hrq Hadm. destruct j; try done; cbn in Hrq, Hkey; injection Hrq as -> ->;
    by eapply route_replays_exactly.
Qed.
End Replay.

(** ** Example: two requests with one key *)

#[local] Existing Instance ascii_unicode.
#[local] Existing Instance ref_geth.
#[local] Existing Instance example_text.
#[local] Existing Instance mem_store.
#[local] Existing Instance list_map_order.

Definition post (path body : string) : Request := {|
  rq_Method := "POST"; rq_EscapedPath := path; rq_RemoteAddr := "10.0.0.1:4242"; rq_Header := ∅;
  rq_ContentLength := len body; rq_Body := body; rq_BodyErr := None |}.

Definition context_with (nonce : string) : RequestContext := {|
  RequestID := "req-1"; Timestamp := 0; Nonce := nonce; APIKey := ""; ClientIP := "";
  UserAgent := ""; ctx_Path := ""; ctx_Method := "POST"; BodyHash := ""; Validated := true;
  StartTime := 0 |}.

Definition same_key_jobs : list job := [
  Transfer (post "/hd/transfer" "10") (Some (context_with "n1"));
  Transfer (post "/hd/transfer" "20") (Some (context_with "n2"))].

(** The second request makes its claim while the first is at work. *)
Definition same_key_run : list thread * world memorySignerStore :=
  run_traced good_environment (concat (replicate 25 [0%nat; 1%nat]))
    (start_thread example_config None <$> same_key_jobs, first_world).

Lemma one_payment_per_key_witness :
  (payments "buy-1" same_key_jobs same_key_run.1 <= 1)%nat /\
  w_sent same_key_run.2 ≡ₚ concat same_key_run.1.*2.
Proof.
  refine (one_payment_per_key good_environment example_config None same_key_jobs "buy-1"
            first_world same_key_run _ _ _); [discriminate|reflexivity|].
  apply run_traced_steps.
Defined.

(** In that run the first request is paid and the second is told to wait. *)
Example same_key_outcome :
  payments "buy-1" same_key_jobs same_key_run.1 = 1%nat /\
  match same_key_run.1 with
  | [(Ret (Some r1), _); (Ret (Some r2), _)] => (res_status r1, res_status r2) = (200, 409)
  | _ => False
  end.
Proof. split; vm_compute; reflexivity. Qed.

(** The first request again, once it has been paid. *)
Definition paid_world : world memorySignerStore :=
  (execute good_environment (job_prog example_config None
     (Transfer (post "/hd/transfer" "10") (Some (context_with "n1")))) first_world).2.

Lemma taken_key_replays_witness :
  exists resp w', execute good_environment (job_prog example_config None
      (Transfer (post "/hd/transfer" "10") (Some (context_with "n9")))) paid_world =
    (Some {| res_status := 200; res_body := TransferJSON resp |}, w').
Proof.
  destruct (key_of (w_store paid_world) "buy-1") as [| |resp] eqn:Hk;
    [vm_compute in Hk; discriminate|vm_compute in Hk; discriminate|]. exists resp.
  refine (proj2 (taken_key_replays good_environment "buy-1" (Done resp) _ _ example_config None
            (Transfer (post "/hd/transfer" "10") (Some (context_with "n9"))) paid_world _ Hk) _ _ eq_refl _); [discriminate|discriminate|reflexivity|].
  split; [reflexivity|]. split; [intros [? ?]; discriminate|].
  eexists _, _. split; [reflexivity|]. split; [vm_compute; reflexivity|]. vm_compute. reflexivity.
Defined.
