(* ===== verification/PgStore.v ===== *)
(** * The PostgreSQL store: [postgresSignerStore] of [store.go].

    Each SQL statement of the methods is an operation [pg_op] on the tables, and
    so is each transaction that takes the rows or the advisory lock it needs
    ([SaveResult], [ReserveChainNonce]). A method is a [prog] of these: other
    sessions run between its statements. A statement either takes effect or
    fails with an error and changes nothing. *)
From S2P Require Export AtMostOnce.

(** ** Tables *)

Record incident_row := {
  ir_id : Z; ir_reason : string; ir_mode : string; ir_resolved : option Time;
  ir_note : string; ir_created : Time }.

Record chain_row := { cr_status : string; cr_hash : string; cr_reason : string }.

(** The columns of [signer_transactions], with [created_at]. *)
Record tx_row := { tr_item : SignerTransaction; tr_created : Time }.

Record pg_tables := {
  signer_nonces : gmap string Time;
  signer_idempotency : gmap string TransferResponse;
  signer_idempotency_locks : gset string;
  custody_events : list CustodyEvent;
  custody_incidents : list incident_row;
  next_incident : Z;
  signer_chain_nonces : gmap (string * string * Z) chain_row;
  signer_transactions : gmap string tx_row;
}.

Definition empty_tables : pg_tables := {|
  signer_nonces := ∅; signer_idempotency := ∅; signer_idempotency_locks := ∅;
  custody_events := []; custody_incidents := []; next_incident := 1;
  signer_chain_nonces := ∅; signer_transactions := ∅ |}.

Definition with_nonces n t := {|
  signer_nonces := n; signer_idempotency := signer_idempotency t;
  signer_idempotency_locks := signer_idempotency_locks t; custody_events := custody_events t;
  custody_incidents := custody_incidents t; next_incident := next_incident t;
  signer_chain_nonces := signer_chain_nonces t; signer_transactions := signer_transactions t |}.
Definition with_keys r l t := {|
  signer_nonces := signer_nonces t; signer_idempotency := r; signer_idempotency_locks := l;
  custody_events := custody_events t; custody_incidents := custody_incidents t;
  next_incident := next_incident t; signer_chain_nonces := signer_chain_nonces t;
  signer_transactions := signer_transactions t |}.
Definition with_events e t := {|
  signer_nonces := signer_nonces t; signer_idempotency := signer_idempotency t;
  signer_idempotency_locks := signer_idempotency_locks t; custody_events := e;
  custody_incidents := custody_incidents t; next_incident := next_incident t;
  signer_chain_nonces := signer_chain_nonces t; signer_transactions := signer_transactions t |}.
Definition with_incidents i n t := {|
  signer_nonces := signer_nonces t; signer_idempotency := signer_idempotency t;
  signer_idempotency_locks := signer_idempotency_locks t; custody_events := custody_events t;
  custody_incidents := i; next_incident := n; signer_chain_nonces := signer_chain_nonces t;
  signer_transactions := signer_transactions t |}.
Definition with_chain c t := {|
  signer_nonces := signer_nonces t; signer_idempotency := signer_idempotency t;
  signer_idempotency_locks := signer_idempotency_locks t; custody_events := custody_events t;
  custody_incidents := custody_incidents t; next_incident := next_incident t;
  signer_chain_nonces := c; signer_transactions := signer_transactions t |}.
Definition with_txs x t := {|
  signer_nonces := signer_nonces t; signer_idempotency := signer_idempotency t;
  signer_idempotency_locks := signer_idempotency_locks t; custody_events := custody_events t;
  custody_incidents := custody_incidents t; next_incident := next_incident t;
  signer_chain_nonces := signer_chain_nonces t; signer_transactions := x |}.

(** ** Statements *)

Inductive pg_op : Type -> Type :=
| QDeleteExpired : pg_op (result unit)
| QInsertNonce (nonce : string) (seconds : Z) : pg_op (result Z)
| QSelectResult (key : string) : pg_op (result (option TransferResponse))
| QInsertLock (key : string) : pg_op (result Z)
| TSaveResult (key : string) (resp : TransferResponse) : pg_op (result unit)
| QDeleteLock (key : string) : pg_op (result unit)
| QInsertEvent (event : CustodyEvent) : pg_op (result unit)
| QInsertIncident (reason mode : string) : pg_op (result unit)
| QSelectIncident : pg_op (result (option CustodyIncident))
| QResolveIncidents (note : string) : pg_op (result unit)
| TReserveNonce (wallet network : string) (chainPending : Z) : pg_op (result Z)
| QMarkNonce (wallet network : string) (nonce : Z) (mark : chain_row -> chain_row) :
    pg_op (result unit)
| QUpsertTransaction (item : SignerTransaction) : pg_op (result unit)
| QUpdateTransaction (txHash status reason : string) (confirmations : Z) : pg_op (result unit)
| QSelectOpen (limit : Z) : pg_op (result (list SignerTransaction))
| QSelectAmounts (token network : string) : pg_op (result (list string))
| QPing : pg_op (result unit).

(** [database/sql] hands a [uint64] to the driver as an [int64]; the texts of
    the driver's errors stand for whatever it says. *)
Definition fits_bigint (n : Z) : bool := n <=? max_i64.
Definition uint64_error : string := "uint64 values with high bit set are not supported".

(** [max(nonce) .. WHERE status IN ('reserved', 'submitted')] *)
Definition live_row (wallet network : string) (kv : (string * string * Z) * chain_row) : Prop :=
  kv.1.1 = (wallet, network) /\
  (cr_status kv.2 = "reserved"%string \/ cr_status kv.2 = "submitted"%string).
#[export] Instance live_row_dec wallet network kv : Decision (live_row wallet network kv).
Proof. unfold live_row. solve_decision. Defined.

Definition max_live (wallet network : string) (m : gmap (string * string * Z) chain_row) :
    option Z :=
  foldr (fun kv acc => Some (match acc with None => kv.1.2 | Some n => Z.max kv.1.2 n end)) None
    (filter (live_row wallet network) (map_to_list m)).

Definition reserve_in (wallet network : string) (chainPending : Z) (t : pg_tables) :
    result Z * pg_tables :=
  let next := match max_live wallet network (signer_chain_nonces t) with
              | Some m => if chainPending <? u64 (u64 m + 1) then u64 (u64 m + 1) else chainPending
              | None => chainPending
              end in
  if negb (fits_bigint next) then (Err uint64_error, t) else
  match signer_chain_nonces t !! (wallet, network, next) with
  | Some _ => (Err "duplicate key value violates unique constraint", t)
  | None =>
      (Ok next,
       with_chain (<[(wallet, network, next) := {| cr_status := "reserved"; cr_hash := "";
                                                   cr_reason := "" |}]> (signer_chain_nonces t)) t)
  end.

Definition unresolved (i : incident_row) : bool := bool_decide (ir_resolved i = None).

(** [ORDER BY created_at DESC LIMIT 1] *)
Definition newest (l : list incident_row) : option incident_row :=
  foldr (fun i acc => match acc with
                      | Some j => if ir_created i <? ir_created j then Some j else Some i
                      | None => Some i
                      end) None l.

Definition incident_of (i : incident_row) : CustodyIncident := {|
  inc_ID := ir_id i; inc_Reason := ir_reason i; inc_Mode := ir_mode i;
  inc_CreatedAt := ir_created i |}.

(** [json.Marshal(event.Data)] refuses NaN and the infinities. *)
Definition json_value_ok (v : any) : bool :=
  match v with AnyFloat (SpecFloat.S754_nan | SpecFloat.S754_infinity _) => false | _ => true end.

(** What the server's time zone makes of [date_trunc('day', now())], and the
    order of rows a query does not fix. *)
Class PgServer := {
  day_start : Time -> Time;
  row_order :: GoMapOrder;
  (** Why a statement fails, if it does, and whether it has taken effect all the
      same, the connection having gone after the commit. *)
  pg_fault : call -> forall X, pg_op X -> option string;
  pg_done : call -> forall X, pg_op X -> bool;
}.

Section Statements.
Context `{PgServer}.
Implicit Types t : pg_tables.

Definition older (x y : tx_row) : Prop := tr_created x <= tr_created y.
#[export] Instance older_dec x y : Decision (older x y).
Proof. unfold older. apply _. Defined.

Definition rows_of (c : call) t : list tx_row :=
  (map_range (c_seed c) (map_to_list (signer_transactions t))).*2.

(** [WHERE network = $1 AND token = $2 AND status IN (..) AND created_at >= ..] *)
Definition counts_today (c : call) (token network : string) (r : tx_row) : bool :=
  String.eqb (sx_Network (tr_item r)) network && String.eqb (sx_Token (tr_item r)) token
  && counts_as_outflow (tr_item r) && (day_start (c_now c) <=? tr_created r).

Definition run_statement (c : call) (X : Type) (op : pg_op X) t : X * pg_tables :=
  match op in pg_op X return X * pg_tables with
  | QDeleteExpired =>
      (Ok tt, with_nonces (filter (fun kv => ~ kv.2 < c_now c) (signer_nonces t)) t)
  | QInsertNonce nonce seconds =>
      match signer_nonces t !! nonce with
      | Some _ => (Ok 0, t)
      | None =>
          (Ok 1, with_nonces (<[nonce := c_now c + seconds * Second]> (signer_nonces t)) t)
      end
  | QSelectResult key => (Ok (signer_idempotency t !! key), t)
  | QInsertLock key =>
      if bool_decide (key ∈ signer_idempotency_locks t) then (Ok 0, t)
      else (Ok 1, with_keys (signer_idempotency t) ({[key]} ∪ signer_idempotency_locks t) t)
  | TSaveResult key resp =>
      let results := match signer_idempotency t !! key with
                     | Some _ => signer_idempotency t
                     | None => <[key := resp]> (signer_idempotency t)
                     end in
      (Ok tt, with_keys results (signer_idempotency_locks t ∖ {[key]}) t)
  | QDeleteLock key =>
      (Ok tt, with_keys (signer_idempotency t) (signer_idempotency_locks t ∖ {[key]}) t)
  | QInsertEvent event => (Ok tt, with_events (custody_events t ++ [event])%list t)
  | QInsertIncident reason mode =>
      (* the sequence of ids advances in either case *)
      if existsb unresolved (custody_incidents t)
      then (Ok tt, with_incidents (custody_incidents t) (next_incident t + 1) t)
      else (Ok tt, with_incidents
              (custody_incidents t ++ [{| ir_id := next_incident t; ir_reason := reason;
                 ir_mode := mode; ir_resolved := None; ir_note := ""; ir_created := c_now c |}])%list
              (next_incident t + 1) t)
  | QSelectIncident =>
      (Ok (incident_of <$> newest (List.filter unresolved (custody_incidents t))), t)
  | QResolveIncidents note =>
      (Ok tt, with_incidents
         ((fun i => if unresolved i
                    then {| ir_id := ir_id i; ir_reason := ir_reason i; ir_mode := ir_mode i;
                            ir_resolved := Some (c_now c); ir_note := note;
                            ir_created := ir_created i |}
                    else i) <$> custody_incidents t) (next_incident t) t)
  | TReserveNonce wallet network chainPending => reserve_in wallet network chainPending t
  | QMarkNonce wallet network nonce mark =>
      (Ok tt, with_chain (alter mark (wallet, network, nonce) (signer_chain_nonces t)) t)
  | QUpsertTransaction item =>
      let row := match signer_transactions t !! sx_TxHash item with
                 | Some r => {| tr_item := with_status (sx_Status item) (sx_Reason item)
                                             (sx_Confirmations item) (tr_item r);
                                tr_created := tr_created r |}
                 | None => {| tr_item := item; tr_created := c_now c |}
                 end in
      (Ok tt, with_txs (<[sx_TxHash item := row]> (signer_transactions t)) t)
  | QUpdateTransaction txHash status reason confirmations =>
      (Ok tt, with_txs
         (alter (fun r => {| tr_item := with_status status reason confirmations (tr_item r);
                             tr_created := tr_created r |}) txHash (signer_transactions t)) t)
  | QSelectOpen limit =>
      (Ok (take (Z.to_nat limit)
             (tr_item <$> merge_sort older
                            (List.filter (fun r => is_open (tr_item r)) (rows_of c t)))), t)
  | QSelectAmounts token network =>
      (Ok ((fun r => sx_Amount (tr_item r)) <$>
             List.filter (counts_today c token network) (rows_of c t)), t)
  | QPing => (Ok tt, t)
  end.

(** Every statement returns an error. *)
Definition fail_statement (e : string) {X} (op : pg_op X) : X :=
  match op in pg_op X return X with
  | QDeleteExpired => Err e | QInsertNonce _ _ => Err e | QSelectResult _ => Err e
  | QInsertLock _ => Err e | TSaveResult _ _ => Err e | QDeleteLock _ => Err e
  | QInsertEvent _ => Err e | QInsertIncident _ _ => Err e | QSelectIncident => Err e
  | QResolveIncidents _ => Err e | TReserveNonce _ _ _ => Err e | QMarkNonce _ _ _ _ => Err e
  | QUpsertTransaction _ => Err e | QUpdateTransaction _ _ _ _ => Err e | QSelectOpen _ => Err e
  | QSelectAmounts _ _ => Err e | QPing => Err e
  end.

Definition handle_pg (c : call) (X : Type) (op : pg_op X) t : X * pg_tables :=
  match pg_fault c X op with
  | Some e => (fail_statement e op, if pg_done c X op then (run_statement c X op t).2 else t)
  | None => run_statement c X op t
  end.

(** A statement leaves the tables as they are, or runs. *)
Lemma handle_pg_state c X (op : pg_op X) t :
  (handle_pg c X op t).2 = t \/ (handle_pg c X op t).2 = (run_statement c X op t).2.
Proof. unfold handle_pg. destruct (pg_fault c X op), (pg_done c X op); cbn; auto. Qed.
End Statements.

(** ** Methods *)

Definition pg_AcceptNonce (nonce : string) (ttl : Duration) : prog pg_op (result bool) :=
  if String.eqb nonce "" then Ret (Ok false) else
  _ ← perform QDeleteExpired;
  try (perform (QInsertNonce nonce (f_to_i64 (Seconds ttl)))) (fun rows => Ret (Ok (rows =? 1))).

Definition pg_GetResult (key : string) : prog pg_op (result (option TransferResponse)) :=
  if String.eqb key "" then Ret (Ok None) else perform (QSelectResult key).

Definition pg_ClaimResult (key : string) : prog pg_op (result claim) :=
  if String.eqb key "" then Ret (Ok (no_response, false, true)) else
  try (pg_GetResult key) (fun stored =>
  match stored with
  | Some resp => Ret (Ok (resp, true, false))
  | None =>
      try (perform (QInsertLock key)) (fun rows => Ret (Ok (no_response, false, rows =? 1)))
  end).

Definition pg_SaveResult (key : string) (resp : TransferResponse) : prog pg_op (result unit) :=
  if String.eqb key "" then Ret (Ok tt) else perform (TSaveResult key resp).

Definition pg_ReleaseClaim (key : string) : prog pg_op (result unit) :=
  if String.eqb key "" then Ret (Ok tt) else perform (QDeleteLock key).

Definition pg_RecordCustodyEvent (event : CustodyEvent) : prog pg_op (result unit) :=
  if forallb (fun kv => json_value_ok kv.2) (ev_Data event) then perform (QInsertEvent event)
  else Ret (Err "json: unsupported value").

Definition pg_OpenCustodyIncident (reason mode : string) : prog pg_op (result unit) :=
  perform (QInsertIncident reason mode).
Definition pg_ActiveCustodyIncident : prog pg_op (result (option CustodyIncident)) :=
  perform QSelectIncident.
Definition pg_ResolveCustodyIncident (note : string) : prog pg_op (result unit) :=
  perform (QResolveIncidents note).

Definition pg_ReserveChainNonce (wallet network : string) (chainPending : Z) :
    prog pg_op (result Z) :=
  perform (TReserveNonce wallet network chainPending).

(** The two updates of a reserved nonce; a nonce past [int64] cannot be sent. *)
Definition pg_mark (wallet network : string) (nonce : Z) (mark : chain_row -> chain_row) :
    prog pg_op (result unit) :=
  if fits_bigint nonce then perform (QMarkNonce wallet network nonce mark)
  else Ret (Err uint64_error).

Definition pg_MarkChainNonceSubmitted (wallet network : string) (nonce : Z) (txHash : string) :
    prog pg_op (result unit) :=
  pg_mark wallet network nonce (fun r =>
    {| cr_status := "submitted"; cr_hash := txHash; cr_reason := cr_reason r |}).

Definition pg_MarkChainNonceFailed (wallet network : string) (nonce : Z) (reason : string) :
    prog pg_op (result unit) :=
  pg_mark wallet network nonce (fun r =>
    {| cr_status := "failed"; cr_hash := cr_hash r; cr_reason := reason |}).

Definition pg_CreateSignerTransaction (item : SignerTransaction) : prog pg_op (result unit) :=
  if fits_bigint (sx_Nonce item) && fits_bigint (sx_Confirmations item)
  then perform (QUpsertTransaction item) else Ret (Err uint64_error).

Definition pg_MarkSignerTransactionStatus (txHash status reason : string) (confirmations : Z) :
    prog pg_op (result unit) :=
  if fits_bigint confirmations then perform (QUpdateTransaction txHash status reason confirmations)
  else Ret (Err uint64_error).

Definition pg_ListOpenSignerTransactions (limit : Z) :
    prog pg_op (result (list SignerTransaction)) :=
  let limit := if (limit <=? 0) || (100 <? limit) then 50 else limit in
  perform (QSelectOpen limit).

Definition pg_DailySubmittedOutflow (token network : string) : prog pg_op (result f64) :=
  try (perform (QSelectAmounts token network)) (fun rows =>
  Ret (Ok (foldl add_amount fzero rows))).

Definition pg_Ready : prog pg_op (result unit) := perform QPing.

(** A call of the interface as the statements it sends. *)
Definition pg_method {X} (e : store_eff X) : prog pg_op X :=
  match e in store_eff X return prog pg_op X with
  | SAcceptNonce n ttl => pg_AcceptNonce n ttl
  | SClaimResult k => pg_ClaimResult k
  | SGetResult k => pg_GetResult k
  | SSaveResult k r => pg_SaveResult k r
  | SReleaseClaim k => pg_ReleaseClaim k
  | SRecordCustodyEvent e => pg_RecordCustodyEvent e
  | SOpenCustodyIncident r m => pg_OpenCustodyIncident r m
  | SActiveCustodyIncident => pg_ActiveCustodyIncident
  | SResolveCustodyIncident n => pg_ResolveCustodyIncident n
  | SReserveChainNonce w n p => pg_ReserveChainNonce w n p
  | SMarkChainNonceSubmitted w n z h => pg_MarkChainNonceSubmitted w n z h
  | SMarkChainNonceFailed w n z r => pg_MarkChainNonceFailed w n z r
  | SCreateSignerTransaction t => pg_CreateSignerTransaction t
  | SMarkSignerTransactionStatus h st r n => pg_MarkSignerTransactionStatus h st r n
  | SListOpenSignerTransactions n => pg_ListOpenSignerTransactions n
  | SDailySubmittedOutflow t n => pg_DailySubmittedOutflow t n
  | SReady => pg_Ready
  end.

(** ** The store, one method at a time *)

Section PgInstance.
Context `{PgServer}.

Definition pg_run {X} (p : prog pg_op X) (c : call) (t : pg_tables) : X * pg_tables :=
  run (handle_pg c) p t.

#[export] Instance pg_store : SignerStore pg_tables := {|
  AcceptNonce c n ttl := pg_run (pg_AcceptNonce n ttl) c;
  ClaimResult c k := pg_run (pg_ClaimResult k) c;
  GetResult c k := pg_run (pg_GetResult k) c;
  SaveResult c k r := pg_run (pg_SaveResult k r) c;
  ReleaseClaim c k := pg_run (pg_ReleaseClaim k) c;
  RecordCustodyEvent c e := pg_run (pg_RecordCustodyEvent e) c;
  OpenCustodyIncident c r m := pg_run (pg_OpenCustodyIncident r m) c;
  ActiveCustodyIncident c := pg_run pg_ActiveCustodyIncident c;
  ResolveCustodyIncident c n := pg_run (pg_ResolveCustodyIncident n) c;
  ReserveChainNonce c w n p := pg_run (pg_ReserveChainNonce w n p) c;
  MarkChainNonceSubmitted c w n z h := pg_run (pg_MarkChainNonceSubmitted w n z h) c;
  MarkChainNonceFailed c w n z r := pg_run (pg_MarkChainNonceFailed w n z r) c;
  CreateSignerTransaction c i := pg_run (pg_CreateSignerTransaction i) c;
  MarkSignerTransactionStatus c h s r n := pg_run (pg_MarkSignerTransactionStatus h s r n) c;
  ListOpenSignerTransactions c n := pg_run (pg_ListOpenSignerTransactions n) c;
  DailySubmittedOutflow c t n := pg_run (pg_DailySubmittedOutflow t n) c;
  Ready c := pg_run pg_Ready c;
|}.

Definition pg_key_of (t : pg_tables) (k : string) : key_state :=
  match signer_idempotency t !! k with
  | Some r => Done r
  | None => if bool_decide (k ∈ signer_idempotency_locks t) then InProgress else Free
  end.

(** The statements on the two tables of keys. *)
Definition key_statement {X} (op : pg_op X) : bool :=
  match op with QInsertLock _ | TSaveResult _ _ | QDeleteLock _ => true | _ => false end.

Lemma statement_keeps_keys c X (op : pg_op X) t k :
  key_statement op = false -> pg_key_of (handle_pg c X op t).2 k = pg_key_of t k.
Proof.
  intros Hop. destruct (handle_pg_state c X op t) as [->| ->]; [done|].
  destruct op; try done; cbn [run_statement];
    try (by case_match). unfold reserve_in. by repeat case_match.
Qed.

Lemma run_keeps_keys c {X} (p : prog pg_op X) t k :
  only (fun Y op => key_statement op = false) p ->
  pg_key_of (run (handle_pg c) p t).2 k = pg_key_of t k.
Proof.
  intros Hp. refine (only_run (fun Y op => key_statement op = false) (handle_pg c)
                       (fun t' => pg_key_of t' k = pg_key_of t k) _ X p Hp t eq_refl).
  intros Y op t' Hop <-. by apply statement_keeps_keys.
Qed.

Lemma keys_other r l t k' :
  signer_idempotency t !! k' = r !! k' -> (k' ∈ l <-> k' ∈ signer_idempotency_locks t) ->
  pg_key_of (with_keys r l t) k' = pg_key_of t k'.
Proof.
  intros Hr Hl. unfold pg_key_of; cbn. rewrite Hr. case_match; [done|].
  by rewrite (bool_decide_ext _ _ Hl).
Qed.

Lemma pg_claim c k t s r :
  k <> ""%string -> pg_run (pg_ClaimResult k) c t = (r, s) ->
  match r with
  | Ok answer =>
      answer = (claim_answer (pg_key_of t k)).1 /\ pg_key_of s k = (claim_answer (pg_key_of t k)).2
  | Err _ => pg_key_of s k = pg_key_of t k \/ pg_key_of s k = (claim_answer (pg_key_of t k)).2
  end /\ forall k', k' <> k -> pg_key_of s k' = pg_key_of t k'.
Proof.
  intros Hk. unfold pg_run, pg_ClaimResult, pg_GetResult.
  rewrite (proj2 (String.eqb_neq k "") Hk), run_try. cbn [run perform].
  unfold handle_pg at 1. destruct (pg_fault c _ (QSelectResult k)).
  { destruct (pg_done c _ _); intros [= <- <-]; (split; [by left|done]). }
  cbn [run_statement]. destruct (signer_idempotency t !! k) as [resp|] eqn:Hr.
  - assert (pg_key_of t k = Done resp) as Hs by (unfold pg_key_of; by rewrite Hr).
    intros [= <- <-]. by rewrite Hs.
  - assert (pg_key_of t k = if bool_decide (k ∈ signer_idempotency_locks t) then InProgress else Free)
      as Hs by (unfold pg_key_of; by rewrite Hr).
    assert (pg_key_of (run_statement c _ (QInsertLock k) t).2 k = (claim_answer (pg_key_of t k)).2 /\
            forall k', k' <> k -> pg_key_of (run_statement c _ (QInsertLock k) t).2 k' = pg_key_of t k')
      as [Hkey Hoff].
    { cbn [run_statement].
      case_bool_decide as Hl; [by rewrite Hs|]. rewrite Hs. split.
      - unfold pg_key_of; cbn. rewrite Hr. by rewrite bool_decide_true by set_solver.
      - intros k' Hne. apply keys_other; [done|set_solver]. }
    rewrite run_try. cbn [run perform]. unfold handle_pg.
    destruct (pg_fault c _ (QInsertLock k)).
    { destruct (pg_done c _ _); intros [= <- <-]; (split; [by auto|done]). }
    cbn [run_statement] in *. revert Hkey Hoff.
    case_bool_decide as Hl; intros Hkey Hoff [= <- <-]; (split; [split; [|done]|done]);
      by rewrite Hs.
Qed.

(** A claim whose answer is lost after the insert: the caller is told of an error,
    and the key is held by nobody who knows. *)
Lemma lost_claim_blocks_key c k e t :
  k <> ""%string -> pg_key_of t k = Free -> pg_fault c _ (QSelectResult k) = None ->
  pg_fault c _ (QInsertLock k) = Some e -> pg_done c _ (QInsertLock k) = true ->
  exists t', pg_run (pg_ClaimResult k) c t = (Err e, t') /\ pg_key_of t' k = InProgress.
Proof.
  intros Hk Hfree Hselect Hinsert Hdone. unfold pg_run, pg_ClaimResult, pg_GetResult.
  rewrite (proj2 (String.eqb_neq k "") Hk), run_try. cbn [run perform]. unfold handle_pg at 1.
  rewrite Hselect. cbn [run_statement]. unfold pg_key_of in Hfree.
  destruct (signer_idempotency t !! k) eqn:Hr; [done|]. case_bool_decide as Hl; [done|].
  rewrite run_try. cbn [run perform]. unfold handle_pg. rewrite Hinsert, Hdone.
  eexists. split; [reflexivity|]. cbn [run_statement]. rewrite bool_decide_false by done.
  unfold pg_key_of. cbn. rewrite Hr. by rewrite bool_decide_true by set_solver.
Qed.

Lemma method_off_keys X (e : store_eff X) :
  key_call e = false -> only (fun Y op => key_statement op = false) (pg_method e).
Proof.
  intros He. destruct e; try done; cbn [pg_method];
    unfold pg_AcceptNonce, pg_GetResult, pg_RecordCustodyEvent, pg_MarkChainNonceSubmitted,
      pg_MarkChainNonceFailed, pg_mark, pg_CreateSignerTransaction,
      pg_MarkSignerTransactionStatus, pg_DailySubmittedOutflow;
    repeat first [case_match|apply only_ret|by apply only_perform
                 |apply only_try; [|intros ?]|apply only_bind; [|intros ?]].
Qed.

#[export] Instance pg_key_spec : KeySpec pg_tables.
Proof.
  refine {| key_of := pg_key_of |}.
  - done.
  - intros c k s s' r Hk. by apply pg_claim.
  - done.
  - intros c k resp s s' r Hk Hprog. cbn [SaveResult pg_store]. unfold pg_run, pg_SaveResult.
    rewrite (proj2 (String.eqb_neq k "") Hk), run_perform. unfold handle_pg.
    assert (pg_key_of (run_statement c _ (TSaveResult k resp) s).2 k = Done resp) as Hdone.
    { revert Hprog. unfold pg_key_of; cbn.
      destruct (signer_idempotency s !! k) eqn:Hr; [done|]. by rewrite lookup_insert_eq. }
    destruct (pg_fault c _ _); [destruct (pg_done c _ _)|]; intros [= <- <-]; auto.
  - intros c k resp s k' Hne. cbn [SaveResult pg_store]. unfold pg_run, pg_SaveResult. destruct (String.eqb k ""); [done|].
    rewrite run_perform. destruct (handle_pg_state c _ (TSaveResult k resp) s) as [->| ->]; [done|].
    cbn [run_statement snd]. apply keys_other; [|set_solver]. case_match; [done|].
    by rewrite lookup_insert_ne.
  - done.
  - intros c k s s' r Hk. cbn [ReleaseClaim pg_store]. unfold pg_run, pg_ReleaseClaim.
    rewrite (proj2 (String.eqb_neq k "") Hk), run_perform. unfold handle_pg.
    assert (pg_key_of (run_statement c _ (QDeleteLock k) s).2 k = release_key (pg_key_of s k) /\
            forall k', k' <> k -> pg_key_of (run_statement c _ (QDeleteLock k) s).2 k' = pg_key_of s k')
      as [Hkey Hoff].
    { split; [|intros k' Hne; apply keys_other; [done|set_solver]].
      unfold pg_key_of; cbn. destruct (signer_idempotency s !! k); [done|].
      rewrite bool_decide_false by set_solver. by case_bool_decide. }
    destruct (pg_fault c _ _); [destruct (pg_done c _ _)|]; intros [= <- <-]; auto.
  - intros c f s k Hop.
    destruct Hop; cbv beta; apply run_keeps_keys;
      [apply (method_off_keys _ (SAcceptNonce _ _))|apply (method_off_keys _ (SGetResult _))
      |apply (method_off_keys _ (SRecordCustodyEvent _))
      |apply (method_off_keys _ (SOpenCustodyIncident _ _))
      |apply (method_off_keys _ SActiveCustodyIncident)
      |apply (method_off_keys _ (SResolveCustodyIncident _))
      |apply (method_off_keys _ (SReserveChainNonce _ _ _))
      |apply (method_off_keys _ (SMarkChainNonceSubmitted _ _ _ _))
      |apply (method_off_keys _ (SMarkChainNonceFailed _ _ _ _))
      |apply (method_off_keys _ (SCreateSignerTransaction _))
      |apply (method_off_keys _ (SMarkSignerTransactionStatus _ _ _ _))
      |apply (method_off_keys _ (SListOpenSignerTransactions _))
      |apply (method_off_keys _ (SDailySubmittedOutflow _ _))
      |apply (method_off_keys _ SReady)]; reflexivity.
Defined.
(** The unique index on unresolved incidents keeps at most one active. *)
Definition pg_active (t : pg_tables) : option CustodyIncident :=
  incident_of <$> newest (List.filter unresolved (custody_incidents t)).

Lemma newest_none l : newest l = None <-> l = [].
Proof.
  split; [|by intros ->]. destruct l as [|i l]; [done|]. cbn. destruct (foldr _ None l); [|done].
  by case_match.
Qed.

Lemma pg_active_none t : pg_active t = None <-> existsb unresolved (custody_incidents t) = false.
Proof.
  unfold pg_active. rewrite fmap_None, newest_none.
  induction (custody_incidents t) as [|i l IH]; [done|]. cbn. by destruct (unresolved i).
Qed.

Lemma filter_unresolved_none l : existsb unresolved l = false -> List.filter unresolved l = [].
Proof. induction l as [|i l IH]; [done|]. cbn. by destruct (unresolved i). Qed.

Lemma resolved_all (f : incident_row -> incident_row) l :
  (forall i, unresolved (f i) = false) -> List.filter unresolved (f <$> l) = [].
Proof. intros Hf. induction l as [|i l IH]; [done|]. cbn. by rewrite Hf. Qed.

#[export] Instance pg_incident_spec : IncidentSpec pg_tables.
Proof.
  refine {| active_incident := pg_active |}.
  - intros c s. cbn [ActiveCustodyIncident pg_store]. unfold pg_run, pg_ActiveCustodyIncident.
    rewrite run_perform. unfold handle_pg. by destruct (pg_fault c _ QSelectIncident), (pg_done c _ QSelectIncident).
  - intros c reason mode s. cbn [OpenCustodyIncident pg_store].
    unfold pg_run, pg_OpenCustodyIncident. rewrite run_perform.
    assert (let s' := (run_statement c _ (QInsertIncident reason mode) s).2 in
            match pg_active s with
            | Some i => pg_active s' = Some i
            | None => exists id, pg_active s' = Some {| inc_ID := id; inc_Reason := reason;
                                                        inc_Mode := mode; inc_CreatedAt := c_now c |}
            end) as Hrun.
    { cbn [run_statement]. pose proof (pg_active_none s) as Hnone.
      destruct (existsb unresolved (custody_incidents s)) eqn:Hex; cbn [fst snd].
      - destruct (pg_active s) eqn:Ha; [exact Ha|]. discriminate (proj1 Hnone eq_refl).
      - rewrite (proj2 Hnone eq_refl). exists (next_incident s). unfold pg_active. cbn.
        rewrite List.filter_app, (filter_unresolved_none _ Hex). done. }
    unfold handle_pg. destruct (pg_fault c _ _); [destruct (pg_done c _ _)|]; cbn [fail_statement];
      [by right|by left|]. cbn [run_statement] in *. by destruct (existsb _ _); right.
  - intros c note s. cbn [ResolveCustodyIncident pg_store].
    unfold pg_run, pg_ResolveCustodyIncident. rewrite run_perform.
    assert (pg_active (run_statement c _ (QResolveIncidents note) s).2 = None) as Hrun.
    { cbn [run_statement fst snd]. unfold pg_active. cbn. rewrite resolved_all; [done|].
      intros i. by destruct (unresolved i) eqn:Hi. }
    unfold handle_pg. destruct (pg_fault c _ _); [destruct (pg_done c _ _)|]; cbn [fail_statement];
      [by left|by right|]. by left.
  - intros c e s. cbn [RecordCustodyEvent pg_store]. unfold pg_run, pg_RecordCustodyEvent.
    destruct (forallb _ _); [|done]. rewrite run_perform.
    by destruct (handle_pg_state c _ (QInsertEvent e) s) as [->| ->].
Defined.
End PgInstance.

(** ** Chain nonces *)

Section PgChain.
Context `{PgServer}.
Implicit Types t : pg_tables.

(** A reservation or a submitted transaction holds the nonce [z]. *)
Definition live_nonce (wallet network : string) (m : gmap (string * string * Z) chain_row) (z : Z) :
    Prop :=
  exists row, m !! (wallet, network, z) = Some row /\
    (cr_status row = "reserved"%string \/ cr_status row = "submitted"%string).

Lemma max_live_spec wallet network m :
  match max_live wallet network m with
  | None => forall z, ~ live_nonce wallet network m z
  | Some n => live_nonce wallet network m n /\ forall z, live_nonce wallet network m z -> z <= n
  end.
Proof.
  assert (forall z, live_nonce wallet network m z <->
            exists kv, kv ∈ filter (live_row wallet network) (map_to_list m) /\ kv.1.2 = z) as Hlive.
  { intros z. unfold live_nonce. setoid_rewrite list_elem_of_filter. split.
    - intros (row & Hrow & Hst). exists ((wallet, network, z), row).
      split; [|done]. split; [by split|]. by apply elem_of_map_to_list.
    - intros ([[[w n] z'] row] & [[Hwn Hst] Hin] & <-). cbn in *. injection Hwn as -> ->.
      exists row. split; [by apply elem_of_map_to_list|done]. }
  unfold max_live.
  assert (match foldr (fun kv acc => Some (match acc with None => kv.1.2 | Some n => Z.max kv.1.2 n end))
             None (filter (live_row wallet network) (map_to_list m)) with
          | None => forall kv, kv ∉ filter (live_row wallet network) (map_to_list m)
          | Some n => (exists kv, kv ∈ filter (live_row wallet network) (map_to_list m) /\ kv.1.2 = n) /\
                      forall kv, kv ∈ filter (live_row wallet network) (map_to_list m) -> kv.1.2 <= n
          end) as Hmax.
  { generalize (filter (live_row wallet network) (map_to_list m)) as l. clear.
    induction l as [|kv l IH]; cbn [foldr]; [intros kv; apply not_elem_of_nil|].
    destruct (foldr _ None l) as [n|].
    - destruct IH as [(kv' & Hin & <-) Hle]. split.
      + destruct (Z.max_spec kv.1.2 kv'.1.2) as [[_ ->]|[_ ->]].
        * exists kv'. split; [by apply list_elem_of_further|done].
        * exists kv. split; [apply list_elem_of_here|done].
      + intros x [->|Hx]%elem_of_cons; [lia|]. specialize (Hle x Hx). lia.
    - split; [exists kv; split; [apply list_elem_of_here|done]|].
      intros x [->|Hx]%elem_of_cons; [done|]. by destruct (IH x). }
  destruct (foldr _ None _) as [n|].
  - destruct Hmax as [Hex Hle]. split; [by apply Hlive|].
    intros z (kv & Hin & <-)%Hlive. by apply Hle.
  - intros z (kv & Hin & _)%Hlive. by destruct (Hmax kv).
Qed.

Lemma max_live_ext wallet network m m' :
  (forall z, live_nonce wallet network m z <-> live_nonce wallet network m' z) ->
  max_live wallet network m = max_live wallet network m'.
Proof.
  intros Hext. pose proof (max_live_spec wallet network m) as H1.
  pose proof (max_live_spec wallet network m') as H2.
  destruct (max_live wallet network m) as [n|], (max_live wallet network m') as [n'|]; [|..|done].
  - destruct H1 as [Hn Hle], H2 as [Hn' Hle']. f_equal.
    apply Z.le_antisymm; [by apply Hle', Hext|by apply Hle, Hext].
  - destruct H1 as [Hn _]. by destruct (H2 n); apply Hext.
  - destruct H2 as [Hn _]. by destruct (H1 n'); apply Hext.
Qed.

(** A successful reservation: a nonce no row had, at least what the chain
    reports, past every nonce held. *)
Lemma reserve_in_ok wallet network p t n t' :
  reserve_in wallet network p t = (Ok n, t') ->
  signer_chain_nonces t !! (wallet, network, n) = None /\
  signer_chain_nonces t' =
    <[(wallet, network, n) := {| cr_status := "reserved"; cr_hash := ""; cr_reason := "" |}]>
      (signer_chain_nonces t) /\
  p <= n <= max_i64.
Proof.
  unfold reserve_in. set (next := match max_live _ _ _ with Some _ => _ | None => _ end).
  assert (p <= next) as Hp.
  { unfold next. destruct (max_live _ _ _) as [m|]; [|lia].
    destruct (Z.ltb_spec p (u64 (u64 m + 1))); lia. }
  destruct (fits_bigint next) eqn:Hfit; cbn [negb]; [|done]. apply Z.leb_le in Hfit.
  destruct (signer_chain_nonces t !! _) eqn:Hrow; [done|]. intros [= <- <-]. by repeat split.
Qed.

Lemma reserve_in_err wallet network p t e t' : reserve_in wallet network p t = (Err e, t') -> t' = t.
Proof. unfold reserve_in. repeat case_match; congruence. Qed.

(** No statement removes a row of [signer_chain_nonces]. *)
Lemma statement_keeps_rows c X (op : pg_op X) t key :
  is_Some (signer_chain_nonces t !! key) ->
  is_Some (signer_chain_nonces (handle_pg c X op t).2 !! key).
Proof.
  intros Hrow. destruct (handle_pg_state c X op t) as [->| ->]; [done|].
  destruct op; cbn [run_statement]; try (by repeat case_match).
  - unfold reserve_in. repeat case_match; try done; cbn; apply lookup_insert_is_Some'; by right.
  - cbn. by apply lookup_alter_is_Some.
Qed.

(** Any statement of any session. *)
Inductive pg_step : pg_tables -> pg_tables -> Prop :=
| pg_statement c X (op : pg_op X) t : pg_step t (handle_pg c X op t).2.

(** The database never hands out a chain nonce twice: two successful
    reservations for a wallet and a network differ, whatever statements of
    whatever sessions run in between, even if the first was marked failed. *)
Theorem pg_reservations_distinct wallet network p p' n n' t t1 t2 t3 :
  reserve_in wallet network p t = (Ok n, t1) -> rtc pg_step t1 t2 ->
  reserve_in wallet network p' t2 = (Ok n', t3) -> n <> n'.
Proof.
  intros (_ & Hrow & _)%reserve_in_ok Hsteps (Hfree & _ & _)%reserve_in_ok <-.
  assert (is_Some (signer_chain_nonces t1 !! (wallet, network, n))) as Hsome
    by (rewrite Hrow, lookup_insert_eq; eauto).
  assert (is_Some (signer_chain_nonces t2 !! (wallet, network, n))) as [? Hsome2].
  { clear Hfree Hrow. induction Hsteps as [|t1 t2' t2 [c X op t'] _ IH]; [done|].
    by apply IH, statement_keeps_rows. }
  congruence.
Qed.

(** A row takes its nonce for good. *)
Definition pg_nonce_taken (t : pg_tables) (u : reservation) : Prop :=
  is_Some (signer_chain_nonces t !! u).

Definition reserve_statement {X} (op : pg_op X) : bool :=
  match op with TReserveNonce _ _ _ => true | _ => false end.

Lemma statement_takes_nothing c X (op : pg_op X) t u :
  reserve_statement op = false ->
  pg_nonce_taken (handle_pg c X op t).2 u <-> pg_nonce_taken t u.
Proof.
  intros Hop. unfold pg_nonce_taken. destruct (handle_pg_state c X op t) as [->| ->]; [done|].
  destruct op; try done; cbn [run_statement]; try (by repeat case_match).
  cbn. by rewrite lookup_alter_is_Some.
Qed.

Lemma reserve_in_takes wallet network p t :
  let (r, t') := reserve_in wallet network p t in
  match r with
  | Ok n =>
      ~ pg_nonce_taken t (wallet, network, n) /\
      forall u, pg_nonce_taken t' u <-> pg_nonce_taken t u \/ u = (wallet, network, n)
  | Err _ => t' = t
  end.
Proof.
  destruct (reserve_in wallet network p t) as [[n|e] t'] eqn:Hres.
  - apply reserve_in_ok in Hres as (Hnone & Hrow & _). unfold pg_nonce_taken. rewrite Hrow, Hnone.
    split; [by apply is_Some_None|]. intros u. rewrite lookup_insert_is_Some'. naive_solver.
  - by apply reserve_in_err in Hres.
Qed.

Lemma reserve_in_fits wallet network p t n t' :
  reserve_in wallet network p t = (Ok n, t') -> n < last_nonce.
Proof.
  intros (_ & _ & _ & Hn)%reserve_in_ok. unfold max_i64, last_nonce in *. lia.
Qed.

(** The transaction of [ReserveChainNonce]: also where its answer is lost the row it
    made takes a nonce, of a [BIGINT]. *)
Lemma reserve_takes c wallet network p t :
  let (r, t') := handle_pg c _ (TReserveNonce wallet network p) t in
  (forall u, pg_nonce_taken t u -> pg_nonce_taken t' u) /\
  match r with
  | Ok n =>
      ~ pg_nonce_taken t (wallet, network, n) /\ pg_nonce_taken t' (wallet, network, n) /\
      forall u, pg_nonce_taken t' u -> pg_nonce_taken t u \/ u.2 <= n
  | Err _ => forall u, pg_nonce_taken t' u -> pg_nonce_taken t u \/ u.2 < last_nonce
  end.
Proof.
  pose proof (reserve_in_takes wallet network p t) as Htakes.
  pose proof (reserve_in_fits wallet network p t) as Hfits.
  unfold handle_pg. destruct (pg_fault c _ _); [destruct (pg_done c _ _)|]; cbn [run_statement fail_statement];
    [|by auto|]; destruct (reserve_in wallet network p t) as [[n|e] t']; cbn [snd]; try (by subst; auto);
    destruct Htakes as [Hfree Hiff]; (split; [intros u Hu; apply Hiff; by left|]).
  - intros u [Hu| ->]%Hiff; [by left|right]. by apply (Hfits n t').
  - split; [done|]. split; [apply Hiff; by right|]. intros u [Hu| ->]%Hiff; [by left|by right].
Qed.

Lemma method_takes_nothing X (e : store_eff X) :
  reserve_call e = false -> only (fun Y op => reserve_statement op = false) (pg_method e).
Proof.
  intros He. destruct e; try done; cbn [pg_method];
    unfold pg_AcceptNonce, pg_ClaimResult, pg_GetResult, pg_SaveResult, pg_ReleaseClaim,
      pg_RecordCustodyEvent, pg_MarkChainNonceSubmitted, pg_MarkChainNonceFailed, pg_mark,
      pg_CreateSignerTransaction, pg_MarkSignerTransactionStatus, pg_DailySubmittedOutflow;
    repeat first [case_match|apply only_ret|by apply only_perform
                 |apply only_try; [|intros ?]|apply only_bind; [|intros ?]].
Qed.

(** The day's rows under the spelling of the token. *)
#[export] Instance pg_outflow_spec : OutflowSpec pg_tables.
Proof.
  refine {| outflow_texts c token network t :=
    (fun r => sx_Amount (tr_item r)) <$>
      List.filter (counts_today c token network) (map_to_list (signer_transactions t)).*2 |}.
  intros c token network t outflow. cbn [DailySubmittedOutflow pg_store].
  unfold pg_run, pg_DailySubmittedOutflow, try. cbn.
  unfold handle_pg. destruct (pg_fault c _ _); [done|]. cbn. intros [= <-]. eexists.
  split; [|reflexivity]. apply fmap_Permutation, filter_bool_perm.
  unfold rows_of. by rewrite map_range_perm.
Defined.

#[export] Instance pg_chain_spec : ChainSpec pg_tables.
Proof.
  refine {| nonce_taken := pg_nonce_taken |}.
  - intros c wallet network p t _. cbn [ReserveChainNonce pg_store].
    unfold pg_run, pg_ReserveChainNonce. rewrite run_perform. apply reserve_takes.
  - intros c X e t u He.
    assert (handle_store c X e t = pg_run (pg_method e) c t) as -> by by destruct e.
    refine (only_run _ (handle_pg c) (fun t' => pg_nonce_taken t' u <-> pg_nonce_taken t u)
              _ _ _ (method_takes_nothing _ _ He) t (iff_refl _)).
    intros Y op t' Hop <-. by apply statement_takes_nothing.
Defined.

Definition failed_row (reason : string) (r : chain_row) : chain_row :=
  {| cr_status := "failed"; cr_hash := cr_hash r; cr_reason := reason |}.

(** ** A nonce that was given up *)

Section Jam.
Variables (wallet network : string) (p : Z).

Definition held (row : chain_row) : Prop :=
  cr_status row = "reserved"%string \/ cr_status row = "submitted"%string.

(** The next reservation comes to a nonce that has a row and is not held. *)
Definition jammed (t : pg_tables) : Prop :=
  exists n row, signer_chain_nonces t !! (wallet, network, n) = Some row /\ ~ held row /\
    forall t', (forall z, live_nonce wallet network (signer_chain_nonces t') z <->
                          live_nonce wallet network (signer_chain_nonces t) z) ->
      is_Some (signer_chain_nonces t' !! (wallet, network, n)) ->
      exists e, reserve_in wallet network p t' = (Err e, t').

(** The chain reports the same pending nonce to every reservation of the wallet,
    and no nonce of the wallet is given up or taken back meanwhile. *)
Definition leaves_held (t : pg_tables) (X : Type) (op : pg_op X) : Prop :=
  match op with
  | TReserveNonce w net q => (w, net) = (wallet, network) -> q = p
  | QMarkNonce w net z mark => (w, net) = (wallet, network) -> forall row,
      signer_chain_nonces t !! (w, net, z) = Some row -> held (mark row) <-> held row
  | _ => True
  end.

Inductive quiet_step : pg_tables -> pg_tables -> Prop :=
| quiet_statement c X (op : pg_op X) t : leaves_held t X op -> quiet_step t (handle_pg c X op t).2.

Lemma jammed_ext t t' :
  (forall z, live_nonce wallet network (signer_chain_nonces t') z <->
             live_nonce wallet network (signer_chain_nonces t) z) ->
  (forall n, is_Some (signer_chain_nonces t !! (wallet, network, n)) ->
             is_Some (signer_chain_nonces t' !! (wallet, network, n))) ->
  jammed t -> jammed t'.
Proof.
  intros Hlive Hrows (n & row & Hrow & Hheld & Hjam).
  destruct (Hrows n ltac:(by eexists)) as [row' Hrow']. exists n, row'. split; [done|]. split.
  - intros Hh. destruct (proj1 (Hlive n)) as (row2 & Hrow2 & Hh2); [by exists row'|]. by simplify_eq.
  - intros t2 Hlive2. apply Hjam. intros z. by rewrite Hlive2.
Qed.

Lemma jammed_refuses t : jammed t -> exists e, reserve_in wallet network p t = (Err e, t).
Proof. intros (n & row & Hrow & _ & Hjam). apply Hjam; [done|by eexists]. Qed.

Lemma quiet_jammed t t' : quiet_step t t' -> jammed t -> jammed t'.
Proof.
  intros [c X op t0 Hop] Hjam. eapply jammed_ext; [| |exact Hjam]; [|by intros n; apply statement_keeps_rows].
  intros z. unfold live_nonce. destruct (handle_pg_state c X op t0) as [->| ->]; [done|].
  destruct op; cbn [run_statement]; try (by repeat case_match).
  - cbn in Hop. destruct (decide ((wallet0, network0) = (wallet, network))) as [[= -> ->]|Hne].
    + rewrite Hop by done. by destruct (jammed_refuses t0 Hjam) as [e ->].
    + destruct (reserve_in wallet0 network0 chainPending t0) as [r t1] eqn:Hres; cbn [snd].
      destruct r as [n|e]; [|by apply reserve_in_err in Hres as ->].
      apply reserve_in_ok in Hres as (_ & -> & _). by rewrite lookup_insert_ne by congruence.
  - cbn in Hop |- *. destruct (decide ((wallet0, network0, nonce) = (wallet, network, z))) as [[= -> -> ->]|Hne].
    + rewrite lookup_alter_eq. specialize (Hop eq_refl).
      destruct (signer_chain_nonces t0 !! (wallet, network, z)) as [row|]; cbn; [|done].
      specialize (Hop row eq_refl). unfold held in Hop. split; intros (? & [= <-] & Hh); eexists; (split; [done|]).
      * by apply Hop.
      * by apply Hop.
    + by rewrite lookup_alter_ne.
Qed.

Lemma quiet_steps_jammed t t' : rtc quiet_step t t' -> jammed t -> jammed t'.
Proof. induction 1 as [|t t1 t' Hstep _ IH]; [done|]. intros Hjam. by eapply IH, quiet_jammed. Qed.

(** C40: a nonce that is reserved and then given up jams its wallet. Its row no
    longer counts as held, so the next reservation comes to the same nonce, and its
    primary key refuses it: whatever statements run in whatever order, for as long
    as the chain reports the same pending nonce for the wallet and none of its other
    nonces is given up or taken back, every reservation of the wallet on that
    network fails and changes nothing. *)
Theorem failed_nonce_blocks_wallet c n reason t t1 t3 :
  pg_fault c _ (QMarkNonce wallet network n (failed_row reason)) = None ->
  reserve_in wallet network p t = (Ok n, t1) ->
  let t2 := (pg_run (pg_MarkChainNonceFailed wallet network n reason) c t1).2 in
  rtc quiet_step t2 t3 -> exists e, reserve_in wallet network p t3 = (Err e, t3).
Proof.
  intros Hfault Hres. pose proof (reserve_in_ok _ _ _ _ _ _ Hres) as (Hnone & Hrow & Hp & Hmax).
  unfold pg_run, pg_MarkChainNonceFailed, pg_mark.
  assert (fits_bigint n = true) as -> by by apply Z.leb_le.
  rewrite run_perform. unfold handle_pg. fold (failed_row reason). rewrite Hfault.
  cbn [run_statement snd]. cbv zeta. set (t2 := with_chain _ t1). intros Hsteps.
  apply jammed_refuses, (quiet_steps_jammed t2 _ Hsteps). clear Hsteps t3.
  set (row := failed_row reason {| cr_status := "reserved"; cr_hash := ""; cr_reason := "" |}).
  assert (signer_chain_nonces t2 = <[(wallet, network, n) := row]> (signer_chain_nonces t)) as Ht2.
  { unfold t2. cbn. rewrite Hrow. by rewrite alter_insert_eq. }
  assert (~ held row) as Hheld by by intros [|].
  exists n, row. split; [by rewrite Ht2, lookup_insert_eq|]. split; [done|]. intros t' Hlive [row' Hrow'].
  assert (max_live wallet network (signer_chain_nonces t') =
          max_live wallet network (signer_chain_nonces t)) as Hsame.
  { apply max_live_ext. intros z. rewrite Hlive. unfold live_nonce. rewrite Ht2.
    destruct (decide (z = n)) as [->|Hne].
    - rewrite lookup_insert_eq, Hnone. split; [|by intros (? & ? & _)]. by intros (? & [= <-] & [?|?]).
    - by rewrite lookup_insert_ne by congruence. }
  revert Hres. unfold reserve_in. rewrite Hsame.
  set (next := match max_live _ _ _ with Some _ => _ | None => _ end).
  destruct (negb (fits_bigint next)); [done|].
  destruct (signer_chain_nonces t !! (wallet, network, next)); [done|]. intros [= Hn _].
  rewrite Hn, Hrow'. by eexists.
Qed.
End Jam.
End PgChain.

(** ** Closed examples *)

(** A server at UTC that answers every statement. *)
Definition example_server : PgServer := {|
  day_start t := 24 * Hour * (t / (24 * Hour));
  row_order := list_map_order;
  pg_fault c X op := None;
  pg_done c X op := false |}.
#[local] Existing Instance example_server.

Definition at_boot : call := {| c_now := 0; c_seed := 0 |}.

Definition once_reserved : pg_tables := (reserve_in "0xw" "BSC" 7 empty_tables).2.
Definition once_failed : pg_tables :=
  (pg_run (pg_MarkChainNonceFailed "0xw" "BSC" 7 "boom") at_boot once_reserved).2.

Lemma pg_reservations_distinct_witness :
  (reserve_in "0xw" "BSC" 9 once_failed).1 = Ok 9 /\ 7 <> 9.
Proof.
  split; [vm_compute; reflexivity|].
  refine (pg_reservations_distinct "0xw" "BSC" 7 9 7 9 empty_tables once_reserved once_failed
            (reserve_in "0xw" "BSC" 9 once_failed).2 _ _ _); [vm_compute; reflexivity| |vm_compute; reflexivity].
  eapply rtc_l; [|apply rtc_refl].
  refine (eq_rect _ (pg_step once_reserved)
    (pg_statement at_boot _ (QMarkNonce "0xw" "BSC" 7 (failed_row "boom")) once_reserved) _ _).
  vm_compute. reflexivity.
Defined.

(** Another wallet is served, the failed nonce stays in the way. *)
Lemma failed_nonce_blocks_wallet_witness :
  let t3 := (reserve_in "0xv" "BSC" 7 once_failed).2 in
  exists e, reserve_in "0xw" "BSC" 7 t3 = (Err e, t3).
Proof.
  intros t3. refine (failed_nonce_blocks_wallet "0xw" "BSC" 7 at_boot 7 "boom" empty_tables once_reserved t3
            eq_refl _ _).
  - vm_compute. reflexivity.
  - eapply rtc_l; [|apply rtc_refl].
    refine (eq_rect _ (quiet_step "0xw" "BSC" 7 once_failed)
      (quiet_statement "0xw" "BSC" 7 at_boot _ (TReserveNonce "0xv" "BSC" 7) once_failed _) t3 eq_refl).
    discriminate.
Defined.
