(* ===== verification/TreasuryExact.v ===== *)
(** * The treasury limits, in exact amounts.

    The limits compare a sum of floats that [DailySubmittedOutflow] forms in the
    order in which [range] meets the records of a map. Here that sum is set against
    the exact total of the day: whatever the order, it is off by at most a last
    place for each record, so a transfer over a limit by more than that is refused
    and one under it by as much is not. *)
From S2P Require Export FloatValue Scenarios PgStore.

(** ** Sums *)

Fixpoint sum_q (l : list Q) : Q :=
  match l with [] => 0 | x :: l' => x + sum_q l' end%Q.

Lemma sum_q_app l l' : (sum_q (l ++ l') == sum_q l + sum_q l')%Q.
Proof. induction l as [|x l IH]; cbn [app sum_q]; [ring|]. rewrite IH. ring. Qed.

#[export] Instance sum_q_perm : Proper ((≡ₚ) ==> Qeq) sum_q.
Proof.
  intros l l' Hl. induction Hl as [|x l l' _ IH|x y l|l1 l2 l3 _ IH1 _ IH2]; cbn [sum_q].
  - reflexivity.
  - by rewrite IH.
  - ring.
  - by rewrite IH1.
Qed.

(** The float [x] is the sum [v] of at most [n] roundings. *)
Definition summed (n : Z) (x : f64) (v : Q) : Prop :=
  f_real x = true /\ (0 <= v)%Q /\
  (v * (1 - inject_Z n * ulp1) <= fval x)%Q /\ (fval x <= v * (1 + 2 * inject_Z n * ulp1))%Q.

(** So few that their roundings stay below a quarter. *)
Definition few (n : Z) : Prop := 0 <= n <= 2 ^ 49.

Lemma few_ulp1 n : few n -> (0 <= inject_Z n * ulp1 <= 1 # 4)%Q.
Proof.
  intros [H0 Hn]. pose proof ulp1_pos. rewrite Zle_Qle in H0, Hn. change (inject_Z 0) with 0%Q in H0.
  split; [apply Qmult_le_0_compat; lra|].
  assert (inject_Z (2 ^ 49) * ulp1 <= 1 # 4)%Q by discriminate.
  apply (Qmult_le_compat_r _ _ ulp1) in Hn; lra.
Qed.

Lemma summed_add n x v a :
  few (n + 1) -> 0 <= n -> summed n x v -> f_real a = true -> (v + fval a < pow2 800)%Q ->
  summed (n + 1) (fadd x a) (v + fval a).
Proof.
  intros Hfew Hn (Hx & Hv & Hlo & Hhi) Ha Hbig.
  pose proof (few_ulp1 _ Hfew) as [_ Hsmall]. pose proof (few_ulp1 n ltac:(unfold few in *; lia)) as [Hn0 _].
  rewrite inject_Z_plus in Hsmall. change (inject_Z 1) with 1%Q in Hsmall.
  pose proof (fval_nonneg _ Ha) as Ha0. pose proof (fval_nonneg _ Hx) as Hx0. pose proof ulp1_pos as Hu.
  assert (pow2 900 == pow2 800 * pow2 100)%Q as H900 by apply (pow2_plus 800 100).
  assert (2 <= pow2 100)%Q as H100 by discriminate. pose proof (pow2_pos 800) as H800.
  set (k := (inject_Z n * ulp1)%Q) in *.
  assert (k + ulp1 <= 1 # 4)%Q as Hk by (unfold k; lra).
  assert (v - v * k <= fval x)%Q as Hlo' by lra.
  assert (fval x <= v + 2 * (v * k))%Q as Hhi' by (unfold k; lra). clear Hlo Hhi.
  assert (v * k <= v * (1 # 4))%Q as Hvk by (rewrite !(Qmult_comm v); apply Qmult_le_compat_r; lra).
  assert (0 <= v * k)%Q as Hvk0 by (by apply Qmult_le_0_compat).
  destruct (fadd_spec x a Hx Ha) as [Hreal [Herr1 Herr2]%Qabs_Qle_condition].
  { rewrite H900. assert (pow2 800 * 2 <= pow2 800 * pow2 100)%Q by nra. lra. }
  assert (0 <= v * (k * ulp1) <= (1 # 4) * (v * ulp1))%Q as [Hvku0 Hvku].
  { split; [apply Qmult_le_0_compat; [done|apply Qmult_le_0_compat; lra]|].
    apply (Qmult_le_compat_r _ _ ulp1) in Hvk; lra. }
  assert (0 <= k * fval a)%Q by (by apply Qmult_le_0_compat).
  assert (0 <= ulp1 * fval a)%Q by (apply Qmult_le_0_compat; lra).
  assert (0 <= v * ulp1)%Q by (apply Qmult_le_0_compat; lra).
  split; [exact Hreal|]. split; [lra|]. rewrite inject_Z_plus. change (inject_Z 1) with 1%Q.
  assert (ulp1 <= 1)%Q as Hu1 by discriminate.
  assert ((v - v * k) * (1 - ulp1) <= fval x * (1 - ulp1))%Q by (apply Qmult_le_compat_r; lra).
  assert (fval x * (1 + ulp1) <= (v + 2 * (v * k)) * (1 + ulp1))%Q by (apply Qmult_le_compat_r; lra).
  assert (inject_Z n * ulp1 == k)%Q as Hn1 by reflexivity.
  split.
  - assert ((v + fval a) * (1 - (inject_Z n + 1) * ulp1) ==
            v - v * k - v * ulp1 + fval a - k * fval a - ulp1 * fval a)%Q as -> by (rewrite <- Hn1; ring).
    lra.
  - assert ((v + fval a) * (1 + 2 * (inject_Z n + 1) * ulp1) ==
            v + 2 * (v * k) + 2 * (v * ulp1) + fval a + 2 * (k * fval a) + 2 * (ulp1 * fval a))%Q as ->
      by (rewrite <- Hn1; ring).
    lra.
Qed.

Lemma summed_more n m x v : 0 <= n <= m -> summed n x v -> summed m x v.
Proof.
  intros [H0 Hm] (Hx & Hv & Hlo & Hhi). rewrite Zle_Qle in H0, Hm. change (inject_Z 0) with 0%Q in H0.
  assert (inject_Z n * ulp1 <= inject_Z m * ulp1)%Q as Hnm
    by (apply Qmult_le_compat_r; [done|]; pose proof ulp1_pos; lra).
  apply (Qmult_le_compat_r _ _ v) in Hnm; [|done].
  split; [done|]. split; [done|]. split; lra.
Qed.

Lemma summed_proper n x v v' : (v == v')%Q -> summed n x v -> summed n x v'.
Proof. unfold summed. intros ->. done. Qed.

(** ** The amounts of the day *)

(** What a text adds to the outflow: the number it stands for, if it parses. *)
Definition amount_of (text : string) : Q :=
  match ParseFloat text with Some v => fval v | None => 0 end.

(** The exact sum of amounts, and that each is finite and not negative. *)
Definition exact_total (texts : list string) : Q := sum_q (amount_of <$> texts).
Definition real_amount (text : string) : Prop :=
  forall v, ParseFloat text = Some v -> f_real v = true.

#[export] Instance exact_total_perm : Proper ((≡ₚ) ==> Qeq) exact_total.
Proof. intros l l' Hl. unfold exact_total. by rewrite Hl. Qed.

Lemma amount_of_nonneg text : real_amount text -> (0 <= amount_of text)%Q.
Proof.
  unfold real_amount, amount_of. destruct (ParseFloat text) as [v|]; [|intros _; apply Qle_refl].
  intros Hv. by apply fval_nonneg, Hv.
Qed.

Lemma exact_total_nonneg l : Forall real_amount l -> (0 <= exact_total l)%Q.
Proof.
  induction 1 as [|text l Htext _ IH]; [apply Qle_refl|]. unfold exact_total in *.
  cbn [fmap list_fmap sum_q]. apply amount_of_nonneg in Htext. lra.
Qed.

Lemma amounts_summed l n x v :
  Forall real_amount l -> 0 <= n -> few (n + Z.of_nat (length l)) ->
  (v + exact_total l < pow2 800)%Q -> summed n x v ->
  summed (n + Z.of_nat (length l)) (foldl add_amount x l) (v + exact_total l).
Proof.
  intros Hl. revert n x v. unfold exact_total.
  induction Hl as [|text l Htext Hl IH]; intros n x v Hn Hfew Hbig Hx.
  - cbn. rewrite Z.add_0_r. eapply summed_proper, Hx. ring.
  - pose proof (exact_total_nonneg l Hl) as Hrest. pose proof (amount_of_nonneg text Htext) as Hi.
    unfold exact_total in Hrest.
    cbn [fmap list_fmap sum_q foldl length] in *. rewrite Nat2Z.inj_succ in *.
    assert (summed (n + 1) (add_amount x text) (v + amount_of text)) as Hstep.
    { unfold add_amount, amount_of in *. destruct (ParseFloat text) as [a|] eqn:Ha.
      - apply summed_add; [unfold few in *; lia|done|done|by apply Htext|lra].
      - apply (summed_proper _ _ v); [ring|]. by apply (summed_more n); [lia|]. }
    replace (n + Z.succ (Z.of_nat (length l))) with (n + 1 + Z.of_nat (length l)) by lia.
    eapply summed_proper; [|apply IH; [lia| | |exact Hstep]].
    + cbn [fmap list_fmap]. ring.
    + unfold few in *. lia.
    + lra.
Qed.

(** The outflow a store tells is the exact one but for a rounding an amount. *)
Lemma outflow_near_total {S} `{OutflowSpec S} c token network (s : S) x :
  let day := outflow_texts c token network s in
  (DailySubmittedOutflow c token network s).1 = Ok x ->
  Forall real_amount day -> few (Z.of_nat (length day)) -> (exact_total day < pow2 800)%Q ->
  summed (Z.of_nat (length day)) x (exact_total day).
Proof.
  intros day Hout Hreal Hfew Hbig. apply outflow_spec in Hout as (texts & Hperm & ->).
  fold day in Hperm. pose proof (exact_total_perm _ _ Hperm) as Htotal.
  rewrite <- (Permutation_length Hperm) in *.
  assert (0 + exact_total texts == exact_total day)%Q as Hday by (rewrite Htotal; ring).
  eapply summed_proper; [exact Hday|].
  apply (amounts_summed _ 0); [by rewrite Hperm|lia|exact Hfew|by rewrite Hday|by repeat split].
Qed.

(** ** The limits *)

(** C31: the limits in exact amounts, over either store and in whatever order it
    lists its records. Let the amounts it counts for the token and network total
    [total] with the amount of the transfer, [n] of them. Over a limit by more than
    [n] last places, the transfer fails and broadcasts nothing, also where the store
    fails; where every limit that is on exceeds [total] by twice that and the store
    answers, the limits let it pass. *)
Theorem treasury_limits_exact {S} `{GoUnicode, Geth, GoText, OutflowSpec S} (env : environment)
    (cfg : SignerConfig) (req : TransferRequest) (w : world S) (amount : f64) :
  let network := requestedNetwork cfg req in
  let token := normalizedTokenContract cfg req network in
  let limits := [TreasuryLockThreshold cfg; TreasuryMaxDailyOut cfg] in
  let day := outflow_texts (the_call env w) token network (w_store w) in
  let total := (exact_total day + fval amount)%Q in
  let n := Z.of_nat (length day) + 1 in
  parseFloatAmount (tr_Amount req) = Ok amount -> f_real amount = true ->
  Forall real_amount day -> Forall (fun limit => f_real limit = true) limits ->
  n <= 2 ^ 49 -> (total < pow2 800)%Q ->
  (forall limit, limit ∈ limits -> (0 < fval limit)%Q ->
     (fval limit < total * (1 - inject_Z n * ulp1))%Q ->
     exists e w', execute env (executeTransfer cfg req) w = (Fail e, w') /\ w_sent w' = w_sent w) /\
  ((forall limit, limit ∈ limits -> (0 < fval limit)%Q ->
     (total * (1 + 2 * inject_Z n * ulp1) <= fval limit)%Q) ->
   is_ok (DailySubmittedOutflow (the_call env w) token network (w_store w)).1 = true ->
   (execute env (validateTreasuryPolicy cfg req network) w).1 = Ok tt).
Proof.
  intros network token limits day total n Hamount Hreal Hrecords Hlimits Hn Hbig.
  pose proof (fval_nonneg _ Hreal) as Ha. rewrite Forall_forall in Hlimits.
  assert (forall x, (DailySubmittedOutflow (the_call env w) token network (w_store w)).1 = Ok x ->
    f_real (fadd x amount) = true /\ (total * (1 - inject_Z n * ulp1) <= fval (fadd x amount))%Q /\
    (fval (fadd x amount) <= total * (1 + 2 * inject_Z n * ulp1))%Q) as Hnext.
  { intros x Hout. apply outflow_near_total in Hout as Hx; [|done|unfold few, n, day in *; lia|].
    - assert (summed n (fadd x amount) total) as (? & _ & ? & ?); [|done].
      apply summed_add; [unfold few, n in *; lia|lia|exact Hx|done|exact Hbig].
    - fold day. unfold total in Hbig. lra. }
  split.
  - intros limit Hin Hpos Hover. apply treasury_limit_stops_transfer. unfold treasury_refuses.
    rewrite Hamount. fold network token.
    destruct (DailySubmittedOutflow _ token network _).1 as [x|e]; [|done].
    destruct (Hnext x eq_refl) as (Hnreal & Hlo & _).
    exists limit. split; [done|]. split; apply fltb_spec; auto; lra.
  - intros Hunder Hanswer.
    destruct (DailySubmittedOutflow _ token network _).1 as [x|e] eqn:Hout; [|done].
    destruct (Hnext x eq_refl) as (Hnreal & _ & Hhi).
    destruct (execute_treasury env cfg req network amount x w Hamount Hout) as [s ->].
    rewrite treasury_limits_under; [done|]. intros (limit & Hin & Hpos & Hover).
    apply fltb_spec in Hpos; [|done|by auto]. apply fltb_spec in Hover; [|by auto|done].
    specialize (Hunder limit Hin Hpos). lra.
Qed.

(** ** Closed runs: 10000 tokens against a limit of 15000 a day, once and twice,
    in memory and in the database *)

#[local] Existing Instance ascii_unicode.
#[local] Existing Instance ref_geth.
#[local] Existing Instance example_text.
#[local] Existing Instance list_map_order.
#[local] Existing Instance example_server.

Definition day_of {S} `{OutflowSpec S} (w : world S) : list string :=
  outflow_texts (the_call good_environment w)
    (normalizedTokenContract daily_15000 pay_10000 "BSC") "BSC" (w_store w).

(** [first_world] and [after_one] with the tables for the maps. *)
Definition pg_first_world : world pg_tables := {|
  w_tick := w_tick first_world; w_store := empty_tables; w_fleet := w_fleet first_world;
  w_locked := w_locked first_world; w_reason := w_reason first_world;
  w_trusted := w_trusted first_world; w_sent := w_sent first_world |}.
Definition pg_after_one : world pg_tables :=
  (execute good_environment (executeTransfer daily_15000 pay_10000) pg_first_world).2.

Example days : day_of first_world = [] /\ day_of after_one = ["10000"] /\ day_of pg_after_one = ["10000"].
Proof. vm_compute. by split. Qed.

Lemma ten_thousand_real : Forall real_amount ["10000"].
Proof. constructor; [|done]. intros v Hv. vm_compute in Hv. injection Hv as <-. reflexivity. Qed.

Lemma treasury_limits_exact_witness :
  (exists e w', execute good_environment (executeTransfer daily_15000 pay_10000) after_one = (Fail e, w') /\
     w_sent w' = w_sent after_one) /\
  (exists e w', execute good_environment (executeTransfer daily_15000 pay_10000) pg_after_one = (Fail e, w') /\
     w_sent w' = w_sent pg_after_one) /\
  (execute good_environment (validateTreasuryPolicy daily_15000 pay_10000 "BSC") first_world).1 = Ok tt.
Proof.
  destruct days as (Hfirst & Hmem & Hpg). split; [|split].
  - pose proof (treasury_limits_exact good_environment daily_15000 pay_10000 after_one (f_of_Z 10000))
      as Hlimits.
    cbv zeta in Hlimits. change (outflow_texts _ _ _ _) with (day_of after_one) in Hlimits.
    rewrite Hmem in Hlimits. destruct Hlimits as [Hover _]; [vm_compute; reflexivity..| | | | |].
    + exact ten_thousand_real.
    + by repeat constructor.
    + by vm_compute.
    + vm_compute. reflexivity.
    + apply (Hover (f_of_Z 15000)); [apply list_elem_of_further, list_elem_of_here|vm_compute; reflexivity..].
  - pose proof (treasury_limits_exact good_environment daily_15000 pay_10000 pg_after_one (f_of_Z 10000))
      as Hlimits.
    cbv zeta in Hlimits. change (outflow_texts _ _ _ _) with (day_of pg_after_one) in Hlimits.
    rewrite Hpg in Hlimits. destruct Hlimits as [Hover _]; [vm_compute; reflexivity..| | | | |].
    + exact ten_thousand_real.
    + by repeat constructor.
    + by vm_compute.
    + vm_compute. reflexivity.
    + apply (Hover (f_of_Z 15000)); [apply list_elem_of_further, list_elem_of_here|vm_compute; reflexivity..].
  - pose proof (treasury_limits_exact good_environment daily_15000 pay_10000 first_world (f_of_Z 10000))
      as Hlimits.
    cbv zeta in Hlimits. change (outflow_texts _ _ _ _) with (day_of first_world) in Hlimits.
    rewrite Hfirst in Hlimits. destruct Hlimits as [_ Hunder]; [vm_compute; reflexivity..| | | | |].
    + constructor.
    + by repeat constructor.
    + by vm_compute.
    + vm_compute. reflexivity.
    + apply Hunder; [|vm_compute; reflexivity]. intros limit Hin.
      apply elem_of_cons in Hin as [->|Hin]; [|apply list_elem_of_singleton in Hin as ->];
        intros Hpos; vm_compute in Hpos |- *; congruence.
Defined.
