(* ===== verification/Schema.v ===== *)
(** * The schema migration: [postgresSignerStore.migrate].

    The migration is one [Exec] of a list of statements. Each says whether it minds
    that its relation is already there ([IF NOT EXISTS]). Whether the list takes
    effect as a whole, and where the connection may break, are arguments of
    [migrate]: nothing is assumed of them. *)
From S2P Require Export PgStore.

(** ** The part of a database the migration can see *)

Inductive sql_type := TEXT | BIGINT | BIGSERIAL | JSONB | TIMESTAMPTZ.

Record column := {
  col_name : string;
  col_type : sql_type;
  col_not_null : bool;
  col_default : option string;
}.

(** A row gives each column a value in text, or [NULL]. *)
Abbreviation row := (gmap string (option string)).

Record relation := {
  rel_columns : list column;
  rel_key : list string;
  rel_rows : list row;
}.

(** [UNIQUE (true) WHERE c IS NULL] allows one row without [c]. *)
Inductive index :=
| OnColumns (table : string) (columns : list string)
| OneWithout (table column : string).

Record database := {
  db_tables : gmap string relation;
  db_indexes : gmap string index;
}.

Definition no_database : database := {| db_tables := ∅; db_indexes := ∅ |}.

(** Tables and indexes share one name space. *)
Definition taken (name : string) (db : database) : bool :=
  bool_decide (is_Some (db_tables db !! name)) || bool_decide (is_Some (db_indexes db !! name)).

(** [IF NOT EXISTS], or nothing between [CREATE ..] and the name. *)
Inductive existing := IfNotExists | MustBeNew.

Inductive ddl :=
| CreateTable (e : existing) (name : string) (columns : list column) (key : list string)
| CreateIndex (e : existing) (name : string) (i : index).

Definition has_column (r : relation) (c : string) : bool :=
  existsb (fun col => String.eqb (col_name col) c) (rel_columns r).

Definition is_null (c : string) (r : row) : bool := bool_decide (default None (r !! c) = None).

(** Whether the rows of its table allow the index. *)
Definition allows_index (i : index) (db : database) : result unit :=
  match i with
  | OnColumns table columns =>
      match db_tables db !! table with
      | None => Err ("relation does not exist: " +:+ table)
      | Some r => guard_err (negb (forallb (has_column r) columns)) "column does not exist"
      end
  | OneWithout table c =>
      match db_tables db !! table with
      | None => Err ("relation does not exist: " +:+ table)
      | Some r =>
          guard_err (negb (has_column r c)) "column does not exist" ≫= λ _,
          guard_err (1 <? Z.of_nat (length (List.filter (is_null c) (rel_rows r))))
            "could not create unique index"
      end
  end.

(** The name is taken: the statement does nothing, or fails. *)
Definition already (e : existing) (name : string) (db : database) : result database :=
  match e with
  | IfNotExists => Ok db
  | MustBeNew => Err ("relation already exists: " +:+ name)
  end.

Definition exec_ddl (d : ddl) (db : database) : result database :=
  match d with
  | CreateTable e name columns key =>
      if taken name db then already e name db else
      Ok {| db_tables := <[name := {| rel_columns := columns; rel_key := key; rel_rows := [] |}]>
                           (db_tables db);
            db_indexes := db_indexes db |}
  | CreateIndex e name i =>
      if taken name db then already e name db else
      allows_index i db ≫= λ _,
      Ok {| db_tables := db_tables db; db_indexes := <[name := i]> (db_indexes db) |}
  end.

(** The statements in turn, up to one that fails; the connection is lost after
    [breaks] of them, if it is. *)
Fixpoint exec_ddls (breaks : option nat) (ds : list ddl) (db : database) : result unit * database :=
  match breaks with
  | Some O => (Err "connection lost", db)
  | _ =>
      match ds with
      | [] => (Ok tt, db)
      | d :: ds' =>
          match exec_ddl d db with
          | Err e => (Err e, db)
          | Ok db' => exec_ddls (pred <$> breaks) ds' db'
          end
      end
  end.

(** ** The statements of [migrate] *)

Definition key_column (name : string) : column :=
  {| col_name := name; col_type := TEXT; col_not_null := true; col_default := None |}.
Definition serial_id : column :=
  {| col_name := "id"; col_type := BIGSERIAL; col_not_null := true; col_default := None |}.
Definition required (name : string) (t : sql_type) : column :=
  {| col_name := name; col_type := t; col_not_null := true; col_default := None |}.
Definition defaulted (name : string) (t : sql_type) (d : string) : column :=
  {| col_name := name; col_type := t; col_not_null := true; col_default := Some d |}.
Definition nullable (name : string) (t : sql_type) : column :=
  {| col_name := name; col_type := t; col_not_null := false; col_default := None |}.

Definition migration : list ddl := [
  CreateTable IfNotExists "signer_nonces"
    [key_column "nonce"; required "expires_at" TIMESTAMPTZ;
     defaulted "created_at" TIMESTAMPTZ "now()"] ["nonce"];
  CreateTable IfNotExists "signer_idempotency"
    [key_column "idempotency_key"; required "response" JSONB;
     defaulted "created_at" TIMESTAMPTZ "now()"] ["idempotency_key"];
  CreateTable IfNotExists "signer_idempotency_locks"
    [key_column "idempotency_key"; defaulted "created_at" TIMESTAMPTZ "now()"] ["idempotency_key"];
  CreateTable IfNotExists "custody_events"
    [serial_id; required "kind" TEXT; defaulted "reason" TEXT ""; defaulted "mode" TEXT "";
     defaulted "tx_hash" TEXT ""; defaulted "wallet" TEXT ""; defaulted "data" JSONB "{}";
     defaulted "created_at" TIMESTAMPTZ "now()"] ["id"];
  CreateTable IfNotExists "custody_incidents"
    [serial_id; required "reason" TEXT; required "mode" TEXT; nullable "resolved_at" TIMESTAMPTZ;
     defaulted "resolution_note" TEXT ""; defaulted "created_at" TIMESTAMPTZ "now()"] ["id"];
  CreateIndex IfNotExists "idx_custody_incidents_active" (OneWithout "custody_incidents" "resolved_at");
  CreateTable IfNotExists "signer_chain_nonces"
    [required "wallet" TEXT; required "network" TEXT; required "nonce" BIGINT;
     required "status" TEXT; defaulted "tx_hash" TEXT ""; defaulted "reason" TEXT "";
     defaulted "created_at" TIMESTAMPTZ "now()"; defaulted "updated_at" TIMESTAMPTZ "now()"]
    ["wallet"; "network"; "nonce"];
  CreateTable IfNotExists "signer_transactions"
    [key_column "tx_hash"; defaulted "idempotency_key" TEXT ""; required "wallet_from" TEXT;
     required "wallet_to" TEXT; defaulted "token" TEXT ""; required "amount" TEXT;
     required "network" TEXT; required "nonce" BIGINT; required "status" TEXT;
     defaulted "reason" TEXT ""; defaulted "confirmations" BIGINT "0";
     defaulted "created_at" TIMESTAMPTZ "now()"; defaulted "updated_at" TIMESTAMPTZ "now()"]
    ["tx_hash"];
  CreateIndex IfNotExists "idx_signer_nonces_expires_at" (OnColumns "signer_nonces" ["expires_at"]);
  CreateIndex IfNotExists "idx_signer_transactions_status"
    (OnColumns "signer_transactions" ["status"; "created_at"]);
  CreateIndex IfNotExists "idx_signer_transactions_daily"
    (OnColumns "signer_transactions" ["network"; "token"; "created_at"])]%string.

(** [migrate]: a ping, then the statements. [whole]: the server runs them as one
    transaction. *)
Definition migrate (whole : bool) (breaks : option nat) (ping : result unit) (db : database) :
    result unit * database :=
  match ping with
  | Err e => (Err e, db)
  | Ok _ =>
      match exec_ddls breaks migration db with
      | (Err e, db') => (Err e, if whole then db else db')
      | r => r
      end
  end.

(** ** What it leaves alone, and what it leaves *)

(** Every relation of [db] is there unchanged. *)
Definition keeps (db db' : database) : Prop :=
  db_tables db ⊆ db_tables db' /\ db_indexes db ⊆ db_indexes db'.

#[export] Instance keeps_preorder : PreOrder keeps.
Proof. split; [by intros db; split|]. intros x y z [] []. split; by etrans. Qed.

Definition ddl_name (d : ddl) : string :=
  match d with CreateTable _ name _ _ | CreateIndex _ name _ => name end.

Lemma taken_keeps name db db' : keeps db db' -> taken name db = true -> taken name db' = true.
Proof.
  intros [Ht Hi]. unfold taken. rewrite !orb_true_iff, !bool_decide_eq_true.
  intros [[x Hx]|[x Hx]]; [left|right]; exists x; by eapply lookup_weaken.
Qed.

Lemma taken_none name db : taken name db = false -> db_tables db !! name = None /\ db_indexes db !! name = None.
Proof.
  unfold taken. rewrite orb_false_iff, !bool_decide_eq_false, <- !eq_None_not_Some. done.
Qed.

Lemma exec_ddl_keeps d db db' :
  exec_ddl d db = Ok db' -> keeps db db' /\ taken (ddl_name d) db' = true.
Proof.
  unfold taken. destruct d as [e name columns key|e name i]; cbn.
  - destruct (taken name db) eqn:Ht; [destruct e; by intros [= <-]|]. intros [= <-].
    apply taken_none in Ht as [Hn _].
    cbn. split; [split; [by apply insert_subseteq|done]|].
    by rewrite lookup_insert_eq.
  - destruct (taken name db) eqn:Ht; [destruct e; by intros [= <-]|]. apply taken_none in Ht as [_ Hn].
    destruct (allows_index i db); cbn; [|done]. intros [= <-]. cbn.
    split; [split; [done|by apply insert_subseteq]|].
    rewrite (lookup_insert_eq (db_indexes db)). apply orb_true_r.
Qed.

Lemma exec_ddl_elsewhere d db db' name :
  exec_ddl d db = Ok db' -> ddl_name d <> name ->
  db_tables db' !! name = db_tables db !! name /\ db_indexes db' !! name = db_indexes db !! name.
Proof.
  destruct d as [e n columns key|e n i]; cbn; destruct (taken n db); try (destruct e; by intros [= <-]).
  - intros [= <-] Hn. cbn. by rewrite lookup_insert_ne.
  - destruct (allows_index i db); cbn; [|done]. intros [= <-] Hn. cbn.
    by rewrite (lookup_insert_ne (db_indexes db)).
Qed.

Lemma exec_ddl_other d db db' name :
  exec_ddl d db = Ok db' -> ddl_name d <> name -> taken name db' = taken name db.
Proof. intros Hd Hn. unfold taken. by destruct (exec_ddl_elsewhere _ _ _ _ Hd Hn) as [-> ->]. Qed.

(** ** Running some of the statements *)

(** They all go through. *)
Fixpoint ran (ds : list ddl) (db db' : database) : Prop :=
  match ds with
  | [] => db' = db
  | d :: ds' => exists db1, exec_ddl d db = Ok db1 /\ ran ds' db1 db'
  end.

Lemma ran_keeps ds db db' :
  ran ds db db' -> keeps db db' /\ Forall (fun d => taken (ddl_name d) db' = true) ds.
Proof.
  revert db. induction ds as [|d ds IH]; intros db; cbn; [by intros ->|].
  intros (db1 & Hd & [Hkeep Hall]%IH). apply exec_ddl_keeps in Hd as [Hkeep1 Hd].
  split; [by etrans|]. constructor; [by eapply taken_keeps|done].
Qed.

(** Wherever it stops, a part of the statements has run, and all of them if it
    reports no error. *)
Lemma exec_ddls_prefix breaks ds db r db' :
  exec_ddls breaks ds db = (r, db') ->
  exists ds1 ds2, ds = (ds1 ++ ds2)%list /\ ran ds1 db db' /\ (r = Ok tt -> ds2 = []).
Proof.
  revert breaks db. induction ds as [|d ds IH]; intros breaks db; cbn.
  - destruct breaks as [[|n]|]; intros [= <- <-]; by exists [], [].
  - assert (forall e, (e, db) = (r, db') -> e <> Ok tt -> exists ds1 ds2, d :: ds = (ds1 ++ ds2)%list /\
              ran ds1 db db' /\ (r = Ok tt -> ds2 = [])) as Hstop
      by (intros e [= -> ->] He; by exists [], (d :: ds)).
    destruct breaks as [[|n]|]; [by intros He; apply (Hstop _ He)|..];
      (destruct (exec_ddl d db) as [db1|e] eqn:Hd; [|by intros He; apply (Hstop _ He)]);
      (intros (ds1 & ds2 & -> & Hran & Hall)%IH; exists (d :: ds1), ds2; split; [done|]; split; [|done];
       by exists db1).
Qed.

Lemma exec_ddls_ran ds1 ds2 db db' :
  ran ds1 db db' -> exec_ddls None (ds1 ++ ds2) db = exec_ddls None ds2 db'.
Proof.
  revert db. induction ds1 as [|d ds1 IH]; intros db; cbn; [by intros ->|].
  intros (db1 & -> & Hran). by apply IH.
Qed.

(** A statement that minds nothing, whose relation is there, does nothing. *)
Definition repeatable (d : ddl) : bool :=
  match d with CreateTable IfNotExists _ _ _ | CreateIndex IfNotExists _ _ => true | _ => false end.

Lemma ran_again ds db :
  forallb repeatable ds = true -> Forall (fun d => taken (ddl_name d) db = true) ds -> ran ds db db.
Proof.
  intros Hrep. induction 1 as [|d ds Hd _ IH]; [done|]. cbn in Hrep. apply andb_true_iff in Hrep as [Hr Hrep].
  exists db. split; [|by apply IH]. destruct d as [[] n cs k|[] n i]; try done; cbn in *; by rewrite Hd.
Qed.

Lemma migration_repeatable : forallb repeatable migration = true.
Proof. vm_compute. reflexivity. Qed.

(** Statements that were broken off go on as they would have. *)
Lemma exec_ddls_resumes breaks db r db' :
  exec_ddls breaks migration db = (r, db') ->
  exec_ddls None migration db' = exec_ddls None migration db.
Proof.
  intros (ds1 & ds2 & Hds & Hran & _)%exec_ddls_prefix. pose proof migration_repeatable as Hrep.
  rewrite Hds in Hrep |- *. rewrite forallb_app in Hrep. apply andb_true_iff in Hrep as [Hrep _].
  rewrite (exec_ddls_ran ds1 ds2 db db' Hran). apply exec_ddls_ran, ran_again; [done|].
  by destruct (ran_keeps _ _ _ Hran).
Qed.

(** At most one incident is open when the index on them is made. *)
Lemma active_index_made ds db db' e name table c :
  CreateIndex e name (OneWithout table c) ∈ ds -> taken name db = false ->
  Forall (fun d => ddl_name d = name -> d = CreateIndex e name (OneWithout table c)) ds ->
  ran ds db db' ->
  exists r, db_tables db' !! table = Some r /\
    (length (List.filter (is_null c) (rel_rows r)) <= 1)%nat.
Proof.
  intros Hin Hfree Hnames. revert db Hin Hfree. induction Hnames as [|d ds Hd _ IH]; intros db Hin Hfree;
    [by apply not_elem_of_nil in Hin|].
  cbn. intros (db1 & Hd1 & Hrest).
  destruct (decide (ddl_name d = name)) as [Hn|Hn].
  - specialize (Hd Hn) as ->. cbn in Hd1. rewrite Hfree in Hd1.
    apply result_bind_ok in Hd1 as ([] & Hallow & [= <-]).
    destruct (db_tables db !! table) as [r|] eqn:Hr; [|done].
    apply guard_err_bind in Hallow as [_ Hallow]. unfold guard_err in Hallow.
    destruct (Z.ltb_spec 1 (Z.of_nat (length (List.filter (is_null c) (rel_rows r))))); [done|].
    exists r. split; [|lia]. apply ran_keeps in Hrest as [[Ht _] _]. by eapply lookup_weaken.
  - apply elem_of_cons in Hin as [<-|Hin]; [done|].
    apply (IH db1); [done|by rewrite (exec_ddl_other _ _ _ _ Hd1 Hn)|done].
Qed.

(** C18: the migration is safe to run at every start. Whether or not the server runs
    it as a whole, and wherever it fails or the connection breaks: it never touches
    a relation that is there, so no row is lost; run again it goes on to what it
    would have come to. Once it has gone through, every later run does nothing,
    whatever rows the tables have by then; and where it made the index on open
    incidents, at most one incident was open. *)
Theorem migration_is_safe whole breaks ping db :
  let (r, db') := migrate whole breaks ping db in
  keeps db db' /\
  migrate whole None (Ok tt) db' = migrate whole None (Ok tt) db /\
  (r = Ok tt ->
   Forall (fun d => taken (ddl_name d) db' = true) migration /\
   (forall later, (forall name, taken name db' = true -> taken name later = true) ->
      migrate whole None (Ok tt) later = (Ok tt, later)) /\
   (taken "idx_custody_incidents_active" db = false ->
    exists incidents, db_tables db' !! "custody_incidents"%string = Some incidents /\
      (length (List.filter (is_null "resolved_at") (rel_rows incidents)) <= 1)%nat)).
Proof.
  destruct (migrate whole breaks ping db) as [r db'] eqn:Hm. unfold migrate in Hm.
  destruct ping as [[]|e]; [|injection Hm as <- <-; split; [done|by split]].
  destruct (exec_ddls breaks migration db) as [r1 db1] eqn:Hrun.
  pose proof (exec_ddls_resumes _ _ _ _ Hrun) as Hresume.
  apply exec_ddls_prefix in Hrun as (ds1 & ds2 & Hds & Hran & Hall).
  destruct (ran_keeps _ _ _ Hran) as [Hkeep Htaken]. destruct r1 as [[]|e]; injection Hm as <- <-.
  - rewrite (Hall eq_refl), (right_id_L [] (++)) in Hds. rewrite <- Hds in Htaken, Hran.
    pose proof (exec_ddls_ran migration [] db db1 Hran) as Hfull. rewrite (right_id_L [] (++)) in Hfull.
    split; [done|]. split; [unfold migrate; by rewrite Hresume, Hfull|]. intros _. split; [done|]. split.
    + intros later Hlater. unfold migrate.
      pose proof (exec_ddls_ran migration [] later later) as Hdo. rewrite (right_id_L [] (++)) in Hdo.
      rewrite Hdo; [done|]. apply ran_again; [apply migration_repeatable|]. eapply Forall_impl; [exact Htaken|]. auto.
    + intros Hfree. eapply active_index_made; [..|exact Hran].
      * apply list_elem_of_In. cbn. tauto.
      * exact Hfree.
      * unfold migration. by repeat constructor.
  - destruct whole; [split; [done|by split]|]. split; [done|]. split; [|done]. unfold migrate. by rewrite Hresume.
Qed.

(** ** When it succeeds *)

Definition index_table (i : index) : string :=
  match i with OnColumns table _ | OneWithout table _ => table end.
Definition index_columns (i : index) : list string :=
  match i with OnColumns _ columns => columns | OneWithout _ c => [c] end.

Definition open_rows (c : string) (r : relation) : nat := length (List.filter (is_null c) (rel_rows r)).

(** What is already there does not contradict the statement: a table has the
    columns it would get, no index has its name, at most one row is open. *)
Definition fits_ddl (db : database) (d : ddl) : bool :=
  match d with
  | CreateTable _ name columns _ =>
      bool_decide (db_indexes db !! name = None)
      && match db_tables db !! name with
         | Some r => forallb (fun c => has_column r (col_name c)) columns
         | None => true
         end
  | CreateIndex _ _ (OneWithout table c) =>
      match db_tables db !! table with Some r => (open_rows c r <=? 1)%nat | None => true end
  | CreateIndex _ _ (OnColumns _ _) => true
  end.

Definition repeatable_if (e : existing) : bool := match e with IfNotExists => true | MustBeNew => false end.

Definition makes_table (name : string) (d : ddl) : bool :=
  match d with CreateTable _ n _ _ => String.eqb n name | CreateIndex _ _ _ => false end.

(** Each statement is repeatable, each table is made once, before its indexes, with their columns. *)
Fixpoint well_ordered (made : list (string * list string)) (ds : list ddl) : bool :=
  match ds with
  | [] => true
  | CreateTable e name columns _ :: ds' =>
      repeatable_if e && negb (existsb (makes_table name) ds')
      && well_ordered ((name, col_name <$> columns) :: made) ds'
  | CreateIndex e name i :: ds' =>
      repeatable_if e && negb (existsb (makes_table name) ds')
      && existsb (fun t => String.eqb t.1 (index_table i)
                           && forallb (fun c => existsb (String.eqb c) t.2) (index_columns i)) made
      && well_ordered made ds'
  end.

Definition has_table (db : database) (t : string * list string) : Prop :=
  exists r, db_tables db !! t.1 = Some r /\ Forall (fun c => has_column r c = true) t.2.

Lemma has_table_keeps db db' t : keeps db db' -> has_table db t -> has_table db' t.
Proof. intros [Ht _] (r & Hr & Hc). exists r. split; [by eapply lookup_weaken|done]. Qed.

(** The other statements still fit. *)
Lemma fits_after d db db' ds :
  exec_ddl d db = Ok db' -> existsb (makes_table (ddl_name d)) ds = false ->
  Forall (fun d => fits_ddl db d = true) ds -> Forall (fun d => fits_ddl db' d = true) ds.
Proof.
  intros Hd Hother Hfit. apply Forall_forall. intros d' Hd'.
  rewrite Forall_forall in Hfit. specialize (Hfit d' Hd').
  assert (makes_table (ddl_name d) d' = false) as Hne.
  { apply not_true_is_false. intros Ht. apply not_true_iff_false in Hother. apply Hother.
    apply existsb_exists. exists d'. split; [by apply list_elem_of_In|done]. }
  destruct d as [e name columns key|e name i]; cbn in *;
    destruct (taken name db); try (destruct e; [by injection Hd as <-|done]).
  - injection Hd as <-. destruct d' as [e' n cs k|e' n [t cs|t c]]; cbn in *; [|done|].
    + apply String.eqb_neq in Hne. by rewrite lookup_insert_ne by congruence.
    + destruct (decide (name = t)) as [->|Hn]; [by rewrite lookup_insert_eq|by rewrite lookup_insert_ne].
  - destruct (allows_index i db); cbn in Hd; [|done]. injection Hd as <-.
    destruct d' as [e' n cs k|e' n [t cs|t c]]; cbn in *; [|done|done].
    apply String.eqb_neq in Hne. by rewrite lookup_insert_ne by congruence.
Qed.

Lemma index_allowed e name i db t :
  has_table db t -> fits_ddl db (CreateIndex e name i) = true -> String.eqb t.1 (index_table i) = true ->
  forallb (fun c => existsb (String.eqb c) t.2) (index_columns i) = true ->
  allows_index i db = Ok tt.
Proof.
  intros (r & Hr & Hcols) Hfit Htab%String.eqb_eq Hin. rewrite Htab in Hr. rewrite forallb_forall in Hin.
  assert (forall c, In c (index_columns i) -> has_column r c = true) as Hhas.
  { intros c (c' & Hc' & <-%String.eqb_eq)%Hin%existsb_exists. rewrite Forall_forall in Hcols.
    by apply Hcols, list_elem_of_In. }
  destruct i as [table columns|table c]; cbn in *; rewrite Hr in *.
  - rewrite (proj2 (forallb_forall _ _)); [done|exact Hhas].
  - rewrite (Hhas c) by by left. cbn. apply Nat.leb_le in Hfit. unfold open_rows in Hfit.
    destruct (Z.ltb_spec 1 (Z.of_nat (length (List.filter (is_null c) (rel_rows r))))); [lia|done].
Qed.

Lemma exec_ddls_succeed ds made db :
  well_ordered made ds = true -> Forall (has_table db) made ->
  Forall (fun d => fits_ddl db d = true) ds -> exists db', exec_ddls None ds db = (Ok tt, db').
Proof.
  revert made db. induction ds as [|d ds IH]; intros made db Hord Hmade Hfit; [by eexists|].
  apply Forall_cons in Hfit as [Hd Hfit].
  enough (exists db1 made', exec_ddl d db = Ok db1 /\ existsb (makes_table (ddl_name d)) ds = false /\
    well_ordered made' ds = true /\ Forall (has_table db1) made')
    as (db1 & made' & Hrun & Hother & Hord' & Hmade').
  { destruct (IH made' db1) as [db' Hdb']; [done..|by eapply fits_after|].
    exists db'. cbn. by rewrite Hrun. }
  destruct d as [e name columns key|e name i]; cbn in Hord; rewrite !andb_true_iff, negb_true_iff in Hord.
  - destruct Hord as [[He Hother] Hord]. destruct e; [|done].
    destruct (exec_ddl (CreateTable IfNotExists name columns key) db) as [db1|e] eqn:Hrun;
      [|by cbn in Hrun; destruct (taken name db)].
    exists db1, ((name, col_name <$> columns) :: made). do 3 (split; [done|]).
    destruct (exec_ddl_keeps _ _ _ Hrun) as [Hkeep _].
    constructor; [|eapply Forall_impl; [exact Hmade|]; intros t; by apply has_table_keeps].
    cbn in Hd, Hrun. apply andb_true_iff in Hd as [Hnone%bool_decide_eq_true Hd].
    destruct (taken name db) eqn:Ht; injection Hrun as <-.
    + unfold taken in Ht. rewrite Hnone in Ht. destruct (db_tables db !! name) as [r|] eqn:Hr; [|done].
      exists r. split; [done|]. apply Forall_fmap. rewrite forallb_forall in Hd.
      apply Forall_forall. intros c Hc. by apply Hd, list_elem_of_In.
    + eexists. split; [by apply lookup_insert_eq|]. apply Forall_fmap, Forall_forall. intros c Hc.
      apply existsb_exists. exists c. split; [by apply list_elem_of_In|apply String.eqb_refl].
  - destruct Hord as [[[He Hother] (t & Ht & [Htab Hcols]%andb_true_iff)%existsb_exists] Hord]. destruct e; [|done].
    rewrite Forall_forall in Hmade. apply list_elem_of_In in Ht. specialize (Hmade t Ht) as Hhas.
    destruct (exec_ddl (CreateIndex IfNotExists name i) db) as [db1|e] eqn:Hrun.
    + exists db1, made. do 3 (split; [done|]). destruct (exec_ddl_keeps _ _ _ Hrun) as [Hkeep _].
      apply Forall_forall. intros t' Ht'. eapply has_table_keeps; [exact Hkeep|by apply Hmade].
    + cbn in Hrun. destruct (taken name db); [done|].
      by rewrite (index_allowed IfNotExists name i db t Hhas Hd Htab Hcols) in Hrun.
Qed.

Lemma migration_succeeds whole db :
  forallb (fits_ddl db) migration = true -> (migrate whole None (Ok tt) db).1 = Ok tt.
Proof.
  intros Hfit. unfold migrate. destruct (exec_ddls_succeed migration [] db) as [db' ->]; [..|done].
  - vm_compute. reflexivity.
  - done.
  - rewrite forallb_forall in Hfit. apply Forall_forall. intros d Hd. by apply Hfit, list_elem_of_In.
Qed.

(** An older database with two open incidents is refused, and left as it was. *)
Definition two_open : database := {|
  db_tables := {["custody_incidents"%string := {|
    rel_columns := [serial_id; required "reason" TEXT; required "mode" TEXT;
                    nullable "resolved_at" TIMESTAMPTZ];
    rel_key := ["id"%string];
    rel_rows := [{["resolved_at"%string := None]}; {["resolved_at"%string := None]}] |}]};
  db_indexes := ∅ |}.

Example two_open_refused :
  migrate true None (Ok tt) two_open = (Err "could not create unique index"%string, two_open).
Proof. vm_compute. reflexivity. Qed.

Example migrated_fits : forallb (fits_ddl (migrate true None (Ok tt) no_database).2) migration = true.
Proof. vm_compute. reflexivity. Qed.

(** The connection breaks after four statements that are not undone. *)
Definition interrupted : database := (migrate false (Some 4%nat) (Ok tt) no_database).2.

Lemma migration_is_safe_witness :
  taken "custody_incidents" interrupted = false /\
  migrate false None (Ok tt) interrupted = migrate false None (Ok tt) no_database /\
  let db := (migrate false None (Ok tt) interrupted).2 in migrate false None (Ok tt) db = (Ok tt, db).
Proof.
  split; [vm_compute; reflexivity|].
  split; [apply (migration_is_safe false (Some 4%nat) (Ok tt) no_database)|].
  intros db. pose proof (migration_is_safe false None (Ok tt) interrupted) as Hsafe. subst db.
  destruct (migrate false None (Ok tt) interrupted) as [r db] eqn:Hrun. destruct Hsafe as (_ & _ & Hok).
  assert (r = Ok tt) as Hr by (change r with (r, db).1; rewrite <- Hrun; vm_compute; reflexivity).
  destruct (Hok Hr) as (_ & Hlater & _). apply Hlater. auto.
Defined.
