(* ===== verification/SchemaUse.v ===== *)
(** * The statements of the store against the schema the migration makes.

    [PgStore] gives every statement its effect on tables of its own shape. Here the
    tables, columns and conflict targets that the SQL of each statement names are
    set against the catalogue [migrate] leaves: each of them is there, an insert
    leaves out no column that needs a value, and the maps of [pg_tables] are keyed
    as the primary keys say. *)
From S2P Require Export Schema.

#[export] Instance sql_type_dec : EqDecision sql_type.
Proof. solve_decision. Defined.
#[export] Instance column_dec : EqDecision column.
Proof. solve_decision. Defined.
#[export] Instance index_dec : EqDecision index.
Proof. solve_decision. Defined.

(** ** What a statement names *)

Inductive conflict_clause :=
| NoClause
| OnAny
| OnKey (columns : list string)
(** [ON CONFLICT ((true)) WHERE c IS NULL] *)
| OnOpen (column : string).

Inductive access :=
(** The columns a [SELECT], [UPDATE] or [DELETE] names. *)
| Names (table : string) (columns : list string)
| Inserts (table : string) (columns : list string) (on_conflict : conflict_clause).

Definition chain_key_columns : list string := ["wallet"; "network"; "nonce"].
Definition transaction_columns : list string :=
  ["tx_hash"; "idempotency_key"; "wallet_from"; "wallet_to"; "token"; "amount"; "network"; "nonce";
   "status"; "reason"; "confirmations"].

Definition accesses {X} (op : pg_op X) : list access :=
  match op with
  | QDeleteExpired => [Names "signer_nonces" ["expires_at"]]
  | QInsertNonce _ _ => [Inserts "signer_nonces" ["nonce"; "expires_at"] OnAny]
  | QSelectResult _ => [Names "signer_idempotency" ["response"; "idempotency_key"]]
  | QInsertLock _ => [Inserts "signer_idempotency_locks" ["idempotency_key"] OnAny]
  | TSaveResult _ _ =>
      [Inserts "signer_idempotency" ["idempotency_key"; "response"] (OnKey ["idempotency_key"]);
       Names "signer_idempotency_locks" ["idempotency_key"]]
  | QDeleteLock _ => [Names "signer_idempotency_locks" ["idempotency_key"]]
  | QInsertEvent _ =>
      [Inserts "custody_events" ["kind"; "reason"; "mode"; "tx_hash"; "wallet"; "data"] NoClause]
  | QInsertIncident _ _ => [Inserts "custody_incidents" ["reason"; "mode"] (OnOpen "resolved_at")]
  | QSelectIncident => [Names "custody_incidents" ["id"; "reason"; "mode"; "created_at"; "resolved_at"]]
  | QResolveIncidents _ => [Names "custody_incidents" ["resolved_at"; "resolution_note"]]
  | TReserveNonce _ _ _ =>
      [Names "signer_chain_nonces" ["nonce"; "wallet"; "network"; "status"];
       Inserts "signer_chain_nonces" ["wallet"; "network"; "nonce"; "status"] NoClause]
  | QMarkNonce _ _ _ _ =>
      (* [MarkChainNonceSubmitted] sets tx_hash, [MarkChainNonceFailed] reason *)
      [Names "signer_chain_nonces"
         ["status"; "tx_hash"; "reason"; "updated_at"; "wallet"; "network"; "nonce"]]
  | QUpsertTransaction _ =>
      [Inserts "signer_transactions" transaction_columns (OnKey ["tx_hash"]);
       Names "signer_transactions" ["status"; "reason"; "confirmations"; "updated_at"]]
  | QUpdateTransaction _ _ _ _ =>
      [Names "signer_transactions" ["status"; "reason"; "confirmations"; "updated_at"; "tx_hash"]]
  | QSelectOpen _ => [Names "signer_transactions" ("created_at"%string :: transaction_columns)]
  | QSelectAmounts _ _ =>
      [Names "signer_transactions" ["amount"; "network"; "token"; "status"; "created_at"]]
  | QPing => []
  end%string.

(** ** What a database accepts *)

(** An insert must give the column a value. *)
Definition needs_value (c : column) : bool :=
  col_not_null c && bool_decide (col_default c = None)
  && negb match col_type c with BIGSERIAL => true | _ => false end.

Definition in_strings (l : list string) (s : string) : bool := existsb (String.eqb s) l.

Definition has_columns (columns : list column) (names : list string) : bool :=
  forallb (in_strings (col_name <$> columns)) names.

(** The statement's access to a relation of these columns and key, where [open]
    tells the columns without which an index allows one row. *)
Definition access_fits (columns : list column) (key : list string) (open : string -> bool) (a : access) :
    bool :=
  match a with
  | Names _ names => has_columns columns names
  | Inserts _ names on_conflict =>
      has_columns columns names
      && forallb (fun c => negb (needs_value c) || in_strings names (col_name c)) columns
      && match on_conflict with
         | NoClause | OnAny => true
         | OnKey k => bool_decide (key = k)
         | OnOpen c => open c
         end
  end.

Definition access_table (a : access) : string :=
  match a with Names table _ | Inserts table _ _ => table end.

Definition one_without (table column : string) (i : index) : bool :=
  match i with
  | OneWithout t c => String.eqb t table && String.eqb c column
  | OnColumns _ _ => false
  end.

Definition accepts (db : database) (a : access) : bool :=
  match db_tables db !! access_table a with
  | None => false
  | Some r =>
      access_fits (rel_columns r) (rel_key r)
        (fun c => existsb (one_without (access_table a) c) (map_to_list (db_indexes db)).*2) a
  end.

(** The key the tables of [pg_tables] are maps over, in columns. *)
Definition model_keys : list (string * list string) :=
  [("signer_nonces", ["nonce"]); ("signer_idempotency", ["idempotency_key"]);
   ("signer_idempotency_locks", ["idempotency_key"]); ("custody_incidents", ["id"]);
   ("signer_chain_nonces", chain_key_columns); ("signer_transactions", ["tx_hash"])]%string.

(** ** The schema of a list of statements *)

(** A relation that is there is the one the statement would make, whatever its rows. *)
Definition conforms_ddl (db : database) (d : ddl) : bool :=
  match d with
  | CreateTable _ name columns key =>
      bool_decide (db_indexes db !! name = None)
      && match db_tables db !! name with
         | Some r => bool_decide (rel_columns r = columns) && bool_decide (rel_key r = key)
         | None => true
         end
  | CreateIndex _ name i =>
      bool_decide (db_tables db !! name = None)
      && match db_indexes db !! name with Some j => bool_decide (j = i) | None => true end
  end.

(** The access fits a table of the statements. *)
Definition declares (ds : list ddl) (a : access) : bool :=
  existsb (fun d =>
    match d with
    | CreateTable _ name columns key =>
        String.eqb name (access_table a)
        && access_fits columns key
             (fun c => existsb (fun d' => match d' with
                                          | CreateIndex _ _ i => one_without (access_table a) c i
                                          | CreateTable _ _ _ _ => false
                                          end) ds) a
    | CreateIndex _ _ _ => false
    end) ds.

(** Every statement of the store fits what the migration declares. *)
Lemma store_declared X (op : pg_op X) : forallb (declares migration) (accesses op) = true.
Proof. destruct op; vm_compute; reflexivity. Qed.

(** And the maps of the model are over its primary keys. *)
Lemma model_keys_declared :
  Forall (fun t => exists e columns, CreateTable e t.1 columns t.2 ∈ migration) model_keys.
Proof.
  unfold model_keys, migration. repeat (apply Forall_cons; split); [..|constructor].
  all: eexists _, _; repeat first [apply list_elem_of_here|apply list_elem_of_further].
Qed.

(** ** Running it *)

Lemma exec_ddl_conforms d db db' :
  exec_ddl d db = Ok db' -> conforms_ddl db d = true -> conforms_ddl db' d = true.
Proof.
  destruct d as [e n columns key|e n i]; cbn; destruct (taken n db) eqn:Ht; try (destruct e; by intros [= <-]).
  - intros [= <-] _. apply taken_none in Ht as [_ Hi]. cbn. rewrite Hi, lookup_insert_eq. cbn.
    by rewrite !bool_decide_true.
  - apply taken_none in Ht as [Ht _]. destruct (allows_index i db); cbn; [|done]. intros [= <-] _. cbn.
    rewrite Ht, (lookup_insert_eq (db_indexes db)). by rewrite !bool_decide_true.
Qed.

Lemma conforms_elsewhere d d' db db' :
  exec_ddl d db = Ok db' -> ddl_name d <> ddl_name d' -> conforms_ddl db d' = true ->
  conforms_ddl db' d' = true.
Proof.
  intros Hd Hne. destruct (exec_ddl_elsewhere _ _ _ _ Hd Hne) as [Ht Hi].
  destruct d'; cbn in *; by rewrite Ht, Hi.
Qed.

(** Running some of the statements keeps conforming to all of them. *)
Lemma ran_conform ds all db db' :
  (forall d d', d ∈ all -> d' ∈ all -> ddl_name d = ddl_name d' -> d = d') -> ds ⊆ all ->
  Forall (fun d => conforms_ddl db d = true) all -> ran ds db db' ->
  Forall (fun d => conforms_ddl db' d = true) all.
Proof.
  intros Hnames. revert db. induction ds as [|d ds IH]; intros db Hin Hall; cbn; [by intros ->|].
  intros (db1 & Hd & Hrun). apply (IH db1); [set_solver| |exact Hrun].
  rewrite Forall_forall in Hall |- *. intros d' Hd'.
  destruct (decide (ddl_name d = ddl_name d')) as [Heq|Hne].
  - assert (d = d') as <- by (apply Hnames; [set_solver|done|done]).
    eapply exec_ddl_conforms; [exact Hd|by apply Hall].
  - eapply conforms_elsewhere; [exact Hd|done|by apply Hall].
Qed.

(** A relation that conforms and is there is the one declared. *)
Lemma conforms_taken db d :
  conforms_ddl db d = true -> taken (ddl_name d) db = true ->
  match d with
  | CreateTable _ name columns key =>
      exists r, db_tables db !! name = Some r /\ rel_columns r = columns /\ rel_key r = key
  | CreateIndex _ name i => db_indexes db !! name = Some i
  end.
Proof.
  unfold taken. destruct d as [e n columns key|e n i]; cbn;
    intros [Hnone%bool_decide_eq_true Hr]%andb_true_iff [[x Hx]%bool_decide_eq_true|
      [x Hx]%bool_decide_eq_true]%orb_true_iff; rewrite Hx in *; try done.
  - apply andb_true_iff in Hr as [?%bool_decide_eq_true ?%bool_decide_eq_true]. eauto.
  - by apply bool_decide_eq_true in Hr as ->.
Qed.

Lemma access_fits_mono columns key open open' a :
  (forall c, open c = true -> open' c = true) ->
  access_fits columns key open a = true -> access_fits columns key open' a = true.
Proof.
  intros Hopen. destruct a as [table names|table names [| |k|c]]; cbn; try done.
  rewrite !andb_true_iff. intros [? ?]. auto.
Qed.

Lemma declares_accepts ds db a :
  Forall (fun d => conforms_ddl db d = true) ds -> Forall (fun d => taken (ddl_name d) db = true) ds ->
  declares ds a = true -> accepts db a = true.
Proof.
  intros Hconf Htaken (d & Hin & Hd)%existsb_exists.
  assert (forall d', In d' ds -> conforms_ddl db d' = true /\ taken (ddl_name d') db = true) as Hthere.
  { intros d' Hd'%list_elem_of_In. rewrite Forall_forall in Hconf, Htaken. split; auto. }
  destruct d as [e n columns key|]; [|done]. apply andb_true_iff in Hd as [->%String.eqb_eq Hfits].
  destruct (Hthere _ Hin) as [Hc Ht].
  destruct (conforms_taken _ _ Hc Ht) as (r & Hr & <- & <-). unfold accepts. rewrite Hr.
  eapply access_fits_mono, Hfits. intros c (d' & Hin' & Hone)%existsb_exists.
  destruct d' as [|e' n i]; [done|]. destruct (Hthere _ Hin') as [Hc' Ht'].
  pose proof (conforms_taken _ _ Hc' Ht') as Hi. apply existsb_exists. exists i. split; [|done].
  apply list_elem_of_In, list_elem_of_fmap. exists (n, i). by rewrite elem_of_map_to_list.
Qed.

Lemma migration_names d d' :
  d ∈ migration -> d' ∈ migration -> ddl_name d = ddl_name d' -> d = d'.
Proof.
  assert (NoDup (ddl_name <$> migration)) as Hnd by (apply (bool_decide_unpack _); vm_compute; exact I).
  intros (i & Hi)%list_elem_of_lookup (j & Hj)%list_elem_of_lookup Hname.
  assert (i = j) as ->; [|congruence].
  eapply (NoDup_lookup _ _ _ (ddl_name d) Hnd); rewrite list_lookup_fmap; [by rewrite Hi|].
  by rewrite Hj, Hname.
Qed.

(** C19: the migration succeeds on every database it can: an empty one, its own
    result, or one whose tables of these names have the columns, whose indexes have
    other names, and where at most one incident is open. Where, besides, whatever it
    finds of its relations is as it would make it, every statement of the store
    finds the tables, columns, keys and index it names, no insert leaves out a
    column that needs a value, and the primary keys are those of the model. *)
Theorem migration_supports_store whole db :
  forallb (fits_ddl db) migration = true ->
  exists db', migrate whole None (Ok tt) db = (Ok tt, db') /\
    (forallb (conforms_ddl db) migration = true ->
     (forall X (op : pg_op X), forallb (accepts db') (accesses op) = true) /\
     Forall (fun t => exists r, db_tables db' !! t.1 = Some r /\ rel_key r = t.2) model_keys).
Proof.
  intros Hfit. destruct (migrate whole None (Ok tt) db) as [r db'] eqn:Hrun.
  assert (r = Ok tt) as -> by (change r with (r, db').1; rewrite <- Hrun; by apply migration_succeeds).
  exists db'. split; [done|]. intros Hconf. unfold migrate in Hrun.
  destruct (exec_ddls None migration db) as [[[]|e] db1] eqn:Hddls; [|done]. injection Hrun as <-.
  apply exec_ddls_prefix in Hddls as (ds1 & ds2 & Hds & Hran & Hall).
  rewrite (Hall eq_refl), (right_id_L [] (++)) in Hds. rewrite <- Hds in Hran.
  destruct (ran_keeps _ _ _ Hran) as [_ Htaken].
  rewrite forallb_forall in Hconf.
  assert (Forall (fun d => conforms_ddl db1 d = true) migration) as Hconf'.
  { eapply (ran_conform migration); [exact migration_names|done| |exact Hran].
    apply Forall_forall. intros d Hd. by apply Hconf, list_elem_of_In. }
  split.
  - intros X op. apply forallb_forall. intros a Ha. eapply declares_accepts; [done..|].
    pose proof (store_declared X op) as Hdecl. rewrite forallb_forall in Hdecl. by apply Hdecl.
  - eapply Forall_impl; [exact model_keys_declared|]. cbn. intros t (e & columns & Hin).
    rewrite Forall_forall in Hconf', Htaken.
    destruct (conforms_taken _ _ (Hconf' _ Hin) (Htaken _ Hin)) as (r & Hr & _ & Hkey). by exists r.
Qed.

(** ** Example: a database of an older version, without transactions and with an
    open incident *)

Definition incidents_with_one : relation := {|
  rel_columns := [serial_id; required "reason" TEXT; required "mode" TEXT;
                  nullable "resolved_at" TIMESTAMPTZ; defaulted "resolution_note" TEXT "";
                  defaulted "created_at" TIMESTAMPTZ "now()"];
  rel_key := ["id"%string];
  rel_rows := [{["resolved_at"%string := None]}] |}.

Definition older_database : database :=
  let db := (migrate true None (Ok tt) no_database).2 in
  {| db_tables := delete "signer_transactions"%string
                    (<["custody_incidents"%string := incidents_with_one]> (db_tables db));
     db_indexes := filter (fun kv => String.prefix "idx_signer_transactions" kv.1 = false) (db_indexes db) |}.

(** Before the migration the monitor's query is refused, after it everything is taken. *)
Lemma migration_supports_store_witness :
  forallb (accepts older_database) (accesses (QSelectOpen 50)) = false /\
  exists db', migrate true None (Ok tt) older_database = (Ok tt, db') /\
    forallb (accepts db') (accesses (QSelectOpen 50)) = true.
Proof.
  split; [vm_compute; reflexivity|].
  destruct (migration_supports_store true older_database) as (db' & Hrun & Hall); [vm_compute; reflexivity|].
  exists db'. split; [exact Hrun|]. apply Hall. vm_compute. reflexivity.
Defined.

(** A table of incidents without the index: [ON CONFLICT] has nothing to refer to. *)
Example no_index_no_claim :
  accepts {| db_tables := {["custody_incidents"%string := incidents_with_one]}; db_indexes := ∅ |}
    (Inserts "custody_incidents" ["reason"; "mode"]%string (OnOpen "resolved_at")) = false.
Proof. vm_compute. reflexivity. Qed.
