(* ===== verification/PgRace.v ===== *)
(** * The service over PostgreSQL, statement by statement.

    [lower] rewrites a goroutine of the service into one whose store calls are
    the statements of [pg_method]. Run alone it does what it did over the
    interface; run beside others, their statements fall between its own. *)
From S2P Require Export PgStore.

Inductive pg_eff : Type -> Type :=
| PEff {X} (e : eff X) : pg_eff X
| PSql {X} (op : pg_op X) : pg_eff X
(** The method returns to its caller, with this answer. *)
| PReturn {X} (e : store_eff X) (answer : X) : pg_eff unit.

Fixpoint statements {A} (p : prog pg_op A) : prog pg_eff A :=
  match p with
  | Ret a => Ret a
  | Vis op k => Vis (PSql op) (fun x => statements (k x))
  end.

Definition lower_op (X : Type) (e : eff X) : prog pg_eff X :=
  match e in eff X return prog pg_eff X with
  | EStore e => x ← statements (pg_method e); _ ← perform (PReturn e x); Ret x
  | e => perform (PEff e)
  end.

Definition lower {A} : prog eff A -> prog pg_eff A := interp lower_op.

Section Lowered.
Context `{PgServer}.
Variable env : environment.

Definition handle_lowered (X : Type) (e : pg_eff X) (w : world pg_tables) : X * world pg_tables :=
  match e in pg_eff X return X * world pg_tables with
  | PEff e => handle env _ e w
  | PSql op => let (x, t) := handle_pg (the_call env w) _ op (w_store w) in (x, set_store t w)
  | PReturn _ _ => (tt, tick w)
  end.

Lemma run_statements {A} (p : prog pg_op A) (w : world pg_tables) :
  run handle_lowered (statements p) w =
    let (a, t) := pg_run p (the_call env w) (w_store w) in (a, set_store t w).
Proof.
  revert w. induction p as [a|X op k IH]; intros w; [by destruct w|].
  unfold pg_run in *. cbn. destruct (handle_pg (the_call env w) X op (w_store w)) as [x t].
  rewrite IH. unfold the_call, now. cbn.
  by destruct (run _ (k x) t).
Qed.

Lemma pg_method_store X (e : store_eff X) c (t : pg_tables) :
  handle_store c X e t = pg_run (pg_method e) c t.
Proof. by destruct e. Qed.

Lemma run_lower_op X (e : eff X) (w : world pg_tables) :
  run handle_lowered (lower_op X e) w = handle env X e w.
Proof.
  destruct e as [|X e| | | | | | | | | | |]; cbn [lower_op];
    try (rewrite run_perform; reflexivity).
  rewrite run_bind, run_statements. cbn [handle]. rewrite pg_method_store.
  by destruct (pg_run (pg_method e) (the_call env w) (w_store w)).
Qed.

(** The statements implement the interface. A goroutine of the service
    that runs alone against the database, statement by statement, returns what
    it returns over the store of the interface, and leaves the same world. *)
Lemma statements_refine_store {A} (p : prog eff A) (w : world pg_tables) :
  run handle_lowered (lower p) w = execute env p w.
Proof.
  apply run_interp. apply run_lower_op.
Qed.
End Lowered.

(** ** Two requests with one key

    The claim of a key is two statements, and it takes a key that was completed
    between them. *)
Section Race.
Context `{GoUnicode, Geth, GoText, PgServer}.
Variable env : environment.
Variable k : string.
Hypothesis nonempty : k <> ""%string.
Hypothesis select_sound : forall c, pg_fault c _ (QSelectResult k) = None.
Hypothesis insert_sound : forall c, pg_fault c _ (QInsertLock k) = None.
Hypothesis save_sound : forall c resp, pg_fault c _ (TSaveResult k resp) = None.

(** The key has no response and no lock. *)
Definition key_free (w : world pg_tables) : Prop :=
  signer_idempotency (w_store w) !! k = None /\ k ∉ signer_idempotency_locks (w_store w).

(** After its lock is inserted; after its response is stored. *)
Definition claimed (w : world pg_tables) : world pg_tables :=
  tick (set_store (with_keys (signer_idempotency (w_store w))
                     ({[k]} ∪ signer_idempotency_locks (w_store w)) (w_store w)) w).
Definition saved (resp : TransferResponse) (w : world pg_tables) : world pg_tables :=
  tick (set_store (run_statement (the_call env w) _ (TSaveResult k resp) (w_store w)).2 w).

Lemma select_none c t :
  signer_idempotency t !! k = None -> handle_pg c _ (QSelectResult k) t = (Ok None, t).
Proof. intros Ht. unfold handle_pg. rewrite select_sound. cbn. by rewrite Ht. Qed.

Lemma insert_lock c t :
  k ∉ signer_idempotency_locks t ->
  handle_pg c _ (QInsertLock k) t =
    (Ok 1, with_keys (signer_idempotency t) ({[k]} ∪ signer_idempotency_locks t) t).
Proof. intros Ht. unfold handle_pg. rewrite insert_sound. cbn. by rewrite bool_decide_false. Qed.

Lemma save_result c t resp :
  handle_pg c _ (TSaveResult k resp) t = (Ok tt, (run_statement c _ (TSaveResult k resp) t).2).
Proof. unfold handle_pg. by rewrite save_sound. Qed.

(** What follows a claim that was granted. *)
Definition execute_claimed (exec : prog eff (outcome TransferResponse)) (claim : result claim) :
    prog eff (option http_response) :=
  match claim with
  | Err _ => Ret (http_Error "storage indisponivel" 503)
  | Ok (previous, done, claimed) =>
      if (done : bool) then Ret (writeSignerJSON previous) else
      if negb claimed then Ret (http_Error "idempotency key em processamento" 409) else
      resp ← exec;
      match resp with
      | Panic => Ret None
      | Fail e => _ ← ignore (store_call (SReleaseClaim k)); Ret (http_Error e 502)
      | Return resp =>
          saved ← store_call (SSaveResult k resp);
          match saved with
          | Err _ => Ret (http_Error "storage indisponivel" 503)
          | Ok _ => Ret (writeSignerJSON resp)
          end
      end
  end.

Lemma claimed_runs exec resp w w1 :
  execute env exec w = (Return resp, w1) ->
  execute env (execute_claimed exec (Ok (no_response, false, true))) w =
    (writeSignerJSON resp, saved resp w1).
Proof.
  intros Hexec. cbn [execute_claimed negb]. rewrite execute_bind, Hexec.
  unfold store_call. rewrite execute_op. cbn [handle handle_store]. unfold SaveResult. cbn.
  unfold pg_SaveResult, pg_run. rewrite (proj2 (String.eqb_neq k "") nonempty), run_perform, save_result.
  done.
Qed.

(** Goroutine [i] has looked for a response: it goes on to its insertion. *)
Definition overtaken (exec : prog eff (outcome TransferResponse)) : prog pg_eff (option http_response) :=
  claim ← (x ← statements (try (perform (QInsertLock k))
                             (fun rows => Ret (Ok (no_response, false, rows =? 1))));
           _ ← perform (PReturn (SClaimResult k) x); Ret x);
  lower (execute_claimed exec claim).

Lemma select_step exec w :
  key_free w ->
  prog_step (handle_lowered env) (lower (claim_and_execute k exec)) w = Some (overtaken exec, w).
Proof.
  intros [Hfree _]. unfold claim_and_execute, lower, store_call. cbn [perform mbind prog_mbind prog_bind interp lower_op pg_method].
  unfold pg_ClaimResult, pg_GetResult. rewrite (proj2 (String.eqb_neq k "") nonempty).
  cbn -[handle_pg]. rewrite select_none by done. cbn -[handle_pg]. destruct w. cbn. reflexivity.
Qed.

(** A granted claim and its execution, from the insertion of the lock on. *)
Lemma overtaken_runs exec resp w w1 :
  k ∉ signer_idempotency_locks (w_store w) ->
  execute env exec (claimed w) = (Return resp, w1) ->
  run (handle_lowered env) (overtaken exec) w = (writeSignerJSON resp, saved resp w1).
Proof.
  intros Hlock Hexec. unfold overtaken. rewrite !run_bind, run_statements. unfold pg_run.
  rewrite run_try, run_perform, insert_lock by done. cbn [run Z.eqb].
  rewrite run_bind, run_perform. cbn [handle_lowered run].
  rewrite statements_refine_store. by apply claimed_runs.
Qed.

Lemma claim_runs exec resp w w1 :
  key_free w -> execute env exec (claimed w) = (Return resp, w1) ->
  run (handle_lowered env) (lower (claim_and_execute k exec)) w = (writeSignerJSON resp, saved resp w1).
Proof.
  intros Hfree Hexec. pose proof (select_step exec w Hfree) as Hstep.
  assert (run (handle_lowered env) (lower (claim_and_execute k exec)) w =
          run (handle_lowered env) (overtaken exec) w) as ->.
  { revert Hstep. destruct (lower (claim_and_execute k exec)) as [a|X e kk]; [done|]. cbn.
    destruct (handle_lowered env X e w) as [x w']. by intros [= -> ->]. }
  apply overtaken_runs; [|done]. apply Hfree.
Qed.

(** A transaction that was taken for an execution, with its hash in the response. *)
Definition pays_for (good : SignedTransaction -> Prop) (before : sends) (after : sends)
    (resp : TransferResponse) : Prop :=
  exists failed tx, after = (before ++ failed ++ [(tx, true)])%list /\ all_failed failed /\ good tx /\
    TxHash resp = hash_Hex (st_hash tx).

Lemma execution_pays cfg good exec resp w w1 :
  AllowSimulation cfg = false -> runs exec_op at_most_one (executed cfg good) [] exec ->
  execute env exec w = (Return resp, w1) -> pays_for good (w_sent w) (w_sent w1) resp.
Proof.
  intros Hreal Hruns Hexec. destruct (runs_execute env _ _ _ _ _ w Hruns) as (n & Hsent & _ & Hend).
  rewrite Hexec in Hsent, Hend. unfold executed in Hend. rewrite Hreal in Hend. cbn in *.
  destruct Hend as (_ & Hgood & failed & tx & -> & Hfailed & Hhash). exists failed, tx.
  do 2 (split; [done|]). split; [|done]. rewrite fmap_app in Hgood. apply Forall_app in Hgood as [_ Hgood].
  by apply Forall_cons_1 in Hgood as [? _].
Qed.

(** C39: a key can be paid twice. Take any two goroutines that have come to the
    claim of one key, which has neither response nor lock, whatever the others are
    doing. If the whole of the second request falls between the two statements of
    the first one's claim, the first is still granted its lock, though a response is
    stored by then: when both executions succeed, each in the world it then meets,
    both requests are answered, each with the hash of a transaction of its own that
    was taken. *)
Theorem claim_race_pays_twice cfg goodA goodB execA execB respA respB ts i j (w wA wB : world pg_tables) :
  AllowSimulation cfg = false ->
  runs exec_op at_most_one (executed cfg goodA) [] execA ->
  runs exec_op at_most_one (executed cfg goodB) [] execB ->
  i <> j -> ts !! i = Some (lower (claim_and_execute k execA)) ->
  ts !! j = Some (lower (claim_and_execute k execB)) -> key_free w ->
  execute env execB (claimed w) = (Return respB, wB) ->
  execute env execA (claimed (saved respB wB)) = (Return respA, wA) ->
  pool_steps (handle_lowered env) (ts, w)
    (<[i := Ret (writeSignerJSON respA)]> (<[j := Ret (writeSignerJSON respB)]> ts), saved respA wA) /\
  pays_for goodB (w_sent w) (w_sent wB) respB /\
  pays_for goodA (w_sent wB) (w_sent (saved respA wA)) respA /\
  (signer_idempotency (w_store wB) !! k = None ->
   signer_idempotency (w_store (saved respB wB)) !! k = Some respB).
Proof.
  intros Hreal HrunA HrunB Hij Hi Hj Hfree HB HA. split; [|split; [|split]].
  - eapply rtc_l; [eapply pool_step_thread; [exact Hi|by apply select_step]|].
    etrans; [apply (pool_runs_alone _ (lower (claim_and_execute k execB)) _ _ j);
             by rewrite list_lookup_insert_ne|].
    rewrite (claim_runs _ _ _ _ Hfree HB). cbn [fst snd].
    etrans; [apply (pool_runs_alone _ (overtaken execA) _ _ i)|].
    { rewrite list_lookup_insert_ne by done. apply list_lookup_insert_eq. by eapply lookup_lt_Some. }
    rewrite (overtaken_runs execA respA _ wA); [|cbn; set_solver|done]. cbn [fst snd].
    rewrite (list_insert_insert_ne _ j i) by done. rewrite list_insert_insert_eq. apply rtc_refl.
  - by apply (execution_pays cfg goodB execB respB (claimed w)).
  - by apply (execution_pays cfg goodA execA respA (claimed (saved respB wB)) wA).
  - intros Hnone. cbn. rewrite Hnone. by rewrite lookup_insert_eq.
Qed.
End Race.

#[local] Existing Instance ascii_unicode.
#[local] Existing Instance ref_geth.
#[local] Existing Instance example_text.
#[local] Existing Instance example_server.

Definition pg_world : world pg_tables :=
  start_world empty_tables (w_fleet first_world).

(** The same request, sent twice with fresh nonces. *)
Definition retried_jobs : list job := [
  Transfer (post "/hd/transfer" "10") (Some (context_with "n1"));
  Transfer (post "/hd/transfer" "10") (Some (context_with "n2"))].

Definition pg_threads : list (prog pg_eff (option http_response)) :=
  (fun j => lower (job_prog example_config None j)) <$> retried_jobs.

(** The first request is stopped after the four operations that end with the
    [SELECT] of its claim, the second runs to its end, the first goes on. *)
Definition pg_race : list nat := (replicate 4 0 ++ replicate 60 1 ++ replicate 60 0)%nat%list.

(** A whole run of two such requests: one transfer, broadcast twice, under two
    nonces. *)
Example claim_race_run :
  job_key <$> retried_jobs = [Some "buy-1"%string; Some "buy-1"%string] /\
  exists r1 r2 w',
    pool_steps (handle_lowered good_environment) (pg_threads, pg_world)
      ([Ret (Some r1); Ret (Some r2)], w') /\
    res_status r1 = 200 /\ res_status r2 = 200 /\
    (fun s => (tx_to (st_tx s.1), tx_nonce (st_tx s.1), s.2)) <$> w_sent w' =
      [(usdt, 7, true); (usdt, 8, true)].
Proof.
  split; [reflexivity|].
  pose proof (run_schedule_steps (handle_lowered good_environment) pg_race (pg_threads, pg_world))
    as Hrun.
  match type of Hrun with pool_steps _ _ ?c =>
    assert (exists r1 r2, c.1 = [Ret (Some r1); Ret (Some r2)] /\
              res_status r1 = 200 /\ res_status r2 = 200) as (r1 & r2 & Hps & H1 & H2)
      by (eexists _, _; vm_compute; auto);
    exists r1, r2, c.2; split; [rewrite <- Hps; by rewrite <- surjective_pairing|]
  end.
  split; [exact H1|]. split; [exact H2|]. vm_compute. reflexivity.
Qed.

(** The two transfers at their claims. *)
Definition buying : prog eff (outcome TransferResponse) :=
  executeTransfer example_config (example_transfer "10").
Definition bought (s : SignedTransaction) : Prop :=
  validateTransferPolicy example_config (example_transfer "10")
    (requestedNetwork example_config (example_transfer "10")) = Ok tt /\
  pays_transfer example_config (example_transfer "10")
    (requestedNetwork example_config (example_transfer "10")) s.
Definition two_buyers : list (prog pg_eff (option http_response)) :=
  [lower (claim_and_execute "buy-1" buying); lower (claim_and_execute "buy-1" buying)].

Definition told (o : outcome TransferResponse) : TransferResponse :=
  match o with Return resp => resp | _ => no_response end.
Definition second_buy : outcome TransferResponse * world pg_tables :=
  execute good_environment buying (claimed "buy-1" pg_world).
Definition between : world pg_tables :=
  saved good_environment "buy-1" (told second_buy.1) second_buy.2.
Definition first_buy : outcome TransferResponse * world pg_tables :=
  execute good_environment buying (claimed "buy-1" between).

Definition returns (o : outcome TransferResponse) : bool :=
  match o with Return _ => true | _ => false end.
Lemma returned {W} (r : outcome TransferResponse * W) : returns r.1 = true -> r = (Return (told r.1), r.2).
Proof. by destruct r as [[] w]. Qed.

Lemma second_buy_is :
  execute good_environment buying (claimed "buy-1" pg_world) =
    (Return (told second_buy.1), second_buy.2).
Proof.
  assert (returns second_buy.1 = true) as Hb by (vm_compute; reflexivity).
  apply returned in Hb. unfold second_buy at 1 in Hb. exact Hb.
Qed.
Lemma first_buy_is :
  execute good_environment buying
    (claimed "buy-1" (saved good_environment "buy-1" (told second_buy.1) second_buy.2)) =
    (Return (told first_buy.1), first_buy.2).
Proof.
  assert (returns first_buy.1 = true) as Hb by (vm_compute; reflexivity).
  apply returned in Hb. unfold first_buy at 1 in Hb. exact Hb.
Qed.

Lemma claim_race_pays_twice_witness :
  exists w', pool_steps (handle_lowered good_environment) (two_buyers, pg_world)
    (<[0%nat := Ret (writeSignerJSON (told first_buy.1))]>
       (<[1%nat := Ret (writeSignerJSON (told second_buy.1))]> two_buyers), w').
Proof.
  eexists. eapply proj1.
  apply (claim_race_pays_twice good_environment "buy-1" ltac:(discriminate) (fun _ => eq_refl)
           (fun _ => eq_refl) (fun _ _ => eq_refl) example_config bought bought buying buying
           (told first_buy.1) (told second_buy.1) two_buyers 0 1 pg_world first_buy.2 second_buy.2).
  - reflexivity.
  - apply transfer_runs.
  - apply transfer_runs.
  - discriminate.
  - reflexivity.
  - reflexivity.
  - split; [reflexivity|apply not_elem_of_empty].
  - exact second_buy_is.
  - exact first_buy_is.
Defined.
