(* ===== verification/Main.v ===== *)
(** * The service: [main] and [openSignerStore].

    [boot] is [main] up to the routes, as a function of the configuration: the
    running service, or the message it exits with. [serve] is the multiplexer
    with the middleware in front of the protected routes, as a program over the
    operations of both. *)
From S2P Require Export PgRace.

(** ** Starting *)

Record service := {
  sv_cfg : SignerConfig;
  sv_middleware : Middleware;
  sv_guard : option CustodyGuard;
}.

(** The service with the state it starts from and its background goroutines.
    [D] is a migrated database, [R] a Redis connection. *)
Record running (D R : Type) := {
  run_service : service;
  run_nonces : InMemoryNonceStore + option R;
  run_limiter : RateLimiter;
  run_store : memorySignerStore + D;
  run_trusted : list (Address * Hash);
  (** [go custodyGuard.Start], [go startTxLifecycleMonitor] *)
  run_guard_loop : bool;
  run_monitor_loop : bool;
}.
Arguments run_service {D R} _.
Arguments run_nonces {D R} _.
Arguments run_limiter {D R} _.
Arguments run_store {D R} _.
Arguments run_trusted {D R} _.
Arguments run_guard_loop {D R} _.
Arguments run_monitor_loop {D R} _.

Section Boot.
Context `{GoUnicode, Geth} {D R : Type}.
(** [sql.Open] with [migrate], and [NewRedisNonceStore]. *)
Variable postgres_open : string -> result D.
Variable redis_connect : string -> result R.

Definition openSignerStore (cfg : SignerConfig) : result (memorySignerStore + D) :=
  if String.eqb (DatabaseURL cfg) "" then
    guard_err (String.eqb (AppEnv cfg) "production")
      "SIGNER_DATABASE_URL ou DATABASE_URL obrigatorio em producao" ≫= λ _,
    Ok (inl newMemorySignerStore)
  else inr <$> postgres_open (DatabaseURL cfg).

Definition boot (cfg : SignerConfig) : result (running D R) :=
  ValidateProduction cfg ≫= λ _,
  setupSecurity redis_connect cfg ≫= λ '(middleware, nonces, limiter),
  guard_err (String.eqb (HMACSecret (Security cfg)) "") "HMAC_SECRET obrigatorio" ≫= λ _,
  guard_err (evm_network (DefaultNetwork cfg) && String.eqb (EVMPrivateKey cfg) "")
    "EVM_PRIVATE_KEY obrigatorio para BSC/EVM" ≫= λ _,
  openSignerStore cfg ≫= λ store,
  (match NewCustodyGuard cfg with
   | Ok (g, trusted) => Ok (Some g, trusted)
   | Err e => if CustodyGuardEnabled cfg then Err e else Ok (None, [])
   end) ≫= λ '(custodyGuard, trusted),
  Ok {| run_service := {| sv_cfg := cfg; sv_middleware := middleware; sv_guard := custodyGuard |};
        run_nonces := nonces; run_limiter := limiter; run_store := store; run_trusted := trusted;
        run_guard_loop := Guard_Enabled custodyGuard;
        run_monitor_loop := negb (AllowSimulation cfg) |}.
End Boot.

(** The [http.Server] that [main] listens with. *)
Record http_Server := {
  Addr : string; srv_ReadTimeout : Duration; srv_WriteTimeout : Duration; srv_IdleTimeout : Duration }.

Definition server (cfg : SignerConfig) : http_Server := {|
  Addr := ":" +:+ Port cfg; srv_ReadTimeout := 10 * Second; srv_WriteTimeout := 30 * Second;
  srv_IdleTimeout := 60 * Second |}.

(** ** Serving *)

Inductive serve_op : Type -> Type :=
| OnSecurity {X} (op : sec_op X) : serve_op X
| OnService {X} (e : eff X) : serve_op X.

Inductive served :=
(** A route's answer. *)
| Handled (r : option http_response)
(** The middleware's error, or the multiplexer's. *)
| Refused (status : Z) (message : string).

Section Serve.
Context `{GoUnicode, Geth, GoText}.
Implicit Types sv : service.
Implicit Types rq : Request.

(** The routes behind the middleware. *)
Definition protected_route sv (path : string) :
    option (Request -> option RequestContext -> handler) :=
  let cfg := sv_cfg sv in
  let g := sv_guard sv in
  if String.eqb path "/custody/unlock" then Some (custody_unlock cfg g) else
  if String.eqb path "/hd/transfer" then Some (hd_transfer cfg g) else
  if String.eqb path "/settlements/execute" then Some (settlements_execute cfg g) else
  if String.eqb path "/hd/contract-call" then Some (hd_contract_call cfg g) else None.

(** [middleware.Handler(..)]: the next handler runs on what the middleware hands on. *)
Definition behind (m : Middleware) (next : Request -> option RequestContext -> handler) rq :
    prog serve_op served :=
  out ← translate (@OnSecurity) (Handler m rq);
  match out with
  | Respond status message => Ret (Refused status message)
  | Next rq' ctx => r ← translate (@OnService) (next rq' ctx); Ret (Handled r)
  end.

(** ** The multiplexer *)

(** What is registered on it, in the order of the source. *)
Definition patterns : list string :=
  ["/healthz"; "/readyz"; "/custody/unlock"; "/hd/transfer"; "/settlements/execute";
   "/hd/contract-call"].

(** The pattern that takes a request, or what is answered without one: a path
    that is not clean is redirected to the clean one, except for [CONNECT], and a
    request for [*] does not get as far as a path. *)
Definition mux rq : Z * string + string :=
  let path := rq_EscapedPath rq in
  if String.eqb path "*"
  then inl (if String.eqb (rq_Method rq) "OPTIONS" then 200 else 400, "") else
  let clean := if String.eqb (rq_Method rq) "CONNECT" then path else cleanPath path in
  if negb (String.eqb clean path) then inl (301, "Moved Permanently") else
  match find (fun pattern => matches pattern clean) patterns with
  | Some pattern => inr pattern
  | None => inl (404, "404 page not found")
  end.

(** The handler of a pattern. *)
Definition route sv (pattern : string) rq : prog serve_op served :=
  if String.eqb pattern "/healthz"
  then r ← translate (@OnService) healthz; Ret (Handled r) else
  if String.eqb pattern "/readyz"
  then r ← translate (@OnService) (readyz (sv_cfg sv) (sv_guard sv)); Ret (Handled r) else
  match protected_route sv pattern with
  | Some next => behind (sv_middleware sv) next rq
  | None => Ret (Refused 404 "404 page not found")
  end.

Definition serve sv rq : prog serve_op served :=
  match mux rq with
  | inl (status, message) => Ret (Refused status message)
  | inr pattern => route sv pattern rq
  end.

(** A pattern takes only requests whose decoded path it is: what the middleware
    reads of the path, to exclude it say, is what the multiplexer went by. *)
Lemma mux_path rq pattern : mux rq = inr pattern -> rq_Path rq = pattern.
Proof.
  unfold mux, rq_Path. destruct (String.eqb (rq_EscapedPath rq) "*"); [done|].
  set (clean := if String.eqb (rq_Method rq) "CONNECT" then _ else _).
  destruct (String.eqb_spec clean (rq_EscapedPath rq)) as [->|]; [|done].
  cbn [negb]. destruct (find _ patterns) as [p|] eqn:Hfind; [|done]. intros [= ->].
  apply find_some in Hfind as [_ Hmatch]. by apply matches_path.
Qed.

(** A path as the client should send it is served by its route. *)
Lemma mux_pattern rq : rq_EscapedPath rq ∈ patterns -> mux rq = inr (rq_EscapedPath rq).
Proof.
  unfold mux. generalize (rq_EscapedPath rq). intros path Hin. unfold patterns in Hin.
  repeat (apply elem_of_cons in Hin as [->|Hin]; [by destruct (String.eqb _ "CONNECT")|]).
  by apply elem_of_nil in Hin.
Qed.

(** What [serve] runs is a refusal or the route of the path. *)
Lemma serve_cases (P : prog serve_op served -> Prop) sv rq :
  (forall status message, P (Ret (Refused status message))) -> P (route sv (rq_Path rq) rq) ->
  P (serve sv rq).
Proof.
  intros Href Hroute. unfold serve. destruct (mux rq) as [[status message]|pattern] eqn:Hmux.
  - apply Href.
  - by rewrite (mux_path rq pattern Hmux) in Hroute.
Qed.
End Serve.

(** Takes a goal about [serve] to the refusals and to the route of the path. *)
Ltac on_route :=
  match goal with
  | |- context [serve ?sv ?rq] => pattern (serve sv rq); apply serve_cases; [|unfold route]
  end.

Section HandleServe.
Context {SN S : Type} `{NonceStore SN, SignerStore S}.
Variable clock : nat -> Time.
Variable entropy : nat -> option (list Z).
Variable env : environment.

Definition handle_serve (X : Type) (e : serve_op X) (w : sec_world SN * world S) :
    X * (sec_world SN * world S) :=
  match e in serve_op X return X * (sec_world SN * world S) with
  | OnSecurity op => let (x, sw) := handle_sec clock entropy _ op w.1 in (x, (sw, w.2))
  | OnService e => let (x, w') := handle env _ e w.2 in (x, (w.1, w'))
  end.

Lemma run_security {A} (p : prog sec_op A) sw w :
  run handle_serve (translate (@OnSecurity) p) (sw, w) =
    let (a, sw') := run_sec clock entropy p sw in (a, (sw', w)).
Proof.
  revert sw. induction p as [a|X e k IH]; intros sw; [done|]. unfold run_sec in *. cbn.
  destruct (handle_sec clock entropy X e sw) as [x sw']. apply IH.
Qed.

Lemma run_service_ops {A} (p : prog eff A) sw w :
  run handle_serve (translate (@OnService) p) (sw, w) =
    let (a, w') := execute env p w in (a, (sw, w')).
Proof.
  revert w. induction p as [a|X e k IH]; intros w; [done|]. unfold execute in *. cbn.
  destruct (handle env X e w) as [x w']. apply IH.
Qed.
End HandleServe.

(** ** What a served request can broadcast *)

Section Authorised.
Context `{GoUnicode, Geth, GoText} {SN S : Type} `{NonceStore SN, SignerStore S}.
Variable clock : nat -> Time.
Variable entropy : nat -> option (list Z).
Variable env : environment.
Implicit Types cfg : SignerConfig.
Implicit Types w : world S.

(** The body asks for the transaction [s], and the policy of its route lets it
    through. *)
Definition asks_for cfg (path body : string) (s : SignedTransaction) : Prop :=
  (path = "/hd/transfer"%string /\ exists req, json_TransferRequest body = Ok req /\
     validateTransferPolicy cfg req (requestedNetwork cfg req) = Ok tt /\
     pays_transfer cfg req (requestedNetwork cfg req) s) \/
  (path = "/hd/contract-call"%string /\ exists req, json_ContractCallRequest body = Ok req /\
     validateContractCallPolicy cfg req (requestedContractNetwork cfg req) = Ok tt /\
     calls_contract req (requestedContractNetwork cfg req) s) \/
  (path = "/settlements/execute"%string /\ exists req t network amount,
     (default_key <$> json_SettlementExecuteRequest body) = Ok req /\
     validateSettlementExecuteRequest cfg t req = Ok (network, amount) /\
     pays_settlement req amount s).

(** What a route has checked when it broadcasts: method, lock, nonce, body. *)
Definition route_checked cfg (g : option CustodyGuard) rq (ctx : option RequestContext) w
    (body : string) : Prop :=
  rq_Method rq = "POST"%string /\ (is_Some g -> w_locked w = false) /\
  read_limited handler_body_limit rq = Ok body /\
  exists c t, ctx = Some c /\ (AcceptNonce t (Nonce c) (GetNonceTTL cfg) (w_store w)).1 = Ok true.

Lemma read_with_body n body rq :
  read_limited n (with_body body rq) = Ok (take_str (Z.to_nat n) body).
Proof. reflexivity. Qed.

(** A route adds [l] to the broadcasts, and only if [good] holds of all of them. *)
Definition adds (p : handler) w (good : list SignedTransaction -> Prop) : Prop :=
  exists l, w_sent (execute env p w).2 = (w_sent w ++ l)%list /\ (l <> [] -> good l.*1).

Lemma adds_nothing (r : option http_response) w good : adds (Ret r) w good.
Proof. exists []. by rewrite (right_id_L [] (++)). Qed.

Lemma adds_mono p w (good good' : list SignedTransaction -> Prop) :
  (forall l, good l -> good' l) -> adds p w good -> adds p w good'.
Proof. intros Hg (l & Hl & Hgood). exists l. split; [done|]. intros Hne. by apply Hg, Hgood. Qed.

(** An operation that broadcasts nothing comes first. *)
Lemma adds_op {X} (e : eff X) (k : X -> handler) w good :
  (forall x, sent_by e x = []) ->
  adds (k (handle env X e w).1) (handle env X e w).2 good -> adds (perform e ≫= k) w good.
Proof.
  intros He (l & Hl & Hgood). exists l. rewrite execute_op. split; [|done].
  rewrite Hl, handle_sent, He. by rewrite (right_id_L [] (++)).
Qed.

Lemma claim_adds cfg key exec (good : SignedTransaction -> Prop) w :
  runs exec_op at_most_one (executed cfg good) [] exec ->
  adds (claim_and_execute key exec) w (fun l => Forall good l /\ (length l <= 2)%nat).
Proof.
  intros Hexec. apply adds_op; [done|]. cbn [handle].
  destruct (handle_store _ _ (SClaimResult key) (w_store w)) as [r s]. cbn [fst snd].
  set (w1 := tick (set_store s w)).
  destruct r as [[[previous done] claimed]|e]; [|apply adds_nothing].
  destruct done; [apply adds_nothing|]. destruct claimed; [|apply adds_nothing]. cbn [negb].
  destruct (runs_execute env _ _ _ _ _ w1 Hexec) as (l & Hsent & _ & Hl).
  exists l. rewrite execute_bind. destruct (execute env exec w1) as [o w2]. cbn [fst snd app] in *.
  split.
  - rewrite <- Hsent. destruct o as [resp|e|]; [| |done].
    + unfold store_call. rewrite execute_op. cbn [handle].
      destruct (handle_store _ _ (SSaveResult key resp) _) as [[u|e] s']; done.
    + rewrite execute_bind. unfold ignore, store_call. rewrite execute_op. cbn [handle].
      by destruct (handle_store _ _ (SReleaseClaim key) _) as [u s'].
  - intros Hne. unfold executed in Hl. destruct (AllowSimulation cfg); [done|].
    destruct Hl as (Hlen & Hgood & _). split; [done|]. by rewrite length_fmap.
Qed.

Lemma route_adds {Req} cfg g (decode : string -> result Req) key exec
    (good : Req -> SignedTransaction -> Prop) rq ctx w :
  (forall req, runs exec_op at_most_one (executed cfg (good req)) [] (exec req)) ->
  adds (signing_route cfg g decode key exec rq ctx) w (fun l =>
    exists body req, route_checked cfg g rq ctx w body /\ decode body = Ok req /\
      Forall (good req) l /\ (length l <= 2)%nat).
Proof.
  intros Hexec. unfold signing_route.
  destruct (String.eqb_spec (rq_Method rq) "POST") as [Hpost|]; [|apply adds_nothing].
  cbn [negb].
  assert (forall w1, w_store w1 = w_store w -> (is_Some g -> w_locked w = false) ->
    adds (with_fresh_body cfg rq ctx (fun _ body =>
            match decode body with
            | Ok req => claim_and_execute (key req) (exec req)
            | Err _ => Ret (http_Error "JSON invalido" 400)
            end)) w1
      (fun l => exists body req, route_checked cfg g rq ctx w body /\ decode body = Ok req /\
         Forall (good req) l /\ (length l <= 2)%nat)) as Hrest.
  { intros w1 Hstore Hlock. destruct ctx as [c|]; [|apply adds_nothing]. cbn [with_fresh_body].
    destruct (read_limited handler_body_limit rq) as [body|e] eqn:Hbody; [|apply adds_nothing].
    apply adds_op; [done|]. cbn [handle handle_store]. rewrite Hstore.
    destruct (AcceptNonce _ _ _ (w_store w)) as [r s] eqn:Hacc. cbn [fst snd].
    destruct r as [[]|e]; [|apply adds_nothing..]. cbn [negb].
    destruct (decode body) as [req|e] eqn:Hreq; [|apply adds_nothing].
    eapply adds_mono; [|apply (claim_adds cfg (key req) (exec req) (good req)), Hexec].
    intros l [Hl Hlen]. exists body, req. split; [|done]. split; [done|]. split; [done|].
    split; [done|]. exists c. eexists. split; [done|]. by rewrite Hacc. }
  destruct g as [g|]; [|by apply Hrest; [|intros [? ?]]].
  apply adds_op; [done|]. apply adds_op; [done|]. cbn [handle fst snd tick w_locked].
  destruct (w_locked w) eqn:Hlock; [apply adds_nothing|]. by apply Hrest.
Qed.

(** The guard broadcasts nothing. *)
Definition silent (X : Type) (e : eff X) : Prop := forall x, sent_by e x = [].

Lemma inspecting_silent C : inspecting silent C.
Proof. split; try done. intros X e He. by destruct e. Qed.

Lemma silent_sends_nothing {A} (p : prog eff A) w :
  only silent p -> w_sent (execute env p w).2 = w_sent w.
Proof.
  intros Hp. revert w. induction Hp as [a|X e k He _ IH]; intros w; [done|].
  unfold execute in *. cbn. pose proof (handle_sent env X e w) as Hs. rewrite He in Hs.
  destruct (handle env X e w) as [x w']. rewrite IH. cbn in Hs.
  by rewrite Hs, (right_id_L [] (++)).
Qed.

Lemma unlock_silent cfg g rq ctx : only silent (custody_unlock cfg g rq ctx).
Proof.
  unfold custody_unlock. destruct (negb _); [constructor|].
  destruct ctx as [c|]; [|constructor]. cbn [with_fresh_body].
  destruct (read_limited _ rq) as [body|e]; [|constructor].
  apply only_bind; [by apply only_perform|]. intros [[]|e]; [|constructor..].
  apply only_bind; [|intros []; constructor].
  destruct g as [g|]; [|constructor]. by apply (only_Unlock _ g (inspecting_silent _)).
Qed.

Lemma readyz_silent cfg g : only silent (readyz cfg g).
Proof.
  unfold readyz, Locked. destruct g as [g|]; repeat (apply only_vis; [done|]; intros); constructor.
Qed.

(** What a protected route broadcasts is what its body asks for. *)
Lemma protected_adds sv path next rq ctx w :
  protected_route sv path = Some next ->
  adds (next rq ctx) w (fun l =>
    exists body, route_checked (sv_cfg sv) (sv_guard sv) rq ctx w body /\
      Forall (asks_for (sv_cfg sv) path body) l /\ (length l <= 2)%nat).
Proof.
  set (cfg := sv_cfg sv). set (g := sv_guard sv). unfold protected_route.
  destruct (String.eqb_spec path "/custody/unlock") as [->|_].
  { intros [= <-]. exists []. split; [|done]. rewrite (right_id_L [] (++)).
    apply silent_sends_nothing, unlock_silent. }
  destruct (String.eqb_spec path "/hd/transfer") as [->|_].
  { intros [= <-]. eapply adds_mono; [|apply route_adds, transfer_runs].
    intros l (body & req & Hc & Hreq & Hl & Hlen). exists body. split; [done|]. split; [|done].
    eapply Forall_impl; [exact Hl|]. intros s Hs. left. eauto. }
  destruct (String.eqb_spec path "/settlements/execute") as [->|_].
  { intros [= <-]. eapply adds_mono; [|apply route_adds, settlement_runs].
    intros l (body & req & Hc & Hreq & Hl & Hlen). exists body. split; [done|]. split; [|done].
    eapply Forall_impl; [exact Hl|]. intros s (t & network & amount & Hs). right. right.
    split; [done|]. by exists req, t, network, amount. }
  destruct (String.eqb_spec path "/hd/contract-call") as [->|_]; [|done].
  intros [= <-]. eapply adds_mono; [|apply route_adds, contract_runs].
  intros l (body & req & Hc & Hreq & Hl & Hlen). exists body. split; [done|]. split; [|done].
  eapply Forall_impl; [exact Hl|]. intros s Hs. right. left. eauto.
Qed.

(** Nothing is broadcast but on behalf of a signed request. If serving a
    request hands transactions to an endpoint, the middleware requiring both:
    the request is a POST to a signing route, without a lockdown; its body was
    signed under a configured secret and its nonce was new to the middleware's
    store and to the service's; and each of the at most two transactions is the
    one this signed body asks for, within the policy of its route. *)
Theorem broadcast_is_authorised sv rq (sw : sec_world SN) w :
  opt_RequireHMAC (m_options (sv_middleware sv)) = true ->
  opt_RequireNonce (m_options (sv_middleware sv)) = true ->
  let rv := m_validator (sv_middleware sv) in
  let '(_, (sw', w')) := run (handle_serve clock entropy env) (serve sv rq) (sw, w) in
  exists l, w_sent w' = (w_sent w ++ l)%list /\
    (l <> [] ->
     rq_Method rq = "POST"%string /\ (is_Some (sv_guard sv) -> w_locked w = false) /\
     exists read body ts nonce hdr legacy a s1 t,
       read_limited (rv_maxBodySize rv) rq = Ok read /\
       body = take_str (Z.to_nat handler_body_limit) read /\
       credentials rq = (ts, nonce, hdr, legacy) /\ nonce <> ""%string /\
       signature_ok rv (clock a) ts nonce hdr read legacy /\
       ns_Exists (clock (a + 1)%nat) nonce (sec_nonces sw) = (Ok false, s1) /\
       ns_Store (clock (a + 2)%nat) nonce (rv_nonceTTL rv) s1 = (Ok tt, sec_nonces sw') /\
       (AcceptNonce t nonce (GetNonceTTL (sv_cfg sv)) (w_store w)).1 = Ok true /\
       (length l <= 2)%nat /\ Forall (asks_for (sv_cfg sv) (rq_Path rq) body) l.*1).
Proof.
  intros Hh Hn rv.
  destruct (run (handle_serve clock entropy env) (serve sv rq) (sw, w)) as [out [sw' w']] eqn:Hrun.
  revert Hrun. on_route.
  { intros status message [= _ _ <-]. exists []. by rewrite (right_id_L [] (++)). }
  destruct (String.eqb (rq_Path rq) "/healthz").
  { rewrite run_bind, run_service_ops. intros [= _ _ <-].
    exists []. by rewrite (right_id_L [] (++)). }
  destruct (String.eqb (rq_Path rq) "/readyz").
  { rewrite run_bind, run_service_ops.
    pose proof (silent_sends_nothing _ w (readyz_silent (sv_cfg sv) (sv_guard sv))) as Hs.
    destruct (execute env _ w) as [r w1]. intros [= _ _ <-].
    exists []. by rewrite (right_id_L [] (++)). }
  destruct (protected_route sv (rq_Path rq)) as [next|] eqn:Hroute.
  2: { intros [= _ _ <-]. exists []. by rewrite (right_id_L [] (++)). }
  unfold behind. rewrite run_bind, run_security.
  destruct (run_sec clock entropy (Handler (sv_middleware sv) rq) sw) as [o sw1] eqn:Hm.
  destruct o as [status message|rq' ctx].
  { intros [= _ _ <-]. exists []. by rewrite (right_id_L [] (++)). }
  rewrite run_bind, run_service_ops.
  pose proof (protected_adds sv (rq_Path rq) next rq' ctx w Hroute) as (l & Hl & Hgood).
  destruct (execute env (next rq' ctx) w) as [r w1]. intros [= _ <- <-].
  exists l. split; [exact Hl|]. intros Hne.
  destruct (Hgood Hne) as (body & (Hpost & Hlock & Hbody & c & t & -> & Hacc) & Hask & Hlen).
  apply Handler_next in Hm as (_ & Hval & Hv & Hnonce & _).
  apply ValidateRequest_ok in Hval
    as (read & ts & nonce & hdr & legacy & Hread & -> & Hcred & Hnc & _ & a & _ & Hsig & Hok).
  specialize (Hnonce Hn). rewrite Hnc in Hnonce, Hacc. rewrite (Hv Hh) in Hok.
  specialize (Hsig (Hv Hh)). destruct (Hok Hnonce) as (s1 & Hex & Hst). rewrite <- Nat.add_assoc in Hst.
  split; [exact Hpost|]. split; [exact Hlock|].
  exists read, body, ts, nonce, hdr, legacy, a, s1, t. rewrite length_fmap in Hlen.
  rewrite read_with_body in Hbody. apply (inj Ok) in Hbody. symmetry in Hbody.
  split_and!; assumption.
Qed.
End Authorised.

(** ** What a production start guarantees *)

Section Production.
Context `{GoUnicode, Geth} {D R : Type}.
Variable postgres_open : string -> result D.
Variable redis_connect : string -> result R.

Lemma boot_ok cfg (r : running D R) :
  boot postgres_open redis_connect cfg = Ok r ->
  ValidateProduction cfg = Ok tt /\
  (exists m n l, setupSecurity redis_connect cfg = Ok (m, n, l) /\
     sv_middleware (run_service r) = m /\ run_nonces r = n /\ run_limiter r = l) /\
  openSignerStore postgres_open cfg = Ok (run_store r) /\
  sv_cfg (run_service r) = cfg /\
  run_guard_loop r = Guard_Enabled (sv_guard (run_service r)) /\
  run_monitor_loop r = negb (AllowSimulation cfg) /\
  match NewCustodyGuard cfg with
  | Ok (g, t) => sv_guard (run_service r) = Some g /\ run_trusted r = t
  | Err _ => CustodyGuardEnabled cfg = false /\ sv_guard (run_service r) = None
  end.
Proof.
  unfold boot. intros ([] & Hprod & Hr)%result_bind_ok.
  apply result_bind_ok in Hr as ([[m n] l] & Hsec & Hr).
  apply guard_err_bind in Hr as [_ Hr]. apply guard_err_bind in Hr as [_ Hr].
  apply result_bind_ok in Hr as (store & Hstore & Hr).
  destruct (NewCustodyGuard cfg) as [[g t]|e].
  - apply result_bind_ok in Hr as ([g' t'] & [= <- <-] & [= <-]). cbn.
    split_and!; try done. by exists m, n, l.
  - destruct (CustodyGuardEnabled cfg) eqn:He; [done|].
    apply result_bind_ok in Hr as ([g' t'] & [= <- <-] & [= <-]). cbn.
    split_and!; try done. by exists m, n, l.
Qed.

Lemma NewCustodyGuard_cfg cfg g t : NewCustodyGuard cfg = Ok (g, t) -> g_cfg g = cfg.
Proof. unfold NewCustodyGuard. intros (l & _ & Hr)%result_bind_ok. by invert_ok; simplify_eq. Qed.

(** C20: a signer that starts in production signs for real, against a migrated
    database and with pinned token contracts; its middleware covers every route
    but /healthz and /readyz and checks signatures under the configured secret of
    at least 32 bytes; the transaction monitor runs, and so does the guard, if it
    is enabled. *)
Theorem production_boot cfg (r : running D R) :
  boot postgres_open redis_connect cfg = Ok r -> IsProduction cfg = true ->
  AllowSimulation cfg = false /\ run_monitor_loop r = true /\
  run_guard_loop r = CustodyGuardEnabled cfg /\
  (exists d, postgres_open (DatabaseURL cfg) = Ok d /\ run_store r = inr d) /\
  AllowedTokenContracts cfg <> ∅ /\
  32 <= len (TrimSpace (HMACSecret (Security cfg))) /\
  let m := sv_middleware (run_service r) in
  Enabled (m_options m) = true /\
  (forall path, isExcluded m path = true <-> path = "/healthz"%string \/ path = "/readyz"%string) /\
  opt_RequireHMAC (m_options m) = RequireHMAC (Security cfg) /\
  opt_RequireNonce (m_options m) = RequireNonce (Security cfg) /\
  activeSecret (rv_hmac (m_validator m)) = HMACSecret (Security cfg) /\
  oldSecret (rv_hmac (m_validator m)) = HMACOldSecret (Security cfg).
Proof.
  intros (Hval & (m & n & l & Hsec & -> & _) & Hstore & _ & Hguard & Hmon & Hg)%boot_ok Hprod.
  unfold ValidateProduction in Hval. rewrite Hprod in Hval. cbn [negb] in Hval.
  apply guard_err_bind in Hval as [Hsim Hval]. apply guard_err_bind in Hval as [Hdb Hval].
  apply guard_err_bind in Hval as [Htok Hval]. apply guard_err_bind in Hval as [Hlen _].
  split; [done|]. split; [by rewrite Hmon, Hsim|]. split.
  { rewrite Hguard. destruct (NewCustodyGuard cfg) as [[g t]|e] eqn:Hnew.
    - destruct Hg as [-> _]. cbn. by rewrite (NewCustodyGuard_cfg _ _ _ Hnew).
    - destruct Hg as [-> ->]. done. }
  split.
  { unfold openSignerStore in Hstore. destruct (String.eqb_spec (DatabaseURL cfg) "") as [E|_].
    - by rewrite E in Hdb.
    - destruct (postgres_open (DatabaseURL cfg)) as [d|e]; [|done]. exists d.
      by injection Hstore as <-. }
  split; [by intros E; rewrite E, size_empty in Htok|]. split; [by apply Z.ltb_ge in Hlen|].
  unfold setupSecurity in Hsec. apply result_bind_ok in Hsec as (store & _ & [= <- _ _]).
  cbv zeta. split; [done|]. split.
  { intros path. unfold isExcluded. cbn -[String.eqb]. rewrite !orb_true_iff, !String.eqb_eq. naive_solver. }
  split; [done|]. split; [done|]. unfold NewRequestValidator. cbn.
  destruct (String.eqb_spec (HMACOldSecret (Security cfg)) "") as [->|]; by split.
Qed.
End Production.

(** ** Closed examples *)

#[local] Existing Instance ascii_unicode.
#[local] Existing Instance ref_geth.
#[local] Existing Instance example_text.
#[local] Existing Instance example_server.

Definition with_signatures (required : bool) (s : SecurityConfig) : SecurityConfig := {|
  HMACSecret := HMACSecret s; HMACMaxSkewSec := HMACMaxSkewSec s;
  HMACOldSecret := HMACOldSecret s; NonceTTLSeconds := NonceTTLSeconds s;
  NonceStoreType := NonceStoreType s; RateLimitPerMin := RateLimitPerMin s;
  RateLimitBurst := RateLimitBurst s; RateLimiterType := RateLimiterType s;
  MaxBodySizeMB := MaxBodySizeMB s; RequireHMAC := required; RequireNonce := RequireNonce s;
  RequireAPIKey := RequireAPIKey s |}.

(** The example configuration, deployed: a database, a pinned token. *)
Definition production_config (signatures : bool) : SignerConfig :=
  let c := example_config in {|
  AppEnv := "production"; Port := Port c; DatabaseURL := "postgres://signer"; RedisURL := "";
  AllowSimulation := false; DefaultNetwork := DefaultNetwork c;
  AllowedNetworks := AllowedNetworks c;
  AllowedTokenContracts := {["0X55D398326F99059FF775485246999027B3197955"%string]};
  AllowedContractCalls := AllowedContractCalls c; MaxTransferAmount := MaxTransferAmount c;
  TokenDecimals := TokenDecimals c; EVMPrivateKey := EVMPrivateKey c; RPCURL := RPCURL c;
  RPCURLs := RPCURLs c; RPCFleet := RPCFleet c; BSCUSDTContract := BSCUSDTContract c;
  BSCTreasuryContract := BSCTreasuryContract c; BSCChainID := BSCChainID c;
  Security := with_signatures signatures (Security c);
  CustodyGuardEnabled := true; CustodyGuardPollMs := CustodyGuardPollMs c;
  CustodyMode := "live"; CustodyUnlockCooldown := CustodyUnlockCooldown c;
  CustodyProtectedRaw := CustodyProtectedRaw c; CustodyTrustedRaw := CustodyTrustedRaw c;
  CustodySelectorsRaw := CustodySelectorsRaw c; TreasuryMinUSDT := TreasuryMinUSDT c;
  TreasuryTargetUSDT := TreasuryTargetUSDT c; TreasuryMaxUSDT := TreasuryMaxUSDT c;
  TreasuryMaxDailyOut := TreasuryMaxDailyOut c; TreasuryLockThreshold := TreasuryLockThreshold c |}.

Definition open_database (url : string) : result pg_tables := Ok empty_tables.

Definition start_of (cfg : SignerConfig) : result (running pg_tables unit) :=
  boot open_database no_redis cfg.

Definition started (signatures : bool) : running pg_tables unit :=
  match start_of (production_config signatures) with
  | Ok r => r
  | Err _ => {| run_service := {| sv_cfg := example_config; sv_middleware := no_middleware;
                                  sv_guard := None |};
                run_nonces := inr None; run_limiter := NewRateLimiter "" 0 0;
                run_store := inr empty_tables; run_trusted := []; run_guard_loop := false;
                run_monitor_loop := false |}
  end.

Lemma production_boot_witness :
  start_of (production_config true) = Ok (started true) /\
  AllowSimulation (production_config true) = false /\
  run_guard_loop (started true) = true.
Proof.
  split; [vm_compute; reflexivity|].
  destruct (production_boot open_database no_redis (production_config true) (started true))
    as (Hsim & _ & Hguard & _); [vm_compute; reflexivity..|]. exact (conj Hsim Hguard).
Defined.

(** A request for a transfer of [body] tokens, signed or not. *)
Definition transfer_post (signed : bool) (body : string) : Request := {|
  rq_Method := "POST"; rq_EscapedPath := "/hd/transfer"; rq_RemoteAddr := "10.0.0.1:5000";
  rq_Header :=
    let headers := {["X-Request-Timestamp" := "1700000000"; "X-Request-Nonce" := "n-1"]}%string in
    if signed
    then <["X-Request-Signature"%string := GenerateHMAC example_secret "1700000000" "n-1" body]>
           headers
    else headers;
  rq_ContentLength := len body; rq_Body := body; rq_BodyErr := None |}.

Definition served_by (r : running pg_tables unit) (rq : Request) :
    served * (sec_world InMemoryNonceStore * world pg_tables) :=
  run (handle_serve second_clock example_entropy good_environment) (serve (run_service r) rq)
    (example_world, pg_world).

(** The signed request is paid. *)
Example signed_is_paid :
  (fun s => (tx_to (st_tx s.1), s.2)) <$>
    w_sent (served_by (started true) (transfer_post true "10")).2.2 = [(usdt, true)].
Proof. vm_compute. reflexivity. Qed.

Lemma broadcast_is_authorised_witness :
  exists l, w_sent (served_by (started true) (transfer_post true "10")).2.2 = l /\ l <> [] /\
    Forall (asks_for (production_config true) "/hd/transfer" "10") l.*1.
Proof.
  pose proof (broadcast_is_authorised second_clock example_entropy good_environment
    (run_service (started true)) (transfer_post true "10") example_world pg_world) as Hauth.
  change (run _ _ _) with (served_by (started true) (transfer_post true "10")) in Hauth.
  assert (length (w_sent (served_by (started true) (transfer_post true "10")).2.2) = 1%nat) as Hone
    by (vm_compute; reflexivity).
  assert (sv_cfg (run_service (started true)) = production_config true) as Hcfg
    by (vm_compute; reflexivity).
  assert (read_limited (rv_maxBodySize (m_validator (sv_middleware (run_service (started true)))))
            (transfer_post true "10") = Ok "10"%string) as Hread10 by (vm_compute; reflexivity).
  assert (take_str (Z.to_nat handler_body_limit) "10" = "10"%string) as Hcut
    by (vm_compute; reflexivity).
  destruct (served_by (started true) (transfer_post true "10")) as [o [sw' w']].
  destruct Hauth as (l & Hl & Hgood); [vm_compute; reflexivity..|]. cbn [fst snd] in *.
  exists l. split; [exact Hl|]. assert (l <> []) as Hne.
  { intros ->. rewrite Hl in Hone. discriminate Hone. }
  split; [exact Hne|].
  destruct (Hgood Hne) as (_ & _ & read & body & ts & nonce & hdr & legacy & a & s1 & t & Hread
    & Hbody & _ & _ & _ & _ & _ & _ & _ & Hask).
  rewrite Hread10 in Hread. apply (inj Ok) in Hread. rewrite <- Hread, Hcut in Hbody.
  rewrite Hbody, Hcfg in Hask. exact Hask.
Defined.

(** The production checks ask for a secret, not for signatures. With
    REQUIRE_HMAC=false the signer starts in production all the same, and pays a
    transfer that nobody signed. *)
Theorem production_may_pay_unsigned :
  start_of (production_config false) = Ok (started false) /\
  IsProduction (production_config false) = true /\
  credentials (transfer_post false "10") = ("1700000000", "n-1", "", false)%string /\
  let (out, w) := served_by (started false) (transfer_post false "10") in
  (exists resp, out = Handled (Some resp) /\ res_status resp = 200) /\
  (fun s => (tx_to (st_tx s.1), s.2)) <$> w_sent w.2 = [(usdt, true)].
Proof.
  split; [vm_compute; reflexivity|]. split; [vm_compute; reflexivity|].
  split; [vm_compute; reflexivity|].
  rewrite (surjective_pairing (served_by (started false) (transfer_post false "10"))).
  split; [eexists; split; vm_compute; reflexivity|]. vm_compute. reflexivity.
Qed.
