(* ===== verification/Trace.v ===== *)
(** * What a goroutine has seen: histories under interleaving.

    [obeys J Q h p]: whatever admissible answers the operations of [p] get, after
    a history [h], its history satisfies [J] at every moment and [Q] of the result
    at the end. The answers are not tied to a state, so a claim proved this way
    holds of a goroutine whatever runs beside it: [histories_obey]. *)
From S2P Require Export Prog.

(** An operation that was performed, and its answer. *)
Record event (E : Type -> Type) := Event { ev_type : Type; ev_op : E ev_type; ev_answer : ev_type }.
Arguments Event {E ev_type} ev_op ev_answer.
Arguments ev_type {E} _.
Arguments ev_op {E} _.
Arguments ev_answer {E} _.

Section Trace.
Context {E : Type -> Type}.
Variable admissible : forall X, E X -> X -> Prop.
Abbreviation history := (list (event E)).
Implicit Types h : history.

Section Obeys.
Variable J : history -> Prop.

Fixpoint obeys {A} (Q : history -> A -> Prop) h (p : prog E A) : Prop :=
  J h /\
  match p with
  | Ret a => Q h a
  | Vis e k => forall x, admissible _ e x -> obeys Q (h ++ [Event e x]) (k x)
  end.

Lemma obeys_now {A} (Q : history -> A -> Prop) h p : obeys Q h p -> J h.
Proof. by destruct p; intros []. Qed.

Lemma obeys_ret {A} (Q : history -> A -> Prop) h a : J h -> Q h a -> obeys Q h (Ret a).
Proof. by split. Qed.

Lemma obeys_mono {A} (Q R : history -> A -> Prop) h p :
  (forall h' a, J h' -> Q h' a -> R h' a) -> obeys Q h p -> obeys R h p.
Proof.
  intros HQR. revert h. induction p as [a|X e k IH]; intros h; cbn; [naive_solver|].
  intros [HJ Hk]. split; [done|]. intros x Hx. by apply IH, Hk.
Qed.

Lemma obeys_bind {A B} (Q : history -> B -> Prop) h (p : prog E A) (f : A -> prog E B) :
  obeys (fun h' a => obeys Q h' (f a)) h p -> obeys Q h (p ≫= f).
Proof.
  revert h. induction p as [a|X e k IH]; intros h; cbn; [by intros []|].
  intros [HJ Hk]. split; [done|]. intros x Hx. by apply IH, Hk.
Qed.

Lemma obeys_op {X A} (Q : history -> A -> Prop) h (e : E X) (k : X -> prog E A) :
  J h -> (forall x, admissible _ e x -> obeys Q (h ++ [Event e x]) (k x)) ->
  obeys Q h (perform e ≫= k).
Proof. by split. Qed.
End Obeys.

Lemma obeys_weaken (J J' : history -> Prop) {A} (Q : history -> A -> Prop) h (p : prog E A) :
  (forall h', J h' -> J' h') -> obeys J Q h p -> obeys J' Q h p.
Proof.
  intros HJ. revert h. induction p as [a|X e k IH]; intros h; cbn; [naive_solver|].
  intros [Hh Hk]. split; [auto|]. intros x Hx. by apply IH, Hk.
Qed.

Lemma obeys_always (J : history -> Prop) {A} h (p : prog E A) :
  (forall h, J h) -> obeys J (fun _ _ => True) h p.
Proof. intros HJ. revert h. by induction p as [a|X e k IH]; split. Qed.

(** What holds of every extension of a history. *)
Lemma obeys_extensions (J : history -> Prop) {A} h (p : prog E A) :
  (forall l, J (h ++ l)%list) -> obeys J (fun _ _ => True) h p.
Proof.
  revert h. induction p as [a|X e k IH]; intros h HJ.
  - split; [|done]. specialize (HJ []). by rewrite (right_id_L [] (++)) in HJ.
  - split; [specialize (HJ []); by rewrite (right_id_L [] (++)) in HJ|]. intros x _. apply IH.
    intros l. rewrite <- (assoc_L (++)). apply HJ.
Qed.

(** What is known of the history is kept as it grows. *)
Lemma obeys_extends J {A} (Q : history -> A -> Prop) h p :
  obeys J Q h p ->
  obeys (fun h' => h `prefix_of` h' /\ J h') (fun h' a => h `prefix_of` h' /\ Q h' a) h p.
Proof.
  enough (forall h0, h0 `prefix_of` h -> obeys J Q h p ->
    obeys (fun h' => h0 `prefix_of` h' /\ J h') (fun h' a => h0 `prefix_of` h' /\ Q h' a) h p)
    as Hany by (intros Hp; by apply Hany).
  intros h0. revert h. induction p as [a|X e k IH]; intros h Hh; cbn; [naive_solver|].
  intros [HJ Hk]. split; [done|]. intros x Hx. apply IH; [|by apply Hk].
  by apply prefix_app_r.
Qed.

(** ** Pools *)

Section Pool.
Context {W A : Type}.
Variable handle : forall X, E X -> W -> X * W.

Abbreviation goroutine := (prog E A * history)%type.

Inductive history_step : list goroutine * W -> list goroutine * W -> Prop :=
| history_thread ts w i X (e : E X) k h :
    ts !! i = Some (Vis e k, h) ->
    history_step (ts, w)
      (<[i := (k (handle X e w).1, h ++ [Event e (handle X e w).1])%list]> ts, (handle X e w).2).

(** Histories only observe: without them it is a step of the pool. *)
Lemma history_step_pool c c' :
  history_step c c' -> pool_step handle (c.1.*1, c.2) (c'.1.*1, c'.2).
Proof.
  intros [ts w i X e k h Hi]. cbn [fst snd]. rewrite list_fmap_insert.
  eapply pool_step_thread; [by rewrite list_lookup_fmap, Hi|]. cbn. by destruct (handle X e w).
Qed.

Lemma histories_obey {B} (J : B -> history -> Prop) (Q : B -> history -> A -> Prop) bs c c' :
  (forall X (e : E X) w, admissible X e (handle X e w).1) ->
  rtc history_step c c' ->
  Forall2 (fun b t => obeys (J b) (Q b) t.2 t.1) bs c.1 ->
  Forall2 (fun b t => obeys (J b) (Q b) t.2 t.1) bs c'.1.
Proof.
  intros Hadm. induction 1 as [c|c c1 c' Hstep _ IH]; intros Hc; [done|]. apply IH.
  destruct Hstep as [ts w i X e k h Hi]. cbn in *.
  destruct (Forall2_lookup_r _ _ _ _ _ Hc Hi) as (b & Hb & [_ Hk]).
  rewrite <- (list_insert_id bs i b Hb). apply Forall2_insert; [done|]. cbn. by apply Hk.
Qed.

(** One of them. *)
Lemma history_obeys (J : history -> Prop) (Q : history -> A -> Prop) i c c' :
  (forall X (e : E X) w, admissible X e (handle X e w).1) ->
  rtc history_step c c' -> forall p h, c.1 !! i = Some (p, h) -> obeys J Q h p ->
  exists p' h', c'.1 !! i = Some (p', h') /\ obeys J Q h' p'.
Proof.
  intros Hadm. induction 1 as [c|c c1 c' Hstep _ IH]; intros p h Hi Hp; [by exists p, h|].
  destruct Hstep as [ts w j X e k h0 Hj]. cbn in *. destruct (decide (i = j)) as [<-|Hne].
  - rewrite Hj in Hi. injection Hi as <- <-. destruct Hp as [_ Hk]. eapply IH; [|by apply Hk].
    apply list_lookup_insert_eq. by eapply lookup_lt_Some.
  - eapply IH; [|exact Hp]. by rewrite list_lookup_insert_ne.
Qed.

(** A run in a given order, for closed examples. *)
Fixpoint run_history (schedule : list nat) (c : list goroutine * W) : list goroutine * W :=
  match schedule with
  | [] => c
  | i :: schedule' =>
      match c.1 !! i with
      | Some (Vis e k, h) =>
          let r := handle _ e c.2 in
          run_history schedule' (<[i := (k r.1, h ++ [Event e r.1])%list]> c.1, r.2)
      | _ => run_history schedule' c
      end
  end.

Lemma run_history_steps schedule c : rtc history_step c (run_history schedule c).
Proof.
  revert c. induction schedule as [|i schedule IH]; intros [ts w]; [apply rtc_refl|].
  cbn [run_history fst snd]. destruct (ts !! i) as [[[a|X e k] h]|] eqn:Hi; [apply IH| |apply IH].
  eapply rtc_l; [by eapply history_thread|apply IH].
Qed.
End Pool.
End Trace.

(** The run of a program in which its operations are answered as listed. *)
Fixpoint trace_of {E : Type -> Type} {A} (p : prog E A) (l : list (event E)) (a : A) : Prop :=
  match p with
  | Ret a' => l = [] /\ a' = a
  | Vis e k => exists x l', l = Event e x :: l' /\ trace_of (k x) l' a
  end.

(** ** Finer operations

    [past h] is what a history of the fine operations amounts to in the coarse
    ones; [traced f]: the program of a coarse operation adds nothing to it but,
    with its last step, the operation and an admissible answer. *)
Section Refine.
Context {E F : Type -> Type}.
Variable admE : forall X, E X -> X -> Prop.
Variable admF : forall X, F X -> X -> Prop.
Variable back : event F -> option (event E).

Definition past (h : list (event F)) : list (event E) := omap back h.

Lemma past_app h h' : past (h ++ h') = (past h ++ past h')%list.
Proof. apply omap_app. Qed.

Lemma past_silent h ev : back ev = None -> past (h ++ [ev]) = past h.
Proof. intros Hev. rewrite past_app. cbn. by rewrite Hev, (right_id_L [] (++)). Qed.

Lemma past_visible h ev e : back ev = Some e -> past (h ++ [ev]) = (past h ++ [e])%list.
Proof. intros Hev. rewrite past_app. cbn. by rewrite Hev. Qed.

(** A point of the coarse history is a point of the fine one. *)
Lemma past_split h l l' :
  past h = (l ++ l')%list -> exists h1 h2, h = (h1 ++ h2)%list /\ past h1 = l /\ past h2 = l'.
Proof.
  revert l. induction h as [|ev h IH]; intros l; cbn.
  - intros [-> ->]%eq_sym%app_nil. by exists [], [].
  - destruct (back ev) as [e|] eqn:Hev.
    + destruct l as [|e' l]; cbn.
      * intros <-. exists [], (ev :: h). cbn. by rewrite Hev.
      * intros [= <- Hl]. destruct (IH l Hl) as (h1 & h2 & -> & <- & <-). exists (ev :: h1), h2. cbn.
        by rewrite Hev.
    + intros Hl. destruct (IH l Hl) as (h1 & h2 & -> & <- & <-). exists (ev :: h1), h2. cbn.
      by rewrite Hev.
Qed.

Definition traced (f : forall X, E X -> prog F X) : Prop :=
  forall X (e : E X) h,
    obeys admF
      (fun h' => past h' = past h \/
                 exists x, admE X e x /\ past h' = (past h ++ [Event e x])%list)
      (fun h' x => admE X e x /\ past h' = (past h ++ [Event e x])%list) h (f X e).

Lemma obeys_interp f (J : list (event E) -> Prop) {A} (Q : list (event E) -> A -> Prop) h (p : prog E A) :
  traced f -> obeys admE J Q (past h) p ->
  obeys admF (fun h' => J (past h')) (fun h' a => Q (past h') a) h (interp f p).
Proof.
  intros Hf. revert h. induction p as [a|X e k IH]; intros h; cbn [interp]; [done|].
  intros [HJ Hk]. apply obeys_bind. eapply obeys_weaken, obeys_mono, Hf.
  - intros h' [->|(x & Hx & ->)]; [exact HJ|]. by eapply obeys_now, Hk.
  - intros h' x _ [Hx Hpast]. apply IH. rewrite Hpast. by apply Hk.
Qed.
End Refine.
