(* ===== verification/Concurrent.v ===== *)
(** * The whole service under interleaving.

    Any number of incoming requests, each through the middleware and its route,
    run beside the guard and the monitor as goroutines over the shared state of
    both: the middleware's nonces and limiter, and the service's store, fleet and
    flags. Two properties survive every interleaving: each transaction handed over
    was asked for by the signed body of the goroutine's own request, and an
    idempotency key pays once. *)
From S2P Require Export Main Trace.

(** ** What all the histories add up to *)

(** When every operation adds to a log of the state what its event shows, the log
    is what the histories show, in some order. *)
Lemma steps_logged {E : Type -> Type} {W A B} (handle : forall X, E X -> W -> X * W)
    (log : W -> list B) (logged : event E -> list B) (c c' : list (prog E A * list (event E)) * W) l :
  (forall X (e : E X) w, log (handle X e w).2 = (log w ++ logged (Event e (handle X e w).1))%list) ->
  rtc (history_step handle) c c' ->
  log c.2 ≡ₚ l ++ concat ((fun t => t.2 ≫= logged) <$> c.1) ->
  log c'.2 ≡ₚ l ++ concat ((fun t => t.2 ≫= logged) <$> c'.1).
Proof.
  intros Hlog Hsteps. induction Hsteps as [c|c c1 c' Hstep _ IH]; intros Hc; [done|]. apply IH.
  destruct Hstep as [ts w i X e k h Hi]. cbn [fst snd] in *.
  rewrite Hlog, list_fmap_insert. cbn [snd]. rewrite bind_app.
  rewrite concat_insert by by rewrite list_lookup_fmap, Hi.
  rewrite Hc, <- (assoc_L (++)). cbn. by rewrite (right_id_L [] (++) (logged _)).
Qed.

(** ** Histories of service operations *)

Definition eff_sends (h : list (event eff)) : sends :=
  h ≫= fun ev => sent_by (ev_op ev) (ev_answer ev).

Lemma eff_sends_app h h' : eff_sends (h ++ h') = (eff_sends h ++ eff_sends h')%list.
Proof. apply bind_app. Qed.

Lemma eff_sends_one {X} (e : eff X) x : eff_sends [Event e x] = sent_by e x.
Proof. unfold eff_sends. cbn. by rewrite (right_id_L [] (++)). Qed.

Lemma eff_sends_snoc h {X} (e : eff X) x :
  eff_sends (h ++ [Event e x]) = (eff_sends h ++ sent_by e x)%list.
Proof. by rewrite eff_sends_app, eff_sends_one. Qed.

Abbreviation service_obeys := (obeys (@possible)).

Lemma runs_obeys P I {A} (Q : sends -> A -> Prop) h (p : prog eff A) :
  runs P I Q (eff_sends h) p ->
  service_obeys (fun h' => I (eff_sends h')) (fun h' a => Q (eff_sends h') a) h p.
Proof.
  revert h. induction p as [a|X e k IH]; intros h; cbn; [by intros []|].
  intros (HI & _ & Hk). split; [done|]. intros x Hx. apply IH. rewrite eff_sends_snoc. by apply Hk.
Qed.

Lemma possible_inhabited {X} (e : eff X) : exists x, possible e x.
Proof.
  destruct e as [|X e|X e| | | | | | | | | |]; cbn.
  1: by exists 0. 1-2: by destruct e; exists (Err ""%string).
  - by exists None.
  - by exists tt.
  - by exists tt.
  - by exists true.
  - by exists tt.
  - by exists ""%string.
  - by exists tt.
  - by exists [].
  - by exists None.
  - by exists tt.
Qed.

(** A program can always go on to its end, so what its end forces on all its
    broadcasts holds of them at every moment. *)
Lemma runs_always P I (G : sends -> Prop) {A} (Q : sends -> A -> Prop) l (p : prog eff A) :
  (forall l l', G (l ++ l')%list -> G l) -> (forall l a, Q l a -> G l) ->
  runs P I Q l p -> runs P (fun l => I l /\ G l) Q l p.
Proof.
  intros Hpre HQ Hp. enough (G l /\ runs P (fun l => I l /\ G l) Q l p) by tauto.
  revert l Hp. induction p as [a|X e k IH]; intros l.
  - intros [HI Ha]. split; [by eapply HQ|]. split; [|done]. split; [done|by eapply HQ].
  - intros (HI & He & Hk). destruct (possible_inhabited e) as [x Hx].
    destruct (IH x _ (Hk x Hx)) as [HG _]. apply Hpre in HG. split; [done|]. cbn.
    split; [done|]. split; [done|]. intros y Hy. by apply IH, Hk.
Qed.

(** ** What a route has seen before it broadcasts *)

Section RouteHistory.
Context `{GoUnicode, Geth, GoText}.
Implicit Types cfg : SignerConfig.
Implicit Types h : list (event eff).

(** Not locked, the nonce accepted, the key granted. *)
Definition route_seen cfg (g : option CustodyGuard) (nonce key : string) h : Prop :=
  (is_Some g -> Event EGetLocked false ∈ h) /\
  Event (EStore (SAcceptNonce nonce (GetNonceTTL cfg))) (Ok true) ∈ h /\
  exists previous, Event (EStore (SClaimResult key)) (Ok (previous, false, true)) ∈ h.

Lemma route_seen_mono cfg g nonce key h h' :
  h `prefix_of` h' -> route_seen cfg g nonce key h -> route_seen cfg g nonce key h'.
Proof.
  intros [l ->] (Hlock & Hacc & previous & Hclaim).
  split; [intros Hg; apply elem_of_app; left; by apply Hlock|].
  split; [apply elem_of_app; by left|]. exists previous. apply elem_of_app. by left.
Qed.

(** [s] is what the decoded body of the request asks for, with the checks passed. *)
Definition route_allows {Req} cfg g (decode : string -> result Req) (key : Req -> string)
    (good : Req -> SignedTransaction -> Prop) rq (ctx : option RequestContext) h
    (s : SignedTransaction) : Prop :=
  rq_Method rq = "POST"%string /\
  exists c body req, ctx = Some c /\ read_limited handler_body_limit rq = Ok body /\
    decode body = Ok req /\ good req s /\ route_seen cfg g (Nonce c) (key req) h.

Definition all_sent_satisfy (P : list (event eff) -> SignedTransaction -> Prop) h : Prop :=
  Forall (P h) (eff_sends h).*1.

Lemma nothing_sent P h : eff_sends h = [] -> all_sent_satisfy P h.
Proof. unfold all_sent_satisfy. by intros ->. Qed.

(** Before the first broadcast. *)
Lemma obeys_silent {X A} P (Q : list (event eff) -> A -> Prop) h (e : eff X) k :
  eff_sends h = [] -> (forall x, sent_by e x = []) ->
  (forall x, eff_sends (h ++ [Event e x]) = [] ->
     service_obeys (all_sent_satisfy P) Q (h ++ [Event e x]) (k x)) ->
  service_obeys (all_sent_satisfy P) Q h (perform e ≫= k).
Proof.
  intros Hh He Hk. apply obeys_op; [by apply nothing_sent|]. intros x _. apply Hk.
  by rewrite eff_sends_snoc, Hh, He.
Qed.

Lemma obeys_silent_ret {A} P h (a : A) :
  eff_sends h = [] -> service_obeys (all_sent_satisfy P) (fun _ _ => True) h (Ret a).
Proof. intros Hh. apply obeys_ret; [by apply nothing_sent|done]. Qed.

Lemma claim_obeys cfg key exec (good : SignedTransaction -> Prop)
    (P : list (event eff) -> SignedTransaction -> Prop) h :
  runs exec_op at_most_one (executed cfg good) [] exec -> eff_sends h = [] ->
  (forall h' previous s,
     (h ++ [Event (EStore (SClaimResult key)) (Ok (previous, false, true))])%list `prefix_of` h' ->
     good s -> P h' s) ->
  service_obeys (all_sent_satisfy P) (fun _ _ => True) h (claim_and_execute key exec).
Proof.
  intros Hexec Hh HP. apply obeys_silent; [done..|].
  intros [[[previous done] claimed]|e] Hh'; [|by apply obeys_silent_ret].
  destruct done; [by apply obeys_silent_ret|]. destruct claimed; [|by apply obeys_silent_ret].
  cbn [negb]. set (h1 := (h ++ _)%list).
  assert (forall h', h1 `prefix_of` h' -> Forall good (eff_sends h').*1 -> all_sent_satisfy P h')
    as HK by (intros h' Hpre Hg; eapply Forall_impl; [exact Hg|]; intros s; by apply (HP h' previous)).
  assert (runs exec_op (fun l => at_most_one l /\ Forall good l.*1) (executed cfg good) [] exec)
    as Hrun.
  { apply runs_always; [| |done].
    - intros l l'. rewrite fmap_app, Forall_app. by intros [].
    - intros l o. unfold executed. destruct (AllowSimulation cfg); [by intros ->|].
      by intros (_ & ? & _). }
  rewrite <- Hh' in Hrun. apply runs_obeys, obeys_extends in Hrun.
  apply obeys_bind. eapply obeys_weaken, obeys_mono, Hrun.
  { intros h' (Hpre & _ & Hgood). by apply HK. }
  intros h' o (Hpre & _ & Hgood) _. cbn beta in *.
  assert (forall X (e : eff X) x, (forall y, sent_by e y = []) ->
            all_sent_satisfy P (h' ++ [Event e x])) as Hmore.
  { intros X e x He. apply HK; [by apply prefix_app_r|].
    by rewrite eff_sends_snoc, He, (right_id_L [] (++)). }
  specialize (HK h' Hpre Hgood). destruct o as [resp|e|].
  - apply obeys_op; [done|]. intros [u|e] _; by apply obeys_ret; [apply Hmore|].
  - apply obeys_bind, obeys_op; [done|]. intros u _.
    apply obeys_ret; [by apply Hmore|]. by apply obeys_ret; [apply Hmore|].
  - by apply obeys_ret.
Qed.

Lemma route_obeys {Req} cfg g (decode : string -> result Req) key exec good rq ctx :
  (forall req, runs exec_op at_most_one (executed cfg (good req)) [] (exec req)) ->
  service_obeys (all_sent_satisfy (route_allows cfg g decode key good rq ctx)) (fun _ _ => True)
    [] (signing_route cfg g decode key exec rq ctx).
Proof.
  intros Hexec. unfold signing_route.
  destruct (String.eqb_spec (rq_Method rq) "POST") as [Hpost|]; [|by apply obeys_silent_ret].
  cbn [negb]. set (P := route_allows cfg g decode key good rq ctx).
  assert (forall h, eff_sends h = [] -> (is_Some g -> Event EGetLocked false ∈ h) ->
    service_obeys (all_sent_satisfy P) (fun _ _ => True) h
      (with_fresh_body cfg rq ctx (fun _ body =>
            match decode body with
            | Ok req => claim_and_execute (key req) (exec req)
            | Err _ => Ret (http_Error "JSON invalido" 400)
            end))) as Hrest.
  { intros h Hh Hlock. destruct ctx as [c|]; [|by apply obeys_silent_ret]. cbn [with_fresh_body].
    destruct (read_limited handler_body_limit rq) as [body|e] eqn:Hbody;
      [|by apply obeys_silent_ret].
    apply obeys_silent; [done..|]. intros [[]|e] Hh'; [|by apply obeys_silent_ret..]. cbn [negb].
    destruct (decode body) as [req|e] eqn:Hreq; [|by apply obeys_silent_ret].
    apply (claim_obeys cfg _ _ (good req)); [done..|]. intros h' previous s [l ->] Hs.
    split; [done|]. exists c, body, req. do 4 (split; [done|]).
    split; [|split; [|exists previous]]; rewrite !elem_of_app, !list_elem_of_singleton; auto. }
  destruct g as [g|]; [|by apply Hrest; [|intros [? ?]]].
  apply obeys_silent; [done..|]. intros reason Hh.
  apply obeys_silent; [done..|]. intros [] Hh'; [by apply obeys_silent_ret|].
  apply Hrest; [done|]. intros _. apply elem_of_app. right. by apply list_elem_of_singleton.
Qed.
End RouteHistory.

(** ** What the middleware has seen before it hands a request on *)

Definition any_answer (X : Type) (e : sec_op X) (x : X) : Prop := True.
Abbreviation security_obeys := (obeys any_answer (fun _ => True)).

Section MiddlewareHistory.
Context `{GoUnicode}.
Implicit Types h : list (event sec_op).
Implicit Types rq : Request.

Lemma security_any {A} h (p : prog sec_op A) : security_obeys (fun h' _ => h `prefix_of` h') h p.
Proof.
  assert (security_obeys (fun _ _ => True) h p) as Hany by by apply obeys_always.
  apply obeys_extends in Hany.
  eapply obeys_weaken, obeys_mono, Hany; [done|]. by intros h' a _ [].
Qed.

(** The request a handler is given: untouched on an excluded path, otherwise with
    the body the middleware has read. *)
Definition handed (m : Middleware) rq : option Request :=
  if isExcluded m (rq_Path rq) || negb (Enabled (m_options m)) then Some rq else
  match read_limited (rv_maxBodySize (m_validator m)) rq with
  | Ok body => Some (with_body body rq)
  | Err _ => None
  end.

(** A timely signature over what was read, and a nonce that was new. *)
Definition signed_seen (rv : RequestValidator) rq (read nonce : string) h : Prop :=
  exists ts hdr legacy t,
    credentials rq = (ts, nonce, hdr, legacy) /\ nonce <> ""%string /\
    Event SNow t ∈ h /\ signature_ok rv t ts nonce hdr read legacy /\
    Event (SNonce (NExists nonce)) (Ok false) ∈ h /\
    Event (SNonce (NStore nonce (rv_nonceTTL rv))) (Ok tt) ∈ h.

Lemma check_signature_obeys rv ts nonce hdr legacy body h :
  security_obeys (fun h' r => h `prefix_of` h' /\ (r = Ok true ->
      exists t, Event SNow t ∈ h' /\ signature_ok rv t ts nonce hdr body legacy))
    h (check_signature rv ts nonce hdr legacy body).
Proof.
  unfold check_signature. destruct (String.eqb hdr ""); [by apply obeys_ret|].
  apply obeys_op; [done|]. intros t _. unfold signature_ok.
  assert (h `prefix_of` h ++ [Event SNow t]) as Hpre by by eexists.
  destruct (if legacy then _ else _) as [[]|e] eqn:Hsig; apply obeys_ret; try done.
  split; [done|]. intros _. exists t. split; [|done].
  apply elem_of_app. right. by apply list_elem_of_singleton.
Qed.

Lemma check_nonce_obeys rv nonce h :
  security_obeys (fun h' r => h `prefix_of` h' /\ (r = Ok tt -> nonce <> ""%string ->
      Event (SNonce (NExists nonce)) (Ok false) ∈ h' /\
      Event (SNonce (NStore nonce (rv_nonceTTL rv))) (Ok tt) ∈ h'))
    h (check_nonce rv nonce).
Proof.
  unfold check_nonce, ValidateNonce. destruct (String.eqb_spec nonce "") as [->|Hne];
    [by apply obeys_ret|].
  split; [done|]. intros [[]|e] _; [by split; [done|]; split; [by eexists|]| |
    by split; [done|]; split; [by eexists|]].
  split; [done|]. intros [[]|e] _; split; try done; (split; [by do 2 apply prefix_app_r|]); [|done].
  intros _ _. split; rewrite !elem_of_app, !list_elem_of_singleton; auto.
Qed.

(** A request that is validated was read, and if a signature and a nonce were
    given, both were checked. *)
Lemma ValidateRequest_obeys rv rq h :
  security_obeys (fun h' r => match r with
    | Ok (ctx, rq') => exists read, read_limited (rv_maxBodySize rv) rq = Ok read /\
        rq' = with_body read rq /\
        (Validated ctx = true -> Nonce ctx <> ""%string -> signed_seen rv rq read (Nonce ctx) h')
    | Err _ => True
    end) h (ValidateRequest rv rq).
Proof.
  unfold ValidateRequest. apply obeys_bind. eapply obeys_mono; [|apply security_any].
  intros h1 id _ _. apply obeys_op; [done|]. intros start _.
  destruct (_ && _); [by apply obeys_ret|].
  destruct (read_limited (rv_maxBodySize rv) rq) as [read|e] eqn:Hread; [|by apply obeys_ret].
  destruct (credentials rq) as [[[ts nonce] hdr] legacy] eqn:Hcred.
  apply obeys_bind. eapply obeys_mono; [|apply check_signature_obeys].
  intros h2 signed _ [_ Hsig]. destruct signed as [signed|e]; [|by apply obeys_ret].
  apply obeys_bind. eapply obeys_mono; [|apply check_nonce_obeys].
  intros h3 checked _ [Hpre Hnonce]. destruct checked as [[]|e]; [|by apply obeys_ret].
  apply obeys_op; [done|]. intros [] _; [|by apply obeys_ret]. apply obeys_ret; [done|].
  exists read. split; [done|]. split; [done|]. cbn. intros Hval Hne.
  destruct signed; [|done]. destruct (Hsig eq_refl) as (t & Ht & Hok).
  destruct (Hnonce eq_refl Hne) as [Hex Hst]. exists ts, hdr, legacy, t.
  assert (forall ev, ev ∈ h3 -> forall l, ev ∈ (h3 ++ l)%list) as Happ
    by (intros ev Hev l; apply elem_of_app; by left).
  split; [done|]. split; [done|]. split; [|split; [done|split; by apply Happ]].
  apply Happ. destruct Hpre as [l ->]. apply elem_of_app. by left.
Qed.

Lemma Handler_obeys m rq :
  security_obeys (fun h' out => match out with
    | Next rq' ctx => handed m rq = Some rq' /\ forall c, ctx = Some c ->
        opt_RequireHMAC (m_options m) = true -> opt_RequireNonce (m_options m) = true ->
        exists read, read_limited (rv_maxBodySize (m_validator m)) rq = Ok read /\
          rq' = with_body read rq /\ signed_seen (m_validator m) rq read (Nonce c) h'
    | Respond _ _ => True
    end) [] (Handler m rq).
Proof.
  unfold Handler, handed. destruct (isExcluded m (rq_Path rq)); [by apply obeys_ret|].
  destruct (isMethodAllowed m (rq_Method rq)); [|by apply obeys_ret].
  destruct (Enabled (m_options m)); [|by apply obeys_ret]. cbn [negb orb].
  apply obeys_bind. eapply obeys_mono; [|apply ValidateRequest_obeys].
  intros h [[ctx rq']|e] _; [|by intros _; apply obeys_ret].
  intros (read & Hread & -> & Hseen).
  destruct (opt_RequireHMAC _ && _) eqn:Hh; [by apply obeys_ret|].
  destruct (opt_RequireNonce _ && _) eqn:Hn; [by apply obeys_ret|].
  destruct (opt_RequireAPIKey _ && _); [by apply obeys_ret|]. apply obeys_ret; [done|].
  rewrite Hread. split; [done|]. intros c [= <-] Hreq Hreq'. rewrite Hreq in Hh.
  rewrite Hreq' in Hn. cbn in Hh, Hn. exists read. split; [done|]. split; [done|].
  apply Hseen; [by destruct (Validated ctx)|by apply String.eqb_neq].
Qed.
End MiddlewareHistory.

(** ** Histories of the service *)

Definition lift_event {E F : Type -> Type} (f : forall X, E X -> F X) (ev : event E) : event F :=
  Event (f _ (ev_op ev)) (ev_answer ev).

Definition serve_possible (X : Type) (e : serve_op X) : X -> Prop :=
  match e in serve_op X return X -> Prop with
  | OnSecurity _ => fun _ => True
  | OnService e => possible e
  end.

Definition serve_sent_by {X} (e : serve_op X) : X -> sends :=
  match e in serve_op X return X -> sends with
  | OnSecurity _ => fun _ => []
  | OnService e => sent_by e
  end.

Definition serve_sends (h : list (event serve_op)) : sends :=
  h ≫= fun ev => serve_sent_by (ev_op ev) (ev_answer ev).

Abbreviation on_security := (lift_event (@OnSecurity)).
Abbreviation on_service := (lift_event (@OnService)).
Abbreviation serve_obeys := (obeys serve_possible).

Lemma serve_sends_app h h' : serve_sends (h ++ h') = (serve_sends h ++ serve_sends h')%list.
Proof. apply bind_app. Qed.
Lemma serve_sends_one {X} (e : serve_op X) x : serve_sends [Event e x] = serve_sent_by e x.
Proof. unfold serve_sends. cbn. by rewrite (right_id_L [] (++)). Qed.
Lemma serve_sends_security h : serve_sends (on_security <$> h) = [].
Proof. by induction h. Qed.
Lemma serve_sends_service h : serve_sends (on_service <$> h) = eff_sends h.
Proof. induction h as [|ev h IH]; [done|]. cbn. by f_equal. Qed.

Lemma obeys_translate {E F : Type -> Type} (admE : forall X, E X -> X -> Prop)
    (admF : forall X, F X -> X -> Prop) (f : forall X, E X -> F X) J J' {A}
    (Q : list (event E) -> A -> Prop) h0 h (p : prog E A) :
  (forall X e x, admF X (f X e) x -> admE X e x) ->
  (forall h, J h -> J' (h0 ++ (lift_event f <$> h))%list) ->
  obeys admE J Q h p ->
  obeys admF J' (fun h' a => exists h1, h' = (h0 ++ (lift_event f <$> h1))%list /\ J h1 /\ Q h1 a)
    (h0 ++ (lift_event f <$> h))%list (translate f p).
Proof.
  intros Hadm HJ. revert h. induction p as [a|X e k IH]; intros h; cbn.
  - intros [Hh HQ]. split; [by apply HJ|]. by exists h.
  - intros [Hh Hk]. split; [by apply HJ|]. intros x Hx.
    specialize (IH x (h ++ [Event e x])%list (Hk x (Hadm _ _ _ Hx))).
    by rewrite fmap_app, (assoc_L (++)) in IH.
Qed.

(** ** Every broadcast is authorised *)

Section Authorised.
Context `{GoUnicode, Geth, GoText}.
Implicit Types sv : service.
Implicit Types rq : Request.

(** What justifies the broadcast of [s] in the goroutine that serves [rq] and
    has seen [h]: the request is a POST whose body, as it was read, carries a
    signature that was timely at a reading of the clock and a nonce that was new
    to the middleware's store and to the service's; the lock was seen open, the
    request's key was granted, and the body asks for [s]. *)
Definition authorised sv rq (h : list (event serve_op)) (s : SignedTransaction) : Prop :=
  let rv := m_validator (sv_middleware sv) in
  rq_Method rq = "POST"%string /\
  exists read nonce key h1 h2,
    h = ((on_security <$> h1) ++ (on_service <$> h2))%list /\
    read_limited (rv_maxBodySize rv) rq = Ok read /\
    signed_seen rv rq read nonce h1 /\
    route_seen (sv_cfg sv) (sv_guard sv) nonce key h2 /\
    asks_for (sv_cfg sv) (rq_Path rq) (take_str (Z.to_nat handler_body_limit) read) s.

(** What a protected route broadcasts, as [route_allows] but for any of them. *)
Definition path_allows sv path rq ctx (h : list (event eff)) (s : SignedTransaction) : Prop :=
  rq_Method rq = "POST"%string /\
  exists c body key, ctx = Some c /\ read_limited handler_body_limit rq = Ok body /\
    route_seen (sv_cfg sv) (sv_guard sv) (Nonce c) key h /\ asks_for (sv_cfg sv) path body s.

Lemma route_allows_path sv path {Req} (decode : string -> result Req) key good rq ctx h s :
  (forall body req, decode body = Ok req -> good req s -> asks_for (sv_cfg sv) path body s) ->
  route_allows (sv_cfg sv) (sv_guard sv) decode key good rq ctx h s ->
  path_allows sv path rq ctx h s.
Proof.
  intros Hgood (Hpost & c & body & req & -> & Hbody & Hreq & Hs & Hseen). split; [done|].
  exists c, body, (key req). split; [done|]. split; [done|]. split; [done|]. by eapply Hgood.
Qed.

Lemma only_service_obeys {A} (p : prog eff A) P :
  only silent p -> service_obeys (all_sent_satisfy P) (fun _ _ => True) [] p.
Proof.
  intros Hp. assert (eff_sends [] = []) as Hnil by done. revert Hnil.
  generalize (@nil (event eff)) as h. induction Hp as [a|X e k He _ IH]; intros h Hh.
  - by apply obeys_silent_ret.
  - split; [by apply nothing_sent|]. intros x _. apply IH. by rewrite eff_sends_snoc, He, Hh.
Qed.

Lemma protected_obeys sv path next rq ctx :
  protected_route sv path = Some next ->
  service_obeys (all_sent_satisfy (path_allows sv path rq ctx)) (fun _ _ => True) [] (next rq ctx).
Proof.
  unfold protected_route.
  destruct (String.eqb_spec path "/custody/unlock") as [->|_].
  { intros [= <-]. apply only_service_obeys, unlock_silent. }
  assert (forall {Req} (decode : string -> result Req) key exec good,
    (forall req, runs exec_op at_most_one (executed (sv_cfg sv) (good req)) [] (exec req)) ->
    (forall body req s, decode body = Ok req -> good req s -> asks_for (sv_cfg sv) path body s) ->
    service_obeys (all_sent_satisfy (path_allows sv path rq ctx)) (fun _ _ => True) []
      (signing_route (sv_cfg sv) (sv_guard sv) decode key exec rq ctx)) as Hroute.
  { intros Req decode key exec good Hexec Hgood.
    eapply obeys_weaken; [|by apply (route_obeys _ _ _ _ _ good)].
    intros h Hh. eapply Forall_impl; [exact Hh|]. intros s. apply route_allows_path.
    intros body req. apply Hgood. }
  destruct (String.eqb_spec path "/hd/transfer") as [->|_].
  { intros [= <-]. eapply Hroute; [apply transfer_runs|]. intros body req s Hreq Hs. left. eauto. }
  destruct (String.eqb_spec path "/settlements/execute") as [->|_].
  { intros [= <-]. eapply Hroute; [apply settlement_runs|].
    intros body req s Hreq (t & network & amount & Hs). right. right. split; [done|].
    by exists req, t, network, amount. }
  destruct (String.eqb_spec path "/hd/contract-call") as [->|_]; [|done].
  intros [= <-]. eapply Hroute; [apply contract_runs|]. intros body req s Hreq Hs.
  right. left. eauto.
Qed.

Lemma serve_silent_obeys P {A} (p : prog eff A) (f : A -> served) :
  only silent p ->
  serve_obeys (fun h => Forall (P h) (serve_sends h).*1) (fun _ _ => True) []
    (r ← translate (@OnService) p; Ret (f r)).
Proof.
  intros Hp. apply obeys_bind.
  assert (service_obeys (fun h => eff_sends h = []) (fun _ _ => True) [] p) as Hnil.
  { eapply obeys_weaken; [|apply (only_service_obeys p (fun _ _ => False)), Hp].
    intros h Hh. destruct (eff_sends h) as [|s l] eqn:Hs; [done|].
    unfold all_sent_satisfy in Hh. rewrite Hs in Hh. by inversion Hh. }
  apply (obeys_translate _ serve_possible (@OnService) _
    (fun h => Forall (P h) (serve_sends h).*1) _ []) in Hnil; [|done|].
  - eapply obeys_mono, Hnil. intros h a Hh _. by apply obeys_ret.
  - intros h Hh. cbn. by rewrite serve_sends_service, Hh.
Qed.

Lemma serve_authorised sv rq :
  opt_RequireHMAC (m_options (sv_middleware sv)) = true ->
  opt_RequireNonce (m_options (sv_middleware sv)) = true ->
  serve_obeys (fun h => Forall (authorised sv rq h) (serve_sends h).*1) (fun _ _ => True) []
    (serve sv rq).
Proof.
  intros Hh Hn. on_route; [intros; by apply obeys_ret|].
  destruct (String.eqb (rq_Path rq) "/healthz"); [apply serve_silent_obeys; constructor|].
  destruct (String.eqb (rq_Path rq) "/readyz"); [apply serve_silent_obeys, readyz_silent|].
  destruct (protected_route sv (rq_Path rq)) as [next|] eqn:Hroute; [|by apply obeys_ret].
  unfold behind. apply obeys_bind.
  pose proof (Handler_obeys (sv_middleware sv) rq) as Hm.
  apply (obeys_translate _ serve_possible (@OnSecurity) _
    (fun h => Forall (authorised sv rq h) (serve_sends h).*1) _ []) in Hm;
    [|done|intros h _; cbn; by rewrite serve_sends_security].
  eapply obeys_mono, Hm.
  intros h out _ (h1 & -> & _ & Hout). cbn [app] in *.
  assert (Forall (authorised sv rq (on_security <$> h1)) (serve_sends (on_security <$> h1)).*1)
    as Hnone by by rewrite serve_sends_security.
  destruct out as [status message|rq' ctx]; [by apply obeys_ret|].
  destruct Hout as [_ Hctx]. apply obeys_bind.
  pose proof (protected_obeys sv (rq_Path rq) next rq' ctx Hroute) as Hnext.
  apply (obeys_translate _ serve_possible (@OnService) _
    (fun h => Forall (authorised sv rq h) (serve_sends h).*1) _ (on_security <$> h1)) in Hnext;
    [|done|].
  - cbn in Hnext. rewrite (right_id_L [] (++)) in Hnext.
    eapply obeys_mono, Hnext. intros h' r Hall _. by apply obeys_ret.
  - intros h2 Hall. rewrite serve_sends_app, serve_sends_security, serve_sends_service.
    eapply Forall_impl; [exact Hall|].
    intros s (Hpost & c & body & key & -> & Hbody & Hseen & Hask).
    destruct (Hctx c eq_refl Hh Hn) as (read & Hread & -> & Hsigned).
    rewrite read_with_body in Hbody. apply (inj Ok) in Hbody. rewrite <- Hbody in Hask.
    split; [exact Hpost|]. by exists read, (Nonce c), key, h1, h2.
Qed.
End Authorised.

(** ** Goroutines of the service *)

(** The jobs behind the routes. *)
Definition route_job (path : string) : option (Request -> option RequestContext -> job) :=
  if String.eqb path "/custody/unlock" then Some UnlockRequest else
  if String.eqb path "/hd/transfer" then Some Transfer else
  if String.eqb path "/settlements/execute" then Some Settlement else
  if String.eqb path "/hd/contract-call" then Some ContractCall else None.

Inductive goroutine :=
| Incoming (rq : Request)
| Guarding (ticks : nat)
| Monitoring (ticks : nat).

Section Goroutines.
Context `{GoUnicode, Geth, GoText}.
Implicit Types sv : service.

Definition on_its_own sv (j : job) : prog serve_op served :=
  r ← translate (@OnService) (job_prog (sv_cfg sv) (sv_guard sv) j); Ret (Handled r).

Definition goroutine_prog sv (g : goroutine) : prog serve_op served :=
  match g with
  | Incoming rq => serve sv rq
  | Guarding ticks => on_its_own sv (GuardLoop ticks)
  | Monitoring ticks => on_its_own sv (MonitorLoop ticks)
  end.

Definition goroutine_authorised sv g h (s : SignedTransaction) : Prop :=
  exists rq, g = Incoming rq /\ authorised sv rq h s.

Lemma guard_silent sv n : only silent (job_prog (sv_cfg sv) (sv_guard sv) (GuardLoop n)).
Proof.
  apply only_bind; [|constructor]. destruct (sv_guard sv) as [g|]; [|constructor].
  by apply (only_Start _ g (inspecting_silent _)).
Qed.

Lemma monitor_silent sv n : only silent (job_prog (sv_cfg sv) (sv_guard sv) (MonitorLoop n)).
Proof.
  apply only_bind; [|constructor]. apply only_startTxLifecycleMonitor; [done|].
  intros X e He. by destruct e.
Qed.

Lemma goroutine_obeys sv g :
  opt_RequireHMAC (m_options (sv_middleware sv)) = true ->
  opt_RequireNonce (m_options (sv_middleware sv)) = true ->
  serve_obeys (fun h => Forall (goroutine_authorised sv g h) (serve_sends h).*1) (fun _ _ => True)
    [] (goroutine_prog sv g).
Proof.
  intros Hh Hn. destruct g as [rq|n|n].
  - eapply obeys_weaken; [|by apply serve_authorised]. intros h Hall.
    eapply Forall_impl; [exact Hall|]. intros s Hs. by exists rq.
  - apply serve_silent_obeys, guard_silent.
  - apply serve_silent_obeys, monitor_silent.
Qed.
End Goroutines.

Section Service.
Context `{GoUnicode, Geth, GoText} {SN S : Type} `{NonceStore SN, SignerStore S}.
Variable clock : nat -> Time.
Variable entropy : nat -> option (list Z).
Variable env : environment.

Abbreviation serve_step := (history_step (handle_serve clock entropy env)).
Abbreviation serve_state := (list (prog serve_op served * list (event serve_op)) *
                             (sec_world SN * world S))%type.

Definition start sv (gs : list goroutine) : list (prog serve_op served * list (event serve_op)) :=
  (fun g => (goroutine_prog sv g, [])) <$> gs.

Lemma start_empty {B} (f : list (event serve_op) -> list B) sv gs :
  f [] = [] -> concat ((fun t => f t.2) <$> start sv gs) = [].
Proof. intros Hf. unfold start. induction gs as [|g gs IH]; [done|]. cbn. by rewrite Hf. Qed.

Lemma handle_serve_possible X (e : serve_op X) (ww : sec_world SN * world S) :
  serve_possible X e (handle_serve clock entropy env X e ww).1.
Proof.
  destruct e as [X op|X e]; cbn; [done|]. pose proof (handle_possible env X e ww.2) as Hp.
  by destruct (handle env X e ww.2).
Qed.

Lemma handle_serve_sent X (e : serve_op X) (ww : sec_world SN * world S) :
  w_sent (handle_serve clock entropy env X e ww).2.2 =
    (w_sent ww.2 ++ serve_sent_by e (handle_serve clock entropy env X e ww).1)%list.
Proof.
  destruct e as [X op|X e]; cbn.
  - destruct (handle_sec clock entropy X op ww.1). cbn. by rewrite (right_id_L [] (++)).
  - pose proof (handle_sent env X e ww.2) as Hs. by destruct (handle env X e ww.2).
Qed.

(** The histories account for every broadcast. *)
Lemma serve_steps_sent (c c' : serve_state) l :
  rtc serve_step c c' -> w_sent c.2.2 ≡ₚ l ++ concat ((fun t => serve_sends t.2) <$> c.1) ->
  w_sent c'.2.2 ≡ₚ l ++ concat ((fun t => serve_sends t.2) <$> c'.1).
Proof. apply (steps_logged _ (fun ww => w_sent ww.2)). apply handle_serve_sent. Qed.

(** C1: no interleaving broadcasts anything that was not asked for. Whatever
    requests come in, with the guard and the monitor beside them, on any stores,
    with any clock, network and schedule: every transaction that was handed over
    is in the history of a goroutine that serves a request, and that request is a
    POST to a signing route whose body was read, signed under a configured secret
    and asks for this very transaction within its policy, after the goroutine has
    seen its nonce accepted twice, the lock open and its key granted. *)
Theorem every_broadcast_authorised sv gs (sw : sec_world SN) (w : world S) (c' : serve_state) :
  opt_RequireHMAC (m_options (sv_middleware sv)) = true ->
  opt_RequireNonce (m_options (sv_middleware sv)) = true ->
  rtc serve_step (start sv gs, (sw, w)) c' ->
  w_sent c'.2.2 ≡ₚ w_sent w ++ concat ((fun t => serve_sends t.2) <$> c'.1) /\
  Forall2 (fun g t => Forall (fun s => exists rq, g = Incoming rq /\ authorised sv rq t.2 s)
                        (serve_sends t.2).*1) gs c'.1.
Proof.
  intros Hh Hn Hsteps. split.
  - eapply serve_steps_sent; [exact Hsteps|]. cbn.
    by rewrite start_empty, (right_id_L [] (++)).
  - assert (Forall2 (fun g t => serve_obeys
        (fun h => Forall (goroutine_authorised sv g h) (serve_sends h).*1) (fun _ _ => True) t.2 t.1)
        gs (start sv gs)) as Hstart.
    { apply Forall2_fmap_r, Forall_Forall2_diag, Forall_forall. intros g _. cbn.
      by apply goroutine_obeys. }
    eapply (histories_obey _ _ _ (fun _ _ _ => True) gs _ c' handle_serve_possible Hsteps) in Hstart.
    eapply Forall2_impl; [exact Hstart|]. intros g t Ht. by apply obeys_now in Ht.
Qed.
End Service.

(** ** One payment per key, through the middleware *)

Section PaysOnce.
Context `{GoUnicode, Geth, GoText} {SN S : Type} `{NonceStore SN, KeySpec S}.
Variable clock : nat -> Time.
Variable entropy : nat -> option (list Z).
Variable env : environment.
Implicit Types sv : service.

(** The key of the request as its handler reads it. *)
Definition incoming_key sv (g : goroutine) : option string :=
  match g with
  | Incoming rq =>
      mk ← route_job (rq_Path rq); rq' ← handed (sv_middleware sv) rq; job_key (mk rq' None)
  | _ => None
  end.

(** The broadcasts taken over all the requests with the key [k]. *)
Definition paid_for sv (k : string) (gs : list goroutine)
    (ts : list (prog serve_op served * list (event serve_op))) : nat :=
  sum_list (zip_with (fun g t =>
    if bool_decide (incoming_key sv g = Some k) then successes (serve_sends t.2) else 0%nat) gs ts).

Lemma protected_route_job sv path :
  protected_route sv path =
    (fun mk rq ctx => job_prog (sv_cfg sv) (sv_guard sv) (mk rq ctx)) <$> route_job path.
Proof. unfold protected_route, route_job. by repeat case_match. Qed.

Lemma job_key_context path mk rq ctx :
  route_job path = Some mk -> job_key (mk rq ctx) = job_key (mk rq None).
Proof. unfold route_job. repeat case_match; by intros [= <-]. Qed.

Section Key.
Variables (k : string) (sv : service).
Hypothesis nonempty : k <> ""%string.

Definition role (g : goroutine) : phase :=
  if bool_decide (incoming_key sv g = Some k) then Waiting else Other.

(** [behind] once the middleware has answered. *)
Definition after (mk : Request -> option RequestContext -> job) (out : http_outcome) :
    prog serve_op served :=
  match out with
  | Respond status message => Ret (Refused status message)
  | Next rq' ctx => on_its_own sv (mk rq' ctx)
  end.

Definition hands rq (h : list (event sec_op)) (out : http_outcome) : Prop :=
  match out with
  | Next rq' _ => handed (sv_middleware sv) rq = Some rq'
  | Respond _ _ => True
  end.

(** Where a goroutine stands, and the goroutine of [AtMostOnce] that stands for
    it: idle until the middleware hands the request on, then the job of its
    route. *)
Definition linked (g : goroutine) (a : phase * thread)
    (t : prog serve_op served * list (event serve_op)) : Prop :=
  (a.1 = Other <-> role g = Other) /\ a.2.2 = serve_sends t.2 /\
  ((exists rq mk X (e : sec_op X) kk, g = Incoming rq /\ route_job (rq_Path rq) = Some mk /\
      a = (role g, (Ret None, [])) /\
      t.1 = Vis (OnSecurity e) (fun x => translate (@OnSecurity) (kk x) ≫= after mk) /\
      forall x, exists h, security_obeys (hands rq) h (kk x)) \/
   (exists q, a.2.1 = q /\ t.1 = (r ← translate (@OnService) q; Ret (Handled r))) \/
   (exists out, t.1 = Ret out)).

Lemma idle_in_phase g : in_phase k (role g, (Ret None, [])).
Proof. unfold role. by case_bool_decide. Qed.

Lemma role_weight g th : weight (role g, th) = 0%nat.
Proof. unfold role. by case_bool_decide. Qed.

(** The middleware has done another operation. *)
Lemma link_middleware rq mk q h h0 :
  route_job (rq_Path rq) = Some mk -> serve_sends h = [] -> security_obeys (hands rq) h0 q ->
  exists th, in_phase k (role (Incoming rq), th) /\
    linked (Incoming rq) (role (Incoming rq), th) (translate (@OnSecurity) q ≫= after mk, h).
Proof.
  intros Hmk Hh Hq. destruct q as [[status message|rq' ctx]|X e kk].
  - exists (Ret None, []). split; [apply idle_in_phase|]. split; [done|]. split; [done|].
    right. right. by eexists.
  - exists (job_prog (sv_cfg sv) (sv_guard sv) (mk rq' ctx), []). split.
    + destruct Hq as [_ Hq]. cbn in Hq. pose proof (job_phase k (sv_cfg sv) (sv_guard sv) (mk rq' ctx))
        as Hjob. rewrite (job_key_context _ _ _ _ Hmk) in Hjob.
      unfold role, incoming_key. rewrite Hmk. cbn [mbind option_bind]. rewrite Hq. cbn [mbind option_bind].
      by case_bool_decide.
    + split; [done|]. split; [done|]. right. left. by eexists.
  - exists (Ret None, []). split; [apply idle_in_phase|]. split; [done|]. split; [done|].
    left. exists rq, mk, X, e, kk. do 4 (split; [done|]).
    intros x. destruct Hq as [_ Hq]. eexists. by apply Hq.
Qed.

Abbreviation linked_pool := (list ((phase * thread) * (prog serve_op served * list (event serve_op)))).

(** One operation of a goroutine, as a step of its program. *)
Definition next_of {X} (ww : sec_world SN * world S) (h : list (event serve_op)) (e : serve_op X)
    (kk : X -> prog serve_op served) :=
  let r := handle_serve clock entropy env X e ww in ((kk r.1, (h ++ [Event e r.1])%list), r.2).

Definition advance (ww : sec_world SN * world S) (t : prog serve_op served * list (event serve_op)) :=
  match t.1 with Ret _ => None | Vis e kk => Some (next_of ww t.2 e kk) end.

Lemma advance_linked g a t ww t' ww' (cs : linked_pool) i :
  linked g a t -> advance ww t = Some (t', ww') ->
  cs.*1 !! i = Some a -> pool_inv k cs.*1 (w_store ww.2) ->
  exists a', linked g a' t' /\ pool_inv k (<[i := a']> cs.*1) (w_store ww'.2).
Proof.
  destruct a as [ph [q l]], t as [p h], ww as [sw w]. intros (Hrole & Hl & Hcase) Hadv Hi Hinv.
  unfold advance in Hadv. cbn [fst snd] in Hl, Hadv.
  destruct Hcase as [(rq & mk & X & e & kk & -> & Hmk & Ha & Hp & Hq)|[(q' & Hq & Hp)|[out Hp]]];
    cbn in Hp; subst p.
  - injection Ha as -> -> ->. unfold next_of in Hadv. cbn in Hadv.
    destruct (handle_sec clock entropy X e sw) as [x sw']. injection Hadv as <- <-.
    destruct (Hq x) as [h0 Hx].
    destruct (link_middleware rq mk (kk x) (h ++ [Event (OnSecurity e) x]) h0 Hmk)
      as (th & Hth & Hlink); [by rewrite serve_sends_app, <- Hl|done|].
    exists (role (Incoming rq), th). split; [done|].
    eapply pool_inv_update; [done|done|done|left; by rewrite !role_weight|..]; cbn.
    + intros Hf. split; [apply role_weight|by left].
    + unfold role. by case_bool_decide.
    + by left.
  - cbn in Hq. subst q'. destruct q as [r|X e kk]; [done|]. unfold next_of in Hadv. cbn in Hadv.
    destruct (thread_step_inv env k nonempty cs.*1 w i ph X e kk l Hinv Hi) as (ph' & Hph & Hinv').
    destruct (handle env X e w) as [x w'] eqn:Hhandle. injection Hadv as <- <-.
    cbn [fst snd] in *. eexists. split; [|exact Hinv']. split; [|split].
    + cbn. by rewrite <- Hph.
    + cbn [fst snd]. rewrite serve_sends_app, Hl, serve_sends_one. done.
    + right. left. by eexists.
  - done.
Qed.

Lemma step_linked gs (cs : linked_pool) ww c' :
  pool_inv k cs.*1 (w_store ww.2) -> Forall2 (fun g c => linked g c.1 c.2) gs cs ->
  history_step (handle_serve clock entropy env) (cs.*2, ww) c' ->
  exists cs', cs'.*2 = c'.1 /\ pool_inv k cs'.*1 (w_store c'.2.2) /\
    Forall2 (fun g c => linked g c.1 c.2) gs cs'.
Proof.
  intros Hinv Hlink Hstep. inversion Hstep as [ts ww1 i X e kk h Hi]; subst.
  rewrite list_lookup_fmap in Hi. destruct (cs !! i) as [[a t]|] eqn:Hc; [|done].
  injection Hi as ->. destruct (Forall2_lookup_r _ _ _ _ _ Hlink Hc) as (g & Hg & Hl).
  destruct (advance_linked g a (Vis e kk, h) ww _ _ cs i Hl eq_refl) as (a' & Hl' & Hinv');
    [by rewrite list_lookup_fmap, Hc|done|].
  exists (<[i := (a', (kk (handle_serve clock entropy env X e ww).1,
    h ++ [Event e (handle_serve clock entropy env X e ww).1]))]> cs)%list.
  rewrite !list_fmap_insert. split; [done|]. split; [done|].
  rewrite <- (list_insert_id gs i g Hg). by apply Forall2_insert.
Qed.

Lemma start_linked gs s : exists cs : linked_pool,
  cs.*2 = start sv gs /\ pool_inv k cs.*1 s /\ Forall2 (fun g c => linked g c.1 c.2) gs cs.
Proof.
  assert (forall g, exists th, in_phase k (role g, th) /\
            linked g (role g, th) (goroutine_prog sv g, [])) as Hone.
  { assert (forall g j, job_key j = None -> role g = Other ->
      in_phase k (role g, (job_prog (sv_cfg sv) (sv_guard sv) j, [])) /\
      linked g (role g, (job_prog (sv_cfg sv) (sv_guard sv) j, []))
        (on_its_own sv j, [])) as Hown.
    { intros g j Hj Hg. pose proof (job_phase k (sv_cfg sv) (sv_guard sv) j) as Hphase.
      rewrite bool_decide_false in Hphase by by rewrite Hj. rewrite Hg. split; [exact Hphase|].
      split; [by rewrite Hg|]. split; [done|]. right. left. by eexists. }
    intros [rq|n|n]; [|by eexists; apply (Hown _ (GuardLoop n))
                      |by eexists; apply (Hown _ (MonitorLoop n))].
    assert (forall r, exists th, in_phase k (role (Incoming rq), th) /\
      linked (Incoming rq) (role (Incoming rq), th) (Ret r, [])) as Hdone.
    { intros r. exists (Ret None, []). split; [apply idle_in_phase|]. split; [done|].
      split; [done|]. right. right. by eexists. }
    cbn [goroutine_prog]. on_route; [intros; apply Hdone|].
    destruct (String.eqb_spec (rq_Path rq) "/healthz") as [Hp|_].
    { exists (Ret None, []). split; [apply idle_in_phase|]. split; [done|]. split; [done|].
      right. right. by eexists. }
    destruct (String.eqb_spec (rq_Path rq) "/readyz") as [Hp|_].
    { eexists. apply (Hown _ ReadyRequest); [done|]. unfold role, incoming_key. by rewrite Hp. }
    rewrite protected_route_job. destruct (route_job (rq_Path rq)) as [mk|] eqn:Hmk.
    - cbn [fmap option_fmap option_map]. unfold behind.
      pose proof (Handler_obeys (sv_middleware sv) rq) as Hm.
      eapply (obeys_mono _ _ _ (hands rq)) in Hm; [|by intros h [|] _ H'; [|apply H']].
      destruct (link_middleware rq mk (Handler (sv_middleware sv) rq) [] _ Hmk eq_refl Hm)
        as (th & Hth & Hlink). by exists th.
    - apply Hdone. }
  assert (exists cs : linked_pool, cs.*2 = start sv gs /\ Forall (in_phase k) cs.*1 /\
    Forall2 (fun g c => linked g c.1 c.2) gs cs /\ sum_list (weight <$> cs.*1) = 0%nat /\
    Forall (fun a => a.1 <> Owning) cs.*1) as (cs & Hts & Hph & Hlink & Hw & Hno).
  { induction gs as [|g gs (cs & Hts & Hph & Hlink & Hw & Hno)]; [by exists []|].
    destruct (Hone g) as (th & Hth & Hl).
    exists (((role g, th), (goroutine_prog sv g, [])) :: cs). rewrite !fmap_cons.
    split; [by rewrite Hts|]. split; [by constructor|]. split; [by constructor|].
    split; [cbn [sum_list_with id fst]; by rewrite role_weight, Hw|].
    constructor; [|done]. cbn. unfold role. by case_bool_decide. }
  exists cs. split; [done|]. split; [|done]. constructor; [done|by rewrite Hw; lia|done|].
  intros i p l Hi. by apply (proj1 (Forall_lookup _ _) Hno) in Hi.
Qed.

Lemma paid_bound gs (cs : linked_pool) :
  Forall (in_phase k) cs.*1 -> Forall2 (fun g c => linked g c.1 c.2) gs cs ->
  (paid_for sv k gs cs.*2 <= sum_list (weight <$> cs.*1))%nat.
Proof.
  intros Hph Hlink. induction Hlink as [|g [a t] gs cs Hl _ IH]; [done|].
  apply Forall_cons in Hph as [Ha Hph]. specialize (IH Hph). unfold paid_for in *.
  rewrite !fmap_cons. cbn [zip_with sum_list_with id fst snd]. case_bool_decide as Hkey; [|lia].
  destruct Hl as (Hrole & Hsends & _). cbn in *. pose proof (phase_pays k a Ha) as Hpay.
  rewrite Hsends in Hpay. enough (a.1 <> Other) by (specialize (Hpay ltac:(done)); lia).
  rewrite Hrole. unfold role. by rewrite bool_decide_true.
Qed.
End Key.

(** C2: over a store whose [ClaimResult] is one atomic step, as the contract
    [KeySpec] says of the in-memory one, a non-empty idempotency key pays once,
    through the middleware and under any interleaving. Of all the requests of the service whose handler reads the key
    [k], beside any other requests, guards and monitors, at most one has a
    broadcast taken; and no broadcast escapes the histories. (Over PostgreSQL the
    claim is two statements, and this does not hold: see [PgRace].) *)
Theorem service_pays_once sv gs (k : string) (sw : sec_world SN) (w : world S) c' :
  k <> ""%string -> w_sent w = [] ->
  rtc (history_step (handle_serve clock entropy env)) (start sv gs, (sw, w)) c' ->
  (paid_for sv k gs c'.1 <= 1)%nat /\
  w_sent c'.2.2 ≡ₚ concat ((fun t => serve_sends t.2) <$> c'.1).
Proof.
  intros Hk Hsent Hsteps. split.
  - destruct (start_linked k sv gs (w_store w)) as (cs & Hts & Hinv & Hlink).
    rewrite <- Hts in Hsteps. remember (cs.*2, (sw, w)) as c eqn:Hc.
    assert (exists cs : list ((phase * thread) * (prog serve_op served * list (event serve_op))),
      cs.*2 = c'.1 /\ pool_inv k cs.*1 (w_store c'.2.2) /\
      Forall2 (fun g c => linked k sv g c.1 c.2) gs cs) as (cs' & <- & Hinv' & Hlink').
    { assert (cs.*2 = c.1 /\ pool_inv k cs.*1 (w_store c.2.2)) as [Hcs Hinvc] by by rewrite Hc.
      clear Hc Hts Hinv Hsent. revert cs Hlink Hcs Hinvc.
      induction Hsteps as [c|[ts ww] c1 c' Hstep _ IH]; intros cs Hlink Hcs Hinvc; [by exists cs|].
      cbn in Hcs. subst ts. destruct (step_linked k sv Hk gs cs ww c1 Hinvc Hlink Hstep)
        as (cs1 & Hcs1 & Hinv1 & Hlink1). by apply (IH cs1). }
    etrans; [apply paid_bound; [by apply inv_phases in Hinv'|exact Hlink']|].
    by apply inv_weight in Hinv'.
  - pose proof (serve_steps_sent clock entropy env _ _ [] Hsteps) as Hsum. cbn in Hsum. apply Hsum.
    by rewrite Hsent, start_empty.
Qed.
End PaysOnce.

(** ** Closed run: two requests with one key, the guard and the monitor *)

#[local] Existing Instance ascii_unicode.
#[local] Existing Instance ref_geth.
#[local] Existing Instance example_text.
#[local] Existing Instance mem_store.
#[local] Existing Instance list_map_order.

Definition signed_post (nonce body : string) : Request := {|
  rq_Method := "POST"; rq_EscapedPath := "/hd/transfer"; rq_RemoteAddr := "10.0.0.1:5000";
  rq_Header := {["X-Request-Timestamp" := "1700000000"; "X-Request-Nonce" := nonce;
                 "X-Request-Signature" := GenerateHMAC example_secret "1700000000" nonce body]}%string;
  rq_ContentLength := len body; rq_Body := body; rq_BodyErr := None |}.

Definition example_service : service := run_service (started true).

Definition example_goroutines : list goroutine :=
  [Incoming (signed_post "n-1" "10"); Incoming (signed_post "n-2" "20"); Guarding 1; Monitoring 1].

Definition interleaved : list (prog serve_op served * list (event serve_op)) *
    (sec_world InMemoryNonceStore * world memorySignerStore) :=
  run_history (handle_serve second_clock example_entropy good_environment)
    (concat (replicate 40 [0; 1; 2; 3]%nat)) (start example_service example_goroutines,
                                              (example_world, first_world)).

Lemma every_broadcast_authorised_witness :
  w_sent interleaved.2.2 ≡ₚ w_sent first_world ++ concat ((fun t => serve_sends t.2) <$> interleaved.1) /\
  Forall2 (fun g t => Forall (fun s => exists rq, g = Incoming rq /\
                                authorised example_service rq t.2 s)
                        (serve_sends t.2).*1) example_goroutines interleaved.1.
Proof.
  refine (every_broadcast_authorised second_clock example_entropy good_environment example_service
            example_goroutines example_world first_world interleaved _ _ _);
    [vm_compute; reflexivity|vm_compute; reflexivity|]. apply run_history_steps.
Defined.

Lemma service_pays_once_witness :
  (paid_for example_service "buy-1" example_goroutines interleaved.1 <= 1)%nat /\
  w_sent interleaved.2.2 ≡ₚ concat ((fun t => serve_sends t.2) <$> interleaved.1).
Proof.
  refine (service_pays_once second_clock example_entropy good_environment example_service
            example_goroutines "buy-1" example_world first_world interleaved _ _ _);
    [discriminate|reflexivity|]. apply run_history_steps.
Defined.

(** Both requests are signed; one is paid, the other is told to wait. *)
Example interleaved_outcome :
  paid_for example_service "buy-1" example_goroutines interleaved.1 = 1%nat /\
  (fun t => match t.1 with Ret (Handled (Some r)) => Some (res_status r) | _ => None end)
    <$> interleaved.1 = [Some 200; Some 409; None; None].
Proof. split; vm_compute; reflexivity. Qed.
