(* ===== verification/Restart.v ===== *)
(** * A restart during an incident.

    [main] starts the guard with [go custodyGuard.Start(..)] and goes on to serve.
    Once that goroutine has read an open incident and set the flag the signer is
    locked until a request unlocks it, whatever runs beside it; what is served
    before is served unlocked. *)
From S2P Require Export Concurrent.

(** ** The flag under interleaving *)

Section Flag.
Context `{GoUnicode, Geth, GoText} {SN S : Type} `{NonceStore SN, SignerStore S}.
Variable clock : nat -> Time.
Variable entropy : nat -> option (list Z).
Variable env : environment.

(** Whether an operation raises the flag, or lowers it. *)
Definition flag_set (ev : event serve_op) : option bool :=
  match ev_op ev with OnService (ESetLocked b) => Some b | _ => None end.
Definition sets (b : bool) (h : list (event serve_op)) : Prop :=
  Exists (fun ev => flag_set ev = Some b) h.

#[export] Instance sets_dec b h : Decision (sets b h).
Proof. unfold sets. apply _. Defined.

Abbreviation pool := (list (prog serve_op served * list (event serve_op)) * (sec_world SN * world S))%type.

(** Raised and never lowered. *)
Definition flag_ok (c : pool) : Prop :=
  Exists (fun t => sets true t.2) c.1 -> Forall (fun t => ~ sets false t.2) c.1 ->
  w_locked c.2.2 = true.

Lemma handle_serve_locked X (e : serve_op X) (ww : sec_world SN * world S) :
  w_locked (handle_serve clock entropy env X e ww).2.2 =
    default (w_locked ww.2) (flag_set (Event e (handle_serve clock entropy env X e ww).1)).
Proof.
  destruct e as [X op|X e]; cbn.
  - by destruct (handle_sec clock entropy X op ww.1).
  - pose proof (handle_locked env X e ww.2) as Hl. destruct (handle env X e ww.2) as [x w'].
    cbn in *. unfold flag_set. cbn. by rewrite Hl; destruct e.
Qed.

Lemma sets_snoc b h ev : sets b (h ++ [ev]) <-> sets b h \/ flag_set ev = Some b.
Proof. unfold sets. rewrite Exists_app, Exists_cons, Exists_nil. tauto. Qed.

Lemma flag_steps c c' :
  rtc (history_step (handle_serve clock entropy env)) c c' -> flag_ok c -> flag_ok c'.
Proof.
  induction 1 as [c|c c1 c' Hstep _ IH]; intros Hc; [done|]. apply IH.
  destruct Hstep as [ts ww i X e k h Hi]. unfold flag_ok in *. cbn [fst snd] in *.
  rewrite handle_serve_locked. set (ev := Event e _). intros Hset Hnone.
  assert (flag_set ev <> Some false) as Hev.
  { intros Hev. rewrite Forall_forall in Hnone.
    refine (Hnone _ (list_elem_of_lookup_2 _ i _ (list_lookup_insert_eq _ _ _ _)) _);
      [by eapply lookup_lt_Some|]. apply sets_snoc. by right. }
  destruct (flag_set ev) as [[]|] eqn:Hflag; [done|done|]. cbn. apply Hc.
  - apply Exists_exists in Hset as (t & Ht & Hset). apply list_elem_of_lookup in Ht as [j Hj].
    apply list_lookup_insert_Some in Hj as [(-> & <- & _)|[_ Hj]].
    + apply Exists_exists. exists (Vis e k, h). split; [by eapply list_elem_of_lookup_2|].
      cbn in Hset. apply sets_snoc in Hset as [|Hset]; [done|]. by rewrite Hflag in Hset.
    + apply Exists_exists. exists t. split; [by eapply list_elem_of_lookup_2|done].
  - apply Forall_lookup. intros j t Hj. rewrite Forall_lookup in Hnone.
    destruct (decide (j = i)) as [->|Hne].
    + rewrite Hi in Hj. injection Hj as <-. cbn. intros Hs. eapply (Hnone i).
      * apply list_lookup_insert_eq. by eapply lookup_lt_Some.
      * cbn. apply sets_snoc. by left.
    + apply (Hnone j). by rewrite list_lookup_insert_ne.
Qed.

(** An open incident was read. *)
Definition store_read {X} (e : store_eff X) : X -> bool :=
  match e in store_eff X return X -> bool with
  | SActiveCustodyIncident => fun r => match r with Ok (Some _) => true | _ => false end
  | _ => fun _ => false
  end.
Definition eff_read {X} (e : eff X) : X -> bool :=
  match e in eff X return X -> bool with EStore e => store_read e | _ => fun _ => false end.
Definition incident_read (ev : event serve_op) : bool :=
  match ev with @Event _ _ (OnService e) x => eff_read e x | _ => false end.

(** The guard looks for an incident first, and raises the flag next. *)
Definition restores (h : list (event serve_op)) : Prop :=
  match h with [] => True | ev :: rest => incident_read ev = true -> rest <> [] -> sets true rest end.

Lemma guard_restores sv g n :
  sv_guard sv = Some g -> CustodyGuardEnabled (g_cfg g) = true ->
  serve_obeys restores (fun _ _ => True) [] (goroutine_prog sv (Guarding n)).
Proof.
  intros Hg Hen. cbn [goroutine_prog]. unfold on_its_own, background.
  cbn [job_prog]. unfold background. rewrite Hg. cbn [Start]. rewrite Hen. cbn [negb]. cbn.
  split; [done|]. intros [[incident|]|e] _.
  - split; [by intros _ ?|]. intros u _.
    apply obeys_extensions. intros l _ _. apply Exists_app. left. by repeat constructor.
  - by apply obeys_extensions.
  - by apply obeys_extensions.
Qed.

(** C29: a restart keeps a lockdown, from the moment the guard has seen it. In any
    interleaving of an enabled guard's goroutine with requests, other guards and
    monitors: when the guard's first operation, its look at the store, was answered
    with an open incident, and it has taken one more step, the signer is locked for
    as long as no request has lowered the flag. (Before that step requests are
    served unlocked, and if the store answers the guard with an error they go on to
    be: [restart_pays_before_lock].) *)
Theorem restart_keeps_lockdown sv gs g n (sw : sec_world SN) (w : world S) c' i p incident rest :
  sv_guard sv = Some g -> CustodyGuardEnabled (g_cfg g) = true -> gs !! i = Some (Guarding n) ->
  rtc (history_step (handle_serve clock entropy env)) (start sv gs, (sw, w)) c' ->
  c'.1 !! i = Some (p, Event (OnService (EStore SActiveCustodyIncident)) (Ok (Some incident)) :: rest) ->
  rest <> [] -> Forall (fun t => ~ sets false t.2) c'.1 ->
  w_locked c'.2.2 = true.
Proof.
  intros Hg Hen Hi Hsteps Ht Hrest Hnone.
  assert ((start sv gs, (sw, w)).1 !! i = Some (goroutine_prog sv (Guarding n), [])) as Hstart
    by (cbn; unfold start; by rewrite list_lookup_fmap, Hi).
  destruct (history_obeys _ _ _ _ _ _ _ (handle_serve_possible clock entropy env) Hsteps _ _ Hstart
              (guard_restores sv g n Hg Hen)) as (p' & h' & Ht' & Hobeys%obeys_now).
  rewrite Ht in Ht'. injection Ht' as <- <-.
  apply (flag_steps _ _ Hsteps); [|apply Exists_exists|done].
  - intros Hset _. exfalso. apply Exists_exists in Hset as (t & Htin & Hset). cbn in Htin.
    unfold start in Htin. apply list_elem_of_fmap in Htin as (g0 & -> & _). by apply Exists_nil in Hset.
  - eexists. split; [by eapply list_elem_of_lookup_2|]. cbn. apply Exists_cons. right.
    by apply Hobeys.
Qed.
End Flag.

#[local] Existing Instance ascii_unicode.
#[local] Existing Instance ref_geth.
#[local] Existing Instance example_text.
#[local] Existing Instance example_server.

(** The database of a service that was locked down, at the start of the next process. *)
Definition incident_open : pg_tables :=
  (OpenCustodyIncident at_boot "bad delegation" "live" empty_tables).2.

Definition restarted : world pg_tables := {|
  w_tick := 0; w_store := incident_open; w_fleet := w_fleet pg_world; w_locked := false;
  w_reason := ""; w_trusted := run_trusted (started true); w_sent := [] |}.

Definition restart_goroutines : list goroutine := [Guarding 1; Incoming (transfer_post true "10")].

(** The pool after some steps, given which goroutine takes each. *)
Definition restart_run (schedule : list nat) : list (prog serve_op served * list (event serve_op)) *
    (sec_world InMemoryNonceStore * world pg_tables) :=
  run_history (handle_serve second_clock example_entropy good_environment) schedule
    (start example_service restart_goroutines, (example_world, restarted)).

Definition sent_and_locked (schedule : list nat) : list (Address * bool) * bool :=
  let w := (restart_run schedule).2.2 in ((fun s => (tx_to (st_tx s.1), s.2)) <$> w_sent w, w_locked w).

(** An open incident in the database does not stop the first requests of a new
    process: one that overtakes the guard's goroutine is paid, and the signer locks
    afterwards. When the guard goes first, the same request is refused. *)
Theorem restart_pays_before_lock :
  (exists incident, (ActiveCustodyIncident at_boot incident_open).1 = Ok (Some incident)) /\
  rtc (history_step (handle_serve second_clock example_entropy good_environment))
    (start example_service restart_goroutines, (example_world, restarted))
    (restart_run (replicate 60 1 ++ replicate 10 0)%nat) /\
  sent_and_locked (replicate 60 1 ++ replicate 10 0)%nat = ([(usdt, true)], true) /\
  sent_and_locked (replicate 10 0 ++ replicate 60 1)%nat = ([], true).
Proof.
  split; [eexists; vm_compute; reflexivity|]. split; [apply run_history_steps|].
  split; vm_compute; reflexivity.
Qed.

(** When the guard goes first it stays locked. *)
Lemma restart_keeps_lockdown_witness : w_locked (restart_run (replicate 10 0 ++ replicate 60 1)%nat).2.2 = true.
Proof.
  set (c := restart_run _).
  assert (exists rest, rest <> [] /\ snd <$> c.1 !! 0%nat =
    Some (Event (OnService (EStore SActiveCustodyIncident))
      (Ok (Some {| inc_ID := 1; inc_Reason := "bad delegation"; inc_Mode := "live"; inc_CreatedAt := 0 |}))
      :: rest)%string) as (rest & Hrest & Hh).
  { eexists. split; [|vm_compute; reflexivity]. discriminate. }
  destruct (c.1 !! 0%nat) as [[p h]|] eqn:Hc; [|discriminate Hh]. injection Hh as Hh. rewrite Hh in Hc.
  refine (restart_keeps_lockdown second_clock example_entropy good_environment example_service
            restart_goroutines _ 1 example_world restarted c 0 p _ rest _ _ _ _ Hc Hrest _).
  - vm_compute. reflexivity.
  - vm_compute. reflexivity.
  - reflexivity.
  - apply run_history_steps.
  - apply (bool_decide_unpack _). vm_compute. exact I.
Defined.
