(* ===== verification/Termination.v ===== *)
(** * How much work a request can take.

    [within cost n p]: on every branch, whatever admissible answers it gets, [p]
    spends at most [n]. The bounds hold of a goroutine under any interleaving. *)
From S2P Require Export Concurrent.

Section Within.
Context {E : Type -> Type}.
Variable admissible : forall X, E X -> X -> Prop.
Variable cost : forall X, E X -> nat.

Fixpoint within {A} (n : nat) (p : prog E A) : Prop :=
  match p with
  | Ret _ => True
  | Vis e k => (cost _ e <= n)%nat /\ forall x, admissible _ e x -> within (n - cost _ e) (k x)
  end.

Lemma within_mono {A} n m (p : prog E A) : (n <= m)%nat -> within n p -> within m p.
Proof.
  revert n m. induction p as [a|X e k IH]; intros n m Hle; cbn; [done|].
  intros [He Hk]. split; [lia|]. intros x Hx. eapply IH; [|by apply Hk]. lia.
Qed.

Lemma within_bind {A B} n m (p : prog E A) (f : A -> prog E B) :
  within n p -> (forall a, within m (f a)) -> within (n + m) (p ≫= f).
Proof.
  intros Hp Hf. revert n Hp. induction p as [a|X e k IH]; intros n; cbn.
  - intros _. eapply within_mono, Hf. lia.
  - intros [He Hk]. split; [lia|]. intros x Hx.
    replace (n + m - cost X e)%nat with (n - cost X e + m)%nat by lia. by apply IH, Hk.
Qed.

Lemma within_op {X A} n (e : E X) (k : X -> prog E A) :
  (cost _ e <= n)%nat -> (forall x, admissible _ e x -> within (n - cost _ e) (k x)) ->
  within n (perform e ≫= k).
Proof. by split. Qed.

Lemma within_perform {X} n (e : E X) : (cost _ e <= n)%nat -> within n (perform e).
Proof. by split. Qed.

(** What a history has cost. *)
Definition spent (h : list (event E)) : nat := sum_list ((fun ev => cost _ (ev_op ev)) <$> h).

Lemma spent_snoc h {X} (e : E X) x : spent (h ++ [Event e x]) = (spent h + cost _ e)%nat.
Proof.
  unfold spent. rewrite fmap_app. induction h as [|ev h IH]; cbn in *; [by rewrite Nat.add_0_r|].
  rewrite IH. apply Nat.add_assoc.
Qed.

Lemma within_obeys {A} total n h (p : prog E A) :
  within n p -> (spent h + n <= total)%nat ->
  obeys admissible (fun h' => (spent h' <= total)%nat) (fun _ _ => True) h p.
Proof.
  revert n h. induction p as [a|X e k IH]; intros n h; cbn.
  - intros _ Hle. split; [lia|done].
  - intros [He Hk] Hle. split; [lia|]. intros x Hx. eapply IH; [by apply Hk|].
    rewrite spent_snoc. lia.
Qed.
End Within.

Lemma within_translate {E F : Type -> Type} admE admF costE costF (f : forall X, E X -> F X) {A} n
    (p : prog E A) :
  (forall X e x, admF X (f X e) x -> admE X e x) -> (forall X e, costF X (f X e) = costE X e) ->
  within admE costE n p -> within admF costF n (translate f p).
Proof.
  intros Hadm Hcost. revert n. induction p as [a|X e k IH]; intros n; cbn; [done|].
  rewrite Hcost. intros [He Hk]. split; [done|]. intros x Hx. by apply IH, Hk, Hadm.
Qed.

(** ** The cost of a request

    A remote call costs [a], any other operation [b]. *)
Section Costs.
Context `{GoUnicode, Geth, GoText}.
Variables a b : nat.
Implicit Types cfg : SignerConfig.

Definition eff_cost (X : Type) (e : eff X) : nat := match e with ENet _ => a | _ => b end.
Abbreviation spends := (within (@possible) eff_cost).

Ltac spend := apply within_op; [cbn; lia|]; cbn [eff_cost possible].
(** Step over every operation and branch of straight-line code. *)
Ltac spend_all :=
  repeat first
    [ exact I
    | apply within_op; [cbn; lia|cbn [eff_cost possible]; intros ? _]
    | match goal with |- within _ _ _ (match ?x with _ => _ end) => destruct x end ].

Lemma spends_event {A} cfg n kind reason txHash wallet data (k : unit -> prog eff A) :
  (b <= n)%nat -> spends (n - b) (k tt) ->
  spends n (custody_event cfg kind reason txHash wallet data ≫= k).
Proof. by split. Qed.

Lemma spends_ignore {X A} n (e : store_eff X) (k : unit -> prog eff A) :
  (b <= n)%nat -> spends (n - b) (k tt) -> spends n (ignore (store_call e) ≫= k).
Proof. by split. Qed.

Lemma sign_and_send_spends cfg url key from network chainID r data tx :
  spends (a + 3 * b) (sign_and_send cfg url key from network chainID r data tx).
Proof.
  unfold sign_and_send. destruct (SignTx tx chainID key) as [signed|e].
  - spend; intros [u|e] _.
    + do 2 (apply spends_ignore; [lia|]). apply spends_event; [lia|]. exact I.
    + do 2 (apply spends_ignore; [lia|]). exact I.
  - apply spends_ignore; [lia|]. exact I.
Qed.

Lemma reserve_nonce_spends cfg url from network data n k :
  (forall nonce gasPrice, spends n (k nonce gasPrice)) ->
  spends (2 * a + 2 * b + n) (reserve_nonce cfg url from network data k).
Proof.
  intros Hk. unfold reserve_nonce. spend; intros [pending|e] _; [|exact I]. cbn [or_fail].
  spend; intros [nonce|e] _; [|exact I]. cbn [or_fail]. apply spends_event; [lia|].
  spend; intros [price|e] _; [|exact I]. cbn [or_fail]. eapply within_mono, Hk. lia.
Qed.

Lemma check_chain_spends url what ok n k :
  (forall c, spends n (k c)) -> spends (a + n) (check_chain url what ok k).
Proof.
  intros Hk. unfold check_chain. spend; intros [c|e] _; [|exact I]. cbn [or_fail].
  destruct (ok c); [|exact I]. eapply within_mono, Hk. lia.
Qed.

Lemma estimate_spends {A} url from to value data n (k : result Z -> prog eff A) :
  (forall g, spends n (k g)) ->
  spends (a + n) (g ← net_call (NEstimateGas url from to value data); k g).
Proof. intros Hk. spend; intros g _. eapply within_mono, Hk. lia. Qed.

(** One endpoint: five calls after the connection. *)
Definition attempt_bound : nat := 5 * a + 5 * b.

Ltac attempt :=
  eapply within_mono; [|apply check_chain_spends; intros; apply reserve_nonce_spends; intros];
  [unfold attempt_bound; instantiate (1 := (2 * a + 3 * b)%nat); lia|].

Lemma transfer_spends cfg req network key from url :
  spends attempt_bound (executeEVMTransferWithClient cfg req network key from url).
Proof.
  attempt. cbv zeta. destruct (negb _ && negb _).
  - destruct (parseUnits _ _) as [amount|e]; [|exact I]. cbn [or_fail].
    destruct (erc20TransferData _ _) as [data|]; [|exact I].
    eapply within_mono; [|apply estimate_spends; intros; apply sign_and_send_spends]. lia.
  - destruct (parseUnits _ _) as [amount|e]; [|exact I]. cbn [or_fail].
    eapply within_mono; [|apply estimate_spends; intros; apply sign_and_send_spends]. lia.
Qed.

Lemma contract_spends cfg req network key from url :
  spends attempt_bound (executeEVMContractCallWithClient cfg req network key from url).
Proof.
  attempt. destruct (decodeHexData _) as [data|e]; [|exact I]. cbn [or_fail].
  eapply within_mono; [|apply estimate_spends; intros; apply sign_and_send_spends]. lia.
Qed.

Lemma settlement_spends cfg req network amount key from url :
  spends attempt_bound (executeEVMSettlementWithClient cfg req network amount key from url).
Proof.
  attempt. destruct (vaultPayoutData _ _ _ _) as [data|e]; [|exact I]. cbn [or_fail].
  eapply within_mono; [|apply estimate_spends; intros; apply sign_and_send_spends]. lia.
Qed.

Lemma try_handles_spends cfg withClient hs : forall lastErr,
  (forall url, spends attempt_bound (withClient url)) ->
  spends (length hs * (a + 3 * b + attempt_bound)) (try_handles cfg withClient lastErr hs).
Proof.
  induction hs as [|h hs IH]; intros lastErr Hclient; cbn [try_handles length]; [exact I|].
  assert (forall n id e (k : prog eff (outcome TransferResponse)), spends n k -> spends (b + n) (record_fleet_failure cfg id e ≫= fun _ => k))
    as Hfail.
  { intros n id e k Hk. unfold record_fleet_failure. destruct (RPCFleet cfg).
    - spend; intros _ _. eapply within_mono, Hk. lia.
    - eapply within_mono, Hk. lia. }
  set (rest := (length hs * (a + 3 * b + attempt_bound))%nat) in *.
  spend; intros start _. spend; intros [u|e] _.
  - eapply within_mono;
      [|apply (within_bind _ _ attempt_bound (2 * b + rest)); [by apply Hclient|]]; [lia|].
    intros [resp|e|]; [| |exact I].
    + spend; intros t _. unfold record_fleet_success. destruct (RPCFleet cfg); [|exact I].
      spend; intros _ _. exact I.
    + eapply within_mono; [|by apply Hfail, IH]. lia.
  - eapply within_mono; [|by apply Hfail, IH]. lia.
Qed.

(** At most two endpoints. *)
Definition fleet_bound : nat := 12 * a + 18 * b.

Lemma over_fleet_spends cfg simulated network withClient :
  (forall key from url, spends attempt_bound (withClient key from url)) ->
  spends fleet_bound (over_fleet cfg simulated network withClient).
Proof.
  intros Hclient. unfold over_fleet. destruct (HexToECDSA _) as [key|e]; [|exact I]. cbn [or_fail].
  destruct (AllowSimulation cfg); [exact I|].
  assert (forall n hs, (length (default [] hs) <= 2)%nat -> (12 * a + 16 * b <= n)%nat ->
    spends n match hs with
             | Some hs => try_handles cfg (withClient key (PubkeyToAddress key)) None hs
             | None => Ret Panic
             end) as Hhs.
  { intros n [hs|] Hlen Hn; [|exact I]. cbn in Hlen.
    eapply within_mono; [|by apply try_handles_spends]. unfold attempt_bound. nia. }
  unfold fleet_candidates, fleet_bound. destruct (RPCFleet cfg).
  - spend; intros hs Hlen. apply Hhs; [|lia]. destruct hs; cbn in *; lia.
  - spend; intros t _. spend; intros t' _. apply Hhs; [|lia].
    destruct (sendCandidates t' _ _) as [[hs f]|] eqn:Hs; cbn; [|lia].
    by eapply sendCandidates_length.
Qed.

Lemma on_evm_spends n network k : spends n k -> spends n (on_evm network k).
Proof. unfold on_evm. by destruct (evm_network network). Qed.

Lemma treasury_limits_spends cfg next data : spends b (treasury_limits cfg next data).
Proof.
  unfold treasury_limits. repeat case_match; try (apply spends_event; [lia|]); exact I.
Qed.

Definition execution_bound : nat := fleet_bound + 2 * b.

Lemma executeTransfer_spends cfg req : spends execution_bound (executeTransfer cfg req).
Proof.
  unfold executeTransfer, execution_bound. destruct (validateTransferPolicy _ _ _); [|exact I].
  cbn [or_fail]. rewrite Nat.add_comm. apply within_bind.
  - unfold validateTreasuryPolicy. destruct (parseFloatAmount _); [|exact I].
    spend; intros [o|e] _; [|exact I]. eapply within_mono, treasury_limits_spends. lia.
  - intros [u|e]; [|exact I]. cbn [or_fail]. destruct (bool_decide _); [exact I|].
    apply on_evm_spends, over_fleet_spends. intros. apply transfer_spends.
Qed.

Lemma executeContractCall_spends cfg req : spends execution_bound (executeContractCall cfg req).
Proof.
  unfold executeContractCall, execution_bound. destruct (validateContractCallPolicy _ _ _); [|exact I].
  cbn [or_fail]. rewrite Nat.add_comm. apply within_bind.
  - unfold validateContractCallTreasuryPolicy. destruct (String.eqb _ ""); [exact I|].
    destruct (parseFloatAmount _); [|exact I].
    spend; intros [o|e] _; [|exact I]. eapply within_mono, treasury_limits_spends. lia.
  - intros [u|e]; [|exact I]. cbn [or_fail]. destruct (bool_decide _); [exact I|].
    apply on_evm_spends, over_fleet_spends. intros. apply contract_spends.
Qed.

Lemma executeSettlement_spends cfg req : spends execution_bound (executeSettlement cfg req).
Proof.
  unfold executeSettlement, execution_bound. spend; intros t _.
  destruct (validateSettlementExecuteRequest _ _ _) as [[network amount]|e]; [|exact I].
  cbn [or_fail]. eapply within_mono; [|apply on_evm_spends, over_fleet_spends; intros;
    apply settlement_spends]. lia.
Qed.

(** *** Routes *)

Definition route_bound : nat := execution_bound + 5 * b.

Lemma claim_spends n key exec : spends n exec -> spends (2 * b + n) (claim_and_execute key exec).
Proof.
  intros Hexec. unfold claim_and_execute. spend; intros [[[previous done] claimed]|e] _; [|exact I].
  destruct done; [exact I|]. destruct claimed; [|exact I]. cbn [negb].
  eapply within_mono; [|apply (within_bind _ _ n b); [exact Hexec|]]; [lia|]. intros [resp|e|].
  - spend; intros [u|e] _; exact I.
  - by apply spends_ignore.
  - exact I.
Qed.

Lemma Locked_spends {A} g n (k : bool * string -> prog eff A) :
  (forall l, spends n (k l)) -> spends (2 * b + n) (Locked g ≫= k).
Proof.
  intros Hk. destruct g as [g|].
  - spend; intros reason _. spend; intros locked _. eapply within_mono, Hk. lia.
  - eapply within_mono, Hk. lia.
Qed.

Lemma fresh_body_spends cfg rq ctx n k :
  (forall c body, spends n (k c body)) -> spends (b + n) (with_fresh_body cfg rq ctx k).
Proof.
  intros Hk. destruct ctx as [c|]; [|exact I]. cbn [with_fresh_body].
  destruct (read_limited _ rq) as [body|e]; [|exact I].
  spend; intros [[]|e] _; [|exact I..]. eapply within_mono, Hk. lia.
Qed.

Lemma route_spends {Req} cfg g (decode : string -> result Req) key exec rq ctx :
  (forall req, spends execution_bound (exec req)) ->
  spends route_bound (signing_route cfg g decode key exec rq ctx).
Proof.
  intros Hexec. unfold signing_route, route_bound. destruct (negb _); [exact I|].
  eapply within_mono; [|apply Locked_spends; intros [[] reason]]; [|exact I|].
  2: { apply fresh_body_spends. intros c body. destruct (decode body) as [req|e]; [|exact I].
       by apply claim_spends. }
  lia.
Qed.

Lemma protected_spends sv path next rq ctx :
  protected_route sv path = Some next -> spends route_bound (next rq ctx).
Proof.
  unfold protected_route. repeat case_match; intros [= <-].
  - unfold custody_unlock. destruct (negb _); [exact I|].
    eapply within_mono; [|apply (fresh_body_spends _ _ _ (6 * b))];
      [unfold route_bound, execution_bound, fleet_bound; lia|]. intros c body.
    destruct (sv_guard sv) as [g|]; [|exact I].
    apply (within_mono _ _ (6 * b + 0)); [lia|]. apply within_bind; [|by intros []].
    assert (forall n, (3 * b <= n)%nat -> spends n (lift_lock g (json_note body))) as Hlift.
    { intros n Hn. unfold lift_lock, recordEvent. spend; intros _ _. spend; intros _ _.
      apply spends_ignore; [lia|exact I]. }
    cbn [Unlock]. unfold try at 1. spend; intros [[i|]|e] _; [|apply Hlift; lia|exact I].
    assert (forall n, (4 * b <= n)%nat -> spends n
      (try (store_call (SResolveCustodyIncident (json_note body))) (fun _ => lift_lock g (json_note body))))
      as Hres by (intros n Hn; unfold try; spend; intros [u|e] _; [apply Hlift; lia|exact I]).
    destruct (0 <? _); [|apply Hres; lia]. spend; intros t _.
    destruct (_ <? _); [exact I|apply Hres; lia].
  - apply route_spends. intros. apply executeTransfer_spends.
  - apply route_spends. intros. apply executeSettlement_spends.
  - apply route_spends. intros. apply executeContractCall_spends.
Qed.

(** *** The middleware *)

Definition sec_cost (X : Type) (e : sec_op X) : nat := b.
Abbreviation security_spends := (within any_answer sec_cost).

Lemma ValidateRequest_spends rv rq : security_spends (9 * b) (ValidateRequest rv rq).
Proof.
  unfold ValidateRequest. replace (9 * b)%nat with (4 * b + 5 * b)%nat by lia. apply within_bind.
  - unfold generateRequestID, draw_nonce.
    apply within_op; [unfold sec_cost; lia|]. intros [l|] _;
      repeat (split; [unfold sec_cost; lia|]; intros ? _); exact I.
  - intros id. apply within_op; [unfold sec_cost; lia|]. intros start _. unfold sec_cost.
    destruct (_ && _); [exact I|]. destruct (read_limited _ rq) as [body|e]; [|exact I].
    destruct (credentials rq) as [[[ts nonce] hdr] legacy].
    apply (within_mono _ _ (b + (2 * b + b))); [lia|]. apply within_bind.
    { unfold check_signature. destruct (String.eqb hdr ""); [exact I|].
      apply within_op; [done|]. intros t _. by destruct (if legacy then _ else _). }
    intros [signed|e]; [|exact I]. apply within_bind.
    { unfold check_nonce, ValidateNonce. destruct (String.eqb nonce ""); [exact I|].
      split; [unfold sec_cost; lia|]. intros [[]|e] _; [exact I| |exact I].
      split; [unfold sec_cost; lia|]. intros [[]|e] _; exact I. }
    intros [u|e]; [|exact I]. apply within_op; [done|]. intros [] _; exact I.
Qed.

Lemma Handler_spends m rq : security_spends (9 * b) (Handler m rq).
Proof.
  unfold Handler. repeat (case_match; [exact I|]).
  rewrite <- (Nat.add_0_r (9 * b)). apply within_bind; [apply ValidateRequest_spends|].
  intros [[ctx rq']|e]; [|exact I]. by repeat case_match.
Qed.

(** *** A request *)

Definition serve_cost (X : Type) (e : serve_op X) : nat :=
  match e with OnSecurity _ => b | OnService e => eff_cost _ e end.
Abbreviation serve_spends := (within serve_possible serve_cost).

Definition request_bound : nat := 12 * a + 34 * b.

Lemma on_service_spends {A} n (p : prog eff A) (f : A -> served) :
  spends n p -> serve_spends n (r ← translate (@OnService) p; Ret (f r)).
Proof.
  intros Hp. rewrite <- (Nat.add_0_r n). apply within_bind; [|done].
  by eapply (within_translate _ _ eff_cost).
Qed.

Lemma serve_within sv rq : serve_spends request_bound (serve sv rq).
Proof.
  unfold request_bound. on_route; [intros; exact I|]. destruct (String.eqb _ "/healthz"); [exact I|].
  destruct (String.eqb _ "/readyz").
  { apply on_service_spends. unfold readyz. eapply within_mono; [|apply (Locked_spends _ b)]; [lia|].
    intros [locked reason]. apply within_op; [done|]. intros r _. exact I. }
  destruct (protected_route sv (rq_Path rq)) as [next|] eqn:Hroute; [|exact I].
  apply (within_mono _ _ (9 * b + route_bound));
    [unfold route_bound, execution_bound, fleet_bound; lia|].
  apply within_bind; [by eapply (within_translate _ _ sec_cost), Handler_spends|].
  intros [status message|rq' ctx]; [exact I|]. by eapply on_service_spends, protected_spends.
Qed.
End Costs.

(** ** Every request ends *)

Section Ends.
Context `{GoUnicode, Geth, GoText} {SN S : Type} `{NonceStore SN, SignerStore S}.
Variable clock : nat -> Time.
Variable entropy : nat -> option (list Z).
Variable env : environment.

Definition is_remote (ev : event serve_op) : bool :=
  match ev_op ev with OnService (ENet _) => true | _ => false end.

Lemma spent_length h : spent (serve_cost 1 1) h = length h.
Proof. induction h as [|[X [|? []] x] h IH]; cbn; [done|..]; by f_equal. Qed.

Lemma spent_remote h : spent (serve_cost 1 0) h = length (List.filter is_remote h).
Proof. induction h as [|[X [|? []] x] h IH]; cbn; [done|..]; first [exact IH|by f_equal]. Qed.

(** C14: the work of a request is bounded. Under any interleaving, with any clock,
    network and stores, whatever it is answered, the goroutine of a request performs
    at most 46 operations, of which at most 12 are remote calls (six on each of two
    endpoints). How long an operation waits, for a mutex, a lock of the database or a
    remote server, is not bounded here. *)
Theorem request_work_bounded sv gs (sw : sec_world SN) (w : world S) c' :
  rtc (history_step (handle_serve clock entropy env)) (start sv gs, (sw, w)) c' ->
  forall i rq p h, gs !! i = Some (Incoming rq) -> c'.1 !! i = Some (p, h) ->
  (length h <= 46)%nat /\ (length (List.filter is_remote h) <= 12)%nat.
Proof.
  intros Hsteps i rq p h Hg Ht.
  assert (forall a b, (spent (serve_cost a b) h <= request_bound a b)%nat) as Hspent.
  { intros a b.
    assert (Forall2 (fun g t => obeys serve_possible
        (fun h => (spent (serve_cost a b) h <= request_bound a b)%nat \/ forall rq, g <> Incoming rq)
        (fun _ _ => True) t.2 t.1) gs (start sv gs)) as Hstart.
    { apply Forall2_fmap_r, Forall_Forall2_diag, Forall_forall. intros g _. cbn.
      destruct g as [rq'|n|n].
      - eapply obeys_weaken; [|eapply within_obeys; [apply serve_within|apply le_n]]. intros h1 Hle. left. exact Hle.
      - apply obeys_always. by right.
      - apply obeys_always. by right. }
    eapply (histories_obey _ _ (fun _ h => _ \/ _) (fun _ _ _ => True) gs _ c'
              (handle_serve_possible clock entropy env) Hsteps) in Hstart.
    pose proof (Forall2_lookup_lr _ _ _ _ _ _ Hstart Hg Ht) as Hnow.
    apply obeys_now in Hnow as [Hle|Hne]; [exact Hle|by destruct (Hne rq)]. }
  pose proof (Hspent 1 1)%nat as Hall. pose proof (Hspent 1 0)%nat as Hremote.
  rewrite spent_length in Hall. rewrite spent_remote in Hremote. cbn in Hall, Hremote.
  by split.
Qed.
End Ends.

#[local] Existing Instance ascii_unicode.
#[local] Existing Instance ref_geth.
#[local] Existing Instance example_text.
#[local] Existing Instance mem_store.
#[local] Existing Instance list_map_order.

Lemma request_work_bounded_witness :
  exists (p : prog serve_op served) (h : list (event serve_op)), interleaved.1 !! 0%nat = Some (p, h) /\
  (length h <= 46)%nat /\ (length (List.filter is_remote h) <= 12)%nat.
Proof.
  destruct (interleaved.1 !! 0%nat) as [[p h]|] eqn:Hi; [|vm_compute in Hi; discriminate].
  exists p, h. split; [reflexivity|].
  refine (request_work_bounded second_clock example_entropy good_environment example_service
            example_goroutines example_world first_world interleaved _ 0%nat
            (signed_post "n-1" "10") p h eq_refl Hi).
  apply run_history_steps.
Defined.

(** A paid transfer, one told to wait, a scan and a check without records. *)
Example interleaved_lengths : (fun t => length t.2) <$> interleaved.1 = [28; 11; 9; 1]%nat.
Proof. vm_compute. reflexivity. Qed.
