(* ===== verification/StoresAgree.v ===== *)
(** * The two stores agree.

    On the calls the signing routes make about idempotency keys and chain nonces
    the in-memory store and the PostgreSQL store give the same answers: both
    refine one abstract store. The agreement ends where the code's own protocol
    does: a response saved for a key nobody holds, a nonce past [int64], a nonce
    marked failed ([failed_nonce_blocks_wallet] of [PgStore]). *)
From S2P Require Export PgStore.

Inductive shared_op :=
| OClaim (k : string)
| OSave (k : string) (r : TransferResponse)
| ORelease (k : string)
| OReserve (pending : Z)
| OSubmitted (nonce : Z) (hash : string).

Inductive answer :=
| AClaim (r : result claim)
| ADone (r : result unit)
| ANonce (r : result Z).

Section Shared.
Variables wallet network : string.

(** The operation as a call of the interface. *)
Definition call_shared {S} `{SignerStore S} (c : call) (o : shared_op) (s : S) : answer * S :=
  match o with
  | OClaim k => let (r, s') := ClaimResult c k s in (AClaim r, s')
  | OSave k resp => let (r, s') := SaveResult c k resp s in (ADone r, s')
  | ORelease k => let (r, s') := ReleaseClaim c k s in (ADone r, s')
  | OReserve p => let (r, s') := ReserveChainNonce c wallet network p s in (ANonce r, s')
  | OSubmitted z h => let (r, s') := MarkChainNonceSubmitted c wallet network z h s in (ADone r, s')
  end.

Fixpoint call_all {S} `{SignerStore S} (os : list (call * shared_op)) (s : S) : list answer :=
  match os with
  | [] => []
  | (c, o) :: os' => let (a, s') := call_shared c o s in a :: call_all os' s'
  end.

(** ** The abstract store: the keys and the last nonce reserved *)

Record abstract := { a_keys : string -> key_state; a_last : option Z }.

Definition abstract_start : abstract := {| a_keys := fun _ => Free; a_last := None |}.

(** [None] outside the protocol. *)
Definition abs_shared (o : shared_op) (a : abstract) : option (answer * abstract) :=
  let set k v := {| a_keys := upd (a_keys a) k v; a_last := a_last a |} in
  match o with
  | OClaim k =>
      if String.eqb k "" then Some (AClaim (Ok (no_response, false, true)), a) else
      Some (AClaim (Ok (claim_answer (a_keys a k)).1), set k (claim_answer (a_keys a k)).2)
  | OSave k r =>
      if String.eqb k "" then Some (ADone (Ok tt), a) else
      match a_keys a k with InProgress => Some (ADone (Ok tt), set k (Done r)) | _ => None end
  | ORelease k =>
      if String.eqb k "" then Some (ADone (Ok tt), a) else
      Some (ADone (Ok tt), set k (release_key (a_keys a k)))
  | OReserve p =>
      let next := match a_last a with Some n => Z.max p (n + 1) | None => p end in
      if (0 <=? p) && (next <=? max_i64)
      then Some (ANonce (Ok next), {| a_keys := a_keys a; a_last := Some next |})
      else None
  | OSubmitted z h => if z <=? max_i64 then Some (ADone (Ok tt), a) else None
  end.

Fixpoint abs_all (os : list (call * shared_op)) (a : abstract) : option (list answer) :=
  match os with
  | [] => Some []
  | (_, o) :: os' =>
      '(x, a') ← abs_shared o a;
      rest ← abs_all os' a';
      Some (x :: rest)
  end.

(** ** Refinement *)

Definition refines {S} `{SignerStore S} (R : abstract -> S -> Prop) : Prop :=
  forall c o a s x a', R a s -> abs_shared o a = Some (x, a') ->
    exists s', call_shared c o s = (x, s') /\ R a' s'.

Lemma refines_all {S} `{SignerStore S} (R : abstract -> S -> Prop) os a s xs :
  refines R -> R a s -> abs_all os a = Some xs -> call_all os s = xs.
Proof.
  intros HR. revert a s xs. induction os as [|[c o] os IH]; intros a s xs Ha; cbn; [congruence|].
  intros ([x a'] & Hx & (xs' & Hxs & [= <-])%bind_Some)%bind_Some.
  destruct (HR c o a s x a' Ha Hx) as (s' & -> & Ha'). by rewrite (IH a' s' xs').
Qed.

(** The keys, for any store whose calls return no error. *)
Definition keys_agree {S} `{KeySpec S} (a : abstract) (s : S) : Prop :=
  forall k, k <> ""%string -> key_of s k = a_keys a k.

Definition on_keys (o : shared_op) : bool :=
  match o with OClaim _ | OSave _ _ | ORelease _ => true | _ => false end.

Lemma keys_refine {S} `{KeySpec S} c o a s x a' :
  (forall k, is_ok (ClaimResult c k s).1 = true) ->
  (forall k r, is_ok (SaveResult c k r s).1 = true) ->
  (forall k, is_ok (ReleaseClaim c k s).1 = true) ->
  on_keys o = true -> keys_agree a s -> abs_shared o a = Some (x, a') ->
  (call_shared c o s).1 = x /\ keys_agree a' (call_shared c o s).2 /\ a_last a' = a_last a.
Proof.
  intros Hclaim Hsave Hrelease Ho Ha. destruct o as [k|k resp|k| |]; try done; cbn.
  - specialize (Hclaim k). destruct (String.eqb_spec k "") as [->|Hk].
    { rewrite claim_empty. by intros [= <- <-]. }
    destruct (ClaimResult c k s) as [r s'] eqn:Hc. apply (claim_spec _ _ _ _ _ Hk) in Hc as [Hc Hf].
    destruct r as [r|e]; [|done]. destruct Hc as [-> Hs]. rewrite (Ha k Hk) in Hs |- *.
    intros [= <- <-]. split; [done|]. split; [|done]. intros k' Hk'. cbn. unfold upd.
    case_bool_decide; subst; [done|]. by rewrite Hf, Ha.
  - specialize (Hsave k resp). destruct (String.eqb_spec k "") as [->|Hk].
    { rewrite save_empty. by intros [= <- <-]. }
    destruct (a_keys a k) eqn:Hst; [done| |done]. intros [= <- <-].
    pose proof (save_frame c k resp s) as Hf.
    destruct (SaveResult c k resp s) as [r s'] eqn:Hc. cbn in Hf.
    apply (save_spec _ _ _ _ _ _ Hk) in Hc; [|by rewrite Ha]. destruct r as [[]|e]; [|done].
    destruct Hc as [Hc|[? _]]; [|done].
    split; [done|]. split; [|done]. intros k' Hk'. cbn. unfold upd.
    case_bool_decide; subst; [done|]. by rewrite Hf, Ha.
  - specialize (Hrelease k). destruct (String.eqb_spec k "") as [->|Hk].
    { rewrite release_empty. by intros [= <- <-]. }
    destruct (ReleaseClaim c k s) as [r s'] eqn:Hc.
    apply (release_spec _ _ _ _ _ Hk) in Hc as [Hc Hf]. destruct r as [[]|e]; [|done].
    destruct Hc as [Hc|[? _]]; [|done].
    intros [= <- <-]. rewrite (Ha k Hk) in Hc. split; [done|]. split; [|done].
    intros k' Hk'. cbn. unfold upd. case_bool_decide; subst; [done|]. by rewrite Hf, Ha.
Qed.

(** *** The in-memory store *)

Section Mem.
Context `{GoMapOrder}.

Definition mem_refines (a : abstract) (s : memorySignerStore) : Prop :=
  keys_agree a s /\ chainNonces s !! chain_key wallet network = a_last a /\
  (forall n, a_last a = Some n -> 0 <= n <= max_i64).

Lemma mem_keys_chain c o s :
  on_keys o = true -> chainNonces (call_shared c o s).2 = chainNonces s.
Proof.
  destruct o as [k|k r|k| |]; try done; intros _; cbn;
    unfold mem_ClaimResult, mem_SaveResult, mem_ReleaseClaim; by repeat case_match; simplify_eq/=.
Qed.

Lemma mem_store_refines : refines mem_refines.
Proof.
  intros c o a s x a' (Hk & Hn & Hr) Hx. destruct (on_keys o) eqn:Ho.
  - destruct (keys_refine c o a s x a') as (Hc & Hk' & Hl); try done.
    1-3: intros; cbn; unfold mem_ClaimResult, mem_SaveResult, mem_ReleaseClaim; by repeat case_match.
    exists (call_shared c o s).2. split; [by rewrite <- Hc, <- surjective_pairing|].
    split; [done|]. by rewrite Hl, mem_keys_chain.
  - destruct o as [| | |p|z h]; try done; cbn in Hx |- *; unfold mem_ReserveChainNonce.
    + rewrite Hn. destruct (_ && _) eqn:Hb in Hx; [|done]. injection Hx as <- <-. unbool.
      assert (match a_last a with
              | Some cur => if p <? u64 (cur + 1) then u64 (cur + 1) else p
              | None => p
              end = match a_last a with Some n => Z.max p (n + 1) | None => p end) as ->.
      { destruct (a_last a) as [n|]; [|done]. specialize (Hr n eq_refl).
        rewrite wrap_u_small by (unfold max_i64 in *; lia). destruct (Z.ltb_spec p (n + 1)); lia. }
      eexists. split; [done|]. split; [exact Hk|]. cbn. rewrite lookup_insert_eq.
      split; [done|]. intros n [= <-]. split; [|done].
      destruct (a_last a) as [m|]; [specialize (Hr m eq_refl)|]; lia.
    + destruct (z <=? max_i64); [|done]. injection Hx as <- <-. by eexists.
Qed.
End Mem.

(** *** The PostgreSQL store *)

Section Pg.
Context `{PgServer}.
Hypothesis no_fault : forall c X (op : pg_op X), pg_fault c X op = None.

Definition pg_refines (a : abstract) (t : pg_tables) : Prop :=
  keys_agree a t /\ max_live wallet network (signer_chain_nonces t) = a_last a /\
  (forall n, a_last a = Some n -> 0 <= n <= max_i64) /\
  (forall z, is_Some (signer_chain_nonces t !! (wallet, network, z)) ->
     live_nonce wallet network (signer_chain_nonces t) z).

Lemma pg_one c {X} (op : pg_op X) t : pg_run (perform op) c t = run_statement c X op t.
Proof. unfold pg_run. rewrite run_perform. unfold handle_pg. by rewrite no_fault. Qed.

Lemma pg_keys_ok c t :
  (forall k, is_ok (ClaimResult c k t).1 = true) /\
  (forall k r, is_ok (SaveResult c k r t).1 = true) /\
  (forall k, is_ok (ReleaseClaim c k t).1 = true).
Proof.
  split_and!; intros; cbn; unfold pg_ClaimResult, pg_SaveResult, pg_ReleaseClaim, pg_GetResult;
    destruct (String.eqb k "") eqn:E; try done; rewrite ?pg_one; try done.
  unfold pg_run. rewrite run_try. cbn [run perform]. unfold handle_pg at 1. rewrite no_fault.
  cbn [run_statement]. destruct (signer_idempotency t !! k); [done|].
  rewrite run_try. cbn [run perform]. unfold handle_pg. rewrite no_fault. cbn.
  by case_bool_decide.
Qed.

Lemma pg_keys_chain c o t :
  on_keys o = true -> signer_chain_nonces (call_shared c o t).2 = signer_chain_nonces t.
Proof.
  destruct o as [k|k r|k| |]; try done; intros _; cbn;
    unfold pg_ClaimResult, pg_SaveResult, pg_ReleaseClaim, pg_GetResult;
    destruct (String.eqb k "") eqn:E; try done; rewrite ?pg_one; try done.
  unfold pg_run. rewrite run_try. cbn [run perform]. unfold handle_pg at 1. rewrite no_fault.
  cbn [run_statement]. destruct (signer_idempotency t !! k); [done|].
  rewrite run_try. cbn [run perform]. unfold handle_pg. rewrite no_fault. cbn.
  by case_bool_decide.
Qed.

Definition reserved_row : chain_row := {| cr_status := "reserved"; cr_hash := ""; cr_reason := "" |}.

Lemma reserved_live (m : gmap (string * string * Z) chain_row) n z :
  live_nonce wallet network (<[(wallet, network, n) := reserved_row]> m) z <->
  z = n \/ live_nonce wallet network m z.
Proof.
  unfold live_nonce. destruct (decide (z = n)) as [->|Hne].
  - rewrite lookup_insert_eq. split; [by left|]. intros _. eexists. split; [done|]. by left.
  - rewrite lookup_insert_ne by congruence. naive_solver.
Qed.

Lemma reserved_max (m : gmap (string * string * Z) chain_row) n :
  (forall z, live_nonce wallet network m z -> z <= n) ->
  max_live wallet network (<[(wallet, network, n) := reserved_row]> m) = Some n.
Proof.
  intros Hbelow.
  pose proof (max_live_spec wallet network (<[(wallet, network, n) := reserved_row]> m)) as Hnew.
  destruct (max_live wallet network _) as [k|].
  - destruct Hnew as [Hin Hle]. f_equal. apply Z.le_antisymm.
    + apply reserved_live in Hin as [->|Hin]; [lia|by apply Hbelow].
    + apply Hle, reserved_live. by left.
  - destruct (Hnew n). apply reserved_live. by left.
Qed.

Lemma pg_reserve p a t :
  pg_refines a t -> 0 <= p ->
  let next := match a_last a with Some n => Z.max p (n + 1) | None => p end in
  next <= max_i64 ->
  exists t', reserve_in wallet network p t = (Ok next, t') /\
    pg_refines {| a_keys := a_keys a; a_last := Some next |} t'.
Proof.
  intros (Hk & Hm & Hr & Hlive) Hp next Hnext.
  pose proof (max_live_spec wallet network (signer_chain_nonces t)) as Hmax.
  assert (match max_live wallet network (signer_chain_nonces t) with
          | Some m => if p <? u64 (u64 m + 1) then u64 (u64 m + 1) else p
          | None => p
          end = next) as Hn.
  { rewrite Hm. subst next. destruct (a_last a) as [n|]; [|done]. specialize (Hr n eq_refl).
    rewrite (wrap_u_small 64 n), wrap_u_small by (unfold max_i64 in *; lia).
    destruct (Z.ltb_spec p (n + 1)); lia. }
  assert (forall z, live_nonce wallet network (signer_chain_nonces t) z -> z < next) as Hbelow.
  { intros z Hz. rewrite Hm in Hmax. subst next.
    destruct (a_last a) as [n|]; [|by destruct (Hmax z)]. destruct Hmax as [_ Hle].
    specialize (Hle z Hz). lia. }
  assert (signer_chain_nonces t !! (wallet, network, next) = None) as Hfree.
  { apply eq_None_not_Some. intros Hrow. specialize (Hbelow next (Hlive _ Hrow)). lia. }
  unfold reserve_in. rewrite Hn, Hfree. unfold fits_bigint.
  rewrite (proj2 (Z.leb_le _ _) Hnext). cbn [negb]. eexists. split; [done|].
  split; [exact Hk|]. cbn. fold reserved_row. split; [|split].
  - apply reserved_max. intros z Hz%Hbelow. lia.
  - intros m [= <-]. subst next. split; [|done].
    destruct (a_last a) as [n|]; [specialize (Hr n eq_refl)|]; lia.
  - intros z [row Hz]. apply reserved_live. destruct (decide (z = next)) as [->|Hne]; [by left|right].
    rewrite lookup_insert_ne in Hz by congruence. apply Hlive. eauto.
Qed.

Lemma pg_store_refines : refines pg_refines.
Proof.
  intros c o a t x a' Hall Hx. destruct (on_keys o) eqn:Ho.
  - destruct Hall as (Hk & Hrest). destruct (pg_keys_ok c t) as (H1 & H2 & H3).
    destruct (keys_refine c o a t x a') as (Hc & Hk' & Hl); try done.
    exists (call_shared c o t).2. split; [by rewrite <- Hc, <- surjective_pairing|].
    split; [done|]. by rewrite Hl, pg_keys_chain.
  - destruct o as [| | |p|z h]; try done; cbn in Hx;
      cbn [call_shared ReserveChainNonce MarkChainNonceSubmitted pg_store].
    + destruct (_ && _) eqn:Hb in Hx; [|done]. injection Hx as <- <-. unbool.
      destruct (pg_reserve p a t Hall) as (t' & Hres & Ht'); [done..|]. exists t'.
      unfold pg_ReserveChainNonce. rewrite pg_one. cbn. by rewrite Hres.
    + destruct (z <=? max_i64) eqn:Hz; [|done]. injection Hx as <- <-.
      unfold pg_MarkChainNonceSubmitted, pg_mark, fits_bigint. rewrite Hz, pg_one. cbn.
      eexists. split; [done|]. destruct Hall as (Hk & Hm & Hr & Hlive).
      assert (forall y, live_nonce wallet network
        (alter (fun r => {| cr_status := "submitted"; cr_hash := h; cr_reason := cr_reason r |})
           (wallet, network, z) (signer_chain_nonces t)) y <->
        live_nonce wallet network (signer_chain_nonces t) y) as Halt.
      { intros y. destruct (decide (y = z)) as [->|Hne].
        - unfold live_nonce at 1. rewrite lookup_alter_eq. split.
          + intros (row & Hrow & _). apply Hlive.
            by destruct (signer_chain_nonces t !! (wallet, network, z)).
          + intros (row & -> & _). eexists. split; [done|]. by right.
        - unfold live_nonce. by rewrite lookup_alter_ne by congruence. }
      split; [exact Hk|]. split; [by rewrite <- Hm; apply max_live_ext|]. split; [done|].
      intros y Hy. apply Halt, Hlive. cbn in Hy. by apply lookup_alter_is_Some in Hy.
Qed.
End Pg.
End Shared.

(** C17: the stores agree. From the start, on any sequence of claims, saves,
    releases, reservations and submissions of a wallet within the protocol, the
    in-memory store and a database that answers every statement give the same
    answers, those of the abstract store. *)
Theorem stores_agree `{GoMapOrder, PgServer} (wallet network : string)
    (os : list (call * shared_op)) (answers : list answer) :
  (forall c X (op : pg_op X), pg_fault c X op = None) ->
  abs_all os abstract_start = Some answers ->
  call_all wallet network os newMemorySignerStore = answers /\
  call_all wallet network os empty_tables = answers.
Proof.
  intros Hfault Habs. split.
  - refine (refines_all wallet network _ os _ _ _ (mem_store_refines wallet network) _ Habs).
    split; [done|]. by split.
  - refine (refines_all wallet network _ os _ _ _ (pg_store_refines wallet network Hfault) _ Habs).
    split; [done|]. split; [done|]. split; [done|]. intros z []. done.
Qed.

#[local] Existing Instance example_server.
#[local] Existing Instance list_map_order.

(** A payment that is made, asked for again, and followed by another. *)
Definition example_calls : list (call * shared_op) :=
  (fun o => (at_boot, o)) <$>
  [OClaim "a"; OClaim "a"; OReserve 7; OSubmitted 7 "0x1"; OSave "a" no_response; OClaim "a";
   OClaim "b"; OReserve 7; ORelease "b"; OClaim "b"; OReserve 12].

Lemma stores_agree_witness :
  exists answers, answers <> [] /\
  call_all "0xw" "BSC" example_calls newMemorySignerStore = answers /\
  call_all "0xw" "BSC" example_calls empty_tables = answers.
Proof.
  eexists. split; [|refine (stores_agree "0xw" "BSC" example_calls _ _ _);
    [reflexivity|vm_compute; reflexivity]]. discriminate.
Defined.
