(* ===== verification/PgTables.v ===== *)
(** * What the tables of the database always satisfy.

    Two sources of integrity meet here: the constraints of the schema, which
    [run_statement] enforces, and the checks of [postgresSignerStore] before it
    sends a statement. Together they keep [tables_ok] whatever goroutines of the
    service interleave, statement by statement. *)
From S2P Require Export PgRace.

(** ** The invariant *)

Definition statuses : list string := ["reserved"; "submitted"; "failed"]%string.

Definition event_ok (event : CustodyEvent) : Prop :=
  Forall (fun kv => json_value_ok kv.2 = true) (ev_Data event).

(** Serial ids in the order of insertion, at most one unresolved incident, both
    numbers of a chain nonce representable, a known status, transactions stored
    under their hash, events that are JSON. *)
Record tables_ok (t : pg_tables) : Prop := {
  ok_serial : StronglySorted Z.lt (ir_id <$> custody_incidents t);
  ok_fresh : Forall (fun i => ir_id i < next_incident t) (custody_incidents t);
  ok_active : (length (List.filter unresolved (custody_incidents t)) <= 1)%nat;
  ok_chain : map_Forall (fun key row => fits_bigint key.2 = true /\ cr_status row ∈ statuses)
               (signer_chain_nonces t);
  ok_txs : map_Forall (fun hash row => sx_TxHash (tr_item row) = hash /\
               fits_bigint (sx_Nonce (tr_item row)) = true /\
               fits_bigint (sx_Confirmations (tr_item row)) = true) (signer_transactions t);
  ok_events : Forall event_ok (custody_events t);
}.

Lemma empty_tables_ok : tables_ok empty_tables.
Proof.
  split; cbn;
    first [lia|apply Forall_nil_2|apply SSorted_nil|apply map_Forall_empty].
Qed.

(** ** What the store checks before it sends a statement *)

Definition statement_ok (X : Type) (op : pg_op X) : Prop :=
  match op with
  | QInsertEvent event => event_ok event
  | QMarkNonce _ _ _ mark => forall row, cr_status (mark row) ∈ statuses
  | QUpsertTransaction item =>
      fits_bigint (sx_Nonce item) = true /\ fits_bigint (sx_Confirmations item) = true
  | QUpdateTransaction _ _ _ confirmations => fits_bigint confirmations = true
  | _ => True
  end.

Lemma pg_method_ok X (e : store_eff X) : only statement_ok (pg_method e).
Proof.
  destruct e; cbn [pg_method];
    unfold pg_AcceptNonce, pg_ClaimResult, pg_GetResult, pg_SaveResult, pg_ReleaseClaim,
      pg_RecordCustodyEvent, pg_MarkChainNonceSubmitted, pg_MarkChainNonceFailed, pg_mark,
      pg_CreateSignerTransaction, pg_MarkSignerTransactionStatus, pg_DailySubmittedOutflow;
    repeat first [apply only_ret|apply only_try; [|intros ?]|apply only_bind; [|intros ?]
                 |case_match|apply only_perform]; try done; cbn; unbool.
  - rewrite forallb_forall in H. by apply List.Forall_forall.
  - intros row. unfold statuses. set_solver.
  - intros row. unfold statuses. set_solver.
  - done.
Qed.

(** ** The statements keep it *)

Lemma resolve_ids (f : incident_row -> incident_row) (l : list incident_row) :
  (forall i, ir_id (f i) = ir_id i) -> ir_id <$> (f <$> l) = ir_id <$> l.
Proof. intros Hf. rewrite <- list_fmap_compose. apply list_fmap_ext. intros ? i _. apply Hf. Qed.

Section Keep.
Context `{PgServer}.

Lemma reserve_keeps wallet network pending t :
  tables_ok t -> tables_ok (reserve_in wallet network pending t).2.
Proof.
  intros [? ? ? Hchain ? ?]. unfold reserve_in.
  set (next := match max_live _ _ _ with Some _ => _ | None => _ end).
  destruct (fits_bigint next) eqn:Hfit; cbn [negb]; [|done].
  destruct (signer_chain_nonces t !! _); [done|]. split; cbn; try done.
  apply map_Forall_insert_2; [|done]. split; [done|]. unfold statuses; cbn. set_solver.
Qed.

Lemma insert_incident_keeps c reason mode t :
  tables_ok t -> tables_ok (run_statement c _ (QInsertIncident reason mode) t).2.
Proof.
  intros [Hser Hfresh Hact ? ? ?]. cbn.
  destruct (existsb unresolved (custody_incidents t)) eqn:Hex; split; cbn; try done.
  - eapply Forall_impl; [exact Hfresh|]. cbn. lia.
  - rewrite fmap_app. apply StronglySorted_app_2; [|done|by repeat constructor].
    intros x y (i & -> & Hi)%list_elem_of_fmap ->%list_elem_of_singleton. cbn.
    rewrite Forall_forall in Hfresh. by apply Hfresh.
  - apply Forall_app. split; [|by repeat constructor; cbn; lia].
    eapply Forall_impl; [exact Hfresh|]. cbn. lia.
  - rewrite List.filter_app, (filter_unresolved_none _ Hex). cbn. lia.
Qed.

Lemma resolve_keeps c note t :
  tables_ok t -> tables_ok (run_statement c _ (QResolveIncidents note) t).2.
Proof.
  intros [Hser Hfresh Hact ? ? ?]. cbn. split; cbn; try done.
  - rewrite resolve_ids; [done|]. intros i. by destruct (unresolved i).
  - apply Forall_fmap. eapply Forall_impl; [exact Hfresh|]. intros i. cbn. by destruct (unresolved i).
  - rewrite resolved_all; [cbn; lia|]. intros i. by destruct (unresolved i) eqn:Hi.
Qed.

Lemma upsert_keeps c item t :
  statement_ok _ (QUpsertTransaction item) -> tables_ok t ->
  tables_ok (run_statement c _ (QUpsertTransaction item) t).2.
Proof.
  intros [Hn Hc] [? ? ? ? Htxs ?]. cbn. split; cbn; try done.
  apply map_Forall_insert_2; [|done].
  destruct (signer_transactions t !! sx_TxHash item) as [row|] eqn:Hrow; [|done].
  destruct (Htxs _ _ Hrow) as (Hhash & Hnonce & _). by cbn.
Qed.

Lemma statement_keeps c X (op : pg_op X) t :
  statement_ok X op -> tables_ok t -> tables_ok (handle_pg c X op t).2.
Proof.
  intros Hop Ht. destruct (handle_pg_state c X op t) as [->| ->]; [done|].
  destruct op; try (by apply reserve_keeps); try (by apply insert_incident_keeps);
    try (by apply resolve_keeps); try (by apply upsert_keeps);
    cbn [run_statement]; repeat case_match; try done;
    destruct Ht as [Hser Hfresh Hact Hchain Htxs Hev]; split; cbn; try done.
  - apply Forall_app. split; [done|by constructor].
  - apply map_Forall_lookup. intros key row. rewrite lookup_alter_Some.
    intros [(<- & row' & Hrow & ->)|[_ Hrow]]; [|by apply Hchain].
    split; [by apply (Hchain _ _ Hrow)|apply Hop].
  - apply map_Forall_lookup. intros key row. rewrite lookup_alter_Some.
    intros [(<- & row' & Hrow & ->)|[_ Hrow]]; [|by apply Htxs].
    destruct (Htxs _ _ Hrow) as (Hhash & Hnonce & _). by cbn.
Qed.

(** ** Any interleaving of the service's goroutines *)

Definition lowered_ok (X : Type) (e : pg_eff X) : Prop :=
  match e with PSql op => statement_ok _ op | PEff (EStore _) => False | _ => True end.

Lemma lower_ok {A} (p : prog eff A) : only lowered_ok (lower p).
Proof.
  apply only_interp. clear p A. intros X e.
  destruct e; cbn [lower_op]; try (by apply only_perform).
  apply only_bind; [|intros x; apply only_bind; [by apply only_perform|intros u; apply only_ret]].
  pose proof (pg_method_ok _ e) as He. induction He as [a|Y op k' Hop _ IHk]; cbn [statements];
    [apply only_ret|by apply only_vis].
Qed.

Lemma lowered_keeps env X (e : pg_eff X) (w : world pg_tables) :
  lowered_ok X e -> tables_ok (w_store w) -> tables_ok (w_store (handle_lowered env X e w).2).
Proof.
  destruct e as [X e|X op|X e x]; [|cbn|done].
  - destruct e as [|X e|X e| | | | | | | | | |]; try done; cbn; [by destruct e|]. intros _ Hw.
    by destruct (sendCandidates _ _ _) as [[hs f]|].
  - intros Hop Hw. pose proof (statement_keeps (the_call env w) X op (w_store w) Hop Hw).
    by destruct (handle_pg (the_call env w) X op (w_store w)).
Qed.

(** C16: the database stays consistent. Whatever goroutines share it, and however
    their statements interleave and fail: incident ids are increasing, at most one
    incident is unresolved, every chain nonce has a status the code knows, every
    transaction is stored under its own hash, every number fits its column. *)
Theorem tables_stay_consistent env {A} (ps : list (prog eff A)) (w : world pg_tables) c' :
  tables_ok (w_store w) -> pool_steps (handle_lowered env) (lower <$> ps, w) c' ->
  tables_ok (w_store c'.2).
Proof.
  intros Hok Hsteps.
  refine (proj2 (only_pool lowered_ok (handle_lowered env) (fun w => tables_ok (w_store w))
                   _ _ _ Hsteps _ Hok)); cbn.
  - intros X e w1. apply lowered_keeps.
  - apply Forall_fmap, Forall_forall. intros p _. apply lower_ok.
Qed.
End Keep.

(** ** Closed run: the two requests of [pg_race] *)

#[local] Existing Instance ascii_unicode.
#[local] Existing Instance ref_geth.
#[local] Existing Instance example_text.
#[local] Existing Instance example_server.

Definition after_race : list (prog pg_eff (option http_response)) * world pg_tables :=
  run_schedule (handle_lowered good_environment) pg_race
    (lower <$> (job_prog example_config None <$> retried_jobs), pg_world).

Lemma tables_stay_consistent_witness : tables_ok (w_store after_race.2).
Proof.
  refine (tables_stay_consistent good_environment (job_prog example_config None <$> retried_jobs)
            pg_world after_race empty_tables_ok _).
  apply run_schedule_steps.
Defined.

(** Both payments are recorded, each under its hash. *)
Example after_race_rows :
  size (signer_transactions (w_store after_race.2)) = 2%nat.
Proof. vm_compute. reflexivity. Qed.
