(* ===== verification/FleetTyped.v ===== *)
(** * The fleet keeps its machine types.

    The counters of an endpoint are [uint32] and its latency an [int64], in the
    model integers with their wrap-around written out. Here: whatever goroutines
    of the service run beside each other, every field stays within its type and
    every endpoint keeps its position, so no wrap-around is left out. *)
From S2P Require Export Concurrent.

(** ** Well-typed states *)

Definition is_u32 (z : Z) : Prop := 0 <= z < 2 ^ 32.
Definition is_i64 (z : Z) : Prop := min_i64 <= z <= max_i64.

Lemma u32_is_u32 z : is_u32 (u32 z).
Proof. by apply wrap_u_range. Qed.

Lemma subtractUint32_is_u32 v a : is_u32 v -> 0 <= a -> is_u32 (subtractUint32 v a).
Proof. unfold subtractUint32, is_u32. destruct (Z.ltb_spec v a); lia. Qed.

Lemma decrement_is_u32 n : is_u32 n -> is_u32 (if 0 <? n then n - 1 else n).
Proof. unfold is_u32. destruct (Z.ltb_spec 0 n); lia. Qed.

Lemma time_Sub_is_i64 t u : is_i64 (time_Sub t u).
Proof. unfold is_i64, time_Sub, min_i64, max_i64. lia. Qed.

Lemma f_to_i64_is_i64 x : is_i64 (f_to_i64 x).
Proof.
  unfold is_i64, f_to_i64. destruct x as [| | |s m e]; try (unfold min_i64, max_i64; lia).
  cbv zeta. case_match; unbool; [lia|unfold min_i64, max_i64; lia].
Qed.

(** Nothing is disabled without its one reason, and each reservation is for the
    cost of one send. *)
Record state_typed (st : rpcEndpointState) : Prop := {
  typed_failures : is_u32 (failures st);
  typed_timeouts : is_u32 (timeoutFailures st);
  typed_limits : is_u32 (rateLimitFailures st);
  typed_latency : is_i64 (avgLatency st);
  typed_units : Forall (fun item => rs_units item = rpcSendBurstCost) (recentReservations st);
  typed_reason : disabledReason st =
    if disabled st then "provider capacity exhausted"%string else ""%string;
}.

Record fleet_typed (f : rpcFleet) : Prop := {
  typed_states : Forall (fun ep => state_typed (ep_state ep)) (endpoints f);
  typed_ids : ids_ok (endpoints f);
  typed_urls : NoDup (ep_url <$> endpoints f);
  typed_some : endpoints f <> [];
  typed_rotation : 0 <= rotation f < 2 ^ 64;
}.

(** ** One endpoint *)

Lemma prune_typed now st : state_typed st -> state_typed (prune now st).
Proof. 
  intros [? ? ? ? Hunits ?]. split; cbn; try done.
  apply Forall_forall. intros item [_ Hin]%list_elem_of_filter.
  rewrite Forall_forall in Hunits. by apply Hunits.
Qed.

Lemma decay_typed now st : state_typed st -> state_typed (decay now st).
Proof.
  intros [Hf Ht Hl]. unfold decay. destruct (IsZero _); [by split|]. cbv zeta.
  destruct (_ =? 0); [by split|].
  split; cbn; try done; apply subtractUint32_is_u32; try done; by apply wrap_u_range.
Qed.
#[local] Hint Resolve prune_typed decay_typed : core.

Lemma set_cooldown_typed t st : state_typed st -> state_typed (set_cooldown t st).
Proof. by intros []. Qed.
#[local] Hint Resolve set_cooldown_typed : core.

Lemma reserve_typed now ep : state_typed (ep_state ep) -> state_typed (ep_state (reserve now ep)).
Proof.
  intros Hst. unfold reserve. cbv zeta. cbn [ep_state set_state].
  assert (state_typed (set_reservations (recentReservations (prune now (ep_state ep)) ++
            [{| rs_at := now; rs_units := rpcSendBurstCost |}])%list now (prune now (ep_state ep))))
    as Hres.
  { destruct (prune_typed now _ Hst). split; cbn; try done. apply Forall_app.
    split; [done|by constructor]. }
  destruct (_ <=? _); auto.
Qed.

Lemma score_typed now ep : state_typed (ep_state ep) -> state_typed (ep_state (score now ep).2).
Proof. intros Hst. cbn. auto. Qed.

Lemma record_success_typed now latency st :
  is_i64 latency -> state_typed st -> state_typed (record_success now latency st).
Proof.
  intros Hlat Hst. unfold record_success. cbv zeta.
  set (st0 := decay now (prune now st)). assert (state_typed st0) as [] by (unfold st0; auto).
  match goal with |- context [set_counts ?a ?b ?c ?s] =>
    assert (state_typed (set_counts a b c s)) as Hset end.
  { split; cbn; try done; try (by apply decrement_is_u32).
    destruct (0 <? avgLatency st0); [apply f_to_i64_is_i64|done]. }
  destruct (negb _ && _); auto.
Qed.

Lemma record_failure_typed now kind st :
  state_typed st -> state_typed (record_failure now kind st).
Proof.
  intros Hst. unfold record_failure. cbv zeta.
  set (st0 := decay now (prune now st)). assert (state_typed st0) as [] by (unfold st0; auto).
  set (st1 := set_counts (u32 (failures st0 + 1)) _ _ st0).
  destruct (failure_kind kind st1) as [st2 cooldown] eqn:Hkind.
  assert (state_typed st2).
  { destruct kind; injection Hkind as <- _; split; cbn; try done; apply u32_is_u32. }
  destruct (Before _ _); auto.
Qed.

(** ** The fleet *)

Definition all_typed (eps : list rpcEndpoint) : Prop :=
  Forall (fun ep => state_typed (ep_state ep)) eps.

Lemma update_endpoint_typed id g eps :
  (forall st, state_typed st -> state_typed (g st)) -> all_typed eps ->
  all_typed (update_endpoint id g eps).
Proof.
  intros Hg. induction 1 as [|ep eps Hep Heps IH]; cbn; [constructor|].
  destruct (ep_id ep =? id); constructor; auto. by apply Hg.
Qed.

Lemma score_all_typed prep now i eps :
  (forall ep, state_typed (ep_state ep) -> state_typed (ep_state (prep ep))) ->
  all_typed eps -> all_typed (score_all prep now i eps).1.
Proof.
  intros Hprep Heps. rewrite score_all_fst. apply Forall_fmap.
  eapply Forall_impl; [exact Heps|]. intros ep Hep. apply score_typed. auto.
Qed.

Lemma take_candidates_typed now cs : forall eps,
  all_typed eps -> all_typed (take_candidates now eps cs).1.
Proof.
  induction cs as [|[i x] cs IH]; intros eps Heps; cbn; [done|].
  destruct (eps !! i) as [ep|] eqn:Hi; [|by apply IH].
  specialize (IH (alter (reserve now) i eps)).
  destruct (take_candidates now _ cs). apply IH. apply Forall_alter; [done|].
  intros x' _. apply reserve_typed.
Qed.

Lemma sendCandidates_typed now limit f hs f' :
  fleet_typed f -> sendCandidates now limit f = Some (hs, f') -> fleet_typed f'.
Proof.
  intros [Hst Hids Hurls Hsome Hrot] Hsend.
  destruct (sendCandidates_spec _ _ _ _ _ Hids Hsend) as (_ & _ & _ & _ & _ & _ & Hsame).
  unfold sendCandidates in Hsend.
  pose proof (score_all_typed id now 0 (endpoints f) (fun _ H => H) Hst) as H1.
  destruct (score_all id now 0 (endpoints f)) as [eps1 cs1]. cbn in H1.
  assert (all_typed (if (length cs1 =? 0)%nat then score_all clear_cooldown now 0 eps1
                     else (eps1, cs1)).1) as H2
    by (destruct (length cs1 =? 0)%nat; [apply score_all_typed; [intros; by apply set_cooldown_typed|]|]; done).
  destruct (if (length cs1 =? 0)%nat then _ else _) as [eps cs]. cbn in H2.
  destruct (Fleet.rotate _ _) as [best|]; [|done].
  set (n := if (limit <=? 0) || (Z.of_nat (length best) <? limit) then _ else limit) in Hsend.
  pose proof (take_candidates_typed now (take (Z.to_nat n) best) eps H2) as H3.
  destruct (take_candidates now eps _) as [eps' hs']. injection Hsend as _ <-. cbn in *.
  split; cbn; try done.
  - by eapply ids_ok_same.
  - enough (ep_url <$> eps' = ep_url <$> endpoints f) as -> by done.
    clear -Hsame. induction Hsame as [|ep ep' l l' (_ & _ & Hurl & _) _ IH]; cbn; congruence.
  - intros ->. by inversion Hsame; destruct (endpoints f).
  - match goal with |- context [if ?b then _ else _] => destruct b end; [by apply wrap_u_range|done].
Qed.

Lemma update_endpoint_field {B} (field : rpcEndpoint -> B) id g eps :
  (forall st ep, field (set_state st ep) = field ep) ->
  field <$> update_endpoint id g eps = field <$> eps.
Proof.
  intros Hfield. induction eps as [|ep eps IH]; cbn; [done|].
  case_match; cbn; by rewrite ?Hfield, ?IH.
Qed.

Lemma updated_typed f id g :
  (forall st, state_typed st -> state_typed (g st)) -> fleet_typed f ->
  fleet_typed (with_endpoints f (update_endpoint id g (endpoints f))).
Proof.
  intros Hg [Hst Hids Hurls Hsome Hrot].
  pose proof (update_endpoint_field ep_id id g (endpoints f) (fun _ _ => eq_refl)) as Hsame.
  split; cbn; try done.
  - by apply update_endpoint_typed.
  - intros i ep Hi. apply (f_equal (.!! i)) in Hsame. rewrite !list_lookup_fmap, Hi in Hsame.
    destruct (endpoints f !! i) as [ep'|] eqn:Hi'; [|done]. injection Hsame as ->. by apply Hids.
  - by rewrite update_endpoint_field.
  - intros Hnil. rewrite Hnil in Hsame. by destruct (endpoints f).
Qed.

Lemma new_state_typed now : state_typed (new_state now).
Proof. split; cbn; try done; by constructor. Qed.

Lemma newRPCFleet_typed `{GoUnicode} now urls : fleet_typed (newRPCFleet now urls).
Proof.
  destruct (newRPCFleet_fresh now urls) as ((Hids & _ & Hurls) & Hsome & Hrot).
  split; try done.
  assert (forall eps, all_typed eps -> all_typed (add_endpoints now eps urls)) as Hadd.
  { clear. induction urls as [|raw urls' IH]; intros eps Heps; cbn; [done|].
    destruct (_ || _); [by apply IH|]. apply IH, Forall_app. split; [done|].
    constructor; [apply new_state_typed|constructor]. }
  unfold newRPCFleet; cbn. case_bool_decide; [|by apply Hadd; constructor].
  constructor; [apply new_state_typed|constructor].
Qed.

(** ** The goroutines of the service *)

Definition typed_op (X : Type) (e : eff X) : Prop :=
  match e with EFleetSuccess _ latency => is_i64 latency | _ => True end.

Section Programs.
Context `{GoUnicode, Geth, GoText}.
Implicit Types cfg : SignerConfig.

(** Straight-line code, by its operations and branches. *)
Ltac only_all :=
  repeat first
    [ apply only_ret
    | apply only_perform; exact I
    | apply only_vis; [exact I|intros ?]
    | apply only_bind; [|intros ?]
    | match goal with |- only _ (match ?x with _ => _ end) => destruct x end ].

Abbreviation types p := (only typed_op p).

Lemma event_types cfg kind reason txHash wallet data :
  types (custody_event cfg kind reason txHash wallet data).
Proof. unfold custody_event, ignore, store_call. only_all. Qed.
#[local] Hint Resolve event_types : core.

Lemma sign_and_send_types cfg url key from network chainID r data tx :
  types (sign_and_send cfg url key from network chainID r data tx).
Proof. unfold sign_and_send, ignore, store_call, net_call. only_all; auto. Qed.

Lemma reserve_nonce_types cfg url from network data k :
  (forall nonce gasPrice, types (k nonce gasPrice)) ->
  types (reserve_nonce cfg url from network data k).
Proof. intros Hk. unfold reserve_nonce, or_fail, store_call, net_call. only_all; auto. Qed.

Lemma check_chain_types url what ok k :
  (forall c, types (k c)) -> types (check_chain url what ok k).
Proof. intros Hk. unfold check_chain, or_fail, net_call. only_all; auto. Qed.

#[local] Hint Resolve sign_and_send_types : core.

Lemma transfer_types cfg req network key from url :
  types (executeEVMTransferWithClient cfg req network key from url).
Proof.
  apply check_chain_types. intros chainID. apply reserve_nonce_types. intros nonce price.
  cbv zeta. unfold or_fail, net_call. only_all; auto.
Qed.

Lemma contract_types cfg req network key from url :
  types (executeEVMContractCallWithClient cfg req network key from url).
Proof.
  apply check_chain_types. intros chainID. apply reserve_nonce_types. intros nonce price.
  cbv zeta. unfold or_fail, net_call. only_all; auto.
Qed.

Lemma settlement_types cfg req network amount key from url :
  types (executeEVMSettlementWithClient cfg req network amount key from url).
Proof.
  apply check_chain_types. intros chainID. apply reserve_nonce_types. intros nonce price.
  cbv zeta. unfold or_fail, net_call. only_all; auto.
Qed.

Lemma try_handles_types cfg withClient hs : forall lastErr,
  (forall url, types (withClient url)) -> types (try_handles cfg withClient lastErr hs).
Proof.
  induction hs as [|h hs IH]; intros lastErr Hclient; cbn [try_handles]; [apply only_ret|].
  unfold record_fleet_failure, record_fleet_success, net_call. only_all; auto.
  apply only_perform. cbn. apply time_Sub_is_i64.
Qed.

Lemma over_fleet_types cfg simulated network withClient :
  (forall key from url, types (withClient key from url)) ->
  types (over_fleet cfg simulated network withClient).
Proof.
  intros Hclient. unfold over_fleet, fleet_candidates, or_fail. only_all.
  by apply try_handles_types.
Qed.

Lemma on_evm_types network k : types k -> types (on_evm network k).
Proof. intros Hk. unfold on_evm. by destruct (evm_network network); [|apply only_ret]. Qed.

Lemma treasury_limits_types cfg next data : types (treasury_limits cfg next data).
Proof. unfold treasury_limits. only_all; auto. Qed.
#[local] Hint Resolve treasury_limits_types : core.

Lemma executeTransfer_types cfg req : types (executeTransfer cfg req).
Proof.
  unfold executeTransfer, validateTreasuryPolicy, or_fail, store_call. only_all; auto.
  apply on_evm_types, over_fleet_types. intros. apply transfer_types.
Qed.

Lemma executeContractCall_types cfg req : types (executeContractCall cfg req).
Proof.
  unfold executeContractCall, validateContractCallTreasuryPolicy, or_fail, store_call.
  only_all; auto; apply on_evm_types, over_fleet_types; intros; apply contract_types.
Qed.

Lemma executeSettlement_types cfg req : types (executeSettlement cfg req).
Proof.
  unfold executeSettlement, or_fail. only_all.
  apply on_evm_types, over_fleet_types. intros. apply settlement_types.
Qed.

Lemma route_types {Req} cfg g (decode : string -> result Req) key exec rq ctx :
  (forall req, types (exec req)) -> types (signing_route cfg g decode key exec rq ctx).
Proof.
  intros Hexec.
  unfold signing_route, Locked, with_fresh_body, claim_and_execute, ignore, store_call.
  only_all; auto.
Qed.

Lemma inspecting_types C : inspecting typed_op C.
Proof. by split. Qed.

Lemma protected_types sv path next rq ctx :
  protected_route sv path = Some next -> types (next rq ctx).
Proof.
  unfold protected_route. repeat case_match; intros [= <-].
  - unfold custody_unlock, with_fresh_body, store_call. only_all.
    destruct (sv_guard sv) as [g|]; [|apply only_ret]. by apply only_Unlock; [apply inspecting_types|..].
  - apply route_types. intros. apply executeTransfer_types.
  - apply route_types. intros. apply executeSettlement_types.
  - apply route_types. intros. apply executeContractCall_types.
Qed.

Definition typed_serve_op (X : Type) (e : serve_op X) : Prop :=
  match e with OnService e => typed_op _ e | OnSecurity _ => True end.

Lemma service_types {A} (p : prog eff A) :
  types p -> only typed_serve_op (translate (@OnService) p).
Proof. induction 1; by constructor. Qed.

Lemma security_types {A} (p : prog sec_op A) : only typed_serve_op (translate (@OnSecurity) p).
Proof. induction p; by constructor. Qed.

Lemma serve_types sv rq : only typed_serve_op (serve sv rq).
Proof.
  assert (forall {A} (p : prog eff A) (f : A -> served), types p ->
    only typed_serve_op (r ← translate (@OnService) p; Ret (f r))) as Hon
    by (intros; apply only_bind; [by apply service_types|intros; apply only_ret]).
  on_route; [intros; apply only_ret|].
  destruct (String.eqb _ "/healthz"); [apply Hon, only_ret|].
  destruct (String.eqb _ "/readyz"); [apply Hon; unfold readyz, Locked, store_call; only_all|].
  destruct (protected_route sv (rq_Path rq)) as [next|] eqn:Hroute; [|apply only_ret].
  apply only_bind; [apply security_types|]. intros [status message|rq' ctx]; [apply only_ret|].
  by eapply Hon, protected_types.
Qed.

Lemma goroutine_types sv g : only typed_serve_op (goroutine_prog sv g).
Proof.
  destruct g as [rq|n|n]; [apply serve_types|..];
    (apply only_bind; [apply service_types|intros; apply only_ret]);
    (apply only_bind; [|intros; apply only_ret]).
  - destruct (sv_guard sv) as [g|]; [|apply only_ret]. by apply only_Start; [apply inspecting_types|..].
  - by apply only_startTxLifecycleMonitor.
Qed.
End Programs.

(** ** The fleet under any interleaving *)

Section Service.
Context `{GoUnicode, Geth, GoText} {SN S : Type} `{NonceStore SN, SignerStore S}.
Variable clock : nat -> Time.
Variable entropy : nat -> option (list Z).
Variable env : environment.

Lemma handle_typed X (e : serve_op X) (w : sec_world SN * world S) :
  typed_serve_op X e -> fleet_typed (w_fleet w.2) ->
  fleet_typed (w_fleet (handle_serve clock entropy env X e w).2.2).
Proof.
  destruct e as [X op|X e]; cbn; intros He Hw; [by destruct (handle_sec _ _ _ op w.1)|].
  destruct e as [|X e|X e|limit|id latency|id kind| | | | | | |]; cbn; try done.
  - by destruct (handle_store _ _ e (w_store w.2)).
  - by destruct e.
  - destruct (sendCandidates _ limit _) as [[hs f]|] eqn:Hs; [|done]. cbn.
    by eapply sendCandidates_typed.
  - apply updated_typed; [|done]. intros st. by apply record_success_typed.
  - apply updated_typed; [|done]. intros st. apply record_failure_typed.
Qed.

(** Any number of requests, guards and monitors, interleaved in any way, with any
    clock: every field of the fleet stays within its Go type. *)
Lemma fleet_stays_typed sv gs (w : sec_world SN * world S) c' :
  fleet_typed (w_fleet w.2) ->
  pool_steps (handle_serve clock entropy env) (goroutine_prog sv <$> gs, w) c' ->
  fleet_typed (w_fleet c'.2.2).
Proof.
  intros Hw Hsteps.
  refine (proj2 (only_pool typed_serve_op (handle_serve clock entropy env)
                   (fun w => fleet_typed (w_fleet w.2)) _ _ _ Hsteps _ Hw)).
  - intros X e w1. apply handle_typed.
  - apply Forall_fmap, Forall_forall. intros g _. apply goroutine_types.
Qed.
End Service.

(** ** Closed run: the goroutines of [interleaved] *)

#[local] Existing Instance ascii_unicode.
#[local] Existing Instance ref_geth.
#[local] Existing Instance example_text.
#[local] Existing Instance mem_store.
#[local] Existing Instance list_map_order.

Definition served_together : list (prog serve_op served) *
    (sec_world InMemoryNonceStore * world memorySignerStore) :=
  run_schedule (handle_serve second_clock example_entropy good_environment)
    (concat (replicate 40 [0; 1; 2; 3]%nat))
    (goroutine_prog example_service <$> example_goroutines, (example_world, first_world)).

(** The endpoint that took the payment has a latency now. *)
Example served_together_latency :
  (fun ep => 0 <? avgLatency (ep_state ep)) <$> endpoints (w_fleet served_together.2.2) = [true; false].
Proof. vm_compute. reflexivity. Qed.
