(* ===== verification/FleetSteps.v ===== *)
(** * The fleet, lock by lock.

    In [Service] the choice of endpoints is one operation, [EFleetSend]. The code
    takes the lock of one endpoint at a time, to score it, to clear its cooldown, to
    reserve it, and adds to the rotation atomically; others come between. Here
    [lower_fleet] rewrites a goroutine of the service so, down to those steps. Run
    alone it does what [sendCandidates] does; interleaved, what holds of a
    goroutine whatever it is answered holds still, and what the endpoints count is
    bounded by the failures that were recorded. *)
From S2P Require Export FleetTyped.

(** ** The steps *)

Inductive fleet_op : Type -> Type :=
| FScore (now : Time) (i : nat) : fleet_op (option f64)
| FClear (i : nat) : fleet_op unit
(** [f.rotation.Add(1) - 1] *)
| FRotate : fleet_op Z
| FReserve (now : Time) (i : nat) : fleet_op unit.

Definition handle_fleet (X : Type) (op : fleet_op X) (f : rpcFleet) : X * rpcFleet :=
  match op in fleet_op X return X * rpcFleet with
  | FScore now i =>
      match endpoints f !! i with
      | Some ep => ((score now ep).1, with_endpoints f (<[i := (score now ep).2]> (endpoints f)))
      | None => (None, f)
      end
  | FClear i => (tt, with_endpoints f (alter clear_cooldown i (endpoints f)))
  | FRotate => (rotation f, {| endpoints := endpoints f; rotation := u64 (rotation f + 1) |})
  | FReserve now i => (tt, with_endpoints f (alter (reserve now) i (endpoints f)))
  end.

Definition handle_of (ep : rpcEndpoint) : rpcHandle :=
  {| h_id := ep_id ep; h_name := ep_name ep; h_url := ep_url ep |}.

Section Steps.
(** Ids, names and URLs are never assigned after the fleet is made. *)
Variable fixed : list rpcHandle.
Variable now : Time.

(** Either loop over the endpoints, from the [i]th on. *)
Fixpoint score_each (clears : bool) (i n : nat) : prog fleet_op (list candidate) :=
  match n with
  | O => Ret []
  | S n' =>
      _ ← (if clears then perform (FClear i) else Ret tt);
      s ← perform (FScore now i);
      cs ← score_each clears (S i) n';
      Ret (match s with Some x => (i, x) :: cs | None => cs end)
  end.

Fixpoint reserve_each (cs : list candidate) : prog fleet_op (list rpcHandle) :=
  match cs with
  | [] => Ret []
  | (i, _) :: cs' =>
      match fixed !! i with
      | None => reserve_each cs'
      | Some h =>
          _ ← perform (FReserve now i);
          hs ← reserve_each cs';
          Ret (h :: hs)
      end
  end.

Definition send_steps (limit : Z) : prog fleet_op (option (list rpcHandle)) :=
  cs ← score_each false 0 (length fixed);
  cs ← (if (length cs =? 0)%nat then score_each true 0 (length fixed) else Ret cs);
  let cs := exchange_sort (length cs) cs in
  count ← (if (1 <? Nat.min (length cs) 2)%nat then perform FRotate else Ret 0);
  match Fleet.rotate count cs with
  | None => Ret None
  | Some cs =>
      let n := Z.of_nat (length cs) in
      let limit := if (limit <=? 0) || (n <? limit) then n else limit in
      hs ← reserve_each (take (Z.to_nat limit) cs);
      Ret (Some hs)
  end.
End Steps.

(** ** Run alone *)

Lemma score_each_run now clears eps1 eps2 r :
  run handle_fleet (score_each now clears (length eps1) (length eps2))
      {| endpoints := eps1 ++ eps2; rotation := r |} =
    let prep := if clears then clear_cooldown else id in
    let (eps, cs) := score_all prep now (length eps1) eps2 in
    (cs, {| endpoints := eps1 ++ eps; rotation := r |}).
Proof.
  revert eps1. induction eps2 as [|ep eps2 IH]; intros eps1; [done|]. cbn [length score_each score_all].
  set (prep := if clears then clear_cooldown else id).
  assert (run handle_fleet (if clears then perform (FClear (length eps1)) else Ret tt)
            {| endpoints := eps1 ++ ep :: eps2; rotation := r |} =
          (tt, {| endpoints := eps1 ++ prep ep :: eps2; rotation := r |})) as Hprep.
  { unfold prep. destruct clears; [|done]. cbn. unfold with_endpoints. cbn.
    by rewrite alter_app_r_alt, Nat.sub_diag by lia. }
  rewrite run_bind, Hprep, run_bind, run_perform. cbn [handle_fleet endpoints].
  rewrite list_lookup_middle by done. rewrite insert_app_r_alt, Nat.sub_diag by lia. cbn [list_insert insert].
  unfold with_endpoints. cbn [endpoints rotation]. rewrite run_bind.
  specialize (IH (eps1 ++ [(score now (prep ep)).2])%list). rewrite length_app in IH. cbn [length] in IH.
  rewrite Nat.add_1_r in IH. rewrite <- (assoc_L (++)) in IH. cbn [app] in IH.
  fold prep in IH |- *. destruct (score now (prep ep)) as [s ep1]. cbn [fst snd] in *. rewrite IH.
  destruct (score_all prep now (S (length eps1)) eps2) as [eps cs]. cbn [run].
  by rewrite <- (assoc_L (++)).
Qed.

Lemma reserve_each_run now cs eps fixed r :
  handle_of <$> eps = fixed ->
  run handle_fleet (reserve_each fixed now cs) {| endpoints := eps; rotation := r |} =
    let (eps', hs) := take_candidates now eps cs in (hs, {| endpoints := eps'; rotation := r |}).
Proof.
  revert eps. induction cs as [|[i x] cs IH]; intros eps Hfixed; [done|]. cbn [reserve_each take_candidates].
  assert (fixed !! i = handle_of <$> eps !! i) as -> by by rewrite <- Hfixed, list_lookup_fmap.
  destruct (eps !! i) as [ep|] eqn:Hi; cbn [fmap option_fmap option_map]; [|by apply IH].
  rewrite run_bind, run_perform. cbn [handle_fleet]. unfold with_endpoints. cbn [endpoints rotation].
  rewrite run_bind, IH.
  - by destruct (take_candidates now (alter (reserve now) i eps) cs).
  - rewrite <- Hfixed. apply list_eq. intros j. rewrite !list_lookup_fmap. destruct (decide (i = j)) as [<-|Hne].
    + by rewrite list_lookup_alter_eq, Hi.
    + by rewrite list_lookup_alter_ne.
Qed.

Lemma score_all_fixed prep now i eps :
  (forall ep, handle_of (prep ep) = handle_of ep) ->
  handle_of <$> (score_all prep now i eps).1 = handle_of <$> eps.
Proof.
  intros Hprep. rewrite score_all_fst, <- list_fmap_compose. apply list_fmap_ext. intros j ep _.
  exact (Hprep ep).
Qed.

(** A sender that no other comes between does what [sendCandidates] does. *)
Lemma send_steps_run now limit f :
  let r := run handle_fleet (send_steps (handle_of <$> endpoints f) now limit) f in
  match sendCandidates now limit f with
  | Some (hs, f') => r = (Some hs, f')
  | None => r.1 = None
  end.
Proof.
  destruct f as [eps0 rot]. unfold send_steps, sendCandidates. cbn [endpoints rotation].
  rewrite length_fmap. cbv zeta. rewrite run_bind.
  pose proof (score_each_run now false [] eps0 rot) as Hfirst. cbn [app length] in Hfirst. rewrite Hfirst.
  cbv zeta. change (if false then clear_cooldown else id) with (@id rpcEndpoint).
  pose proof (score_all_fixed id now 0 eps0 (fun _ => eq_refl)) as Hfix1.
  destruct (score_all id now 0 eps0) as [eps1 cs1] eqn:Hs1. cbn [fst] in Hfix1.
  assert (length eps1 = length eps0) as Hlen
    by (apply (f_equal length) in Hfix1; by rewrite !length_fmap in Hfix1).
  rewrite run_bind.
  assert (run handle_fleet (if (length cs1 =? 0)%nat then score_each now true 0 (length eps0) else Ret cs1)
            {| endpoints := eps1; rotation := rot |} =
          let (eps, cs) := if (length cs1 =? 0)%nat then score_all clear_cooldown now 0 eps1 else (eps1, cs1) in
          (cs, {| endpoints := eps; rotation := rot |})) as Hsecond.
  { destruct (length cs1 =? 0)%nat; [|done]. pose proof (score_each_run now true [] eps1 rot) as Hr.
    cbn [app length] in Hr. by rewrite <- Hlen. }
  rewrite Hsecond. clear Hsecond Hfirst.
  assert (handle_of <$> (if (length cs1 =? 0)%nat then score_all clear_cooldown now 0 eps1
                         else (eps1, cs1)).1 = handle_of <$> eps0) as Hfix2.
  { destruct (length cs1 =? 0)%nat; [|done]. by rewrite score_all_fixed. }
  destruct (if (length cs1 =? 0)%nat then _ else _) as [eps cs]. cbn [fst] in Hfix2.
  rewrite run_bind. set (best := exchange_sort (length cs) cs).
  set (rotates := (1 <? Nat.min (length best) 2)%nat).
  assert (run handle_fleet (if rotates then perform FRotate else Ret 0) {| endpoints := eps; rotation := rot |} =
          (if rotates then rot else 0,
           {| endpoints := eps; rotation := if rotates then u64 (rot + 1) else rot |})) as ->
    by (by destruct rotates).
  assert (Fleet.rotate (if rotates then rot else 0) best = Fleet.rotate rot best) as ->.
  { unfold Fleet.rotate. fold rotates. by destruct rotates. }
  destruct (Fleet.rotate rot best) as [chosen|]; [|done]. rewrite run_bind.
  rewrite reserve_each_run by done. by destruct (take_candidates now eps _).
Qed.

(** ** Goroutines down to these steps *)

Inductive fine_op : Type -> Type :=
| Whole {X} (e : serve_op X) : fine_op X
| OnFleet {X} (op : fleet_op X) : fine_op X
(** [now := time.Now()] *)
| ReadNow : fine_op Time
(** [sendCandidates] returns to its caller, with these. *)
| Offered (limit : Z) (hs : option (list rpcHandle)) : fine_op unit.

Definition lower_fleet_op (fixed : list rpcHandle) (X : Type) (e : serve_op X) : prog fine_op X :=
  match e with
  | OnSecurity op => perform (Whole (OnSecurity op))
  | OnService e =>
      match e in eff X return prog fine_op X with
      | EFleetSend limit =>
          now ← perform ReadNow;
          hs ← translate (@OnFleet) (send_steps fixed now limit);
          _ ← perform (Offered limit hs);
          Ret hs
      | e => perform (Whole (OnService e))
      end
  end.

Definition lower_fleet fixed {A} : prog serve_op A -> prog fine_op A := interp (lower_fleet_op fixed).

(** The operations of the service in a history of steps. *)
Definition fine_event (ev : event fine_op) : option (event serve_op) :=
  match ev with
  | @Event _ _ (Whole e) x =>
      match e with OnService (EFleetSend _) => None | _ => Some (Event e x) end
  | @Event _ _ (Offered limit hs) _ => Some (Event (OnService (EFleetSend limit)) hs)
  | _ => None
  end.

Definition fine_possible (X : Type) (e : fine_op X) : X -> Prop :=
  match e in fine_op X return X -> Prop with
  | Whole e => serve_possible _ e
  | _ => fun _ => True
  end.

Abbreviation any_step := (fun (X : Type) (_ : fleet_op X) (_ : X) => True).

(** Whatever the steps are answered, two endpoints at most are offered. *)
Lemma reserve_each_length fixed now cs h :
  obeys any_step (fun _ => True) (fun _ hs => (length hs <= length cs)%nat) h (reserve_each fixed now cs).
Proof.
  revert h. induction cs as [|[i x] cs IH]; intros h; cbn [reserve_each]; [by split|].
  destruct (fixed !! i) as [hd|].
  - apply obeys_op; [done|]. intros u _. apply obeys_bind. eapply obeys_mono, IH.
    intros h' hs _ Hlen. apply obeys_ret; [done|]. cbn in *. lia.
  - eapply obeys_mono, IH. cbn. lia.
Qed.

Lemma send_steps_length fixed now limit h :
  obeys any_step (fun _ => True)
    (fun _ hs => match hs with Some hs => (length hs <= 2)%nat | None => True end) h
    (send_steps fixed now limit).
Proof.
  assert (forall {A} h (p : prog fleet_op A),
    obeys any_step (fun _ => True) (fun _ _ => True) h p) as Hany by (intros; by apply obeys_always).
  unfold send_steps. apply obeys_bind. eapply obeys_mono, Hany. intros h1 cs1 _ _.
  apply obeys_bind. eapply obeys_mono, Hany. intros h2 cs _ _. cbv zeta.
  apply obeys_bind. eapply obeys_mono, Hany. intros h3 count _ _.
  destruct (Fleet.rotate count _) as [best|] eqn:Hrot; [|by split].
  apply rotate_perm, Permutation_length in Hrot. rewrite length_take in Hrot.
  apply obeys_bind. eapply obeys_mono, reserve_each_length. intros h4 hs _ Hlen.
  apply obeys_ret; [done|]. cbn in Hlen |- *. rewrite length_take in Hlen. lia.
Qed.

Lemma fleet_steps_hidden fixed now limit h :
  obeys fine_possible (fun h' => past fine_event h' = past fine_event h)
    (fun h' hs => past fine_event h' = past fine_event h /\ possible (EFleetSend limit) hs) h
    (translate (@OnFleet) (send_steps fixed now limit)).
Proof.
  pose proof (send_steps_length fixed now limit []) as Hlen. revert Hlen.
  generalize (send_steps fixed now limit) as p. intros p Hp.
  enough (forall h1 h0, past fine_event h0 = past fine_event h ->
    obeys any_step (fun _ => True)
      (fun _ hs => match hs with Some hs => (length hs <= 2)%nat | None => True end) h1 p ->
    obeys fine_possible (fun h' => past fine_event h' = past fine_event h)
      (fun h' hs => past fine_event h' = past fine_event h /\ possible (EFleetSend limit) hs) h0
      (translate (@OnFleet) p)) as Hall by by eapply Hall.
  clear Hp. induction p as [hs|X op k IH]; intros h1 h0 Hh; cbn.
  - by intros [_ ?].
  - intros [_ Hk]. split; [done|]. intros x _. eapply IH; [|by apply Hk]. by rewrite past_silent.
Qed.

(** A call shows at its own moment, once, with its answer. *)
Lemma lower_fleet_traced fixed : traced serve_possible fine_possible fine_event (lower_fleet_op fixed).
Proof.
  assert (forall X (e : serve_op X) h,
    (forall x, fine_event (Event (Whole e) x) = Some (Event e x)) ->
    obeys fine_possible (fun h' => past fine_event h' = past fine_event h \/
        exists x, serve_possible X e x /\ past fine_event h' = (past fine_event h ++ [Event e x])%list)
      (fun h' x => serve_possible X e x /\ past fine_event h' = (past fine_event h ++ [Event e x])%list) h
      (perform (Whole e))) as Hone.
  { intros X e h Hshow. split; [by left|]. intros x Hx.
    assert (past fine_event (h ++ [Event (Whole e) x]) = (past fine_event h ++ [Event e x])%list) as Hp
      by (by apply past_visible).
    split; [right; by exists x|done]. }
  intros X [Y op|Y e] h; cbn [lower_fleet_op]; [by apply Hone|].
  destruct e as [|Y e|Y e|limit| | | | | | | | |]; try (by apply Hone).
  apply obeys_op; [by left|]. intros now _. apply obeys_bind.
  eapply obeys_weaken, obeys_mono, fleet_steps_hidden.
  - intros h' Hh. left. by rewrite Hh, past_silent.
  - intros h' hs _ [Hh Hhs]. rewrite past_silent in Hh by done.
    split; [by left|]. intros u _.
    assert (past fine_event (h' ++ [Event (Offered limit hs) u]) =
              (past fine_event h ++ [Event (OnService (EFleetSend limit)) hs])%list) as Hp
      by (rewrite <- Hh; by apply past_visible).
    split; [right; by exists hs|done].
Qed.

Section Fine.
Context `{GoUnicode, Geth, GoText} {SN S : Type} `{NonceStore SN, SignerStore S}.
Variable clock : nat -> Time.
Variable entropy : nat -> option (list Z).
Variable env : environment.
Variable fixed : list rpcHandle.

Abbreviation fine_state := (sec_world SN * world S)%type.

Definition handle_fine (X : Type) (e : fine_op X) (w : fine_state) : X * fine_state :=
  match e in fine_op X return X * fine_state with
  | Whole e => handle_serve clock entropy env _ e w
  | OnFleet op => let (x, f) := handle_fleet _ op (w_fleet w.2) in (x, (w.1, set_fleet f w.2))
  | ReadNow => (now env w.2, w)
  | Offered _ _ => (tt, (w.1, tick w.2))
  end.

Lemma handle_fine_possible X (e : fine_op X) w : fine_possible X e (handle_fine X e w).1.
Proof. destruct e; try done. apply handle_serve_possible. Qed.

Lemma run_on_fleet {A} (p : prog fleet_op A) (w : fine_state) :
  run handle_fine (translate (@OnFleet) p) w =
    let (a, f) := run handle_fleet p (w_fleet w.2) in (a, (w.1, set_fleet f w.2)).
Proof.
  revert w. induction p as [a|X op k IH]; intros [sw w]; [by destruct w|]. cbn.
  destruct (handle_fleet X op (w_fleet w)) as [x f]. rewrite IH. cbn. by destruct (run _ (k x) f).
Qed.

(** A call that no other comes between does what it did as one operation, unless it
    panics. *)
Lemma run_lower_send limit (w : fine_state) :
  fixed = handle_of <$> endpoints (w_fleet w.2) ->
  is_Some (sendCandidates (now env w.2) limit (w_fleet w.2)) ->
  run handle_fine (lower_fleet_op fixed _ (OnService (EFleetSend limit))) w =
    handle_serve clock entropy env _ (OnService (EFleetSend limit)) w.
Proof.
  intros Hfixed [[hs f] Hsend]. cbn [lower_fleet_op]. rewrite run_bind, run_perform. cbn [handle_fine].
  rewrite run_bind, run_on_fleet, Hfixed. pose proof (send_steps_run (now env w.2) limit (w_fleet w.2)) as Hrun.
  rewrite Hsend in Hrun. cbv zeta in Hrun. rewrite Hrun. cbn. by rewrite Hsend.
Qed.

Definition fine_start sv (gs : list goroutine) : list (prog fine_op served * list (event fine_op)) :=
  (fun g => (lower_fleet fixed (goroutine_prog sv g), [])) <$> gs.

(** What holds of every goroutine of the service, whatever it is answered, holds of
    what these have seen. *)
Lemma fine_histories (J : goroutine -> list (event serve_op) -> Prop) sv gs w c' :
  (forall g, serve_obeys (J g) (fun _ _ => True) [] (goroutine_prog sv g)) ->
  rtc (history_step handle_fine) (fine_start sv gs, w) c' ->
  Forall2 (fun g t => J g (past fine_event t.2)) gs c'.1.
Proof.
  intros HJ Hsteps.
  assert (Forall2 (fun g t => obeys fine_possible (fun h => J g (past fine_event h)) (fun _ _ => True) t.2 t.1)
            gs (fine_start sv gs)) as Hstart.
  { apply Forall2_fmap_r, Forall_Forall2_diag, Forall_forall. intros g _.
    apply (obeys_interp serve_possible fine_possible fine_event _ (J g) (fun _ _ => True) []
             (goroutine_prog sv g) (lower_fleet_traced fixed)), HJ. }
  eapply (histories_obey _ _ (fun g h => J g (past fine_event h)) (fun _ _ _ => True) gs _ c'
            handle_fine_possible Hsteps) in Hstart.
  eapply Forall2_impl; [exact Hstart|]. intros g t Ht. by apply obeys_now in Ht.
Qed.

(** The authorisation of every broadcast, for one. *)
Lemma fine_broadcasts_authorised sv gs w c' :
  opt_RequireHMAC (m_options (sv_middleware sv)) = true ->
  opt_RequireNonce (m_options (sv_middleware sv)) = true ->
  rtc (history_step handle_fine) (fine_start sv gs, w) c' ->
  Forall2 (fun g t => Forall (goroutine_authorised sv g (past fine_event t.2))
                        (serve_sends (past fine_event t.2)).*1) gs c'.1.
Proof.
  intros Hh Hn. apply (fine_histories (fun g h => Forall (goroutine_authorised sv g h) (serve_sends h).*1)).
  intros g. by apply goroutine_obeys.
Qed.
End Fine.

(** ** What the endpoints count

    [n]: how many failures of each kind were recorded for the endpoint. *)
Abbreviation kinds := (rpcFailureKind -> Z).

Record counted (n : kinds) (st : rpcEndpointState) : Prop := {
  counted_failures : 0 <= failures st <=
    n rpcFailureRemote + n rpcFailureTimeout + n rpcFailureRateLimited +
    n rpcFailureCapacityExhausted + n rpcFailureTransport;
  counted_timeouts : 0 <= timeoutFailures st <= n rpcFailureTimeout;
  counted_limits : 0 <= rateLimitFailures st <= n rpcFailureRateLimited + 10 * n rpcFailureCapacityExhausted;
  counted_disabled : disabled st = true <-> 0 < n rpcFailureCapacityExhausted;
}.

Lemma subtractUint32_le v a : 0 <= v -> 0 <= a -> 0 <= subtractUint32 v a <= v.
Proof. unfold subtractUint32. destruct (Z.ltb_spec v a); lia. Qed.

Lemma u32_succ_le v d : 0 <= v -> 0 <= d -> 0 <= u32 (v + d) <= v + d.
Proof.
  intros Hv Hd. pose proof (wrap_u_range 32 (v + d) ltac:(lia)). unfold wrap_u in *.
  pose proof (Z.mod_le (v + d) (2 ^ 32) ltac:(lia) ltac:(lia)). lia.
Qed.

Section Counted.
Variable n : kinds.
Abbreviation counted := (counted n).

Lemma prune_counted now st : counted st -> counted (prune now st).
Proof. by intros []. Qed.

Lemma decay_counted now st : counted st -> counted (decay now st).
Proof.
  intros [Hf Ht Hl Hd]. unfold decay. destruct (IsZero _); [by split|]. cbv zeta.
  destruct (_ =? 0); [by split|].
  assert (forall z, 0 <= u32 z) as Hpos by (intros z; apply (wrap_u_range 32); lia).
  split; cbn; [..|done].
  - pose proof (subtractUint32_le (failures st) _ (proj1 Hf) (Hpos (u32 (time_Sub now (lastFailureDecay st) ÷ rpcFailureDecay) * 2))). lia.
  - pose proof (subtractUint32_le (timeoutFailures st) _ (proj1 Ht) (Hpos (u32 (time_Sub now (lastFailureDecay st) ÷ rpcFailureDecay) * 2))). lia.
  - pose proof (subtractUint32_le (rateLimitFailures st) _ (proj1 Hl) (Hpos (u32 (time_Sub now (lastFailureDecay st) ÷ rpcFailureDecay) * 4))). lia.
Qed.
Hint Resolve prune_counted decay_counted : core.

Lemma set_cooldown_counted t st : counted st -> counted (set_cooldown t st).
Proof. by intros []. Qed.
Hint Resolve set_cooldown_counted : core.

Lemma score_counted now ep : counted (ep_state ep) -> counted (ep_state (score now ep).2).
Proof. cbn. auto. Qed.

Lemma reserve_counted now ep : counted (ep_state ep) -> counted (ep_state (reserve now ep)).
Proof.
  intros Hst. unfold reserve. cbv zeta. cbn [ep_state set_state].
  assert (counted (set_reservations (recentReservations (prune now (ep_state ep)) ++
            [{| rs_at := now; rs_units := rpcSendBurstCost |}])%list now (prune now (ep_state ep))))
    as Hres by by destruct (prune_counted now _ Hst).
  destruct (_ <=? _); auto.
Qed.

Lemma record_success_counted now latency st : counted st -> counted (record_success now latency st).
Proof.
  intros Hst. unfold record_success. cbv zeta.
  set (st0 := decay now (prune now st)). assert (counted st0) as [] by (unfold st0; auto).
  assert (forall c k, 0 <= c <= k -> 0 <= (if 0 <? c then c - 1 else c) <= k) as Hdec
    by (intros c k ?; destruct (Z.ltb_spec 0 c); lia).
  match goal with |- context [set_counts ?a ?b ?c ?s] =>
    assert (counted (set_counts a b c s)) as Hset by (split; cbn; auto) end.
  destruct (negb _ && _); auto.
Qed.
End Counted.

Definition same_kind (k k' : rpcFailureKind) : bool :=
  match k, k' with
  | rpcFailureRemote, rpcFailureRemote | rpcFailureTimeout, rpcFailureTimeout
  | rpcFailureRateLimited, rpcFailureRateLimited
  | rpcFailureCapacityExhausted, rpcFailureCapacityExhausted
  | rpcFailureTransport, rpcFailureTransport => true
  | _, _ => false
  end.

(** One more failure of a kind. *)
Definition one_more (kind : rpcFailureKind) (n : kinds) : kinds :=
  fun kind' => n kind' + (if same_kind kind kind' then 1 else 0).

Lemma record_failure_counted n now kind st :
  (forall k, 0 <= n k) -> counted n st -> counted (one_more kind n) (record_failure now kind st).
Proof.
  intros Hn Hst. unfold record_failure. cbv zeta.
  set (st0 := decay now (prune now st)).
  assert (counted n st0) as [Hf Ht Hl Hd] by (unfold st0; by apply decay_counted, prune_counted).
  set (st1 := set_counts (u32 (failures st0 + 1)) _ _ st0).
  destruct (failure_kind kind st1) as [st2 cooldown] eqn:Hkind.
  assert (counted (one_more kind n) st2).
  { pose proof (Hn rpcFailureCapacityExhausted). unfold one_more.
    pose proof (u32_succ_le (failures st0) 1 ltac:(lia) ltac:(lia)).
    destruct kind; injection Hkind as <- _; split; cbn; rewrite ?Hd; try lia;
      try (split; [lia|done]).
    - pose proof (u32_succ_le (timeoutFailures st0) 1 ltac:(lia) ltac:(lia)). lia.
    - pose proof (u32_succ_le (rateLimitFailures st0) 1 ltac:(lia) ltac:(lia)). lia.
    - pose proof (u32_succ_le (rateLimitFailures st0) 10 ltac:(lia) ltac:(lia)). lia. }
  destruct (Before _ _); [by apply set_cooldown_counted|done].
Qed.

(** ** Under any interleaving *)

Definition is_failure (id : Z) (kind : rpcFailureKind) (ev : event fine_op) : bool :=
  match ev with
  | @Event _ _ (Whole e) _ =>
      match e with OnService (EFleetFailure id' k) => (id' =? id) && same_kind k kind | _ => false end
  | _ => false
  end.

(** How many failures of each kind the goroutines have recorded for the endpoint. *)
Definition recorded (id : Z) (l : list (event fine_op)) : kinds :=
  fun kind => Z.of_nat (length (List.filter (is_failure id kind) l)).

Lemma recorded_perm id l l' kind : l ≡ₚ l' -> recorded id l kind = recorded id l' kind.
Proof. intros Hl. unfold recorded. by rewrite (filter_bool_perm _ _ _ Hl). Qed.

Lemma recorded_snoc id l ev kind :
  recorded id (l ++ [ev]) kind = recorded id l kind + (if is_failure id kind ev then 1 else 0).
Proof.
  unfold recorded. rewrite List.filter_app, length_app. cbn. destruct (is_failure id kind ev); cbn; lia.
Qed.

Lemma counted_ext n n' st : (forall k, n k = n' k) -> counted n st -> counted n' st.
Proof. intros Hn [Hf Ht Hl Hd]. split; by rewrite <- ?Hn. Qed.

Section Pool.
Variable fixed : list rpcHandle.
Hypothesis distinct : NoDup (h_id <$> fixed).

Definition fleet_counted (l : list (event fine_op)) (f : rpcFleet) : Prop :=
  handle_of <$> endpoints f = fixed /\
  Forall (fun ep => counted (recorded (ep_id ep) l) (ep_state ep)) (endpoints f).

(** A change of the state of one endpoint. *)
Lemma alter_counted l f i g :
  (forall ep, handle_of (g ep) = handle_of ep) ->
  (forall n ep, counted n (ep_state ep) -> counted n (ep_state (g ep))) ->
  fleet_counted l f -> fleet_counted l (with_endpoints f (alter g i (endpoints f))).
Proof.
  intros Hsame Hg [Hfixed Hall]. split; cbn.
  - rewrite <- Hfixed. apply list_eq. intros j. rewrite !list_lookup_fmap.
    destruct (decide (i = j)) as [<-|Hne]; [|by rewrite list_lookup_alter_ne].
    rewrite list_lookup_alter_eq. destruct (endpoints f !! i); cbn; [by rewrite Hsame|done].
  - apply Forall_alter; [done|]. intros ep _ Hep. specialize (Hsame ep). apply (f_equal h_id) in Hsame.
    cbn in Hsame. rewrite Hsame. by apply Hg.
Qed.

Lemma fleet_op_counted l X (op : fleet_op X) f : fleet_counted l f -> fleet_counted l (handle_fleet X op f).2.
Proof.
  intros Hf. destruct op as [now i|i| |now i]; cbn.
  - destruct (endpoints f !! i) as [ep|] eqn:Hi; [|done].
    enough (<[i := (score now ep).2]> (endpoints f) = alter (fun ep => (score now ep).2) i (endpoints f))
      as Halter.
    { cbn. change (fleet_counted l (with_endpoints f (<[i := (score now ep).2]> (endpoints f)))).
      rewrite Halter. apply alter_counted; [done| |done]. intros n ep'. apply score_counted. }
    apply list_eq. intros j. destruct (decide (i = j)) as [<-|Hne].
    + rewrite list_lookup_alter_eq, Hi. apply list_lookup_insert_eq. by eapply lookup_lt_Some.
    + by rewrite list_lookup_insert_ne, list_lookup_alter_ne.
  - apply alter_counted; [done| |done]. intros n ep. apply set_cooldown_counted.
  - destruct Hf. by split.
  - apply alter_counted; [done| |done]. intros n ep. apply reserve_counted.
Qed.

Lemma send_counted l now limit f hs f' :
  sendCandidates now limit f = Some (hs, f') -> fleet_counted l f -> fleet_counted l f'.
Proof.
  intros Hsend Hf. pose proof (send_steps_run now limit f) as Hrun. rewrite Hsend in Hrun. cbv zeta in Hrun.
  pose proof (run_preserves handle_fleet (fleet_counted l) (fun X op f => fleet_op_counted l X op f) _
                (send_steps (handle_of <$> endpoints f) now limit) f Hf) as Hp.
  by rewrite Hrun in Hp.
Qed.

(** [f.endpoint(id)] finds the one endpoint with the id. *)
Lemma update_endpoint_fmap id g eps :
  NoDup (ep_id <$> eps) ->
  update_endpoint id g eps =
    (fun ep => if ep_id ep =? id then set_state (g (ep_state ep)) ep else ep) <$> eps.
Proof.
  induction eps as [|ep eps IH]; cbn; [done|]. intros [Hnot Hnd]%NoDup_cons.
  destruct (Z.eqb_spec (ep_id ep) id) as [<-|Hne]; [|by rewrite IH]. f_equal.
  rewrite <- (list_fmap_id eps) at 1. apply Forall_fmap_ext_1, Forall_forall. intros ep' Hin.
  destruct (Z.eqb_spec (ep_id ep') (ep_id ep)) as [Heq|]; [|done].
  destruct Hnot. rewrite <- Heq. by apply list_elem_of_fmap_2.
Qed.

Lemma update_counted l l' f id g :
  (forall ep, ep_id ep = id -> counted (recorded id l) (ep_state ep) ->
              counted (recorded id l') (g (ep_state ep))) ->
  (forall id' kind, id' <> id -> recorded id' l' kind = recorded id' l kind) ->
  fleet_counted l f -> fleet_counted l' (with_endpoints f (update_endpoint id g (endpoints f))).
Proof.
  intros Hg Hother [Hfixed Hall].
  assert (NoDup (ep_id <$> endpoints f)) as Hnd
    by (rewrite <- Hfixed, <- list_fmap_compose in distinct; exact distinct).
  unfold fleet_counted. cbn [endpoints with_endpoints]. rewrite update_endpoint_fmap by done. split.
  - rewrite <- Hfixed, <- list_fmap_compose. apply list_fmap_ext. intros i ep _. cbn.
    by destruct (ep_id ep =? id).
  - apply Forall_fmap. eapply Forall_impl; [exact Hall|]. intros ep Hep. cbn.
    destruct (Z.eqb_spec (ep_id ep) id) as [Heq|Hne]; cbn.
    + rewrite Heq. apply Hg; [done|]. by rewrite <- Heq.
    + eapply counted_ext, Hep. intros kind. by rewrite Hother.
Qed.

Lemma recorded_other l ev f :
  (forall id kind, is_failure id kind ev = false) -> fleet_counted l f -> fleet_counted (l ++ [ev]) f.
Proof.
  intros Hev [Hfixed Hall]. split; [done|]. eapply Forall_impl; [exact Hall|]. intros ep Hep.
  eapply counted_ext, Hep. intros kind. rewrite recorded_snoc, Hev. lia.
Qed.

Section Service.
Context `{GoUnicode, Geth, GoText} {SN S : Type} `{NonceStore SN, SignerStore S}.
Variable clock : nat -> Time.
Variable entropy : nat -> option (list Z).
Variable env : environment.
Abbreviation handle_fine := (handle_fine clock entropy env).

Lemma fine_step_counted l X (e : fine_op X) (w : sec_world SN * world S) :
  fleet_counted l (w_fleet w.2) ->
  fleet_counted (l ++ [Event e (handle_fine X e w).1]) (w_fleet (handle_fine X e w).2.2).
Proof.
  intros Hf. destruct e as [X [Y op|Y e]|X op| |limit hs]; cbn [FleetSteps.handle_fine handle_serve].
  - apply recorded_other; [done|]. by destruct (handle_sec clock entropy Y op w.1).
  - destruct e as [|Y e|Y e|limit|id latency|id kind| | | | | | |];
      try (apply recorded_other; [done|exact Hf]).
    + apply recorded_other; [done|]. cbn. by destruct (handle_store (the_call env w.2) Y e (w_store w.2)).
    + apply recorded_other; [done|]. cbn. by destruct e.
    + apply recorded_other; [done|]. cbn.
      destruct (sendCandidates (now env w.2) limit (w_fleet w.2)) as [[hs f]|] eqn:Hs; [|done].
      by eapply send_counted.
    + apply recorded_other; [done|]. cbn. apply (update_counted l); [|done|done].
      intros ep _. apply record_success_counted.
    + cbn. apply (update_counted l); [|intros id' k Hne|done].
      * intros ep _ Hep. eapply counted_ext, record_failure_counted, Hep; [|intros k; unfold recorded; lia].
        intros k. rewrite recorded_snoc. cbn. by rewrite Z.eqb_refl.
      * rewrite recorded_snoc. cbn. apply Z.eqb_neq in Hne. rewrite Z.eqb_sym, Hne. cbn. lia.
  - apply recorded_other; [done|]. pose proof (fleet_op_counted l X op (w_fleet w.2) Hf) as Hop.
    by destruct (handle_fleet X op (w_fleet w.2)).
  - by apply recorded_other.
  - by apply recorded_other.
Qed.

Lemma fine_steps_counted c c' :
  rtc (history_step (A:=served) handle_fine) c c' ->
  fleet_counted (concat c.1.*2) (w_fleet c.2.2) -> fleet_counted (concat c'.1.*2) (w_fleet c'.2.2).
Proof.
  induction 1 as [c|c c1 c' Hstep _ IH]; intros Hc; [done|]. apply IH. clear IH.
  destruct Hstep as [ts w i X e k h Hi]. cbn [fst snd] in *.
  destruct (fine_step_counted _ X e w Hc) as [Hfixed Hall]. split; [done|].
  eapply Forall_impl; [exact Hall|]. intros ep Hep. eapply counted_ext, Hep. intros kind.
  apply recorded_perm. rewrite list_fmap_insert. cbn [snd]. symmetry. apply concat_insert.
  by rewrite list_lookup_fmap, Hi.
Qed.
End Service.
End Pool.

Section NewFleet.
Context `{GoUnicode, Geth, GoText} {SN S : Type} `{NonceStore SN, SignerStore S}.
Variable clock : nat -> Time.
Variable entropy : nat -> option (list Z).
Variable env : environment.

(** C26: what an endpoint counts is backed by failures. Any number of requests,
    guards and monitors from a new fleet, interleaved between the locks of one
    choice of endpoints, with any clock, even one that runs backwards: no counter of
    an endpoint exceeds the failures that were recorded for it (so none has wrapped
    as long as they are fewer than [2 ^ 32], ten for each that is out of capacity),
    and it is disabled exactly if one of them was of its capacity. *)
Theorem fleet_counts_failures sv gs (sw : sec_world SN) (w : world S) c' t urls :
  w_fleet w = newRPCFleet t urls ->
  rtc (history_step (handle_fine clock entropy env))
    (fine_start (handle_of <$> endpoints (w_fleet w)) sv gs, (sw, w)) c' ->
  handle_of <$> endpoints (w_fleet c'.2.2) = handle_of <$> endpoints (w_fleet w) /\
  Forall (fun ep => counted (recorded (ep_id ep) (concat c'.1.*2)) (ep_state ep))
    (endpoints (w_fleet c'.2.2)).
Proof.
  intros Hw Hsteps. set (fixed := handle_of <$> endpoints (w_fleet w)) in *.
  refine (fine_steps_counted fixed _ clock entropy env _ _ Hsteps _).
  - destruct (newRPCFleet_typed t urls) as [_ Hids _ _ _]. rewrite <- Hw in Hids.
    unfold fixed. rewrite <- list_fmap_compose. apply NoDup_alt. intros i j x.
    rewrite !list_lookup_fmap. destruct (endpoints (w_fleet w) !! i) as [ep|] eqn:Hi; [|done].
    destruct (endpoints (w_fleet w) !! j) as [ep'|] eqn:Hj; [|done]. cbn. intros [= <-] [= Heq].
    apply Hids in Hi, Hj. lia.
  - split; [done|]. cbn [snd]. rewrite Hw.
    assert (concat (fine_start fixed sv gs, (sw, w)).1.*2 = []) as ->.
    { cbn. unfold fine_start. clear. induction gs; [done|exact IHgs]. }
    assert (counted (fun _ => 0) (new_state t)) as Hnew by (split; cbn; [lia..|]; split; [done|lia]).
    assert (forall eps, Forall (fun ep => counted (fun _ => 0) (ep_state ep)) eps ->
      Forall (fun ep => counted (fun _ => 0) (ep_state ep)) (add_endpoints t eps urls)) as Hadd.
    { clear -Hnew. induction urls as [|raw urls' IH]; intros eps Heps; cbn; [done|].
      destruct (_ || _); [by apply IH|]. apply IH, Forall_app. split; [done|].
      constructor; [exact Hnew|constructor]. }
    cbn. case_bool_decide; [|by apply Hadd; constructor]. by constructor; [|constructor].
Qed.
End NewFleet.

(** ** Closed run: two payments whose first broadcasts time out *)

#[local] Existing Instance ascii_unicode.
#[local] Existing Instance ref_geth.
#[local] Existing Instance example_text.
#[local] Existing Instance mem_store.
#[local] Existing Instance list_map_order.

Definition slow_first : environment :=
  example_environment [] (Ok []) (fun n => if (n <? 60)%nat then Err "timeout" else Ok tt).

(** The second payment chooses its endpoints between the steps of the first. *)
Definition choosing_at_once : list (prog fine_op served * list (event fine_op)) *
    (sec_world InMemoryNonceStore * world memorySignerStore) :=
  run_history (handle_fine second_clock example_entropy slow_first)
    (concat (replicate 90 [0; 1; 2; 3]%nat))
    (fine_start (handle_of <$> endpoints (w_fleet first_world)) example_service example_goroutines,
     (example_world, first_world)).

Lemma fleet_counts_failures_witness :
  handle_of <$> endpoints (w_fleet choosing_at_once.2.2) = handle_of <$> endpoints (w_fleet first_world) /\
  Forall (fun ep => counted (recorded (ep_id ep) (concat choosing_at_once.1.*2)) (ep_state ep))
    (endpoints (w_fleet choosing_at_once.2.2)).
Proof.
  refine (fleet_counts_failures second_clock example_entropy slow_first example_service
            example_goroutines example_world first_world choosing_at_once boot_time (RPCURLs example_config) eq_refl _).
  apply run_history_steps.
Defined.

(** The rotation gives them different endpoints first. *)
Example choosing_at_once_counts :
  (fun ep => (failures (ep_state ep), timeoutFailures (ep_state ep))) <$>
    endpoints (w_fleet choosing_at_once.2.2) = [(1, 1); (1, 1)].
Proof. vm_compute. reflexivity. Qed.
