(* ===== verification/FleetRanked.v ===== *)
(** * The endpoints offered are the best two, in an order that ranks them all.

    [sendCandidates] sorts by float penalties with [<], which orders nothing once a
    penalty is NaN. Here: the penalty of an endpoint whose counters are of their
    types ([FleetTyped]) is never NaN, whatever the clock reads, so the two that
    are handed out are at most every one that is not. *)
From S2P Require Export FloatValue FleetTyped.

(** ** Floats of bounded size *)

(** A float that is not negative and below [2 ^ n]. *)
Definition tame (n : Z) (x : f64) : Prop := f_real x = true /\ (fval x < pow2 n)%Q.

Lemma pow2_double n : (pow2 (n + 1) == 2 * pow2 n)%Q.
Proof. rewrite pow2_plus. change (pow2 1) with 2%Q. ring. Qed.

Lemma ulp1_half v : (0 <= v -> ulp1 * v <= (1 # 2) * v)%Q.
Proof. intros Hv. apply Qmult_le_compat_r; [discriminate|done]. Qed.

Lemma pow2_strict a b : a <= b -> (2 * pow2 a <= pow2 (b + 1))%Q.
Proof. intros Hab. rewrite pow2_double. pose proof (pow2_mono _ _ Hab). lra. Qed.

Lemma tame_of_Z n z : 0 <= z < 2 ^ n -> 0 <= n <= 53 -> tame n (f_of_Z z).
Proof.
  intros Hz Hn. assert (2 ^ n <= 2 ^ 53) by (apply Z.pow_le_mono_r; lia).
  destruct (f_of_Z_spec z) as [Hreal Hval]; [lia|]. split; [done|].
  rewrite Hval, pow2_Z, <- Zlt_Qlt by lia. lia.
Qed.

(** A rounding stays below twice the value. *)
Lemma tame_rounded n v x :
  f_real x = true -> (0 <= v)%Q -> (v < pow2 n)%Q -> (Qabs (fval x - v) <= ulp1 * v)%Q ->
  tame (n + 1) x.
Proof.
  intros Hx Hv Hn [_ Herr]%Qabs_Qle_condition. split; [done|]. rewrite pow2_double.
  pose proof (ulp1_half v Hv). lra.
Qed.

Lemma tame_add n x y : n <= 800 -> tame n x -> tame n y -> tame (n + 2) (fadd x y).
Proof.
  intros Hn [Hx Hxn] [Hy Hyn]. pose proof (fval_nonneg _ Hx). pose proof (fval_nonneg _ Hy).
  pose proof (pow2_double n). pose proof (pow2_mono (n + 1) 900 ltac:(lia)).
  destruct (fadd_spec x y Hx Hy) as [Hreal Herr]; [lra|].
  replace (n + 2) with (n + 1 + 1) by lia.
  apply (tame_rounded _ (fval x + fval y)); [done|lra|lra|done].
Qed.

Lemma tame_sub n x y : n <= 800 -> tame n x -> tame n y -> fleb y x = true -> tame (n + 1) (fsub x y).
Proof.
  intros Hn [Hx Hxn] [Hy Hyn] Hle%fleb_spec; [|done..]. pose proof (fval_nonneg _ Hy).
  pose proof (pow2_mono n 900 ltac:(lia)).
  destruct (fsub_spec x y Hx Hy) as [Hreal Herr]; [lra|lra|].
  apply (tame_rounded _ (fval x - fval y)); [done|lra|lra|done].
Qed.

Lemma tame_mul n m x y :
  0 <= n + m <= 800 -> tame n x -> tame m y -> tame (n + m + 1) (fmul x y).
Proof.
  intros Hn [Hx Hxn] [Hy Hym]. pose proof (fval_nonneg _ Hx) as H0x. pose proof (fval_nonneg _ Hy) as H0y.
  assert (fval x * fval y < pow2 (n + m))%Q as Hprod.
  { rewrite pow2_plus. apply Qmult_lt_compat_nonneg; split; done. }
  pose proof (pow2_mono (n + m) 900 ltac:(lia)).
  destruct (fmul_spec x y Hx Hy) as [Hreal [_ Herr]%Qabs_Qle_condition]; [lra|]. split; [done|].
  rewrite pow2_double. assert (0 <= fval x * fval y)%Q as H0 by (by apply Qmult_le_0_compat).
  assert (tiny <= (1 # 4) * pow2 0)%Q as Htiny by discriminate.
  pose proof (pow2_mono 0 (n + m) ltac:(lia)).
  assert (ulp1 * (fval x * fval y) <= (1 # 2) * (fval x * fval y))%Q by (by apply ulp1_half).
  lra.
Qed.

Lemma tame_weaken n m x : n <= m -> tame n x -> tame m x.
Proof. intros Hnm%pow2_mono [Hx Hn]. split; [done|]. lra. Qed.

(** ** Floats of either sign *)

Definition f_finite (x : f64) : bool :=
  match x with S754_zero _ | S754_finite _ _ _ => true | _ => false end.

Lemma f_real_finite_float x : f_real x = true -> f_finite x = true.
Proof. destruct x as [| | |[]]; done. Qed.

Lemma round_aux_opp s m e l :
  binary_round_aux 53 1024 (negb s) m e l = SFopp (binary_round_aux 53 1024 s m e l).
Proof. unfold binary_round_aux. by repeat case_match. Qed.

Lemma f_of_Z_opp p : f_of_Z (Zneg p) = SFopp (f_of_Z (Zpos p)).
Proof.
  unfold f_of_Z, binary_normalize, binary_round. destruct (shl_align _ _ _).
  apply (round_aux_opp false).
Qed.

Lemma fmul_opp x y : fmul (SFopp x) y = SFopp (fmul x y).
Proof.
  destruct x as [s|s| |s m e], y as [s'|s'| |s' m' e']; cbn;
    rewrite <- ?negb_xorb_l; try done. apply round_aux_opp.
Qed.

Lemma f_finite_opp x : f_finite (SFopp x) = f_finite x.
Proof. by destruct x. Qed.

Lemma scaled_finite z y n m :
  - 2 ^ n < z < 2 ^ n -> 0 <= n <= 53 -> 0 <= m <= 700 -> tame m y ->
  f_finite (fmul (f_of_Z z) y) = true.
Proof.
  intros Hz Hn Hm Hy.
  assert (forall z, 0 <= z < 2 ^ n -> f_finite (fmul (f_of_Z z) y) = true) as Hpos.
  { intros z' Hz'. apply f_real_finite_float.
    apply (tame_mul n m); [lia|by apply tame_of_Z|done]. }
  destruct z as [|p|p]; [apply Hpos; lia|apply Hpos; lia|].
  rewrite f_of_Z_opp, fmul_opp, f_finite_opp. apply Hpos. lia.
Qed.

Lemma binary_normalize_not_nan m e : is_nan (binary_normalize 53 1024 m e false) = false.
Proof.
  destruct m as [|p|p]; [done| |]; cbn; unfold binary_round; destruct (shl_align _ _ _) as [m' e'].
  - apply f_nonneg_not_nan. by apply binary_round_aux_nonneg.
  - rewrite (round_aux_opp false). pose proof (binary_round_aux_nonneg (Zpos m') e' loc_Exact ltac:(lia)) as H.
    apply f_nonneg_not_nan in H. by destruct (binary_round_aux _ _ _ _ _ _).
Qed.

Lemma fadd_not_nan x y : f_finite x = true -> f_finite y = true -> is_nan (fadd x y) = false.
Proof.
  destruct x as [[]| | |s m e], y as [[]| | |s' m' e']; try done. intros _ _.
  apply binary_normalize_not_nan.
Qed.

(** ** The penalty *)

Lemma burstLoad_is_u32 now st : is_u32 (burstLoad now st).
Proof.
  unfold burstLoad. assert (is_u32 0) as H0 by done. revert H0. generalize 0.
  induction (recentReservations st) as [|item l IH]; intros total Ht; cbn; [done|].
  apply IH. case_match; [apply u32_is_u32|done].
Qed.

Lemma Milliseconds_bounds d : is_i64 d -> - 2 ^ 44 < Milliseconds d < 2 ^ 44.
Proof.
  unfold is_i64, Milliseconds, Millisecond, min_i64, max_i64. intros Hd.
  pose proof (Z.quot_rem' d (10 ^ 6)). pose proof (Z.rem_bound_abs d (10 ^ 6) ltac:(lia)). lia.
Qed.

Definition burst_ratio (now : Time) (st : rpcEndpointState) : f64 :=
  fdiv (f_of_Z (burstLoad now st)) (f_of_Z rpcBurstCapacity).

Lemma burst_ratio_tame now st : tame 33 (burst_ratio now st).
Proof.
  unfold burst_ratio. pose proof (burstLoad_is_u32 now st) as [Hlo Hhi].
  set (z := burstLoad now st) in *. change rpcBurstCapacity with 18.
  destruct (Z.eq_dec z 0) as [->|Hz]; [split; [done|reflexivity]|].
  destruct (f_of_Z_spec z) as [Hr Hv]; [lia|]. destruct (f_of_Z_spec 18) as [H18 H18v]; [lia|].
  assert (1 <= inject_Z z)%Q by (change 1%Q with (inject_Z 1); rewrite <- Zle_Qle; lia).
  assert (inject_Z z < pow2 32)%Q by (rewrite pow2_Z, <- Zlt_Qlt; lia).
  pose proof (pow2_mono 32 900 ltac:(lia)).
  assert (inject_Z z / inject_Z 18 < pow2 32)%Q as Hq.
  { apply Qlt_shift_div_r; [done|]. change (inject_Z 18) with 18%Q. pose proof (pow2_pos 32). lra. }
  assert (0 <= inject_Z z / inject_Z 18)%Q as Hq0 by (apply Qle_shift_div_l; [done|lra]).
  destruct (fdiv_spec (f_of_Z z) (f_of_Z 18) Hr H18) as [Hreal [_ Herr]%Qabs_Qle_condition];
    rewrite ?H18v, ?Hv in *; [done| |lra|].
  - assert (pow2 (-1000) * inject_Z 18 <= 1)%Q by discriminate. lra.
  - split; [done|]. rewrite (pow2_double 32). pose proof (ulp1_half _ Hq0).
    assert (tiny <= (1 # 4) * pow2 32)%Q by discriminate. lra.
Qed.

#[local] Hint Extern 1 (tame _ (f_of_Z _)) => apply tame_of_Z; lia : core.

Definition burst_penalty (ratio : f64) : f64 :=
  if fleb (f_of_Z 1) ratio
  then fadd (f_of_Z 25000) (fmul (fsub ratio (f_of_Z 1)) (f_of_Z 8000))
  else fmul (fmul ratio ratio) (f_of_Z 2200).

Lemma burst_penalty_tame ratio : tame 33 ratio -> tame 80 (burst_penalty ratio).
Proof.
  intros Hr. unfold burst_penalty. destruct (fleb (f_of_Z 1) ratio) eqn:Hle.
  - assert (tame 34 (fsub ratio (f_of_Z 1))) as Hs
      by (apply (tame_sub 33); [lia|done|apply tame_of_Z; lia|done]).
    assert (tame 48 (fmul (fsub ratio (f_of_Z 1)) (f_of_Z 8000))) as Hm
      by (apply (tame_mul 34 13); [lia|done|apply tame_of_Z; lia]).
    apply (tame_weaken 50); [lia|]. apply (tame_add 48); [lia|apply (tame_weaken 15); [lia|apply tame_of_Z; lia]|done].
  - assert (tame 67 (fmul ratio ratio)) as Hm by (apply (tame_mul 33 33); [lia|done|done]).
    apply (tame_mul 67 12); [lia|done|apply tame_of_Z; lia].
Qed.

Lemma penalty_not_nan now st : state_typed st -> is_nan (penalty now st) = false.
Proof.
  intros [Hf _ Hl Hlat _ _]. unfold penalty. cbv zeta.
  change (fdiv (f_of_Z (burstLoad now st)) (f_of_Z rpcBurstCapacity)) with (burst_ratio now st).
  change (if fleb (f_of_Z 1) (burst_ratio now st) then _ else _) with (burst_penalty (burst_ratio now st)).
  pose proof (burst_penalty_tame _ (burst_ratio_tame now st)) as Hburst.
  apply fadd_not_nan.
  - apply f_real_finite_float.
    assert (tame 44 (if 0 <? avgLatency st then f_of_Z (Milliseconds (avgLatency st)) else f_of_Z 120)) as Hms.
    { pose proof (Milliseconds_bounds _ Hlat). destruct (Z.ltb_spec 0 (avgLatency st)).
      - apply tame_of_Z; [|lia]. split; [|lia]. apply Z.quot_pos; [lia|done].
      - apply (tame_weaken 7); [lia|apply tame_of_Z; lia]. }
    assert (tame 44 (fmul (f_of_Z (failures st)) (f_of_Z 180))) as Hfail.
    { apply (tame_weaken 41); [lia|]. apply (tame_mul 32 8); [lia|by apply tame_of_Z|apply tame_of_Z; lia]. }
    assert (tame 46 (fmul (f_of_Z (rateLimitFailures st)) (f_of_Z 900))) as Hrate.
    { apply (tame_weaken 43); [lia|]. apply (tame_mul 32 10); [lia|by apply tame_of_Z|apply tame_of_Z; lia]. }
    assert (tame 82 (fadd (fadd (fadd (if 0 <? avgLatency st then f_of_Z (Milliseconds (avgLatency st))
      else f_of_Z 120) (fmul (f_of_Z (failures st)) (f_of_Z 180)))
      (fmul (f_of_Z (rateLimitFailures st)) (f_of_Z 900))) (burst_penalty (burst_ratio now st)))) as [? _];
      [|done].
    apply (tame_add 80); [lia| |done]. apply (tame_weaken 48); [lia|].
    apply (tame_add 46); [lia| |done]. by apply (tame_add 44).
  - case_match; [|done]. eapply (scaled_finite _ _ 44 2); [|lia|lia|].
    + apply Milliseconds_bounds. unfold is_i64. apply i64_range.
    + split; [done|reflexivity].
Qed.

Lemma score_not_nan now ep x :
  state_typed (ep_state ep) -> (score now ep).1 = Some x -> is_nan x = false.
Proof.
  unfold score. cbv zeta. cbn [fst]. intros Hst. destruct (unavailable _ _); [done|].
  intros [= <-]. by apply penalty_not_nan, decay_typed, prune_typed.
Qed.

Lemma ranked_not_nan now f j x :
  fleet_typed f -> (j, x) ∈ (ranked now f).2 -> is_nan x = false.
Proof.
  intros [Hst _ _ _ _]. unfold ranked.
  pose proof (score_all_elem id now 0 (endpoints f)) as H1.
  pose proof (score_all_typed id now 0 (endpoints f) (fun _ H => H) Hst) as Hst1.
  destruct (score_all id now 0 (endpoints f)) as [eps1 cs1]. cbn in H1, Hst1.
  destruct (length cs1 =? 0)%nat.
  - intros (k & ep & _ & Hep & Hx)%score_all_elem. eapply score_not_nan; [|exact Hx].
    apply set_cooldown_typed. unfold all_typed in Hst1. rewrite Forall_lookup in Hst1. by eapply Hst1.
  - intros (k & ep & _ & Hep & Hx)%H1. eapply score_not_nan; [|exact Hx].
    rewrite Forall_lookup in Hst. by eapply Hst.
Qed.

(** C38: while the rotation counter is below [2^63] and an endpoint is enabled, one
    or two different enabled endpoints are offered, cooling down or not, and they are
    the best two by penalty, whatever the clock reads: each is at most every one left
    out, and no penalty is NaN, so the order ranks them all. A third endpoint is
    never offered, whatever [limit] is. *)
Theorem sendCandidates_best_two now limit f :
  fleet_typed f -> rotation f < 2 ^ 63 -> limit <= 0 \/ 2 <= limit ->
  (exists ep, ep ∈ endpoints f /\ is_disabled ep = false) ->
  exists hs f' best rest,
    sendCandidates now limit f = Some (hs, f') /\ (1 <= length hs <= 2)%nat /\ NoDup (h_id <$> hs) /\
    Forall (fun h => exists ep, ep ∈ endpoints f /\ ep_id ep = h_id h /\ is_disabled ep = false) hs /\
    (ranked now f).2 ≡ₚ best ++ rest /\
    length best = Nat.min 2 (length (ranked now f).2) /\
    (forall b r, b ∈ best -> r ∈ rest -> fleb b.2 r.2 = true) /\
    h_id <$> hs ≡ₚ (fun c => Z.of_nat c.1) <$> best.
Proof.
  intros Hf Hrot Hlimit Hep.
  destruct (sendCandidates_offers now limit f (typed_ids f Hf) Hrot) as (hs & f' & Hsend & Hlen & Hnd & Hen);
    [apply (typed_rotation f Hf)|done|].
  destruct (best_two_ranked now limit f hs f' (typed_ids f Hf) Hlimit Hsend)
    as (best & rest & Hperm & Hbl & Hbest & Hids).
  exists hs, f', best, rest. do 6 (split; [assumption|]). split; [|assumption].
  intros [j x] [k y] Hb Hr. cbn.
  rewrite fltb_not_fleb, negb_true_iff; [by apply (Hbest (j, x) (k, y))|..];
    eapply ranked_not_nan; try done; rewrite Hperm; apply elem_of_app; eauto.
Qed.

Lemma sendCandidates_best_two_witness :
  exists hs f' best rest,
    sendCandidates (101 * Second) 0 example_fleet = Some (hs, f') /\ (1 <= length hs <= 2)%nat /\
    (ranked (101 * Second) example_fleet).2 ≡ₚ best ++ rest /\
    (forall b r, b ∈ best -> r ∈ rest -> fleb b.2 r.2 = true).
Proof.
  destruct (sendCandidates_best_two (101 * Second) 0 example_fleet
              (@newRPCFleet_typed ascii_unicode _ _) eq_refl (or_introl (Z.le_refl 0)))
    as (hs & f' & best & rest & Hsend & Hlen & _ & _ & Hperm & _ & Hbest & _).
  - eexists. split; [apply list_elem_of_here|reflexivity].
  - exists hs, f', best, rest. do 3 (split; [assumption|]). assumption.
Defined.
