(* ===== verification/ServiceRate.v ===== *)
(** * The limit on requests holds in the whole service.

    [TokenBucket] bounds what the limiter lets through of a sequence of requests.
    Here the sequence is the one the mutex of the limiter makes of the goroutines
    of the service: whatever their interleaving, between any two moments of a run
    the requests of a key that get past the middleware are bounded by the limit,
    and no other request broadcasts. *)
From S2P Require Export TokenBucket Concurrent.

(** ** What a history asks of the limiter *)

Definition asked_by {X} (op : sec_op X) : X -> list (string * bool) :=
  match op in sec_op X return X -> list (string * bool) with
  | SAllow key => fun b => [(key, b)]
  | _ => fun _ => []
  end.

Definition asked_of {X} (e : serve_op X) : X -> list (string * bool) :=
  match e in serve_op X return X -> list (string * bool) with
  | OnSecurity op => asked_by op
  | OnService _ => fun _ => []
  end.

(** The keys a history has asked the limiter for, and its answers. *)
Definition asks (h : list (event serve_op)) : list (string * bool) :=
  h ≫= fun ev => asked_of (ev_op ev) (ev_answer ev).
Definition sec_asks (h : list (event sec_op)) : list (string * bool) :=
  h ≫= fun ev => asked_by (ev_op ev) (ev_answer ev).

Lemma asks_app h h' : asks (h ++ h') = (asks h ++ asks h')%list.
Proof. apply bind_app. Qed.
Lemma asks_security h : asks (on_security <$> h) = sec_asks h.
Proof. induction h as [|ev h IH]; [done|]. cbn. by f_equal. Qed.
Lemma asks_service h : asks (on_service <$> h) = [].
Proof. by induction h. Qed.
Lemma sec_asks_snoc h {X} (op : sec_op X) x :
  sec_asks (h ++ [Event op x]) = (sec_asks h ++ asked_by op x)%list.
Proof. unfold sec_asks. rewrite bind_app. cbn. by rewrite (right_id_L [] (++)). Qed.

(** ** The middleware asks once, for the key of the request *)

(** [rateKey]: the API key, or the address of a client that sends none. *)
Definition rate_key (rq : Request) : string :=
  if negb (String.eqb (Header_Get rq "X-API-Key") "") then Header_Get rq "X-API-Key"
  else getClientIP rq.

Definition unasked (X : Type) (op : sec_op X) : Prop := forall x, asked_by op x = [].

Abbreviation asks_obey := (obeys any_answer (fun h => length (sec_asks h) <= 1)%nat).

Lemma unasked_obeys {A} (p : prog sec_op A) h :
  only unasked p -> sec_asks h = [] -> asks_obey (fun h' _ => sec_asks h' = []) h p.
Proof.
  intros Hp. revert h. induction Hp as [a|X op k Hop _ IH]; intros h Hh; cbn; rewrite Hh;
    split; try done; try (cbn; lia).
  intros x _. apply IH. by rewrite sec_asks_snoc, Hh, Hop.
Qed.

Lemma generateRequestID_unasked : only unasked generateRequestID.
Proof.
  unfold generateRequestID, draw_nonce.
  repeat first [apply only_ret | apply only_bind; [|intros ?] | apply only_vis; [done|intros ?]
               | match goal with |- only _ (match ?x with _ => _ end) => destruct x end].
Qed.

Section Asks.
Context `{GoUnicode}.

Lemma check_signature_unasked rv ts nonce hdr legacy body :
  only unasked (check_signature rv ts nonce hdr legacy body).
Proof.
  unfold check_signature. destruct (String.eqb hdr ""); [apply only_ret|].
  apply only_vis; [done|intros t]. destruct (if legacy then _ else _); apply only_ret.
Qed.

Lemma check_nonce_unasked rv nonce : only unasked (check_nonce rv nonce).
Proof.
  unfold check_nonce, ValidateNonce. destruct (String.eqb nonce ""); [apply only_ret|].
  apply only_vis; [done|]. intros [[]|e]; try apply only_ret.
  apply only_vis; [done|]. intros [[]|e]; apply only_ret.
Qed.

Lemma ValidateRequest_asks rv rq :
  asks_obey (fun h r => match r with
    | Ok _ => sec_asks h = [(rate_key rq, true)]
    | Err _ => True
    end) [] (ValidateRequest rv rq).
Proof.
  unfold ValidateRequest. apply obeys_bind. eapply obeys_mono; 
    [|by apply unasked_obeys; [apply generateRequestID_unasked|]].
  intros h1 id _ H1. apply obeys_op; [by rewrite H1; cbn; lia|]. intros start _.
  assert (sec_asks (h1 ++ [Event SNow start]) = []) as H2 by by rewrite sec_asks_snoc, H1.
  revert H2. generalize (h1 ++ [Event SNow start])%list. intros h2 H2.
  assert (length (sec_asks h2) <= 1)%nat as Hlen by (rewrite H2; cbn; lia).
  destruct (_ && _); [by apply obeys_ret|].
  destruct (read_limited (rv_maxBodySize rv) rq) as [read|e]; [|by apply obeys_ret].
  destruct (credentials rq) as [[[ts nonce] hdr] legacy].
  apply obeys_bind. eapply obeys_mono; [|by apply unasked_obeys; [apply check_signature_unasked|]].
  intros h3 [signed|e] Hlen3 H3; [|by apply obeys_ret].
  apply obeys_bind. eapply obeys_mono; [|by apply unasked_obeys; [apply check_nonce_unasked|]].
  intros h4 [[]|e] Hlen4 H4; [|by apply obeys_ret].
  apply obeys_op; [done|]. intros allowed _.
  assert (sec_asks (h4 ++ [Event (SAllow (rate_key rq)) allowed]) = [(rate_key rq, allowed)]) as H5
    by by rewrite sec_asks_snoc, H4.
  replace (if negb (String.eqb (APIKey _) "") then _ else _) with (rate_key rq)
    by (unfold rate_key; by destruct signed).
  destruct allowed; apply obeys_ret; rewrite ?H5; cbn; (done || lia).
Qed.

Lemma Handler_asks m rq :
  asks_obey (fun h out => match out with
    | Next _ (Some _) => sec_asks h = [(rate_key rq, true)]
    | _ => True
    end) [] (Handler m rq).
Proof.
  assert (length (sec_asks []) <= 1)%nat as Hnil by (cbn; lia).
  unfold Handler. destruct (isExcluded m (rq_Path rq)); [by apply obeys_ret|].
  destruct (isMethodAllowed m (rq_Method rq)); [|by apply obeys_ret].
  destruct (Enabled (m_options m)); [|by apply obeys_ret]. cbn [negb].
  apply obeys_bind. eapply obeys_mono; [|apply ValidateRequest_asks].
  intros h [[ctx rq']|e] Hlen Hh; [|by apply obeys_ret].
  repeat case_match; by apply obeys_ret.
Qed.
End Asks.

(** ** A request that broadcasts has asked *)

Section Asking.
Context `{GoUnicode, Geth, GoText}.
Implicit Types sv : service.

(** What the history of a goroutine shows of the limiter. *)
Definition let_in (g : goroutine) (h : list (event serve_op)) : Prop :=
  (length (asks h) <= 1)%nat /\
  (serve_sends h <> [] -> exists rq, g = Incoming rq /\ asks h = [(rate_key rq, true)]).

Lemma let_in_silent g h : (length (asks h) <= 1)%nat -> serve_sends h = [] -> let_in g h.
Proof. intros Hlen Hs. split; [done|]. by rewrite Hs. Qed.

Lemma silent_sends {A} (p : prog eff A) :
  only silent p -> service_obeys (fun h => eff_sends h = []) (fun _ _ => True) [] p.
Proof.
  intros Hp. eapply obeys_weaken; [|apply (only_service_obeys p (fun _ _ => False)), Hp].
  intros h Hh. destruct (eff_sends h) as [|s l] eqn:Hs; [done|].
  unfold all_sent_satisfy in Hh. rewrite Hs in Hh. by inversion Hh.
Qed.

(** A part of the service behind a history of the middleware. *)
Lemma service_let_in g (h0 : list (event sec_op)) {A} (p : prog eff A) (f : A -> served) :
  (length (sec_asks h0) <= 1)%nat ->
  ((exists rq, g = Incoming rq /\ sec_asks h0 = [(rate_key rq, true)]) \/
   service_obeys (fun h => eff_sends h = []) (fun _ _ => True) [] p) ->
  serve_obeys (let_in g) (fun _ _ => True) (on_security <$> h0)
    (r ← translate (@OnService) p; Ret (f r)).
Proof.
  intros Hlen Hcase. apply obeys_bind.
  assert (exists J : list (event eff) -> Prop, service_obeys J (fun _ _ => True) [] p /\
    forall h, J h -> let_in g ((on_security <$> h0) ++ (on_service <$> h))) as (J & Hp & HJ).
  { assert (forall h, asks ((on_security <$> h0) ++ (on_service <$> h)) = sec_asks h0) as Hasks
      by (intros h; by rewrite asks_app, asks_security, asks_service, (right_id_L [] (++))).
    destruct Hcase as [Hin|Hp].
    - exists (fun _ => True). split; [by apply obeys_always|]. intros h _.
      split; rewrite Hasks; [done|]. by intros _.
    - exists (fun h => eff_sends h = []). split; [exact Hp|]. intros h Hh.
      apply let_in_silent; [by rewrite Hasks|].
      by rewrite serve_sends_app, serve_sends_security, serve_sends_service. }
  apply (obeys_translate _ serve_possible (@OnService) J (let_in g) _ (on_security <$> h0)) in Hp;
    [|done|exact HJ].
  cbn in Hp. rewrite (right_id_L [] (++)) in Hp.
  eapply obeys_mono, Hp. intros h a Hh _. by apply obeys_ret.
Qed.

Lemma serve_let_in sv rq : serve_obeys (let_in (Incoming rq)) (fun _ _ => True) [] (serve sv rq).
Proof.
  assert (let_in (Incoming rq) []) as Hnil by (apply let_in_silent; cbn; [lia|done]).
  assert (forall {A} (p : prog eff A) (f : A -> served), only silent p ->
    serve_obeys (let_in (Incoming rq)) (fun _ _ => True) [] (r ← translate (@OnService) p; Ret (f r)))
    as Hsilent.
  { intros A p f Hp. apply (service_let_in _ []); [cbn; lia|]. right. by apply silent_sends. }
  on_route; [intros; by apply obeys_ret|].
  destruct (String.eqb (rq_Path rq) "/healthz"); [apply Hsilent; constructor|].
  destruct (String.eqb (rq_Path rq) "/readyz"); [apply Hsilent, readyz_silent|].
  destruct (protected_route sv (rq_Path rq)) as [next|] eqn:Hroute; [|by apply obeys_ret].
  unfold behind. apply obeys_bind.
  pose proof (Handler_asks (sv_middleware sv) rq) as Hm.
  apply (obeys_translate _ serve_possible (@OnSecurity) _ (let_in (Incoming rq)) _ []) in Hm;
    [|done|intros h Hh; apply let_in_silent; cbn; rewrite ?asks_security; [done|apply serve_sends_security]].
  eapply obeys_mono, Hm. intros h out Hh (h1 & -> & Hlen & Hout). cbn [app] in *.
  destruct out as [status message|rq' [c|]]; [by apply obeys_ret| |];
    apply service_let_in; try done; [left; by exists rq|right].
  eapply obeys_weaken; [|by apply (protected_obeys sv (rq_Path rq) next rq' None)].
  intros h2 Hsent. destruct (eff_sends h2) as [|s l] eqn:Hs; [done|].
  unfold all_sent_satisfy in Hsent. rewrite Hs in Hsent. cbn in Hsent.
  apply Forall_cons in Hsent as [(_ & c & ? & ? & ? & _) _]. done.
Qed.

Lemma goroutine_let_in sv g : serve_obeys (let_in g) (fun _ _ => True) [] (goroutine_prog sv g).
Proof.
  destruct g as [rq|n|n]; [apply serve_let_in|..]; apply (service_let_in _ []);
    try (cbn; lia); right; apply silent_sends; [apply guard_silent|apply monitor_silent].
Qed.
End Asking.

(** ** The requests of a run, in the order of the limiter *)

Lemma let_through_app key a b l :
  let_through key (a ++ b) l =
    ((let_through key a l).1 + (let_through key b (let_through key a l).2).1,
     (let_through key b (let_through key a l).2).2).
Proof.
  revert l. induction a as [|[[created now] k] a IH]; intros l; cbn.
  - by destruct (let_through key b l).
  - destruct (limiter_Allow created now k l) as [[] l1]; rewrite IH;
      destruct (let_through key a l1) as [n l2]; cbn;
      destruct (let_through key b l2) as [n' l3]; cbn; [|done].
    destruct (String.eqb k key); f_equal; lia.
Qed.

(** Times in order, from [lo] to [hi]. *)
Definition within (lo hi : Time) (l : list Time) : Prop :=
  StronglySorted Z.le l /\ Forall (fun t => lo <= t <= hi) l.

Lemma within_app lo mid hi a b :
  lo <= mid -> mid <= hi -> within lo mid a -> within mid hi b -> within lo hi (a ++ b).
Proof.
  intros Hlo Hhi [Hsa Ha] [Hsb Hb]. split.
  - apply StronglySorted_app_2; [|done|done]. intros x y Hx Hy.
    rewrite Forall_forall in Ha, Hb. specialize (Ha x Hx). specialize (Hb y Hy). lia.
  - apply Forall_app. split; eapply Forall_impl; try done; cbn; lia.
Qed.

Lemma readings_app a b : readings (a ++ b) = (readings a ++ readings b)%list.
Proof. apply bind_app. Qed.

Lemma readings_nows lo hi reqs :
  Forall (fun t => lo <= t <= hi) (readings reqs) -> Forall (fun r : arrival => lo <= r.1.2 <= hi) reqs.
Proof.
  induction reqs as [|[[created now] k] reqs IH]; [done|]. cbn.
  intros [_ [Hn Hr]%Forall_cons]%Forall_cons. constructor; [done|by apply IH].
Qed.

Section Run.
Context `{GoUnicode, Geth, GoText} {SN S : Type} `{NonceStore SN, SignerStore S}.
Variable clock : nat -> Time.
Variable entropy : nat -> option (list Z).
Variable env : environment.
Hypothesis clock_mono : forall n m, (n <= m)%nat -> clock n <= clock m.
Variable key : string.

Abbreviation serve_step := (history_step (handle_serve clock entropy env)).
Abbreviation serve_state := (list (prog serve_op served * list (event serve_op)) *
                             (sec_world SN * world S))%type.
Implicit Types c : serve_state.

Definition now_of c : Time := clock (sec_tick c.2.1).
Definition pool_asks c : list (string * bool) := concat ((fun t => asks t.2) <$> c.1).

(** The requests of [key] that the limiter has let in. *)
Definition granted (l : list (string * bool)) : Z :=
  Z.of_nat (length (filter (fun a => a = (key, true)) l)).

Lemma granted_app l l' : granted (l ++ l') = granted l + granted l'.
Proof. unfold granted. rewrite filter_app, length_app. lia. Qed.

Lemma granted_perm l l' : l ≡ₚ l' -> granted l = granted l'.
Proof. intros Hl. unfold granted. by rewrite Hl. Qed.

(** [reqs] is what the limiter was asked between two states of the middleware. *)
Definition arrived (sw sw' : sec_world SN) (asked : list (string * bool)) (reqs : list arrival) : Prop :=
  (sec_tick sw <= sec_tick sw')%nat /\
  within (clock (sec_tick sw)) (clock (sec_tick sw')) (readings reqs) /\
  length reqs = length asked /\
  let_through key reqs (sec_limiter sw) = (granted asked, sec_limiter sw').

Lemma arrived_none sw sw' :
  (sec_tick sw <= sec_tick sw')%nat -> sec_limiter sw' = sec_limiter sw -> arrived sw sw' [] [].
Proof.
  intros Ht Hl. split; [done|]. split; [by repeat constructor|]. by rewrite Hl.
Qed.

Lemma arrived_app sw1 sw2 sw3 a b reqs reqs' :
  arrived sw1 sw2 a reqs -> arrived sw2 sw3 b reqs' -> arrived sw1 sw3 (a ++ b) (reqs ++ reqs').
Proof.
  intros (Ht & Hw & Hlen & Hl) (Ht' & Hw' & Hlen' & Hl'). split; [lia|]. split; [|split].
  - rewrite readings_app. by apply (within_app _ (clock (sec_tick sw2))); [apply clock_mono|apply clock_mono|..].
  - by rewrite !length_app, Hlen, Hlen'.
  - rewrite let_through_app, Hl. cbn. by rewrite Hl', granted_app.
Qed.

Lemma operation_arrived X (e : serve_op X) ww :
  exists reqs, arrived ww.1 (handle_serve clock entropy env X e ww).2.1
                 (asked_of e (handle_serve clock entropy env X e ww).1) reqs.
Proof.
  destruct ww as [sw w]. destruct e as [X op|X e]; cbn; cycle 1.
  { destruct (handle env X e w). exists []. by apply arrived_none. }
  destruct op as [| |X op|k]; cbn; try (exists []; apply arrived_none; cbn; [lia|done]).
  - exists []. destruct op; cbn; [destruct (ns_Exists _ _ _)|destruct (ns_Store _ _ _ _)];
      apply arrived_none; cbn; (lia || done).
  - destruct (limiter_Allow (clock (sec_tick sw)) (clock (sec_tick sw + 1)%nat) k (sec_limiter sw))
      as [b l] eqn:Hl. cbn.
    exists [(clock (sec_tick sw), clock (sec_tick sw + 1)%nat, k)]. split; [cbn; lia|]. cbn. rewrite Hl.
    pose proof (clock_mono (sec_tick sw) (sec_tick sw + 1)%nat ltac:(lia)).
    pose proof (clock_mono (sec_tick sw + 1)%nat (sec_tick sw + 2)%nat ltac:(lia)).
    split; [|split; [done|]].
    + split; repeat constructor; lia.
    + unfold granted. rewrite filter_cons, filter_nil.
      destruct b, (String.eqb_spec k key); cbn; case_decide; cbn; (done || congruence).
Qed.

Lemma run_arrived c c' :
  rtc serve_step c c' ->
  exists asked reqs, pool_asks c' ≡ₚ pool_asks c ++ asked /\ arrived c.2.1 c'.2.1 asked reqs.
Proof.
  induction 1 as [c|c c1 c' Hstep _ (asked' & reqs' & Hperm' & Harr')].
  - exists [], []. rewrite (right_id_L [] (++)). split; [done|]. by apply arrived_none.
  - destruct Hstep as [ts ww i X e k h Hi]. cbn [fst snd] in *.
    destruct (operation_arrived X e ww) as [reqs Harr].
    eexists (_ ++ asked')%list, (reqs ++ reqs')%list.
    split; [|eapply arrived_app; [exact Harr|exact Harr']].
    rewrite Hperm', (assoc_L (++)). f_equiv. unfold pool_asks. cbn [fst].
    rewrite list_fmap_insert. cbn [snd]. rewrite asks_app.
    rewrite concat_insert by by rewrite list_lookup_fmap, Hi.
    f_equiv. cbn. by rewrite (right_id_L [] (++)).
Qed.
End Run.

Section Bound.
Context `{GoUnicode, Geth, GoText} {SN S : Type} `{NonceStore SN, SignerStore S}.
Variable clock : nat -> Time.
Variable entropy : nat -> option (list Z).
Variable env : environment.

Lemma pool_let_in sv gs (sw : sec_world SN) (w : world S) c :
  rtc (history_step (handle_serve clock entropy env)) (start sv gs, (sw, w)) c ->
  Forall2 (fun g t => let_in g t.2) gs c.1.
Proof.
  intros Hsteps.
  assert (Forall2 (fun g t => serve_obeys (let_in g) (fun _ _ => True) t.2 t.1) gs (start sv gs)) as Hstart.
  { apply Forall2_fmap_r, Forall_Forall2_diag, Forall_forall. intros g _. apply goroutine_let_in. }
  eapply (histories_obey _ _ _ (fun _ _ _ => True) gs _ c
            (handle_serve_possible clock entropy env) Hsteps) in Hstart.
  eapply Forall2_impl; [exact Hstart|]. intros g t Ht. by apply obeys_now in Ht.
Qed.

Lemma pool_asks_few gs (c : list (prog serve_op served * list (event serve_op)) * (sec_world SN * world S)) :
  Forall2 (fun g t => let_in g t.2) gs c.1 -> (length (pool_asks c) <= length gs)%nat.
Proof.
  unfold pool_asks. induction 1 as [|g t gs ts [Hone _] _ IH]; cbn; [lia|].
  rewrite length_app. lia.
Qed.
End Bound.

(** C9: the limit holds of the whole service. Between any two states of a run,
    whatever the interleaving, the requests of a key that the limiter lets in are
    bounded as in [token_bucket_bound], so at most twice the limit in a window; and
    a transaction is handed over only for a request that was let in, once, under
    its own key. *)
Theorem requests_rate_limited `{GoUnicode, Geth, GoText} {SN S : Type} `{NonceStore SN, SignerStore S}
    (clock : nat -> Time) entropy env sv gs (sw : sec_world SN) (w : world S) c c'
    (kind key : string) (limit : Z) (window : Duration) :
  (forall n m, (n <= m)%nat -> clock n <= clock m) ->
  kind <> "sliding_window"%string -> 0 < limit < 2 ^ 52 -> 0 < window <= max_i64 ->
  sec_limiter sw = NewRateLimiter kind limit window ->
  rtc (history_step (handle_serve clock entropy env)) (start sv gs, (sw, w)) c ->
  rtc (history_step (handle_serve clock entropy env)) c c' ->
  let d := now_of clock c' - now_of clock c in
  let let_in_between := granted key (pool_asks c') - granted key (pool_asks c) in
  let n := Z.of_nat (length gs) in
  (inject_Z let_in_between <=
    inject_Z limit + inject_Z limit * inject_Z d / inject_Z window * (1 + 16 * ulp1) +
    inject_Z n * (4 * (ulp1 * inject_Z limit)))%Q /\
  (d <= window -> n * limit <= 2 ^ 47 -> let_in_between <= 2 * limit) /\
  Forall2 (fun g t => serve_sends t.2 <> [] ->
             exists rq, g = Incoming rq /\ asks t.2 = [(rate_key rq, true)]) gs c'.1.
Proof.
  intros Hclock Hkind Hlimit Hwindow Hnew Hbefore Hduring d passed n.
  destruct (run_arrived clock entropy env Hclock key _ _ Hbefore)
    as (asked1 & before & _ & _ & [Hs1 Hw1] & _ & Hl1).
  destruct (run_arrived clock entropy env Hclock key _ _ Hduring)
    as (asked2 & during & Hperm & Ht2 & [Hs2 Hw2] & Hlen & Hl2).
  cbn [fst snd] in *. rewrite Hnew in Hl1.
  assert (rtc (history_step (handle_serve clock entropy env)) (start sv gs, (sw, w)) c') as Hrun
    by (etrans; [exact Hbefore|exact Hduring]).
  pose proof (pool_let_in clock entropy env sv gs sw w c' Hrun) as Hpool.
  assert (passed = granted key asked2) as Hpassed
    by (unfold passed; rewrite (granted_perm _ _ _ Hperm), granted_app; lia).
  assert (Z.of_nat (length during) <= n) as Hfew.
  { apply pool_asks_few in Hpool. rewrite Hperm, length_app in Hpool. unfold n. lia. }
  assert (StronglySorted Z.le (readings (before ++ during))) as Hsorted.
  { rewrite readings_app. apply StronglySorted_app_2; [|done|done]. intros x y Hx Hy.
    rewrite Forall_forall in Hw1, Hw2. specialize (Hw1 x Hx). specialize (Hw2 y Hy). lia. }
  assert (Forall (fun r : arrival => now_of clock c <= r.1.2 <= now_of clock c') during) as Hall
    by (by apply readings_nows).
  destruct (token_bucket_bound kind key limit window before during (now_of clock c) (now_of clock c')
              Hkind Hlimit Hwindow Hsorted (Hclock _ _ Ht2) Hall) as [Hbound Hwin].
  rewrite Hl1 in Hbound, Hwin. cbn [fst snd] in Hbound, Hwin.
  rewrite Hl2 in Hbound, Hwin. cbn [fst snd] in Hbound, Hwin. rewrite <- Hpassed in Hbound, Hwin.
  split; [|split].
  - eapply Qle_trans; [exact Hbound|]. apply Qplus_le_r.
    apply Qmult_le_compat_r; [by apply inject_le|]. by apply charge_nonneg.
  - intros Hd Hn. apply Hwin; [exact Hd|]. nia.
  - eapply Forall2_impl; [exact Hpool|]. by intros g t [_ Ht].
Qed.


(** ** Closed run *)

#[local] Existing Instance ascii_unicode.
#[local] Existing Instance ref_geth.
#[local] Existing Instance example_text.
#[local] Existing Instance mem_store.
#[local] Existing Instance list_map_order.

(** One request a minute: of the two that come in together one is let in and
    paid, the other is refused. *)
Definition slow_world : sec_world InMemoryNonceStore :=
  Build_sec_world 0%nat NewInMemoryNonceStore (NewRateLimiter "token_bucket" 1 Minute).

Definition rationed : list (prog serve_op served * list (event serve_op)) *
    (sec_world InMemoryNonceStore * world memorySignerStore) :=
  run_history (handle_serve second_clock example_entropy good_environment)
    (concat (replicate 40 [0; 1; 2; 3]%nat)) (start example_service example_goroutines,
                                              (slow_world, first_world)).

Example rationed_answers :
  (fun t => match t.1 with
            | Ret (Handled (Some r)) => Some (res_status r)
            | Ret (Refused status _) => Some status
            | _ => None
            end) <$> rationed.1 = [Some 200; Some 401; None; None] /\
  pool_asks rationed = [("10.0.0.1:5000", true); ("10.0.0.1:5000", false)]%string.
Proof. split; vm_compute; reflexivity. Qed.

Lemma second_clock_mono n m : (n <= m)%nat -> second_clock n <= second_clock m.
Proof. unfold second_clock, Second. lia. Qed.

Lemma requests_rate_limited_witness :
  granted "10.0.0.1:5000" (pool_asks rationed) = 1 /\
  (inject_Z (granted "10.0.0.1:5000" (pool_asks rationed) - 0) <=
    1 + 1 * inject_Z (now_of second_clock rationed - now_of second_clock
          (start example_service example_goroutines, (slow_world, first_world))) / inject_Z Minute * (1 + 16 * ulp1) +
    4 * (4 * (ulp1 * 1)))%Q.
Proof.
  split; [vm_compute; reflexivity|].
  exact (proj1 (requests_rate_limited second_clock example_entropy good_environment example_service
    example_goroutines slow_world first_world
    (start example_service example_goroutines, (slow_world, first_world)) rationed
    "token_bucket" "10.0.0.1:5000" 1 Minute second_clock_mono ltac:(discriminate) ltac:(done) ltac:(done)
    eq_refl (rtc_refl _ _) (run_history_steps _ _ _))).
Defined.
