(* ===== verification/NonceUse.v ===== *)
(** * No chain nonce is used twice.

    [account] follows a history: a reservation arms the goroutine with a nonce, and
    the next transaction it hands over must be signed with the key of that wallet,
    carry that nonce, and use it up. Every goroutine of the service keeps its
    account, whatever it is answered; a store that meets [ChainSpec] issues no
    reservation twice; so no two transactions of the service, however its
    goroutines interleave, are sent under the same reservation. *)
From S2P Require Export Concurrent.

(** ** Accounts *)

Definition reserved_by {X} (e : eff X) : X -> option reservation :=
  match e in eff X return X -> option reservation with
  | EStore e =>
      match e in store_eff X return X -> option reservation with
      | SReserveChainNonce wallet network _ => fun r =>
          match r with Ok n => Some (wallet, network, n) | Err _ => None end
      | _ => fun _ => None
      end
  | _ => fun _ => None
  end.

Definition reservation_of (ev : event eff) : option reservation := reserved_by (ev_op ev) (ev_answer ev).

Lemma reserving_silent {X} (e : eff X) x u : reserved_by e x = Some u -> sent_by e x = [].
Proof. by destruct e. Qed.

(** The reservations of a history. *)
Definition issued (h : list (event eff)) : list reservation := omap reservation_of h.

Lemma issued_snoc h {X} (e : eff X) x :
  issued (h ++ [Event e x]) = (issued h ++ option_list (reserved_by e x))%list.
Proof. unfold issued. rewrite omap_app. cbn. unfold reservation_of. cbn. by destruct (reserved_by e x). Qed.

(** The store has answered a reservation with [u]. *)
Definition reserved_in (h : list (event eff)) (u : reservation) : Prop :=
  exists pending, Event (EStore (SReserveChainNonce u.1.1 u.1.2 pending)) (Ok u.2) ∈ h.

Lemma reserved_by_store {X} (e : eff X) x u :
  reserved_by e x = Some u -> exists pending,
    Event (EStore (SReserveChainNonce u.1.1 u.1.2 pending)) (Ok u.2) = Event e x.
Proof.
  destruct e; try done. destruct e; try done. cbn. destruct x as [n|e]; [|done].
  intros [= <-]. by exists chainPending.
Qed.

(** A broadcast, with a reservation the same goroutine was given before it. *)
Definition used_after_reserving (h : list (event eff))
    (p : reservation * (SignedTransaction * bool)) : Prop :=
  exists h1 h2, h = (h1 ++ h2)%list /\ reserved_in h1 p.1 /\ p.2 ∈ eff_sends h2.

Section Accounts.
Context `{Geth}.

(** Signed with the key of the reservation's wallet, with its nonce. *)
Definition signed_under (u : reservation) (tx : SignedTransaction) : Prop :=
  exists key, SignTx (st_tx tx) (st_chainID tx) key = Ok tx /\
    u.1.1 = address_Hex (PubkeyToAddress key) /\ u.2 = tx_nonce (st_tx tx).

(** A transaction with the reservation it was sent under. *)
Abbreviation use := (reservation * (SignedTransaction * bool))%type.

(** What a history leaves at hand, and the uses so far. *)
Inductive account : list (event eff) -> option reservation -> list use -> Prop :=
| account_start : account [] None []
| account_reserve h a us X (e : eff X) x u :
    account h a us -> reserved_by e x = Some u -> account (h ++ [Event e x]) (Some u) us
| account_other h a us X (e : eff X) x :
    account h a us -> reserved_by e x = None -> sent_by e x = [] -> account (h ++ [Event e x]) a us
| account_use h u us X (e : eff X) x s :
    account h (Some u) us -> sent_by e x = [s] -> signed_under u s.1 ->
    account (h ++ [Event e x]) None (us ++ [(u, s)]).

(** What is used was issued, each reservation once; the uses are the broadcasts. *)
Lemma account_spec h a us :
  account h a us ->
  us.*1 ++ option_list a ⊆+ issued h /\ us.*2 = eff_sends h /\
  Forall (fun p => signed_under p.1 p.2.1) us.
Proof.
  induction 1 as [|h a us X e x u _ (Hsub & Hs & Hall) Hu
                  |h a us X e x _ (Hsub & Hs & Hall) Hu Hx
                  |h u us X e x s _ (Hsub & Hs & Hall) Hx Hsigned]; [done|..];
    rewrite issued_snoc, eff_sends_snoc.
  - rewrite Hu, (reserving_silent _ _ _ Hu), (right_id_L [] (++) (eff_sends h)). split; [|done].
    apply submseteq_app; [|done]. etrans; [|exact Hsub]. by apply submseteq_inserts_r.
  - rewrite Hu, Hx. cbn. by rewrite !(right_id_L [] (++)).
  - destruct (reserved_by e x) as [u'|] eqn:Hu; [apply reserving_silent in Hu; by rewrite Hu in Hx|].
    rewrite Hx, !fmap_app, Hs. cbn. rewrite !(right_id_L [] (++)). split; [done|]. split; [done|].
    apply Forall_app. split; [done|by constructor].
Qed.

(** The reservation at hand is the store's answer, and what is used was reserved
    before it was sent. *)
Lemma account_reserved h a us :
  account h a us -> (forall u, a = Some u -> reserved_in h u) /\ Forall (used_after_reserving h) us.
Proof.
  assert (forall h ev us, Forall (used_after_reserving h) us ->
            Forall (used_after_reserving (h ++ [ev])) us) as Hmore.
  { intros h' ev us' Hall. eapply Forall_impl; [exact Hall|].
    intros p (h1 & h2 & -> & Hr & Hs). exists h1, (h2 ++ [ev])%list.
    rewrite (assoc_L (++)), eff_sends_app, elem_of_app. by auto. }
  induction 1 as [|h a us X e x u _ [Hat Hall] Hu|h a us X e x _ [Hat Hall] Hu Hx
                  |h u us X e x s _ [Hat Hall] Hx Hsigned]; [done|..].
  - split; [|by apply Hmore]. intros u' [= <-]. apply reserved_by_store in Hu as [pending Hu].
    exists pending. rewrite Hu. apply elem_of_app. right. by apply list_elem_of_singleton.
  - split; [|by apply Hmore]. intros u Ha. apply Hat in Ha as [pending Ha]. exists pending.
    apply elem_of_app. by left.
  - split; [done|]. apply Forall_app. split; [by apply Hmore|]. apply Forall_singleton.
    exists h, [Event e x]. split; [done|]. split; [by apply Hat|]. rewrite eff_sends_one, Hx.
    by apply list_elem_of_singleton.
Qed.

(** ** Programs that keep their account *)

Definition account_kept (h : list (event eff)) : Prop := exists a us, account h a us.

(** From any history that leaves [a] at hand. *)
Definition accounts (a : option reservation) {A} (p : prog eff A) : Prop :=
  forall h us, account h a us -> service_obeys account_kept (fun _ _ => True) h p.
Abbreviation careful p := (forall a, accounts a p).

Lemma kept h a us : account h a us -> account_kept h.
Proof. by exists a, us. Qed.
Hint Resolve kept : core.

Lemma accounts_ret a {A} (x : A) : accounts a (Ret x).
Proof. intros h us Hh. apply obeys_ret; [by eapply kept|done]. Qed.

Lemma accounts_bind a {A B} (p : prog eff A) (f : A -> prog eff B) :
  accounts a p -> (forall x, careful (f x)) -> accounts a (p ≫= f).
Proof.
  intros Hp Hf h us Hh. apply obeys_bind. eapply obeys_mono, Hp; [|exact Hh].
  intros h' x (a' & us' & Ha') _. by eapply Hf.
Qed.

(** An operation that sends nothing either leaves what is at hand or arms anew. *)
Lemma accounts_silent a {X A} (e : eff X) (k : X -> prog eff A) :
  (forall x, sent_by e x = []) ->
  (forall x, accounts (match reserved_by e x with Some u => Some u | None => a end) (k x)) ->
  accounts a (perform e ≫= k).
Proof.
  intros Hs Hk h us Hh. apply obeys_op; [by eapply kept|]. intros x _. apply (Hk x _ us).
  destruct (reserved_by e x) as [u|] eqn:Hu; [by eapply account_reserve|by apply account_other].
Qed.

Lemma careful_silent {X A} (e : eff X) (k : X -> prog eff A) :
  (forall x, sent_by e x = []) -> (forall x, careful (k x)) -> careful (perform e ≫= k).
Proof. intros Hs Hk a. by apply accounts_silent. Qed.

Lemma careful_only {A} (p : prog eff A) : only silent p -> careful p.
Proof.
  induction 1 as [x|X e k He _ IH]; intros a; [apply accounts_ret|].
  apply (accounts_silent a e k); [exact He|]. intros x. apply IH.
Qed.

Lemma accounts_ignore a {X A} (e : store_eff X) (k : unit -> prog eff A) :
  reserve_call e = false -> accounts a (k tt) -> accounts a (ignore (store_call e) ≫= k).
Proof.
  intros He Hk. apply (accounts_silent a (EStore e) (fun _ => k tt)); [done|]. intros x.
  by destruct e.
Qed.

(** A transaction under the reservation at hand. *)
Lemma accounts_send u url tx {A} (k : result unit -> prog eff A) :
  signed_under u tx -> (forall r, careful (k r)) ->
  accounts (Some u) (net_call (NSendTransaction url tx) ≫= k).
Proof.
  intros Hn Hk h us Hh. apply obeys_op; [by eapply kept|]. intros x _. eapply (Hk x None).
  by eapply account_use.
Qed.
End Accounts.
Abbreviation careful p := (forall a, accounts a p).

Section Executions.
Context `{GoUnicode, Geth, GoText}.
Implicit Types cfg : SignerConfig.

(** Step over silent operations and branches. *)
Ltac account_all :=
  repeat first
    [ apply accounts_ret
    | apply careful_silent; [done|intros ?]
    | match goal with |- accounts _ (match ?x with _ => _ end) => destruct x end
    | match goal with |- forall a, accounts a (match ?x with _ => _ end) => destruct x end
    | match goal with |- forall a, accounts a (Ret _) => intros ?; apply accounts_ret end ].

Lemma event_careful {A} cfg kind reason txHash wallet data (k : unit -> prog eff A) a :
  accounts a (k tt) -> accounts a (custody_event cfg kind reason txHash wallet data ≫= k).
Proof. by apply accounts_ignore. Qed.

Lemma sign_and_send_accounts cfg url key network network' chainID r data tx u :
  u = (address_Hex (PubkeyToAddress key), network', tx_nonce tx) ->
  accounts (Some u)
    (sign_and_send cfg url key (PubkeyToAddress key) network chainID r data tx).
Proof.
  intros ->. unfold sign_and_send, SignTx.
  destruct (tx_signature tx chainID key) as [hash|e] eqn:Hsign; cbn [mbind result_bind].
  - apply accounts_send; [exists key; unfold SignTx; cbn; by rewrite Hsign|].
    intros [u'|e] a; do 2 (apply accounts_ignore; [done|]); [|apply accounts_ret].
    apply event_careful, accounts_ret.
  - apply accounts_ignore; [done|]. apply accounts_ret.
Qed.

Lemma reserve_nonce_accounts cfg url from network data k :
  (forall nonce gasPrice, accounts (Some (address_Hex from, network, nonce)) (k nonce gasPrice)) ->
  careful (reserve_nonce cfg url from network data k).
Proof.
  intros Hk a. unfold reserve_nonce.
  apply accounts_silent; [done|]. intros [pending|e]; [|apply accounts_ret].
  apply accounts_silent; [done|]. intros [nonce|e]; [|apply accounts_ret].
  apply event_careful. apply accounts_silent; [done|]. intros [price|e]; [|apply accounts_ret].
  apply Hk.
Qed.

Lemma check_chain_accounts url what ok k :
  (forall c, careful (k c)) -> careful (check_chain url what ok k).
Proof.
  intros Hk a. unfold check_chain. apply accounts_silent; [done|]. intros [c|e]; [|apply accounts_ret].
  cbn [or_fail]. destruct (ok c); [apply Hk|apply accounts_ret].
Qed.

Lemma estimate_accounts a url from to value data (k : result Z -> prog eff (outcome TransferResponse)) :
  (forall g, accounts a (k g)) ->
  accounts a (g ← net_call (NEstimateGas url from to value data); k g).
Proof. intros Hk. by apply accounts_silent. Qed.

Lemma transfer_accounts cfg req network key url :
  careful (executeEVMTransferWithClient cfg req network key (PubkeyToAddress key) url).
Proof.
  apply check_chain_accounts. intros chainID. apply reserve_nonce_accounts. intros nonce price.
  cbv zeta. destruct (negb _ && negb _);
    (destruct (parseUnits _ _) as [amount|e]; [|apply accounts_ret]); cbn [or_fail];
    [destruct (erc20TransferData _ _); [|apply accounts_ret]|];
    apply estimate_accounts; intros g; by eapply sign_and_send_accounts.
Qed.

Lemma contract_accounts cfg req network key url :
  careful (executeEVMContractCallWithClient cfg req network key (PubkeyToAddress key) url).
Proof.
  apply check_chain_accounts. intros chainID. apply reserve_nonce_accounts. intros nonce price.
  destruct (decodeHexData _) as [data|e]; [|apply accounts_ret]. cbn [or_fail].
  apply estimate_accounts. intros g. by eapply sign_and_send_accounts.
Qed.

Lemma settlement_accounts cfg req network amount key url :
  careful (executeEVMSettlementWithClient cfg req network amount key (PubkeyToAddress key) url).
Proof.
  apply check_chain_accounts. intros chainID. apply reserve_nonce_accounts. intros nonce price.
  destruct (vaultPayoutData _ _ _ _) as [data|e]; [|apply accounts_ret]. cbn [or_fail].
  apply estimate_accounts. intros g. by eapply sign_and_send_accounts.
Qed.

Lemma fleet_failure_silent cfg id e : only silent (record_fleet_failure cfg id e).
Proof. unfold record_fleet_failure. destruct (RPCFleet cfg); [by apply only_perform|constructor]. Qed.

Lemma try_handles_accounts cfg withClient hs : forall lastErr,
  (forall url, careful (withClient url)) -> careful (try_handles cfg withClient lastErr hs).
Proof.
  induction hs as [|h hs IH]; intros lastErr Hclient; cbn [try_handles];
    [intros a; apply accounts_ret|].
  assert (forall e lastErr, careful (record_fleet_failure cfg (h_id h) e ≫= fun _ =>
            try_handles cfg withClient lastErr hs)) as Hnext
    by (intros e l a; apply accounts_bind; [apply careful_only, fleet_failure_silent|by intros; apply IH]).
  apply careful_silent; [done|]. intros start.
  apply careful_silent; [done|]. intros [u|e]; [|by apply Hnext].
  intros a. apply accounts_bind; [apply Hclient|]. intros [resp|e|].
  - apply careful_silent; [done|]. intros t. apply careful_only. unfold record_fleet_success.
    destruct (RPCFleet cfg); [|constructor]. apply only_bind; [by apply only_perform|constructor].
  - by apply Hnext.
  - intros a'. apply accounts_ret.
Qed.

Lemma over_fleet_accounts cfg simulated network withClient :
  (forall key url, careful (withClient key (PubkeyToAddress key) url)) ->
  careful (over_fleet cfg simulated network withClient).
Proof.
  intros Hclient a. unfold over_fleet. destruct (HexToECDSA _) as [key|e]; [|apply accounts_ret].
  cbn [or_fail]. destruct (AllowSimulation cfg); [apply accounts_ret|].
  apply accounts_bind.
  - apply careful_only. unfold fleet_candidates. destruct (RPCFleet cfg); [by apply only_perform|].
    do 2 (apply only_bind; [by apply only_perform|intros ?]). constructor.
  - intros [hs|]; [|intros a'; apply accounts_ret]. by apply try_handles_accounts.
Qed.

Lemma on_evm_accounts network k : careful k -> careful (on_evm network k).
Proof. intros Hk a. unfold on_evm. destruct (evm_network network); [apply Hk|apply accounts_ret]. Qed.

Lemma treasury_limits_silent cfg next data : only silent (treasury_limits cfg next data).
Proof.
  unfold treasury_limits, custody_event, ignore, store_call.
  repeat case_match; repeat first [apply only_ret|by apply only_perform|apply only_bind; [|intros ?]].
Qed.

Lemma executeTransfer_accounts cfg req : careful (executeTransfer cfg req).
Proof.
  intros a. unfold executeTransfer. destruct (validateTransferPolicy _ _ _); [|apply accounts_ret].
  cbn [or_fail]. apply accounts_bind.
  - unfold validateTreasuryPolicy. destruct (parseFloatAmount _); [|apply accounts_ret].
    apply accounts_silent; [done|]. intros [o|e]; [|apply accounts_ret].
    apply careful_only, treasury_limits_silent.
  - intros [u|e] a'; [|apply accounts_ret]. cbn [or_fail]. destruct (bool_decide _); [apply accounts_ret|].
    apply on_evm_accounts, over_fleet_accounts. intros. apply transfer_accounts.
Qed.

Lemma executeContractCall_accounts cfg req : careful (executeContractCall cfg req).
Proof.
  intros a. unfold executeContractCall. destruct (validateContractCallPolicy _ _ _); [|apply accounts_ret].
  cbn [or_fail]. apply accounts_bind.
  - unfold validateContractCallTreasuryPolicy. destruct (String.eqb _ ""); [apply accounts_ret|].
    destruct (parseFloatAmount _); [|apply accounts_ret].
    apply accounts_silent; [done|]. intros [o|e]; [|apply accounts_ret].
    apply careful_only, treasury_limits_silent.
  - intros [u|e] a'; [|apply accounts_ret]. cbn [or_fail]. destruct (bool_decide _); [apply accounts_ret|].
    apply on_evm_accounts, over_fleet_accounts. intros. apply contract_accounts.
Qed.

Lemma executeSettlement_accounts cfg req : careful (executeSettlement cfg req).
Proof.
  intros a. unfold executeSettlement. apply accounts_silent; [done|]. intros t.
  destruct (validateSettlementExecuteRequest _ _ _) as [[network amount]|e]; [|apply accounts_ret].
  cbn [or_fail reserved_by]. apply on_evm_accounts, over_fleet_accounts. intros. apply settlement_accounts.
Qed.

Lemma claim_accounts key exec : careful exec -> careful (claim_and_execute key exec).
Proof.
  intros Hexec. unfold claim_and_execute. account_all. intros a. apply accounts_bind; [apply Hexec|].
  intros [resp|e|]; account_all.
Qed.

Lemma fresh_body_accounts cfg rq ctx k :
  (forall c body, careful (k c body)) -> careful (with_fresh_body cfg rq ctx k).
Proof. intros Hk. unfold with_fresh_body. account_all. apply Hk. Qed.

Lemma route_accounts {Req} cfg g (decode : string -> result Req) key exec rq ctx :
  (forall req, careful (exec req)) -> careful (signing_route cfg g decode key exec rq ctx).
Proof.
  intros Hexec a. unfold signing_route. destruct (negb _); [apply accounts_ret|].
  apply accounts_bind.
  - apply careful_only. unfold Locked. destruct g; repeat (apply only_vis; [done|]; intros); constructor.
  - intros [[] reason]; cbn [fst]; [intros; apply accounts_ret|].
    apply fresh_body_accounts. intros c body. destruct (decode body) as [req|e];
      [by apply claim_accounts|intros; apply accounts_ret].
Qed.

Lemma protected_accounts sv path next rq ctx :
  protected_route sv path = Some next -> careful (next rq ctx).
Proof.
  unfold protected_route. repeat case_match; intros [= <-].
  - apply careful_only, unlock_silent.
  - apply route_accounts. intros. apply executeTransfer_accounts.
  - apply route_accounts. intros. apply executeSettlement_accounts.
  - apply route_accounts. intros. apply executeContractCall_accounts.
Qed.
End Executions.

(** ** The goroutines of the service *)

(** The operations of the service in a history of requests. *)
Definition service_event (ev : event serve_op) : option (event eff) :=
  match ev with
  | @Event _ _ (OnService e) x => Some (Event e x)
  | @Event _ _ (OnSecurity _) _ => None
  end.
Abbreviation service_past := (past service_event).

Lemma service_past_sends h : eff_sends (service_past h) = serve_sends h.
Proof.
  induction h as [|[X e x] h IH]; [done|]. destruct e as [Y op|Y e]; [exact IH|].
  change (sent_by e x ++ eff_sends (service_past h) = sent_by e x ++ serve_sends h). by rewrite IH.
Qed.

Lemma security_past {A} (p : prog sec_op A) h :
  serve_obeys (fun h' => service_past h' = service_past h)
    (fun h' _ => service_past h' = service_past h) h (translate (@OnSecurity) p).
Proof.
  assert (forall h0, service_past h0 = service_past h ->
    serve_obeys (fun h' => service_past h' = service_past h)
      (fun h' _ => service_past h' = service_past h) h0 (translate (@OnSecurity) p)) as Hany; [|by apply Hany].
  induction p as [a|X e k IH]; intros h0 Hh; cbn; [done|]. split; [done|]. intros x _.
  apply IH. by rewrite past_silent.
Qed.

Lemma service_obeys_past J {A} (Q : list (event eff) -> A -> Prop) (p : prog eff A) h :
  service_obeys J Q (service_past h) p ->
  serve_obeys (fun h' => J (service_past h')) (fun h' a => Q (service_past h') a) h
    (translate (@OnService) p).
Proof.
  revert h. induction p as [a|X e k IH]; intros h; cbn; [done|]. intros [HJ Hk].
  split; [done|]. intros x Hx. apply IH. rewrite (past_visible _ _ _ (Event e x)) by done. by apply Hk.
Qed.

Section Goroutines.
Context `{GoUnicode, Geth, GoText}.

Abbreviation serve_accounts p :=
  (serve_obeys (fun h => account_kept (service_past h)) (fun _ _ => True) [] p).

Lemma on_service_accounts {A B} (p : prog eff A) (f : A -> B) h :
  service_past h = [] -> careful p ->
  serve_obeys (fun h => account_kept (service_past h)) (fun _ _ => True) h
    (r ← translate (@OnService) p; Ret (f r)).
Proof.
  intros Hh Hp. apply obeys_bind.
  assert (service_obeys account_kept (fun _ _ => True) (service_past h) p) as Hrun
    by (rewrite Hh; by apply (Hp None [] []), account_start).
  apply service_obeys_past in Hrun. eapply obeys_mono, Hrun. intros h' a HJ _. by apply obeys_ret.
Qed.

Lemma goroutine_accounts sv g : serve_accounts (goroutine_prog sv g).
Proof.
  assert (account_kept []) as Hnil by apply (kept _ _ _ account_start).
  destruct g as [rq|n|n]; cbn [goroutine_prog].
  - on_route; [intros; by apply obeys_ret|].
    destruct (String.eqb _ "/healthz"); [apply on_service_accounts; [done|intros; apply accounts_ret]|].
    destruct (String.eqb _ "/readyz"); [by apply on_service_accounts, careful_only, readyz_silent|].
    destruct (protected_route sv (rq_Path rq)) as [next|] eqn:Hroute; [|by apply obeys_ret].
    unfold behind. apply obeys_bind. eapply obeys_weaken, obeys_mono, security_past; cbn beta.
    + by intros h ->.
    + intros h [status message|rq' ctx] _ Hh; [apply obeys_ret; [by rewrite Hh|done]|].
      apply on_service_accounts; [done|]. by eapply protected_accounts.
  - apply on_service_accounts, careful_only, guard_silent. done.
  - apply on_service_accounts, careful_only, monitor_silent. done.
Qed.
End Goroutines.

(** ** Reservations under interleaving *)

Section Pool.
Context {E : Type -> Type} {W A : Type}.
Variable handle : forall X, E X -> W -> X * W.
Variable view : event E -> option (event eff).
Variable taken : W -> reservation -> Prop.

Definition reserves (ev : event E) : option reservation := view ev ≫= reservation_of.

(** A step takes the reservation it shows, and that was free; it gives none back. *)
Hypothesis handle_takes : forall X (e : E X) w,
  (forall u, taken w u -> u.2 < last_nonce) ->
  let (x, w') := handle X e w in
  (forall u, taken w u -> taken w' u) /\
  match reserves (Event e x) with
  | Some u => ~ taken w u /\ taken w' u /\ forall u', taken w' u' -> taken w u' \/ u'.2 <= u.2
  | None => forall u, taken w' u -> taken w u \/ u.2 < last_nonce
  end.

Abbreviation pool := (list (prog E A * list (event E)) * W)%type.
Definition pool_issued (c : pool) : list reservation :=
  concat ((fun t => issued (past view t.2)) <$> c.1).

Lemma pool_issued_step c c' :
  history_step handle c c' ->
  exists X (e : E X), c'.2 = (handle X e c.2).2 /\
    pool_issued c' ≡ₚ pool_issued c ++ option_list (reserves (Event e (handle X e c.2).1)).
Proof.
  intros [ts w i X e k h Hi]. exists X, e. split; [done|].
  unfold pool_issued. cbn [fst snd]. rewrite list_fmap_insert. cbn [snd].
  rewrite past_app. unfold issued at 1. rewrite omap_app. fold (issued (past view h)).
  assert (omap reservation_of (past view [Event e (handle X e w).1]) =
          option_list (reserves (Event e (handle X e w).1))) as ->.
  { unfold reserves. cbn. destruct (view _) as [ev|]; [|done]. cbn. by destruct (reservation_of ev). }
  apply concat_insert. by rewrite list_lookup_fmap, Hi.
Qed.

(** What every reservation of the store satisfies. *)
Lemma pool_issued_all (R : reservation -> Prop) c c' :
  (forall X (e : E X) w u, reserves (Event e (handle X e w).1) = Some u -> R u) ->
  rtc (history_step handle) c c' -> Forall R (pool_issued c) -> Forall R (pool_issued c').
Proof.
  intros HR. induction 1 as [c|c c1 c' Hstep _ IH]; intros Hc; [done|]. apply IH.
  destruct (pool_issued_step _ _ Hstep) as (X & e & _ & ->). apply Forall_app. split; [done|].
  destruct (reserves _) as [u|] eqn:Hu; constructor; [by eapply HR|done].
Qed.

Definition pool_ok (c : pool) : Prop :=
  NoDup (pool_issued c) /\ (forall u, u ∈ pool_issued c -> taken c.2 u) /\
  (forall u, taken c.2 u -> u.2 < last_nonce).

Lemma pool_ok_steps c c' :
  rtc (history_step handle) c c' -> pool_ok c ->
  Forall (fun u => u.2 < last_nonce) (pool_issued c') -> pool_ok c'.
Proof.
  intros Hsteps Hc. revert c' Hsteps.
  refine (rtc_ind_r (fun c' => Forall (fun u => u.2 < last_nonce) (pool_issued c') -> pool_ok c')
            c (fun _ => Hc) _). intros c1 c2 _ Hstep IH Hbelow.
  destruct (pool_issued_step _ _ Hstep) as (X & e & Hw & Hissued).
  rewrite Hissued in Hbelow. apply Forall_app in Hbelow as [Hb1 Hb2].
  destruct (IH Hb1) as (Hnd & Htaken & Hlast).
  pose proof (handle_takes X e c1.2 Hlast) as Hstep'.
  destruct (handle X e c1.2) as [x w']. cbn [fst snd] in *. destruct Hstep' as [Hkeep Hnew].
  unfold pool_ok. rewrite Hw. setoid_rewrite Hissued.
  destruct (reserves (Event e x)) as [u|]; cbn in Hb2 |- *.
  - destruct Hnew as (Hfree & Hnow & Hle). apply Forall_cons_1 in Hb2 as [Hb2 _]. split; [|split].
    + apply NoDup_app. split; [done|]. split; [|apply NoDup_singleton].
      intros u' Hu' ->%list_elem_of_singleton. by apply Hfree, Htaken.
    + intros u' [Hu'| ->%list_elem_of_singleton]%elem_of_app; auto.
    + intros u' Hu'. destruct (Hle u' Hu') as [Hu|Hu]; [auto|by eapply Z.le_lt_trans].
  - rewrite (right_id_L [] (++)). split; [done|]. split; [by auto|].
    intros u [Hu|Hu]%Hnew; auto.
Qed.

(** What the goroutines use. *)
Lemma pool_used `{Geth} c :
  Forall (fun t => account_kept (past view t.2)) c.1 -> NoDup (pool_issued c) ->
  exists uses, Forall2 (fun t us => us.*2 = eff_sends (past view t.2) /\
                                    Forall (used_after_reserving (past view t.2)) us) c.1 uses /\
    NoDup (concat uses).*1 /\ Forall (fun p => signed_under p.1 p.2.1) (concat uses) /\
    (concat uses).*1 ⊆ pool_issued c.
Proof.
  intros Hkept Hnd. unfold pool_issued in *.
  enough (exists uses, Forall2 (fun t us => us.*2 = eff_sends (past view t.2) /\
                                    Forall (used_after_reserving (past view t.2)) us) c.1 uses /\
    (concat uses).*1 ⊆+ concat ((fun t => issued (past view t.2)) <$> c.1) /\
    Forall (fun p => signed_under p.1 p.2.1) (concat uses)) as (uses & Huses & Hsub & Hn).
  { exists uses. split; [done|]. split; [|split; [done|intros u Hu; by eapply elem_of_submseteq]].
    apply submseteq_Permutation in Hsub as [rest Hsub]. rewrite Hsub in Hnd.
    by apply NoDup_app in Hnd as [? _]. }
  clear Hnd. induction Hkept as [|t ts (a & us & Ha) _ (uses & Huses & Hsub & Hn)]; [by exists []|].
  destruct (account_spec _ _ _ Ha) as (Hs & Hm & Hall), (account_reserved _ _ _ Ha) as [_ Hres].
  exists (us :: uses). split; [by constructor|].
  cbn. rewrite fmap_app. split; [|by apply Forall_app].
  apply submseteq_app; [|done]. etrans; [|exact Hs]. by apply submseteq_inserts_r.
Qed.
End Pool.

Lemma concat_snds {T B C} (f : T -> list C) ts (uses : list (list (B * C))) :
  Forall2 (fun t us => us.*2 = f t) ts uses -> (concat uses).*2 = concat (f <$> ts).
Proof. induction 1 as [|t us ts uses Ht _ IH]; [done|]. cbn. by rewrite fmap_app, Ht, IH. Qed.

(** What is used was issued, and what was issued is taken. *)
Lemma uses_taken (taken : reservation -> Prop) (issued : list reservation) {T}
    (signed : reservation * T -> Prop) (uses : list (reservation * T)) :
  (forall u, u ∈ issued -> taken u) -> uses.*1 ⊆ issued -> Forall signed uses ->
  Forall (fun p => signed p /\ taken p.1) uses.
Proof.
  intros Htaken Hsub Hall. rewrite Forall_forall in *. intros p Hp. split; [by apply Hall|].
  by apply Htaken, Hsub, list_elem_of_fmap_2.
Qed.

(** ** The service *)

Section Service.
Context `{GoUnicode, Geth, GoText} {SN S : Type} `{NonceStore SN, ChainSpec S}.
Variable clock : nat -> Time.
Variable entropy : nat -> option (list Z).
Variable env : environment.

Definition store_taken (w : sec_world SN * world S) (u : reservation) : Prop :=
  nonce_taken (w_store w.2) u.

Lemma store_takes c X (e : store_eff X) (s : S) :
  (forall u, nonce_taken s u -> u.2 < last_nonce) ->
  let (x, s') := handle_store c X e s in
  (forall u, nonce_taken s u -> nonce_taken s' u) /\
  match reserved_by (EStore e) x with
  | Some u => ~ nonce_taken s u /\ nonce_taken s' u /\
              forall u', nonce_taken s' u' -> nonce_taken s u' \/ u'.2 <= u.2
  | None => forall u, nonce_taken s' u -> nonce_taken s u \/ u.2 < last_nonce
  end.
Proof.
  intros Hlast. destruct (reserve_call e) eqn:He.
  - destruct e; try done. cbn. pose proof (reserve_spec c wallet network chainPending s Hlast) as Hr.
    by destruct (ReserveChainNonce c wallet network chainPending s) as [[n|e] s'].
  - pose proof (fun u => chain_frame c X e s u He) as Hframe.
    assert (forall x, reserved_by (EStore e) x = None) as Hnone by by destruct e.
    destruct (handle_store c X e s) as [x s']. cbn [snd] in Hframe. rewrite Hnone.
    split; intros u Hu; [|left]; by apply Hframe.
Qed.

Lemma serve_takes X (e : serve_op X) (w : sec_world SN * world S) :
  (forall u, store_taken w u -> u.2 < last_nonce) ->
  let (x, w') := handle_serve clock entropy env X e w in
  (forall u, store_taken w u -> store_taken w' u) /\
  match reserves service_event (Event e x) with
  | Some u => ~ store_taken w u /\ store_taken w' u /\
              forall u', store_taken w' u' -> store_taken w u' \/ u'.2 <= u.2
  | None => forall u, store_taken w' u -> store_taken w u \/ u.2 < last_nonce
  end.
Proof.
  intros Hlast. destruct e as [X op|X e]; cbn [handle_serve].
  { destruct (handle_sec clock entropy X op w.1); cbn; auto. }
  destruct e as [|X e|X e|limit| | | | | | | | |]; cbn; try (split; by auto).
  - pose proof (store_takes (the_call env w.2) X e (w_store w.2) Hlast) as Hs.
    unfold reserves, reservation_of. cbn.
    by destruct (handle_store (the_call env w.2) X e (w_store w.2)).
  - destruct e; cbn; auto.
  - destruct (sendCandidates _ _ _) as [[hs f]|]; cbn; auto.
Qed.

(** C3: no nonce is used twice. Whatever requests come in, with the guard and the
    monitor beside them, under any interleaving: every transaction handed over has
    a reservation of its own, an answer of the store's [ReserveChainNonce] to the
    same goroutine before it sends, for the wallet whose key signed it, with the
    nonce it carries; and the store holds that nonce as taken. The store starts with
    no nonce at the end of [uint64] and issues none. *)
Theorem nonces_never_reused sv gs (sw : sec_world SN) (w : world S) c' :
  (forall u, nonce_taken (w_store w) u -> u.2 < last_nonce) -> w_sent w = [] ->
  rtc (history_step (handle_serve clock entropy env)) (start sv gs, (sw, w)) c' ->
  Forall (fun u => u.2 < last_nonce) (pool_issued service_event c') ->
  exists uses : list (list (reservation * (SignedTransaction * bool))),
    Forall2 (fun t us => us.*2 = serve_sends t.2 /\
                         Forall (used_after_reserving (service_past t.2)) us) c'.1 uses /\
    Forall (fun p => signed_under p.1 p.2.1 /\ nonce_taken (w_store c'.2.2) p.1) (concat uses) /\
    NoDup (concat uses).*1 /\
    (concat uses).*2 ≡ₚ w_sent c'.2.2.
Proof.
  intros Hlast Hsent Hsteps Hbelow.
  destruct (pool_ok_steps (handle_serve clock entropy env) service_event store_taken serve_takes
              _ _ Hsteps) as (Hnd & Htaken & _); [|exact Hbelow|].
  { unfold pool_ok, pool_issued. cbn [fst snd].
    rewrite (start_empty (fun h => issued (service_past h))) by done.
    split; [constructor|]. split; [|exact Hlast].
    by intros u ?%not_elem_of_nil. }
  destruct (pool_used service_event c') as (uses & Huses & Hnodup & Hsigned & Hissued); [|done|].
  - assert (Forall2 (fun (_ : goroutine) t => serve_obeys (fun h => account_kept (service_past h))
        (fun _ _ => True) t.2 t.1) gs (start sv gs)) as Hstart
      by (apply Forall2_fmap_r, Forall_Forall2_diag, Forall_forall; intros g _; apply goroutine_accounts).
    eapply (histories_obey _ _ (fun _ h => account_kept (service_past h)) (fun _ _ _ => True) gs _ c'
              (handle_serve_possible clock entropy env) Hsteps) in Hstart.
    clear -Hstart. induction Hstart as [|g t gs ts Ht _ IH]; constructor; [|done].
    by apply obeys_now in Ht.
  - assert (Forall2 (fun t us => us.*2 = serve_sends t.2 /\
                Forall (used_after_reserving (service_past t.2)) us) c'.1 uses) as Hsends.
    { eapply Forall2_impl; [exact Huses|]. intros t us. cbn beta. by rewrite service_past_sends. }
    exists uses. split; [done|]. split; [by apply (uses_taken _ (pool_issued service_event c'))|].
    split; [done|]. pose proof (serve_steps_sent clock entropy env _ _ [] Hsteps) as Hsum.
    rewrite Hsum; [|by cbn; rewrite Hsent, start_empty].
    rewrite (concat_snds (fun t => serve_sends t.2) c'.1 uses); [done|].
    eapply Forall2_impl; [exact Hsends|]. by intros t us [].
Qed.
End Service.

(** ** Closed run: a transfer and a settlement at once *)

#[local] Existing Instance ascii_unicode.
#[local] Existing Instance ref_geth.
#[local] Existing Instance example_text.
#[local] Existing Instance mem_store.
#[local] Existing Instance list_map_order.

Definition signed_settlement : Request :=
  let rq := signed_post "n-2" "2500000" in
  {| rq_Method := rq_Method rq; rq_EscapedPath := "/settlements/execute"; rq_RemoteAddr := rq_RemoteAddr rq;
     rq_Header := rq_Header rq; rq_ContentLength := rq_ContentLength rq; rq_Body := rq_Body rq;
     rq_BodyErr := None |}.

Definition two_payments : list goroutine :=
  [Incoming (signed_post "n-1" "10"); Incoming signed_settlement; Guarding 1; Monitoring 1].

Definition paying_at_once : list (prog serve_op served * list (event serve_op)) *
    (sec_world InMemoryNonceStore * world memorySignerStore) :=
  run_history (handle_serve second_clock example_entropy good_environment)
    (concat (replicate 40 [0; 1; 2; 3]%nat)) (start example_service two_payments,
                                              (example_world, first_world)).

Lemma nonces_never_reused_witness :
  exists uses : list (list (reservation * (SignedTransaction * bool))),
    Forall2 (fun t us => us.*2 = serve_sends t.2 /\
                         Forall (used_after_reserving (service_past t.2)) us) paying_at_once.1 uses /\
    Forall (fun p => signed_under p.1 p.2.1 /\ nonce_taken (w_store paying_at_once.2.2) p.1)
      (concat uses) /\
    NoDup (concat uses).*1 /\
    (concat uses).*2 ≡ₚ w_sent paying_at_once.2.2.
Proof.
  refine (nonces_never_reused second_clock example_entropy good_environment example_service
            two_payments example_world first_world paying_at_once _ _ _ _).
  - intros u (ns & Hns & _). cbn in Hns. by rewrite lookup_empty in Hns.
  - reflexivity.
  - apply run_history_steps.
  - apply (bool_decide_unpack _). vm_compute. exact I.
Defined.

(** Both are paid, under the nonces 7 and 8. *)
Example paying_at_once_nonces :
  (fun s => tx_nonce (st_tx s.1)) <$> w_sent paying_at_once.2.2 = [7; 8].
Proof. vm_compute. reflexivity. Qed.
