(* ===== verification/PgService.v ===== *)
(** * The whole service over PostgreSQL, statement by statement.

    [lower_serve] rewrites a goroutine of the service, middleware included, into
    one whose store calls are SQL statements, so the goroutines interleave between
    the statements of one call. [seen] is the history of such a goroutine in the
    operations of the service. Through it the theorems on goroutines, which hold
    whatever the operations answer, hold here too; the reservations, which need
    the state, are the statement of [reserve_in]. *)
From S2P Require Export NonceUse PgTables.

Inductive pg_serve_op : Type -> Type :=
| AtSecurity {X} (op : sec_op X) : pg_serve_op X
| AtService {X} (e : pg_eff X) : pg_serve_op X.

Definition lower_serve_op (X : Type) (e : serve_op X) : prog pg_serve_op X :=
  match e with
  | OnSecurity op => perform (AtSecurity op)
  | OnService e => translate (@AtService) (lower_op _ e)
  end.

Definition lower_serve {A} : prog serve_op A -> prog pg_serve_op A := interp lower_serve_op.

(** ** The operations of the service in a history of statements

    A call of the store shows when its method returns; a reservation shows with
    its statement, which makes it. No call reaches the store as one operation. *)
Definition sql_event {X} (op : pg_op X) : X -> option (event serve_op) :=
  match op in pg_op X return X -> option (event serve_op) with
  | TReserveNonce wallet network p => fun x =>
      Some (Event (OnService (EStore (SReserveChainNonce wallet network p))) x)
  | _ => fun _ => None
  end.

Definition lowered_event {X} (e : pg_eff X) : X -> option (event serve_op) :=
  match e in pg_eff X return X -> option (event serve_op) with
  | PEff (EStore _) => fun _ => None
  | PEff e => fun x => Some (Event (OnService e) x)
  | PSql op => sql_event op
  | PReturn e x => fun _ => if reserve_call e then None else Some (Event (OnService (EStore e)) x)
  end.

Definition pg_event (ev : event pg_serve_op) : option (event serve_op) :=
  match ev with
  | @Event _ _ (AtSecurity op) x => Some (Event (OnSecurity op) x)
  | @Event _ _ (AtService e) x => lowered_event e x
  end.
Abbreviation seen := (past pg_event).

Definition lowered_possible {X} (e : pg_eff X) : X -> Prop :=
  match e in pg_eff X return X -> Prop with PEff e => possible e | _ => fun _ => True end.

Definition pg_possible (X : Type) (e : pg_serve_op X) : X -> Prop :=
  match e in pg_serve_op X return X -> Prop with
  | AtSecurity _ => fun _ => True
  | AtService e => lowered_possible e
  end.
Abbreviation pg_obeys := (obeys pg_possible).

Lemma sql_event_none X (op : pg_op X) x : reserve_statement op = false -> sql_event op x = None.
Proof. by destruct op. Qed.

(** Statements that reserve nothing show nothing. *)
Lemma statements_silent {A} (p : prog pg_op A) h :
  only (fun Y op => reserve_statement op = false) p ->
  pg_obeys (fun h' => seen h' = seen h) (fun h' _ => seen h' = seen h) h
    (translate (@AtService) (statements p)).
Proof.
  intros Hp. enough (forall h0, seen h0 = seen h ->
    pg_obeys (fun h' => seen h' = seen h) (fun h' _ => seen h' = seen h) h0
      (translate (@AtService) (statements p))) as Hany by by apply Hany.
  induction Hp as [a|X op k Hop _ IH]; intros h0 Hh; cbn; [done|]. split; [done|]. intros x _.
  apply IH. rewrite past_silent; [done|]. by apply sql_event_none.
Qed.

Lemma obeys_translate_bind {E F : Type -> Type} (f : forall X, E X -> F X) adm J {A B}
    (Q : list (event F) -> B -> Prop) (p : prog E A) (g : A -> prog E B) h :
  obeys adm J (fun h' a => obeys adm J Q h' (translate f (g a))) h (translate f p) ->
  obeys adm J Q h (translate f (p ≫= g)).
Proof.
  revert h. induction p as [a|X e k IH]; intros h; cbn; [by intros []|].
  intros [HJ Hk]. split; [done|]. intros x Hx. by apply IH, Hk.
Qed.

(** A call of the service shows at its own moment, once, with its answer. *)
Lemma lower_serve_traced : traced serve_possible pg_possible pg_event lower_serve_op.
Proof.
  assert (forall X (e : serve_op X) (e' : pg_serve_op X) h,
    (forall x, pg_event (Event e' x) = Some (Event e x)) ->
    (forall x, pg_possible X e' x -> serve_possible X e x) ->
    pg_obeys (fun h' => seen h' = seen h \/
                exists x, serve_possible X e x /\ seen h' = (seen h ++ [Event e x])%list)
      (fun h' x => serve_possible X e x /\ seen h' = (seen h ++ [Event e x])%list) h (perform e'))
    as Hone.
  { intros X e e' h Hshow Hadm. split; [by left|]. intros x Hx.
    assert (serve_possible X e x /\ seen (h ++ [Event e' x]) = (seen h ++ [Event e x])%list) as Hx'
      by (split; [by apply Hadm|by apply past_visible]).
    split; [right; by exists x|done]. }
  intros X [Y op|Y e] h; cbn [lower_serve_op]; [by apply Hone|].
  destruct e as [|Y e|Y e| | | | | | | | | |]; try (by apply Hone).
  destruct (reserve_call e) eqn:He.
  - destruct e; try done. cbn. split; [by left|]. intros x _. split; [right|intros u _; split; [right|]].
    + exists x. split; [done|]. by apply past_visible.
    + exists x. split; [done|]. rewrite past_silent by done. by apply past_visible.
    + split; [done|]. rewrite past_silent by done. by apply past_visible.
  - cbn [lower_op]. apply obeys_translate_bind.
    eapply obeys_weaken, obeys_mono, (statements_silent _ h (method_takes_nothing _ e He)).
    { intros h' Hh. by left. }
    intros h' x _ Hh. cbn. split; [by left|]. intros u _.
    assert (seen (h' ++ [Event (AtService (PReturn e x)) u]) =
              (seen h ++ [Event (OnService (EStore e)) x])%list) as Hret
      by (rewrite <- Hh; apply past_visible; cbn; by rewrite He).
    split; [right; by exists x|done].
Qed.

Lemma lower_serve_obeys J {A} (p : prog serve_op A) :
  serve_obeys J (fun _ _ => True) [] p ->
  pg_obeys (fun h => J (seen h)) (fun _ _ => True) [] (lower_serve p).
Proof. intros Hp. by apply (obeys_interp _ _ _ _ J (fun _ _ => True) [] p lower_serve_traced) in Hp. Qed.

(** ** The statements behind a call

    A call of the store that shows in the history of a goroutine was answered by a
    run of its method whose statements are in that history too. *)
Abbreviation at_sql := (lift_event (fun X (op : pg_op X) => AtService (PSql op))).

Definition explained (h : list (event pg_serve_op)) (ev : event serve_op) : Prop :=
  match ev with
  | @Event _ _ (OnService (EStore e)) x =>
      reserve_call e = false -> exists l, trace_of (pg_method e) l x /\ at_sql <$> l ⊆ h
  | _ => True
  end.

Definition all_explained (h : list (event pg_serve_op)) : Prop := Forall (explained h) (seen h).

Lemma explained_more h h' ev : explained h ev -> explained (h ++ h') ev.
Proof.
  destruct ev as [X [Y op|Y e] x]; [done|]. destruct e as [|Y e|Y e| | | | | | | | | |]; try done.
  intros Hev He. destruct (Hev He) as (l & Hl & Hin). exists l. split; [done|]. set_solver.
Qed.

Lemma explained_snoc h ev :
  all_explained h -> match pg_event ev with Some ev' => explained h ev' | None => True end ->
  all_explained (h ++ [ev]).
Proof.
  intros Hh Hev. unfold all_explained. rewrite past_app. apply Forall_app. split.
  - eapply Forall_impl; [exact Hh|]. intros ev'. apply explained_more.
  - cbn. destruct (pg_event ev) as [ev'|]; [|constructor]. apply Forall_singleton.
    by apply explained_more.
Qed.

Abbreviation explains_all h p := (pg_obeys all_explained (fun h' _ => all_explained h') h p).

Lemma method_explained {X} (e : store_eff X) (q : prog pg_op X) l h :
  (forall l' x, trace_of q l' x -> trace_of (pg_method e) (l ++ l') x) -> at_sql <$> l ⊆ h ->
  all_explained h ->
  explains_all h (translate (@AtService) (x ← statements q; _ ← perform (PReturn e x); Ret x)).
Proof.
  revert l h. induction q as [x|Y op k IH]; intros l h Hq Hl Hh; cbn.
  - split; [done|]. intros u _.
    assert (all_explained (h ++ [Event (AtService (PReturn e x)) u])) as Hret; [|done].
    apply explained_snoc; [done|]. cbn. destruct (reserve_call e) eqn:He; [done|]. intros _.
    exists l. split; [|done]. rewrite <- (right_id_L [] (++) l). by apply Hq.
  - split; [done|]. intros y _. apply (IH y (l ++ [Event op y])%list).
    + intros l' x Hx. rewrite <- (assoc_L (++)). apply Hq. by exists y, l'.
    + rewrite fmap_app. cbn. set_solver.
    + apply explained_snoc; [done|]. cbn. by destruct op.
Qed.

Lemma lower_serve_explained {A} (p : prog serve_op A) h :
  all_explained h -> explains_all h (lower_serve p).
Proof.
  revert h. induction p as [a|X e k IH]; intros h Hh; [done|].
  unfold lower_serve. cbn [interp]. apply obeys_bind.
  eapply obeys_mono; [intros h' x Hh' _; by apply IH|].
  assert (forall Y (e' : pg_serve_op Y), (forall x, match pg_event (Event e' x) with
            Some ev' => explained h ev' | None => True end) -> explains_all h (perform e')) as Hone.
  { intros Y e' He'. split; [done|]. intros x _.
    assert (all_explained (h ++ [Event e' x])) by (by apply explained_snoc; [|apply He']). done. }
  destruct e as [X op|X e]; cbn [lower_serve_op]; [by apply Hone|].
  destruct e as [|X e|X e| | | | | | | | | |]; try (by apply Hone).
  apply (method_explained e (pg_method e) []); [done|set_solver|done].
Qed.

(** A nonce is accepted by the insertion of its row. *)
Lemma accept_answered nonce ttl l :
  trace_of (pg_AcceptNonce nonce ttl) l (Ok true) ->
  Event (QInsertNonce nonce (f_to_i64 (Seconds ttl))) (Ok 1) ∈ l.
Proof.
  unfold pg_AcceptNonce. destruct (String.eqb nonce ""); cbn; [by intros [_ [=]]|].
  intros (d & l1 & -> & r & l2 & -> & Hr). destruct r as [rows|e]; destruct Hr as [-> [=]].
  assert (rows = 1) as -> by by apply Z.eqb_eq. set_solver.
Qed.

(** A key is claimed by the insertion of its lock, where no response was stored. *)
Lemma claim_answered key previous l :
  trace_of (pg_ClaimResult key) l (Ok (previous, false, true)) -> key <> ""%string ->
  Event (QSelectResult key) (Ok None) ∈ l /\ Event (QInsertLock key) (Ok 1) ∈ l.
Proof.
  intros Hl Hkey%String.eqb_neq. revert Hl. unfold pg_ClaimResult, pg_GetResult. rewrite Hkey. cbn.
  intros (stored & l1 & -> & Hl). destruct stored as [[resp|]|e]; cbn in Hl; [by destruct Hl as [_ [=]]| |
    by destruct Hl as [_ [=]]].
  destruct Hl as (rows & l2 & -> & Hr). destruct rows as [rows|e]; destruct Hr as [-> [=]].
  assert (rows = 1) as -> by by apply Z.eqb_eq. set_solver.
Qed.

Lemma past_past {E F G : Type -> Type} (f : event G -> option (event F)) (g : event F -> option (event E)) h :
  past (fun ev => f ev ≫= g) h = past g (past f h).
Proof.
  unfold past. induction h as [|ev h IH]; [done|]. cbn. destruct (f ev) as [ev'|]; [|exact IH]. cbn.
  destruct (g ev'); [by f_equal|exact IH].
Qed.

(** ** The service, run statement by statement *)

Section PgService.
Context `{GoUnicode, Geth, GoText, PgServer} {SN : Type} `{NonceStore SN}.
Variable clock : nat -> Time.
Variable entropy : nat -> option (list Z).
Variable env : environment.

Abbreviation pg_state := (sec_world SN * world pg_tables)%type.

Definition handle_pg_serve (X : Type) (e : pg_serve_op X) (w : pg_state) : X * pg_state :=
  match e in pg_serve_op X return X * pg_state with
  | AtSecurity op => let (x, sw) := handle_sec clock entropy _ op w.1 in (x, (sw, w.2))
  | AtService e => let (x, w') := handle_lowered env _ e w.2 in (x, (w.1, w'))
  end.

Lemma run_at_service {A} (p : prog pg_eff A) (w : pg_state) :
  run handle_pg_serve (translate (@AtService) p) w =
    let (a, w') := run (handle_lowered env) p w.2 in (a, (w.1, w')).
Proof.
  revert w. induction p as [a|X e k IH]; intros [sw w]; [done|]. cbn.
  destruct (handle_lowered env X e w) as [x w']. apply IH.
Qed.

(** A goroutine that runs alone does what it does over the interface. *)
Lemma run_lower_serve {A} (p : prog serve_op A) (w : pg_state) :
  run handle_pg_serve (lower_serve p) w = run (handle_serve clock entropy env) p w.
Proof.
  apply run_interp. clear p w A. intros X [Y op|Y e] w; cbn [lower_serve_op handle_serve].
  - apply run_perform.
  - by rewrite run_at_service, run_lower_op.
Qed.

Definition pg_start sv (gs : list goroutine) : list (prog pg_serve_op served * list (event pg_serve_op)) :=
  (fun g => (lower_serve (goroutine_prog sv g), [])) <$> gs.

Lemma pg_start_empty {B} (f : list (event pg_serve_op) -> list B) sv gs :
  f [] = [] -> concat ((fun t => f t.2) <$> pg_start sv gs) = [].
Proof. intros Hf. unfold pg_start. induction gs as [|g gs IH]; [done|]. cbn. by rewrite Hf. Qed.

Abbreviation pg_step := (history_step (A:=served) handle_pg_serve).

Lemma handle_pg_possible X (e : pg_serve_op X) (w : pg_state) :
  pg_possible X e (handle_pg_serve X e w).1.
Proof.
  destruct e as [X op|X [Y e|Y op|Y e x]]; cbn; try done.
  pose proof (handle_possible env Y e w.2) as Hp. by destruct (handle env Y e w.2).
Qed.

Lemma handle_pg_sent X (e : pg_serve_op X) (w : pg_state) :
  w_sent (handle_pg_serve X e w).2.2 =
    (w_sent w.2 ++ serve_sends (seen [Event e (handle_pg_serve X e w).1]))%list.
Proof.
  destruct e as [X op|X [Y e|Y op|Y e x]]; cbn.
  - destruct (handle_sec clock entropy X op w.1). cbn. by rewrite (right_id_L [] (++)).
  - pose proof (handle_sent env Y e w.2) as Hs. destruct (handle env Y e w.2) as [x w'].
    cbn [fst snd] in *. rewrite Hs. by destruct e; cbn; rewrite ?(right_id_L [] (++)).
  - destruct (handle_pg (the_call env w.2) Y op (w_store w.2)) as [x t]. cbn.
    by destruct op; cbn; rewrite (right_id_L [] (++)).
  - by destruct (reserve_call e); cbn; rewrite (right_id_L [] (++)).
Qed.

Lemma seen_sends h : (h ≫= fun ev => serve_sends (seen [ev])) = serve_sends (seen h).
Proof.
  induction h as [|ev h IH]; [done|]. rewrite (past_app _ [ev] h), serve_sends_app, <- IH. done.
Qed.

Lemma pg_steps_sent c c' l :
  rtc pg_step c c' ->
  w_sent c.2.2 ≡ₚ l ++ concat ((fun t => serve_sends (seen t.2)) <$> c.1) ->
  w_sent c'.2.2 ≡ₚ l ++ concat ((fun t => serve_sends (seen t.2)) <$> c'.1).
Proof.
  intros Hsteps Hc.
  assert (forall ts : list (prog pg_serve_op served * list (event pg_serve_op)),
    (fun t => serve_sends (seen t.2)) <$> ts = (fun t => t.2 ≫= fun ev => serve_sends (seen [ev])) <$> ts)
    as Hseen by (intros ts; apply list_fmap_ext; intros i t _; by rewrite seen_sends).
  rewrite Hseen in *. revert Hc. by apply (steps_logged _ (fun ww => w_sent ww.2) _ _ _ _ handle_pg_sent).
Qed.

(** What holds of every goroutine of the service, whatever it is answered, holds
    of what the lowered ones have seen. *)
Lemma pg_histories (J : goroutine -> list (event serve_op) -> Prop) sv gs w c' :
  (forall g, serve_obeys (J g) (fun _ _ => True) [] (goroutine_prog sv g)) ->
  rtc pg_step (pg_start sv gs, w) c' -> Forall2 (fun g t => J g (seen t.2)) gs c'.1.
Proof.
  intros HJ Hsteps.
  assert (Forall2 (fun g t => pg_obeys (fun h => J g (seen h)) (fun _ _ => True) t.2 t.1)
            gs (pg_start sv gs)) as Hstart
    by (apply Forall2_fmap_r, Forall_Forall2_diag, Forall_forall; intros g _; by apply lower_serve_obeys).
  eapply (histories_obey _ _ (fun g h => J g (seen h)) (fun _ _ _ => True) gs _ c'
            handle_pg_possible Hsteps) in Hstart.
  eapply Forall2_impl; [exact Hstart|]. intros g t Ht. by apply obeys_now in Ht.
Qed.

(** The statements behind what a route has seen: the row of the nonce was inserted,
    and for a key that is not empty no response was stored and the row of its lock
    was inserted. *)
Definition rows_seen cfg nonce key (h : list (event pg_serve_op)) : Prop :=
  Event (AtService (PSql (QInsertNonce nonce (f_to_i64 (Seconds (GetNonceTTL cfg)))))) (Ok 1) ∈ h /\
  (key <> ""%string ->
   Event (AtService (PSql (QSelectResult key))) (Ok None) ∈ h /\
   Event (AtService (PSql (QInsertLock key))) (Ok 1) ∈ h).

(** What justifies a broadcast here: as [authorised] has it, with the statements. *)
Definition pg_authorised sv rq (h : list (event pg_serve_op)) (s : SignedTransaction) : Prop :=
  let rv := m_validator (sv_middleware sv) in
  rq_Method rq = "POST"%string /\
  exists read nonce key h1 h2,
    seen h = ((on_security <$> h1) ++ (on_service <$> h2))%list /\
    read_limited (rv_maxBodySize rv) rq = Ok read /\
    signed_seen rv rq read nonce h1 /\
    route_seen (sv_cfg sv) (sv_guard sv) nonce key h2 /\
    rows_seen (sv_cfg sv) nonce key h /\
    asks_for (sv_cfg sv) (rq_Path rq) (take_str (Z.to_nat handler_body_limit) read) s.

Lemma explained_rows cfg g nonce key h1 h2 h :
  all_explained h -> seen h = ((on_security <$> h1) ++ (on_service <$> h2))%list ->
  route_seen cfg g nonce key h2 -> rows_seen cfg nonce key h.
Proof.
  unfold all_explained. intros Hall Hseen (_ & Hacc & previous & Hclaim).
  rewrite Hseen, Forall_forall in Hall.
  assert (forall X (e : store_eff X) x, reserve_call e = false -> Event (EStore e) x ∈ h2 ->
            exists l, trace_of (pg_method e) l x /\ at_sql <$> l ⊆ h) as Hmethod.
  { intros X e x He Hev. refine (Hall (on_service (Event (EStore e) x)) _ He).
    apply elem_of_app. right. by apply list_elem_of_fmap_2. }
  split.
  - destruct (Hmethod _ (SAcceptNonce nonce _) (Ok true) eq_refl Hacc) as (l & Hl%accept_answered & Hin).
    apply (Hin (at_sql (Event (QInsertNonce _ _) (Ok 1)))). by apply list_elem_of_fmap_2.
  - intros Hkey. destruct (Hmethod _ (SClaimResult key) _ eq_refl Hclaim) as (l & Hl & Hin).
    destruct (claim_answered _ _ _ Hl Hkey) as [Hselect Hinsert]. split.
    + apply (Hin (at_sql (Event (QSelectResult key) (Ok None)))). by apply list_elem_of_fmap_2.
    + apply (Hin (at_sql (Event (QInsertLock key) (Ok 1)))). by apply list_elem_of_fmap_2.
Qed.

Lemma pg_steps_explained sv gs w c' :
  rtc pg_step (pg_start sv gs, w) c' -> Forall (fun t => all_explained t.2) c'.1.
Proof.
  intros Hsteps.
  assert (Forall2 (fun (_ : goroutine) t => explains_all t.2 t.1) gs (pg_start sv gs)) as Hstart
    by (apply Forall2_fmap_r, Forall_Forall2_diag, Forall_forall; intros g _;
        by apply lower_serve_explained, Forall_nil_2).
  eapply (histories_obey _ _ (fun _ => all_explained) (fun _ h _ => all_explained h) gs _ c'
            handle_pg_possible Hsteps) in Hstart.
  eapply (Forall2_Forall_r _ _ gs); [exact Hstart|]. apply Forall_forall. intros g _ t Ht.
  by apply obeys_now in Ht.
Qed.

Lemma pg_broadcasts_rows sv gs (sw : sec_world SN) (w : world pg_tables) c' :
  opt_RequireHMAC (m_options (sv_middleware sv)) = true ->
  opt_RequireNonce (m_options (sv_middleware sv)) = true ->
  rtc pg_step (pg_start sv gs, (sw, w)) c' ->
  w_sent c'.2.2 ≡ₚ w_sent w ++ concat ((fun t => serve_sends (seen t.2)) <$> c'.1) /\
  Forall2 (fun g t => Forall (fun s => exists rq, g = Incoming rq /\ pg_authorised sv rq t.2 s)
                        (serve_sends (seen t.2)).*1) gs c'.1.
Proof.
  intros Hh Hn Hsteps. split.
  - eapply pg_steps_sent; [exact Hsteps|]. cbn.
    by rewrite (pg_start_empty (fun h => serve_sends (seen h))), (right_id_L [] (++)).
  - pose proof (pg_steps_explained sv gs _ c' Hsteps) as Hrows.
    apply (pg_histories (fun g h => Forall (goroutine_authorised sv g h) (serve_sends h).*1)
             sv gs _ c') in Hsteps; [|intros g; by apply goroutine_obeys].
    pose proof (Forall2_and_r _ _ _ _ Hsteps Hrows) as Hboth. eapply Forall2_impl; [exact Hboth|]. intros g t [Hall Hexp]. eapply Forall_impl; [exact Hall|].
    intros s (rq & -> & Hpost & read & nonce & key & h1 & h2 & Hseen & Hread & Hsigned & Hroute & Hask).
    exists rq. split; [done|]. split; [done|]. exists read, nonce, key, h1, h2. do 4 (split; [done|]).
    split; [by eapply explained_rows|done].
Qed.

(** C5: the authorisation of every broadcast survives the interleaving of
    statements, and rests on rows: the request was signed, and before the broadcast
    its goroutine inserted the row of the nonce, and, unless the key is empty, found
    no response for the key and inserted the row of its lock. *)
Theorem pg_broadcasts_authorised sv gs (sw : sec_world SN) (w : world pg_tables) c' :
  opt_RequireHMAC (m_options (sv_middleware sv)) = true ->
  opt_RequireNonce (m_options (sv_middleware sv)) = true ->
  rtc pg_step (pg_start sv gs, (sw, w)) c' ->
  w_sent c'.2.2 ≡ₚ w_sent w ++ concat ((fun t => serve_sends (seen t.2)) <$> c'.1) /\
  Forall2 (fun g t => Forall (fun s => exists rq, g = Incoming rq /\ pg_authorised sv rq t.2 s)
                        (serve_sends (seen t.2)).*1) gs c'.1.
Proof. apply pg_broadcasts_rows. Qed.

(** ** Reservations *)

Definition pg_view (ev : event pg_serve_op) : option (event eff) := pg_event ev ≫= service_event.

Lemma pg_view_past h : past pg_view h = service_past (seen h).
Proof. apply past_past. Qed.

Definition pg_taken (w : pg_state) (u : reservation) : Prop := pg_nonce_taken (w_store w.2) u.

(** The statements and the operations that are not lowered alike. *)
Lemma statement_takes c X (op : pg_op X) t :
  let (x, t') := handle_pg c X op t in
  (forall u, pg_nonce_taken t u -> pg_nonce_taken t' u) /\
  match reserves pg_view (Event (AtService (PSql op)) x) with
  | Some u => ~ pg_nonce_taken t u /\ pg_nonce_taken t' u /\
              forall u', pg_nonce_taken t' u' -> pg_nonce_taken t u' \/ u'.2 <= u.2
  | None => forall u, pg_nonce_taken t' u -> pg_nonce_taken t u \/ u.2 < last_nonce
  end.
Proof.
  destruct (reserve_statement op) eqn:Hop.
  - destruct op; try done. pose proof (reserve_takes c wallet network chainPending t) as Htakes.
    by destruct (handle_pg c _ (TReserveNonce wallet network chainPending) t) as [[n|e] t'].
  - pose proof (fun u => statement_takes_nothing c X op t u Hop) as Hsame.
    destruct (handle_pg c X op t) as [x t']. unfold reserves, pg_view. cbn. rewrite sql_event_none by done.
    split; intros u Hu; [|left]; by apply Hsame.
Qed.

Lemma run_reserve_fits c wallet network p t n :
  (handle_pg c _ (TReserveNonce wallet network p) t).1 = Ok n -> n < last_nonce.
Proof.
  unfold handle_pg. destruct (pg_fault c _ _); [done|]. cbn [run_statement].
  destruct (reserve_in wallet network p t) as [r t'] eqn:Hres. cbn. intros ->.
  by eapply reserve_in_fits.
Qed.

Lemma unshown_takes c X (e : store_eff X) t :
  (forall u, pg_nonce_taken t u -> u.2 < last_nonce) ->
  let t' := (handle_store c X e t).2 in
  (forall u, pg_nonce_taken t u -> pg_nonce_taken t' u) /\
  forall u, pg_nonce_taken t' u -> pg_nonce_taken t u \/ u.2 < last_nonce.
Proof.
  intros Hlast. pose proof (store_takes c X e t Hlast) as Hs.
  assert (forall u, reserved_by (EStore e) (handle_store c X e t).1 = Some u -> u.2 < last_nonce) as Hfits.
  { intros u. destruct e; try done. cbn.
    pose proof (run_reserve_fits c wallet network chainPending t) as Hn.
    unfold pg_run. cbn. destruct (handle_pg c _ _ t) as [[n|e] t']; [|done]. intros [= <-]. by apply Hn. }
  destruct (handle_store c X e t) as [x t']. destruct Hs as [Hkeep Hs]. split; [done|]. cbn [fst snd] in *.
  destruct (reserved_by (EStore e) x) as [u|]; [|done]. intros u' Hu'.
  destruct Hs as (_ & _ & Hle). destruct (Hle u' Hu'); [by left|right]. specialize (Hfits u eq_refl). lia.
Qed.

Lemma pg_serve_takes X (e : pg_serve_op X) (w : pg_state) :
  (forall u, pg_taken w u -> u.2 < last_nonce) ->
  let (x, w') := handle_pg_serve X e w in
  (forall u, pg_taken w u -> pg_taken w' u) /\
  match reserves pg_view (Event e x) with
  | Some u => ~ pg_taken w u /\ pg_taken w' u /\ forall u', pg_taken w' u' -> pg_taken w u' \/ u'.2 <= u.2
  | None => forall u, pg_taken w' u -> pg_taken w u \/ u.2 < last_nonce
  end.
Proof.
  intros Hlast. destruct e as [X op|X [Y e|Y op|Y e x]].
  - exact (serve_takes clock entropy env X (OnSecurity op) w Hlast).
  - pose proof (serve_takes clock entropy env Y (OnService e) w Hlast) as Hs.
    destruct e as [|Y e|Y e| | | | | | | | | |]; cbn in Hs |- *; try exact Hs.
    pose proof (unshown_takes (the_call env w.2) Y e (w_store w.2) Hlast) as Hu.
    by destruct (handle_store (the_call env w.2) Y e (w_store w.2)).
  - cbn. pose proof (statement_takes (the_call env w.2) Y op (w_store w.2)) as Hs.
    by destruct (handle_pg (the_call env w.2) Y op (w_store w.2)).
  - cbn. unfold reserves, pg_view. cbn. destruct (reserve_call e) eqn:He; [by split; cbn; auto|].
    by destruct e; split; cbn; auto.
Qed.

(** A number past [int64] cannot be a row. *)
Lemma pg_reserves_below X (e : pg_serve_op X) (w : pg_state) u :
  reserves pg_view (Event e (handle_pg_serve X e w).1) = Some u -> u.2 < last_nonce.
Proof.
  assert (forall wallet network p (r : result Z * pg_tables),
    r = handle_pg (the_call env w.2) _ (TReserveNonce wallet network p) (w_store w.2) ->
    reserved_by (EStore (SReserveChainNonce wallet network p)) r.1 = Some u -> u.2 < last_nonce) as Hone.
  { intros wallet network p [[n|e'] t'] Hr; [|done]. cbn. intros [= <-].
    eapply run_reserve_fits. by rewrite <- Hr. }
  destruct e as [X op|X [Y e|Y op|Y e x]]; unfold reserves, pg_view; cbn.
  - by destruct (handle_sec clock entropy X op w.1).
  - unfold reservation_of. destruct (handle env Y e w.2) as [x w']. by destruct e.
  - destruct (handle_pg (the_call env w.2) Y op (w_store w.2)) as [x t'] eqn:Hr. cbn.
    destruct op; try done. cbn. intros Hu. by eapply (Hone wallet network chainPending (x, t')).
  - by destruct (reserve_call e) eqn:He; [|destruct e].
Qed.

Lemma tables_ok_below t u : tables_ok t -> pg_nonce_taken t u -> u.2 < last_nonce.
Proof.
  intros Ht [row Hrow]. destruct (ok_chain t Ht u row Hrow) as [Hfit _].
  unfold fits_bigint, max_i64, last_nonce in *. lia.
Qed.

(** A broadcast, with a transaction of [ReserveChainNonce] that the same goroutine
    ran before it and that committed. *)
Definition sent_after_row (h : list (event pg_serve_op)) (p : reservation * (SignedTransaction * bool)) : Prop :=
  exists h1 h2 pending, h = (h1 ++ h2)%list /\
    Event (AtService (PSql (TReserveNonce p.1.1.1 p.1.1.2 pending))) (Ok p.1.2) ∈ h1 /\
    p.2 ∈ serve_sends (seen h2).

(** A reservation is seen of its statement only. *)
Lemma reserved_statement (ev : event pg_serve_op) u :
  reserves pg_view ev = Some u -> exists pending,
    ev = Event (AtService (PSql (TReserveNonce u.1.1 u.1.2 pending))) (Ok u.2).
Proof.
  destruct ev as [X [Y op|Y [Z e|Z op|Z e y]] x]; [done|..].
  - by destruct e.
  - destruct op; try done. destruct x as [n|e]; [|done]. intros [= <-]. by exists chainPending.
  - by destruct e.
Qed.

Lemma used_after_row h p : used_after_reserving (service_past (seen h)) p -> sent_after_row h p.
Proof.
  rewrite <- pg_view_past. intros (l1 & l2 & Hl & [pending Hres] & Hsent).
  destruct (past_split _ _ _ _ Hl) as (h1 & h2 & -> & <- & <-). apply list_elem_of_omap in Hres as (ev & Hev & Hres).
  destruct (reserved_statement ev p.1) as [q ->].
  { unfold reserves. rewrite Hres. by destruct p as [[[w n] k] s]. }
  exists h1, h2, q. split; [done|]. split; [done|]. by rewrite pg_view_past, service_past_sends in Hsent.
Qed.

(** C6: no nonce is used twice over PostgreSQL, though another goroutine's
    statements may fall between any two of its own. From consistent tables, every
    transaction handed over has a reservation of its own: a transaction on
    [signer_chain_nonces] that the same goroutine ran before it sends, for the
    wallet whose key signed it, with the nonce it carries, whose row is in the
    table. *)
Theorem pg_nonces_never_reused sv gs (sw : sec_world SN) (w : world pg_tables) c' :
  tables_ok (w_store w) -> w_sent w = [] ->
  rtc pg_step (pg_start sv gs, (sw, w)) c' ->
  exists uses : list (list (reservation * (SignedTransaction * bool))),
    Forall2 (fun t us => us.*2 = serve_sends (seen t.2) /\ Forall (sent_after_row t.2) us) c'.1 uses /\
    Forall (fun p => signed_under p.1 p.2.1 /\
                     is_Some (signer_chain_nonces (w_store c'.2.2) !! p.1)) (concat uses) /\
    NoDup (concat uses).*1 /\
    (concat uses).*2 ≡ₚ w_sent c'.2.2.
Proof.
  intros Hok Hsent Hsteps.
  assert (pool_issued pg_view (pg_start sv gs, (sw, w)) = []) as Hnone
    by (by apply (pg_start_empty (fun h => issued (past pg_view h)))).
  destruct (pool_ok_steps handle_pg_serve pg_view pg_taken pg_serve_takes _ _ Hsteps)
    as (Hnd & Htaken & _).
  { unfold pool_ok. rewrite Hnone. split; [constructor|].
    split; [by intros u ?%not_elem_of_nil|]. intros u. by apply tables_ok_below. }
  { eapply pool_issued_all; [apply pg_reserves_below|exact Hsteps|by rewrite Hnone]. }
  destruct (pool_used pg_view c') as (uses & Huses & Hnodup & Hsigned & Hissued); [|done|].
  - pose proof (pg_histories (fun _ h => account_kept (service_past h)) sv gs _ c'
                  (goroutine_accounts sv) Hsteps) as Hkept.
    clear -Hkept. induction Hkept as [|g t gs ts Ht _ IH]; constructor; [|done].
    by rewrite pg_view_past.
  - assert (Forall2 (fun t us => us.*2 = serve_sends (seen t.2) /\ Forall (sent_after_row t.2) us)
              c'.1 uses) as Hsends.
    { eapply Forall2_impl; [exact Huses|]. intros t us. cbn beta. rewrite pg_view_past, service_past_sends.
      intros [Hs Hall]. split; [done|]. eapply Forall_impl; [exact Hall|]. intros p. apply used_after_row. }
    exists uses. split; [done|]. split; [exact (uses_taken (pg_taken c'.2) _ _ _ Htaken Hissued Hsigned)|].
    split; [done|]. pose proof (pg_steps_sent _ _ [] Hsteps) as Hsum.
    rewrite Hsum; [|by cbn; rewrite Hsent, (pg_start_empty (fun h => serve_sends (seen h)))].
    rewrite (concat_snds (fun t => serve_sends (seen t.2)) c'.1 uses); [done|].
    eapply Forall2_impl; [exact Hsends|]. by intros t us [].
Qed.
End PgService.

(** ** Closed run: two payments, operation by operation *)

#[local] Existing Instance ascii_unicode.
#[local] Existing Instance ref_geth.
#[local] Existing Instance example_text.
#[local] Existing Instance example_server.
#[local] Existing Instance list_map_order.

Definition pg_paying_at_once : list (prog pg_serve_op served * list (event pg_serve_op)) *
    (sec_world InMemoryNonceStore * world pg_tables) :=
  run_history (handle_pg_serve second_clock example_entropy good_environment)
    (concat (replicate 90 [0; 1; 2; 3]%nat)) (pg_start example_service two_payments,
                                              (example_world, pg_world)).

Lemma pg_broadcasts_authorised_witness :
  w_sent pg_paying_at_once.2.2 ≡ₚ
    w_sent pg_world ++ concat ((fun t => serve_sends (seen t.2)) <$> pg_paying_at_once.1) /\
  Forall2 (fun g t => Forall (fun s => exists rq, g = Incoming rq /\ pg_authorised example_service rq t.2 s)
                        (serve_sends (seen t.2)).*1) two_payments pg_paying_at_once.1.
Proof.
  refine (pg_broadcasts_authorised second_clock example_entropy good_environment example_service
            two_payments example_world pg_world pg_paying_at_once _ _ _);
    [vm_compute; reflexivity|vm_compute; reflexivity|]. apply run_history_steps.
Defined.

Lemma pg_nonces_never_reused_witness :
  exists uses : list (list (reservation * (SignedTransaction * bool))),
    Forall2 (fun t us => us.*2 = serve_sends (seen t.2) /\ Forall (sent_after_row t.2) us)
      pg_paying_at_once.1 uses /\
    Forall (fun p => signed_under p.1 p.2.1 /\
                     is_Some (signer_chain_nonces (w_store pg_paying_at_once.2.2) !! p.1)) (concat uses) /\
    NoDup (concat uses).*1 /\
    (concat uses).*2 ≡ₚ w_sent pg_paying_at_once.2.2.
Proof.
  refine (pg_nonces_never_reused second_clock example_entropy good_environment example_service
            two_payments example_world pg_world pg_paying_at_once _ _ _).
  - apply empty_tables_ok.
  - reflexivity.
  - apply run_history_steps.
Defined.

(** The two reservations are made one after the other, the payments follow. *)
Example pg_paying_at_once_nonces :
  (fun s => tx_nonce (st_tx s.1)) <$> w_sent pg_paying_at_once.2.2 = [7; 8].
Proof. vm_compute. reflexivity. Qed.
