(* ===== verification/PgNonce.v ===== *)
(** * The nonce of a request on PostgreSQL.

    The row of [signer_nonces] is what keeps a signed request from being paid
    twice when it is sent to two goroutines at once, or again: it is inserted by one
    statement, one goroutine inserts it, and while it lasts no other does. Nothing is
    asked of the middleware's own store of nonces, which another process would not
    share. *)
From S2P Require Export PgService.

(** ** The row *)

Section Row.
Context `{PgServer}.
Variable nonce : string.
(** The server's clock stays within the life of a row inserted at its start. *)
Variables (from stop seconds : Z).
Hypothesis lasts : stop <= from + seconds * Second.

Definition inserts {X} (op : pg_op X) : X -> bool :=
  match op in pg_op X return X -> bool with
  | QInsertNonce n s => fun rows =>
      match rows with Ok rows => String.eqb n nonce && (seconds <=? s) && (rows =? 1) | Err _ => false end
  | _ => fun _ => false
  end.

Definition kept (t : pg_tables) : Prop :=
  exists expiry, signer_nonces t !! nonce = Some expiry /\ stop <= expiry.

Lemma statement_row c X (op : pg_op X) t :
  from <= c_now c <= stop ->
  let (x, t') := handle_pg c X op t in
  (kept t -> kept t') /\ (inserts op x = true -> ~ kept t /\ kept t').
Proof.
  intros Hnow.
  assert (kept t -> kept (run_statement c X op t).2) as Hkeep.
  { intros (expiry & Hrow & Hlasts). destruct op; cbn [run_statement]; try (by exists expiry);
      try (by repeat case_match; exists expiry).
    - exists expiry. split; [|done]. cbn. apply map_lookup_filter_Some_2; [done|]. cbn. lia.
    - destruct (decide (nonce0 = nonce)) as [->|Hne]; [by rewrite Hrow; exists expiry|].
      exists expiry. split; [|done]. case_match; [done|]. cbn. by rewrite lookup_insert_ne.
    - exists expiry. split; [|done]. unfold reserve_in. by repeat case_match. }
  unfold handle_pg. destruct (pg_fault c X op).
  - split; [by destruct (pg_done c X op)|]. by destruct op.
  - destruct op; try (destruct (run_statement _ _ _ _); by split). cbn [run_statement] in *.
    destruct (signer_nonces t !! nonce0) as [expiry|] eqn:Hrow; cbn in *.
    + split; [done|]. by rewrite andb_false_r.
    + split; [done|]. rewrite !andb_true_iff. intros [[->%String.eqb_eq Hs%Z.leb_le] _]. split.
      * intros (expiry & Hrow' & _). congruence.
      * exists (c_now c + seconds0 * Second). split; [by cbn; rewrite lookup_insert_eq|].
        unfold Second in *. nia.
Qed.

(** ** The pool *)

Definition inserted (ev : event pg_serve_op) : bool :=
  match ev with
  | @Event _ _ (AtService e) x =>
      match e in pg_eff X return X -> bool with PSql op => inserts op | _ => fun _ => false end x
  | _ => false
  end.

Definition insertions (h : list (event pg_serve_op)) : list (event pg_serve_op) := List.filter inserted h.

Context {SN : Type} `{NonceStore SN}.
Variable clock : nat -> Time.
Variable entropy : nat -> option (list Z).
Variable env : environment.
Abbreviation pg_state := (sec_world SN * world pg_tables)%type.
Abbreviation pg_step := (history_step (A:=served) (handle_pg_serve clock entropy env)).
Abbreviation pool := (list (prog pg_serve_op served * list (event pg_serve_op)) * pg_state)%type.

Definition all_insertions (c : pool) : list (event pg_serve_op) :=
  concat ((fun t => insertions t.2) <$> c.1).

Definition inserted_once (c : pool) : Prop :=
  all_insertions c = [] \/ (length (all_insertions c) = 1%nat /\ kept (w_store c.2.2)).

Lemma ticks_on X (e : pg_serve_op X) (w : pg_state) :
  (w_tick w.2 <= w_tick (handle_pg_serve clock entropy env X e w).2.2)%nat.
Proof.
  destruct e as [X op|X [Y e|Y op|Y e x]]; cbn.
  - by destruct (handle_sec clock entropy X op w.1).
  - destruct e; cbn; try lia.
    + destruct (handle_store _ _ _ _). cbn. lia.
    + destruct e; cbn; lia.
    + destruct (sendCandidates _ _ _) as [[hs f]|]; cbn; lia.
  - by destruct (handle_pg _ Y op _).
  - lia.
Qed.

Lemma step_row X (e : pg_serve_op X) (w : pg_state) :
  from <= now env w.2 <= stop ->
  let (x, w') := handle_pg_serve clock entropy env X e w in
  (kept (w_store w.2) -> kept (w_store w'.2)) /\
  (inserted (Event e x) = true -> ~ kept (w_store w.2) /\ kept (w_store w'.2)).
Proof.
  intros Hnow. destruct e as [X op|X [Y e|Y op|Y e x]]; cbn.
  - by destruct (handle_sec clock entropy X op w.1).
  - assert (kept (w_store w.2) -> kept (w_store (handle env Y e w.2).2)) as Hkeep.
    { destruct e as [|Y e|Y e| | | | | | | | | |]; cbn; try done; [|by destruct e|].
      - rewrite pg_method_store. intros Hkept. unfold pg_run.
        pose proof (run_preserves (handle_pg (the_call env w.2)) kept) as Hrun.
        specialize (Hrun (fun Z op t Hk => ltac:(pose proof (statement_row (the_call env w.2) Z op t Hnow);
          destruct (handle_pg (the_call env w.2) Z op t); naive_solver)) _ (pg_method e) _ Hkept).
        by destruct (run _ (pg_method e) (w_store w.2)).
      - by destruct (sendCandidates _ _ _) as [[hs f]|]. }
    destruct (handle env Y e w.2). by split.
  - pose proof (statement_row (the_call env w.2) Y op (w_store w.2) Hnow) as Hrow.
    by destruct (handle_pg (the_call env w.2) Y op (w_store w.2)).
  - by split.
Qed.

(** Two goroutines would be two insertions. *)
Lemma inserted_once_one c i j ti tj :
  inserted_once c -> c.1 !! i = Some ti -> c.1 !! j = Some tj -> i <> j ->
  insertions ti.2 = [] \/ insertions tj.2 = [].
Proof.
  intros Honce Hi Hj Hij.
  assert (length (all_insertions c) <= 1)%nat as Hlen by (destruct Honce as [Hz|[Ho _]]; [rewrite Hz; cbn|]; lia).
  unfold all_insertions in Hlen. rewrite length_concat, <- list_fmap_compose in Hlen.
  pose proof (sum_list_two ((fun t => length (insertions t.2)) <$> c.1) i j
    (length (insertions ti.2)) (length (insertions tj.2))
    ltac:(by rewrite list_lookup_fmap, Hi) ltac:(by rewrite list_lookup_fmap, Hj) Hij) as Hsum.
  change (sum_list ((fun t => length (insertions t.2)) <$> c.1) <= 1)%nat in Hlen.
  destruct (insertions ti.2), (insertions tj.2); auto. cbn [length] in Hsum. lia.
Qed.

Lemma step_insertions c c' :
  history_step (handle_pg_serve clock entropy env) c c' -> from <= now env c.2.2 <= stop ->
  inserted_once c -> inserted_once c'.
Proof.
  intros [ts w i X e k h Hi] Hnow. cbn [fst snd] in *. pose proof (step_row X e w Hnow) as Hrow.
  destruct (handle_pg_serve clock entropy env X e w) as [x w']. cbn [fst snd] in *.
  assert (all_insertions (<[i := (k x, h ++ [Event e x])%list]> ts, w') ≡ₚ
          all_insertions (ts, w) ++ insertions [Event e x]) as Hall.
  { unfold all_insertions. cbn [fst]. rewrite list_fmap_insert. cbn [snd]. unfold insertions at 1.
    rewrite List.filter_app. apply concat_insert. by rewrite list_lookup_fmap, Hi. }
  destruct Hrow as [Hkeep Hnew]. unfold inserted_once in *. cbn [snd]. unfold insertions in Hall.
  cbn [List.filter] in Hall. destruct (inserted (Event e x)) eqn:Hins.
  - destruct (Hnew eq_refl) as [Hfree Hkept]. intros [Hnone|[_ Hold]]; [|done]. right.
    rewrite Hall, Hnone. by split.
  - rewrite (right_id_L [] (++)) in Hall. intros [Hnone|[Hone Hold]].
    + left. rewrite Hnone in Hall. by apply Permutation_nil_r in Hall.
    + right. rewrite Hall. auto.
Qed.

Lemma steps_insertions c c' :
  rtc (history_step (handle_pg_serve clock entropy env)) c c' ->
  (forall n, (n <= w_tick c'.2.2)%nat -> from <= Service.clock env n <= stop) ->
  inserted_once c -> inserted_once c'.
Proof.
  intros Hsteps Hnow Hc. revert Hnow.
  refine (rtc_ind_r (fun c' => (forall n, (n <= w_tick c'.2.2)%nat -> from <= Service.clock env n <= stop) ->
            inserted_once c') c (fun _ => Hc) _ c' Hsteps).
  intros c1 c2 _ Hstep IH Hnow. assert (w_tick c1.2.2 <= w_tick c2.2.2)%nat as Htick.
  { destruct Hstep as [ts w i X e k h Hi]. apply ticks_on. }
  eapply step_insertions; [exact Hstep|by apply Hnow|]. apply IH. intros n Hn. apply Hnow. lia.
Qed.
End Row.

(** ** The service *)

(** The nonce a request carries. *)
Definition request_nonce (rq : Request) : string := (credentials rq).1.1.2.

Section Service.
Context `{GoUnicode, Geth, GoText, PgServer} {SN : Type} `{NonceStore SN}.
Variable clock : nat -> Time.
Variable entropy : nat -> option (list Z).
Variable env : environment.

Lemma authorised_insertion sv rq h s :
  pg_authorised sv rq h s ->
  insertions (request_nonce rq) (f_to_i64 (Seconds (GetNonceTTL (sv_cfg sv)))) h <> [].
Proof.
  intros (_ & read & nonce & key & h1 & h2 & _ & _ & Hsigned & _ & [Hrow _] & _).
  destruct Hsigned as (ts & hdr & legacy & t & Hcred & _). unfold request_nonce. rewrite Hcred. cbn.
  intros Hnone. apply list_elem_of_In in Hrow.
  assert (In (Event (AtService (PSql (QInsertNonce nonce (f_to_i64 (Seconds (GetNonceTTL (sv_cfg sv)))))))
               (Ok 1)) (insertions nonce (f_to_i64 (Seconds (GetNonceTTL (sv_cfg sv)))) h)) as Hin.
  { apply filter_In. split; [done|]. cbn. by rewrite String.eqb_refl, Z.leb_refl. }
  by rewrite Hnone in Hin.
Qed.

(** C32: a request that is sent again, to any number of goroutines at once, is paid
    by one of them at most. Over PostgreSQL, with the goroutines interleaved between
    statements: of two requests that carry the same nonce, one broadcasts nothing,
    as long as the server's clock stays within the whole seconds of the nonce's time
    to live from the start. *)
Theorem pg_nonce_pays_once sv gs (sw : sec_world SN) (w : world pg_tables) c' from i j rq rq' pi pj hi hj :
  opt_RequireHMAC (m_options (sv_middleware sv)) = true ->
  opt_RequireNonce (m_options (sv_middleware sv)) = true ->
  (forall n, (n <= w_tick c'.2.2)%nat ->
     from <= Service.clock env n <= from + f_to_i64 (Seconds (GetNonceTTL (sv_cfg sv))) * Second) ->
  rtc (history_step (handle_pg_serve clock entropy env)) (pg_start sv gs, (sw, w)) c' ->
  i <> j -> gs !! i = Some (Incoming rq) -> gs !! j = Some (Incoming rq') ->
  request_nonce rq = request_nonce rq' ->
  c'.1 !! i = Some (pi, hi) -> c'.1 !! j = Some (pj, hj) ->
  serve_sends (seen hi) = [] \/ serve_sends (seen hj) = [].
Proof.
  intros Hh Hn Hnow Hsteps Hij Hi Hj Hsame Hti Htj.
  set (seconds := f_to_i64 (Seconds (GetNonceTTL (sv_cfg sv)))) in *.
  destruct (pg_broadcasts_rows clock entropy env sv gs sw w c' Hh Hn Hsteps) as [_ Hall].
  assert (forall i rq p h, gs !! i = Some (Incoming rq) -> c'.1 !! i = Some (p, h) ->
            insertions (request_nonce rq) seconds h = [] -> serve_sends (seen h) = []) as Hquiet.
  { intros i' rq0 p h Hg Ht Hnone.
    assert (Forall (fun s => exists rq1, Incoming rq0 = Incoming rq1 /\ pg_authorised sv rq1 h s)
              (serve_sends (seen h)).*1) as Hsends by exact (Forall2_lookup_lr _ _ _ _ _ _ Hall Hg Ht).
    destruct (serve_sends (seen h)) as [|s l]; [done|].
    apply Forall_cons in Hsends as [(rq1 & [= <-] & Hauth) _]. by apply authorised_insertion in Hauth. }
  assert (inserted_once (request_nonce rq) (from + seconds * Second) seconds c') as Honce.
  { eapply (steps_insertions (request_nonce rq) from (from + seconds * Second) seconds);
      [lia|exact Hsteps|exact Hnow|]. left. unfold all_insertions. cbn. unfold pg_start.
    clear. induction gs; [done|]. by cbn. }
  destruct (inserted_once_one _ _ _ c' i j _ _ Honce Hti Htj Hij) as [Hnone|Hnone];
    [left|right]; eapply Hquiet; [exact Hi|exact Hti|exact Hnone|exact Hj|exact Htj|].
  by rewrite <- Hsame.
Qed.
End Service.

(** ** Closed run: one request, sent to two goroutines at once

    The middleware's store of nonces forgets them at once, as that of another
    process would not know them; the payments fall between each other's
    statements. *)

#[local] Existing Instance ascii_unicode.
#[local] Existing Instance ref_geth.
#[local] Existing Instance example_text.
#[local] Existing Instance example_server.
#[local] Existing Instance list_map_order.

#[local] Instance forgetful_nonces : NonceStore unit := {|
  ns_Store _ _ _ s := (Ok tt, s); ns_Exists _ _ s := (Ok false, s);
  ns_Delete _ s := (Ok tt, s); ns_Cleanup _ s := (Ok tt, s) |}.

Definition forgetful_world : sec_world unit :=
  Build_sec_world 0%nat tt (NewRateLimiter "token_bucket" 100 Minute).

Definition sent_twice : list goroutine :=
  [Incoming (signed_post "n-1" "10"); Incoming (signed_post "n-1" "10")].

Definition both_served : list (prog pg_serve_op served * list (event pg_serve_op)) *
    (sec_world unit * world pg_tables) :=
  run_history (handle_pg_serve second_clock example_entropy good_environment)
    (concat (replicate 90 [0; 1]%nat)) (pg_start example_service sent_twice, (forgetful_world, pg_world)).

Definition served_by (i : nat) : prog pg_serve_op served * list (event pg_serve_op) :=
  default (Ret (Refused 0 ""), []) (both_served.1 !! i).

Lemma pg_nonce_pays_once_witness :
  serve_sends (seen (served_by 0).2) = [] \/ serve_sends (seen (served_by 1).2) = [].
Proof.
  refine (pg_nonce_pays_once second_clock example_entropy good_environment example_service sent_twice
            forgetful_world pg_world both_served boot_time 0 1 (signed_post "n-1" "10")
            (signed_post "n-1" "10") (served_by 0).1 (served_by 1).1 _ _ _ _ _ _ _ _ _ _ _ _).
  - vm_compute. reflexivity.
  - vm_compute. reflexivity.
  - intros n Hn. assert (Z.of_nat (w_tick both_served.2.2) <= 3000) as Hticks
      by (apply Z.leb_le; vm_compute; reflexivity).
    assert (f_to_i64 (Seconds (GetNonceTTL (sv_cfg example_service))) = 300) as -> by (vm_compute; reflexivity).
    cbn [Service.clock good_environment example_environment]. unfold Millisecond, Second. lia.
  - apply run_history_steps.
  - discriminate.
  - reflexivity.
  - reflexivity.
  - reflexivity.
  - vm_compute. reflexivity.
  - vm_compute. reflexivity.
Defined.

Example both_served_pays_once : length (w_sent both_served.2.2) = 1%nat.
Proof. vm_compute. reflexivity. Qed.
