(* ===== verification/PgLocks.v ===== *)
(** * The lock of an idempotency key on PostgreSQL.

    [claim_race_pays_twice] shows that a key can be paid twice over PostgreSQL,
    where a claim is two statements. What the row of [signer_idempotency_locks]
    still guarantees is shown here: a goroutine deletes the row only while it holds
    it, so no two hold one key at a time, and a payment for a key is made only by
    the one that holds it. Two payments never overlap. *)
From S2P Require Export PgService.

(** ** What an event does to the lock of [k] *)

Inductive lock_action :=
| Idle
| Takes
(** The statement that deletes the row; its goroutine holds the lock no longer,
    whether it went through or not. *)
| Drops
(** A broadcast that was taken. *)
| Pays
(** A call of the store that is not lowered: there is none. *)
| Stray.

Section Key.
Variable k : string.

Definition sql_lock {X} (op : pg_op X) : X -> lock_action :=
  match op in pg_op X return X -> lock_action with
  | QInsertLock k' => fun rows =>
      match rows with
      | Ok n => if String.eqb k' k && (n =? 1) then Takes else Idle
      | Err _ => Idle
      end
  | TSaveResult k' _ => fun _ => if String.eqb k' k then Drops else Idle
  | QDeleteLock k' => fun _ => if String.eqb k' k then Drops else Idle
  | _ => fun _ => Idle
  end.

Definition eff_lock {X} (e : eff X) (x : X) : lock_action :=
  match e with
  | EStore _ => Stray
  | _ => if (successes (sent_by e x) =? 0)%nat then Idle else Pays
  end.

Definition lowered_lock {X} (e : pg_eff X) : X -> lock_action :=
  match e in pg_eff X return X -> lock_action with
  | PEff e => eff_lock e
  | PSql op => sql_lock op
  | PReturn _ _ => fun _ => Idle
  end.

Definition lock_of (ev : event pg_serve_op) : lock_action :=
  match ev with
  | @Event _ _ (AtSecurity _) _ => Idle
  | @Event _ _ (AtService e) x => lowered_lock e x
  end.

(** Whether a goroutine holds the lock; [None] once it has deleted a row it does
    not hold or, when the key is its own ([mine]), paid without holding it. *)
Definition lock_step (mine : bool) (s : option bool) (ev : event pg_serve_op) : option bool :=
  match s with
  | None => None
  | Some held =>
      match lock_of ev with
      | Idle => Some held
      | Takes => Some true
      | Drops => if (held : bool) then Some false else None
      | Pays => if mine && negb held then None else Some held
      | Stray => None
      end
  end.

Definition lock_state (mine : bool) (h : list (event pg_serve_op)) : option bool :=
  foldl (lock_step mine) (Some false) h.

Lemma lock_state_snoc mine h ev : lock_state mine (h ++ [ev]) = lock_step mine (lock_state mine h) ev.
Proof. unfold lock_state. by rewrite foldl_app. Qed.

Lemma lock_state_prefix mine h h' : is_Some (lock_state mine (h ++ h')) -> is_Some (lock_state mine h).
Proof.
  induction h' as [|ev h' IH] using rev_ind; [by rewrite (right_id_L [] (++))|].
  rewrite (assoc_L (++)), lock_state_snoc. destruct (lock_state mine (h ++ h')); [|by intros []].
  intros _. by apply IH.
Qed.

Definition holds (h : list (event pg_serve_op)) : bool := default false (lock_state false h).

(** Counting the payments of the key is a restriction only. *)
Lemma lock_state_mine mine h b : lock_state mine h = Some b -> lock_state false h = Some b.
Proof.
  revert b. induction h as [|ev h IH] using rev_ind; intros b; [done|]. rewrite !lock_state_snoc.
  destruct (lock_state mine h) as [held|]; [|done]. rewrite (IH held eq_refl). cbn.
  destruct (lock_of ev); try done. by destruct (mine && negb held).
Qed.

(** ** What a statement does to the row *)

Lemma lock_effect `{PgServer} c X (op : pg_op X) t :
  let (x, t') := handle_pg c X op t in
  match sql_lock op x with
  | Takes => (k ∉ signer_idempotency_locks t) /\ (k ∈ signer_idempotency_locks t')
  | Drops => True
  | _ => (k ∈ signer_idempotency_locks t) -> (k ∈ signer_idempotency_locks t')
  end.
Proof.
  unfold handle_pg. destruct (pg_fault c X op).
  - destruct (pg_done c X op); [|destruct op; cbn; try destruct (String.eqb _ k); done].
    destruct op; cbn [run_statement fail_statement]; try (cbn; done).
    + by destruct (signer_nonces t !! nonce); cbn.
    + case_bool_decide as Hin; cbn; [done|set_solver].
    + cbn. destruct (String.eqb_spec key k) as [->|Hne]; cbn; [done|set_solver].
    + cbn. destruct (String.eqb_spec key k) as [->|Hne]; cbn; [done|set_solver].
    + by destruct (existsb unresolved (custody_incidents t)); cbn.
    + unfold reserve_in. by repeat case_match.
  - destruct op; cbn [run_statement]; try (cbn; done).
    + by destruct (signer_nonces t !! nonce); cbn.
    + case_bool_decide as Hin; cbn.
      * by rewrite andb_false_r.
      * destruct (String.eqb_spec key k) as [->|Hne]; cbn; [split; [done|set_solver]|set_solver].
    + cbn. destruct (String.eqb_spec key k) as [->|Hne]; cbn; [done|set_solver].
    + cbn. destruct (String.eqb_spec key k) as [->|Hne]; cbn; [done|set_solver].
    + by destruct (existsb unresolved (custody_incidents t)); cbn.
    + destruct (reserve_in wallet network chainPending t) as [r t'] eqn:Hres. cbn. revert Hres.
      unfold reserve_in. repeat case_match; by intros [= <- <-].
Qed.
End Key.

(** ** Programs over finer operations, and bind *)

Section Bind.
Context {E F : Type -> Type}.
Variable adm : forall X, F X -> X -> Prop.
Variable J : list (event F) -> Prop.

Lemma obeys_bind_mono {X A B} (Q : list (event F) -> A -> Prop) (R : list (event F) -> B -> Prop)
    (m : prog F X) (f : X -> prog F A) (g : X -> prog F B) h :
  (forall x h', obeys adm J Q h' (f x) -> obeys adm J R h' (g x)) ->
  obeys adm J Q h (m ≫= f) -> obeys adm J R h (m ≫= g).
Proof.
  intros Hfg. revert h. induction m as [x|Y e k IH]; intros h; cbn; [apply Hfg|].
  intros [HJ Hk]. split; [done|]. intros y Hy. by apply IH, Hk.
Qed.

Lemma obeys_interp_bind (f : forall X, E X -> prog F X) {A B} (Q : list (event F) -> B -> Prop)
    (p : prog E A) (g : A -> prog E B) h :
  obeys adm J (fun h' a => obeys adm J Q h' (interp f (g a))) h (interp f p) ->
  obeys adm J Q h (interp f (p ≫= g)).
Proof.
  revert h. induction p as [a|X e k IH]; intros h; cbn [interp].
  - by intros [].
  - apply obeys_bind_mono. intros x h'. apply IH.
Qed.
End Bind.

(** ** Goroutines *)

Section Goroutine.
Variable k : string.
Hypothesis nonempty : k <> ""%string.
Variable mine : bool.

Abbreviation state := (lock_state k mine).
Abbreviation fine_obeys := (pg_obeys (fun h => is_Some (lock_state k mine h))).

Definition idle_statement (X : Type) (op : pg_op X) : Prop := forall x, sql_lock k op x = Idle.

Lemma method_idle X (e : store_eff X) :
  key_view k (EStore e) = None -> only idle_statement (pg_method e).
Proof.
  intros He. destruct e; cbn [pg_method];
    unfold pg_AcceptNonce, pg_ClaimResult, pg_GetResult, pg_SaveResult, pg_ReleaseClaim,
      pg_RecordCustodyEvent, pg_MarkChainNonceSubmitted, pg_MarkChainNonceFailed, pg_mark,
      pg_CreateSignerTransaction, pg_MarkSignerTransactionStatus, pg_DailySubmittedOutflow;
    cbn in He; try (case_bool_decide as Hne; [done|]; apply String.eqb_neq in Hne);
    repeat first [case_match|apply only_ret|by apply only_perform
                 |apply only_try; [|intros ?]|apply only_bind; [|intros ?]];
    apply only_perform; intros r; cbn; rewrite Hne; by destruct r.
Qed.

Lemma event_idle b h ev : state h = Some b -> lock_of k ev = Idle -> state (h ++ [ev]) = Some b.
Proof. intros Hh Hev. rewrite lock_state_snoc, Hh. cbn. by rewrite Hev. Qed.

Lemma statements_idle b {A} (p : prog pg_op A) h :
  only idle_statement p -> state h = Some b ->
  fine_obeys (fun h' _ => state h' = Some b) h (translate (@AtService) (statements p)).
Proof.
  intros Hp. revert h. induction Hp as [a|X op kk Hop _ IH]; intros h Hh; cbn; [by split|].
  split; [by eexists|]. intros x _. apply IH. by apply event_idle; [|cbn; apply Hop].
Qed.

Lemma return_idle b {X} (e : store_eff X) (x : X) h :
  state h = Some b ->
  fine_obeys (fun h' y => y = x /\ state h' = Some b) h
    (translate (@AtService) (_ ← perform (PReturn e x); Ret x)).
Proof.
  intros Hh. cbn. split; [by eexists|]. intros u _.
  assert (state (h ++ [Event (AtService (PReturn e x)) u]) = Some b) as Hu by by apply event_idle.
  by split.
Qed.

(** One operation that does not act on the key. *)
Lemma op_off_key b {X} (e : eff X) h :
  key_view k e = None ->
  (forall x, possible e x -> mine && negb b = true -> successes (sent_by e x) = 0%nat) ->
  state h = Some b ->
  fine_obeys (fun h' x => possible e x /\ state h' = Some b) h (lower_serve_op _ (OnService e)).
Proof.
  intros Hoff Hpay Hh.
  assert ((forall x, eff_lock e x <> Stray) ->
    fine_obeys (fun h' x => possible e x /\ state h' = Some b) h (perform (AtService (PEff e)))) as Hone.
  { intros Hstray. split; [by eexists|]. intros x Hx.
    assert (state (h ++ [Event (AtService (PEff e)) x]) = Some b) as Hnext.
    { rewrite lock_state_snoc, Hh. cbn. specialize (Hpay x Hx). specialize (Hstray x).
      unfold eff_lock in *. destruct e; try done.
      destruct (successes _ =? 0)%nat eqn:Hz; [done|]. destruct (mine && negb b); [|done].
      by rewrite (Hpay eq_refl) in Hz. }
    split; [by eexists|done]. }
  destruct e as [|Y e|Y e| | | | | | | | | |]; cbn [lower_serve_op lower_op translate];
    try (apply Hone; intros x; unfold eff_lock; by destruct (successes _ =? 0)%nat).
  apply obeys_translate_bind. eapply obeys_mono, statements_idle; [|by apply method_idle|exact Hh].
  intros h' x _ Hh'. eapply obeys_mono, return_idle, Hh'. by intros h2 y _ [_ Hy].
Qed.

(** The operations on the key. *)
Lemma claim_takes h :
  state h = Some false ->
  fine_obeys (fun h' r => state h' =
      Some (match r : result claim with Ok (_, false, true) => true | _ => false end)) h
    (lower_serve_op _ (OnService (EStore (SClaimResult k)))).
Proof.
  intros Hh. cbn [lower_serve_op lower_op pg_method]. apply obeys_translate_bind.
  assert (forall (r : result claim) h', state h' =
      Some (match r with Ok (_, false, true) => true | _ => false end) ->
    fine_obeys (fun h2 r2 => state h2 =
        Some (match r2 : result claim with Ok (_, false, true) => true | _ => false end)) h'
      (translate (@AtService) (_ ← perform (PReturn (SClaimResult k) r); Ret r))) as Hreturn.
  { intros r h' Hh'. eapply obeys_mono, return_idle, Hh'. by intros h2 r2 _ [-> Hr]. }
  unfold pg_ClaimResult, pg_GetResult. rewrite (proj2 (String.eqb_neq k "") nonempty). cbn.
  split; [by eexists|]. intros stored _.
  assert (state (h ++ [Event (AtService (PSql (QSelectResult k))) stored]) = Some false) as Hread
    by by apply event_idle.
  destruct stored as [[resp|]|e]; cbn; [split; [by eexists|]; by apply Hreturn| |
    split; [by eexists|]; by apply Hreturn].
  split; [by eexists|]. intros rows _.
  set (h2 := (_ ++ [Event (AtService (PSql (QInsertLock k))) rows])%list).
  assert (state h2 = Some (match rows with Ok n => n =? 1 | Err _ => false end)) as Hinsert.
  { unfold h2. rewrite lock_state_snoc, Hread. cbn. destruct rows as [n|e]; [|done].
    rewrite String.eqb_refl. by destruct (n =? 1). }
  destruct rows as [n|e]; cbn; split; try (by eexists); apply Hreturn; rewrite Hinsert; [|done].
  by destruct (n =? 1).
Qed.

(** Deleting the row: the goroutine holds it before, and not after. *)
Lemma delete_drops {X} (e : store_eff X) (op : pg_op X) h :
  pg_method e = perform op -> (forall x, sql_lock k op x = Drops) ->
  state h = Some true ->
  fine_obeys (fun h' _ => is_Some (state h')) h (lower_serve_op _ (OnService (EStore e))).
Proof.
  intros Hop Hdrops Hh. cbn [lower_serve_op lower_op]. rewrite Hop. cbn.
  split; [by eexists|]. intros x _. pose proof (Hdrops x) as Hx.
  assert (state (h ++ [Event (AtService (PSql op)) x]) = Some false) as Hnext
    by (rewrite lock_state_snoc, Hh; cbn; by rewrite Hx).
  split; [by eexists|]. intros u _.
  pose proof (event_idle _ _ (Event (AtService (PReturn e x)) u) Hnext eq_refl) as Hlast.
  split; by eexists.
Qed.

(** ** The typestates of a goroutine *)

Abbreviation lowered p := (lower_serve (translate (@OnService) p)).

(** It never acts on the key: it pays nothing, or its key is another. *)
Lemma off_obeys I {A} (Q : sends -> A -> Prop) n l (p : prog eff A) b h :
  (mine = false \/ forall l', I l' -> successes l' = n) ->
  runs (off_key k) I Q l p -> state h = Some b ->
  fine_obeys (fun _ _ => True) h (lowered p).
Proof.
  intros Hcase. revert l h. induction p as [a|X e kk IH]; intros l h Hp Hh;
    [by split; [eexists|]|].
  destruct Hp as (Hl & Hoff & Hk). unfold lower_serve. cbn [translate interp]. apply obeys_bind.
  eapply obeys_mono, op_off_key; [|exact Hoff| |exact Hh].
  - intros h' x _ [Hx Hh']. eapply IH; [by apply Hk|exact Hh'].
  - intros x Hx Hmine. destruct Hcase as [->|Hsame]; [done|].
    pose proof (runs_start _ _ _ _ _ (Hk x Hx)) as Hl'. apply Hsame in Hl, Hl'.
    rewrite successes_app in Hl'. lia.
Qed.

Lemma finished_obeys {A} l (p : prog eff A) b h :
  finished k l p -> state h = Some b -> fine_obeys (fun _ _ => True) h (lowered p).
Proof. intros Hp. eapply off_obeys; [|exact Hp]. right. by intros l' ->. Qed.

Lemma owning_obeys {A} l (p : prog eff A) h :
  owning k l p -> state h = Some true -> fine_obeys (fun _ _ => True) h (lowered p).
Proof.
  revert l h. induction p as [a|X e kk IH]; intros l h Hp Hh; [by split; [eexists|]|].
  destruct Hp as [_ Hp]. unfold lower_serve. cbn [translate interp]. apply obeys_bind.
  assert (forall (e : store_eff (result unit)) op (kk : result unit -> prog eff A),
    pg_method e = perform op -> (forall x, sql_lock k op x = Drops) ->
    (forall r, finished k l (kk r)) ->
    fine_obeys (fun h' x => fine_obeys (fun _ _ => True) h' (lowered (kk x))) h
      (lower_serve_op _ (OnService (EStore e)))) as Hdelete.
  { intros e' op kk' Hop Hdrops Hfin. eapply obeys_mono, delete_drops; [|done..].
    intros h' r _ [b Hb]. by eapply finished_obeys. }
  destruct (key_view k e) as [act|] eqn:Hview.
  - destruct e as [|Y e|Y e| | | | | | | | | |]; try done.
    destruct e; try done; cbn in Hview; case_bool_decide as Hk; try done; subst;
      injection Hview as <-; cbn in Hp; [done|..].
    + eapply (Hdelete _ (TSaveResult k resp)); [|intros r; cbn; by rewrite String.eqb_refl|done].
      cbn. unfold pg_SaveResult. by rewrite (proj2 (String.eqb_neq k "") nonempty).
    + eapply (Hdelete _ (QDeleteLock k)); [|intros r; cbn; by rewrite String.eqb_refl|apply Hp].
      cbn. unfold pg_ReleaseClaim. by rewrite (proj2 (String.eqb_neq k "") nonempty).
  - eapply obeys_mono, op_off_key; [|exact Hview| |exact Hh].
    + intros h' x _ [Hx Hh']. eapply IH; [by apply Hp|exact Hh'].
    + intros x _. by rewrite andb_false_r.
Qed.

Lemma waiting_obeys {A} (p : prog eff A) h :
  waiting k p -> state h = Some false -> fine_obeys (fun _ _ => True) h (lowered p).
Proof.
  revert h. induction p as [a|X e kk IH]; intros h Hp Hh; [by split; [eexists|]|].
  cbn in Hp. unfold lower_serve. cbn [translate interp]. apply obeys_bind.
  destruct (key_view k e) as [act|] eqn:Hview.
  - destruct e as [|Y e|Y e| | | | | | | | | |]; try done.
    destruct e; try done; cbn in Hview; case_bool_decide as Hk; try done; subst;
      injection Hview as <-; cbn in Hp; [|done..].
    eapply obeys_mono, claim_takes, Hh. intros h' r _ Hr. specialize (Hp r).
    destruct r as [[[previous done] claimed]|e]; [|by eapply finished_obeys].
    destruct done; [by eapply finished_obeys|].
    destruct claimed; [by eapply owning_obeys|by eapply finished_obeys].
  - destruct Hp as [Hs Hp]. eapply obeys_mono, op_off_key; [|exact Hview| |exact Hh].
    + intros h' x _ [Hx Hh']. by apply IH; [apply Hp|].
    + intros x _ _. by rewrite Hs.
Qed.
End Goroutine.

(** ** The goroutines of the service *)

Section Service.
Context `{GoUnicode, Geth, GoText, PgServer} {SN : Type} `{NonceStore SN}.
Variable k : string.
Hypothesis nonempty : k <> ""%string.

Abbreviation fine_obeys mine := (pg_obeys (fun h => is_Some (lock_state k mine h))).

Lemma security_keeps mine b {A} (Q : A -> Prop) (p : prog sec_op A) h0 h :
  security_obeys (fun _ a => Q a) h0 p -> lock_state k mine h = Some b ->
  fine_obeys mine (fun h' a => lock_state k mine h' = Some b /\ Q a) h
    (lower_serve (translate (@OnSecurity) p)).
Proof.
  revert h0 h. induction p as [a|X e kk IH]; intros h0 h Hp Hh.
  - destruct Hp as [_ Hp]. split; [by eexists|done].
  - destruct Hp as [_ Hp]. unfold lower_serve. cbn. split; [by eexists|]. intros x _.
    eapply IH; [by apply Hp|by apply event_idle].
Qed.

Lemma job_keeps sv j mine h :
  mine = bool_decide (job_key j = Some k) -> lock_state k mine h = Some false ->
  fine_obeys mine (fun _ _ => True) h (lower_serve (on_its_own sv j)).
Proof.
  intros -> Hh. unfold on_its_own. apply obeys_interp_bind.
  assert (fine_obeys (bool_decide (job_key j = Some k)) (fun _ _ => True) h
            (lower_serve (translate (@OnService) (job_prog (sv_cfg sv) (sv_guard sv) j)))) as Hjob.
  { pose proof (job_phase k (sv_cfg sv) (sv_guard sv) j) as Hphase.
    case_bool_decide; [by apply waiting_obeys|]. eapply (off_obeys _ _ _ _ 0); [by left|exact Hphase|exact Hh]. }
  eapply obeys_mono, Hjob. intros h' r Hfine _. by apply obeys_ret.
Qed.

(** Whatever it is answered, a goroutine deletes the row only while it holds it,
    and pays for its own key only then. *)
Lemma goroutine_keeps sv g :
  fine_obeys (bool_decide (incoming_key sv g = Some k)) (fun _ _ => True) []
    (lower_serve (goroutine_prog sv g)).
Proof.
  assert (forall mine, lock_state k mine [] = Some false) as Hstart by done.
  destruct g as [rq|n|n]; cbn [goroutine_prog incoming_key].
  2-3: by apply job_keeps.
  on_route; [intros; by split; [eexists|]|]. destruct (String.eqb (rq_Path rq) "/healthz").
  { by split; [eexists|]. }
  destruct (String.eqb_spec (rq_Path rq) "/readyz") as [Hp|_]; [rewrite Hp; by apply (job_keeps sv ReadyRequest)|].
  rewrite protected_route_job. destruct (route_job (rq_Path rq)) as [mk|] eqn:Hmk;
    [|by split; [eexists|]].
  cbn [fmap option_fmap option_map mbind option_bind]. unfold behind. apply obeys_interp_bind.
  pose proof (Handler_obeys (sv_middleware sv) rq) as Hm.
  eapply (obeys_mono _ _ _ (fun _ out => hands sv rq [] out)) in Hm; [|by intros h [|] _ H'; [|apply H']].
  eapply obeys_mono, (security_keeps _ false _ _ _ _ Hm), Hstart.
  intros h [status message|rq' ctx] Hfine [Hh Hhands]; [by apply obeys_ret|].
  cbn in Hhands. apply (job_keeps sv (mk rq' ctx)); [|done].
  by rewrite Hhands, (job_key_context _ _ _ _ Hmk).
Qed.

(** ** The pool *)

Variable clock : nat -> Time.
Variable entropy : nat -> option (list Z).
Variable env : environment.
Abbreviation pg_state := (sec_world SN * world pg_tables)%type.
Abbreviation pg_goroutine := (prog pg_serve_op served * list (event pg_serve_op))%type.
Abbreviation locks w := (signer_idempotency_locks (w_store w.2)).

Lemma step_effect X (e : pg_serve_op X) (w : pg_state) :
  match lock_of k (Event e (handle_pg_serve clock entropy env X e w).1) with
  | Takes => (k ∉ locks w) /\ (k ∈ locks (handle_pg_serve clock entropy env X e w).2)
  | Drops | Stray => True
  | _ => (k ∈ locks w) -> (k ∈ locks (handle_pg_serve clock entropy env X e w).2)
  end.
Proof.
  destruct e as [X op|X [Y e|Y op|Y e x]]; cbn.
  - by destruct (handle_sec clock entropy X op w.1).
  - assert (eff_lock e (handle env Y e w.2).1 <> Stray ->
      w_store (handle env Y e w.2).2 = w_store w.2) as Hsame.
    { destruct e as [|Y e|Y e| | | | | | | | | |]; cbn; try done; intros _; [by destruct e|].
      by destruct (sendCandidates _ _ _) as [[hs f]|]. }
    destruct (handle env Y e w.2) as [x w']. cbn in *.
    assert (eff_lock e x = Stray \/ eff_lock e x = Idle \/ eff_lock e x = Pays) as Hcases
      by (unfold eff_lock; destruct e; auto; by destruct (successes _ =? 0)%nat; auto).
    destruct Hcases as [->|[Hl|Hl]]; [done|rewrite Hl in *; by rewrite Hsame..].
  - pose proof (lock_effect k (the_call env w.2) Y op (w_store w.2)) as Hl.
    destruct (handle_pg (the_call env w.2) Y op (w_store w.2)) as [y t]. cbn.
    by destruct (sql_lock k op y).
  - done.
Qed.

(** The goroutines that hold the lock. *)
Definition holders (ts : list pg_goroutine) : nat := sum_list ((fun t => Nat.b2n (holds k t.2)) <$> ts).

Lemma holders_insert ts i (t t' : pg_goroutine) :
  ts !! i = Some t ->
  (holders (<[i := t']> ts) + Nat.b2n (holds k t.2) = holders ts + Nat.b2n (holds k t'.2))%nat.
Proof.
  intros Hi. unfold holders. rewrite list_fmap_insert. apply sum_list_insert.
  by rewrite list_lookup_fmap, Hi.
Qed.

Definition lock_inv (c : list pg_goroutine * pg_state) : Prop :=
  (holders c.1 <= Nat.b2n (bool_decide (k ∈ locks c.2)))%nat.

Lemma lock_steps c c' :
  rtc (history_step (handle_pg_serve clock entropy env)) c c' -> lock_inv c ->
  Forall (fun t => is_Some (lock_state k false t.2)) c'.1 -> lock_inv c'.
Proof.
  intros Hsteps Hc. revert c' Hsteps.
  refine (rtc_ind_r (fun c' => Forall (fun t => is_Some (lock_state k false t.2)) c'.1 -> lock_inv c')
            c (fun _ => Hc) _).
  intros c1 c2 _ [ts w i X e kk h Hi] IH Hfine. unfold lock_inv in *. cbn [fst snd] in *.
  set (r := handle_pg_serve clock entropy env X e w) in *.
  set (t' := (kk r.1, (h ++ [Event e r.1])%list)) in *.
  assert (is_Some (lock_state k false (h ++ [Event e r.1]))) as Hnext.
  { apply (Forall_lookup_1 _ _ i t' Hfine). apply list_lookup_insert_eq. by eapply lookup_lt_Some. }
  destruct (lock_state_prefix _ _ _ _ Hnext) as [held Hheld].
  assert (Forall (fun t => is_Some (lock_state k false t.2)) ts) as Hts.
  { apply Forall_lookup. intros j t Hj. destruct (decide (i = j)) as [<-|Hne].
    - rewrite Hi in Hj. injection Hj as <-. by eexists.
    - apply (Forall_lookup_1 _ _ j t Hfine). by rewrite list_lookup_insert_ne. }
  specialize (IH Hts). pose proof (holders_insert ts i (Vis e kk, h) t' Hi) as Hcount.
  pose proof (step_effect X e w) as Heffect. fold r in Heffect.
  unfold holds, t' in Hcount. cbn [snd] in Hcount. rewrite lock_state_snoc, Hheld in Hcount, Hnext.
  cbn [lock_step default] in Hcount, Hnext. fold t' in Hcount.
  assert (forall P Q : Prop, forall (dP : Decision P) (dQ : Decision Q), (P -> Q) ->
    (Nat.b2n (bool_decide P) <= Nat.b2n (bool_decide Q))%nat) as Hmono
    by (intros P Q dP dQ HPQ; repeat case_bool_decide; cbn; try lia; tauto).
  destruct (lock_of k (Event e r.1)); cbn in Hcount, Hnext.
  - specialize (Hmono _ _ _ _ Heffect). lia.
  - destruct Heffect as [Hfree Htaken]. rewrite bool_decide_false in IH by done.
    rewrite bool_decide_true by done. destruct held; cbn in *; lia.
  - destruct held; cbn in Hcount; [|by destruct Hnext].
    destruct (bool_decide (k ∈ locks w)); cbn in IH; lia.
  - specialize (Hmono _ _ _ _ Heffect). lia.
  - by destruct Hnext.
Qed.

(** C8: over PostgreSQL the payments of a key do not overlap. However the
    goroutines of the service interleave between their statements, at most one of
    them holds the lock of the key [k]; and whenever a request with this key had a
    broadcast taken, it held the lock at that moment. *)
Theorem pg_payments_exclusive sv gs (w : pg_state) c' :
  rtc (history_step (handle_pg_serve clock entropy env)) (pg_start sv gs, w) c' ->
  (holders c'.1 <= 1)%nat /\
  Forall2 (fun g t => incoming_key sv g = Some k ->
    forall before ev later, t.2 = (before ++ ev :: later)%list -> lock_of k ev = Pays ->
      holds k before = true) gs c'.1.
Proof.
  intros Hsteps.
  assert (Forall2 (fun g t => is_Some (lock_state k (bool_decide (incoming_key sv g = Some k)) t.2))
            gs c'.1) as Hfine.
  { assert (Forall2 (fun g t => pg_obeys
        (fun h => is_Some (lock_state k (bool_decide (incoming_key sv g = Some k)) h))
        (fun _ _ => True) t.2 t.1) gs (pg_start sv gs)) as Hstart
      by (apply Forall2_fmap_r, Forall_Forall2_diag, Forall_forall; intros g _; apply goroutine_keeps).
    eapply (histories_obey _ _ (fun g h => is_Some (lock_state k (bool_decide (incoming_key sv g = Some k)) h))
              (fun _ _ _ => True) gs _ c' (handle_pg_possible clock entropy env) Hsteps) in Hstart.
    eapply Forall2_impl; [exact Hstart|]. intros g t Ht. by apply obeys_now in Ht. }
  split.
  - enough (lock_inv c') as Hinv by (unfold lock_inv in Hinv; destruct (bool_decide _); cbn in Hinv; lia).
    eapply lock_steps; [exact Hsteps|..].
    + unfold lock_inv, holders. cbn [fst]. unfold pg_start. rewrite <- list_fmap_compose.
      replace (sum_list _) with 0%nat; [lia|].
      clear. induction gs as [|g gs IH]; [done|exact IH].
    + clear -Hfine. induction Hfine as [|g t gs ts [b Hb] _ IH]; constructor; [|done].
      exists b. by eapply lock_state_mine.
  - eapply Forall2_impl; [exact Hfine|]. intros g t Ht Hkey before ev later Hhist Hpays.
    cbn beta in Ht. rewrite bool_decide_true, Hhist in Ht by done.
    change (before ++ ev :: later)%list with (before ++ [ev] ++ later)%list in Ht.
    rewrite (assoc_L (++)) in Ht. apply lock_state_prefix in Ht. rewrite lock_state_snoc in Ht.
    destruct (lock_state k true before) as [held|] eqn:Hheld; [|by destruct Ht].
    cbn in Ht. rewrite Hpays in Ht. unfold holds. rewrite (lock_state_mine _ _ _ _ Hheld).
    destruct held; [done|by destruct Ht].
Qed.
End Service.

(** ** Closed run: two requests with one key *)

#[local] Existing Instance ascii_unicode.
#[local] Existing Instance ref_geth.
#[local] Existing Instance example_text.
#[local] Existing Instance example_server.
#[local] Existing Instance list_map_order.

(** The two requests of [example_goroutines] take turns for [n] operations each. *)
Definition taking_turns (n : nat) : list (prog pg_serve_op served * list (event pg_serve_op)) *
    (sec_world InMemoryNonceStore * world pg_tables) :=
  run_history (handle_pg_serve second_clock example_entropy good_environment)
    (concat (replicate n [0; 1]%nat)) (pg_start example_service example_goroutines,
                                        (example_world, pg_world)).

Lemma pg_payments_exclusive_witness :
  (holders "buy-1" (taking_turns 60).1 <= 1)%nat /\
  Forall2 (fun g t => incoming_key example_service g = Some "buy-1"%string ->
    forall before ev later, t.2 = (before ++ ev :: later)%list -> lock_of "buy-1" ev = Pays ->
      holds "buy-1" before = true) example_goroutines (taking_turns 60).1.
Proof.
  refine (pg_payments_exclusive "buy-1" _ second_clock example_entropy good_environment
            example_service example_goroutines (example_world, pg_world) (taking_turns 60) _).
  - discriminate.
  - apply run_history_steps.
Defined.

(** One of them holds the lock and pays, the other is sent away; at the end nobody
    holds it. *)
Example taking_turns_outcome :
  holders "buy-1" (taking_turns 20).1 = 1%nat /\ holders "buy-1" (taking_turns 60).1 = 0%nat /\
  (fun t => match t.1 with Ret (Handled (Some r)) => Some (res_status r) | _ => None end)
    <$> take 2 (taking_turns 60).1 = [Some 200; Some 409].
Proof. split; [|split]; vm_compute; reflexivity. Qed.
