(* ===== verification/Healthy.v ===== *)
(** * A request that meets with no failure is paid.

    The other files say what the service never does. This one says what it does:
    a request that its client signed, that fits the configuration, and whose
    operations are all answered well, is answered with 200 and the hash of the one
    transaction it asked for, which the node took. [healthy] lists what an answer
    must be; the rest (custody events, marks of nonces, records of transactions,
    gas estimates) may fail. *)
From S2P Require Export PgService.

(** ** Programs whose operations are answered well *)

Section Leads.
Variable good : forall X, eff X -> X -> bool.
Abbreviation well := (fun X e x => good X e x = true).

(** From broadcasts [l], well answered, to a result with [Q]. *)
Definition leads {A} (Q : sends -> A -> Prop) (l : sends) (p : prog eff A) : Prop :=
  forall h, eff_sends h = l -> obeys well (fun _ => True) (fun h' a => Q (eff_sends h') a) h p.

Lemma leads_ret {A} (Q : sends -> A -> Prop) l a : Q l a -> leads Q l (Ret a).
Proof. by intros HQ h <-. Qed.

Lemma leads_mono {A} (Q R : sends -> A -> Prop) l p :
  (forall l a, Q l a -> R l a) -> leads Q l p -> leads R l p.
Proof. intros HQR Hp h Hh. eapply obeys_mono, Hp; [|done]. cbn. auto. Qed.

Lemma leads_bind {A B} (Q : sends -> B -> Prop) l (p : prog eff A) (f : A -> prog eff B) :
  leads (fun l' a => leads Q l' (f a)) l p -> leads Q l (p ≫= f).
Proof.
  intros Hp h Hh. apply obeys_bind. eapply obeys_mono, Hp; [|done]. intros h' a _ Ha. by apply Ha.
Qed.

Lemma leads_op {X A} (Q : sends -> A -> Prop) l (e : eff X) (k : X -> prog eff A) :
  (forall x, good X e x = true -> leads Q (l ++ sent_by e x) (k x)) -> leads Q l (perform e ≫= k).
Proof.
  intros Hk h Hh. apply obeys_op; [done|]. intros x Hx. apply (Hk x Hx).
  by rewrite eff_sends_snoc, Hh.
Qed.

Lemma leads_quiet {X A} (Q : sends -> A -> Prop) l (e : eff X) (k : X -> prog eff A) :
  (forall x, sent_by e x = []) -> (forall x, good X e x = true -> leads Q l (k x)) ->
  leads Q l (perform e ≫= k).
Proof.
  intros Hs Hk. apply leads_op. intros x Hx. rewrite Hs, (right_id_L [] (++)). by apply Hk.
Qed.

(** A call whose result is not looked at. *)
Lemma leads_ignore {X A} (Q : sends -> A -> Prop) l (e : store_eff X) (k : unit -> prog eff A) :
  leads Q l (k tt) -> leads Q l (ignore (store_call e) ≫= k).
Proof. intros Hk. by apply (leads_quiet Q l (EStore e) (fun _ => k tt)). Qed.

(** A call whose error ends the request. *)
Lemma leads_call {X A} (Q : sends -> A -> Prop) l (e : eff (result X)) (k : result X -> prog eff A) :
  (forall x, sent_by e x = []) -> (forall x, good _ e x = true -> is_ok x = true) ->
  (forall a, good _ e (Ok a) = true -> leads Q l (k (Ok a))) ->
  leads Q l (perform e ≫= k).
Proof.
  intros Hs Hok Hk. apply leads_quiet; [done|]. intros [a|err] Hx; [by apply Hk|].
  by apply Hok in Hx.
Qed.
End Leads.

Section Healthy.
Context `{GoUnicode, Geth, GoText}.
Implicit Types cfg : SignerConfig.

(** ** Good answers

    [in_time]: the readings of the clock; [room]: the day's outflow; [chain]: the
    chain id the endpoints report. *)
Variable in_time : Time -> bool.
Variable room : f64 -> bool.
Variable chain : Z -> bool.

Definition ok_with {A} (P : A -> bool) (r : result A) : bool :=
  match r with Ok a => P a | Err _ => false end.

(** The middleware lets no empty nonce through. *)
Definition healthy_store {X} (e : store_eff X) : X -> bool :=
  match e in store_eff X return X -> bool with
  | SAcceptNonce nonce _ => fun r => String.eqb nonce "" || ok_with id r
  | SClaimResult _ => ok_with (fun '(_, done, claimed) => negb done && claimed)
  | SSaveResult _ _ => is_ok
  | SReserveChainNonce _ _ _ => is_ok
  | SDailySubmittedOutflow _ _ => ok_with room
  | _ => fun _ => true
  end.

Definition healthy_net {X} (e : net_eff X) : X -> bool :=
  match e in net_eff X return X -> bool with
  | NDial _ => is_ok
  | NChainID _ => ok_with chain
  | NPendingNonceAt _ _ => is_ok
  | NSuggestGasPrice _ => is_ok
  | NSendTransaction _ _ => is_ok
  | _ => fun _ => true
  end.

Definition healthy (X : Type) (e : eff X) : X -> bool :=
  match e in eff X return X -> bool with
  | ENow => in_time
  | EStore e => healthy_store e
  | ENet e => healthy_net e
  | EFleetSend _ => fun handles => match handles with Some (_ :: _) => true | _ => false end
  | EGetLocked => negb
  | _ => fun _ => true
  end.

Abbreviation pays := (leads healthy).

(** One transaction was handed over, it was taken, its hash is the answer. *)
Definition paid (good : SignedTransaction -> Prop) (l : sends) (o : outcome TransferResponse) : Prop :=
  exists tx resp, l = [(tx, true)] /\ o = Return resp /\ TxHash resp = hash_Hex (st_hash tx) /\
    good tx.

(** ** Requests that fit

    The hot wallet has a key that can sign, and a fleet. *)
Record able cfg : Prop := {
  able_real : AllowSimulation cfg = false;
  able_fleet : RPCFleet cfg = true;
  able_key : exists key, HexToECDSA (TrimPrefix (EVMPrivateKey cfg) "0x") = Ok key /\
    forall tx c, is_ok (tx_signature tx c key) = true;
}.

Definition within_limits cfg (next : f64) : Prop :=
  forall limit, limit ∈ [TreasuryLockThreshold cfg; TreasuryMaxDailyOut cfg] ->
    fltb fzero limit && fltb limit next = false.

Definition fits_treasury cfg (amount : string) : Prop :=
  exists a, parseFloatAmount amount = Ok a /\
    forall o, room o = true -> within_limits cfg (fadd o a).

Definition on_chain (network : string) : Prop :=
  evm_network network = true /\
  (network = "BSC"%string -> forall c, chain c = true -> c = 56).

Definition transfer_fits cfg (req : TransferRequest) : Prop :=
  let network := requestedNetwork cfg req in
  validateTransferPolicy cfg req network = Ok tt /\ tr_DerivationIndex req = None /\
  fits_treasury cfg (tr_Amount req) /\ on_chain network /\
  exists s, pays_transfer cfg req network s.

Definition contract_fits cfg (req : ContractCallRequest) : Prop :=
  let network := requestedContractNetwork cfg req in
  validateContractCallPolicy cfg req network = Ok tt /\ cc_DerivationIndex req = None /\
  (TrimSpace (cc_Amount req) = ""%string \/ fits_treasury cfg (cc_Amount req)) /\
  on_chain network /\ exists s, calls_contract req network s.

Definition settlement_fits cfg (req : SettlementExecuteRequest) : Prop :=
  exists network amount,
    (forall t, in_time t = true ->
       validateSettlementExecuteRequest cfg t req = Ok (network, amount)) /\
    evm_network network = true /\ (forall c, chain c = true -> c = se_ChainID req) /\
    exists s, pays_settlement req amount s.

(** ** One attempt *)

Lemma ok_with_ok {A} (P : A -> bool) (r : result A) : ok_with P r = true -> is_ok r = true.
Proof. by destruct r. Qed.
Hint Resolve ok_with_ok : core.

Lemma sign_and_send_pays cfg url key from network c r data tx (good : SignedTransaction -> Prop) :
  is_ok (tx_signature tx c key) = true ->
  (forall h, good {| st_tx := tx; st_chainID := c; st_hash := h |}) ->
  pays (paid good) [] (sign_and_send cfg url key from network c r data tx).
Proof.
  intros Hsign Hgood. unfold sign_and_send, SignTx.
  destruct (tx_signature tx c key) as [h|e]; [|done]. cbn [mbind result_bind].
  apply leads_op. intros [u|e] Hx; [|done]. cbn [sent_by is_ok app].
  do 2 apply leads_ignore. apply leads_bind, leads_ignore, leads_ret, leads_ret.
  by eexists _, _.
Qed.

Lemma event_pays {A} (Q : sends -> A -> Prop) l cfg kind reason txHash wallet data
    (k : unit -> prog eff A) :
  pays Q l (k tt) -> pays Q l (custody_event cfg kind reason txHash wallet data ≫= k).
Proof. apply leads_ignore. Qed.

Lemma reserve_nonce_pays cfg url from network data good k :
  (forall nonce gasPrice, pays (paid good) [] (k nonce gasPrice)) ->
  pays (paid good) [] (reserve_nonce cfg url from network data k).
Proof.
  intros Hk. unfold reserve_nonce. apply leads_call; [done..|]. intros p _. cbn [or_fail].
  apply leads_call; [done..|]. intros nonce _. cbn [or_fail]. apply event_pays.
  apply leads_call; [done..|]. intros price _. apply Hk.
Qed.

Lemma check_chain_pays url what ok good k :
  (forall c, chain c = true -> ok c = true /\ pays (paid good) [] (k c)) ->
  pays (paid good) [] (check_chain url what ok k).
Proof.
  intros Hk. unfold check_chain. apply leads_call; [done|intros x; apply ok_with_ok|]. intros c Hc.
  cbn [or_fail]. by destruct (Hk c Hc) as [-> Hpays].
Qed.

Lemma estimate_pays {A} (Q : sends -> A -> Prop) l url from to value data (k : result Z -> prog eff A) :
  (forall g, pays Q l (k g)) -> pays Q l (g ← net_call (NEstimateGas url from to value data); k g).
Proof. intros Hk. apply leads_quiet; [done|]. intros g _. apply Hk. Qed.

Section Attempts.
Variables (cfg : SignerConfig) (key : PrivateKey) (from : Address) (network url : string).
Hypothesis signs : forall tx c, is_ok (tx_signature tx c key) = true.

Lemma bsc_ok c : on_chain network -> chain c = true ->
  negb (String.eqb network "BSC") || (c =? 56) = true /\ (network = "BSC"%string -> c = 56).
Proof.
  intros [_ Hc] Hx. destruct (String.eqb_spec network "BSC") as [->|Hn]; [|done].
  specialize (Hc eq_refl c Hx). subst. done.
Qed.

Lemma transfer_pays req :
  on_chain network -> (exists s, pays_transfer cfg req network s) ->
  pays (paid (pays_transfer cfg req network)) []
    (executeEVMTransferWithClient cfg req network key from url).
Proof.
  intros Hchain [s [_ Hpay]]. apply check_chain_pays. intros c Hc.
  destruct (bsc_ok c Hchain Hc) as [-> Hbsc]. split; [done|]. apply reserve_nonce_pays.
  intros nonce price. revert Hpay. unfold pays_transfer. cbv zeta. destruct (negb _ && negb _).
  - intros (amount & -> & _ & _ & Hdata). cbn [or_fail]. rewrite Hdata.
    apply estimate_pays. intros g. apply sign_and_send_pays; [done|]. intros h. split; [done|].
    by exists amount.
  - intros (-> & _ & _). cbn [or_fail]. apply estimate_pays. intros g.
    by apply sign_and_send_pays.
Qed.

Lemma contract_pays req :
  on_chain network -> (exists s, calls_contract req network s) ->
  pays (paid (calls_contract req network)) []
    (executeEVMContractCallWithClient cfg req network key from url).
Proof.
  intros Hchain (s & _ & _ & _ & Hdata). apply check_chain_pays. intros c Hc.
  destruct (bsc_ok c Hchain Hc) as [-> Hbsc]. split; [done|]. apply reserve_nonce_pays.
  intros nonce price. rewrite Hdata. cbn [or_fail]. apply estimate_pays. intros g.
  by apply sign_and_send_pays.
Qed.

Lemma settlement_pays req amount :
  (forall c, chain c = true -> c = se_ChainID req) -> (exists s, pays_settlement req amount s) ->
  pays (paid (pays_settlement req amount)) []
    (executeEVMSettlementWithClient cfg req network amount key from url).
Proof.
  intros Hchain (s & _ & _ & _ & Hdata). apply check_chain_pays. intros c Hc.
  specialize (Hchain c Hc) as ->. split; [apply Z.eqb_refl|]. apply reserve_nonce_pays.
  intros nonce price. rewrite Hdata. cbn [or_fail]. apply estimate_pays. intros g.
  by apply sign_and_send_pays.
Qed.
End Attempts.

(** ** The executions *)

Lemma over_fleet_pays cfg simulated network withClient good :
  able cfg ->
  (forall key from url, (forall tx c, is_ok (tx_signature tx c key) = true) ->
     pays (paid good) [] (withClient key from url)) ->
  pays (paid good) [] (over_fleet cfg simulated network withClient).
Proof.
  intros [Hreal Hfleet (key & Hkey & Hsigns)] Hclient. unfold over_fleet.
  rewrite Hkey. cbn [or_fail]. rewrite Hreal. unfold fleet_candidates. rewrite Hfleet.
  apply leads_quiet; [done|]. intros [[|h hs]|] Hx; [done| |done]. cbn [try_handles].
  apply leads_quiet; [done|]. intros start _.
  apply leads_quiet; [done|]. intros [u|e] Hdial; [|done].
  apply leads_bind. eapply leads_mono, Hclient, Hsigns.
  intros l o (tx & resp & -> & -> & Hhash & Hgood).
  apply leads_quiet; [done|]. intros t _. unfold record_fleet_success. rewrite Hfleet.
  apply leads_quiet; [done|]. intros [] _. apply leads_ret. by eexists _, _.
Qed.

Lemma treasury_limits_pass cfg next data (Q : sends -> result unit -> Prop) :
  within_limits cfg next -> Q [] (Ok tt) -> pays Q [] (treasury_limits cfg next data).
Proof.
  intros Hin HQ. unfold treasury_limits. rewrite !Hin by set_solver. by apply leads_ret.
Qed.

Lemma treasury_pass cfg req network :
  fits_treasury cfg (tr_Amount req) ->
  pays (fun l r => l = [] /\ r = Ok tt) [] (validateTreasuryPolicy cfg req network).
Proof.
  intros (a & Ha & Hin). unfold validateTreasuryPolicy. rewrite Ha.
  apply leads_call; [done|intros x; apply ok_with_ok|]. intros o Ho.
  apply treasury_limits_pass; [by apply Hin|done].
Qed.

Lemma contract_treasury_pass cfg req network :
  TrimSpace (cc_Amount req) = ""%string \/ fits_treasury cfg (cc_Amount req) ->
  pays (fun l r => l = [] /\ r = Ok tt) [] (validateContractCallTreasuryPolicy cfg req network).
Proof.
  intros Hamount. unfold validateContractCallTreasuryPolicy.
  destruct (String.eqb_spec (TrimSpace (cc_Amount req)) "") as [He|Hne]; [by apply leads_ret|].
  destruct Hamount as [?|(a & Ha & Hin)]; [done|]. rewrite Ha.
  apply leads_call; [done|intros x; apply ok_with_ok|]. intros o Ho.
  apply treasury_limits_pass; [by apply Hin|done].
Qed.

Lemma executeTransfer_pays cfg req :
  able cfg -> transfer_fits cfg req ->
  pays (paid (pays_transfer cfg req (requestedNetwork cfg req))) [] (executeTransfer cfg req).
Proof.
  intros Hable (Hpolicy & Hindex & Htreasury & Hchain & Hpay). unfold executeTransfer.
  rewrite Hpolicy. cbn [or_fail]. apply leads_bind. eapply leads_mono, treasury_pass; [|done].
  intros l r [-> ->]. cbn [or_fail]. rewrite Hindex. cbn [bool_decide].
  unfold on_evm. rewrite (proj1 Hchain). apply over_fleet_pays; [done|]. intros key from url Hsigns.
  by apply transfer_pays.
Qed.

Lemma executeContractCall_pays cfg req :
  able cfg -> contract_fits cfg req ->
  pays (paid (calls_contract req (requestedContractNetwork cfg req))) [] (executeContractCall cfg req).
Proof.
  intros Hable (Hpolicy & Hindex & Htreasury & Hchain & Hpay). unfold executeContractCall.
  rewrite Hpolicy. cbn [or_fail]. apply leads_bind. eapply leads_mono, contract_treasury_pass; [|done].
  intros l r [-> ->]. cbn [or_fail]. rewrite Hindex. cbn [bool_decide].
  unfold on_evm. rewrite (proj1 Hchain). apply over_fleet_pays; [done|]. intros key from url Hsigns.
  by apply contract_pays.
Qed.

Lemma executeSettlement_pays cfg req :
  able cfg -> settlement_fits cfg req ->
  pays (paid (fun s => exists t network amount,
      validateSettlementExecuteRequest cfg t req = Ok (network, amount) /\ pays_settlement req amount s))
    [] (executeSettlement cfg req).
Proof.
  intros Hable (network & amount & Hvalid & Hevm & Hchain & Hpay). unfold executeSettlement.
  apply leads_quiet; [done|]. intros t Ht. rewrite (Hvalid t Ht). cbn [or_fail].
  unfold on_evm. rewrite Hevm. eapply leads_mono; [|apply over_fleet_pays; [done|]].
  2: { intros key from url Hsigns. by apply settlement_pays. }
  intros l o (tx & resp & Hl & Ho & Hhash & Htx). exists tx, resp. do 3 (split; [done|]).
  exists t, network, amount. split; [by apply Hvalid|done].
Qed.

(** ** The routes *)

(** The body is a request of its route, and it fits. *)
Definition body_fits cfg (path body : string) : Prop :=
  (path = "/hd/transfer"%string /\ exists req, json_TransferRequest body = Ok req /\
     transfer_fits cfg req) \/
  (path = "/hd/contract-call"%string /\ exists req, json_ContractCallRequest body = Ok req /\
     contract_fits cfg req) \/
  (path = "/settlements/execute"%string /\ exists req,
     (default_key <$> json_SettlementExecuteRequest body) = Ok req /\ settlement_fits cfg req).

(** The answer to a request that was paid. *)
Definition answered (good : SignedTransaction -> Prop) (l : sends) (r : option http_response) : Prop :=
  exists tx resp, l = [(tx, true)] /\ r = writeSignerJSON resp /\
    TxHash resp = hash_Hex (st_hash tx) /\ good tx.

Lemma claim_answers key exec good :
  pays (paid good) [] exec -> pays (answered good) [] (claim_and_execute key exec).
Proof.
  intros Hexec. unfold claim_and_execute.
  apply leads_call; [done|intros x; apply ok_with_ok|]. intros [[previous done] claimed] Hclaim.
  cbn in Hclaim. apply andb_true_iff in Hclaim as [Hdone%negb_true_iff Hclaimed].
  rewrite Hdone, Hclaimed. cbn [negb]. apply leads_bind. eapply leads_mono, Hexec.
  intros l o (tx & resp & -> & -> & Hhash & Hgood). apply leads_call; [done..|]. intros u _.
  apply leads_ret. by exists tx, resp.
Qed.

Lemma Locked_answers {A} (Q : sends -> A -> Prop) g (k : bool * string -> prog eff A) :
  (forall reason, pays Q [] (k (false, reason))) -> pays Q [] (Locked g ≫= k).
Proof.
  intros Hk. destruct g as [g|]; [|apply Hk]. unfold Locked.
  apply leads_quiet; [done|]. intros reason _. apply leads_quiet; [done|].
  intros [] Hlocked; [done|]. apply Hk.
Qed.

Lemma route_answers {Req} cfg g (decode : string -> result Req) key exec rq c body req good :
  rq_Method rq = "POST"%string -> Nonce c <> ""%string ->
  read_limited handler_body_limit rq = Ok body -> decode body = Ok req -> pays (paid good) [] (exec req) ->
  pays (answered good) [] (signing_route cfg g decode key exec rq (Some c)).
Proof.
  intros Hpost Hnonce%String.eqb_neq Hbody Hreq Hexec. unfold signing_route. rewrite Hpost. cbn [String.eqb negb].
  apply Locked_answers. intros reason. cbn [fst]. unfold with_fresh_body. rewrite Hbody.
  apply leads_call; [done|intros x; cbn; rewrite Hnonce; apply ok_with_ok|]. intros accepted Hok.
  cbn in Hok. rewrite Hnonce in Hok. cbn in Hok. rewrite Hok. cbn [negb]. rewrite Hreq. by apply claim_answers.
Qed.

Lemma protected_answers sv path next rq c body :
  protected_route sv path = Some next -> able (sv_cfg sv) -> body_fits (sv_cfg sv) path body ->
  rq_Method rq = "POST"%string -> Nonce c <> ""%string ->
  read_limited handler_body_limit rq = Ok body ->
  pays (answered (asks_for (sv_cfg sv) path body)) [] (next rq (Some c)).
Proof.
  intros Hnext Hable Hfits Hpost Hnonce Hbody.
  assert (forall good l r, answered good l r ->
    (forall s, good s -> asks_for (sv_cfg sv) path body s) ->
    answered (asks_for (sv_cfg sv) path body) l r) as Hmono
    by (intros good l r (tx & resp & ? & ? & ? & ?) Hgood; exists tx, resp; auto).
  destruct Hfits as [[-> (req & Hreq & Hfit)]|[[-> (req & Hreq & Hfit)]|[-> (req & Hreq & Hfit)]]];
    injection Hnext as <-.
  - eapply leads_mono; [|eapply route_answers; [done..|by apply executeTransfer_pays]].
    intros l r Hr. eapply Hmono; [exact Hr|]. intros s Hs. left. split; [done|].
    exists req. by destruct Hfit.
  - eapply leads_mono; [|eapply route_answers; [done..|by apply executeContractCall_pays]].
    intros l r Hr. eapply Hmono; [exact Hr|]. intros s Hs. right. left. split; [done|].
    exists req. by destruct Hfit.
  - eapply leads_mono; [|eapply route_answers; [done..|by apply executeSettlement_pays]].
    intros l r Hr. eapply Hmono; [exact Hr|]. intros s (t & network & amount & Hs). right. right.
    split; [done|]. by exists req, t, network, amount.
Qed.
End Healthy.

(** ** The middleware *)

Section Middleware.
Context `{GoUnicode}.
Variable m : Middleware.
Variable rq : Request.
Variable ts : Z.
Variables nonce body : string.
Abbreviation rv := (m_validator m).
Abbreviation secret := (activeSecret (rv_hmac rv)).

(** A request as a client signs it: both readers take in its whole body. *)
Record signed_by_client : Prop := {
  (** The path is sent without escapes. *)
  client_path : rq_EscapedPath rq = rq_Path rq;
  client_route : isExcluded m (rq_Path rq) = false;
  client_method : rq_Method rq = "POST"%string /\ isMethodAllowed m "POST" = true;
  client_size : (0 <? rv_maxBodySize rv) && (rv_maxBodySize rv <? rq_ContentLength rq) = false;
  client_read : read_limited (rv_maxBodySize rv) rq = Ok body;
  client_read_again : read_limited handler_body_limit (with_body body rq) = Ok body;
  client_time : 0 <= ts <= max_i64;
  client_nonce : nonce <> ""%string;
  client_secret : secret <> ""%string;
  client_signature :
    credentials rq = (itoa ts, nonce, GenerateHMAC secret (itoa ts) nonce body, false);
  client_key : opt_RequireAPIKey (m_options m) = true -> Header_Get rq "X-API-Key" <> ""%string;
}.

(** The clock is within the skew, the nonce is new, the limiter allows. *)
Definition healthy_nonce {X} (op : nonce_op X) : X -> bool :=
  match op in nonce_op X return X -> bool with
  | NExists _ => ok_with negb
  | NStore _ _ => is_ok
  end.

Definition healthy_sec (X : Type) (op : sec_op X) : X -> bool :=
  match op in sec_op X return X -> bool with
  | SNow => fun t => (0 <=? Unix t) && (Unix t <=? max_i64)
                     && (Z.abs (Unix t - ts) <=? maxSkew (rv_hmac rv))
  | SRand => fun _ => true
  | SNonce op => healthy_nonce op
  | SAllow _ => id
  end.

Abbreviation passes := (obeys (fun X op x => healthy_sec X op x = true) (fun _ => True)).

Lemma passes_bind {A B} (Q : A -> Prop) (R : B -> Prop) h (p : prog sec_op A) (f : A -> prog sec_op B) :
  passes (fun _ a => Q a) h p -> (forall h' a, Q a -> passes (fun _ b => R b) h' (f a)) ->
  passes (fun _ b => R b) h (p ≫= f).
Proof. intros Hp Hf. apply obeys_bind. eapply obeys_mono, Hp. cbn. auto. Qed.

Lemma passes_op {X A} (Q : list (event sec_op) -> A -> Prop) h (op : sec_op X) (k : X -> prog sec_op A) :
  (forall h' x, healthy_sec X op x = true -> passes Q h' (k x)) -> passes Q h (perform op ≫= k).
Proof. intros Hk. apply obeys_op; [done|]. intros x Hx. by apply Hk. Qed.

Lemma request_id_passes h : passes (fun _ _ => True) h generateRequestID.
Proof. by apply obeys_always. Qed.

Lemma signature_accepted t :
  signed_by_client -> healthy_sec _ SNow t = true ->
  ValidateHMAC (Unix t) (itoa ts) nonce (GenerateHMAC secret (itoa ts) nonce body) body (rv_hmac rv)
    = Ok tt.
Proof.
  intros [] Ht. cbn in Ht. rewrite !andb_true_iff, !Z.leb_le in Ht.
  apply ValidateHMAC_ok. split; [|by left].
  split; [done|]. split; [apply mac_hex_nonempty|]. split; [done|]. exists ts.
  split; [apply ParseInt64_itoa; unfold min_i64; lia|].
  rewrite skew_abs by (unfold min_i64, max_i64 in *; lia). lia.
Qed.

Lemma nonce_passes h : nonce <> ""%string ->
  passes (fun _ r => r = Ok tt) h (check_nonce rv nonce).
Proof.
  intros Hn. unfold check_nonce. rewrite (proj2 (String.eqb_neq nonce "") Hn).
  apply (passes_bind (fun r => r = Ok tt)); [|by intros h' r ->].
  unfold ValidateNonce. rewrite (proj2 (String.eqb_neq nonce "") Hn). cbn.
  split; [done|]. intros [[]|e] Hx; [done| |done]. cbn. split; [done|]. by intros [[]|e] Hx'.
Qed.

Lemma Handler_passes h :
  signed_by_client -> Enabled (m_options m) = true ->
  passes (fun _ out => exists c, out = Next (with_body body rq) (Some c) /\ Nonce c <> ""%string) h (Handler m rq).
Proof.
  intros Hc Henabled. pose proof Hc as [_ Hroute [Hpost Hmethod] Hsize Hread _ _ Hnonce _ Hsig Hkey].
  unfold Handler. rewrite Hroute, Hpost, Hmethod, Henabled. cbn [negb].
  apply (passes_bind (fun r => exists c, r = Ok (c, with_body body rq) /\ Validated c = true /\
           Nonce c = nonce /\ APIKey c = Header_Get rq "X-API-Key")).
  - unfold ValidateRequest. apply (passes_bind (fun _ => True)); [apply request_id_passes|].
    intros h1 id _. apply passes_op. intros h2 start _. rewrite Hsize, Hread, Hsig.
    unfold try. apply (passes_bind (fun r => r = Ok true)).
    + unfold check_signature. rewrite (proj2 (String.eqb_neq (GenerateHMAC _ _ _ _) "") (mac_hex_nonempty _ _)).
      apply passes_op. intros h3 t Ht. by rewrite (signature_accepted t Hc Ht).
    + intros h3 r ->. apply (passes_bind (fun r => r = Ok tt)); [by apply nonce_passes|].
      intros h4 r ->. apply passes_op. intros h5 allowed Hallowed.
      change (allowed = true) in Hallowed. rewrite Hallowed. cbn [negb].
      apply obeys_ret; [done|]. by eexists.
  - intros h1 r (c & -> & Hv & Hn & Hk). rewrite Hv, Hn, Hk. cbn [negb].
    rewrite andb_false_r, (proj2 (String.eqb_neq nonce "") Hnonce), andb_false_r.
    destruct (opt_RequireAPIKey (m_options m)) eqn:Hreq; cbn [andb].
    + rewrite (proj2 (String.eqb_neq _ "") (Hkey eq_refl)). apply obeys_ret; [done|].
      exists c. by rewrite Hn.
    + apply obeys_ret; [done|]. exists c. by rewrite Hn.
Qed.
End Middleware.

(** ** The service *)

(** Read as an implication on the history, the good answers leave the choice of
    answers free. *)
Section Given.
Context {E : Type -> Type}.
Variable adm : forall X, E X -> X -> Prop.
Variable good : forall X, E X -> X -> bool.

Definition all_good (h : list (event E)) : bool :=
  forallb (fun ev => good _ (ev_op ev) (ev_answer ev)) h.

Lemma obeys_bad {A} (Q : list (event E) -> A -> Prop) h (p : prog E A) :
  all_good h = false ->
  obeys adm (fun _ => True) (fun h' a => all_good h' = true -> Q h' a) h p.
Proof.
  revert h. induction p as [a|X e k IH]; intros h Hh; cbn; [by rewrite Hh|].
  split; [done|]. intros x _. apply IH. unfold all_good in *. by rewrite forallb_app, Hh.
Qed.

Lemma obeys_given {A} J (Q : list (event E) -> A -> Prop) h (p : prog E A) :
  obeys (fun X e x => good X e x = true) J Q h p ->
  obeys adm (fun _ => True) (fun h' a => all_good h' = true -> Q h' a) h p.
Proof.
  revert h. induction p as [a|X e k IH]; intros h; cbn; [by intros []|].
  intros [_ Hk]. split; [done|]. intros x _. destruct (good X e x) eqn:Hx; [by apply IH, Hk|].
  apply obeys_bad. unfold all_good. rewrite forallb_app. cbn. by rewrite Hx, andb_false_r.
Qed.
End Given.

Section Service.
Context `{GoUnicode, Geth, GoText}.
Variable in_time : Time -> bool.
Variable room : f64 -> bool.
Variable chain : Z -> bool.

Definition healthy_serve sv (ts : Z) (X : Type) (e : serve_op X) : X -> bool :=
  match e in serve_op X return X -> bool with
  | OnSecurity op => healthy_sec (sv_middleware sv) ts _ op
  | OnService e => healthy in_time room chain _ e
  end.

Lemma fitting_route sv path body :
  body_fits in_time room chain (sv_cfg sv) path body ->
  path ∈ patterns /\ String.eqb path "/healthz" = false /\ String.eqb path "/readyz" = false /\
  is_Some (protected_route sv path).
Proof.
  by intros [[-> _]|[[-> _]|[-> _]]]; (split; [unfold patterns; set_solver|do 2 split; [done|]]).
Qed.

Lemma serve_answers sv rq ts nonce body :
  signed_by_client (sv_middleware sv) rq ts nonce body ->
  Enabled (m_options (sv_middleware sv)) = true ->
  able (sv_cfg sv) -> body_fits in_time room chain (sv_cfg sv) (rq_Path rq) body ->
  obeys (fun X e x => healthy_serve sv ts X e x = true) (fun _ => True)
    (fun h out => exists r, out = Handled r /\
       answered (asks_for (sv_cfg sv) (rq_Path rq) body) (serve_sends h) r) [] (serve sv rq).
Proof.
  intros Hclient Henabled Hable Hfits.
  destruct (fitting_route sv _ _ Hfits) as (Hin & Hz & Hrz & [next Hnext]).
  rewrite <- (client_path _ _ _ _ _ Hclient) in Hin.
  unfold serve. rewrite (mux_pattern rq Hin), (client_path _ _ _ _ _ Hclient).
  unfold route. rewrite Hz, Hrz, Hnext.
  unfold behind. apply obeys_bind.
  pose proof (Handler_passes (sv_middleware sv) rq ts nonce body [] Hclient Henabled) as Hm.
  apply (obeys_translate _ (fun X e x => healthy_serve sv ts X e x = true) (@OnSecurity) _
           (fun _ => True) _ []) in Hm; [|done..].
  eapply obeys_mono, Hm. intros h out _ (h1 & -> & _ & c & -> & Hnonce). apply obeys_bind.
  assert (leads (healthy in_time room chain) (answered (asks_for (sv_cfg sv) (rq_Path rq) body)) []
            (next (with_body body rq) (Some c))) as Hroute.
  { eapply protected_answers; [done..| |done|]; by destruct Hclient as [_ _ [? _] _ _ ? _ _ _ _ _]. }
  specialize (Hroute [] eq_refl).
  apply (obeys_translate _ (fun X e x => healthy_serve sv ts X e x = true) (@OnService) _
           (fun _ => True) _ (on_security <$> h1)) in Hroute; [|done..].
  cbn [fmap list_fmap app] in Hroute |- *. rewrite (right_id_L [] (++)) in Hroute. eapply obeys_mono, Hroute.
  intros h' r _ (h2 & -> & _ & Hr). apply obeys_ret; [done|]. exists r. split; [done|].
  by rewrite serve_sends_app, serve_sends_security, serve_sends_service.
Qed.

(** Answered with 200 and the hash of the one transaction broadcast, which the node
    took and the body asks for. *)
Definition paid_and_told sv rq body (h : list (event serve_op)) (out : served) : Prop :=
  exists tx resp,
    out = Handled (Some {| res_status := 200; res_body := TransferJSON resp |}) /\
    serve_sends h = [(tx, true)] /\ TxHash resp = hash_Hex (st_hash tx) /\
    asks_for (sv_cfg sv) (rq_Path rq) body tx.

(** What becomes of a request that fits, in terms of the answers it got. *)
Definition paid_if_healthy sv rq ts body (h : list (event serve_op)) (out : served) : Prop :=
  all_good (healthy_serve sv ts) h = true -> paid_and_told sv rq body h out.

(** ** Statements that go well *)

Definition healthy_sql {X} (op : pg_op X) : X -> bool :=
  match op in pg_op X return X -> bool with
  | QInsertNonce _ _ => ok_with (fun rows => rows =? 1)
  | QSelectResult _ => ok_with (fun stored => negb (bool_decide (is_Some stored)))
  | QInsertLock _ => ok_with (fun rows => rows =? 1)
  | TSaveResult _ _ => is_ok
  | TReserveNonce _ _ _ => is_ok
  | QSelectAmounts _ _ => ok_with (fun amounts => room (foldl add_amount fzero amounts))
  | _ => fun _ => true
  end.

Definition healthy_pg sv (ts : Z) (X : Type) (e : pg_serve_op X) : X -> bool :=
  match e in pg_serve_op X return X -> bool with
  | AtSecurity op => healthy_sec (sv_middleware sv) ts _ op
  | AtService e =>
      match e in pg_eff X return X -> bool with
      | PEff e => healthy in_time room chain _ e
      | PSql op => healthy_sql op
      | PReturn _ _ => fun _ => true
      end
  end.

Lemma all_good_iff {E : Type -> Type} (good : forall X, E X -> X -> bool) h :
  all_good good h = true <-> forall ev, ev ∈ h -> good _ (ev_op ev) (ev_answer ev) = true.
Proof.
  unfold all_good. rewrite forallb_forall. by setoid_rewrite list_elem_of_In.
Qed.

(** A method whose statements go well answers well. *)
Lemma method_healthy {X} (e : store_eff X) l x :
  trace_of (pg_method e) l x -> all_good (fun X => @healthy_sql X) l = true ->
  healthy_store room e x = true.
Proof.
  destruct e; cbn [pg_method healthy_store]; try done.
  - unfold pg_AcceptNonce. destruct (String.eqb nonce "") eqn:Hn; [done|]. cbn.
    intros (d & l1 & -> & r & l2 & -> & Hr). cbn. rewrite andb_true_iff. intros [Hrows _].
    destruct r as [rows|e]; [|done]. by destruct Hr as [_ <-].
  - unfold pg_ClaimResult, pg_GetResult. destruct (String.eqb key "") eqn:Hk; cbn; [by intros [_ <-]|].
    intros (stored & l1 & -> & Hl). cbn. rewrite andb_true_iff. intros [Hstored Hgood].
    destruct stored as [[resp|]|e]; try done. cbn in Hl. destruct Hl as (rows & l2 & -> & Hr).
    cbn in Hgood. rewrite andb_true_iff in Hgood. destruct Hgood as [Hrows _].
    destruct rows as [rows|e]; [|done]. destruct Hr as [_ <-]. cbn in *. by rewrite Hrows.
  - unfold pg_SaveResult. destruct (String.eqb key ""); cbn; [by intros [_ <-]|].
    intros (r & l1 & -> & _ & <-). cbn. by rewrite andb_true_iff; intros [? _].
  - cbn. intros (r & l1 & -> & _ & <-). cbn. by rewrite andb_true_iff; intros [? _].
  - cbn. intros (r & l1 & -> & Hr). cbn. rewrite andb_true_iff. intros [Hroom _].
    destruct r as [rows|e]; [|done]. by destruct Hr as [_ <-].
Qed.

Lemma seen_healthy sv ts h :
  all_explained h -> all_good (healthy_pg sv ts) h = true ->
  all_good (healthy_serve sv ts) (seen h) = true.
Proof.
  unfold all_explained. rewrite !all_good_iff, Forall_forall. intros Hexp Hgood ev' Hev'.
  pose proof (Hexp ev' Hev') as He. apply list_elem_of_omap in Hev' as (ev & Hin & Hev).
  pose proof (Hgood ev Hin) as Hone. revert Hev Hone. destruct ev as [X [Y op|Y [V e|V op|V e y]] x]; cbn.
  - by intros [= <-].
  - by destruct e; intros [= <-].
  - by destruct op; intros [= <-].
  - destruct (reserve_call e) eqn:Hcall; [done|]. intros [= <-] _.
    destruct (He Hcall) as (l & Htrace & Hl). apply (method_healthy e l y Htrace), all_good_iff.
    intros ev Hev. apply (Hgood (at_sql ev)), Hl. by apply list_elem_of_fmap_2.
Qed.

Section Request.
Variable sv : service.
Variable rq : Request.
Variable ts : Z.
Variables nonce body : string.
Hypothesis enabled : Enabled (m_options (sv_middleware sv)) = true.
Hypothesis can_pay : able (sv_cfg sv).
Hypothesis signed : signed_by_client (sv_middleware sv) rq ts nonce body.
Hypothesis fits : body_fits in_time room chain (sv_cfg sv) (rq_Path rq) body.

Lemma serve_pays adm :
  obeys adm (fun _ => True) (paid_if_healthy sv rq ts body) [] (serve sv rq).
Proof.
  pose proof (serve_answers sv rq ts nonce body signed enabled can_pay fits) as Hserve.
  apply (obeys_given adm) in Hserve. eapply obeys_mono, Hserve.
  intros h out _ Hout Hgood. destruct (Hout Hgood) as (r & -> & tx & resp & ? & -> & ? & ?).
  by exists tx, resp.
Qed.

Context {SN : Type} `{NonceStore SN}.
Variable clock : nat -> Time.
Variable entropy : nat -> option (list Z).
Variable env : environment.

(** C4: a request that meets with no failure is paid. Among any other requests,
    guards and monitors, under any interleaving: a request that its client signed,
    whose body fits, and all of whose operations were answered well, ends with 200
    and the hash of the one transaction it broadcast, which its body asks for and
    the endpoint took. (Its operations are bounded: [request_work_bounded].) *)
Theorem healthy_request_is_paid {S} `{SignerStore S} gs (sw : sec_world SN) (w : world S) c' i out h :
  gs !! i = Some (Incoming rq) ->
  rtc (history_step (handle_serve clock entropy env)) (start sv gs, (sw, w)) c' ->
  c'.1 !! i = Some (Ret out, h) -> paid_if_healthy sv rq ts body h out.
Proof.
  intros Hi Hsteps Ht.
  assert ((start sv gs, (sw, w)).1 !! i = Some (serve sv rq, [])) as Hstart
    by (cbn; unfold start; by rewrite list_lookup_fmap, Hi).
  destruct (history_obeys _ _ _ _ _ _ _ (handle_serve_possible clock entropy env) Hsteps _ _ Hstart
              (serve_pays _)) as (p' & h' & Ht' & Hout).
  rewrite Ht in Ht'. injection Ht' as <- <-. by destruct Hout.
Qed.

(** ** Over PostgreSQL

    A goroutine's way is [smooth] as long as each of its own statements that matters
    finds no fault and the tables as it needs them, whatever the others did to them:
    no row of the nonce, no response and no lock of the key, room for the next chain
    nonce, a day's outflow with room. *)
Section Smooth.
Context `{PgServer}.

Definition can_reserve (wallet network : string) (p : Z) (t : pg_tables) : bool :=
  let held := max_live wallet network (signer_chain_nonces t) in
  let next := match held with Some n => Z.max p (n + 1) | None => p end in
  match held with Some n => 0 <=? n | None => true end && fits_bigint next &&
  bool_decide (signer_chain_nonces t !! (wallet, network, next) = None).

Definition day_amounts (c : call) (token network : string) (t : pg_tables) : list string :=
  (fun r => sx_Amount (tr_item r)) <$> List.filter (counts_today c token network) (rows_of c t).

Definition admits (c : call) {X} (op : pg_op X) (t : pg_tables) : bool :=
  let sound := match pg_fault c X op with None => true | Some _ => false end in
  match op with
  | QInsertNonce nonce _ => sound && bool_decide (signer_nonces t !! nonce = None)
  | QSelectResult key => sound && bool_decide (signer_idempotency t !! key = None)
  | QInsertLock key => sound && bool_decide (key ∉ signer_idempotency_locks t)
  | TSaveResult _ _ => sound
  | TReserveNonce wallet network p => sound && can_reserve wallet network p t
  | QSelectAmounts token network => sound && room (foldl add_amount fzero (day_amounts c token network t))
  | _ => true
  end.

Lemma can_reserve_ok wallet network p t :
  can_reserve wallet network p t = true -> is_ok (reserve_in wallet network p t).1 = true.
Proof.
  unfold can_reserve, reserve_in. set (held := max_live _ _ _).
  set (next := match held with Some n => Z.max p (n + 1) | None => p end).
  intros [[Hheld Hfits]%andb_true_iff Hfree]%andb_true_iff. apply bool_decide_eq_true in Hfree.
  assert (match held with
          | Some m => if p <? u64 (u64 m + 1) then u64 (u64 m + 1) else p
          | None => p end = next) as ->.
  { unfold next in *. destruct held as [n|]; [|done]. apply Z.leb_le in Hheld, Hfits.
    assert (u64 (u64 n + 1) = n + 1) as ->.
    { unfold max_i64 in Hfits. rewrite (wrap_u_small 64 n) by lia. apply wrap_u_small; lia. }
    destruct (Z.ltb_spec p (n + 1)); lia. }
  rewrite Hfits. cbn [negb]. by rewrite Hfree.
Qed.

Lemma admits_healthy c X (op : pg_op X) t :
  admits c op t = true -> healthy_sql op (handle_pg c X op t).1 = true.
Proof.
  unfold admits, handle_pg. destruct (pg_fault c X op) as [e|]; destruct op; try done;
    cbn [andb run_statement]; intros Hop; rewrite ?bool_decide_eq_true in Hop.
  - by rewrite Hop.
  - cbn. by rewrite Hop.
  - by rewrite bool_decide_false.
  - by apply can_reserve_ok.
Qed.

Definition smooth {X} (e : pg_serve_op X) (w : sec_world SN * world pg_tables) : bool :=
  match e with
  | AtSecurity op => healthy_sec (sv_middleware sv) ts _ op (handle_sec clock entropy _ op w.1).1
  | AtService e =>
      match e with
      | PEff e => healthy in_time room chain _ e (handle env _ e w.2).1
      | PSql op => admits (the_call env w.2) op (w_store w.2)
      | PReturn _ _ => true
      end
  end.

Lemma smooth_healthy X (e : pg_serve_op X) w :
  smooth e w = true -> healthy_pg sv ts X e (handle_pg_serve clock entropy env X e w).1 = true.
Proof.
  destruct e as [X op|X [Y e|Y op|Y e x]]; cbn [smooth healthy_pg handle_pg_serve handle_lowered].
  - by destruct (handle_sec clock entropy X op w.1).
  - by destruct (handle env Y e w.2).
  - intros Hop%admits_healthy. by destruct (handle_pg _ Y op _).
  - done.
Qed.

(** A step of the pool in which the goroutine [i], if it is its turn, goes
    smoothly. *)
Variable i : nat.
Abbreviation pool := (list (prog pg_serve_op served * list (event pg_serve_op)) *
                      (sec_world SN * world pg_tables))%type.

Inductive smooth_step : pool -> pool -> Prop :=
| smooth_thread ts w j X (e : pg_serve_op X) k h :
    ts !! j = Some (Vis e k, h) -> (j = i -> smooth e w = true) ->
    let r := handle_pg_serve clock entropy env X e w in
    smooth_step (ts, w) (<[j := (k r.1, h ++ [Event e r.1])%list]> ts, r.2).

Lemma smooth_steps_history c c' :
  rtc smooth_step c c' -> rtc (history_step (handle_pg_serve clock entropy env)) c c'.
Proof.
  apply rtc_subrel. intros c1 c2 [ts' w j X e k h Hj _]. by constructor.
Qed.

Lemma smooth_steps_good c c' :
  rtc smooth_step c c' -> forall p h, c.1 !! i = Some (p, h) -> all_good (healthy_pg sv ts) h = true ->
  forall p' h', c'.1 !! i = Some (p', h') -> all_good (healthy_pg sv ts) h' = true.
Proof.
  induction 1 as [c|c c1 c' Hstep _ IH]; intros p h Hi Hgood; [by intros; simplify_eq|].
  destruct Hstep as [ts' w j X e k h0 Hj Hsmooth r]. cbn [fst] in *. destruct (decide (j = i)) as [->|Hne].
  - rewrite Hj in Hi. injection Hi as <- <-. eapply IH.
    { apply list_lookup_insert_eq. by eapply lookup_lt_Some. }
    apply smooth_healthy in Hsmooth; [|done]. unfold all_good in *. rewrite forallb_app, Hgood.
    cbn [forallb ev_op ev_answer]. by rewrite andb_true_r.
  - eapply IH; [by rewrite list_lookup_insert_ne|done].
Qed.

(** Runs in a given order, for closed examples. *)
Fixpoint smooth_schedule (schedule : list nat) (c : pool) : bool :=
  match schedule with
  | [] => true
  | j :: schedule' =>
      match c.1 !! j with
      | Some (Vis e k, h) =>
          let r := handle_pg_serve clock entropy env _ e c.2 in
          (negb (Nat.eqb j i) || smooth e c.2) &&
          smooth_schedule schedule' (<[j := (k r.1, h ++ [Event e r.1])%list]> c.1, r.2)
      | _ => smooth_schedule schedule' c
      end
  end.

Lemma smooth_schedule_steps schedule c :
  smooth_schedule schedule c = true ->
  rtc smooth_step c (run_history (handle_pg_serve clock entropy env) schedule c).
Proof.
  revert c. induction schedule as [|j schedule IH]; intros [ts' w]; [by constructor|].
  cbn [smooth_schedule run_history fst snd]. destruct (ts' !! j) as [[[a|X e k] h]|] eqn:Hj; [apply IH| |apply IH].
  intros [Hj' Hrest]%andb_true_iff. eapply rtc_l; [|by apply IH]. apply smooth_thread; [done|].
  intros ->. by rewrite Nat.eqb_refl in Hj'.
Qed.

(** C7: so it is over PostgreSQL, with the goroutines interleaved between SQL
    statements, in terms of the tables: a request whose own statements, each at its
    moment, meet no fault and find no row of its nonce, no response and no lock for
    its key, a free row for the next chain nonce and room in the day's outflow, is
    paid and told so. *)
Theorem pg_healthy_request_is_paid gs (sw : sec_world SN) (w : world pg_tables) c' out h :
  gs !! i = Some (Incoming rq) ->
  rtc smooth_step (pg_start sv gs, (sw, w)) c' ->
  c'.1 !! i = Some (Ret out, h) -> paid_and_told sv rq body (seen h) out.
Proof.
  intros Hi Hsmooth Ht. pose proof (smooth_steps_history _ _ Hsmooth) as Hsteps.
  assert ((pg_start sv gs, (sw, w)).1 !! i = Some (lower_serve (serve sv rq), [])) as Hstart
    by (cbn; unfold pg_start; by rewrite list_lookup_fmap, Hi).
  pose proof (obeys_interp _ _ pg_event _ _ _ [] _ lower_serve_traced (serve_pays serve_possible)) as Hpays.
  destruct (history_obeys _ _ _ _ _ _ _ (handle_pg_possible clock entropy env) Hsteps _ _ Hstart Hpays)
    as (p' & h' & Ht' & Hout).
  rewrite Ht in Ht'. injection Ht' as <- <-. destruct Hout as [_ Hout]. apply Hout, seen_healthy.
  - pose proof (pg_steps_explained clock entropy env sv gs _ c' Hsteps) as Hexp.
    by apply (Forall_lookup_1 _ _ _ _ Hexp) in Ht.
  - by eapply smooth_steps_good.
Qed.
End Smooth.
End Request.
End Service.

(** ** Closed run: the transfer of [paying_at_once] *)

#[local] Existing Instance ascii_unicode.
#[local] Existing Instance ref_geth.
#[local] Existing Instance example_text.
#[local] Existing Instance mem_store.
#[local] Existing Instance list_map_order.

(** Any reading of the clock will do; the chain is BSC; the day's outflow with the
    ten of the transfer is within the limits. *)
Abbreviation any_time := (fun _ : Time => true).
Abbreviation bsc := (fun c => c =? 56).
Definition room_for_ten (o : f64) : bool :=
  forallb (fun limit => negb (fltb fzero limit && fltb limit (fadd o (f_of_Z 10))))
    [TreasuryLockThreshold example_config; TreasuryMaxDailyOut example_config].

Definition paying_config : SignerConfig := sv_cfg example_service.

Lemma paying_config_able : able paying_config.
Proof.
  split; [vm_compute; reflexivity..|].
  exists (from_hex (TrimPrefix (EVMPrivateKey paying_config) "0x")).
  by split; [vm_compute; reflexivity|].
Qed.

Definition ten_tokens : SignedTransaction := {|
  st_tx := {| tx_nonce := 7; tx_to := usdt; tx_value := 0; tx_gas := 120000; tx_gasPrice := 1;
              tx_data := default [] (erc20TransferData (HexToAddress (tr_To (example_transfer "10")))
                                       (10 * 10 ^ 18)) |};
  st_chainID := 56; st_hash := [] |}.

Lemma ten_tokens_paid :
  pays_transfer paying_config (example_transfer "10") "BSC" ten_tokens.
Proof.
  split; [reflexivity|]. cbv zeta.
  match goal with |- if ?b then _ else _ => replace b with true by (vm_compute; reflexivity) end.
  exists (10 * 10 ^ 18). split; [vm_compute; reflexivity|]. split; [vm_compute; reflexivity|].
  split; [reflexivity|]. vm_compute. reflexivity.
Qed.

Lemma ten_fits : body_fits any_time room_for_ten bsc paying_config "/hd/transfer" "10".
Proof.
  left. split; [done|]. exists (example_transfer "10"). split; [reflexivity|].
  assert (requestedNetwork paying_config (example_transfer "10") = "BSC"%string) as Hnet
    by (vm_compute; reflexivity).
  unfold transfer_fits. rewrite Hnet. split; [vm_compute; reflexivity|]. split; [reflexivity|].
  split; [|split; [split; [vm_compute; reflexivity|by intros _ c ->%Z.eqb_eq]|
                   exists ten_tokens; apply ten_tokens_paid]].
  exists (f_of_Z 10). split; [vm_compute; reflexivity|].
  intros o Ho limit Hlimit. unfold room_for_ten in Ho. rewrite forallb_forall in Ho.
  assert (limit ∈ [TreasuryLockThreshold example_config; TreasuryMaxDailyOut example_config]) as Hin
    by (revert Hlimit; by vm_compute).
  apply list_elem_of_In, Ho, negb_true_iff in Hin. exact Hin.
Qed.

Lemma ten_signed :
  signed_by_client (sv_middleware example_service) (signed_post "n-1" "10") 1700000000 "n-1" "10".
Proof. by split; vm_compute. Qed.

Definition ten_answered : served * list (event serve_op) :=
  match paying_at_once.1 !! 0%nat with
  | Some (Ret out, h) => (out, h)
  | _ => (Refused 0 "", [])
  end.

Lemma healthy_request_is_paid_witness :
  paid_if_healthy any_time room_for_ten bsc example_service (signed_post "n-1" "10") 1700000000 "10"
    ten_answered.2 ten_answered.1 /\
  all_good (healthy_serve any_time room_for_ten bsc example_service 1700000000) ten_answered.2 = true.
Proof.
  split; [|vm_compute; reflexivity].
  refine (healthy_request_is_paid any_time room_for_ten bsc example_service (signed_post "n-1" "10")
            1700000000 "n-1" "10" _ paying_config_able ten_signed ten_fits second_clock example_entropy
            good_environment two_payments example_world first_world paying_at_once 0
            ten_answered.1 ten_answered.2 eq_refl _ _).
  - vm_compute. reflexivity.
  - apply run_history_steps.
  - vm_compute. reflexivity.
Defined.

#[local] Existing Instance example_server.

Definition ten_answered_pg : served * list (event pg_serve_op) :=
  match pg_paying_at_once.1 !! 0%nat with
  | Some (Ret out, h) => (out, h)
  | _ => (Refused 0 "", [])
  end.

Lemma pg_healthy_request_is_paid_witness :
  paid_and_told example_service (signed_post "n-1" "10") "10" (seen ten_answered_pg.2) ten_answered_pg.1.
Proof.
  refine (pg_healthy_request_is_paid any_time room_for_ten bsc example_service (signed_post "n-1" "10")
            1700000000 "n-1" "10" _ paying_config_able ten_signed ten_fits second_clock example_entropy
            good_environment 0 two_payments example_world pg_world pg_paying_at_once
            ten_answered_pg.1 ten_answered_pg.2 eq_refl _ _).
  - vm_compute. reflexivity.
  - apply smooth_schedule_steps. vm_compute. reflexivity.
  - vm_compute. reflexivity.
Defined.
