(* ===== verification/Monitor.v ===== *)
(** * What the transaction monitor settles, and how soon.

    Each tick asks for the fifty oldest open transactions and for their receipts,
    over the first endpoint that answers. Here, over the PostgreSQL tables: a
    transaction with a receipt is settled within a number of ticks that depends on
    the open transactions no younger than it, as long as fewer than fifty of those
    have no receipt; behind fifty that have none it is never looked at. *)
From S2P Require Export PgTables.

(** ** The oldest of a list *)

Lemma filter_bool_sublist {A} (f : A -> bool) (l : list A) : List.filter f l `sublist_of` l.
Proof. induction l as [|x l IH]; cbn; [done|]. destruct (f x); by constructor. Qed.

Section Oldest.
Implicit Types (rows : list tx_row) (r x : tx_row).

Instance older_total : Total older.
Proof. intros x y. unfold older. lia. Qed.
Instance older_trans : Transitive older.
Proof. intros x y z. unfold older. lia. Qed.

Definition oldest n rows : list tx_row := take n (merge_sort older rows).

Lemma oldest_in n rows r : r ∈ oldest n rows -> r ∈ rows.
Proof. intros Hr. rewrite <- (merge_sort_Permutation older rows). by apply (subseteq_take n). Qed.

(** A row that is left out has [n] rows before it, none younger. *)
Lemma oldest_left_out n rows r :
  r ∈ rows -> r ∉ oldest n rows ->
  length (oldest n rows) = n /\ forall x, x ∈ oldest n rows -> older x r.
Proof.
  unfold oldest. intros Hr Hout.
  rewrite <- (merge_sort_Permutation older rows), <- (take_drop n (merge_sort _ _)) in Hr.
  apply elem_of_app in Hr as [Hr|Hr]; [done|]. split.
  - apply length_take_le. apply Nat.nlt_ge. intros Hlt. rewrite drop_ge in Hr by lia. by apply not_elem_of_nil in Hr.
  - pose proof (StronglySorted_merge_sort older rows) as Hs.
    rewrite <- (take_drop n (merge_sort _ _)) in Hs. intros x Hx.
    by eapply StronglySorted_app_1_elem_of.
Qed.

(** A row with [n] rows strictly before it is left out. *)
Lemma oldest_behind n rows xs r :
  NoDup xs -> (forall x, x ∈ xs -> x ∈ rows /\ tr_created x < tr_created r) ->
  (n <= length xs)%nat -> r ∉ oldest n rows.
Proof.
  unfold oldest. intros Hnd Hxs Hlen Hr.
  pose proof (StronglySorted_merge_sort older rows) as Hs.
  apply list_elem_of_lookup in Hr as [i Hi]. apply lookup_take_Some in Hi as [Hi Hn].
  assert (xs ⊆+ take i (merge_sort older rows)) as Hsub.
  { apply NoDup_submseteq; [done|]. intros x Hx. destruct (Hxs x Hx) as [Hin Hlt].
    rewrite <- (merge_sort_Permutation older rows) in Hin.
    rewrite <- (take_drop i (merge_sort _ _)) in Hin, Hs.
    apply elem_of_app in Hin as [Hin|Hin]; [done|]. exfalso.
    rewrite (drop_S _ _ _ Hi) in Hin, Hs. apply elem_of_cons in Hin as [->|Hin]; [lia|].
    apply StronglySorted_app_1_r, StronglySorted_inv in Hs as [_ Hs].
    rewrite Forall_forall in Hs. specialize (Hs _ Hin). unfold older in Hs. lia. }
  apply submseteq_length in Hsub. rewrite length_take in Hsub. lia.
Qed.
End Oldest.

(** ** One tick *)

Section Tick.
Context `{GoUnicode, Geth, GoText, PgServer}.
Implicit Types (h : string) (r : tx_row) (m : gmap string tx_row) (w : world pg_tables).

Variable env : environment.
Variable cfg : SignerConfig.
(** The first endpoint that answers, and the receipts it has. *)
Variable url : string.
Variable receipts : Hash -> result (option Z).

Definition monitor_statement {X} (op : pg_op X) : bool :=
  match op with QSelectOpen _ | QUpdateTransaction _ _ _ _ => true | _ => false end.

Record monitored : Prop := {
  mon_statements : forall c X (op : pg_op X), monitor_statement op = true -> pg_fault c X op = None;
  mon_url : exists dead others, RPCURLs cfg = (dead ++ url :: others)%list /\
    (forall n u, u ∈ dead -> is_ok (net env n _ (NDial u)) = false) /\
    (forall n, is_ok (net env n _ (NDial url)) = true);
  mon_receipts : forall n x, net env n _ (NTransactionReceipt url x) = receipts x;
}.

Definition receipt_of h : option Z :=
  match receipts (HexToHash h) with Ok o => o | Err _ => None end.

(** A row whose receipt has the status [code]. *)
Definition settled_as (code : Z) r : tx_row :=
  {| tr_item := if code =? 0
                then with_status "reverted" "receipt status failed" 1 (tr_item r)
                else with_status "confirmed" "" 1 (tr_item r);
     tr_created := tr_created r |}.

Definition settle h r : tx_row :=
  match receipt_of h with Some code => settled_as code r | None => r end.

Lemma settle_settle h r : settle h (settle h r) = settle h r.
Proof. unfold settle, settled_as. destruct (receipt_of h) as [code|]; [|done]. by destruct (code =? 0). Qed.

Lemma settled_not_open h r : is_Some (receipt_of h) -> is_open (tr_item (settle h r)) = false.
Proof. intros [code Hc]. unfold settle. rewrite Hc. cbn. by destruct (code =? 0). Qed.

(** The rows after those listed have been looked at. *)
Definition looked_at (listed : list string) h r : tx_row :=
  if decide (h ∈ listed) then settle h r else r.

Abbreviation rows w := (signer_transactions (w_store w)).

Definition after w w' (listed : list string) : Prop :=
  forall h, rows w' !! h = looked_at listed h <$> rows w !! h.

Lemma after_trans w w1 w2 l1 l2 : after w w1 l1 -> after w1 w2 l2 -> after w w2 (l1 ++ l2).
Proof.
  intros Hl1 Hl2 h. rewrite Hl2, Hl1. destruct (rows w !! h) as [r|]; [|done]. cbn. f_equal.
  unfold looked_at. repeat case_decide; rewrite ?settle_settle; done || set_solver.
Qed.

Lemma after_nil w w' : rows w' = rows w -> after w w' [].
Proof.
  intros Hrows h. rewrite Hrows. by destruct (rows w !! h).
Qed.

Lemma event_keeps_rows kind reason txHash wallet w :
  rows (execute env (custody_event cfg kind reason txHash wallet []) w).2 = rows w.
Proof.
  unfold custody_event, ignore, store_call. unfold execute. cbn -[handle_pg]. unfold pg_run. cbn -[handle_pg].
  destruct (handle_pg _ _ _ _) as [x t] eqn:Hpg. cbn.
  match type of Hpg with handle_pg ?c ?X ?op ?t0 = _ => pose proof (handle_pg_state c X op t0) as Ht end.
  rewrite Hpg in Ht. cbn in Ht. by destruct Ht as [-> | ->].
Qed.

Hypothesis mon : monitored.

Lemma sql_runs c X (op : pg_op X) t :
  monitor_statement op = true -> handle_pg c X op t = run_statement c X op t.
Proof. intros Hop. unfold handle_pg. by rewrite (mon_statements mon). Qed.

Lemma mark_rows status reason h w :
  rows (execute env (ignore (store_call (SMarkSignerTransactionStatus h status reason 1))) w).2 =
    alter (fun r => {| tr_item := with_status status reason 1 (tr_item r);
                       tr_created := tr_created r |}) h (rows w).
Proof.
  unfold ignore, store_call, execute. cbn -[handle_pg]. unfold pg_run, pg_MarkSignerTransactionStatus.
  change (fits_bigint 1) with true. cbn -[handle_pg]. by rewrite sql_runs.
Qed.

Lemma alter_after (f : tx_row -> tx_row) h w w' :
  rows w' = alter f h (rows w) -> (forall r, f r = settle h r) -> after w w' [h].
Proof.
  intros Hw' Hf h'. rewrite Hw'. unfold looked_at. destruct (decide (h' = h)) as [->|Hne].
  - rewrite lookup_alter_eq. destruct (rows w !! h); [|done]. cbn. f_equal. rewrite Hf. case_decide; set_solver.
  - rewrite lookup_alter_ne by done. destruct (rows w !! h'); [|done]. cbn. f_equal. case_decide; set_solver.
Qed.

Lemma check_receipt_after item w :
  after w (execute env (check_receipt cfg url item) w).2 [sx_TxHash item].
Proof.
  set (h := sx_TxHash item). unfold check_receipt, net_call.
  rewrite execute_op. cbn [handle fst snd record_net]. rewrite (mon_receipts mon).
  fold h.
  assert (receipt_of h = None -> after w (tick w) [h]) as Hnone.
  { intros Hn h'. cbn. destruct (rows w !! h'); [|done]. cbn. f_equal. unfold looked_at, settle.
    case_decide; [|done]. assert (h' = h) as -> by set_solver. by rewrite Hn. }
  unfold receipt_of in Hnone. destruct (receipts (HexToHash h)) as [[code|]|e] eqn:Hr; [|by apply Hnone..].
  rewrite execute_bind. destruct (execute env _ (tick w)) as [u w1] eqn:Hmark.
  apply (f_equal (fun p => rows p.2)) in Hmark. rewrite mark_rows in Hmark. cbn in Hmark.
  intros h'. rewrite event_keeps_rows. revert h'. eapply alter_after; [by rewrite <- Hmark|].
  intros r. unfold settle, receipt_of. rewrite Hr. unfold settled_as. by destruct (code =? 0).
Qed.

Lemma check_items_after items w :
  after w (execute env (check_items cfg url items) w).2 (sx_TxHash <$> items).
Proof.
  revert w. induction items as [|item items IH]; intros w; cbn [check_items]; [by apply after_nil|].
  rewrite execute_bind. pose proof (check_receipt_after item w) as Hone.
  destruct (execute env _ w) as [u w1]. apply (after_trans _ w1 _ [_]); [done|apply IH].
Qed.

Lemma check_on_urls_after items w :
  after w (execute env (check_on_urls cfg items (RPCURLs cfg)) w).2 (sx_TxHash <$> items).
Proof.
  destruct (mon_url mon) as (dead & others & -> & Hdead & Hlive). revert w.
  induction dead as [|u dead IH]; intros w; cbn [app check_on_urls]; unfold net_call; rewrite execute_op;
    cbn [handle fst snd record_net].
  - specialize (Hlive (w_tick w)). destruct (net _ _ _ _); [|done]. apply (check_items_after items (tick w)).
  - assert (is_ok (net env (w_tick w) _ (NDial u)) = false) as Hu by (apply Hdead; set_solver).
    destruct (net _ _ _ _); [done|].
    apply (IH ltac:(set_solver) (tick w)).
Qed.

Definition open_rows w : list tx_row :=
  List.filter (fun r => is_open (tr_item r)) (rows_of (the_call env w) (w_store w)).

Lemma tick_after w :
  after w (execute env (checkSignerTransactions cfg) w).2
    ((sx_TxHash ∘ tr_item) <$> oldest 50 (open_rows w)).
Proof.
  unfold checkSignerTransactions, store_call. rewrite execute_op. cbn -[handle_pg merge_sort].
  unfold pg_run. cbn -[handle_pg merge_sort].
  rewrite sql_runs by done. cbn -[merge_sort Z.to_nat].
  change (Z.to_nat 50) with 50%nat. rewrite <- fmap_take, list_fmap_compose.
  fold (open_rows w). fold (oldest 50 (open_rows w)).
  destruct (tr_item <$> oldest 50 (open_rows w)) as [|item items] eqn:Hl; [by apply after_nil|].
  apply (check_on_urls_after (item :: items) (tick (set_store (w_store w) w))).
Qed.

(** ** The transactions a tick looks at *)

(** Every row is stored under its hash: [ok_txs] of [tables_ok]. *)
Definition keyed m : Prop := map_Forall (fun h r => sx_TxHash (tr_item r) = h) m.

Abbreviation listed w := ((sx_TxHash ∘ tr_item) <$> oldest 50 (open_rows w)).

Lemma looked_at_hash l h r : sx_TxHash (tr_item (looked_at l h r)) = sx_TxHash (tr_item r).
Proof.
  unfold looked_at, settle, settled_as. case_decide; [|done]. destruct (receipt_of h) as [code|]; [|done].
  by destruct (code =? 0).
Qed.

Lemma after_keyed w w' l : after w w' l -> keyed (rows w) -> keyed (rows w').
Proof.
  intros Hw' Hkeyed h r. rewrite Hw', fmap_Some. intros (r0 & Hr0 & ->). rewrite looked_at_hash.
  by apply Hkeyed.
Qed.

Lemma elem_of_open_rows w r :
  r ∈ open_rows w <-> is_open (tr_item r) = true /\ exists h, rows w !! h = Some r.
Proof.
  unfold open_rows, rows_of. rewrite list_elem_of_In, filter_In, <- list_elem_of_In, list_elem_of_fmap.
  setoid_rewrite map_range_perm. split.
  - intros [([h x] & -> & Hx%elem_of_map_to_list) Ho]. split; [done|]. by exists h.
  - intros [Ho [h Hh%elem_of_map_to_list]]. split; [|done]. by exists (h, r).
Qed.

Lemma listed_NoDup w : keyed (rows w) -> NoDup (listed w).
Proof.
  intros Hkeyed. unfold oldest.
  eapply sublist_NoDup; [|apply fmap_sublist, sublist_take]. rewrite merge_sort_Permutation.
  eapply sublist_NoDup; [|apply fmap_sublist, filter_bool_sublist]. unfold rows_of.
  rewrite map_range_perm, <- list_fmap_compose.
  rewrite (list_fmap_ext _ fst (map_to_list (rows w))); [apply NoDup_fst_map_to_list|].
  intros i [h r] Hi%list_elem_of_lookup_2%elem_of_map_to_list. by apply Hkeyed.
Qed.

(** What is listed is the hash of an open row. *)
Lemma listed_open w h r :
  keyed (rows w) -> rows w !! h = Some r -> h ∈ listed w -> r ∈ oldest 50 (open_rows w).
Proof.
  intros Hkeyed Hh (r' & -> & Hr')%list_elem_of_fmap.
  pose proof (oldest_in _ _ _ Hr') as [_ [h Hh']]%elem_of_open_rows. cbn in Hh.
  rewrite (Hkeyed _ _ Hh') in Hh. by simplify_eq.
Qed.

(** ** Who is waiting

    The open transactions no younger than [T], those of them with a receipt, and
    those without. *)
Definition waiting (T : Time) m : gset string :=
  dom (filter (fun kv => is_open (tr_item kv.2) = true /\ tr_created kv.2 <= T) m).
Definition due (T : Time) m : gset string :=
  filter (fun h => is_Some (receipt_of h)) (waiting T m).
Definition stuck (T : Time) m : gset string :=
  filter (fun h => receipt_of h = None) (waiting T m).

Lemma elem_of_waiting T m h :
  h ∈ waiting T m <-> exists r, m !! h = Some r /\ is_open (tr_item r) = true /\ tr_created r <= T.
Proof.
  unfold waiting. rewrite elem_of_dom. unfold is_Some. by setoid_rewrite map_lookup_filter_Some.
Qed.

Lemma after_waiting T w w' h :
  keyed (rows w) -> after w w' (listed w) ->
  h ∈ waiting T (rows w') <-> h ∈ waiting T (rows w) /\ ~ (h ∈ listed w /\ is_Some (receipt_of h)).
Proof.
  intros Hkeyed Hw'. rewrite !elem_of_waiting, Hw'. unfold looked_at. split.
  - intros (r' & (r & -> & Hr)%fmap_Some & Ho & HT). subst. case_decide as Hin; [|naive_solver].
    destruct (receipt_of h) as [code|] eqn:Hc.
    + by rewrite settled_not_open in Ho by (rewrite Hc; done).
    + unfold settle in Ho, HT. rewrite Hc in Ho, HT. split; [by eexists|]. by intros [_ []%is_Some_None].
  - intros [(r & -> & Ho & HT) Hn]. eexists. split; [done|]. case_decide; [|done].
    unfold settle. destruct (receipt_of h); [|done]. by destruct Hn.
Qed.

Lemma after_stuck T w w' :
  keyed (rows w) -> after w w' (listed w) -> stuck T (rows w') = stuck T (rows w).
Proof.
  intros Hkeyed Hw'. apply set_eq. intros h. unfold stuck. rewrite !elem_of_filter.
  rewrite (after_waiting T w w' h Hkeyed Hw'). unfold is_Some. naive_solver.
Qed.

(** A transaction with a receipt that is not looked at: the tick settles as many
    of those before it as the stuck ones leave room for. *)
Lemma tick_progress w w' h r :
  keyed (rows w) -> after w w' (listed w) ->
  rows w !! h = Some r -> is_open (tr_item r) = true -> h ∉ listed w ->
  (size (due (tr_created r) (rows w')) + (50 - size (stuck (tr_created r) (rows w))) <=
     size (due (tr_created r) (rows w)))%nat.
Proof.
  intros Hkeyed Hw' Hh Ho Hout. set (T := tr_created r). set (L := list_to_set (listed w) : gset string).
  destruct (oldest_left_out 50 (open_rows w) r) as [Hlen Holder].
  { apply elem_of_open_rows. by split; [|exists h]. }
  { intros Hin. apply Hout, list_elem_of_fmap. exists r. split; [|done]. by rewrite <- (Hkeyed _ _ Hh). }
  assert (size L = 50%nat) as HL.
  { unfold L. rewrite size_list_to_set by (by apply listed_NoDup). by rewrite length_fmap. }
  assert (L ⊆ waiting T (rows w)) as Hsub.
  { intros h'. unfold L. rewrite elem_of_list_to_set, list_elem_of_fmap. intros (x & -> & Hx).
    pose proof (oldest_in _ _ _ Hx) as [Hox [h' Hh']]%elem_of_open_rows.
    apply elem_of_waiting. exists x. cbn. rewrite (Hkeyed _ _ Hh'). split; [done|]. split; [done|].
    by apply Holder. }
  assert (due T (rows w') = due T (rows w) ∖ L) as ->.
  { apply set_eq. intros h'. unfold due, L. rewrite elem_of_difference, !elem_of_filter, elem_of_list_to_set.
    rewrite (after_waiting T w w' h' Hkeyed Hw'). tauto. }
  assert (L ⊆ (due T (rows w) ∩ L) ∪ stuck T (rows w)) as Hcover%subseteq_size.
  { intros h' Hin. specialize (Hsub _ Hin). unfold due, stuck.
    rewrite elem_of_union, elem_of_intersection, !elem_of_filter.
    destruct (receipt_of h'); [left|right]; naive_solver. }
  rewrite size_union_alt in Hcover.
  pose proof (subseteq_size (stuck T (rows w) ∖ (due T (rows w) ∩ L)) (stuck T (rows w)) ltac:(set_solver)).
  pose proof (subseteq_size (due T (rows w) ∩ L) (due T (rows w)) ltac:(set_solver)).
  rewrite size_difference_alt. lia.
Qed.

(** Behind fifty stuck ones nothing is looked at. *)
Lemma tick_starves w h r :
  keyed (rows w) -> rows w !! h = Some r ->
  (50 <= size (stuck (tr_created r - 1) (rows w)))%nat -> h ∉ listed w.
Proof.
  intros Hkeyed Hh Hstuck Hin. apply (listed_open w h r Hkeyed Hh) in Hin. revert Hin.
  set (S := stuck _ _) in *. pose (xs := omap (fun k => rows w !! k) (elements S)).
  assert (forall k, k ∈ elements S -> exists x, rows w !! k = Some x /\
            is_open (tr_item x) = true /\ tr_created x < tr_created r) as HS.
  { intros k. rewrite elem_of_elements. unfold S, stuck. rewrite elem_of_filter, elem_of_waiting.
    intros [_ (x & Hx & Ho & HT)]. exists x. repeat split; [done..|lia]. }
  assert (sx_TxHash <$> (tr_item <$> xs) = elements S) as Hhash.
  { unfold xs. clear -HS Hkeyed. induction (elements S) as [|k l IH]; [done|]. cbn.
    destruct (HS k) as (x & Hx & _); [by left|]. rewrite Hx. cbn. rewrite (Hkeyed _ _ Hx).
    f_equal. apply IH. intros k' Hk'. apply HS. by right. }
  apply (oldest_behind 50 (open_rows w) xs r).
  - apply (NoDup_fmap_1 tr_item), (NoDup_fmap_1 sx_TxHash). rewrite Hhash. apply NoDup_elements.
  - intros x. unfold xs. rewrite list_elem_of_omap. intros (k & Hk & Hx).
    destruct (HS k Hk) as (x' & Hx' & Ho & HT). simplify_eq. split; [|done].
    apply elem_of_open_rows. by split; [|exists k].
  - etrans; [apply Hstuck|]. unfold size, set_size. cbn. rewrite <- Hhash. by rewrite !length_fmap.
Qed.

(** ** The monitor *)

Lemma monitor_tick n w :
  exists w', after w w' (listed w) /\
    (execute env (startTxLifecycleMonitor cfg (S n)) w).2 =
      (execute env (startTxLifecycleMonitor cfg n) w').2.
Proof.
  cbn [startTxLifecycleMonitor]. rewrite execute_bind. pose proof (tick_after w) as Hw'.
  destruct (execute env (checkSignerTransactions cfg) w) as [u w']. by exists w'.
Qed.

(** A row that no tick can change. *)
Lemma monitor_leaves n w h r :
  keyed (rows w) -> rows w !! h = Some r ->
  is_open (tr_item r) = false \/ receipt_of h = None \/
    (50 <= size (stuck (tr_created r - 1) (rows w)))%nat ->
  rows (execute env (startTxLifecycleMonitor cfg n) w).2 !! h = Some r.
Proof.
  revert w. induction n as [|n IH]; intros w Hkeyed Hh Hr; [done|].
  destruct (monitor_tick n w) as (w' & Hw' & ->). apply IH; [by eapply after_keyed| |].
  - rewrite Hw', Hh. cbn. f_equal. unfold looked_at. case_decide as Hin; [|done].
    destruct Hr as [Hc|[Hn|Hs]].
    + apply (listed_open w h r) in Hin; [|done..].
      apply oldest_in, elem_of_open_rows in Hin as [Ho _]. by rewrite Ho in Hc.
    + unfold settle. by rewrite Hn.
    + by eapply tick_starves in Hin.
  - by rewrite (after_stuck _ w w').
Qed.

(** C35: the monitor settles what it can reach. An open transaction with a
    receipt becomes confirmed or reverted, as the receipt says, within [n] ticks if
    the open transactions no younger than it that have a receipt, itself included,
    are at most [n] times what the ones without leave of the fifty each tick looks
    at. Nothing else changes a transaction: not one that is settled, not one
    without a receipt, and not one behind fifty older ones without a receipt,
    however long the monitor runs and whatever its own receipt. The assumptions are
    those of [monitored]: the statements that list and mark do not fail, and the
    first endpoint that dials is the same at every tick, with the same receipts. *)
Theorem monitor_settles n w h r :
  tables_ok (w_store w) -> rows w !! h = Some r ->
  (is_open (tr_item r) = true -> is_Some (receipt_of h) ->
   (size (due (tr_created r) (rows w)) <= n * (50 - size (stuck (tr_created r) (rows w))))%nat ->
   rows (execute env (startTxLifecycleMonitor cfg n) w).2 !! h = Some (settle h r)) /\
  (is_open (tr_item r) = false \/ receipt_of h = None \/
     (50 <= size (stuck (tr_created r - 1) (rows w)))%nat ->
   rows (execute env (startTxLifecycleMonitor cfg n) w).2 !! h = Some r).
Proof.
  intros Hok Hh. assert (keyed (rows w)) as Hkeyed by (intros h' r' Hr'; by apply (ok_txs _ Hok)).
  clear Hok. split; [|by apply monitor_leaves]. intros Ho Hc.
  revert w Hkeyed Hh. induction n as [|n IH]; intros w Hkeyed Hh Hdue.
  - assert (h ∈ due (tr_created r) (rows w)) as Hin.
    { unfold due. rewrite elem_of_filter, elem_of_waiting. split; [done|]. exists r. by repeat split. }
    apply Nat.le_0_r, size_empty_inv in Hdue. set_solver.
  - destruct (monitor_tick n w) as (w' & Hw' & ->). assert (keyed (rows w')) by (by eapply after_keyed).
    pose proof (Hw' h) as Hh'. rewrite Hh in Hh'. cbn in Hh'. unfold looked_at in Hh'. case_decide as Hin.
    + apply monitor_leaves; [done..|]. left. by apply settled_not_open.
    + apply IH; [done..|]. rewrite (after_stuck _ w w') by done.
      pose proof (tick_progress w w' h r Hkeyed Hw' Hh Ho Hin). lia.
Qed.
End Tick.

(** ** Closed runs *)

#[local] Existing Instance ascii_unicode.
#[local] Existing Instance ref_geth.
#[local] Existing Instance example_text.
#[local] Existing Instance example_server.

Definition submitted_tx (hash : string) : SignerTransaction := {|
  sx_IdempotencyKey := ""; sx_WalletFrom := "0xw"; sx_WalletTo := "0xt"; sx_Token := "usdt";
  sx_Amount := "1"; sx_Network := "BSC"; sx_Nonce := 0; sx_TxHash := hash;
  sx_Status := "submitted"; sx_Reason := ""; sx_Confirmations := 0 |}.

(** The table after submissions at the times 0, 1, .. *)
Definition submit (t : pg_tables) (time : nat) (hash : string) : pg_tables :=
  (pg_run (pg_CreateSignerTransaction (submitted_tx hash))
     {| c_now := Z.of_nat time; c_seed := 0 |} t).2.

Lemma submit_ok t time hash : tables_ok t -> tables_ok (submit t time hash).
Proof.
  intros Ht. unfold submit, pg_run, pg_CreateSignerTransaction. change (_ && _) with true. cbv iota.
  rewrite run_perform.
  by apply (statement_keeps _ _ (QUpsertTransaction _)).
Qed.

Definition submissions (hashes : list string) : pg_tables :=
  (foldl (fun '(t, time) hash => (submit t time hash, S time)) (empty_tables, 0%nat) hashes).1.

Definition monitor_world (hashes : list string) : world pg_tables :=
  start_world (submissions hashes) (newRPCFleet 0 []).

Lemma monitor_settles_witness :
  signer_transactions (w_store (execute good_environment
    (startTxLifecycleMonitor example_config 1) (monitor_world ["0x01"; "0x02"])).2) !! "0x02" =
  Some {| tr_item := with_status "confirmed" "" 1 (submitted_tx "0x02"); tr_created := 1 |}.
Proof.
  refine (proj1 (monitor_settles good_environment example_config "https://a.example"
            (fun _ => Ok (Some 1)) _ 1 (monitor_world ["0x01"; "0x02"]%string) "0x02"
            {| tr_item := submitted_tx "0x02"; tr_created := 1 |} _ _) _ _ _).
  - split; [done| |done]. exists [], ["https://b.example"%string]. repeat split. set_solver.
  - change (w_store _) with (submit (submit empty_tables 0 "0x01") 1 "0x02").
    apply submit_ok, submit_ok, empty_tables_ok.
  - vm_compute. reflexivity.
  - reflexivity.
  - by eexists.
  - vm_compute. lia.
Defined.

(** Fifty transactions that never get a receipt, then one that has one. *)
Definition mined_only (h : Hash) : result (option Z) :=
  if bool_decide (h = HexToHash "0xff") then Ok (Some 1) else Ok None.

Definition patchy_environment : environment := {|
  clock := clock good_environment;
  net n X e := match e in net_eff X return X with
               | NTransactionReceipt _ h => mined_only h
               | e => net good_environment n _ e
               end;
  map_order := list_map_order |}.

Definition dropped (n : nat) : list string := (fun i => itoa (Z.of_nat i)) <$> seq 0 n.

Definition status_after (ticks n : nat) : option string :=
  let w := monitor_world (dropped n ++ ["0xff"%string]) in
  let w' := (execute patchy_environment (startTxLifecycleMonitor example_config ticks) w).2 in
  (fun r => sx_Status (tr_item r)) <$> signer_transactions (w_store w') !! "0xff".

Example behind_49 : status_after 1 49 = Some "confirmed"%string.
Proof. vm_compute. reflexivity. Qed.
Example behind_50 : status_after 3 50 = Some "submitted"%string.
Proof. vm_compute. reflexivity. Qed.
